(* ===== verification/_CoqProject ===== *)
-Q . S2P
Prelude.v
History.v
Text.v
Float64.v
Types.v
GpuResources.v
GpuApi.v
Instances.v
Resolver.v
Phase.v
Preemption.v
Lease.v
Reconcile.v
Scraper.v
Kueue.v
QueueApi.v
QueueSync.v
QueueConverge.v
LocalQueues.v
QueueQuiet.v
Scheduling.v
Nodepools.v
QueueInstances.v
PoolTheory.v
QueueConfig.v
Resources.v
Ordering.v
Runes.v
Naming.v
DerivedNames.v
ImageNames.v
Scripts.v
Framework.v
WorkloadTypes.v
Labels.v
WorkloadApi.v
Handlers.v
PodSpecs.v
Downloads.v
Manifests.v
ManifestTheory.v
Lifecycle.v
Observation.v
WorkloadSafety.v
Monitoring.v
Interleaving.v
Tickers.v
Startup.v
Watches.v
WorkloadTheory.v
Endpoint.v
WorkloadInstances.v
ManifestInstances.v
Clients.v
Replicas.v
QueueStats.v
NodeStats.v
Users.v
Interactive.v
Submit.v
ConsoleApi.v
Console.v
ConsoleSteps.v
ConsoleTheory.v
ConsoleProgress.v
LogLines.v
LogDump.v
LogTheory.v
Webhooks.v
Witnesses.v
WorkloadWitnesses.v
UtilityWitnesses.v
ManifestWitnesses.v
ClientWitnesses.v
OperatorWitnesses.v
