(* ===== verification/Prelude.v ===== *)
(** * Verification of Kaiwo

    Kaiwo is a Kubernetes operator for AI workloads on GPU clusters. Its own logic,
    in Go, falls into eight parts that share the API server and little else:

    - GPU preemption (internal/controller/gpuworkload_*.go). A GpuWorkload tracks the
      pods of one root owner. A scraper records the GPU utilization of the pods, the
      controller derives a phase from pods, Kueue workloads and utilization, and an
      evaluation, serialised among replicas by a lease, marks idle workloads for
      preemption when others wait for the same GPUs.
    - Queue configuration (internal/controller/kaiwoqueueconfig_controller.go,
      internal/controller/utils). A KaiwoQueueConfig is turned into Kueue flavors,
      cluster queues, local queues, priority classes and topologies; a default one is
      generated from the nodes.
    - Workloads (pkg/workloads, internal/controller/kaiwojob_controller.go,
      kaiwoservice_controller.go). A KaiwoJob or KaiwoService is sized and checked
      against the cluster, its storage and its own object are ensured, and its status
      follows what is observed until it ends or is terminated. The objects are a batch
      job, a deployment, a Ray job or a wrapped Ray service, with pods made from what
      the user gives or from default ones, volume claims, and a job that downloads.
    - Resource monitoring (pkg/utils/monitoring). A watcher records on workloads
      whether their GPUs are used and flags the ones that leave them idle.
    - Admission (internal/webhook/v1). Batch jobs that ask for GPUs are put under a
      KaiwoJob when they are created and let go when they are deleted.
    - The command line client (pkg/cli, pkg/tui). It submits manifests, shows the state of
      queues and nodes, and lets the user walk through workloads and pods to read logs,
      run commands, forward ports and delete.
    - The log dump (pkg/cli/dev), a tool for test runs: it collects the logs and events
      around a namespace, puts them in one order and prints those that matter.

    - The processes themselves (cmd/operator, pkg/k8s/client.go). The operator is set up
      from flags and environment and starts its manager; its controllers watch what they
      depend on, and its runnables poll.

    Beside these stand helpers with logic of their own (internal/controller/utils,
    pkg/utils, pkg/k8s): names, image references, a generic reconciler, replica counts.

    ** How the code is modelled

    Code that talks to the outside (API server, clock, event recorder, metrics
    endpoint) is a program of the monad [prog] below: a tree of calls with
    continuations for their answers. Nothing is assumed about the answers unless a
    theorem says so with a contract ([always ok p Q]), a store that serves them
    ([ensures]) or a history ([traced], History.v). Go errors are values of
    [error], which keep what they wrap; functions that can also panic return an
    [outcome] or an [option], as their files say. Maps and slices that several owners
    write to are cells of a store (Resources.v) or, where two fields are one map, the one
    value both have in the end (Manifests.v). Loops are [for_range] and
    [for_each], structural in the slice; [int] and [int64] are integers with
    [int64_wrap] where the code can overflow; [time.Sub] saturates; [float64] is IEEE
    binary64 from the standard library's specification (Float64.v). Sorting and
    ranging over maps are the class [GoOrder], which leaves the order of ties and of
    map entries open. Libraries that are not in the repository (apimachinery,
    controller-runtime, strconv, time) appear as classes ([Host], [Quantities],
    [KubeLib], [WorkloadLib], [Encoding], [ClientObject], [ObjectWithStatus], [UnstructuredLib], [TableLib], [LogLib]) whose laws are what
    their documentation says; Instances.v, QueueInstances.v, WorkloadInstances.v,
    UtilityWitnesses.v and ClientWitnesses.v show that the laws can be met.
    Dialogues with a user, who can always answer wrong and be asked again, are programs
    that end in a [session] (Interactive.v): done, or still asking after the rounds that
    were allowed. Marshalling to JSON and YAML ([JsonLib], [YamlLib], [YamlReader]) has no laws.

    ** Files

    - Prelude.v, Text.v, Float64.v: integers, strings, errors, programs, loops,
      traces, retries; byte strings; floating point. History.v: rules for what programs
      that can fail do, event by event.
    - Utilities. Ordering.v: sorting. Runes.v: UTF-8. Naming.v: RFC 1123 names.
      DerivedNames.v: names from parts and a hash. ImageNames.v: label values and image
      references. Scripts.v: entry points. Framework.v: the generic reconciler.
    - GPU preemption. Types.v and GpuApi.v: the GpuWorkload resource and the calls.
      GpuResources.v: GPU counts of pods, settings. Resolver.v: root owners
      (gpuworkload_resolver.go; the walk is bounded by maxOwnerDepth = 10, as in the
      code). Phase.v: [computePhase]. Preemption.v: classifying workloads and choosing
      victims. Lease.v: [tryAcquireLease], [tryRunPreemptionEvaluation], and the
      replicas as a step relation. Reconcile.v: the controller. Scraper.v: one poll.
    - Queue configuration. Kueue.v and QueueApi.v: resources, conversions, calls.
      QueueSync.v: the sync functions. QueueConverge.v, LocalQueues.v, QueueQuiet.v:
      what they bring about on a server. Nodepools.v, PoolTheory.v: pools of nodes,
      flavors, the default queue. QueueConfig.v: [EnsureKaiwoQueueConfig], [Reconcile].
    - Workloads. Scheduling.v: sizing and the Schedulable condition. Resources.v:
      container resources, with the maps as shared cells.
      WorkloadTypes.v and WorkloadApi.v: resources, calls, interfaces. Handlers.v: what
      is observed of jobs, Ray jobs, deployments, Ray services, volumes and downloads,
      and admission. Labels.v: the system labels. PodSpecs.v: pod templates.
      Downloads.v: volume claims, the configuration of the downloader and its job.
      Manifests.v: the four kinds of objects, and ManifestTheory.v: what all of them
      satisfy. Lifecycle.v: everything from [Reconcile] down to the single calls, for any
      manifests; ManifestInstances.v puts in those of Manifests.v.
    - Client. Replicas.v: replica counts and queue lookups (pkg/k8s/kueue.go).
      QueueStats.v and NodeStats.v: the status commands (pkg/cli/stats.go). Users.v:
      addresses and the current user. Interactive.v: dialogues. Submit.v: the command
      submit. ConsoleApi.v, Console.v, ConsoleSteps.v: tables, steps and actions of the
      terminal interface, and the commands manage, logs, exec and monitor; ConsoleTheory.v
      and ConsoleProgress.v: what they may do and that they come back to the user.
    - Log dump (pkg/cli/dev/main.go). LogLines.v: levels, lines and events. LogDump.v: the
      collectors, filtering, printing and the command; its goroutines run one after the
      other, and calls of the scheduler say how their entries arrive, which error is
      reported and whether a goroutine that was left behind sends too late. LogTheory.v:
      what is printed.
    - Monitoring.v: one tick of the utilization watcher. Webhooks.v: the admission
      webhooks of batch jobs, with their theory.
    - The processes. Startup.v: the operator from its flags to the start of the manager
      (cmd/operator/main.go). Watches.v: what wakes the controllers (SetupWithManager).
      Tickers.v: the loops of the scraper and of the watcher. Endpoint.v: how they read the
      metrics, and what an error page does to them. Clients.v: kubeconfigs and
      clients, and the values made once for a process (pkg/k8s/client.go).
    - Observation.v, WorkloadSafety.v, Interleaving.v, WorkloadTheory.v: the theory of
      the workload controllers and the watcher.
    - Witnesses.v, WorkloadWitnesses.v, UtilityWitnesses.v, ManifestWitnesses.v,
      ClientWitnesses.v, OperatorWitnesses.v: the theorems with hypotheses at concrete inputs.

    ** What the theorems show

    Preemption: at most one replica evaluates at a time as long as an evaluation is
    shorter than the lease; every write of the GpuWorkload controller is one its rules
    sanction by the owner, the pods, the Kueue workloads and the configuration it has
    just read, and the writes the rules call for are made; victims of one resource are
    never taken twice, free enough for the pending workload or are not taken at all, are
    the longest idle, and are marked unless they are no longer idle; the phase and the
    utilization it rests on are what the definitions say; owner resolution terminates
    and is right; the scraper writes metrics only.

    Queues: a sync that gets answers brings the cluster in line with the configuration
    and leaves a cluster that is in line alone; merging keeps what users configured;
    pools hold exactly the nodes of their flavor and label names parse back; the default
    cluster queue covers its resources. Two theorems pin down behaviours in which a
    failed read or the creation path deletes what it should keep.

    Utilities: derived names have at most 63 bytes and do not depend on the order in which
    maps are visited; label values are valid; an image reference that is printed parses
    back; the generic reconciler changes nothing it does not account for and, when its
    calls succeed, does all its steps.

    Manifests: whatever the kind, the pods of a workload carry its run and mount volumes
    they have, are let onto the GPU nodes the operator taints, and claim what the operator
    creates, but for one case that is pinned down; a download finds each of its secrets,
    wherever it is referred to, where its configuration says; an entry point runs as it is written; a deployment selects its own
    pods; Kueue is told of all pods of a Ray service exactly when it has one group.

    Workloads: the Schedulable condition is true exactly when queue and GPUs admit the
    workload; every status write of a reconcile is a step of the life cycle, resources
    are applied only after the recorded status was confirmed and downloads succeeded, and
    only owned objects of a workload recorded as terminated are deleted. For reconciles,
    ticks of the watcher and users in any interleaving, with stale reads and optimistic
    locking, the versions of a workload follow the life cycle, and final statuses are
    final. Further theorems characterise preemption, deletion, local queues and names,
    and where the controllers get stuck: a condition the watcher leaves blocks all later
    reconciles, and a failed deletion is never retried. Jobs that are admitted keep what
    they had and are managed when they ask for GPUs; labels of a workload reach its
    objects unless they set them themselves.

    Client: the queue table counts what its rows are meant to say, and panics exactly on
    queues and workloads whose cluster queue is not listed; submitting writes once, and
    what it creates is the manifest with only its missing fields filled in, from the flags
    and the configuration that was read; the terminal interface never panics, deletes only
    what the user just confirmed and forwards only the port of the row the user chose, or
    the one typed for it. Two theorems pin down that streams are asked for with the
    wrong names and that the list of workloads is not restricted.

    Log dump: whatever the interleaving, every line and event becomes one entry, and what
    is printed is chosen by namespace, time and level, in the order of time; or nothing
    is, when something could not be read.

    Processes: the manager starts only when all controllers, webhooks, watchers and the
    configuration are in place, and a failure before ends the process; an update of an
    owned object that wakes nobody changes nothing that a reconcile would observe, and
    nodes whose updates are passed over stay in their pools; the loops poll at every tick
    until their context is done, unless the watcher meets an error page, which takes the
    operator down. Certificates that are configured and never served are
    pinned down.

    ** Bounds

    Two things take fuel. The walk to the root owner has the bound of the code itself.
    Dialogues and the loop over the steps of the terminal interface have a number of
    rounds, because the user can keep them going: [RunSteps_comes_back] shows that a run
    that is not over has asked the user about half as many times, and that a run that is
    over does not depend on the number. The polling loops run for a number of ticks in the
    same way, and say that they are still running. Otherwise definitions take none; shortening a derived name is a well-founded recursion on the length of its
    parts. Retries on conflict are [RetryOf]: any number of attempts, each after a
    conflict.

    ** Not modelled

    Parsing flags, the format of the log and the tree of commands are left out, and so is
    how controller-runtime queues and delivers events: a controller is what it hands to the
    builder. The transport of HTTP and the parser of the metrics format are the
    environment's ([TextFormat] has one law). Some helpers are called by no code of the repository (printing objects as
    YAML in pkg/k8s/utils.go, pkg/utils/keychain.go, internal/controller/utils/events.go);
    pkg/utils/naming.go repeats internal/controller/utils/naming.go word for word but for
    the function it gets its RFC 1123 names from, which DerivedNames.v takes as an argument.
    Drawing, and copying a stream once it is open, are single calls of the client.
    Building the manifests writes into slices of the workload that is in memory (the
    containers of the template a user gives): the model returns the new object and leaves
    the workload as it was, which nothing reads before the next reconcile fetches it
    again. *)

From stdpp Require Import gmap strings list fin_maps sorting.
From Stdlib Require Import ZArith Lia FunctionalExtensionality.

#[global] Open Scope Z_scope.
#[export] Set Warnings "-clear-no-such-hyp".

(** * Go integers, times and durations *)

(** [int] and [int64] are 64-bit two's complement numbers; [time.Time] is a
    number of nanoseconds and [time.Duration] an [int64] number of them. *)
Definition int64_min : Z := - 2 ^ 63.
Definition int64_max : Z := 2 ^ 63 - 1.
Definition int64_wrap (z : Z) : Z := (z + 2 ^ 63) `mod` 2 ^ 64 - 2 ^ 63.
Definition in_int64 (z : Z) : Prop := int64_min ≤ z ≤ int64_max.
#[export] Instance in_int64_dec z : Decision (in_int64 z).
Proof. unfold in_int64. apply _. Defined.

(** [Time.Sub] saturates at the ends of the duration range. *)
Definition time_sub (t u : Z) : Z := Z.max int64_min (Z.min int64_max (t - u)).

Definition Second : Z := 1000000000.
Definition Minute : Z := 60 * Second.
Definition Hour : Z := 60 * Minute.

Lemma int64_wrap_id z : in_int64 z → int64_wrap z = z.
Proof. unfold in_int64, int64_min, int64_max, int64_wrap. intros. rewrite Z.mod_small; lia. Qed.

Lemma int64_wrap_range z : in_int64 (int64_wrap z).
Proof.
  unfold in_int64, int64_min, int64_max, int64_wrap.
  pose proof (Z.mod_pos_bound (z + 2 ^ 63) (2 ^ 64)). lia.
Qed.

Lemma int64_wrap_add_l a b : int64_wrap (int64_wrap a + b) = int64_wrap (a + b).
Proof.
  unfold int64_wrap. f_equal.
  replace ((a + 2 ^ 63) `mod` 2 ^ 64 - 2 ^ 63 + b + 2 ^ 63) with ((a + 2 ^ 63) `mod` 2 ^ 64 + b) by lia.
  rewrite Zplus_mod_idemp_l. f_equal. lia.
Qed.

Lemma time_sub_range t u : in_int64 (time_sub t u).
Proof. unfold in_int64, time_sub, int64_min, int64_max. lia. Qed.

Lemma time_sub_exact t u : in_int64 (t - u) → time_sub t u = t - u.
Proof. unfold in_int64, time_sub, int64_min, int64_max. lia. Qed.

(** Facts the components use without naming them. *)
Create HintDb kaiwo.
#[export] Hint Resolve int64_wrap_range time_sub_range : kaiwo.
Create Rewrite HintDb kaiwo.
#[export] Hint Rewrite int64_wrap_add_l : kaiwo.

(** The sum of a list. *)
Definition sumZ (l : list Z) : Z := foldr Z.add 0 l.

Lemma sumZ_cons x l : sumZ (x :: l) = x + sumZ l.
Proof. done. Qed.

Lemma sumZ_app l l' : sumZ (l ++ l') = sumZ l + sumZ l'.
Proof. induction l as [|x l IH]; [done|]. change ((x :: l) ++ l') with (x :: (l ++ l')). rewrite !sumZ_cons. lia. Qed.

Lemma sumZ_nonneg l : Forall (λ x, 0 ≤ x) l → 0 ≤ sumZ l.
Proof. induction 1; [done|]. rewrite sumZ_cons. lia. Qed.

(** * Strings, as byte strings *)

Module Str.

Definition lower_ascii (c : Ascii.ascii) : Ascii.ascii :=
  let n := Ascii.nat_of_ascii c in
  if decide (65 ≤ n ∧ n ≤ 90)%nat then Ascii.ascii_of_nat (n + 32) else c.

(** [strings.ToLower] on ASCII letters. *)
Fixpoint ToLower (s : string) : string :=
  match s with
  | EmptyString => EmptyString
  | String c s' => String (lower_ascii c) (ToLower s')
  end.

(** [strings.HasPrefix s p]. *)
Definition HasPrefix (s p : string) : bool := String.prefix p s.

(** [strings.Contains s sub]. *)
Fixpoint Contains (s sub : string) : bool :=
  String.prefix sub s ||
  match s with
  | EmptyString => false
  | String _ s' => Contains s' sub
  end.

(** [s[:n]] for [n] within the length. *)
Fixpoint take (n : nat) (s : string) : string :=
  match n, s with
  | O, _ | _, EmptyString => EmptyString
  | S n', String c s' => String c (take n' s')
  end.

(** [strings.Join]. *)
Fixpoint Join (l : list string) (sep : string) : string :=
  match l with
  | [] => ""
  | [x] => x
  | x :: l' => x +:+ sep +:+ Join l' sep
  end.

Definition upper_ascii (c : Ascii.ascii) : Ascii.ascii :=
  let n := Ascii.nat_of_ascii c in
  if decide (97 ≤ n ∧ n ≤ 122)%nat then Ascii.ascii_of_nat (n - 32) else c.

(** [strings.ToUpper] on ASCII letters. *)
Fixpoint ToUpper (s : string) : string :=
  match s with
  | EmptyString => EmptyString
  | String c s' => String (upper_ascii c) (ToUpper s')
  end.

(** [strings.Split] at a one-byte separator. *)
Fixpoint Split (s : string) (sep : Ascii.ascii) : list string :=
  match s with
  | EmptyString => [""]
  | String c s' =>
      if decide (c = sep) then "" :: Split s' sep
      else
        match Split s' sep with
        | [] => [String c ""]
        | w :: ws => String c w :: ws
        end
  end.

(** [strings.HasSuffix s suf]. *)
Fixpoint HasSuffix (s suf : string) : bool :=
  bool_decide (s = suf) ||
  match s with
  | EmptyString => false
  | String _ s' => HasSuffix s' suf
  end.

(** [strings.TrimSuffix s suf]. *)
Definition TrimSuffix (s suf : string) : string :=
  if HasSuffix s suf then take (String.length s - String.length suf) s else s.

Definition digit (c : Ascii.ascii) : option Z :=
  let n := Z.of_nat (Ascii.nat_of_ascii c) in
  if decide (48 ≤ n ≤ 57) then Some (n - 48) else None.

Fixpoint digits (s : string) (acc : Z) : option Z :=
  match s with
  | EmptyString => Some acc
  | String c s' => match digit c with Some d => digits s' (10 * acc + d) | None => None end
  end.

(** [strconv.Atoi]: an optional sign and decimal digits, within [int]. *)
Definition Atoi (s : string) : option Z :=
  let '(neg, body) :=
    match s with
    | EmptyString => (false, s)
    | String c s' =>
        if decide (c = Ascii.ascii_of_nat 45) then (true, s')
        else if decide (c = Ascii.ascii_of_nat 43) then (false, s')
        else (false, s)
    end in
  match body with
  | EmptyString => None
  | _ =>
      match digits body 0 with
      | Some n => let z := if neg : bool then - n else n in if decide (in_int64 z) then Some z else None
      | None => None
      end
  end.

(** [a < b] on strings. *)
Definition lt (a b : string) : bool := String.ltb a b.

Lemma prefix_spec p s : String.prefix p s = true ↔ ∃ t, s = p +:+ t.
Proof.
  revert s. induction p as [|c p IH]; intros s; simpl.
  - split; [intros _; by exists s | by destruct s].
  - destruct s as [|d s]; simpl.
    + split; [done | intros [t Ht]; discriminate].
    + destruct (Ascii.ascii_dec c d) as [->|Hne].
      * rewrite IH. split; intros [t Ht]; exists t; [by rewrite Ht | by injection Ht].
      * split; [done | intros [t Ht]; injection Ht; congruence].
Qed.

Lemma Contains_spec s sub : Contains s sub = true ↔ ∃ a b, s = a +:+ sub +:+ b.
Proof.
  induction s as [|c s IH]; cbn [Contains]; rewrite orb_true_iff, prefix_spec.
  - split.
    + intros [[t Ht]|]; [|done]. by exists "", t.
    + intros (a & b & H). left. destruct a; [by exists b | discriminate].
  - rewrite IH. split.
    + intros [[t Ht]|(a & b & Hs)]; [by exists "", t | exists (String c a), b; by rewrite Hs].
    + intros (a & b & H). destruct a as [|d a]; simpl in H; [left; by exists b | right].
      injection H as -> ->. by exists a, b.
Qed.

Lemma HasPrefix_spec s p : HasPrefix s p = true ↔ ∃ t, s = p +:+ t.
Proof. apply prefix_spec. Qed.

Lemma take_length n s : (String.length (take n s) ≤ n)%nat.
Proof. revert s. induction n; intros [|c s]; simpl; [lia..|]. specialize (IHn s). lia. Qed.

Lemma take_all n s : (String.length s ≤ n)%nat → take n s = s.
Proof. revert s. induction n; intros [|c s]; simpl; intros; [done|lia|done|]. by rewrite IHn by lia. Qed.

End Str.

(** * Errors *)

Inductive StatusReason :=
| ReasonNotFound | ReasonConflict | ReasonAlreadyExists | ReasonForbidden | ReasonInvalid | ReasonOther.

(** A Go [error]: an API status error, a missing-kind error, or the result of
    [fmt.Errorf], which keeps the cause when it wraps one with [%w]. *)
Inductive error :=
| StatusError (r : StatusReason)
| NoMatchError
| Errorf (msg : string)
| Wrapf (msg : string) (wrapped : error).

#[export] Instance StatusReason_eq_dec : EqDecision StatusReason.
Proof. solve_decision. Defined.

(** [errors.ReasonForError], which unwraps. *)
Fixpoint ReasonForError (e : error) : option StatusReason :=
  match e with
  | StatusError r => Some r
  | NoMatchError => None
  | Errorf _ => None
  | Wrapf _ e' => ReasonForError e'
  end.

Definition is_reason (r : StatusReason) (e : error) : bool := bool_decide (ReasonForError e = Some r).
Abbreviation IsNotFound := (is_reason ReasonNotFound).
Abbreviation IsConflict := (is_reason ReasonConflict).
Abbreviation IsAlreadyExists := (is_reason ReasonAlreadyExists).
Abbreviation IsForbidden := (is_reason ReasonForbidden).
Abbreviation IsInvalid := (is_reason ReasonInvalid).

(** [client.IgnoreNotFound]. *)
Definition IgnoreNotFound (e : error) : option error := if IsNotFound e then None else Some e.

(** * Programs: code that talks to the API server, the clock and the recorder *)

(** The calls a component makes and the answers each may get. *)
Record sig := Sig { req : Type; resp : req → Type }.

(** A terminating computation that interleaves pure steps with calls. Nothing
    is assumed here about who answers. *)
Inductive prog (S : sig) (A : Type) : Type :=
| Ret (a : A)
| Call (r : req S) (k : resp S r → prog S A).
Arguments Ret {S A} a.
Arguments Call {S A} r k.

Fixpoint prog_bind {S A B} (p : prog S A) (f : A → prog S B) : prog S B :=
  match p with
  | Ret a => f a
  | Call r k => Call r (λ x, prog_bind (k x) f)
  end.

#[export] Instance prog_ret S : MRet (prog S) := @Ret S.
#[export] Instance prog_mbind S : MBind (prog S) := λ A B f p, prog_bind p f.

Definition call {S} (r : req S) : prog S (resp S r) := Call r (λ x, Ret x).

(** What happened: the calls in order, each with its answer. *)
Definition event (S : sig) : Type := { r : req S & resp S r }.
Definition trace (S : sig) : Type := list (event S).
Definition ev {S} (r : req S) (x : resp S r) : event S := existT r x.

(** [exec ok p tr a]: against some environment whose answers satisfy [ok],
    [p] makes the calls [tr] and returns [a]. *)
Definition contract (S : sig) : Type := ∀ r : req S, resp S r → Prop.
Definition anything {S} : contract S := λ _ _, True.

Inductive exec {S A} (ok : contract S) : prog S A → trace S → A → Prop :=
| exec_ret a : exec ok (Ret a) [] a
| exec_call r k x tr a : ok r x → exec ok (k x) tr a → exec ok (Call r k) (ev r x :: tr) a.

(** [always ok p Q]: every execution of [p], whatever the answers within
    [ok], ends with a trace and a result in [Q]. *)
Fixpoint always {S A} (ok : contract S) (p : prog S A) (Q : trace S → A → Prop) : Prop :=
  match p with
  | Ret a => Q [] a
  | Call r k => ∀ x, ok r x → always ok (k x) (λ tr a, Q (ev r x :: tr) a)
  end.

(** Running a program against a stateful environment. *)
Fixpoint run {S A W} (h : ∀ r : req S, W → resp S r * W) (p : prog S A) (w : W) : trace S * A * W :=
  match p with
  | Ret a => ([], a, w)
  | Call r k =>
      let '(x, w') := h r w in
      let '(tr, a, w'') := run h (k x) w' in
      (ev r x :: tr, a, w'')
  end.

Section prog_theory.
Context {S : sig}.

Lemma exec_always {A} ok (p : prog S A) tr a :
  exec ok p tr a → ∀ Q, always ok p Q → Q tr a.
Proof. induction 1; simpl; intros Q HQ; [done|]. apply (IHexec (λ tr a, Q (ev r x :: tr) a)). by apply HQ. Qed.

Lemma always_exec {A} ok (p : prog S A) Q :
  always ok p Q ↔ ∀ tr a, exec ok p tr a → Q tr a.
Proof.
  split; [intros HQ tr a Hex; by apply (exec_always _ _ _ _ Hex)|].
  revert Q. induction p as [a|r k IH]; intros Q HQ; simpl; [apply HQ; constructor|].
  intros x Hx. apply IH. intros tr a Hex. apply HQ. by constructor.
Qed.

Lemma always_mono {A} ok (p : prog S A) (Q Q' : trace S → A → Prop) :
  always ok p Q → (∀ tr a, Q tr a → Q' tr a) → always ok p Q'.
Proof. rewrite !always_exec. eauto. Qed.

Lemma always_bind {A B} ok (p : prog S A) (f : A → prog S B) Q :
  always ok (p ≫= f) Q ↔ always ok p (λ tr a, always ok (f a) (λ tr' b, Q (tr ++ tr') b)).
Proof.
  revert Q. induction p as [a|r k IH]; intros Q; [done|].
  change ((∀ x, ok r x → always ok (k x ≫= f) (λ tr a, Q (ev r x :: tr) a)) ↔
    always ok (Call r k) (λ tr a, always ok (f a) (λ tr' b, Q (tr ++ tr') b))).
  simpl. split; intros H x Hx; [apply (IH x (λ tr a, Q (ev r x :: tr) a))|apply IH]; by apply H.
Qed.

Lemma always_call {B} ok (r : req S) (f : resp S r → prog S B) Q :
  (∀ x, ok r x → always ok (f x) (λ tr b, Q (ev r x :: tr) b)) → always ok (call r ≫= f) Q.
Proof. intros Hf. apply always_bind. exact Hf. Qed.

Lemma exec_run {A W} ok (h : ∀ r : req S, W → resp S r * W) (p : prog S A) w :
  (∀ r w, ok r (h r w).1) → exec ok p (run h p w).1.1 (run h p w).1.2.
Proof.
  intros Hok. revert w. induction p as [a|r k IH]; intros w; simpl; [constructor|].
  specialize (Hok r w). destruct (h r w) as [x w']; simpl in *.
  specialize (IH x w'). destruct (run h (k x) w') as [[tr a] w'']; simpl in *. by constructor.
Qed.

End prog_theory.

(** Step over the next call, naming its answer. *)
Tactic Notation "on_call" simple_intropattern(x) := apply always_call; intros x ?; cbv beta iota.

(** * Outcomes *)

(** What a Go function with an error result comes to: a value, an error, or a
    panic, which unwinds the whole call. *)
Inductive outcome (A : Type) := Ok (a : A) | Err (e : error) | Panics.
Arguments Ok {A} a.
Arguments Err {A} e.
Arguments Panics {A}.

Definition of_sum {A} (x : error + A) : outcome A := match x with inl e => Err e | inr a => Ok a end.
Definition of_err (x : option error) : outcome unit := match x with Some e => Err e | None => Ok tt end.

(** [if x, err := p; err != nil { return fmt.Errorf(msg + ": %w", err) }]. *)
Definition orFail {S A B} (msg : string) (p : prog S (outcome A)) (k : A → prog S (outcome B)) : prog S (outcome B) :=
  o ← p; match o with Ok a => k a | Err e => mret (Err (Wrapf msg e)) | Panics => mret Panics end.

Declare Scope go_scope.
Delimit Scope go_scope with go.
Notation "x ←? p 'else' msg ; k" := (orFail msg p (λ x, k))
  (at level 100, p at next level, msg at level 0, k at level 200, right associativity) : go_scope.
Notation "' x ←? p 'else' msg ; k" := (orFail msg p (λ x, k))
  (at level 20, x pattern, p at level 100, msg at level 0, k at level 200) : go_scope.
#[global] Open Scope go_scope.

(** * Go [for] loops over slices *)

Inductive ctl (St R : Type) := Continue (s : St) | Break (s : St) | Return (r : R).
Arguments Continue {St R} s.
Arguments Break {St R} s.
Arguments Return {St R} r.

(** [for _, x := range l { body }] over the loop variables [s]: the body goes
    on, breaks, or returns from the enclosing function ([inr]). *)
Fixpoint for_range {S A St R} (l : list A) (s : St) (body : A → St → prog S (ctl St R))
  : prog S (St + R) :=
  match l with
  | [] => Ret (inl s)
  | x :: l' =>
      c ← body x s;
      match c with
      | Continue s' => for_range l' s' body
      | Break s' => Ret (inl s')
      | Return r => Ret (inr r)
      end
  end.

(** The loop rule: [I rest tr s] holds with [rest] left to visit, after the
    calls [tr], at the loop variables [s]; [K] holds after the loop and [J] when
    the body returns. *)
Lemma always_for_range {S A St R} ok (I : list A → trace S → St → Prop) (K : trace S → St → Prop)
    (J : trace S → R → Prop) (body : A → St → prog S (ctl St R)) :
  (∀ tr s, I [] tr s → K tr s) →
  (∀ x l tr s, I (x :: l) tr s → always ok (body x s) (λ tr' c,
     match c with
     | Continue s' => I l (tr ++ tr') s'
     | Break s' => K (tr ++ tr') s'
     | Return r => J (tr ++ tr') r
     end)) →
  ∀ l tr0 s, I l tr0 s → always ok (for_range l s body) (λ tr c,
     match c with inl s' => K (tr0 ++ tr) s' | inr r => J (tr0 ++ tr) r end).
Proof.
  intros Hend Hbody. induction l as [|x l IH]; intros tr0 s HI; simpl; [rewrite app_nil_r; auto|].
  apply always_bind. eapply always_mono; [by apply Hbody|].
  intros tr [s'|s'|r] Hc; simpl; [|by rewrite app_nil_r..].
  eapply always_mono; [by apply IH|]. intros tr' c Hc'. by rewrite app_assoc.
Qed.

(** The rule for a property of traces that is closed under composition. *)
Lemma always_for_range_closed {S A St R} ok (T : trace S → Prop) (I : St → Prop) (J : R → Prop)
    (body : A → St → prog S (ctl St R)) (l : list A) (s : St) :
  T [] → (∀ tr tr', T tr → T tr' → T (tr ++ tr')) → I s →
  (∀ x s, x ∈ l → I s → always ok (body x s) (λ tr c, T tr ∧
     match c with Continue s' | Break s' => I s' | Return r => J r end)) →
  always ok (for_range l s body) (λ tr c, T tr ∧ match c with inl s' => I s' | inr r => J r end).
Proof.
  intros Hnil Happ Hs Hbody.
  pose proof (always_for_range ok (λ rest tr s, T tr ∧ I s ∧ ∀ x, x ∈ rest → x ∈ l)
    (λ tr s, T tr ∧ I s) (λ tr r, T tr ∧ J r) body) as Hloop. simpl in Hloop.
  eapply always_mono; [apply (Hloop ltac:(naive_solver)) with (tr0 := [])|]; [|by auto|].
  - intros x rest tr s' (HT & HI & Hin). eapply always_mono; [apply Hbody; [apply Hin; by left|done]|].
    intros tr' [?|?|?] [? ?]; repeat split; auto. intros y Hy. apply Hin. by right.
  - simpl. by intros tr [?|?].
Qed.

(** A loop whose body neither breaks nor returns. *)
Fixpoint for_each {S A St} (l : list A) (s : St) (body : A → St → prog S St) : prog S St :=
  match l with
  | [] => Ret s
  | x :: l' => s' ← body x s; for_each l' s' body
  end.

Lemma always_for_each_closed {S A St} ok (T : trace S → Prop) (I : St → Prop) (body : A → St → prog S St) (l : list A) (s : St) :
  T [] → (∀ tr tr', T tr → T tr' → T (tr ++ tr')) → I s →
  (∀ x s, x ∈ l → I s → always ok (body x s) (λ tr s', T tr ∧ I s')) →
  always ok (for_each l s body) (λ tr s', T tr ∧ I s').
Proof.
  intros Hnil Happ. revert s. induction l as [|x l IH]; intros s Hs Hbody; simpl; [done|].
  apply always_bind. eapply always_mono; [apply Hbody; [by left|done]|]. intros tr s' [Htr Hs'].
  eapply always_mono; [apply IH; [done|]; intros; apply Hbody; [by right|done]|]. intros tr' s'' [? ?]. auto.
Qed.

Lemma always_for_each {S A St} ok (I : list A → St → Prop) (body : A → St → prog S St) :
  (∀ x l s, I (x :: l) s → always ok (body x s) (λ _ s', I l s')) →
  ∀ l s, I l s → always ok (for_each l s body) (λ _ s', I [] s').
Proof.
  intros Hbody. induction l as [|x l IH]; intros s HI; simpl; [done|].
  apply always_bind. eapply always_mono; [by apply Hbody|]. intros tr s' HI'. by apply IH.
Qed.

(** An invariant of the elements left, with a property of traces. *)
Lemma always_for_each_trace {S A St} ok (T : trace S → Prop) (I : list A → St → Prop) (body : A → St → prog S St) :
  T [] → (∀ tr tr', T tr → T tr' → T (tr ++ tr')) →
  (∀ x l s, I (x :: l) s → always ok (body x s) (λ tr s', T tr ∧ I l s')) →
  ∀ l s, I l s → always ok (for_each l s body) (λ tr s', T tr ∧ I [] s').
Proof.
  intros Hnil Happ Hbody. induction l as [|x l IH]; intros s HI; simpl; [done|].
  apply always_bind. eapply always_mono; [by apply Hbody|]. intros tr s' [Htr HI'].
  eapply always_mono; [by apply IH|]. intros tr' s'' [? ?]. auto.
Qed.

Lemma always_true {S A} ok (p : prog S A) : always ok p (λ _ _, True).
Proof. apply always_exec. done. Qed.

#[export] Hint Resolve always_true : kaiwo.

(** Step over a program of which nothing needs to be known. *)
Ltac skip_run := eapply always_mono; [apply always_true|].

Lemma always_weaken {S A} (ok ok' : contract S) (p : prog S A) Q :
  (∀ r x, ok r x → ok' r x) → always ok' p Q → always ok p Q.
Proof. intros Hok. revert Q. induction p as [a|r k IH]; intros Q; simpl; [done|]. intros Hk x Hx. apply IH; auto. Qed.

(** Some call of the program satisfies [T]. *)
Definition calls {S} (T : event S → Prop) (tr : trace S) : Prop := ∃ e, e ∈ tr ∧ T e.

Lemma always_calls_left {S A B} ok (T : event S → Prop) (p : prog S A) (f : A → prog S B) :
  always ok p (λ tr _, calls T tr) → always ok (p ≫= f) (λ tr _, calls T tr).
Proof.
  intros Hp. apply always_bind. eapply always_mono; [exact Hp|]. intros tr a (e & He & HT). eapply always_mono; [apply always_true|].
  intros tr' _ _. exists e. split; [apply elem_of_app; by left|done].
Qed.

Lemma always_calls_right {S A B} ok (T : event S → Prop) (p : prog S A) (f : A → prog S B) :
  always ok p (λ _ a, always ok (f a) (λ tr _, calls T tr)) → always ok (p ≫= f) (λ tr _, calls T tr).
Proof.
  intros Hp. apply always_bind. eapply always_mono; [exact Hp|]. cbv beta. intros tr a Ha. eapply always_mono; [exact Ha|].
  intros tr' _ (e & He & HT). exists e. split; [apply elem_of_app; by right|done].
Qed.

(** A loop makes the calls its body makes for one of the elements. *)
Lemma always_for_each_visits {S A St} ok (T : event S → Prop) (body : A → St → prog S St) l x s :
  x ∈ l → (∀ s, always ok (body x s) (λ tr _, calls T tr)) →
  always ok (for_each l s body) (λ tr _, calls T tr).
Proof.
  intros Hx Hbody. revert s. induction Hx as [x l|x y l Hx IH]; intros s; simpl; apply always_bind.
  - eapply always_mono; [apply Hbody|]. intros tr s' (e & He & HT). eapply always_mono; [apply always_true|].
    intros tr' _ _. exists e. split; [apply elem_of_app; by left|done].
  - eapply always_mono; [apply always_true|]. intros tr s' _. eapply always_mono; [by apply IH|].
    intros tr' _ (e & He & HT). exists e. split; [apply elem_of_app; by right|done].
Qed.

(** Elements the body passes over can be left out. *)
Lemma for_each_filter {S A St} (P : A → Prop) `{∀ x, Decision (P x)} l (s : St) (body : A → St → prog S St) :
  (∀ x s, ¬ P x → body x s = mret s) → for_each l s body = for_each (filter P l) s body.
Proof.
  intros Hskip. revert s. induction l as [|x l IH]; intros s; [done|]. rewrite filter_cons. cbn [for_each]. case_decide as Hp.
  - cbn [for_each]. assert (∀ p : prog S St, (s' ← p; for_each l s' body) = (s' ← p; for_each (filter P l) s' body)) as Heq; [|apply Heq].
    induction p as [a|r k IHk]; [apply IH|]. cbn. f_equal. apply functional_extensionality. exact IHk.
  - rewrite Hskip by done. apply IH.
Qed.

(** Every event satisfying [W] comes right after one that [R] relates it to. *)
Fixpoint guarded {S} (W : event S → Prop) (R : event S → event S → Prop) (prev : option (event S)) (tr : trace S) : Prop :=
  match tr with
  | [] => True
  | e :: tr' => (W e → ∃ p, prev = Some p ∧ R p e) ∧ guarded W R (Some e) tr'
  end.

Lemma guarded_weaken {S} W R prev (tr : trace S) : guarded W R None tr → guarded W R prev tr.
Proof. destruct tr as [|e tr]; simpl; [done|]. intros [HW ?]. split; [|done]. intros He. by destruct (HW He) as (? & ? & _). Qed.

Lemma guarded_app {S} W R prev (tr tr' : trace S) :
  guarded W R prev tr → guarded W R None tr' → guarded W R prev (tr ++ tr').
Proof.
  revert prev. induction tr as [|e tr IH]; simpl; intros prev Htr Htr'; [by apply guarded_weaken|].
  destruct Htr. eauto.
Qed.

(** What [guarded] says of a position in the trace. *)
Lemma guarded_lookup {S} W R (tr : trace S) i e :
  guarded W R None tr → tr !! i = Some e → W e → ∃ j p, i = Datatypes.S j ∧ tr !! j = Some p ∧ R p e.
Proof.
  intros Hg. assert (∀ prev, guarded W R prev tr → tr !! i = Some e → W e →
    (i = 0%nat ∧ ∃ p, prev = Some p ∧ R p e) ∨ ∃ j p, i = Datatypes.S j ∧ tr !! j = Some p ∧ R p e) as Hgen.
  { clear Hg. revert i. induction tr as [|e' tr IH]; intros i prev Hg Hi HW; [done|].
    destruct Hg as [He' Hg]. destruct i as [|i]; simpl in Hi; [simplify_eq; left; auto|]. right.
    destruct (IH i _ Hg Hi HW) as [[-> (p & [= <-] & HR)]|(j & p & -> & Hj & HR)].
    - by exists 0%nat, e'.
    - by exists (Datatypes.S j), p. }
  intros Hi HW. destruct (Hgen None Hg Hi HW) as [(_ & p & ? & _)|?]; done.
Qed.

(** Every event of [tr] is accounted for by [J] from the events before it; [pre]
    is what happened earlier. *)
Fixpoint justified {S} (J : trace S → event S → Prop) (pre tr : trace S) : Prop :=
  match tr with
  | [] => True
  | e :: tr' => J pre e ∧ justified J (pre ++ [e]) tr'
  end.

Section justified.
Context {S : sig} (J : trace S → event S → Prop).

Lemma justified_app pre tr tr' : justified J pre (tr ++ tr') ↔ justified J pre tr ∧ justified J (pre ++ tr) tr'.
Proof.
  revert pre. induction tr as [|e tr IH]; intros pre; simpl; [rewrite app_nil_r; tauto|].
  rewrite IH, <- app_assoc. simpl. tauto.
Qed.

Lemma justified_mono pre pre' tr :
  (∀ e tr, J (pre ++ tr) e → J (pre' ++ tr) e) → justified J pre tr → justified J pre' tr.
Proof.
  intros HJ. revert pre pre' HJ. induction tr as [|e tr IH]; intros pre pre' HJ; simpl; [done|].
  intros [He Htr]. split; [specialize (HJ e []); rewrite !app_nil_r in HJ; auto|].
  eapply IH; [|done]. intros e' tr' He'. rewrite <- app_assoc in *. by apply HJ.
Qed.

Lemma justified_all pre tr : (∀ pre e, e ∈ tr → J pre e) → justified J pre tr.
Proof.
  revert pre. induction tr as [|e tr IH]; intros pre Hall; simpl; [done|].
  split; [apply Hall; by left|]. apply IH. intros pre' e' He'. apply Hall. by right.
Qed.

Lemma justified_impl (J' : trace S → event S → Prop) pre tr :
  (∀ pre e, J pre e → J' pre e) → justified J pre tr → justified J' pre tr.
Proof.
  intros HJ. revert pre. induction tr as [|e tr IH]; intros pre; simpl; [done|].
  intros [? ?]. split; [by apply HJ|by apply IH].
Qed.

(** Guarded events are accounted for by the event just before them. *)
Lemma guarded_justified W R pre tr :
  (∀ pre e, ¬ W e → J pre e) → (∀ pre p e, W e → R p e → J (pre ++ [p]) e) → (∀ e, W e ∨ ¬ W e) →
  guarded W R None tr → justified J pre tr.
Proof.
  intros Hno HR Hdec. assert (∀ prev pre, (∀ p, prev = Some p → ∃ pre', pre = pre' ++ [p]) →
    guarded W R prev tr → justified J pre tr) as Hgen; [|by apply Hgen].
  induction tr as [|e tr IH]; intros prev pre' Hprev; simpl; [done|]. intros [HW Hg]. split.
  - destruct (Hdec e) as [We|We]; [|by apply Hno]. destruct (HW We) as (p & Hp & HRp).
    destruct (Hprev p Hp) as [pre'' ->]. by apply HR.
  - apply (IH (Some e)); [|done]. intros p [= <-]. by exists pre'.
Qed.

(** What holds of every execution holds, when every call can be answered. *)
Lemma always_const {A} (p : prog S A) (P : Prop) :
  (∀ r, inhabited (resp S r)) → always anything p (λ _ _, P) → P.
Proof.
  intros Hinh. induction p as [a|r k IH]; simpl; [done|]. intros Hk. destruct (Hinh r) as [x].
  by apply (IH x), Hk.
Qed.

End justified.

(** * What the code uses of its host, of unordered iteration and of sorting *)

(** [less] is a strict weak order. *)
Record strict_weak {A} (less : A → A → bool) : Prop := {
  sw_irrefl x : less x x = false;
  sw_trans x y z : less x y = true → less y z = true → less x z = true;
  sw_incomp x y z : less x y = false → less y z = false → less x z = false
}.

(** Sorting by [sort.Slice] gives a permutation in which no later element is
    less than an earlier one; ties may come in any order. Ranging over a map
    visits every entry once, in any order. *)
Class GoOrder := {
  sortSlice : ∀ {A : Type}, (A → A → bool) → list A → list A;
  sortSlice_perm {A} (less : A → A → bool) l : sortSlice less l ≡ₚ l;
  sortSlice_sorted {A} (less : A → A → bool) l :
    strict_weak less → StronglySorted (λ x y, less y x = false) (sortSlice less l);
  rangeMap : ∀ {K : Type} {ED : EqDecision K} {C : Countable K} {V : Type}, gmap K V → list (K * V);
  rangeMap_perm {K} {ED : EqDecision K} {C : Countable K} {V} (m : gmap K V) : rangeMap m ≡ₚ map_to_list m
}.

(** Sorting by an integer. *)
Lemma by_key_strict_weak {A} (key : A → Z) : strict_weak (λ x y, bool_decide (key x < key y)).
Proof. split; intros; rewrite ?bool_decide_eq_true, ?bool_decide_eq_false in *; lia. Qed.

Lemma sort_by_key `{GoOrder} {A} (key : A → Z) (l : list A) :
  StronglySorted (λ x y, key x ≤ key y) (sortSlice (λ x y, bool_decide (key x < key y)) l).
Proof.
  pose proof (sortSlice_sorted _ l (by_key_strict_weak key)) as Hs.
  induction Hs as [|x l' Hs IH Hall]; constructor; [done|].
  eapply Forall_impl; [done|]. simpl. intros y Hy. apply bool_decide_eq_false in Hy. lia.
Qed.

(** * Retrying on conflicts *)

(** What [retry.RetryOnConflict] documents: it runs [fn], runs it again as long
    as it reports a conflict and attempts are left, and returns the result of the
    last attempt. *)
Inductive retried {S} (fn : prog S (option error)) : trace S → option error → Prop :=
| retried_last tr r : exec anything fn tr r → retried fn tr r
| retried_again tr err tr' r : exec anything fn tr (Some err) → IsConflict err = true →
    retried fn tr' r → retried fn (tr ++ tr') r.

Record RetryOf (S : sig) := {
  RetryOnConflict : prog S (option error) → prog S (option error);
  RetryOnConflict_retries fn tr r : exec anything (RetryOnConflict fn) tr r → retried fn tr r
}.
Arguments RetryOnConflict {S} _ _.
Arguments RetryOnConflict_retries {S} _ {fn tr r} _.

(** What every attempt does, retrying does, if it is closed under composition. *)
Lemma RetryOnConflict_spec {S} (retries : RetryOf S) fn (T : trace S → Prop) :
  (∀ tr tr', T tr → T tr' → T (tr ++ tr')) →
  always anything fn (λ tr _, T tr) → always anything (RetryOnConflict retries fn) (λ tr _, T tr).
Proof.
  intros Happ Hfn. apply always_exec. intros tr r Hex%RetryOnConflict_retries.
  assert (∀ tr r, exec anything fn tr r → T tr) as HT by (intros tr' r' He; by apply (exec_always _ _ _ _ He _ Hfn)).
  induction Hex; eauto.
Qed.

(** * Programs served by a store *)

(** [answer r w x w']: in state [w] the environment may answer [r] with [x] and
    go on in [w']. *)
Section served.
Context {S : sig} {W : Type} (answer : ∀ r : req S, W → resp S r → W → Prop).

(** The answers in a trace lead the environment from [w] to [w']. *)
Fixpoint served (w : W) (tr : trace S) (w' : W) : Prop :=
  match tr with
  | [] => w = w'
  | e :: tr' => ∃ w1, answer (projT1 e) w (projT2 e) w1 ∧ served w1 tr' w'
  end.

Lemma served_app w tr tr' w' : served w (tr ++ tr') w' ↔ ∃ w1, served w tr w1 ∧ served w1 tr' w'.
Proof.
  revert w. induction tr as [|e tr IH]; intros w; simpl; [naive_solver|].
  setoid_rewrite IH. naive_solver.
Qed.

(** [ensures w p Q]: every run of [p] served from [w] ends with a trace, a result
    and a state in [Q]. *)
Definition ensures {A} (w : W) (p : prog S A) (Q : trace S → A → W → Prop) : Prop :=
  always anything p (λ tr a, ∀ w', served w tr w' → Q tr a w').

Lemma ensures_ret {A} w (a : A) (Q : trace S → A → W → Prop) : Q [] a w → ensures w (mret a) Q.
Proof. intros HQ w' <-. done. Qed.

Lemma ensures_mono {A} w (p : prog S A) (Q Q' : trace S → A → W → Prop) :
  ensures w p Q → (∀ tr a w', Q tr a w' → Q' tr a w') → ensures w p Q'.
Proof. intros Hp HQ. eapply always_mono; [exact Hp|]. cbv beta. eauto. Qed.

Lemma ensures_bind {A B} w (p : prog S A) (f : A → prog S B) (Q : trace S → B → W → Prop) :
  ensures w p (λ tr a w', ensures w' (f a) (λ tr' b w'', Q (tr ++ tr') b w'')) → ensures w (p ≫= f) Q.
Proof.
  unfold ensures. intros Hp. rewrite always_bind. eapply always_mono; [exact Hp|]. cbv beta. intros tr a Ha.
  apply always_exec. intros tr' b Hex' w'' Hs. apply served_app in Hs as (w1 & Hs1 & Hs2).
  specialize (Ha w1 Hs1). rewrite always_exec in Ha. eauto.
Qed.

Lemma ensures_call {B} w r (f : resp S r → prog S B) (Q : trace S → B → W → Prop) :
  (∀ x w1, answer r w x w1 → ensures w1 (f x) (λ tr b w', Q (ev r x :: tr) b w')) → ensures w (call r ≫= f) Q.
Proof.
  intros Hf. unfold ensures. apply always_call. intros x _. apply always_exec. intros tr b Hex w' (w1 & Hx & Hs).
  specialize (Hf x w1 Hx). unfold ensures in Hf. rewrite always_exec in Hf. eauto.
Qed.

(** The loop rule; see [always_for_range]. *)
Lemma ensures_for_range {A St R} (I : list A → St → W → Prop) (K : St → W → Prop) (J : R → W → Prop)
    (body : A → St → prog S (ctl St R)) :
  (∀ s w, I [] s w → K s w) →
  (∀ x l s w, I (x :: l) s w → ensures w (body x s) (λ _ c w',
     match c with Continue s' => I l s' w' | Break s' => K s' w' | Return r => J r w' end)) →
  ∀ l s w, I l s w → ensures w (for_range l s body) (λ _ c w', match c with inl s' => K s' w' | inr r => J r w' end).
Proof.
  intros Hend Hbody. induction l as [|x l IH]; intros s w HI; simpl; [apply ensures_ret; auto|].
  apply ensures_bind. eapply ensures_mono; [by apply Hbody|].
  intros tr [s'|s'|r] w' Hc; cbv beta iota; [|by apply ensures_ret..]. eapply ensures_mono; [by apply IH|]. done.
Qed.

Lemma ensures_for_each {A St} (I : list A → St → W → Prop) (body : A → St → prog S St) :
  (∀ x l s w, I (x :: l) s w → ensures w (body x s) (λ _ s' w', I l s' w')) →
  ∀ l s w, I l s w → ensures w (for_each l s body) (λ _ s' w', I [] s' w').
Proof.
  intros Hbody. induction l as [|x l IH]; intros s w HI; simpl; [by apply ensures_ret|].
  apply ensures_bind. eapply ensures_mono; [by apply Hbody|]. intros tr s' w' HI'.
  eapply ensures_mono; [by apply IH|]. done.
Qed.

(** A retried attempt that reports no conflict is the last one. *)
Lemma ensures_retry (retries : RetryOf S) w fn (Q : option error → W → Prop) :
  ensures w fn (λ _ r w', (∀ err, r = Some err → IsConflict err = false) ∧ Q r w') →
  ensures w (RetryOnConflict retries fn) (λ _ r w', Q r w').
Proof.
  intros Hfn. unfold ensures in *. rewrite always_exec in *. intros tr r Hex w' Hs.
  destruct (RetryOnConflict_retries retries Hex) as [tr r Hlast|tr err tr' r Hfirst Hc _].
  - by apply (Hfn tr r Hlast).
  - apply served_app in Hs as (w1 & Hs1 & _). destruct (Hfn _ _ Hfirst w1 Hs1) as [Hno _].
    rewrite (Hno err eq_refl) in Hc. done.
Qed.

(** An environment that always has an answer, in the states it can be in, serves
    every program. *)
Lemma served_exists {A} (Inv : W → Prop) (p : prog S A) w :
  (∀ r w, Inv w → ∃ x w', answer r w x w' ∧ Inv w') → Inv w → ∃ tr a w', exec anything p tr a ∧ served w tr w'.
Proof.
  intros Htotal. revert w. induction p as [a|r k IH]; intros w Hw; [exists [], a, w; split; [constructor|done]|].
  destruct (Htotal r w Hw) as (x & w1 & Hx & Hw1). destruct (IH x w1 Hw1) as (tr & a & w' & Hex & Hs).
  exists (ev r x :: tr), a, w'. split; [by constructor|]. by exists w1.
Qed.

End served.

(** Step over the next call of a served program. *)
Tactic Notation "on_answer" simple_intropattern(x) simple_intropattern(w) simple_intropattern(H) :=
  apply ensures_call; intros x w H; cbv beta iota in *.
