(* ===== verification/History.v ===== *)
(** Rules for programs that can fail, and for the accounts that the events of a program
    give of themselves. *)

From stdpp Require Import list.
From Stdlib Require Import ZArith Lia.
From S2P Require Import Prelude.

(** * Programs that can fail *)

Lemma always_orFail {S A B} ok msg (p : prog S (outcome A)) (k : A → prog S (outcome B)) Q :
  always ok p (λ tr o, match o with
    | Ok a => always ok (k a) (λ tr' b, Q (tr ++ tr') b)
    | Err e => Q tr (Err (Wrapf msg e))
    | Panics => Q tr Panics
    end) → always ok (orFail msg p k) Q.
Proof.
  intros Hp. unfold orFail. apply always_bind. eapply always_mono; [exact Hp|].
  intros tr [a|e|] Ha; [exact Ha| |]; simpl; by rewrite app_nil_r.
Qed.

(** For a property of the trace alone that composition keeps. *)
Lemma always_orFail_closed {S A B} ok (T : trace S → Prop) msg (p : prog S (outcome A)) (k : A → prog S (outcome B)) :
  (∀ tr tr', T tr → T tr' → T (tr ++ tr')) → always ok p (λ tr _, T tr) → (∀ a, always ok (k a) (λ tr _, T tr)) →
  always ok (orFail msg p k) (λ tr _, T tr).
Proof.
  intros Happ Hp Hk. apply always_orFail. eapply always_mono; [exact Hp|]. intros tr [a|e|] Htr; auto.
  eapply always_mono; [apply Hk|]. auto.
Qed.

Lemma always_bind_closed {S A B} ok (T : trace S → Prop) (p : prog S A) (k : A → prog S B) :
  (∀ tr tr', T tr → T tr' → T (tr ++ tr')) → always ok p (λ tr _, T tr) → (∀ a, always ok (k a) (λ tr _, T tr)) →
  always ok (p ≫= k) (λ tr _, T tr).
Proof.
  intros Happ Hp Hk. apply always_bind. eapply always_mono; [exact Hp|]. intros tr a Htr.
  eapply always_mono; [apply Hk|]. auto.
Qed.

Lemma always_both {S A} ok (p : prog S A) (Q Q' : trace S → A → Prop) :
  always ok p Q → always ok p Q' → always ok p (λ tr a, Q tr a ∧ Q' tr a).
Proof. rewrite !always_exec. auto. Qed.

(** * Reasoning about histories *)

(** [traced J h p Q]: after the events [h], every event of [p] is accounted for by
    [J] from the events before it, and [Q] holds of the whole history and of the
    result. *)
Section traced.
Context {S : sig} (J : trace S → event S → Prop).

Definition traced {A} (h : trace S) (p : prog S A) (Q : trace S → A → Prop) : Prop :=
  always anything p (λ tr a, justified J h tr ∧ Q (h ++ tr) a).

Lemma traced_ret {A} h (a : A) (Q : trace S → A → Prop) : Q h a → traced h (mret a) Q.
Proof. intros HQ. split; [done|]. by rewrite app_nil_r. Qed.

Lemma traced_mono {A} h (p : prog S A) (Q Q' : trace S → A → Prop) :
  traced h p Q → (∀ h' a, h ⊆ h' → Q h' a → Q' h' a) → traced h p Q'.
Proof.
  intros Hp HQ. eapply always_mono; [exact Hp|]. intros tr a [Hj Ha]. split; [done|]. apply HQ; [|done].
  intros e He. apply elem_of_app. by left.
Qed.

Lemma traced_bind {A B} h (p : prog S A) (f : A → prog S B) (Q : trace S → B → Prop) :
  traced h p (λ h' a, traced h' (f a) Q) → traced h (p ≫= f) Q.
Proof.
  intros Hp. apply always_bind. eapply always_mono; [exact Hp|]. intros tr a [Hj Ha].
  eapply always_mono; [exact Ha|]. intros tr' b [Hj' Hb]. by rewrite justified_app, app_assoc.
Qed.

Lemma traced_call {B} h (r : req S) (f : resp S r → prog S B) (Q : trace S → B → Prop) :
  (∀ x, J h (ev r x) ∧ traced (h ++ [ev r x]) (f x) Q) → traced h (call r ≫= f) Q.
Proof.
  intros Hf. apply always_call. intros x _. destruct (Hf x) as [Hj Hx]. eapply always_mono; [exact Hx|].
  intros tr b [Hj' Hb]. split; [done|]. by rewrite <- app_assoc in Hb.
Qed.

Lemma traced_orFail {A B} h msg (p : prog S (outcome A)) (k : A → prog S (outcome B)) (Q : trace S → outcome B → Prop) :
  traced h p (λ h' o, match o with Ok a => traced h' (k a) Q | Err e => Q h' (Err (Wrapf msg e)) | Panics => Q h' Panics end) →
  traced h (orFail msg p k) Q.
Proof.
  intros Hp. apply traced_bind. eapply traced_mono; [exact Hp|]. intros h' [a|e|] _ Ha; [done| |]; by apply traced_ret.
Qed.

(** Fetching: one call, whose answer is a value or an error. *)
Lemma traced_fetch {A B} h msg (r : req S) (f : resp S r → outcome A) (k : A → prog S (outcome B)) (Q : trace S → outcome B → Prop) :
  (∀ x, J h (ev r x) ∧ match f x with
     | Ok a => traced (h ++ [ev r x]) (k a) Q
     | Err e => Q (h ++ [ev r x]) (Err (Wrapf msg e))
     | Panics => Q (h ++ [ev r x]) Panics
     end) → traced h (orFail msg (x ← call r; mret (f x)) k) Q.
Proof.
  intros Hf. apply traced_orFail, traced_call. intros x. destruct (Hf x) as [HJ Hx]. split; [done|]. apply traced_ret. exact Hx.
Qed.

Lemma traced_for_range {A St R} (I : trace S → St → Prop) (Q : trace S → R → Prop) (body : A → St → prog S (ctl St R)) l :
  (∀ x h s, x ∈ l → I h s → traced h (body x s) (λ h' c,
     match c with Continue s' | Break s' => I h' s' | Return r => Q h' r end)) →
  ∀ h s, I h s → traced h (for_range l s body) (λ h' c, match c with inl s' => I h' s' | inr r => Q h' r end).
Proof.
  induction l as [|x l IH]; intros Hbody h s HI; simpl; [by apply traced_ret|].
  apply traced_bind. eapply traced_mono; [apply Hbody; [by left|done]|]. intros h' [s'|s'|r] _ Hc; cbv beta iota.
  - apply IH; [|done]. intros y h'' s'' Hy. apply Hbody. by right.
  - by apply (traced_ret h' (inl s')).
  - by apply (traced_ret h' (inr r)).
Qed.

Lemma traced_for_each {A St} (I : trace S → St → Prop) (body : A → St → prog S St) l :
  (∀ x h s, x ∈ l → I h s → traced h (body x s) I) → ∀ h s, I h s → traced h (for_each l s body) I.
Proof.
  induction l as [|x l IH]; intros Hbody h s HI; simpl; [by apply traced_ret|].
  apply traced_bind. eapply traced_mono; [apply Hbody; [by left|done]|]. intros h' s' _ Hs'.
  apply IH; [|done]. intros y h'' s'' Hy. apply Hbody. by right.
Qed.

(** Retrying an operation whose every attempt keeps [I] of the history. *)
Lemma traced_retry (retries : RetryOf S) (I : trace S → Prop) fn h :
  I h → (∀ h, I h → traced h fn (λ h' _, I h')) → traced h (RetryOnConflict retries fn) (λ h' _, I h').
Proof.
  intros Hh Hfn. apply always_exec. intros tr r Hex%RetryOnConflict_retries. revert h Hh.
  induction Hex as [tr r Hex|tr err tr' r Hex _ _ IH]; intros h Hh; [by apply (exec_always _ _ _ _ Hex _ (Hfn h Hh))|].
  destruct (exec_always _ _ _ _ Hex _ (Hfn h Hh)) as [Hj HI]. rewrite justified_app, app_assoc.
  destruct (IH (h ++ tr) HI) as [??]. done.
Qed.

(** A program whose events need no account. *)
Lemma traced_free {A} h (p : prog S A) (T : trace S → A → Prop) :
  always anything p (λ tr a, Forall (λ e, ∀ h, J h e) tr ∧ T tr a) →
  traced h p (λ h' a, ∃ tr, h' = h ++ tr ∧ T tr a).
Proof.
  intros Hp. eapply always_mono; [exact Hp|]. intros tr a [Htr Ha]. split; [|by exists tr].
  apply justified_all. intros h' e He. rewrite Forall_forall in Htr. by apply Htr.
Qed.
End traced.

(** What an account says of an event in the middle of a trace. *)
Lemma justified_at {S} (J : trace S → event S → Prop) h e t : justified J [] (h ++ e :: t) → J h e.
Proof. intros Hj. apply justified_app in Hj as [_ [He _]]. exact He. Qed.

(** Step over a call that [J] accepts without further ado. *)
Tactic Notation "on_event" simple_intropattern(x) := apply traced_call; intros x; (split; [try done|]).
