(* ===== verification/Text.v ===== *)
(** Go's string functions that the node pool code uses, on ASCII text, and the
    decimal notation of integers: what [%d] prints, [strconv.Atoi] reads back. *)

From stdpp Require Import strings list pretty.
From Stdlib Require Import ZArith Lia.
From S2P Require Import Prelude.

Module Text.

Definition isSpace (c : Ascii.ascii) : bool :=
  let n := Ascii.nat_of_ascii c in bool_decide ((9 ≤ n ∧ n ≤ 13) ∨ n = 32)%nat.

(** [strings.Fields]: the words between runs of white space. *)
Fixpoint Fields (s : string) : list string :=
  match s with
  | EmptyString => []
  | String c s' =>
      if isSpace c then Fields s'
      else
        match s' with
        | String d _ => if isSpace d then String c "" :: Fields s'
                        else match Fields s' with w :: ws => String c w :: ws | [] => [String c ""] end
        | EmptyString => [String c ""]
        end
  end.

(** [strings.TrimSpace]. *)
Fixpoint trimLeft (s : string) : string :=
  match s with
  | EmptyString => EmptyString
  | String c s' => if isSpace c then trimLeft s' else s
  end.

Fixpoint trimRight (s : string) : string :=
  match s with
  | EmptyString => EmptyString
  | String c s' =>
      match trimRight s' with
      | EmptyString => if isSpace c then EmptyString else String c EmptyString
      | t => String c t
      end
  end.

Definition TrimSpace (s : string) : string := trimRight (trimLeft s).

(** [strings.ReplaceAll(s, old, "")] for a nonempty [old]; [skip] characters of
    the occurrence being removed are left. *)
Fixpoint removeFrom (skip : nat) (s old : string) : string :=
  match s with
  | EmptyString => EmptyString
  | String c s' =>
      match skip with
      | S k => removeFrom k s' old
      | O => if String.prefix old s then removeFrom (String.length old - 1) s' old else String c (removeFrom 0 s' old)
      end
  end.
Definition RemoveAll (s old : string) : string := removeFrom 0 s old.

(** The value of [strconv.Atoi] when its error is ignored: zero on a syntax error,
    the nearest bound when the number is out of range. *)
Definition AtoiValue (s : string) : Z :=
  let '(neg, body) :=
    match s with
    | EmptyString => (false, s)
    | String c s' =>
        if decide (c = Ascii.ascii_of_nat 45) then (true, s')
        else if decide (c = Ascii.ascii_of_nat 43) then (false, s')
        else (false, s)
    end in
  match body with
  | EmptyString => 0
  | _ => match Str.digits body 0 with
         | Some n => Z.max int64_min (Z.min int64_max (if neg : bool then - n else n))
         | None => 0
         end
  end.

(** * Characters of a string *)

Fixpoint chars (s : string) : list Ascii.ascii :=
  match s with EmptyString => [] | String c s' => c :: chars s' end.

Lemma app_nil s : "" +:+ s = s.
Proof. done. Qed.
Lemma app_cons c s t : String c s +:+ t = String c (s +:+ t).
Proof. done. Qed.

Lemma chars_app s t : chars (s +:+ t) = chars s ++ chars t.
Proof. induction s as [|c s IH]; [done|]. rewrite app_cons. cbn [chars]. by rewrite IH. Qed.

Lemma Split_app s t sep : Str.Split (s +:+ String sep t) sep = Str.Split s sep ++ Str.Split t sep.
Proof.
  induction s as [|c s IH]; rewrite ?app_nil, ?app_cons; cbn [Str.Split].
  - rewrite decide_True by done. done.
  - rewrite IH. case_decide; [done|]. destruct (Str.Split s sep) as [|w ws] eqn:E; [|done].
    exfalso. destruct s; cbn [Str.Split] in E; [done|]. case_decide; [done|]. by destruct (Str.Split s sep).
Qed.

Lemma Split_whole s sep : sep ∉ chars s → Str.Split s sep = [s].
Proof.
  induction s as [|c s IH]; cbn [Str.Split Str.HasSuffix String.append chars]; [done|]. rewrite elem_of_cons. intros Hc. rewrite decide_False by naive_solver.
  rewrite IH by tauto. done.
Qed.

Lemma Split_chars s sep p : p ∈ Str.Split s sep → ∀ c, c ∈ chars p → c ∈ chars s.
Proof.
  revert p. induction s as [|d s IH]; intros p; cbn [Str.Split Str.HasSuffix String.append chars]; [intros ->%list_elem_of_singleton; done|]. case_decide.
  - rewrite elem_of_cons. intros [->|Hp] c Hc; [by apply elem_of_nil in Hc|]. right. by apply (IH p).
  - destruct (Str.Split s sep) as [|w ws] eqn:E; [intros ->%list_elem_of_singleton c Hc; by apply list_elem_of_singleton in Hc as ->; left|].
    rewrite elem_of_cons. intros [->|Hp] c; cbn [Str.Split Str.HasSuffix String.append chars].
    + rewrite !elem_of_cons. intros [->|Hc]; [by left|]. right. apply (IH w); [by left|done].
    + intros Hc. right. apply (IH p); [by right|done].
Qed.

Lemma HasSuffix_spec s suf : Str.HasSuffix s suf = true ↔ ∃ p, s = p +:+ suf.
Proof.
  induction s as [|c s IH]; cbn [Str.Split Str.HasSuffix String.append chars]; rewrite orb_true_iff, bool_decide_eq_true.
  - split; [intros [<-|]; [by exists ""|done]|]. intros [[|] Hp]; [by left|discriminate].
  - rewrite IH. split; [intros [<-|[p ->]]; [by exists ""|by exists (String c p)]|].
    intros [[|d p] Hp]; rewrite ?app_nil, ?app_cons in Hp; [by left|]. injection Hp as -> ->. right. by exists p.
Qed.

Lemma take_app s t : Str.take (String.length s) (s +:+ t) = s.
Proof. induction s as [|c s IH]; [by destruct t|]. rewrite app_cons. cbn. by rewrite IH. Qed.

Lemma TrimSuffix_app s suf : Str.TrimSuffix (s +:+ suf) suf = s.
Proof.
  unfold Str.TrimSuffix. assert (Str.HasSuffix (s +:+ suf) suf = true) as -> by (apply HasSuffix_spec; by exists s).
  assert (String.length (s +:+ suf) = (String.length s + String.length suf)%nat) as ->.
  { clear. induction s as [|c s IH]; [done|]. rewrite app_cons. cbn. by rewrite IH. }
  rewrite Nat.add_sub. apply take_app.
Qed.

(** * Decimal notation *)

Definition isDigit (c : Ascii.ascii) : Prop := ∃ d, Str.digit c = Some d.

Lemma pretty_char_digit n : (n < 10)%N → Str.digit (pretty_N_char n) = Some (Z.of_N n).
Proof.
  intros Hn. assert (n = 0 ∨ n = 1 ∨ n = 2 ∨ n = 3 ∨ n = 4 ∨ n = 5 ∨ n = 6 ∨ n = 7 ∨ n = 8 ∨ n = 9)%N as Hcases by lia.
  destruct Hcases as [->|[->|[->|[->|[->|[->|[->|[->|[->| ->]]]]]]]]]; done.
Qed.

Lemma pretty_go_chars x s c : c ∈ chars (pretty_N_go x s) → isDigit c ∨ c ∈ chars s.
Proof.
  revert s. induction (N.lt_wf_0 x) as [x _ IH]; intros s. assert (x = 0 ∨ 0 < x)%N as [->|Hx] by lia; [by right|].
  rewrite pretty_N_go_step by done. intros Hc. apply IH in Hc; [|by apply N.div_lt].
  destruct Hc as [Hc|Hc]; [by left|]. cbn in Hc. apply elem_of_cons in Hc as [->|Hc]; [|by right].
  left. eexists. apply pretty_char_digit. by apply N.mod_lt.
Qed.

(** Reading the digits that printing puts in front of [s]. *)
Lemma digits_pretty_go x s : Str.digits (pretty_N_go x s) 0 = Str.digits s (Z.of_N x).
Proof.
  revert s. induction (N.lt_wf_0 x) as [x _ IH]; intros s. assert (x = 0 ∨ 0 < x)%N as [->|Hx] by lia; [done|].
  rewrite pretty_N_go_step by done. rewrite IH by by apply N.div_lt. cbn. rewrite pretty_char_digit by by apply N.mod_lt.
  f_equal. rewrite (N.div_mod x 10) at 3 by done. lia.
Qed.

(** A number that is not negative prints as digits and no sign. *)
Lemma pretty_chars z c : 0 ≤ z → c ∈ chars (pretty z) → isDigit c.
Proof.
  intros Hz. destruct z as [|p|p]; [|intros Hc|lia].
  - intros ->%list_elem_of_singleton. by exists 0.
  - unfold pretty, pretty_Z, pretty, pretty_positive, pretty, pretty_N in Hc. rewrite decide_False in Hc by done.
    apply pretty_go_chars in Hc as [?|Hc]; [done|by apply elem_of_nil in Hc].
Qed.

Lemma digits_pretty z : 0 ≤ z → Str.digits (pretty z) 0 = Some z ∧ pretty z ≠ "".
Proof.
  intros Hz. destruct z as [|p|p]; [done| |lia].
  unfold pretty, pretty_Z, pretty, pretty_positive, pretty, pretty_N. rewrite decide_False by done.
  rewrite digits_pretty_go. split; [done|]. intros He. pose proof (digits_pretty_go (N.pos p) "") as Hd. rewrite He in Hd. discriminate Hd.
Qed.

Lemma pretty_no_dash z : 0 ≤ z → Ascii.ascii_of_nat 45 ∉ chars (pretty z).
Proof. intros Hz Hc. destruct (pretty_chars z _ Hz Hc) as [d Hd]. discriminate Hd. Qed.

Lemma Atoi_pretty z : 0 ≤ z ≤ int64_max → Str.Atoi (pretty z) = Some z.
Proof.
  intros Hz. destruct (digits_pretty z ltac:(lia)) as [Hd Hne]. unfold Str.Atoi.
  destruct (pretty z) as [|c s] eqn:E; [done|].
  assert (isDigit c) as [d Hc] by (apply (pretty_chars z); [lia|rewrite E; by left]).
  rewrite decide_False by (intros ->; discriminate Hc). rewrite decide_False by (intros ->; discriminate Hc).
  rewrite Hd. rewrite decide_True; [done|]. unfold in_int64, int64_min. lia.
Qed.

End Text.
