(* ===== verification/Float64.v ===== *)
(** IEEE 754 binary64 numbers, the Go type [float64]: the operations the GPU
    controller and the metrics scraper use, rounding to nearest even, and the
    order they induce on numbers that are not NaN. *)

From stdpp Require Import base tactics list.
From Stdlib Require Import ZArith Lia SpecFloat.
From S2P Require Import Prelude.

Abbreviation float64 := spec_float.

Module F64.

Definition prec : Z := 53.
Definition emax : Z := 1024.

(** [float64(z)] for an integer [z]. *)
Definition of_Z (z : Z) : float64 := binary_normalize prec emax z 0 false.
Definition add (x y : float64) : float64 := SFadd prec emax x y.
Definition sub (x y : float64) : float64 := SFsub prec emax x y.
Definition mul (x y : float64) : float64 := SFmul prec emax x y.
Definition div (x y : float64) : float64 := SFdiv prec emax x y.
Definition abs (x : float64) : float64 := SFabs x.
Definition ltb (x y : float64) : bool := SFltb x y.
Definition leb (x y : float64) : bool := SFleb x y.
Definition is_nan (x : float64) : bool := match x with S754_nan => true | _ => false end.

(** [math.Round]: to the nearest integer, halves away from zero. *)
Definition Round (x : float64) : float64 :=
  match x with
  | S754_finite s m e =>
      if decide (0 ≤ e) then x
      else
        let d := 2 ^ (- e) in
        let q := Z.pos m / d in
        let q' := if decide (d ≤ 2 * (Z.pos m `mod` d)) then q + 1 else q in
        binary_normalize prec emax (if s then - q' else q') 0 s
  | _ => x
  end.

(** ** The order *)

Ltac split_cmp :=
  repeat match goal with
  | H : context [Z.compare ?a ?b] |- _ => destruct (Z.compare_spec a b)
  | |- context [Z.compare ?a ?b] => destruct (Z.compare_spec a b)
  | H : context [Pos.compare_cont Eq ?a ?b] |- _ =>
      change (Pos.compare_cont Eq a b) with (Pos.compare a b) in H
  | |- context [Pos.compare_cont Eq ?a ?b] =>
      change (Pos.compare_cont Eq a b) with (Pos.compare a b)
  | H : context [Pos.compare ?a ?b] |- _ => destruct (Pos.compare_spec a b)
  | |- context [Pos.compare ?a ?b] => destruct (Pos.compare_spec a b)
  end.

Ltac float_cases :=
  repeat match goal with
  | x : spec_float |- _ => destruct x as [[]|[]| |[]]
  end;
  cbn in *; try done; split_cmp; cbn in *; subst; try done; try lia.

Lemma leb_refl x : is_nan x = false → leb x x = true.
Proof. unfold leb, SFleb, ltb, SFltb, SFcompare, is_nan. float_cases. Qed.

Lemma leb_trans x y z : leb x y = true → leb y z = true → leb x z = true.
Proof. unfold leb, SFleb, SFcompare. intros H1 H2. float_cases. Qed.

(** On numbers, [x < y] and [x >= y] exclude each other and one holds. *)
Lemma ltb_leb x y : is_nan x = false → is_nan y = false → ltb x y = negb (leb y x).
Proof. unfold ltb, leb, SFltb, SFleb, SFcompare, is_nan. intros H1 H2. float_cases. Qed.

Lemma ltb_weaken x y : ltb x y = true → leb x y = true.
Proof. unfold ltb, leb, SFltb, SFleb. by destruct (SFcompare x y) as [[]|]. Qed.

(** A comparison with NaN is false. *)
Lemma leb_nan x y : is_nan x = true ∨ is_nan y = true → leb x y = false.
Proof. unfold leb, SFleb, SFcompare, is_nan. intros [H|H]; float_cases. Qed.

Lemma ltb_nan x y : is_nan x = true ∨ is_nan y = true → ltb x y = false.
Proof. unfold ltb, SFltb, SFcompare, is_nan. intros [H|H]; float_cases. Qed.

(** A difference of a number with itself is not above any positive bound. *)
Lemma sub_diag_small x bound : ltb (S754_zero false) bound = true → ltb bound (abs (sub x x)) = false.
Proof.
  intros Hb. assert (sub x x = S754_nan ∨ sub x x = S754_zero false ∨ sub x x = S754_zero true) as Hx.
  { destruct x as [s|s| |s m e]; [right; destruct s; auto|left; destruct s; auto|by left|].
    right. left. unfold sub, SFsub. rewrite Z.min_id. unfold shl_align.
    rewrite Z.sub_diag. destruct s; done. }
  destruct bound as [[]|[]| |[] m e]; try done; destruct Hx as [->|[->| ->]]; done.
Qed.

(** ** Integers as floats *)

(** [math.Max] of numbers that are not NaN. *)
Definition max (x y : float64) : float64 := if leb x y then y else x.

(** [int(x)]: towards zero; a value beyond the range converts to the least integer. *)
Definition to_int (x : float64) : Z :=
  match x with
  | S754_finite s m e =>
      let a := if decide (0 ≤ e) then Z.pos m * 2 ^ e else Z.pos m / 2 ^ (- e) in
      let z := if s then - a else a in
      if decide (in_int64 z) then z else int64_min
  | S754_zero _ => 0
  | _ => int64_min
  end.

Lemma digits_shift k m : Z.pos (digits2_pos (Pos.iter xO m k)) = Z.pos (digits2_pos m) + Z.pos k.
Proof.
  induction k using Pos.peano_ind; [simpl; lia|].
  rewrite Pos.iter_succ. simpl. lia.
Qed.

Lemma digits_bounds m : 2 ^ (Z.pos (digits2_pos m) - 1) ≤ Z.pos m < 2 ^ (Z.pos (digits2_pos m)).
Proof.
  induction m as [m IH|m IH|]; [| |simpl; lia]; cbn [digits2_pos];
    replace (Z.pos (Pos.succ (digits2_pos m))) with (Z.pos (digits2_pos m) + 1) by lia;
    rewrite Z.add_simpl_r, Z.pow_add_r by lia;
    assert (2 ^ Z.pos (digits2_pos m) = 2 * 2 ^ (Z.pos (digits2_pos m) - 1)) by (rewrite <- Z.pow_succ_r by lia; f_equal; lia); lia.
Qed.

Lemma shift_pos_mul k m : Z.pos (Pos.iter xO m k) = Z.pos m * 2 ^ Z.pos k.
Proof.
  induction k using Pos.peano_ind; [simpl; lia|].
  rewrite Pos.iter_succ, Pos2Z.inj_succ, Z.pow_succ_r by lia. lia.
Qed.

Lemma shr_fexp_exact m e : fexp prec emax (Z.pos (digits2_pos m) + e) = e → shr_fexp prec emax (Z.pos m) e loc_Exact = ({| shr_m := Z.pos m; shr_r := false; shr_s := false |}, e).
Proof. intros H. unfold shr_fexp. cbn [Zdigits2]. rewrite H, Z.sub_diag. done. Qed.

Lemma round_exact s m e :
  fexp prec emax (Z.pos (digits2_pos m) + e) = e → e ≤ emax - prec → binary_round_aux prec emax s (Z.pos m) e loc_Exact = S754_finite s m e.
Proof.
  intros H He. unfold binary_round_aux. rewrite shr_fexp_exact by done. cbn [shr_m loc_of_shr_record round_nearest_even].
  rewrite shr_fexp_exact by done. cbn [shr_m]. by rewrite (proj2 (Z.leb_le _ _) He).
Qed.

(** The number with 53 bits of mantissa. *)
Lemma of_Z_pos m : Z.pos (digits2_pos m) ≤ 53 →
  ∃ m', of_Z (Z.pos m) = S754_finite false m' (Z.pos (digits2_pos m) - 53) ∧
    Z.pos m' = Z.pos m * 2 ^ (53 - Z.pos (digits2_pos m)).
Proof.
  intros Hd. unfold of_Z, binary_normalize, binary_round, shl_align. rewrite Z.add_0_r, Z.sub_0_r.
  assert (fexp prec emax (Z.pos (digits2_pos m)) = Z.pos (digits2_pos m) - 53) as Hf by (unfold fexp, SpecFloat.emin, prec, emax; lia).
  rewrite Hf. destruct (Z.pos (digits2_pos m) - 53) as [|k|k] eqn:Hk; [|lia|].
  - exists m. rewrite round_exact; [split; [done|]|rewrite Z.add_0_r, Hf; lia|unfold emax, prec; lia].
    replace (53 - Z.pos (digits2_pos m)) with 0 by lia. lia.
  - exists (Pos.iter xO m k). rewrite round_exact; [split; [done|]| |unfold emax, prec; lia].
    + rewrite shift_pos_mul. do 2 f_equal. lia.
    + rewrite digits_shift. unfold fexp, SpecFloat.emin, prec, emax in *. lia.
Qed.

Lemma to_int_of_Z z : 0 ≤ z < 2 ^ 53 → to_int (of_Z z) = z.
Proof.
  intros Hz. destruct z as [|m|m]; [done| |lia]. pose proof (digits_bounds m) as Hb.
  assert (Z.pos (digits2_pos m) ≤ 53) as Hd.
  { apply Z.lt_succ_r, (Z.pow_lt_mono_r_iff 2); [lia|lia|]. 
    destruct (Z.le_gt_cases (Z.pos (digits2_pos m)) 53); [apply Z.pow_lt_mono_r; lia|].
    pose proof (Z.pow_le_mono_r 2 53 (Z.pos (digits2_pos m) - 1)). lia. }
  destruct (of_Z_pos m Hd) as (m' & -> & Hm'). unfold to_int.
  assert ((if decide (0 ≤ Z.pos (digits2_pos m) - 53) then Z.pos m' * 2 ^ (Z.pos (digits2_pos m) - 53)
    else Z.pos m' / 2 ^ (- (Z.pos (digits2_pos m) - 53))) = Z.pos m) as ->.
  { rewrite Hm'. case_decide.
    - replace (Z.pos (digits2_pos m) - 53) with 0 by lia. replace (53 - Z.pos (digits2_pos m)) with 0 by lia. lia.
    - replace (- (Z.pos (digits2_pos m) - 53)) with (53 - Z.pos (digits2_pos m)) by lia.
      apply Z.div_mul. apply Z.pow_nonzero; lia. }
  rewrite decide_True; [done|]. unfold in_int64, int64_min, int64_max. lia.
Qed.

Lemma leb_of_Z a b : 0 ≤ a < 2 ^ 53 → 0 ≤ b < 2 ^ 53 → leb (of_Z a) (of_Z b) = (a <=? b).
Proof.
  intros Ha Hb. 
  assert (∀ m, 0 ≤ Z.pos m < 2 ^ 53 → Z.pos (digits2_pos m) ≤ 53) as Hdig.
  { intros m Hm. pose proof (digits_bounds m).
    destruct (Z.le_gt_cases (Z.pos (digits2_pos m)) 53); [done|].
    pose proof (Z.pow_le_mono_r 2 53 (Z.pos (digits2_pos m) - 1)). lia. }
  destruct a as [|a|a]; [| |lia].
  - destruct b as [|b|b]; [done| |lia]. destruct (of_Z_pos b (Hdig _ Hb)) as (b' & -> & _). done.
  - destruct b as [|b|b]; [| |lia]; destruct (of_Z_pos a (Hdig _ Ha)) as (a' & -> & Ea).
    + done.
    + destruct (of_Z_pos b (Hdig _ Hb)) as (b' & -> & Eb).
      pose proof (digits_bounds a) as Ba. pose proof (digits_bounds b) as Bb.
      unfold leb, SFleb, SFcompare.
      destruct (Z.compare_spec (Z.pos (digits2_pos a) - 53) (Z.pos (digits2_pos b) - 53)) as [E|E|E].
      * assert (Z.pos (digits2_pos a) = Z.pos (digits2_pos b)) as Ed by lia. rewrite Ed in Ea.
        assert (0 < 2 ^ (53 - Z.pos (digits2_pos b))) by (apply Z.pow_pos_nonneg; [lia|]; specialize (Hdig _ Hb); lia).
        change (Pos.compare_cont Eq a' b') with (Pos.compare a' b').
        destruct (Pos.compare_spec a' b') as [->|Hlt|Hlt]; symmetry; rewrite ?Z.leb_le, ?Z.leb_gt; nia.
      * symmetry. apply Z.leb_le. pose proof (Z.pow_le_mono_r 2 (Z.pos (digits2_pos a)) (Z.pos (digits2_pos b) - 1)). lia.
      * symmetry. apply Z.leb_gt. pose proof (Z.pow_le_mono_r 2 (Z.pos (digits2_pos b)) (Z.pos (digits2_pos a) - 1)). lia.
Qed.

(** Integers up to 53 bits survive the way through [float64]. *)
Lemma max_of_Z a b : 0 ≤ a < 2 ^ 53 → 0 ≤ b < 2 ^ 53 → to_int (max (of_Z a) (of_Z b)) = Z.max a b.
Proof.
  intros Ha Hb. unfold max. rewrite leb_of_Z by done. destruct (Z.leb_spec a b); rewrite to_int_of_Z by done; lia.
Qed.

End F64.
