(* ===== verification/Types.v ===== *)
(** The data of the operator: the custom resources of apis/kaiwo/v1alpha1 and
    apis/config/v1alpha1 that the GPU preemption controller works on, and the
    Kubernetes objects (pods, owner references, conditions, leases) with the
    fields the code reads. Quantities are held by their integer value and
    timestamps by nanoseconds. *)

From stdpp Require Import gmap strings list.
From Stdlib Require Import ZArith.
From S2P Require Import Prelude Float64.

(** * Kubernetes objects *)

Record Key := mkKey { key_namespace : string; key_name : string }.

Record GroupVersionKind := mkGVK { gvk_group : string; gvk_version : string; gvk_kind : string }.

Record OwnerReference := {
  or_APIVersion : string;
  or_Kind : string;
  or_Name : string;
  or_UID : string;
  or_Controller : option bool
}.

Inductive ConditionStatus := ConditionTrue | ConditionFalse | ConditionUnknown.

(** A [metav1.Condition] or a [corev1.PodCondition]. *)
Record Condition := {
  cond_Type : string;
  cond_Status : ConditionStatus;
  cond_Reason : string;
  cond_Message : string;
  cond_ObservedGeneration : Z;
  cond_LastTransitionTime : Z
}.

Inductive PodPhase := PodPending | PodRunning | PodSucceeded | PodFailed | PodUnknown.

Record Container := {
  c_Name : string;
  c_Requests : gmap string Z;
  c_Limits : gmap string Z
}.

Record PodSpec := { ps_Containers : list Container; ps_InitContainers : list Container }.

Record Pod := {
  pod_Name : string;
  pod_Namespace : string;
  pod_UID : string;
  pod_Labels : gmap string string;
  pod_OwnerReferences : list OwnerReference;
  pod_Spec : PodSpec;
  pod_Phase : PodPhase;
  pod_Conditions : list Condition
}.

(** A Kueue [Workload]. *)
Record KueueWorkload := {
  wl_Name : string;
  wl_Namespace : string;
  wl_OwnerReferences : list OwnerReference;
  wl_Conditions : list Condition
}.

(** The content of an [unstructured.Unstructured]. *)
#[warnings="-register-all"]
Inductive Json :=
| JNull
| JBool (b : bool)
| JNum (n : Z)
| JStr (s : string)
| JArr (l : list Json)
| JObj (fields : list (string * Json)).

(** An object fetched by kind only: its metadata and its content. *)
Record Unstructured := {
  u_APIVersion : string;
  u_Kind : string;
  u_Name : string;
  u_UID : string;
  u_Annotations : gmap string string;
  u_OwnerReferences : list OwnerReference;
  u_Object : Json
}.

(** A [coordination.k8s.io] lease; its resource version is the optimistic
    concurrency token. *)
Record Lease := {
  lease_Key : Key;
  lease_ResourceVersion : Z;
  lease_HolderIdentity : option string;
  lease_LeaseDurationSeconds : option Z;
  lease_AcquireTime : option Z;
  lease_RenewTime : option Z
}.

#[export] Instance Key_eq_dec : EqDecision Key.
Proof. solve_decision. Defined.
#[export] Instance Key_countable : Countable Key.
Proof.
  refine (inj_countable' (λ k, (key_namespace k, key_name k)) (λ p, mkKey p.1 p.2) _).
  by intros [].
Defined.
#[export] Instance OwnerReference_eq_dec : EqDecision OwnerReference.
Proof. solve_decision. Defined.
#[export] Instance ConditionStatus_eq_dec : EqDecision ConditionStatus.
Proof. solve_decision. Defined.
#[export] Instance PodPhase_eq_dec : EqDecision PodPhase.
Proof. solve_decision. Defined.

(** * apis/kaiwo/v1alpha1/gpuworkload_types.go *)

Inductive PreemptionPolicy := PreemptionPolicyOnPressure | PreemptionPolicyAlways.

Inductive AggregationPolicy := AggregationPolicyMin | AggregationPolicyMax | AggregationPolicyAvg.

(** The values the CRD admits; [PhaseUnset] is the empty string. *)
Inductive GpuWorkloadPhase :=
| PhaseUnset
| PhasePendingGpu
| PhasePendingOther
| PhaseActive
| PhaseIdle
| PhasePreempting
| PhasePreempted
| PhaseDeleted.

#[export] Instance PreemptionPolicy_eq_dec : EqDecision PreemptionPolicy.
Proof. solve_decision. Defined.
#[export] Instance GpuWorkloadPhase_eq_dec : EqDecision GpuWorkloadPhase.
Proof. solve_decision. Defined.

Record WorkloadReference := {
  ref_APIVersion : string;
  ref_Kind : string;
  ref_Name : string;
  ref_UID : string
}.

Record GpuMetric := { gm_GpuID : string; gm_Utilization : float64; gm_LastUpdate : Z }.

Record TrackedPod := { tp_PodName : string; tp_GpuMetrics : list GpuMetric }.

Record GpuWorkloadSpec := {
  spec_WorkloadRef : WorkloadReference;
  spec_GpuResources : gmap string Z;
  spec_UtilizationThreshold : option float64;
  spec_GracePeriod : option Z;
  spec_PreemptionPolicy : option PreemptionPolicy;
  spec_AggregationPolicy : option AggregationPolicy;
  spec_TTLAfterFinished : option Z
}.

Record GpuWorkloadStatus := {
  st_Phase : GpuWorkloadPhase;
  st_TrackedPods : list TrackedPod;
  st_AggregatedUtilization : option float64;
  st_LastMetricsUpdate : option Z;
  st_IdleSince : option Z;
  st_FinishedAt : option Z;
  st_OwnerChain : string;
  st_PreemptedAt : option Z;
  st_PreemptedFor : string;
  st_PreemptionReason : string;
  st_Conditions : list Condition
}.

(** The object metadata the code uses is the name, the namespace, the creation
    timestamp and the resource version. *)
Record GpuWorkload := {
  gw_Name : string;
  gw_Namespace : string;
  gw_CreationTimestamp : Z;
  gw_ResourceVersion : Z;
  gw_Spec : GpuWorkloadSpec;
  gw_Status : GpuWorkloadStatus
}.

Definition gw_key (gw : GpuWorkload) : Key := mkKey (gw_Namespace gw) (gw_Name gw).

(** ** Assignments to fields *)

Definition set_Phase (p : GpuWorkloadPhase) (s : GpuWorkloadStatus) : GpuWorkloadStatus :=
  {| st_Phase := p; st_TrackedPods := st_TrackedPods s;
     st_AggregatedUtilization := st_AggregatedUtilization s;
     st_LastMetricsUpdate := st_LastMetricsUpdate s; st_IdleSince := st_IdleSince s;
     st_FinishedAt := st_FinishedAt s; st_OwnerChain := st_OwnerChain s;
     st_PreemptedAt := st_PreemptedAt s; st_PreemptedFor := st_PreemptedFor s;
     st_PreemptionReason := st_PreemptionReason s; st_Conditions := st_Conditions s |}.

Definition set_TrackedPods (tp : list TrackedPod) (s : GpuWorkloadStatus) : GpuWorkloadStatus :=
  {| st_Phase := st_Phase s; st_TrackedPods := tp;
     st_AggregatedUtilization := st_AggregatedUtilization s;
     st_LastMetricsUpdate := st_LastMetricsUpdate s; st_IdleSince := st_IdleSince s;
     st_FinishedAt := st_FinishedAt s; st_OwnerChain := st_OwnerChain s;
     st_PreemptedAt := st_PreemptedAt s; st_PreemptedFor := st_PreemptedFor s;
     st_PreemptionReason := st_PreemptionReason s; st_Conditions := st_Conditions s |}.

Definition set_AggregatedUtilization (u : option float64) (s : GpuWorkloadStatus) : GpuWorkloadStatus :=
  {| st_Phase := st_Phase s; st_TrackedPods := st_TrackedPods s;
     st_AggregatedUtilization := u;
     st_LastMetricsUpdate := st_LastMetricsUpdate s; st_IdleSince := st_IdleSince s;
     st_FinishedAt := st_FinishedAt s; st_OwnerChain := st_OwnerChain s;
     st_PreemptedAt := st_PreemptedAt s; st_PreemptedFor := st_PreemptedFor s;
     st_PreemptionReason := st_PreemptionReason s; st_Conditions := st_Conditions s |}.

Definition set_LastMetricsUpdate (t : option Z) (s : GpuWorkloadStatus) : GpuWorkloadStatus :=
  {| st_Phase := st_Phase s; st_TrackedPods := st_TrackedPods s;
     st_AggregatedUtilization := st_AggregatedUtilization s;
     st_LastMetricsUpdate := t; st_IdleSince := st_IdleSince s;
     st_FinishedAt := st_FinishedAt s; st_OwnerChain := st_OwnerChain s;
     st_PreemptedAt := st_PreemptedAt s; st_PreemptedFor := st_PreemptedFor s;
     st_PreemptionReason := st_PreemptionReason s; st_Conditions := st_Conditions s |}.

Definition set_IdleSince (t : option Z) (s : GpuWorkloadStatus) : GpuWorkloadStatus :=
  {| st_Phase := st_Phase s; st_TrackedPods := st_TrackedPods s;
     st_AggregatedUtilization := st_AggregatedUtilization s;
     st_LastMetricsUpdate := st_LastMetricsUpdate s; st_IdleSince := t;
     st_FinishedAt := st_FinishedAt s; st_OwnerChain := st_OwnerChain s;
     st_PreemptedAt := st_PreemptedAt s; st_PreemptedFor := st_PreemptedFor s;
     st_PreemptionReason := st_PreemptionReason s; st_Conditions := st_Conditions s |}.

Definition set_FinishedAt (t : option Z) (s : GpuWorkloadStatus) : GpuWorkloadStatus :=
  {| st_Phase := st_Phase s; st_TrackedPods := st_TrackedPods s;
     st_AggregatedUtilization := st_AggregatedUtilization s;
     st_LastMetricsUpdate := st_LastMetricsUpdate s; st_IdleSince := st_IdleSince s;
     st_FinishedAt := t; st_OwnerChain := st_OwnerChain s;
     st_PreemptedAt := st_PreemptedAt s; st_PreemptedFor := st_PreemptedFor s;
     st_PreemptionReason := st_PreemptionReason s; st_Conditions := st_Conditions s |}.

Definition set_OwnerChain (c : string) (s : GpuWorkloadStatus) : GpuWorkloadStatus :=
  {| st_Phase := st_Phase s; st_TrackedPods := st_TrackedPods s;
     st_AggregatedUtilization := st_AggregatedUtilization s;
     st_LastMetricsUpdate := st_LastMetricsUpdate s; st_IdleSince := st_IdleSince s;
     st_FinishedAt := st_FinishedAt s; st_OwnerChain := c;
     st_PreemptedAt := st_PreemptedAt s; st_PreemptedFor := st_PreemptedFor s;
     st_PreemptionReason := st_PreemptionReason s; st_Conditions := st_Conditions s |}.

Definition set_Preempted (at_ : option Z) (s : GpuWorkloadStatus) : GpuWorkloadStatus :=
  {| st_Phase := st_Phase s; st_TrackedPods := st_TrackedPods s;
     st_AggregatedUtilization := st_AggregatedUtilization s;
     st_LastMetricsUpdate := st_LastMetricsUpdate s; st_IdleSince := st_IdleSince s;
     st_FinishedAt := st_FinishedAt s; st_OwnerChain := st_OwnerChain s;
     st_PreemptedAt := at_; st_PreemptedFor := st_PreemptedFor s;
     st_PreemptionReason := st_PreemptionReason s; st_Conditions := st_Conditions s |}.

Definition set_PreemptedFor (n : string) (s : GpuWorkloadStatus) : GpuWorkloadStatus :=
  {| st_Phase := st_Phase s; st_TrackedPods := st_TrackedPods s;
     st_AggregatedUtilization := st_AggregatedUtilization s;
     st_LastMetricsUpdate := st_LastMetricsUpdate s; st_IdleSince := st_IdleSince s;
     st_FinishedAt := st_FinishedAt s; st_OwnerChain := st_OwnerChain s;
     st_PreemptedAt := st_PreemptedAt s; st_PreemptedFor := n;
     st_PreemptionReason := st_PreemptionReason s; st_Conditions := st_Conditions s |}.

Definition set_PreemptionReason (m : string) (s : GpuWorkloadStatus) : GpuWorkloadStatus :=
  {| st_Phase := st_Phase s; st_TrackedPods := st_TrackedPods s;
     st_AggregatedUtilization := st_AggregatedUtilization s;
     st_LastMetricsUpdate := st_LastMetricsUpdate s; st_IdleSince := st_IdleSince s;
     st_FinishedAt := st_FinishedAt s; st_OwnerChain := st_OwnerChain s;
     st_PreemptedAt := st_PreemptedAt s; st_PreemptedFor := st_PreemptedFor s;
     st_PreemptionReason := m; st_Conditions := st_Conditions s |}.

Definition with_status (f : GpuWorkloadStatus → GpuWorkloadStatus) (gw : GpuWorkload) : GpuWorkload :=
  {| gw_Name := gw_Name gw; gw_Namespace := gw_Namespace gw;
     gw_CreationTimestamp := gw_CreationTimestamp gw; gw_ResourceVersion := gw_ResourceVersion gw;
     gw_Spec := gw_Spec gw; gw_Status := f (gw_Status gw) |}.

Definition with_spec (f : GpuWorkloadSpec → GpuWorkloadSpec) (gw : GpuWorkload) : GpuWorkload :=
  {| gw_Name := gw_Name gw; gw_Namespace := gw_Namespace gw;
     gw_CreationTimestamp := gw_CreationTimestamp gw; gw_ResourceVersion := gw_ResourceVersion gw;
     gw_Spec := f (gw_Spec gw); gw_Status := gw_Status gw |}.

Definition set_GpuResources (r : gmap string Z) (s : GpuWorkloadSpec) : GpuWorkloadSpec :=
  {| spec_WorkloadRef := spec_WorkloadRef s; spec_GpuResources := r;
     spec_UtilizationThreshold := spec_UtilizationThreshold s; spec_GracePeriod := spec_GracePeriod s;
     spec_PreemptionPolicy := spec_PreemptionPolicy s; spec_AggregationPolicy := spec_AggregationPolicy s;
     spec_TTLAfterFinished := spec_TTLAfterFinished s |}.

(** The zero value of the status struct. *)
Definition zero_status : GpuWorkloadStatus :=
  {| st_Phase := PhaseUnset; st_TrackedPods := []; st_AggregatedUtilization := None;
     st_LastMetricsUpdate := None; st_IdleSince := None; st_FinishedAt := None; st_OwnerChain := "";
     st_PreemptedAt := None; st_PreemptedFor := ""; st_PreemptionReason := ""; st_Conditions := [] |}.

(** * apis/config/v1alpha1/kaiwoconfig_types.go, the GPU preemption part *)

Record KaiwoGpuPreemptionConfig := {
  cfg_DefaultThreshold : option float64;
  cfg_DefaultGracePeriod : option Z;
  cfg_DefaultPolicy : string;
  cfg_DefaultAggregation : string;
  cfg_DefaultTTL : option Z
}.

(** The zero value, used when the configuration cannot be read. *)
Definition zero_gpu_config : KaiwoGpuPreemptionConfig :=
  {| cfg_DefaultThreshold := None; cfg_DefaultGracePeriod := None; cfg_DefaultPolicy := "";
     cfg_DefaultAggregation := ""; cfg_DefaultTTL := None |}.

(** * Events and results *)

Inductive EventType := EventTypeNormal | EventTypeWarning.

(** A [ctrl.Result] with its error: what a reconcile returns. *)
Record Result := { res_Requeue : bool; res_RequeueAfter : Z }.
Definition done_ : Result := {| res_Requeue := false; res_RequeueAfter := 0 |}.
Definition requeue : Result := {| res_Requeue := true; res_RequeueAfter := 0 |}.
Definition requeueAfter (d : Z) : Result := {| res_Requeue := false; res_RequeueAfter := d |}.
