(* ===== verification/GpuResources.v ===== *)
(** What a GPU workload asks for and how it is configured: the GPU counts read
    off pods, the preemption annotations, and the resolution of each setting
    through annotation, KaiwoConfig, environment variable and default
    (internal/controller/gpuworkload_controller.go). *)

From stdpp Require Import gmap strings list fin_maps.
From Stdlib Require Import ZArith Lia.
From S2P Require Import Prelude Float64 Types.

(** * The host: environment variables, parsers, formatters and converters *)

(** Go's and apimachinery's: [os.Getenv], [strconv.ParseFloat],
    [time.ParseDuration], the scheme of [url.Parse], the [%s] form of a duration, the [%.1f] form of a
    float, [schema.ParseGroupVersion], [unstructured.NestedMap] and the
    unstructured converter; [None] stands for an error or a missing value.
    Nothing is assumed about them. *)

Class Host := {
  Getenv : string → string;
  ParseFloat : string → option float64;
  ParseDuration : string → option Z;
  URLScheme : string → option string;
  FormatDuration : Z → string;
  FormatFloat1 : float64 → string;
  ParseGroupVersion : string → option (string * string);
  NestedMap : Json → list string → option Json;
  FromUnstructured : Json → option PodSpec
}.

(** A variable of the environment, or what stands for it when it is empty or not set. *)
Definition GetEnv `{Host} (key defaultValue : string) : string :=
  let value := Getenv key in if decide (value = "") then defaultValue else value.

Definition DefaultClusterQueueName `{Host} : string := GetEnv "DEFAULT_CLUSTER_QUEUE_NAME" "kaiwo".

(** * Constants *)

Definition AnnotationPrefix : string := "kaiwo.silogen.ai/gpu-preemption.".
Definition AnnotationThreshold : string := AnnotationPrefix +:+ "threshold".
Definition AnnotationGracePeriod : string := AnnotationPrefix +:+ "grace-period".
Definition AnnotationPolicy : string := AnnotationPrefix +:+ "policy".
Definition AnnotationAggregation : string := AnnotationPrefix +:+ "aggregation".
Definition AnnotationTTL : string := AnnotationPrefix +:+ "ttl".
Definition PreemptionEvalLeaseName : string := "gpu-preemption-eval".
Definition PreemptionEvalLeaseDur : Z := 30 * Second.
Definition IdleRequeueInterval : Z := 60 * Second.
Definition GpuResourcePrefix : string := "amd.com/".
Definition DefaultOperatorNamespace : string := "kaiwo-system".
Definition DefaultUtilizationThreshold : float64 := F64.of_Z 5.
Definition DefaultGracePeriod : Z := 10 * Minute.
Definition DefaultTTL : Z := 24 * Hour.
Definition EnvGpuPreemptionPrefix : string := "GPU_PREEMPTION_".
Definition EnvDefaultThreshold : string := EnvGpuPreemptionPrefix +:+ "DEFAULT_THRESHOLD".
Definition EnvDefaultGracePeriod : string := EnvGpuPreemptionPrefix +:+ "DEFAULT_GRACE_PERIOD".
Definition EnvDefaultPolicy : string := EnvGpuPreemptionPrefix +:+ "DEFAULT_POLICY".
Definition EnvDefaultAggregation : string := EnvGpuPreemptionPrefix +:+ "DEFAULT_AGGREGATION".
Definition EnvDefaultTTL : string := EnvGpuPreemptionPrefix +:+ "DEFAULT_TTL".
Definition EnvOperatorNamespace : string := EnvGpuPreemptionPrefix +:+ "OPERATOR_NAMESPACE".

(** * Ranging over a map to update another one *)

Section range_alter.
Context `{GoOrder} {V B : Type}.

(** [for k, v := range r { m[k] = g(k, v, m[k]) }]. *)
Definition range_alter (g : string → V → option B → option B) (r : gmap string V) (m : gmap string B)
  : gmap string B :=
  foldl (λ acc kv, partial_alter (g kv.1 kv.2) kv.1 acc) m (rangeMap r).

Lemma foldl_alter_lookup (g : string → V → option B → option B) (l : list (string * V)) (m : gmap string B) k :
  NoDup l.*1 →
  foldl (λ acc kv, partial_alter (g kv.1 kv.2) kv.1 acc) m l !! k =
    match (list_to_map l : gmap string V) !! k with Some v => g k v (m !! k) | None => m !! k end.
Proof.
  revert m. induction l as [|[k' v] l IH]; intros m Hnd; simpl; [by rewrite lookup_empty|].
  apply NoDup_cons in Hnd as [Hk Hnd]. rewrite (IH _ Hnd).
  destruct (decide (k' = k)) as [->|Hne].
  - rewrite lookup_insert_eq, lookup_partial_alter_eq.
    by rewrite (proj1 (not_elem_of_list_to_map _ _)).
  - by rewrite lookup_insert_ne, lookup_partial_alter_ne.
Qed.

(** The order of the iteration does not show in the result. *)
Lemma range_alter_lookup g (r : gmap string V) (m : gmap string B) k :
  range_alter g r m !! k = match r !! k with Some v => g k v (m !! k) | None => m !! k end.
Proof.
  unfold range_alter. rewrite foldl_alter_lookup.
  - f_equal. rewrite (list_to_map_proper (rangeMap r) (map_to_list r)).
    + by rewrite list_to_map_to_list.
    + rewrite rangeMap_perm. apply NoDup_fst_map_to_list.
    + apply rangeMap_perm.
  - rewrite rangeMap_perm. apply NoDup_fst_map_to_list.
Qed.

End range_alter.

(** * GPU requests of pods *)

Section pods.
Context `{GoOrder}.

Definition isGpu (resName : string) : bool := Str.HasPrefix resName GpuResourcePrefix.

(** [resources[resName] += int(qty.Value())]. *)
Definition addQuantity (resName : string) (qty : Z) (cur : option Z) : option Z :=
  if isGpu resName then Some (int64_wrap (default 0 cur + qty)) else cur.

(** [if current, exists := resources[resName]; !exists || qty > current { .. = qty }]. *)
Definition raiseQuantity (resName : string) (qty : Z) (cur : option Z) : option Z :=
  if isGpu resName then
    match cur with
    | Some current => if decide (current < qty) then Some qty else cur
    | None => Some qty
    end
  else cur.

Definition extractGpuResources (pod : PodSpec) : gmap string Z :=
  let resources :=
    foldl (λ res c, range_alter raiseQuantity (c_Limits c) (range_alter addQuantity (c_Requests c) res))
      ∅ (ps_Containers pod) in
  foldl (λ res c, range_alter raiseQuantity (c_Requests c) res) resources (ps_InitContainers pod).

Definition hasGpuResources (pod : PodSpec) : bool :=
  existsb (λ c, existsb (λ kv, isGpu kv.1) (rangeMap (c_Requests c)) ||
                existsb (λ kv, isGpu kv.1) (rangeMap (c_Limits c))) (ps_Containers pod).

(** [total[name] += count]. *)
Definition addCount (name : string) (count : Z) (cur : option Z) : option Z :=
  Some (int64_wrap (default 0 cur + count)).

Definition computeTotalGpuResources (pods : list Pod) : gmap string Z :=
  foldl (λ total pod, range_alter addCount (extractGpuResources (pod_Spec pod)) total) ∅ pods.

(** A missing key reads as 0. *)
Definition gpuResourcesEqual (a b : gmap string Z) : bool :=
  bool_decide (size a = size b) &&
  forallb (λ kv, bool_decide (default 0 (b !! kv.1) = kv.2)) (rangeMap a).

(** * Annotations *)

Definition copyPrefixed (k v : string) (cur : option string) : option string :=
  if Str.HasPrefix k AnnotationPrefix then Some v else cur.

Definition mergePreemptionAnnotations (base override : gmap string string) : gmap string string :=
  range_alter copyPrefixed override (range_alter copyPrefixed base ∅).

Definition isGpuPreemptionAnnotated (annotations : gmap string string) : bool :=
  if bool_decide (size annotations = 0%nat) then false
  else existsb (λ kv, Str.HasPrefix kv.1 AnnotationPrefix) (rangeMap annotations).

End pods.

Section settings.
Context `{Host}.

Definition parsePolicy (v : string) : option PreemptionPolicy :=
  if decide (v = "Always") then Some PreemptionPolicyAlways
  else if decide (v = "OnPressure") then Some PreemptionPolicyOnPressure else None.

Definition parseAggregation (v : string) : option AggregationPolicy :=
  if decide (v = "Min") then Some AggregationPolicyMin
  else if decide (v = "Max") then Some AggregationPolicyMax
  else if decide (v = "Avg") then Some AggregationPolicyAvg else None.

(** Each setting is taken when its annotation is present and valid, and left
    as it is otherwise. *)
Definition parseAnnotationsIntoSpec (annotations : gmap string string) (spec : GpuWorkloadSpec) : GpuWorkloadSpec :=
  let setting {A} (key : string) (parse : string → option A) (cur : option A) : option A :=
    match annotations !! key with
    | Some v => match parse v with Some x => Some x | None => cur end
    | None => cur
    end in
  {| spec_WorkloadRef := spec_WorkloadRef spec;
     spec_GpuResources := spec_GpuResources spec;
     spec_UtilizationThreshold := setting AnnotationThreshold ParseFloat (spec_UtilizationThreshold spec);
     spec_GracePeriod := setting AnnotationGracePeriod ParseDuration (spec_GracePeriod spec);
     spec_PreemptionPolicy := setting AnnotationPolicy parsePolicy (spec_PreemptionPolicy spec);
     spec_AggregationPolicy := setting AnnotationAggregation parseAggregation (spec_AggregationPolicy spec);
     spec_TTLAfterFinished := setting AnnotationTTL ParseDuration (spec_TTLAfterFinished spec) |}.

Definition getThreshold (gw : GpuWorkload) (gpuCfg : KaiwoGpuPreemptionConfig) : float64 :=
  match spec_UtilizationThreshold (gw_Spec gw) with
  | Some t => t
  | None =>
      match cfg_DefaultThreshold gpuCfg with
      | Some t => t
      | None => default DefaultUtilizationThreshold (ParseFloat (Getenv EnvDefaultThreshold))
      end
  end.

Definition getGracePeriod (gw : GpuWorkload) (gpuCfg : KaiwoGpuPreemptionConfig) : Z :=
  match spec_GracePeriod (gw_Spec gw) with
  | Some d => d
  | None =>
      match cfg_DefaultGracePeriod gpuCfg with
      | Some d => d
      | None => default DefaultGracePeriod (ParseDuration (Getenv EnvDefaultGracePeriod))
      end
  end.

Definition getPreemptionPolicy (gw : GpuWorkload) (gpuCfg : KaiwoGpuPreemptionConfig) : PreemptionPolicy :=
  match spec_PreemptionPolicy (gw_Spec gw) with
  | Some p => p
  | None =>
      if decide (cfg_DefaultPolicy gpuCfg ≠ "") then
        if decide (cfg_DefaultPolicy gpuCfg = "Always") then PreemptionPolicyAlways
        else PreemptionPolicyOnPressure
      else if decide (Getenv EnvDefaultPolicy = "Always") then PreemptionPolicyAlways
      else PreemptionPolicyOnPressure
  end.

(** A KaiwoConfig value outside the three policies falls through to the
    environment. *)
Definition getAggregationPolicy (gw : GpuWorkload) (gpuCfg : KaiwoGpuPreemptionConfig) : AggregationPolicy :=
  match spec_AggregationPolicy (gw_Spec gw) with
  | Some a => a
  | None =>
      match (if decide (cfg_DefaultAggregation gpuCfg ≠ "")
             then parseAggregation (cfg_DefaultAggregation gpuCfg) else None) with
      | Some a => a
      | None =>
          let val := Getenv EnvDefaultAggregation in
          if decide (val = "Min") then AggregationPolicyMin
          else if decide (val = "Avg") then AggregationPolicyAvg
          else AggregationPolicyMax
      end
  end.

Definition getTTL (gw : GpuWorkload) (gpuCfg : KaiwoGpuPreemptionConfig) : Z :=
  match spec_TTLAfterFinished (gw_Spec gw) with
  | Some d => d
  | None =>
      match cfg_DefaultTTL gpuCfg with
      | Some d => d
      | None => default DefaultTTL (ParseDuration (Getenv EnvDefaultTTL))
      end
  end.

Definition getOperatorNamespace : string :=
  let ns := Getenv EnvOperatorNamespace in
  if decide (ns = "") then DefaultOperatorNamespace else ns.

End settings.

(** * Properties *)

Section pod_properties.
Context `{GoOrder}.

(** The requests for [k] of a list of pods, summed. *)
Definition totalOf (k : string) (pods : list Pod) : Z :=
  foldr (λ p acc, default 0 (extractGpuResources (pod_Spec p) !! k) + acc) 0 pods.

Definition requestsIt (k : string) (p : Pod) : bool :=
  bool_decide (is_Some (extractGpuResources (pod_Spec p) !! k)).

Lemma totalOf_none k pods : existsb (requestsIt k) pods = false → totalOf k pods = 0.
Proof.
  unfold requestsIt. induction pods as [|p pods IH]; simpl; [done|].
  intros [Hp Hps]%orb_false_iff. rewrite IH by done.
  apply bool_decide_eq_false in Hp. destruct (extractGpuResources (pod_Spec p) !! k); simpl; [|done].
  exfalso; eauto.
Qed.

Lemma computeTotal_foldl pods (m : gmap string Z) k :
  foldl (λ total pod, range_alter addCount (extractGpuResources (pod_Spec pod)) total) m pods !! k =
    if existsb (requestsIt k) pods
    then Some (int64_wrap (default 0 (m !! k) + totalOf k pods)) else m !! k.
Proof.
  revert m. induction pods as [|p pods IH]; intros m; simpl; [done|].
  rewrite IH, range_alter_lookup. pose proof (totalOf_none k pods) as Hnone. unfold requestsIt at 2.
  destruct (extractGpuResources (pod_Spec p) !! k) as [q|] eqn:Hq; simpl.
  - unfold addCount; simpl. destruct (existsb (requestsIt k) pods).
    + autorewrite with kaiwo. do 2 f_equal. lia.
    + rewrite Hnone by done. do 2 f_equal. lia.
  - destruct (existsb (requestsIt k) pods); done.
Qed.

(** The effect of one container, and of one init container, on the count of
    one resource. *)
Definition container_step (k : string) (cur : option Z) (c : Container) : option Z :=
  let cur' := match c_Requests c !! k with Some q => addQuantity k q cur | None => cur end in
  match c_Limits c !! k with Some q => raiseQuantity k q cur' | None => cur' end.

Definition init_step (k : string) (cur : option Z) (c : Container) : option Z :=
  match c_Requests c !! k with Some q => raiseQuantity k q cur | None => cur end.

Lemma extract_containers_lookup cs (m : gmap string Z) k :
  foldl (λ res c, range_alter raiseQuantity (c_Limits c) (range_alter addQuantity (c_Requests c) res)) m cs !! k =
  foldl (container_step k) (m !! k) cs.
Proof.
  revert m. induction cs as [|c cs IH]; intros m; simpl; [done|].
  rewrite IH. f_equal. by rewrite !range_alter_lookup.
Qed.

Lemma extract_init_lookup cs (m : gmap string Z) k :
  foldl (λ res c, range_alter raiseQuantity (c_Requests c) res) m cs !! k =
  foldl (init_step k) (m !! k) cs.
Proof.
  revert m. induction cs as [|c cs IH]; intros m; simpl; [done|].
  rewrite IH. f_equal. by rewrite range_alter_lookup.
Qed.

(** Only GPU resources are counted. *)
Lemma extract_not_gpu pod k : isGpu k = false → extractGpuResources pod !! k = None.
Proof.
  intros Hk. unfold extractGpuResources. rewrite extract_init_lookup, extract_containers_lookup, lookup_empty.
  assert (∀ (A : Type) (f : option Z → A → option Z) l, (∀ x, f None x = None) → foldl f None l = None) as Hf.
  { intros A f l Hf. induction l as [|x l IH]; simpl; [done|]. by rewrite Hf. }
  rewrite !Hf; [done|..]; intros c; unfold container_step, init_step, addQuantity, raiseQuantity; rewrite Hk;
    repeat (destruct (_ !! _); simpl); done.
Qed.

(** The request for [k] of one container, 0 when absent. *)
Definition req_of (k : string) (c : Container) : Z := default 0 (c_Requests c !! k).

(** Extended resources cannot be overcommitted: Kubernetes admits a container
    only when its GPU limit is its GPU request. Values are not negative. *)
Definition admitted (k : string) (c : Container) : Prop :=
  c_Limits c !! k = c_Requests c !! k ∧ 0 ≤ req_of k c.

Definition sum_requests (k : string) (cs : list Container) : Z := foldr (λ c acc, req_of k c + acc) 0 cs.
Definition max_requests (k : string) (cs : list Container) : Z := foldr (λ c acc, Z.max (req_of k c) acc) 0 cs.

Lemma sum_requests_nonneg k cs : Forall (admitted k) cs → 0 ≤ sum_requests k cs.
Proof. induction 1 as [|c cs [_ ?] _ IH]; simpl; lia. Qed.

Lemma extract_containers_admitted k cs cur :
  isGpu k = true → Forall (admitted k) cs → 0 ≤ default 0 cur →
  default 0 cur + sum_requests k cs ≤ int64_max →
  default 0 (foldl (container_step k) cur cs)
  = default 0 cur + sum_requests k cs.
Proof.
  intros Hgpu Hcs. revert cur. induction Hcs as [|c cs [Hlim Hreq] Hcs IH]; intros cur Hcur Hmax; simpl in *.
  { lia. }
  pose proof (sum_requests_nonneg k cs Hcs). unfold req_of in *.
  assert (default 0 (container_step k cur c) = default 0 cur + default 0 (c_Requests c !! k)) as E.
  { unfold container_step, addQuantity, raiseQuantity. rewrite Hlim, Hgpu.
    destruct (c_Requests c !! k) as [q|]; simpl in *; [|lia].
    rewrite int64_wrap_id by (unfold in_int64, int64_min, int64_max in *; lia).
    by rewrite decide_False by lia. }
  rewrite IH; lia.
Qed.

Lemma extract_init_admitted k cs cur :
  isGpu k = true → Forall (λ c, 0 ≤ req_of k c) cs → 0 ≤ default 0 cur →
  default 0 (foldl (init_step k) cur cs)
  = Z.max (default 0 cur) (max_requests k cs).
Proof.
  intros Hgpu Hcs. revert cur. induction Hcs as [|c cs Hreq Hcs IH]; intros cur Hcur; simpl in *; [lia|].
  unfold req_of in *.
  assert (default 0 (init_step k cur c) = Z.max (default 0 cur) (default 0 (c_Requests c !! k))) as E.
  { unfold init_step, raiseQuantity. rewrite Hgpu.
    destruct (c_Requests c !! k) as [q|], cur as [v|]; simpl in *; [case_decide; simpl|..]; lia. }
  rewrite IH; lia.
Qed.

End pod_properties.

(** C31: the GPU count the controller extracts from an admitted pod is the
    effective request of the Kubernetes scheduler, max(sum of the containers,
    largest init container), whatever the order in which Go ranges over the
    resource maps. *)
Theorem extractGpuResources_effective `{GoOrder} (pod : PodSpec) (k : string) :
  isGpu k = true →
  Forall (admitted k) (ps_Containers pod) →
  Forall (λ c, 0 ≤ req_of k c) (ps_InitContainers pod) →
  sum_requests k (ps_Containers pod) ≤ int64_max →
  default 0 (extractGpuResources pod !! k) =
    Z.max (sum_requests k (ps_Containers pod)) (max_requests k (ps_InitContainers pod)).
Proof.
  intros Hgpu Hcs Hinit Hmax. unfold extractGpuResources.
  rewrite extract_init_lookup, extract_containers_lookup, lookup_empty.
  pose proof (extract_containers_admitted k (ps_Containers pod) None Hgpu Hcs ltac:(done) ltac:(simpl; lia)) as E.
  rewrite extract_init_admitted; [by rewrite E|done|done|].
  rewrite E. pose proof (sum_requests_nonneg k _ Hcs). simpl. lia.
Qed.

(** The workload-wide total is, per resource, the int64 sum over the pods,
    and has an entry exactly for the resources some pod requests. *)
Theorem computeTotalGpuResources_sum `{GoOrder} (pods : list Pod) (k : string) :
  computeTotalGpuResources pods !! k =
    if existsb (requestsIt k) pods then Some (int64_wrap (totalOf k pods)) else None.
Proof. unfold computeTotalGpuResources. rewrite computeTotal_foldl, lookup_empty. done. Qed.

Lemma forallb_rangeMap `{GoOrder} {V} (f : string * V → bool) (m : gmap string V) :
  forallb f (rangeMap m) = true ↔ map_Forall (λ k v, f (k, v) = true) m.
Proof.
  rewrite forallb_forall. split.
  - intros Hf k v Hkv. apply Hf. apply list_elem_of_In. rewrite rangeMap_perm. by apply elem_of_map_to_list.
  - intros Hf [k v] Hin%list_elem_of_In. rewrite rangeMap_perm in Hin. apply Hf. by apply elem_of_map_to_list.
Qed.

(** When the recorded GPU resources hold no zero count, the comparison that
    decides whether to rewrite the spec is equality of maps. *)
Theorem gpuResourcesEqual_spec `{GoOrder} (a b : gmap string Z) :
  map_Forall (λ _ v, v ≠ 0) a → gpuResourcesEqual a b = true ↔ a = b.
Proof.
  intros Hnz. unfold gpuResourcesEqual. rewrite andb_true_iff, bool_decide_eq_true, forallb_rangeMap. split.
  - intros [Hsize Hall]. apply map_subseteq_size_eq; [|lia].
    apply map_subseteq_spec. intros k v Hkv. specialize (Hnz k v Hkv). specialize (Hall k v Hkv).
    apply bool_decide_eq_true in Hall. simpl in Hall. destruct (b !! k); simpl in Hall; congruence.
  - intros ->. split; [done|]. intros k v Hkv. apply bool_decide_eq_true. simpl. by rewrite Hkv.
Qed.

(** With a zero count recorded the comparison can call different maps
    equal, because a missing key reads as zero. *)
Theorem gpuResourcesEqual_zero_count `{GoOrder} :
  gpuResourcesEqual {[ "amd.com/gpu" := 0 ]} {[ "amd.com/gpu-0" := 4 ]} = true ∧
  ({[ "amd.com/gpu" := 0 ]} : gmap string Z) ≠ {[ "amd.com/gpu-0" := 4 ]}.
Proof.
  split; [|intros E; apply (f_equal (lookup "amd.com/gpu")) in E;
    by rewrite lookup_singleton_eq, lookup_singleton_ne in E]. unfold gpuResourcesEqual. apply andb_true_iff; split; [done|].
  apply forallb_rangeMap. intros k v [<- <-]%lookup_singleton_Some. done.
Qed.

(** The annotation that counts: the root owner's, else the namespace's. *)
Definition annotation (nsAnnotations rootAnnotations : gmap string string) (key : string) : option string :=
  rootAnnotations !! key ∪ nsAnnotations !! key.

Lemma merge_lookup `{GoOrder} base override key :
  mergePreemptionAnnotations base override !! key =
    if Str.HasPrefix key AnnotationPrefix then annotation base override key else None.
Proof.
  unfold mergePreemptionAnnotations, annotation. rewrite !range_alter_lookup, lookup_empty. unfold copyPrefixed.
  destruct (Str.HasPrefix key AnnotationPrefix), (override !! key), (base !! key); done.
Qed.

(** A map with a preemption annotation. *)
Lemma isGpuPreemptionAnnotated_spec `{GoOrder} (m : gmap string string) :
  isGpuPreemptionAnnotated m = true ↔ ∃ k, is_Some (m !! k) ∧ Str.HasPrefix k AnnotationPrefix = true.
Proof.
  unfold isGpuPreemptionAnnotated. rewrite bool_decide_decide. case_decide as Hsz.
  - split; [done|]. intros (k & [v Hk] & _). apply map_size_empty_inv in Hsz. subst m. by rewrite lookup_empty in Hk.
  - rewrite existsb_exists. split.
    + intros ([k v] & Hin & Hp). exists k. apply list_elem_of_In in Hin. rewrite rangeMap_perm in Hin.
      apply elem_of_map_to_list in Hin. eauto.
    + intros (k & [v Hk] & Hp). exists (k, v). split; [|done]. apply list_elem_of_In. rewrite rangeMap_perm.
      by apply elem_of_map_to_list.
Qed.

Lemma merge_annotated `{GoOrder} base override :
  isGpuPreemptionAnnotated (mergePreemptionAnnotations base override) =
    isGpuPreemptionAnnotated base || isGpuPreemptionAnnotated override.
Proof.
  apply eq_true_iff_eq. rewrite orb_true_iff, !isGpuPreemptionAnnotated_spec. split.
  - intros (k & [v Hk] & Hp). rewrite merge_lookup, Hp in Hk. unfold annotation in Hk.
    destruct (override !! k) eqn:E; [right|left]; exists k; [by rewrite E|]. rewrite (left_id_L None _) in Hk. eauto.
  - intros [(k & [v Hk] & Hp)|(k & [v Hk] & Hp)]; exists k; rewrite merge_lookup, Hp; unfold annotation; rewrite Hk;
      (split; [|done]); [by destruct (override !! k); eauto|]. by destruct (base !! k); eauto.
Qed.

Lemma resolution_chain {A} (o : option string) (parse : string → option A) (b c : option A) (d : A) :
  match (match o with Some v => match parse v with Some x => Some x | None => None end | None => None end) with
  | Some x => x
  | None => match b with Some x => x | None => default d c end
  end = default d ((o ≫= parse) ∪ (b ∪ c)).
Proof. destruct o as [v|]; simpl; [destruct (parse v)|]; destruct b, c; done. Qed.

(** A setting of a tracked workload comes from its own annotation, else the
    namespace's, else KaiwoConfig, else the environment, else the built-in
    default; an annotation that does not parse counts as absent but hides the
    namespace's. *)
Theorem settings_resolution `{GoOrder} `{Host} (ns root : gmap string string) ref res gw cfg :
  gw_Spec gw = parseAnnotationsIntoSpec (mergePreemptionAnnotations ns root)
    {| spec_WorkloadRef := ref; spec_GpuResources := res; spec_UtilizationThreshold := None;
       spec_GracePeriod := None; spec_PreemptionPolicy := None; spec_AggregationPolicy := None;
       spec_TTLAfterFinished := None |} →
  getGracePeriod gw cfg = default DefaultGracePeriod
    ((annotation ns root AnnotationGracePeriod ≫= ParseDuration) ∪
     (cfg_DefaultGracePeriod cfg ∪ ParseDuration (Getenv EnvDefaultGracePeriod))) ∧
  getThreshold gw cfg = default DefaultUtilizationThreshold
    ((annotation ns root AnnotationThreshold ≫= ParseFloat) ∪
     (cfg_DefaultThreshold cfg ∪ ParseFloat (Getenv EnvDefaultThreshold))) ∧
  getTTL gw cfg = default DefaultTTL
    ((annotation ns root AnnotationTTL ≫= ParseDuration) ∪
     (cfg_DefaultTTL cfg ∪ ParseDuration (Getenv EnvDefaultTTL))).
Proof.
  intros Hspec. unfold getGracePeriod, getThreshold, getTTL. rewrite Hspec.
  cbn [spec_GracePeriod spec_UtilizationThreshold spec_TTLAfterFinished parseAnnotationsIntoSpec].
  rewrite !merge_lookup, !(proj2 (Str.HasPrefix_spec _ _)) by (eexists; reflexivity).
  repeat split; apply resolution_chain.
Qed.
