(* ===== verification/GpuApi.v ===== *)
(** The calls the GPU preemption controller and the metrics scraper make, and
    their answers: the controller-runtime client, the clock, the event recorder
    and the metrics endpoint. What answers them is not modelled; a theorem about
    a program holds for every sequence of answers unless it names a contract. *)

From stdpp Require Import gmap strings list.
From Stdlib Require Import ZArith.
From S2P Require Import Prelude Float64 Types.

(** ** A Prometheus metric family, as the text parser returns it *)

(** [dto.Metric]: its label pairs (name and value may be missing) and its gauge
    and untyped values. *)
Record Metric := {
  m_Label : list (option string * option string);
  m_Gauge : option float64;
  m_Untyped : option float64
}.

Inductive gpu_req :=
| GetGW (k : Key)
| ListGW
| CreateGW (gw : GpuWorkload)
| UpdateGW (gw : GpuWorkload)
| StatusUpdateGW (gw : GpuWorkload)
| DeleteGW (gw : GpuWorkload)
| ListPods (namespace : string)
| ListKueueWorkloads (namespace : string)
| GetObject (gvk : GroupVersionKind) (k : Key)
| DeleteObject (gvk : GroupVersionKind) (k : Key)
| GetNamespace (name : string)
| GetLease (k : Key)
| CreateLease (l : Lease)
| UpdateLease (l : Lease)
| GetConfig
| Now
| Emit (regarding : Key) (type : EventType) (reason message : string)
| Scrape (endpoint : string).

(** A read gives an error or the object; a successful write gives the object as
    the server stored it, which the client copies into the caller's variable. *)
Definition gpu_resp (r : gpu_req) : Type :=
  match r with
  | GetGW _ | CreateGW _ | UpdateGW _ | StatusUpdateGW _ => error + GpuWorkload
  | ListGW => error + list GpuWorkload
  | DeleteGW _ | DeleteObject _ _ => option error
  | ListPods _ => error + list Pod
  | ListKueueWorkloads _ => error + list KueueWorkload
  | GetObject _ _ => error + Unstructured
  | GetNamespace _ => error + gmap string string
  | GetLease _ | CreateLease _ | UpdateLease _ => error + Lease
  | GetConfig => error + KaiwoGpuPreemptionConfig
  | Now => Z
  | Emit _ _ _ _ => unit
  | Scrape _ => error + gmap string (list Metric)
  end.

Definition GpuSig : sig := Sig gpu_req gpu_resp.
Abbreviation M := (prog GpuSig).

(** Retrying calls of this component. *)
Abbreviation Retry := (RetryOf GpuSig).
