(* ===== verification/Instances.v ===== *)
(** Concrete instances of the interfaces the theorems are proved against: a
    stable sort and an iteration order, and a host with a fixed environment and
    small parsers. They show that the interfaces can be met and let the
    definitions be evaluated. *)

From stdpp Require Import gmap strings list sorting.
From Stdlib Require Import ZArith Lia.
From S2P Require Import Prelude Float64 Types GpuResources GpuApi.

Section sorting.
Context {A : Type} (less : A → A → bool).

Definition notAfter (x y : A) : Prop := less y x = false.
#[local] Instance notAfter_dec : RelDecision notAfter.
Proof. intros x y. unfold notAfter. apply _. Defined.

Definition stableSort (l : list A) : list A := merge_sort notAfter l.

Lemma stableSort_perm l : stableSort l ≡ₚ l.
Proof. apply merge_sort_Permutation. Qed.

Lemma stableSort_sorted l : strict_weak less → StronglySorted (λ x y, less y x = false) (stableSort l).
Proof.
  intros [Hirr Htr Hinc]. apply StronglySorted_merge_sort.
  - intros x y z Hxy Hyz. unfold notAfter in *. by apply Hinc with y.
  - intros x y. unfold notAfter. destruct (less y x) eqn:Hyx, (less x y) eqn:Hxy; auto.
    pose proof (Htr x y x Hxy Hyx). by rewrite Hirr in H.
Qed.

End sorting.

(** Iteration in the order of the map's own listing. *)
#[refine, export] Instance listingOrder : GoOrder := {
  sortSlice A less l := stableSort less l;
  rangeMap K ED C V m := map_to_list m
}.
Proof.
  - intros. apply stableSort_perm.
  - intros. by apply stableSort_sorted.
  - done.
Defined.

(** Field access by path in a JSON object. *)
Fixpoint nestedField (j : Json) (path : list string) : option Json :=
  match path with
  | [] => match j with JObj _ => Some j | _ => None end
  | k :: ks =>
      match j with
      | JObj fields =>
          match list_find (λ f, f.1 = k) fields with
          | Some (_, (_, v)) => nestedField v ks
          | None => None
          end
      | _ => None
      end
  end.

#[export] Instance plainHost : Host := {|
  Getenv v := if decide (v = EnvOperatorNamespace) then "operators" else "";
  ParseFloat s := if decide (s = "7") then Some (F64.of_Z 7) else None;
  ParseDuration s := if decide (s = "5m") then Some (5 * Minute) else if decide (s = "15s") then Some (15 * Second) else None;
  URLScheme s := if Str.HasPrefix s "http://" then Some "http" else None;
  FormatDuration d := "duration";
  FormatFloat1 x := "float";
  ParseGroupVersion s := Some ("", s);
  NestedMap := nestedField;
  FromUnstructured j := None
|}.

(** A retry helper that gives up after [n] more attempts. *)
Fixpoint retryUpTo {S : sig} (n : nat) (fn : prog S (option error)) : prog S (option error) :=
  match n with
  | O => fn
  | Datatypes.S n' =>
      e ← fn;
      match e with
      | Some err => if IsConflict err then retryUpTo n' fn else mret (Some err)
      | None => mret None
      end
  end.

Lemma retryUpTo_retries {S : sig} n (fn : prog S (option error)) tr r : exec anything (retryUpTo n fn) tr r → retried fn tr r.
Proof.
  revert tr r. induction n as [|n IH]; intros tr r Hex; [by apply retried_last|].
  refine (exec_always _ _ _ _ Hex (λ tr r, retried fn tr r) _). clear Hex tr r. cbn [retryUpTo].
  apply always_bind, always_exec. intros tr [err|] Hfn; [|simpl; rewrite app_nil_r; by apply retried_last].
  destruct (IsConflict err) eqn:Hc; [|simpl; rewrite app_nil_r; by apply retried_last].
  apply always_exec. intros tr' r Hex. by eapply retried_again; [| |apply IH].
Qed.

Definition boundedRetry {S : sig} (n : nat) : RetryOf S :=
  {| RetryOnConflict := retryUpTo n; RetryOnConflict_retries := retryUpTo_retries n |}.
