(* ===== verification/Resolver.v ===== *)
(** Owner resolution (internal/controller/gpuworkload_resolver.go) and the
    ownership test of the controller: walking controller owner references up to
    the root owner of a pod, at most [maxOwnerDepth] hops. *)

From stdpp Require Import gmap strings list.
From Stdlib Require Import ZArith Lia.
From S2P Require Import Prelude Float64 Types GpuResources GpuApi.

Record RootOwnerResult := {
  ro_Ref : WorkloadReference;
  ro_OwnerChain : string;
  ro_Namespace : string
}.

Definition maxOwnerDepth : nat := 10.

(** The first reference with [Controller] set to true. *)
Fixpoint getControllerOwnerRef (refs : list OwnerReference) : option OwnerReference :=
  match refs with
  | [] => None
  | r :: refs' => if decide (or_Controller r = Some true) then Some r else getControllerOwnerRef refs'
  end.

Section resolver.
Context `{Host}.

Definition gvkFromAPIVersionKind (apiVersion kind : string) : GroupVersionKind :=
  match ParseGroupVersion apiVersion with
  | Some (g, v) => mkGVK g v kind
  | None => mkGVK "" "" kind
  end.

(** The loop of [ResolveRootOwner]; [fuel] counts the iterations left. *)
Fixpoint resolveLoop (fuel : nat) (namespace : string) (gvk : GroupVersionKind) (name : string) (chain : list string)
  : M (error + RootOwnerResult) :=
  match fuel with
  | O => mret (inl (Errorf "owner reference chain exceeded maximum depth"))
  | S fuel' =>
      r ← call (S := GpuSig) (GetObject gvk (mkKey namespace name));
      match r with
      | inl err =>
          mret (inl (Wrapf
            (if IsForbidden err then "cannot resolve owner chain: RBAC forbids reading"
             else if IsNotFound err then "owner not found in namespace"
             else "transient error resolving owner") err))
      | inr obj =>
          match getControllerOwnerRef (u_OwnerReferences obj) with
          | None =>
              mret (inr
                {| ro_Ref := {| ref_APIVersion := u_APIVersion obj; ref_Kind := u_Kind obj;
                                ref_Name := u_Name obj; ref_UID := u_UID obj |};
                   ro_OwnerChain := Str.Join chain " -> ";
                   ro_Namespace := namespace |})
          | Some ref =>
              resolveLoop fuel' namespace (gvkFromAPIVersionKind (or_APIVersion ref) (or_Kind ref)) (or_Name ref)
                (chain ++ [or_Kind ref +:+ "/" +:+ or_Name ref])
          end
      end
  end.

Definition ResolveRootOwner (namespace name kind apiVersion : string) : M (error + RootOwnerResult) :=
  resolveLoop maxOwnerDepth namespace (gvkFromAPIVersionKind apiVersion kind) name [kind +:+ "/" +:+ name].

(** [<lowercase-kind>-<name>-<first-8-chars-of-uid>]. *)
Definition GpuWorkloadName (kind name uid : string) : string :=
  Str.ToLower kind +:+ "-" +:+ name +:+ "-" +:+ Str.take 8 uid.

(** The loop of [isAncestorOf]. *)
Fixpoint ancestorLoop (fuel : nat) (namespace : string) (currentRef : OwnerReference) (seen : gset string)
    (targetUID : string) : M bool :=
  match fuel with
  | O => mret false
  | S fuel' =>
      r ← call (S := GpuSig) (GetObject (gvkFromAPIVersionKind (or_APIVersion currentRef) (or_Kind currentRef))
                 (mkKey namespace (or_Name currentRef)));
      match r with
      | inl _ => mret false
      | inr obj =>
          if existsb (λ ref, bool_decide (or_UID ref = targetUID)) (u_OwnerReferences obj) then mret true
          else
            match getControllerOwnerRef (u_OwnerReferences obj) with
            | None => mret false
            | Some nextRef =>
                if decide (or_UID nextRef ∈ seen) then mret false
                else ancestorLoop fuel' namespace nextRef ({[or_UID nextRef]} ∪ seen) targetUID
            end
      end
  end.

Definition isAncestorOf (namespace : string) (startRef : OwnerReference) (targetUID : string) : M bool :=
  ancestorLoop maxOwnerDepth namespace startRef {[or_UID startRef]} targetUID.

Definition isPodOwnedByWorkload `{GoOrder} (pod : Pod) (gw : GpuWorkload) : M bool :=
  let ref := spec_WorkloadRef (gw_Spec gw) in
  let targetUID := ref_UID ref in
  if decide (ref_Kind ref = "Pod" ∧ pod_UID pod = targetUID) then mret true
  else if existsb (λ r, bool_decide (or_UID r = targetUID)) (pod_OwnerReferences pod) then mret true
  else if hasGpuResources (pod_Spec pod) then
    match getControllerOwnerRef (pod_OwnerReferences pod) with
    | Some controllerRef => isAncestorOf (pod_Namespace pod) controllerRef targetUID
    | None => mret false
    end
  else mret false.

Definition ownerExists (gw : GpuWorkload) : M (error + bool) :=
  let ref := spec_WorkloadRef (gw_Spec gw) in
  r ← call (S := GpuSig) (GetObject (gvkFromAPIVersionKind (ref_APIVersion ref) (ref_Kind ref))
             (mkKey (gw_Namespace gw) (ref_Name ref)));
  match r with
  | inl err => if IsNotFound err then mret (inr false) else mret (inl err)
  | inr obj => mret (inr (bool_decide (u_UID obj = ref_UID ref)))
  end.

Definition deleteWorkload (gw : GpuWorkload) : M (option error) :=
  let ref := spec_WorkloadRef (gw_Spec gw) in
  call (S := GpuSig) (DeleteObject (gvkFromAPIVersionKind (ref_APIVersion ref) (ref_Kind ref))
    (mkKey (gw_Namespace gw) (ref_Name ref))).

End resolver.

#[global] Arguments ResolveRootOwner : simpl never.
#[global] Arguments isAncestorOf : simpl never.
#[global] Arguments isPodOwnedByWorkload : simpl never.

(** * Properties *)

(** A cluster whose owner objects do not change during the walk: every read of
    an object is answered from [G]. *)
Definition static (G : GroupVersionKind → Key → error + Unstructured) : contract GpuSig :=
  λ r, match r return resp GpuSig r → Prop with
       | GetObject gvk k => λ x, x = G gvk k
       | _ => λ _, True
       end.

Section resolver_properties.
Context `{Host} (G : GroupVersionKind → Key → error + Unstructured) (ns : string).

(** [owner_path gvk name objs]: following controller references from the named
    object gives [objs], and the last of them has no controller. *)
Inductive owner_path : GroupVersionKind → string → list Unstructured → Prop :=
| owner_path_root gvk name obj :
    G gvk (mkKey ns name) = inr obj → getControllerOwnerRef (u_OwnerReferences obj) = None →
    owner_path gvk name [obj]
| owner_path_up gvk name obj ref objs :
    G gvk (mkKey ns name) = inr obj → getControllerOwnerRef (u_OwnerReferences obj) = Some ref →
    owner_path (gvkFromAPIVersionKind (or_APIVersion ref) (or_Kind ref)) (or_Name ref) objs →
    owner_path gvk name (obj :: objs).

(** The reference to an object that a GpuWorkload keeps. *)
Definition refOf (obj : Unstructured) : WorkloadReference :=
  {| ref_APIVersion := u_APIVersion obj; ref_Kind := u_Kind obj; ref_Name := u_Name obj; ref_UID := u_UID obj |}.

Lemma owner_path_not_nil gvk name objs : owner_path gvk name objs → objs ≠ [].
Proof. by destruct 1. Qed.

Lemma resolveLoop_spec fuel gvk name chain :
  always (static G) (resolveLoop fuel ns gvk name chain) (λ tr res, (length tr ≤ fuel)%nat ∧
    match res with
    | inr r => ∃ objs root, owner_path gvk name objs ∧ (length objs ≤ fuel)%nat ∧
        last objs = Some root ∧ ro_Ref r = refOf root ∧ ro_Namespace r = ns
    | inl _ => ∀ objs, owner_path gvk name objs → (fuel < length objs)%nat
    end).
Proof.
  revert gvk name chain. induction fuel as [|fuel IH]; intros gvk name chain; simpl.
  - split; [done|]. intros objs Hp%owner_path_not_nil. destruct objs; simpl; [done|lia].
  - intros x ->. destruct (G gvk (mkKey ns name)) as [err|obj] eqn:HG; simpl.
    + split; [lia|]. intros objs Hp. inversion Hp; congruence.
    + destruct (getControllerOwnerRef (u_OwnerReferences obj)) as [ref|] eqn:Href; simpl.
      * eapply always_mono; [apply IH|]. intros tr [err|r]; simpl; intros [Hlen Hres]; (split; [lia|]).
        -- intros objs Hp. inversion Hp as [|? ? ? ref' objs' HG' Href' Hp']; subst; [congruence|].
           assert (ref' = ref) as -> by congruence. simpl. apply Hres in Hp'. lia.
        -- destruct Hres as (objs & root & Hp & Hl & Hlast & Href' & Hns).
           exists (obj :: objs), root. split_and!; [by econstructor|simpl; lia| |done|done].
           destruct objs; [by apply owner_path_not_nil in Hp|done].
      * split; [lia|]. exists [obj], obj. split_and!; [by constructor|simpl; lia|done..].
Qed.

(** [reaches ref target n]: an object on the controller chain from [ref], at
    most [n] objects up, has an owner reference to [target]. *)
Inductive reaches : OwnerReference → string → nat → Prop :=
| reaches_here ref target obj r n :
    G (gvkFromAPIVersionKind (or_APIVersion ref) (or_Kind ref)) (mkKey ns (or_Name ref)) = inr obj →
    r ∈ u_OwnerReferences obj → or_UID r = target → reaches ref target (S n)
| reaches_up ref target obj next n :
    G (gvkFromAPIVersionKind (or_APIVersion ref) (or_Kind ref)) (mkKey ns (or_Name ref)) = inr obj →
    getControllerOwnerRef (u_OwnerReferences obj) = Some next → reaches next target n →
    reaches ref target (S n).

Lemma ancestorLoop_spec fuel ref seen target :
  always (static G) (ancestorLoop fuel ns ref seen target) (λ tr b,
    (length tr ≤ fuel)%nat ∧ (b = true → reaches ref target fuel)).
Proof.
  revert ref seen. induction fuel as [|fuel IH]; intros ref seen; simpl; [done|].
  intros x ->. destruct (G _ _) as [err|obj] eqn:HG; simpl; [split; [lia|done]|].
  destruct (existsb _ _) eqn:Hex; simpl.
  - split; [lia|]. intros _. apply existsb_exists in Hex as (r & Hin & Hr).
    apply bool_decide_eq_true in Hr. eapply reaches_here; [done|by apply list_elem_of_In|done].
  - destruct (getControllerOwnerRef (u_OwnerReferences obj)) as [next|] eqn:Hnext; simpl; [|split; [lia|done]].
    case_decide; simpl; [split; [lia|done]|].
    eapply always_mono; [apply IH|]. simpl. intros tr b [Hlen Hb]. split; [lia|].
    intros Htrue. eapply reaches_up; eauto.
Qed.

End resolver_properties.

(** C28: in a cluster whose owner objects stand still, resolving a root owner
    takes at most ten reads and succeeds exactly when the controller chain ends
    within ten objects; it then names the last object of that chain, the one
    without a controller. A cyclic or longer chain gives an error. *)
Theorem ResolveRootOwner_correct `{Host} G ns name kind apiVersion :
  always (static G) (ResolveRootOwner ns name kind apiVersion) (λ tr res, (length tr ≤ maxOwnerDepth)%nat ∧
    let gvk := gvkFromAPIVersionKind apiVersion kind in
    match res with
    | inr r => ∃ objs root, owner_path G ns gvk name objs ∧ (length objs ≤ maxOwnerDepth)%nat ∧
        last objs = Some root ∧ ro_Ref r = refOf root ∧ ro_Namespace r = ns
    | inl _ => ∀ objs, owner_path G ns gvk name objs → (maxOwnerDepth < length objs)%nat
    end).
Proof. apply resolveLoop_spec. Qed.

(** How a pod may belong to the workload of a GpuWorkload: it is the workload,
    it is owned by it, or one of the objects on its controller chain is. *)
Definition owned `{Host} (G : GroupVersionKind → Key → error + Unstructured) (pod : Pod) (gw : GpuWorkload) : Prop :=
  let ref := spec_WorkloadRef (gw_Spec gw) in
  (ref_Kind ref = "Pod" ∧ pod_UID pod = ref_UID ref) ∨
  (∃ r, r ∈ pod_OwnerReferences pod ∧ or_UID r = ref_UID ref) ∨
  (∃ c, getControllerOwnerRef (pod_OwnerReferences pod) = Some c ∧
        reaches G (pod_Namespace pod) c (ref_UID ref) maxOwnerDepth).

(** A pod the controller counts for a workload belongs to it, and deciding
    so takes at most ten reads. *)
Theorem isPodOwnedByWorkload_sound `{Host} `{GoOrder} G pod gw :
  always (static G) (isPodOwnedByWorkload pod gw) (λ tr b,
    (length tr ≤ maxOwnerDepth)%nat ∧ (b = true → owned G pod gw)).
Proof.
  unfold isPodOwnedByWorkload, owned. case_decide as Hbare; simpl; [split; [lia|by left]|].
  destruct (existsb _ _) eqn:Hex; simpl.
  { split; [lia|]. intros _. right; left. apply existsb_exists in Hex as (r & Hin & Hr).
    apply bool_decide_eq_true in Hr. exists r. split; [by apply list_elem_of_In|done]. }
  destruct (hasGpuResources _); [|simpl; split; [lia|done]].
  destruct (getControllerOwnerRef _) as [c|]; [|simpl; split; [lia|done]].
  eapply always_mono; [apply ancestorLoop_spec|]. simpl. intros tr b [Hlen Hb].
  split; [done|]. intros Htrue. right; right. eauto.
Qed.
