(* ===== verification/Phase.v ===== *)
(** Utilization and phase of a tracked workload: aggregating the per-GPU samples
    over the pods, and deciding between pending, active and idle
    (computeAggregatedUtilization, computePhase and the pending-reason tests of
    internal/controller/gpuworkload_controller.go). *)

From stdpp Require Import gmap strings list fin_maps.
From Stdlib Require Import ZArith Lia SpecFloat.
From S2P Require Import Prelude Float64 Types GpuResources GpuApi.

Definition zero : float64 := S754_zero false.

(** * Aggregation *)

(** [sum += u], from 0.0. *)
Definition fsum (l : list float64) : float64 := foldl F64.add zero l.

(** [sum / float64(len(l))]. *)
Definition average (l : list float64) : float64 := F64.div (fsum l) (F64.of_Z (Z.of_nat (length l))).

Definition appendUtil (u : float64) (cur : option (list float64)) : option (list float64) :=
  Some (default [] cur ++ [u]).

(** [podUtils[tp.PodName] = append(podUtils[tp.PodName], gm.Utilization)]. *)
Definition podUtils (tps : list TrackedPod) : gmap string (list float64) :=
  foldl (λ m tp,
    foldl (λ m gm, partial_alter (appendUtil (gm_Utilization gm)) (tp_PodName tp) m) m (tp_GpuMetrics tp))
  ∅ tps.

(** The [switch policy]: [v0] is [podAverages[0]] and [vs] the rest. *)
Definition aggregate (policy : AggregationPolicy) (v0 : float64) (vs : list float64) : float64 :=
  match policy with
  | AggregationPolicyMin => foldl (λ result v, if F64.ltb v result then v else result) v0 vs
  | AggregationPolicyMax => foldl (λ result v, if F64.ltb result v then v else result) v0 vs
  | AggregationPolicyAvg => average (v0 :: vs)
  end.

(** [math.Round(x*100) / 100]. *)
Definition round2 (x : float64) : float64 :=
  F64.div (F64.Round (F64.mul x (F64.of_Z 100))) (F64.of_Z 100).

Section phase.
Context `{Host} `{GoOrder}.

Definition computeAggregatedUtilization (gw : GpuWorkload) (gpuCfg : KaiwoGpuPreemptionConfig) : option float64 :=
  let policy := getAggregationPolicy gw gpuCfg in
  let podAverages := map (λ kv, average kv.2) (rangeMap (podUtils (st_TrackedPods (gw_Status gw)))) in
  match podAverages with
  | [] => None
  | v0 :: vs => Some (round2 (aggregate policy v0 vs))
  end.

(** * Why a pod or a Kueue workload is pending *)

(** Some resource name [f k] appears in the lower-cased message. *)
Definition mentions (msg : string) (f : string → string) (gpuResources : gmap string Z) : bool :=
  existsb (λ kv, Str.Contains (Str.ToLower msg) (Str.ToLower (f kv.1))) (rangeMap gpuResources).

(** A [QuotaReserved] condition that is false and names a GPU resource. *)
Definition quotaRefused (conds : list Condition) (gpuResources : gmap string Z) : bool :=
  existsb (λ cond, bool_decide (cond_Type cond = "QuotaReserved" ∧ cond_Status cond = ConditionFalse) &&
                   mentions (cond_Message cond) id gpuResources) conds.

Definition isWorkloadPendingDueToGPUQuota (wl : option KueueWorkload) (gpuResources : gmap string Z) : bool :=
  match wl with
  | None => false
  | Some wl => if bool_decide (size gpuResources = 0%nat) then false else quotaRefused (wl_Conditions wl) gpuResources
  end.

(** A [PodScheduled] condition that is false for the given reason. *)
Definition notScheduledFor (reason : string) (cond : Condition) : bool :=
  bool_decide (cond_Type cond = "PodScheduled" ∧ cond_Status cond = ConditionFalse ∧ cond_Reason cond = reason).

Definition isPendingDueToGPU (pod : Pod) (workloadByPodUID : gmap string KueueWorkload) (gpuResources : gmap string Z) : bool :=
  if existsb (λ cond, notScheduledFor "Unschedulable" cond &&
                      mentions (cond_Message cond) (λ r, "Insufficient " +:+ r) gpuResources) (pod_Conditions pod)
  then true
  else if negb (existsb (notScheduledFor "SchedulingGated") (pod_Conditions pod)) then false
  else if decide (default "" (pod_Labels pod !! "kueue.x-k8s.io/managed") ≠ "true") then false
  else match workloadByPodUID !! pod_UID pod with
       | None => false
       | Some wl => quotaRefused (wl_Conditions wl) gpuResources
       end.

(** * The phase *)

(** The phase, and the workload with the utilization recorded on the paths that
    compute it. *)
Definition computePhase (gw : GpuWorkload) (pods : list Pod)
    (workloadByPodUID workloadByOwnerUID : gmap string KueueWorkload)
    (gpuCfg : KaiwoGpuPreemptionConfig) : GpuWorkload * GpuWorkloadPhase :=
  let res := spec_GpuResources (gw_Spec gw) in
  match pods with
  | [] =>
      if decide (st_Phase (gw_Status gw) = PhaseUnset) then (gw, PhasePendingOther)
      else if isWorkloadPendingDueToGPUQuota (workloadByOwnerUID !! ref_UID (spec_WorkloadRef (gw_Spec gw))) res
      then (gw, PhasePendingGpu)
      else (gw, st_Phase (gw_Status gw))
  | _ =>
      if existsb (λ p, bool_decide (pod_Phase p = PodPending) && isPendingDueToGPU p workloadByPodUID res) pods
      then (gw, PhasePendingGpu)
      else if negb (existsb (λ p, bool_decide (pod_Phase p = PodRunning)) pods) then (gw, PhasePendingOther)
      else
        let aggUtil := computeAggregatedUtilization gw gpuCfg in
        let gw' := with_status (set_AggregatedUtilization aggUtil) gw in
        let effectiveUtil := default zero aggUtil in
        (gw', if F64.leb (getThreshold gw gpuCfg) effectiveUtil then PhaseActive else PhaseIdle)
  end.

End phase.

(** * Properties *)

(** The samples of the tracked pods called [name], in order. *)
Definition utilsOf (name : string) (tps : list TrackedPod) : list float64 :=
  foldr (λ tp acc, (if decide (tp_PodName tp = name) then map gm_Utilization (tp_GpuMetrics tp) else []) ++ acc) [] tps.

Definition nonempty {A} (l : list A) : option (list A) := match l with [] => None | _ => Some l end.

Lemma nonempty_default {A} (cur : option (list A)) l :
  (∀ l', cur = Some l' → l' ≠ []) → l = [] → nonempty (default [] cur ++ l) = cur.
Proof. intros Hcur ->. rewrite app_nil_r. destruct cur as [[|x c]|]; simpl; [by edestruct Hcur|done..]. Qed.

Lemma podUtils_metrics_lookup (gms : list GpuMetric) name (m : gmap string (list float64)) n :
  foldl (λ m gm, partial_alter (appendUtil (gm_Utilization gm)) name m) m gms !! n =
    if decide (name = n) then
      match gms with [] => m !! n | _ => Some (default [] (m !! n) ++ map gm_Utilization gms) end
    else m !! n.
Proof.
  revert m. induction gms as [|gm gms IH]; intros m; simpl; [by case_decide|].
  rewrite IH. case_decide as Hn; [subst|by rewrite lookup_partial_alter_ne].
  rewrite lookup_partial_alter_eq. unfold appendUtil; simpl. rewrite <- app_assoc; simpl.
  by destruct gms.
Qed.

Lemma podUtils_foldl_lookup tps (m : gmap string (list float64)) n :
  (∀ l, m !! n = Some l → l ≠ []) →
  foldl (λ m tp,
    foldl (λ m gm, partial_alter (appendUtil (gm_Utilization gm)) (tp_PodName tp) m) m (tp_GpuMetrics tp)) m tps !! n =
  nonempty (default [] (m !! n) ++ utilsOf n tps).
Proof.
  revert m. induction tps as [|tp tps IH]; intros m Hm; simpl; [by rewrite nonempty_default|].
  rewrite IH; rewrite podUtils_metrics_lookup; case_decide; simpl; try done.
  - rewrite app_assoc. do 2 f_equal. destruct (tp_GpuMetrics tp); simpl; [by rewrite app_nil_r|done].
  - destruct (tp_GpuMetrics tp); [done|]. intros l' [= <-]. by destruct (default [] (m !! n)).
Qed.

(** The samples are grouped by pod name, in the order they are stored. *)
Lemma podUtils_lookup tps n : podUtils tps !! n = nonempty (utilsOf n tps).
Proof. unfold podUtils. rewrite podUtils_foldl_lookup; rewrite lookup_empty; done. Qed.

Lemma podUtils_empty tps : podUtils tps = ∅ ↔ Forall (λ tp, tp_GpuMetrics tp = []) tps.
Proof.
  split.
  - intros Hempty. assert (∀ n, utilsOf n tps = []) as Hall.
    { intros n. pose proof (podUtils_lookup tps n) as E. rewrite Hempty, lookup_empty in E.
      by destruct (utilsOf n tps). }
    clear Hempty. induction tps as [|tp tps IH]; constructor.
    + specialize (Hall (tp_PodName tp)). simpl in Hall. rewrite decide_True in Hall by done.
      apply app_eq_nil in Hall as [Hall _]. by apply map_eq_nil in Hall.
    + apply IH. intros n. specialize (Hall n). simpl in Hall. by apply app_eq_nil in Hall as [_ ?].
  - intros Hall. apply map_eq. intros n. rewrite podUtils_lookup, lookup_empty.
    replace (utilsOf n tps) with (@nil float64); [done|].
    induction Hall as [|tp tps Htp _ IH]; simpl; [done|]. rewrite Htp, <- IH. by case_decide.
Qed.

Lemma fold_choice (better : float64 → float64 → bool) v0 vs :
  foldl (λ result v, if better v result then v else result) v0 vs ∈ v0 :: vs.
Proof.
  revert v0. induction vs as [|v vs IH]; intros v0; simpl; [by left|].
  specialize (IH (if better v v0 then v else v0)).
  apply elem_of_cons in IH as [->|Hin]; [destruct (better v v0); set_solver|set_solver].
Qed.

Lemma fold_min_le v0 vs :
  Forall (λ v, F64.is_nan v = false) (v0 :: vs) →
  Forall (λ v, F64.leb (foldl (λ result v, if F64.ltb v result then v else result) v0 vs) v = true) (v0 :: vs).
Proof.
  revert v0. induction vs as [|v vs IH]; intros v0 [H0 Hvs]%Forall_cons; simpl.
  - constructor; [by apply F64.leb_refl|constructor].
  - apply Forall_cons in Hvs as [Hv Hvs].
    destruct (F64.ltb v v0) eqn:E; [specialize (IH v)|specialize (IH v0)];
      (pose proof (IH ltac:(by constructor)) as [IH1 IH2]%Forall_cons).
    + constructor; [|by constructor]. eapply F64.leb_trans; [done|]. by apply F64.ltb_weaken.
    + rewrite F64.ltb_leb in E by done. rewrite negb_false_iff in E.
      constructor; [done|]. constructor; [|done]. by eapply F64.leb_trans.
Qed.

Lemma fold_max_ge v0 vs :
  Forall (λ v, F64.is_nan v = false) (v0 :: vs) →
  Forall (λ v, F64.leb v (foldl (λ result v, if F64.ltb result v then v else result) v0 vs) = true) (v0 :: vs).
Proof.
  revert v0. induction vs as [|v vs IH]; intros v0 [H0 Hvs]%Forall_cons; simpl.
  - constructor; [by apply F64.leb_refl|constructor].
  - apply Forall_cons in Hvs as [Hv Hvs].
    destruct (F64.ltb v0 v) eqn:E; [specialize (IH v)|specialize (IH v0)];
      (pose proof (IH ltac:(by constructor)) as [IH1 IH2]%Forall_cons).
    + constructor; [|by constructor]. eapply F64.leb_trans; [|done]. by apply F64.ltb_weaken.
    + rewrite F64.ltb_leb in E by done. rewrite negb_false_iff in E.
      constructor; [done|]. constructor; [|done]. by eapply F64.leb_trans.
Qed.

(** The averages of the pods that have samples. *)
Definition podAveragesOf (tps : list TrackedPod) (v : float64) : Prop :=
  ∃ name, utilsOf name tps ≠ [] ∧ v = average (utilsOf name tps).

Lemma podAverages_elem `{GoOrder} tps v :
  v ∈ map (λ kv, average kv.2) (rangeMap (podUtils tps)) ↔ podAveragesOf tps v.
Proof.
  rewrite list_elem_of_In, in_map_iff. unfold podAveragesOf. split.
  - intros ([n l] & <- & Hin%list_elem_of_In). rewrite rangeMap_perm in Hin.
    apply elem_of_map_to_list in Hin. rewrite podUtils_lookup in Hin. exists n; simpl.
    destruct (utilsOf n tps); simpl in *; naive_solver.
  - intros (n & Hne & ->). exists (n, utilsOf n tps). split; [done|].
    apply list_elem_of_In. rewrite rangeMap_perm. apply elem_of_map_to_list. rewrite podUtils_lookup.
    by destruct (utilsOf n tps).
Qed.

(** The aggregated utilization is missing exactly when no tracked pod has a
    sample. Under Min (Max) it is the rounding of a pod average that no other
    exceeds from below (above), whatever the order in which Go ranges over the
    pods, as long as no average is NaN. *)
Theorem computeAggregatedUtilization_spec `{Host} `{GoOrder} gw cfg :
  let tps := st_TrackedPods (gw_Status gw) in
  match computeAggregatedUtilization gw cfg with
  | None => Forall (λ tp, tp_GpuMetrics tp = []) tps
  | Some u =>
      Exists (λ tp, tp_GpuMetrics tp ≠ []) tps ∧
      ((∀ v, podAveragesOf tps v → F64.is_nan v = false) →
       match getAggregationPolicy gw cfg with
       | AggregationPolicyMin => ∃ v, u = round2 v ∧ podAveragesOf tps v ∧
           ∀ v', podAveragesOf tps v' → F64.leb v v' = true
       | AggregationPolicyMax => ∃ v, u = round2 v ∧ podAveragesOf tps v ∧
           ∀ v', podAveragesOf tps v' → F64.leb v' v = true
       | AggregationPolicyAvg => ∃ vs, u = round2 (average vs) ∧ ∀ v, v ∈ vs ↔ podAveragesOf tps v
       end)
  end.
Proof.
  intros tps. unfold computeAggregatedUtilization. fold tps.
  pose proof (podAverages_elem tps) as Helem.
  destruct (map _ (rangeMap (podUtils tps))) as [|v0 vs] eqn:Eavg.
  - apply podUtils_empty, map_to_list_empty_iff. apply map_eq_nil in Eavg.
    apply Permutation_nil_r. rewrite <- rangeMap_perm. by rewrite Eavg.
  - split.
    + apply not_Forall_Exists; [intros tp; by destruct (tp_GpuMetrics tp); [left|right]|].
      intros Hall. apply podUtils_empty in Hall. rewrite Hall in Eavg.
      assert (rangeMap (∅ : gmap string (list float64)) = []) as E.
      { apply Permutation_nil_r. by rewrite rangeMap_perm, map_to_list_empty. }
      by rewrite E in Eavg.
    + intros Hnan. assert (Forall (λ v, F64.is_nan v = false) (v0 :: vs)) as Hall.
      { apply Forall_forall. intros v Hv. by apply Hnan, Helem. }
      destruct (getAggregationPolicy gw cfg); simpl.
      * eexists. split; [done|]. split; [apply Helem, (fold_choice F64.ltb)|].
        intros v' Hv'%Helem. pose proof (fold_min_le v0 vs Hall) as Hle. rewrite Forall_forall in Hle. by apply Hle.
      * eexists. split; [done|]. split; [apply Helem, (fold_choice (λ a b, F64.ltb b a))|].
        intros v' Hv'%Helem. pose proof (fold_max_ge v0 vs Hall) as Hle. rewrite Forall_forall in Hle. by apply Hle.
      * exists (v0 :: vs). by split.
Qed.

Section phase_properties.
Context `{Host} `{GoOrder}.

(** The message of a condition names [f r] for a tracked GPU resource [r],
    ignoring case. *)
Definition names_gpu (cond : Condition) (f : string → string) (res : gmap string Z) : Prop :=
  ∃ r, is_Some (res !! r) ∧ ∃ a b, Str.ToLower (cond_Message cond) = a +:+ Str.ToLower (f r) +:+ b.

Lemma mentions_spec msg f res :
  mentions msg f res = true ↔
  ∃ r, is_Some (res !! r) ∧ ∃ a b, Str.ToLower msg = a +:+ Str.ToLower (f r) +:+ b.
Proof.
  unfold mentions. rewrite existsb_exists. setoid_rewrite <- Str.Contains_spec. split.
  - intros ([r v] & Hin%list_elem_of_In & Hc). rewrite rangeMap_perm in Hin.
    apply elem_of_map_to_list in Hin. eauto.
  - intros (r & [v Hv] & Hc). exists (r, v). split; [|done].
    apply list_elem_of_In. rewrite rangeMap_perm. by apply elem_of_map_to_list.
Qed.

(** Kueue refused quota, naming a GPU resource. *)
Definition quota_refused (wl : KueueWorkload) (res : gmap string Z) : Prop :=
  ∃ c, c ∈ wl_Conditions wl ∧ cond_Type c = "QuotaReserved" ∧ cond_Status c = ConditionFalse ∧ names_gpu c id res.

Lemma quotaRefused_spec wl res : quotaRefused (wl_Conditions wl) res = true ↔ quota_refused wl res.
Proof.
  unfold quotaRefused, quota_refused, names_gpu. rewrite existsb_exists.
  setoid_rewrite andb_true_iff. setoid_rewrite bool_decide_eq_true. setoid_rewrite mentions_spec.
  setoid_rewrite <- list_elem_of_In. split; intros (c & Hc); exists c; tauto.
Qed.

(** The pod waits for GPUs: the scheduler found too few of a tracked resource,
    or Kueue holds the pod back for the same reason. *)
Definition waits_for_gpu (p : Pod) (byPod : gmap string KueueWorkload) (res : gmap string Z) : Prop :=
  (∃ c, c ∈ pod_Conditions p ∧ notScheduledFor "Unschedulable" c = true ∧
        names_gpu c (λ r, "Insufficient " +:+ r) res) ∨
  ((∃ c, c ∈ pod_Conditions p ∧ notScheduledFor "SchedulingGated" c = true) ∧
   pod_Labels p !! "kueue.x-k8s.io/managed" = Some "true" ∧
   ∃ wl, byPod !! pod_UID p = Some wl ∧ quota_refused wl res).

Lemma isPendingDueToGPU_spec p byPod res : isPendingDueToGPU p byPod res = true ↔ waits_for_gpu p byPod res.
Proof.
  unfold isPendingDueToGPU, waits_for_gpu, names_gpu. setoid_rewrite <- mentions_spec.
  setoid_rewrite list_elem_of_In. setoid_rewrite <- andb_true_iff. setoid_rewrite <- existsb_exists.
  destruct (existsb _ _); [split; [by left|done]|].
  destruct (existsb _ _); simpl; [|split; [done|intros [?|[? _]]; done]].
  case_decide as Hl.
  - split; [done|]. intros [?|(_ & Hl' & _)]; [done|]. rewrite Hl' in Hl. by destruct Hl.
  - destruct (pod_Labels p !! _) as [l|]; simpl in Hl; [|done]. subst l.
    destruct (byPod !! pod_UID p) as [wl|]; [rewrite quotaRefused_spec|].
    + split; [intros Hq; right; eauto|]. intros [?|(_ & _ & wl' & [= <-] & Hq)]; done.
    + split; [done|]. intros [?|(_ & _ & wl' & ? & _)]; done.
Qed.

End phase_properties.

(** A workload with pods is PendingGpu exactly when one of its pending pods
    waits for a GPU resource it tracks, by the scheduler's or Kueue's word;
    without such a pod it is PendingOther exactly when none is running. *)
Theorem computePhase_pending `{Host} `{GoOrder} gw p ps byPod byOwner cfg :
  let pods := p :: ps in
  let phase := (computePhase gw pods byPod byOwner cfg).2 in
  let demand := ∃ q, q ∈ pods ∧ pod_Phase q = PodPending ∧ waits_for_gpu q byPod (spec_GpuResources (gw_Spec gw)) in
  (phase = PhasePendingGpu ↔ demand) ∧
  (phase = PhasePendingOther ↔ ~ demand ∧ Forall (λ q, pod_Phase q ≠ PodRunning) pods).
Proof.
  intros pods phase demand.
  assert (demand ↔ existsb (λ p, bool_decide (pod_Phase p = PodPending) &&
     isPendingDueToGPU p byPod (spec_GpuResources (gw_Spec gw))) pods = true) as Hd.
  { unfold demand. rewrite existsb_exists. setoid_rewrite andb_true_iff. setoid_rewrite bool_decide_eq_true.
    setoid_rewrite isPendingDueToGPU_spec. setoid_rewrite list_elem_of_In. done. }
  assert (Forall (λ q, pod_Phase q ≠ PodRunning) pods ↔
     existsb (λ q, bool_decide (pod_Phase q = PodRunning)) pods = false) as Hr.
  { clear. induction pods as [|q qs IH]; simpl; [done|].
    rewrite Forall_cons, orb_false_iff, bool_decide_eq_false, IH. done. }
  rewrite Hd, Hr. clear Hd Hr. unfold phase, computePhase; clear phase demand.
  unfold pods; clear pods; cbv zeta iota beta.
  repeat match goal with |- context [existsb ?f ?l] => destruct (existsb f l) end;
    cbn [negb snd]; [intuition congruence..| |intuition congruence].
  destruct (F64.leb _ _); intuition congruence.
Qed.

(** C19: with a running pod and no pod waiting for GPUs, the workload is Idle
    exactly when its utilization is not at or above the threshold: no sample
    counts as 0, and a NaN utilization or threshold as idle. *)
Theorem computePhase_idle `{Host} `{GoOrder} gw pods byPod byOwner cfg :
  Exists (λ q, pod_Phase q = PodRunning) pods →
  existsb (λ q, bool_decide (pod_Phase q = PodPending) &&
    isPendingDueToGPU q byPod (spec_GpuResources (gw_Spec gw))) pods = false →
  let '(gw', phase) := computePhase gw pods byPod byOwner cfg in
  let util := computeAggregatedUtilization gw cfg in
  st_AggregatedUtilization (gw_Status gw') = util ∧
  (phase = PhaseActive ∨ phase = PhaseIdle) ∧
  (phase = PhaseActive → F64.leb (getThreshold gw cfg) (default zero util) = true) ∧
  (F64.is_nan (default zero util) = false → F64.is_nan (getThreshold gw cfg) = false →
   phase = PhaseIdle ↔ F64.ltb (default zero util) (getThreshold gw cfg) = true) ∧
  (F64.is_nan (default zero util) = true ∨ F64.is_nan (getThreshold gw cfg) = true → phase = PhaseIdle).
Proof.
  intros Hrun Hdem. unfold computePhase. destruct pods as [|p ps]; [by apply Exists_nil in Hrun|].
  rewrite Hdem. rewrite (proj2 (existsb_exists _ (p :: ps))).
  2:{ apply Exists_exists in Hrun as (q & Hq & Hphase). exists q. rewrite list_elem_of_In in Hq.
      split; [done|]. by apply bool_decide_eq_true. }
  cbn [negb]. split; [done|]. split; [destruct (F64.leb _ _); auto|].
  split; [destruct (F64.leb _ _); done|]. split.
  - intros Hu Ht. rewrite F64.ltb_leb by done. destruct (F64.leb _ _); done.
  - intros Hnan. rewrite F64.leb_nan; [done|]. tauto.
Qed.
