(* ===== verification/Preemption.v ===== *)
(** Preemption evaluation (internal/controller/gpuworkload_controller.go):
    classifying all GpuWorkloads into pending, idle and in-flight ones, matching
    each pending workload with idle victims, and marking the victims. *)

From stdpp Require Import gmap strings list fin_maps pretty sorting.
From Stdlib Require Import ZArith Lia.
From S2P Require Import Prelude Float64 Types GpuResources GpuApi.

Record workloadEntry := {
  we_gw : GpuWorkload;
  we_gpuCount : gmap string Z;
  we_idleSince : Z
}.

Record preemptionState := {
  pendingByResource : gmap string (list workloadEntry);
  idleByResource : gmap string (list workloadEntry);
  inFlight : gmap string (gmap string Z)
}.

Definition uidOf (e : workloadEntry) : string := ref_UID (spec_WorkloadRef (gw_Spec (we_gw e))).

(** [e.gpuCount[resName]]. *)
Definition countOf (resName : string) (e : workloadEntry) : Z := default 0 (we_gpuCount e !! resName).

(** [m[resName] = append(m[resName], e)]. *)
Definition appendEntry (e : workloadEntry) (_ : string) (_ : Z) (cur : option (list workloadEntry))
  : option (list workloadEntry) := Some (default [] cur ++ [e]).

Section preemption.
Context `{Host} `{GoOrder}.

(** client-go's retry helper. *)
Context (retries : Retry).

(** The closure that marks a workload: read it afresh, leave it alone unless it
    is still idle, and write [mark] of its status. *)
Definition markIdle (k : Key) (mark : GpuWorkloadStatus → GpuWorkloadStatus) : M (option error) :=
  r ← call (S := GpuSig) (GetGW k);
  match r with
  | inl err => mret (Some err)
  | inr fresh =>
      if decide (st_Phase (gw_Status fresh) ≠ PhaseIdle) then mret None
      else
        u ← call (S := GpuSig) (StatusUpdateGW (with_status mark fresh));
        match u with inl err => mret (Some err) | inr _ => mret None end
  end.

Definition markAlways (reason : string) (s : GpuWorkloadStatus) : GpuWorkloadStatus :=
  set_PreemptionReason reason (set_IdleSince None (set_Phase PhasePreempting s)).

Definition markFor (pendingName reason : string) (s : GpuWorkloadStatus) : GpuWorkloadStatus :=
  set_PreemptionReason reason (set_PreemptedFor pendingName (set_IdleSince None (set_Phase PhasePreempting s))).

(** * classifyWorkloads *)

Definition addPending (w : GpuWorkload) (st : preemptionState) : preemptionState :=
  let e := {| we_gw := w; we_gpuCount := spec_GpuResources (gw_Spec w); we_idleSince := 0 |} in
  {| pendingByResource := range_alter (appendEntry e) (spec_GpuResources (gw_Spec w)) (pendingByResource st);
     idleByResource := idleByResource st; inFlight := inFlight st |}.

Definition addInFlight (w : GpuWorkload) (st : preemptionState) : preemptionState :=
  let for_ := st_PreemptedFor (gw_Status w) in
  if decide (for_ ≠ "") then
    {| pendingByResource := pendingByResource st; idleByResource := idleByResource st;
       inFlight := <[for_ := range_alter addCount (spec_GpuResources (gw_Spec w))
                               (default ∅ (inFlight st !! for_))]> (inFlight st) |}
  else st.

Definition addIdle (w : GpuWorkload) (idleSince : Z) (st : preemptionState) : preemptionState :=
  let e := {| we_gw := w; we_gpuCount := spec_GpuResources (gw_Spec w); we_idleSince := idleSince |} in
  {| pendingByResource := pendingByResource st;
     idleByResource := range_alter (appendEntry e) (spec_GpuResources (gw_Spec w)) (idleByResource st);
     inFlight := inFlight st |}.

(** [d.Round(time.Second)]: halves away from zero. *)
Definition roundSecond (d : Z) : Z :=
  let r := Z.abs d `mod` Second in
  let m := Z.abs d - r + (if decide (2 * r < Second) then 0 else Second) in
  Z.max int64_min (Z.min int64_max (Z.sgn d * m)).

(** The body of the loop over the workloads. *)
Definition classifyOne (gpuCfg : KaiwoGpuPreemptionConfig) (w : GpuWorkload) (st : preemptionState)
  : M (ctl preemptionState error) :=
  let policy := getPreemptionPolicy w gpuCfg in
  match st_Phase (gw_Status w) with
  | PhasePendingGpu => mret (Continue (addPending w st))
  | PhasePreempting => mret (Continue (addInFlight w st))
  | PhaseIdle =>
      match st_IdleSince (gw_Status w) with
      | None => mret (Continue st)
      | Some idleSince =>
          let gracePeriod := getGracePeriod w gpuCfg in
          now ← call (S := GpuSig) Now;
          let idleDuration := time_sub now idleSince in
          if decide (idleDuration < gracePeriod) then mret (Continue st)
          else if decide (policy = PreemptionPolicyAlways) then
            let reason := "Policy is Always and workload has been idle for "
              +:+ FormatDuration (roundSecond idleDuration) +:+ " (threshold: " +:+ FormatDuration gracePeriod +:+ ")" in
            alwaysErr ← RetryOnConflict retries (markIdle (gw_key w) (markAlways reason));
            match alwaysErr with
            | Some err => mret (Return err)
            | None =>
                _ ← call (S := GpuSig) (Emit (gw_key w) EventTypeWarning "PreemptionStarted"
                      ("Workload has been idle for " +:+ FormatDuration (roundSecond idleDuration) +:+ " (limit: "
                       +:+ FormatDuration gracePeriod +:+ ", policy: Always); preempting"));
                mret (Continue st)
            end
          else mret (Continue (addIdle w idleSince st))
      end
  | _ => mret (Continue st)
  end.

Definition idleBefore (a b : workloadEntry) : bool := bool_decide (we_idleSince a < we_idleSince b).
Definition createdBefore (a b : workloadEntry) : bool :=
  bool_decide (gw_CreationTimestamp (we_gw a) < gw_CreationTimestamp (we_gw b)).

Definition sortState (st : preemptionState) : preemptionState :=
  {| pendingByResource := sortSlice createdBefore <$> pendingByResource st;
     idleByResource := sortSlice idleBefore <$> idleByResource st;
     inFlight := inFlight st |}.

Definition classifyWorkloads (workloads : list GpuWorkload) (gpuCfg : KaiwoGpuPreemptionConfig)
  : M (error + preemptionState) :=
  r ← for_range workloads {| pendingByResource := ∅; idleByResource := ∅; inFlight := ∅ |} (classifyOne gpuCfg);
  match r with
  | inr err => mret (inl err)
  | inl st => mret (inr (sortState st))
  end.

(** * matchAndMarkVictims *)

(** The loop over the idle pool: victims taken so far and what they free. *)
Fixpoint accumulate (resName : string) (claimed : gset string) (demandCount : Z) (pool : list workloadEntry)
    (victims : list workloadEntry) (accumulated : Z) : list workloadEntry * Z :=
  match pool with
  | [] => (victims, accumulated)
  | idle :: pool' =>
      if decide (uidOf idle ∈ claimed) then accumulate resName claimed demandCount pool' victims accumulated
      else
        let count := countOf resName idle in
        if decide (count ≤ 0) then accumulate resName claimed demandCount pool' victims accumulated
        else
          let victims' := victims ++ [idle] in
          let accumulated' := int64_wrap (accumulated + count) in
          if decide (demandCount ≤ accumulated') then (victims', accumulated')
          else accumulate resName claimed demandCount pool' victims' accumulated'
  end.

(** What is still missing for a pending workload: its count less the capacity
    already being freed for it; [None] when nothing is. *)
Definition demandOf (resName : string) (pending : workloadEntry) (inFlight : gmap string (gmap string Z)) : option Z :=
  let demandCount := countOf resName pending in
  if decide (demandCount ≤ 0) then None
  else
    match inFlight !! gw_Name (we_gw pending) with
    | None => Some demandCount
    | Some alreadyFreeing =>
        let demandCount' := int64_wrap (demandCount - default 0 (alreadyFreeing !! resName)) in
        if decide (demandCount' ≤ 0) then None else Some demandCount'
    end.

(** Mark one victim: the loop variable is the set of claimed UIDs. *)
Definition markVictim (resName : string) (pending : workloadEntry) (demandCount : Z)
    (victim : workloadEntry) (claimed : gset string) : M (ctl (gset string) error) :=
  let claimed' := {[uidOf victim]} ∪ claimed in
  let name := gw_Name (we_gw pending) in
  let reason := "GPU pressure: pending workload " +:+ name +:+ " needs " +:+ pretty demandCount
    +:+ " " +:+ resName +:+ " GPUs" in
  err ← RetryOnConflict retries (markIdle (gw_key (we_gw victim)) (markFor name reason));
  match err with
  | Some err => mret (Return err)
  | None =>
      _ ← call (S := GpuSig) (Emit (gw_key (we_gw victim)) EventTypeWarning "PreemptionStarted"
            ("Freeing " +:+ pretty (countOf resName victim) +:+ " " +:+ resName
             +:+ " GPU(s) for pending workload " +:+ name));
      mret (Continue claimed')
  end.

(** The body of the loop over the pending workloads of one resource. *)
Definition matchPending (st : preemptionState) (resName : string) (idlePool : list workloadEntry)
    (pending : workloadEntry) (claimed : gset string) : M (ctl (gset string) error) :=
  match demandOf resName pending (inFlight st) with
  | None => mret (Continue claimed)
  | Some demandCount =>
      let '(victims, accumulated) := accumulate resName claimed demandCount idlePool [] 0 in
      if decide (accumulated < demandCount) then mret (Continue claimed)
      else
        r ← for_range victims claimed (markVictim resName pending demandCount);
        match r with
        | inl claimed' => mret (Continue claimed')
        | inr err => mret (Return err)
        end
  end.

(** The body of the loop over the resources. *)
Definition matchResource (st : preemptionState) (entry : string * list workloadEntry) (claimed : gset string)
  : M (ctl (gset string) error) :=
  let '(resName, pendingList) := entry in
  match idleByResource st !! resName with
  | None | Some [] => mret (Continue claimed)
  | Some idlePool =>
      r ← for_range pendingList claimed (matchPending st resName idlePool);
      match r with
      | inl claimed' => mret (Continue claimed')
      | inr err => mret (Return err)
      end
  end.

Definition matchAndMarkVictims (st : preemptionState) : M (option error) :=
  r ← for_range (rangeMap (pendingByResource st)) ∅ (matchResource st);
  match r with
  | inl _ => mret None
  | inr err => mret (Some err)
  end.

End preemption.

(** * What the evaluation may write *)

Definition is_write (e : event GpuSig) : Prop :=
  match projT1 e with
  | CreateGW _ | UpdateGW _ | StatusUpdateGW _ | DeleteGW _ | DeleteObject _ _
  | CreateLease _ | UpdateLease _ => True
  | _ => False
  end.

(** A write that marks the workload just read: it was Idle, becomes Preempting
    with a reason and no idle time, and nothing else about it changes but whom it
    is preempted for. *)
Definition marks (read write : event GpuSig) : Prop :=
  ∃ k fresh for_ reason,
    read = ev (S := GpuSig) (GetGW k) (inr fresh) ∧ st_Phase (gw_Status fresh) = PhaseIdle ∧
    projT1 write = StatusUpdateGW (with_status (markFor for_ reason) fresh).

(** Every write of a trace marks an idle workload read just before. *)
Definition only_marks (tr : trace GpuSig) : Prop := guarded is_write marks None tr.

Lemma only_marks_app tr tr' : only_marks tr → only_marks tr' → only_marks (tr ++ tr').
Proof. apply guarded_app. Qed.

(** Marking under the Always policy keeps the name the workload was preempted for. *)
Lemma markAlways_markFor reason fresh :
  with_status (markAlways reason) fresh = with_status (markFor (st_PreemptedFor (gw_Status fresh)) reason) fresh.
Proof. done. Qed.

(** The keys of the workloads whose preemption a trace announces. *)
Definition started_key (e : event GpuSig) : option Key :=
  match projT1 e with
  | Emit k EventTypeWarning "PreemptionStarted" _ => Some k
  | _ => None
  end.
Definition started (tr : trace GpuSig) : list Key := omap started_key tr.

Lemma started_app tr tr' : started (tr ++ tr') = started tr ++ started tr'.
Proof. apply omap_app. Qed.

Lemma markIdle_spec k mark :
  (∀ fresh, ∃ for_ reason, with_status mark fresh = with_status (markFor for_ reason) fresh) →
  always anything (markIdle k mark) (λ tr _, only_marks tr ∧ started tr = []).
Proof.
  intros Hm. unfold markIdle. apply always_bind. intros [err|fresh] _; simpl; [repeat split; done|].
  case_decide as Hph; simpl; [repeat split; done|].
  destruct (Hm fresh) as (fo & re & HE).
  intros u _; destruct u; simpl; (split; [|done]); (split; [done|]); (split; [|done]); intros _;
    (eexists; split; [done|]); exists k, fresh, fo, re; by rewrite <- HE.
Qed.

Lemma mark_spec n k mark :
  (∀ fresh, ∃ for_ reason, with_status mark fresh = with_status (markFor for_ reason) fresh) →
  always anything (RetryOnConflict n (markIdle k mark)) (λ tr _, only_marks tr ∧ started tr = []).
Proof.
  intros Hm. apply RetryOnConflict_spec; [|by apply markIdle_spec].
  intros tr tr' [? E] [? E']. split; [by apply only_marks_app|]. by rewrite started_app, E, E'.
Qed.

(** Marking a victim announces it, or returns an error and announces nothing. *)
Lemma markVictim_spec n res pending d v claimed :
  always anything (markVictim n res pending d v claimed) (λ tr c, only_marks tr ∧
    match c with
    | Continue c' => c' = {[uidOf v]} ∪ claimed ∧ started tr = [gw_key (we_gw v)]
    | Break _ => False
    | Return _ => started tr = []
    end).
Proof.
  unfold markVictim. apply always_bind. eapply always_mono; [apply mark_spec; by do 2 eexists|].
  intros tr [err|] [Ho Hs]; simpl; [by rewrite app_nil_r|]. intros [] _. simpl.
  split; [apply only_marks_app; [done|repeat split; done]|]. split; [done|].
  by rewrite started_app, Hs.
Qed.

(** * Victim selection *)

(** What a list of workloads frees of a resource. *)
Definition freed (resName : string) (l : list workloadEntry) : Z := sumZ (countOf resName <$> l).

Lemma freed_app res l l' : freed res (l ++ l') = freed res l + freed res l'.
Proof. unfold freed. by rewrite fmap_app, sumZ_app. Qed.

(** The workloads of the pool that may be taken. *)
Definition eligible (resName : string) (claimed : gset string) (e : workloadEntry) : Prop :=
  (uidOf e ∉ claimed) ∧ 0 < countOf resName e.
#[export] Instance eligible_dec resName claimed e : Decision (eligible resName claimed e).
Proof. unfold eligible. apply _. Defined.

Lemma freed_eligible_nonneg res claimed l : 0 ≤ freed res (filter (eligible res claimed) l).
Proof.
  induction l as [|e l IH]; [done|]. rewrite filter_cons. case_decide as He; [|done].
  destruct He as [_ He]. change (freed res (e :: filter (eligible res claimed) l))
    with (countOf res e + freed res (filter (eligible res claimed) l)). lia.
Qed.

(** The shortest run of eligible workloads, in pool order, that frees [d]. *)
Definition minimal_victims (resName : string) (claimed : gset string) (d : Z) (pool victims : list workloadEntry) : Prop :=
  victims `prefix_of` filter (eligible resName claimed) pool ∧ d ≤ freed resName victims ∧
  ∀ l, l `prefix_of` victims → l ≠ victims → freed resName l < d.

Lemma accumulate_gen res claimed d pool vs :
  freed res vs < d → 0 ≤ freed res vs →
  freed res vs + freed res (filter (eligible res claimed) pool) ≤ int64_max →
  ∃ more, accumulate res claimed d pool vs (freed res vs) = (vs ++ more, freed res (vs ++ more)) ∧
    more `prefix_of` filter (eligible res claimed) pool ∧
    ((d ≤ freed res (vs ++ more) ∧ ∀ l, l `prefix_of` more → l ≠ more → freed res (vs ++ l) < d) ∨
     (freed res (vs ++ more) < d ∧ more = filter (eligible res claimed) pool)).
Proof.
  revert vs. induction pool as [|e pool IH]; intros vs Hlt Hge Hmax; cbn [accumulate].
  { exists []. rewrite app_nil_r. repeat split; [done|]. by right. }
  destruct (decide (eligible res claimed e)) as [He|He]; cycle 1.
  { rewrite filter_cons_False in * by done.
    case_decide as Hc; [by apply IH|]. case_decide as Hz; [by apply IH|]. destruct He. split; [done|lia]. }
  rewrite filter_cons_True in * by done. destruct He as [Hc Hz].
  rewrite (decide_False (P := uidOf e ∈ claimed)) by done. rewrite (decide_False (P := countOf res e ≤ 0)) by lia.
  pose proof (freed_eligible_nonneg res claimed pool) as Hnn.
  change (freed res (e :: filter (eligible res claimed) pool))
    with (countOf res e + freed res (filter (eligible res claimed) pool)) in Hmax.
  assert (freed res (vs ++ [e]) = freed res vs + countOf res e) as Hvs by (rewrite freed_app; unfold freed; simpl; lia).
  rewrite int64_wrap_id by (unfold in_int64, int64_min; lia). rewrite <- Hvs.
  case_decide as Hd.
  - exists [e]. split; [done|]. split; [by apply prefix_cons, prefix_nil|]. left. split; [done|].
    intros [|x l] Hp Hne; [by rewrite app_nil_r|].
    destruct Hne. apply prefix_cons_inv_1 in Hp as Hx. apply prefix_cons_inv_2, prefix_nil_inv in Hp. by subst.
  - destruct (IH (vs ++ [e])) as (more & -> & Hpre & Hcases); [lia..|].
    exists (e :: more). rewrite <- app_assoc in *. split; [done|]. split; [by apply prefix_cons|].
    destruct Hcases as [[? Hmin]|[? ->]]; [left|by right]. split; [done|].
    intros [|x l] Hp Hne; [rewrite app_nil_r; lia|].
    apply prefix_cons_inv_1 in Hp as Hx; apply prefix_cons_inv_2 in Hp; subst x.
    specialize (Hmin l Hp ltac:(congruence)). by rewrite <- app_assoc in Hmin.
Qed.

(** The sum of everything a pool could free stays within an [int]. *)
Definition fits (resName : string) (claimed : gset string) (pool : list workloadEntry) : Prop :=
  freed resName (filter (eligible resName claimed) pool) ≤ int64_max.

(** The loop over the idle pool takes the shortest run of unclaimed workloads
    whose GPUs cover the demand; when the whole pool does not cover it, it takes
    all of them and the sum shows it. *)
Lemma accumulate_spec res claimed d pool :
  0 < d → fits res claimed pool →
  let '(victims, accumulated) := accumulate res claimed d pool [] 0 in
  accumulated = freed res victims ∧
  if decide (d ≤ freed res (filter (eligible res claimed) pool))
  then minimal_victims res claimed d pool victims
  else accumulated < d ∧ victims = filter (eligible res claimed) pool.
Proof.
  intros Hd Hfit. destruct (accumulate_gen res claimed d pool []) as (vs & E & Hpre & Hcases); [done..|].
  change (freed res []) with 0 in E. rewrite E. simpl. split; [done|].
  destruct Hcases as [[Hge Hmin]|[Hlt ->]].
  - rewrite decide_True; [by repeat split|].
    destruct Hpre as [rest Hrest]. pose proof (freed_app res vs rest) as Hsum. rewrite <- Hrest in Hsum.
    assert (0 ≤ freed res rest); [|simpl in *; lia].
    assert (Forall (λ e, 0 < countOf res e) rest) as Hpos.
    { apply Forall_forall. intros e He.
      assert (e ∈ filter (eligible res claimed) pool) as Hin by (rewrite Hrest; apply elem_of_app; by right).
      apply list_elem_of_filter in Hin. by destruct Hin as [[_ ?] _]. }
    apply sumZ_nonneg, Forall_fmap. eapply Forall_impl; [done|]. simpl. lia.
  - rewrite decide_False by (simpl in *; lia). done.
Qed.

(** ** One pending workload *)

Lemma demandOf_pos res pending inFl d : demandOf res pending inFl = Some d → 0 < d.
Proof. unfold demandOf. case_decide; [done|]. case_match; [case_decide; [done|]|]; intros [= <-]; lia. Qed.

Lemma accumulate_enough res claimed d pool vs acc :
  0 < d → fits res claimed pool → accumulate res claimed d pool [] 0 = (vs, acc) →
  (acc < d ∧ freed res (filter (eligible res claimed) pool) < d) ∨
  (d ≤ acc ∧ minimal_victims res claimed d pool vs).
Proof.
  intros Hd Hfit E. pose proof (accumulate_spec res claimed d pool Hd Hfit) as Hs. rewrite E in Hs.
  destruct Hs as [-> Hs]. case_decide; [right|left]; [|by destruct Hs; split; [done|lia]].
  split; [|done]. apply Hs.
Qed.

(** Marking the victims in turn, up to the first error. *)
Lemma markVictims_spec n res pending d vs claimed :
  always anything (for_range vs claimed (markVictim n res pending d)) (λ tr c, only_marks tr ∧
    match c with
    | inl claimed' => claimed' = claimed ∪ list_to_set (uidOf <$> vs) ∧ started tr = gw_key ∘ we_gw <$> vs
    | inr _ => ∃ m, (m < length vs)%nat ∧ started tr = gw_key ∘ we_gw <$> take m vs
    end).
Proof.
  pose proof (always_for_range anything
    (λ rest tr c, only_marks tr ∧ ∃ done_, vs = done_ ++ rest ∧ c = claimed ∪ list_to_set (uidOf <$> done_) ∧
       started tr = gw_key ∘ we_gw <$> done_)
    (λ tr c, only_marks tr ∧ c = claimed ∪ list_to_set (uidOf <$> vs) ∧ started tr = gw_key ∘ we_gw <$> vs)
    (λ tr (_ : error), only_marks tr ∧ ∃ m, (m < length vs)%nat ∧ started tr = gw_key ∘ we_gw <$> take m vs)
    (markVictim n res pending d)) as Hloop.
  eapply always_mono; [apply Hloop with (tr0 := [])|].
  - intros tr c [Ho (d0 & -> & -> & Hs)]. rewrite app_nil_r. auto.
  - intros v rest tr c [Ho (d0 & Hvs & -> & Hs)]. eapply always_mono; [apply markVictim_spec|].
    intros tr' [c'|c'|err] [Ho' Hc]; [|done|]; (split; [by apply only_marks_app|]); rewrite started_app, Hs.
    + destruct Hc as [-> ->]. exists (d0 ++ [v]). rewrite <- app_assoc, !fmap_app. split; [done|].
      split; [|done]. rewrite list_to_set_app_L. simpl. set_solver.
    + exists (length d0). rewrite Hvs, length_app, take_app_length, Hc, app_nil_r. simpl. split; [lia|done].
  - split; [done|]. exists []. repeat split; [simpl; set_solver].
  - intros tr [c|err]; simpl; [|done]. tauto.
Qed.

(** *** What is done to a victim *)

Definition inFlightOf (name res : string) (st : preemptionState) : Z :=
  default 0 (default ∅ (inFlight st !! name) !! res).

(** [w] is what was read of a victim, marked as preempted for [name]. *)
Definition marked_for (name : string) (fresh w : GpuWorkload) : Prop :=
  gw_key w = gw_key fresh ∧ gw_Spec w = gw_Spec fresh ∧ gw_ResourceVersion w = gw_ResourceVersion fresh ∧
  st_Phase (gw_Status w) = PhasePreempting ∧ st_PreemptedFor (gw_Status w) = name ∧ st_PreemptionReason (gw_Status w) ≠ "" ∧
  st_IdleSince (gw_Status w) = None.

(** One attempt at a victim, and its error: it is read anew and, when it is still Idle, the
    mark is written. *)
Inductive mark_attempt (name : string) (k : Key) : trace GpuSig → option error → Prop :=
| mark_unread err : mark_attempt name k [ev (S := GpuSig) (GetGW k) (inl err)] (Some err)
| mark_busy fresh : st_Phase (gw_Status fresh) ≠ PhaseIdle → mark_attempt name k [ev (S := GpuSig) (GetGW k) (inr fresh)] None
| mark_refused fresh w err : st_Phase (gw_Status fresh) = PhaseIdle → marked_for name fresh w →
    mark_attempt name k [ev (S := GpuSig) (GetGW k) (inr fresh); ev (S := GpuSig) (StatusUpdateGW w) (inl err)] (Some err)
| mark_marked fresh w stored : st_Phase (gw_Status fresh) = PhaseIdle → marked_for name fresh w →
    mark_attempt name k [ev (S := GpuSig) (GetGW k) (inr fresh); ev (S := GpuSig) (StatusUpdateGW w) (inr stored)] None.

(** Attempts, each after a conflict, up to the one that counts. *)
Inductive mark_attempts (name : string) (k : Key) : trace GpuSig → option error → Prop :=
| mark_last tr r : mark_attempt name k tr r → mark_attempts name k tr r
| mark_again tr err tr' r : mark_attempt name k tr (Some err) → IsConflict err = true →
    mark_attempts name k tr' r → mark_attempts name k (tr ++ tr') r.

(** A victim is marked, unless it is no longer Idle, and announced. *)
Definition handled (name : string) (v : workloadEntry) (tr : trace GpuSig) : Prop :=
  ∃ tr0 message, mark_attempts name (gw_key (we_gw v)) tr0 None ∧
    tr = tr0 ++ [ev (S := GpuSig) (Emit (gw_key (we_gw v)) EventTypeWarning "PreemptionStarted" message) tt].

Lemma markIdle_attempt k name reason : reason ≠ "" →
  always anything (markIdle k (markFor name reason)) (mark_attempt name k).
Proof.
  intros Hr. unfold markIdle. on_call r. destruct r as [err|fresh]; [apply mark_unread|].
  case_decide as Hph; [by apply mark_busy|]. assert (st_Phase (gw_Status fresh) = PhaseIdle) as Hidle.
  { by destruct (decide (st_Phase (gw_Status fresh) = PhaseIdle)). }
  on_call u. destruct u; [by apply mark_refused|by apply mark_marked].
Qed.

Lemma markVictim_handled n res pending d v claimed :
  always anything (markVictim n res pending d v claimed) (λ tr c,
    match c with
    | Continue c' => c' = {[uidOf v]} ∪ claimed ∧ handled (gw_Name (we_gw pending)) v tr
    | Break _ => False
    | Return err => mark_attempts (gw_Name (we_gw pending)) (gw_key (we_gw v)) tr (Some err)
    end).
Proof.
  unfold markVictim. apply always_bind. apply always_mono with (Q := mark_attempts (gw_Name (we_gw pending)) (gw_key (we_gw v))).
  - apply always_exec. intros tr r Hex%RetryOnConflict_retries.
    assert (∀ tr r, exec anything (markIdle (gw_key (we_gw v)) (markFor (gw_Name (we_gw pending))
      ("GPU pressure: pending workload " +:+ gw_Name (we_gw pending) +:+ " needs " +:+ pretty d +:+ " " +:+ res +:+ " GPUs"))) tr r →
      mark_attempt (gw_Name (we_gw pending)) (gw_key (we_gw v)) tr r) as Hone.
    { intros tr' r' He. apply (exec_always _ _ _ _ He). by apply markIdle_attempt. }
    induction Hex as [tr r Hl|tr err tr' r Hf Hc _ IH]; [apply mark_last|eapply mark_again]; by eauto.
  - intros tr [err|] Ha; [cbn; by rewrite app_nil_r|]. on_call x. split; [done|]. eexists tr, _. destruct x. by split.
Qed.

(** The victims are handled in turn, up to the first error. *)
Lemma markVictims_handled n res pending d vs claimed :
  always anything (for_range vs claimed (markVictim n res pending d)) (λ tr c,
    match c with
    | inl claimed' => claimed' = claimed ∪ list_to_set (uidOf <$> vs) ∧
        ∃ trs, tr = concat trs ∧ Forall2 (handled (gw_Name (we_gw pending))) vs trs
    | inr err => ∃ before v after trs tr', vs = before ++ v :: after ∧ tr = concat trs ++ tr' ∧
        Forall2 (handled (gw_Name (we_gw pending))) before trs ∧ mark_attempts (gw_Name (we_gw pending)) (gw_key (we_gw v)) tr' (Some err)
    end).
Proof.
  revert claimed. induction vs as [|v vs IH]; intros claimed; cbn [for_range].
  { split; [cbn; set_solver|]. by exists []. }
  apply always_bind. eapply always_mono; [apply markVictim_handled|]. intros tr [c|c|err] Hc; [|done|].
  - destruct Hc as [-> Hv]. eapply always_mono; [apply IH|]. intros tr' [c|err].
    + intros (-> & trs & -> & Hall). split; [cbn; set_solver|]. exists (tr :: trs). split; [done|]. by constructor.
    + intros (before & v' & after & trs & tr2 & -> & -> & Hall & Herr). exists (v :: before), v', after, (tr :: trs), tr2.
      split; [done|]. split; [by rewrite app_assoc|]. split; [by constructor|done].
  - cbn. exists [], v, vs, [], tr. by rewrite app_nil_r.
Qed.

(** What is missing for a pending workload is what it asks for less what is being freed. *)
Lemma demandOf_missing res pending st :
  in_int64 (countOf res pending) →
  let missing := int64_wrap (countOf res pending - inFlightOf (gw_Name (we_gw pending)) res st) in
  match demandOf res pending (inFlight st) with
  | Some d => 0 < countOf res pending ∧ d = missing
  | None => ¬ (0 < countOf res pending ∧ 0 < missing)
  end.
Proof.
  intros Hint missing. unfold demandOf, missing, inFlightOf. case_decide; [lia|].
  destruct (inFlight st !! gw_Name (we_gw pending)) as [m|]; cbn.
  - case_decide; [lia|]. split; [lia|done].
  - rewrite Z.sub_0_r, int64_wrap_id by done. split; [lia|done].
Qed.

(** C16: a pending workload gets victims all or nothing. When it asks for none of the
    resource, the capacity being freed for it covers it already, or the unclaimed idle workloads together do
    not, nothing is called and nothing is claimed. Otherwise the shortest run of
    the pool that covers the demand is handled, in pool order, and claimed: each of
    its workloads is read anew and, when it is still Idle, its status is written as
    Preempting for the pending workload, again after each conflict, and then its
    preemption is announced. An error other than a conflict that is tried again stops
    in the middle of that run, with the workloads before it handled. *)
Theorem matchPending_all_or_nothing n st res pool pending claimed :
  fits res claimed pool → in_int64 (countOf res pending) →
  let name := gw_Name (we_gw pending) in
  let missing := int64_wrap (countOf res pending - inFlightOf name res st) in
  always anything (matchPending n st res pool pending claimed) (λ tr c,
    if decide (0 < countOf res pending ∧ 0 < missing ≤ freed res (filter (eligible res claimed) pool)) then
      ∃ vs, minimal_victims res claimed missing pool vs ∧
        match c with
        | Continue claimed' => claimed' = claimed ∪ list_to_set (uidOf <$> vs) ∧
            ∃ trs, tr = concat trs ∧ Forall2 (handled name) vs trs
        | Break _ => False
        | Return err => ∃ before v after trs tr', vs = before ++ v :: after ∧ tr = concat trs ++ tr' ∧
            Forall2 (handled name) before trs ∧ mark_attempts name (gw_key (we_gw v)) tr' (Some err)
        end
    else tr = [] ∧ c = Continue claimed).
Proof.
  intros Hfit Hint name missing. unfold matchPending. pose proof (demandOf_missing res pending st Hint) as Hdem.
  cbv zeta in Hdem. fold name missing in Hdem. clearbody missing. destruct (demandOf res pending (inFlight st)) as [d|] eqn:Hd;
    [|cbn; rewrite decide_False by (intros (? & ? & _); tauto); done].
  destruct Hdem as [Hwant <-]. apply demandOf_pos in Hd. destruct (accumulate res claimed d pool [] 0) as [vs acc] eqn:Ha.
  destruct (accumulate_enough _ _ _ _ _ _ Hd Hfit Ha) as [[Hacc Hlt]|[Hacc Hmin]].
  { rewrite (decide_True (P := acc < d)) by done. cbn. rewrite decide_False by lia. done. }
  rewrite (decide_False (P := acc < d)) by lia.
  assert (d ≤ freed res (filter (eligible res claimed) pool)) as Hcov.
  { pose proof (accumulate_spec res claimed d pool Hd Hfit) as Hs. rewrite Ha in Hs.
    destruct Hs as [_ Hs]. case_decide; [done|]. destruct Hs. lia. }
  apply always_bind. eapply always_mono; [apply markVictims_handled|].
  intros tr [c|err] Hc; cbn; rewrite decide_True, app_nil_r by (done || lia); by exists vs.
Qed.

(** ** The whole matching *)

(** The idle pools of a state: each workload appears once per pool, and entries
    of the same object carry the same UID. *)
Definition pooled (st : preemptionState) (e : workloadEntry) : Prop :=
  ∃ res pool, idleByResource st !! res = Some pool ∧ e ∈ pool.

Record well_pooled (st : preemptionState) : Prop := {
  wp_nodup res pool : idleByResource st !! res = Some pool → NoDup (uidOf <$> pool);
  wp_key e e' : pooled st e → pooled st e' → gw_key (we_gw e) = gw_key (we_gw e') → uidOf e = uidOf e'
}.

(** No workload announced twice, and every announced one claimed. *)
Definition claims_inv (st : preemptionState) (claimed : gset string) (keys : list Key) : Prop :=
  NoDup keys ∧ ∀ k, k ∈ keys → ∃ e, pooled st e ∧ gw_key (we_gw e) = k ∧ uidOf e ∈ claimed.

Lemma accumulate_incl res claimed d pool vs acc vs' acc' :
  accumulate res claimed d pool vs acc = (vs', acc') →
  ∃ l, vs' = vs ++ l ∧ l `sublist_of` pool ∧ Forall (λ e, uidOf e ∉ claimed) l.
Proof.
  revert vs acc. induction pool as [|e pool IH]; intros vs acc; cbn [accumulate].
  { intros [= <- <-]. exists []. rewrite app_nil_r. by repeat constructor. }
  case_decide as Hc; [|case_decide; [|case_decide]].
  1,2: intros (l & -> & ? & ?)%IH; exists l; repeat split; [by constructor|done].
  - intros [= <- <-]. exists [e]. repeat split; [apply sublist_skip, sublist_nil_l|by repeat constructor].
  - intros (l & -> & ? & ?)%IH. exists (e :: l). rewrite <- app_assoc.
    repeat split; [by apply sublist_skip|by constructor].
Qed.

(** Announcing unclaimed victims of one pool keeps the invariant. *)
Lemma claims_inv_extend st claimed keys res pool vs :
  well_pooled st → idleByResource st !! res = Some pool → vs `sublist_of` pool →
  Forall (λ e, uidOf e ∉ claimed) vs → claims_inv st claimed keys →
  claims_inv st (claimed ∪ list_to_set (uidOf <$> vs)) (keys ++ (gw_key ∘ we_gw <$> vs)).
Proof.
  intros [Hnd Hkey] Hpool Hsub Hun [Hk Hcl].
  assert (∀ e, e ∈ vs → pooled st e) as Hin.
  { intros e He. exists res, pool. split; [done|]. by eapply elem_of_sublist. }
  split.
  - apply NoDup_app. split; [done|]. split.
    + intros k Hkk (e & -> & He)%list_elem_of_fmap.
      destruct (Hcl _ Hkk) as (e' & Hp' & Hk' & Hc').
      rewrite Forall_forall in Hun. apply (Hun e He). rewrite <- (Hkey e' e); auto.
    + assert (NoDup (uidOf <$> vs)) as Hu.
      { eapply sublist_NoDup; [by eapply Hnd|]. by apply fmap_sublist. }
      clear -Hu Hin Hkey. induction vs as [|e vs IH]; [constructor|].
      apply NoDup_cons in Hu as [Hu1 Hu2]. apply NoDup_cons. split; [|apply IH; [intros; apply Hin; by right|done]].
      intros (e' & He & He')%list_elem_of_fmap. apply Hu1, list_elem_of_fmap. exists e'.
      split; [|done]. apply Hkey; [apply Hin; by left|apply Hin; by right|done].
  - intros k [Hkk|(e & -> & He)%list_elem_of_fmap]%elem_of_app.
    + destruct (Hcl _ Hkk) as (e & ? & ? & ?). exists e. set_solver.
    + exists e. split; [by apply Hin|]. split; [done|].
      apply elem_of_union_r, elem_of_list_to_set, list_elem_of_fmap. eauto.
Qed.

Lemma matchPending_claims n st res pool pending claimed tr :
  well_pooled st → idleByResource st !! res = Some pool → claims_inv st claimed (started tr) →
  always anything (matchPending n st res pool pending claimed) (λ tr' c,
    match c with
    | Continue c' | Break c' => claims_inv st c' (started (tr ++ tr'))
    | Return _ => NoDup (started (tr ++ tr'))
    end).
Proof.
  intros Hwp Hpool Hinv. unfold matchPending. destruct (demandOf _ _ _) as [d|]; [|simpl; by rewrite app_nil_r].
  destruct (accumulate res claimed d pool [] 0) as [vs acc] eqn:Ha.
  case_decide; [simpl; by rewrite app_nil_r|]. apply accumulate_incl in Ha as (l & -> & Hsub & Hun). simpl.
  apply always_bind. eapply always_mono; [apply markVictims_spec|].
  intros tr' [c|err] [_ Hc]; simpl; rewrite app_nil_r, started_app.
  - destruct Hc as [-> ->]. by eapply claims_inv_extend.
  - destruct Hc as (m & _ & ->). eapply (claims_inv_extend st claimed _ res pool (take m l)); [done|done| | |done].
    + etrans; [apply sublist_take|done].
    + by apply Forall_take.
Qed.

(** C4: within one evaluation no workload is chosen as a victim twice, neither
    for two pending workloads nor for two resources. *)
Theorem matchAndMarkVictims_no_double `{GoOrder} n st :
  well_pooled st → always anything (matchAndMarkVictims n st) (λ tr _, NoDup (started tr)).
Proof.
  intros Hwp. unfold matchAndMarkVictims. apply always_bind.
  eapply always_mono; [apply (always_for_range anything
    (λ _ tr c, claims_inv st c (started tr)) (λ tr _, NoDup (started tr)) (λ tr _, NoDup (started tr))) with (tr0 := [])|].
  - by intros tr c [? _].
  - intros [res pendingList] l tr c Hinv. unfold matchResource.
    destruct (idleByResource st !! res) as [[|e pool]|] eqn:Hp; [simpl; by rewrite app_nil_r| |simpl; by rewrite app_nil_r].
    apply always_bind. eapply always_mono; [apply (always_for_range anything
      (λ _ tr' c, claims_inv st c (started (tr ++ tr'))) (λ tr' c, claims_inv st c (started (tr ++ tr')))
      (λ tr' _, NoDup (started (tr ++ tr')))) with (tr0 := [])|].
    + done.
    + intros pending l' tr' c' Hinv'. eapply always_mono; [by apply matchPending_claims with (tr := tr ++ tr')|].
      intros tr'' [?|?|?]; by rewrite app_assoc.
    + by rewrite app_nil_r.
    + intros tr' [c'|err]; simpl; by rewrite app_nil_r.
  - split; [constructor|]. intros k Hk. by apply elem_of_nil in Hk.
  - intros tr [c|err]; simpl; by rewrite app_nil_r.
Qed.

Lemma matchPending_marks n st res pool pending claimed :
  always anything (matchPending n st res pool pending claimed) (λ tr _, only_marks tr).
Proof.
  unfold matchPending. destruct (demandOf _ _ _) as [d|]; [|done].
  destruct (accumulate res claimed d pool [] 0) as [vs acc]. case_decide; [done|].
  apply always_bind. eapply always_mono; [apply markVictims_spec|].
  intros tr [c|err] [Ho _]; simpl; by rewrite app_nil_r.
Qed.

Lemma matchAndMarkVictims_marks `{GoOrder} n st :
  always anything (matchAndMarkVictims n st) (λ tr _, only_marks tr).
Proof.
  unfold matchAndMarkVictims. apply always_bind.
  eapply always_mono; [apply (always_for_range_closed anything only_marks (λ _, True) (λ _, True)); [done|apply only_marks_app|done|]|].
  - intros [res pendingList] c _ _. unfold matchResource.
    destruct (idleByResource st !! res) as [[|e pool]|]; [done| |done].
    apply always_bind. eapply always_mono; [apply (always_for_range_closed anything only_marks (λ _, True) (λ _, True)); [done|apply only_marks_app|done|]|].
    + intros pending c' _ _. eapply always_mono; [apply matchPending_marks|]. intros tr [?|?|?] ?; done.
    + intros tr [?|?] [? _]; simpl; by rewrite app_nil_r.
  - intros tr [?|?] [? _]; simpl; by rewrite app_nil_r.
Qed.

(** * Classification *)

(** The entries the classification makes of a workload. *)
Definition pendingEntry (w : GpuWorkload) : workloadEntry :=
  {| we_gw := w; we_gpuCount := spec_GpuResources (gw_Spec w); we_idleSince := 0 |}.
Definition idleEntry (w : GpuWorkload) : workloadEntry :=
  {| we_gw := w; we_gpuCount := spec_GpuResources (gw_Spec w);
     we_idleSince := default 0 (st_IdleSince (gw_Status w)) |}.

Definition wants (res : string) (w : GpuWorkload) : Prop :=
  st_Phase (gw_Status w) = PhasePendingGpu ∧ is_Some (spec_GpuResources (gw_Spec w) !! res).
#[export] Instance wants_dec res w : Decision (wants res w).
Proof. unfold wants. apply _. Defined.

(** An idle workload that waits for pressure and holds [res]. *)
Definition yields `{Host} (cfg : KaiwoGpuPreemptionConfig) (res : string) (w : GpuWorkload) : Prop :=
  st_Phase (gw_Status w) = PhaseIdle ∧ is_Some (st_IdleSince (gw_Status w)) ∧
  getPreemptionPolicy w cfg ≠ PreemptionPolicyAlways ∧ is_Some (spec_GpuResources (gw_Spec w) !! res).

Definition idleFor (now : Z) (w : GpuWorkload) : Z := time_sub now (default 0 (st_IdleSince (gw_Status w))).

(** The clock was read in [tr] when the workload was idle for its grace period,
    or for less. *)
Definition graceOver `{Host} cfg (tr : trace GpuSig) (w : GpuWorkload) : Prop :=
  ∃ now, ev (S := GpuSig) Now now ∈ tr ∧ getGracePeriod w cfg ≤ idleFor now w.
Definition inGrace `{Host} cfg (tr : trace GpuSig) (w : GpuWorkload) : Prop :=
  ∃ now, ev (S := GpuSig) Now now ∈ tr ∧ idleFor now w < getGracePeriod w cfg.

(** What is being freed of [res] for the workload [name]. *)
Definition freeingOne (name res : string) (w : GpuWorkload) : Z :=
  if decide (st_Phase (gw_Status w) = PhasePreempting ∧ st_PreemptedFor (gw_Status w) = name)
  then default 0 (spec_GpuResources (gw_Spec w) !! res) else 0.
Definition freeing (name res : string) (ws : list GpuWorkload) : Z :=
  sumZ (freeingOne name res <$> ws).

Record classified `{Host} (cfg : KaiwoGpuPreemptionConfig) (ws : list GpuWorkload) (tr : trace GpuSig)
    (st : preemptionState) : Prop := {
  cl_pending res : default [] (pendingByResource st !! res) = pendingEntry <$> filter (wants res) ws;
  cl_idle res : ∃ l, default [] (idleByResource st !! res) = idleEntry <$> l ∧ l `sublist_of` ws ∧
    Forall (λ w, yields cfg res w ∧ graceOver cfg tr w) l ∧
    (∀ w, w ∈ ws → yields cfg res w → w ∈ l ∨ inGrace cfg tr w);
  cl_inFlight name res : name ≠ "" → inFlightOf name res st = int64_wrap (freeing name res ws)
}.

Section classify.
Context `{Host} `{GoOrder}.

Lemma graceOver_app cfg tr tr' w : graceOver cfg tr w → graceOver cfg (tr ++ tr') w.
Proof. intros (now & ? & ?). exists now. rewrite elem_of_app. auto. Qed.
Lemma inGrace_app cfg tr tr' w : inGrace cfg tr w → inGrace cfg (tr ++ tr') w.
Proof. intros (now & ? & ?). exists now. rewrite elem_of_app. auto. Qed.

(** What is known of the pool of one resource carries over a step that leaves
    the pool alone, when the workload it looked at does not yield or is in its
    grace period. *)
Lemma idle_skip cfg res ws tr tr' w l :
  l `sublist_of` ws → Forall (λ w, yields cfg res w ∧ graceOver cfg tr w) l →
  (∀ w, w ∈ ws → yields cfg res w → w ∈ l ∨ inGrace cfg tr w) →
  (yields cfg res w → inGrace cfg (tr ++ tr') w) →
  l `sublist_of` ws ++ [w] ∧ Forall (λ w, yields cfg res w ∧ graceOver cfg (tr ++ tr') w) l ∧
  (∀ w', w' ∈ ws ++ [w] → yields cfg res w' → w' ∈ l ∨ inGrace cfg (tr ++ tr') w').
Proof.
  intros Hsub Hall Hcompl Hw. split; [by apply sublist_inserts_r|]. split.
  - eapply Forall_impl; [done|]. intros x [? ?]. split; [done|]. by apply graceOver_app.
  - intros w' [Hin| ->%list_elem_of_singleton]%elem_of_app Hy; [|by right; apply Hw].
    destruct (Hcompl w' Hin Hy); [by left|right; by apply inGrace_app].
Qed.

Lemma freeing_snoc name res ws w :
  freeing name res (ws ++ [w]) = freeing name res ws + freeingOne name res w.
Proof. unfold freeing. rewrite fmap_app, sumZ_app. cbn. lia. Qed.

Lemma freeingOne_other name res w : st_Phase (gw_Status w) ≠ PhasePreempting → freeingOne name res w = 0.
Proof. intros Hph. unfold freeingOne. by rewrite decide_False by tauto. Qed.

(** A step that changes no pool keeps what is known. *)
Lemma classified_skip cfg ws tr tr' st w :
  classified cfg ws tr st → st_Phase (gw_Status w) ≠ PhasePendingGpu →
  st_Phase (gw_Status w) ≠ PhasePreempting →
  (∀ res, yields cfg res w → inGrace cfg (tr ++ tr') w) → classified cfg (ws ++ [w]) (tr ++ tr') st.
Proof.
  intros [Hp Hi Hf] Hnp Hnf Hg. split.
  - intros res. rewrite Hp, filter_app, filter_cons_False by (intros [? _]; done). by rewrite app_nil_r.
  - intros res. destruct (Hi res) as (l & El & Hsub & Hall & Hcompl). exists l.
    split; [done|]. apply idle_skip; eauto.
  - intros name res Hne. rewrite Hf, freeing_snoc, freeingOne_other by done. f_equal. lia.
Qed.

Lemma addPending_classified cfg ws tr st w :
  classified cfg ws tr st → st_Phase (gw_Status w) = PhasePendingGpu → classified cfg (ws ++ [w]) tr (addPending w st).
Proof.
  intros [Hp Hi Hf] Hph. split.
  - intros res. simpl. rewrite range_alter_lookup, filter_app, fmap_app, <- Hp.
    destruct (spec_GpuResources (gw_Spec w) !! res) eqn:Hq.
    + rewrite filter_cons_True by (split; eauto). done.
    + rewrite filter_cons_False by (intros [_ [??]]; congruence). by rewrite app_nil_r.
  - intros res. simpl. destruct (Hi res) as (l & El & Hsub & Hall & Hcompl). exists l. split; [done|].
    rewrite <- (app_nil_r tr). apply idle_skip; [done..|]. intros [? _]. congruence.
  - intros name res Hne. unfold inFlightOf. simpl. rewrite freeing_snoc, freeingOne_other, Z.add_0_r by congruence.
    by apply Hf.
Qed.

Lemma addIdle_classified cfg ws tr tr' st w idleSince :
  classified cfg ws tr st → st_Phase (gw_Status w) = PhaseIdle → st_IdleSince (gw_Status w) = Some idleSince →
  getPreemptionPolicy w cfg ≠ PreemptionPolicyAlways → graceOver cfg (tr ++ tr') w →
  classified cfg (ws ++ [w]) (tr ++ tr') (addIdle w idleSince st).
Proof.
  intros [Hp Hi Hf] Hph His Hpol Hg. split.
  - intros res. simpl. rewrite Hp, filter_app, filter_cons_False by (intros [? _]; congruence). by rewrite app_nil_r.
  - intros res. simpl. rewrite range_alter_lookup. destruct (Hi res) as (l & El & Hsub & Hall & Hcompl).
    destruct (spec_GpuResources (gw_Spec w) !! res) as [q|] eqn:Hq.
    + exists (l ++ [w]). simpl. rewrite El, fmap_app. split; [unfold idleEntry at 3; simpl; by rewrite His|].
      split; [by apply sublist_app|]. split.
      * apply Forall_app. split; [|repeat constructor; eauto].
        eapply Forall_impl; [done|]. intros x [? ?]. split; [done|]. by apply graceOver_app.
      * intros w' [Hin|Hin]%elem_of_app Hy; [|left; apply elem_of_app; by right].
        destruct (Hcompl w' Hin Hy); [left; apply elem_of_app; by left|right; by apply inGrace_app].
    + exists l. split; [done|]. apply idle_skip; [done..|]. intros (_ & _ & _ & [??]). congruence.
  - intros name res Hne. unfold inFlightOf. simpl. rewrite freeing_snoc, freeingOne_other, Z.add_0_r by congruence.
    by apply Hf.
Qed.

Lemma addInFlight_classified cfg ws tr st w :
  classified cfg ws tr st → st_Phase (gw_Status w) = PhasePreempting → classified cfg (ws ++ [w]) tr (addInFlight w st).
Proof.
  intros [Hp Hi Hf] Hph. split.
  - intros res. replace (pendingByResource (addInFlight w st)) with (pendingByResource st)
      by (unfold addInFlight; by case_decide).
    rewrite Hp, filter_app, filter_cons_False by (intros [? _]; congruence). by rewrite app_nil_r.
  - intros res. replace (idleByResource (addInFlight w st)) with (idleByResource st)
      by (unfold addInFlight; by case_decide).
    destruct (Hi res) as (l & El & Hsub & Hall & Hcompl). exists l. split; [done|].
    rewrite <- (app_nil_r tr). apply idle_skip; [done..|]. intros [? _]. congruence.
  - intros name res Hne. specialize (Hf name res Hne). rewrite freeing_snoc. unfold freeingOne, addInFlight.
    destruct (decide (st_PreemptedFor (gw_Status w) = name)) as [Hn|Hn].
    + rewrite decide_True by congruence. rewrite decide_True by done. unfold inFlightOf in *. simpl.
      rewrite Hn, lookup_insert_eq. simpl. rewrite range_alter_lookup.
      destruct (spec_GpuResources (gw_Spec w) !! res); simpl; [|rewrite Z.add_0_r; done].
      by rewrite Hf, int64_wrap_add_l.
    + rewrite (decide_False (P := _ ∧ _)) by tauto. rewrite Z.add_0_r, <- Hf.
      case_decide; [|done]. unfold inFlightOf. simpl. by rewrite lookup_insert_ne.
Qed.

(** Under the Always policy a workload is marked once its grace period is over. *)
Definition alwaysDone cfg (ws : list GpuWorkload) (tr : trace GpuSig) : Prop :=
  ∀ k, k ∈ started tr → ∃ w, w ∈ ws ∧ gw_key w = k ∧ st_Phase (gw_Status w) = PhaseIdle ∧
    getPreemptionPolicy w cfg = PreemptionPolicyAlways ∧ graceOver cfg tr w.

Lemma alwaysDone_app cfg ws ws' tr tr' :
  alwaysDone cfg ws tr → alwaysDone cfg (ws ++ ws') (tr ++ tr') ↔
  ∀ k, k ∈ started tr' → ∃ w, w ∈ ws ++ ws' ∧ gw_key w = k ∧ st_Phase (gw_Status w) = PhaseIdle ∧
    getPreemptionPolicy w cfg = PreemptionPolicyAlways ∧ graceOver cfg (tr ++ tr') w.
Proof.
  intros Hd. unfold alwaysDone. rewrite started_app. split.
  - intros Hall k Hk. apply Hall, elem_of_app. by right.
  - intros Hall k [Hk|Hk]%elem_of_app; [|by apply Hall].
    destruct (Hd k Hk) as (w & ? & ? & ? & ? & ?). exists w. rewrite elem_of_app.
    repeat split; auto using graceOver_app.
Qed.

Lemma classifyOne_spec n cfg ws tr st w :
  classified cfg ws tr st → alwaysDone cfg ws tr →
  always anything (classifyOne n cfg w st) (λ tr' c, only_marks tr' ∧
    match c with
    | Continue st' => classified cfg (ws ++ [w]) (tr ++ tr') st' ∧ alwaysDone cfg (ws ++ [w]) (tr ++ tr')
    | Break _ => False
    | Return _ => alwaysDone cfg (ws ++ [w]) (tr ++ tr')
    end).
Proof.
  intros Hcl Hal.
  assert (∀ tr', started tr' = [] → alwaysDone cfg (ws ++ [w]) (tr ++ tr')) as Hquiet.
  { intros tr' E. apply alwaysDone_app; [done|]. rewrite E. intros k Hk. by apply elem_of_nil in Hk. }
  unfold classifyOne. destruct (st_Phase (gw_Status w)) eqn:Hph; cbn [always mret prog_ret].
  all: try (split; [done|]; split; [|by apply Hquiet]).
  all: try (apply classified_skip; [done|congruence..|intros res [? _]; congruence]).
  - rewrite app_nil_r. by apply addPending_classified.
  - destruct (st_IdleSince (gw_Status w)) as [idleSince|] eqn:His; cbn [always mret prog_ret]; cycle 1.
    { split; [done|]. split; [|by apply Hquiet]. apply classified_skip; [done|congruence..|].
      intros res (_ & [??] & _). congruence. }
    apply always_bind. intros now _. cbn [always call].
    assert (idleFor now w = time_sub now idleSince) as Eidle by (unfold idleFor; by rewrite His).
    assert (∀ tr', ev (S := GpuSig) Now now ∈ tr ++ ev (S := GpuSig) Now now :: tr') as Hnow
      by (intros; apply elem_of_app; right; by left).
    case_decide as Hgr; [|case_decide as Hpol]; cbn [always mret prog_ret app].
    + split; [done|]. split; [|by apply Hquiet]. apply classified_skip; [done|congruence..|].
      intros _ _. exists now. rewrite Eidle. auto.
    + apply always_bind. eapply always_mono; [apply mark_spec; intros; eexists _, _; apply markAlways_markFor|].
      intros tr' [err|] [Ho Hs]; cbn [always mret prog_ret].
      { rewrite app_nil_r. split; [by apply (only_marks_app [_])|]. by apply Hquiet. }
      apply always_bind. intros [] _. cbn [always mret prog_ret].
      split; [by apply (only_marks_app [_]), only_marks_app|]. split.
      * apply classified_skip; [done|congruence..|]. intros res (_ & _ & ? & _). congruence.
      * apply alwaysDone_app; [done|]. change (ev (S := GpuSig) Now now :: ?l) with ([ev (S := GpuSig) Now now] ++ l).
        rewrite !started_app, Hs. intros k ->%list_elem_of_singleton. exists w. rewrite elem_of_app, list_elem_of_singleton.
        repeat split; [by right|done..|]. exists now. rewrite Eidle. split; [apply Hnow|lia].
    + split; [done|]. split; [|by apply Hquiet]. apply addIdle_classified; [done..|].
      exists now. rewrite Eidle. split; [apply Hnow|lia].
  - rewrite app_nil_r. by apply addInFlight_classified.
Qed.

Lemma default_fmap_sort {K} `{Countable K} (m : gmap K (list workloadEntry)) less k :
  default [] ((sortSlice less <$> m) !! k) ≡ₚ default [] (m !! k).
Proof. rewrite lookup_fmap. destruct (m !! k); simpl; [apply sortSlice_perm|done]. Qed.

Lemma classifyWorkloads_marks n ws cfg : always anything (classifyWorkloads n ws cfg) (λ tr _, only_marks tr).
Proof.
  unfold classifyWorkloads. apply always_bind.
  eapply always_mono; [apply (always_for_range_closed anything only_marks (λ _, True) (λ _, True)); [done|apply only_marks_app|done|]|].
  - intros w st _ _. unfold classifyOne. destruct (st_Phase (gw_Status w)); try done.
    destruct (st_IdleSince (gw_Status w)); [|done]. apply always_bind. intros now _. cbn [always call].
    case_decide; [done|]. case_decide; [|done]. apply always_bind.
    eapply always_mono; [apply mark_spec; intros; eexists _, _; apply markAlways_markFor|].
    intros tr [err|] [Ho _]; cbn [always mret prog_ret app].
    + rewrite app_nil_r. split; [by apply (only_marks_app [_])|done].
    + apply always_bind. intros [] _. cbn [always mret prog_ret app]. split; [|done].
      by apply (only_marks_app [_]), only_marks_app.
  - intros tr [?|?] [? _]; simpl; by rewrite app_nil_r.
Qed.

(** C17: classification sorts the workloads into what matching needs. The pending
    pool of a resource holds exactly the PendingGpu workloads that ask for it,
    oldest first. The idle pool holds Idle workloads that hold it, whose policy
    is not Always and whose grace period the clock showed to be over, longest
    idle first, and leaves out only workloads still within theirs. The in-flight
    count of a name is the int64 sum over the workloads being preempted for it.
    Workloads are marked on the way only when they are Idle, have policy Always
    and their grace period is over, and only by writes that mark an idle workload
    just read. *)
Theorem classifyWorkloads_spec n ws cfg :
  always anything (classifyWorkloads n ws cfg) (λ tr r, only_marks tr ∧ alwaysDone cfg ws tr ∧
    match r with
    | inl _ => True
    | inr st => ∀ res,
        (let pending := default [] (pendingByResource st !! res) in
         pending ≡ₚ pendingEntry <$> filter (wants res) ws ∧
         StronglySorted (λ a b, gw_CreationTimestamp (we_gw a) ≤ gw_CreationTimestamp (we_gw b)) pending) ∧
        (let idle := default [] (idleByResource st !! res) in
         ∃ l, idle ≡ₚ idleEntry <$> l ∧ l `sublist_of` ws ∧
           Forall (λ w, yields cfg res w ∧ graceOver cfg tr w) l ∧
           (∀ w, w ∈ ws → yields cfg res w → w ∈ l ∨ inGrace cfg tr w) ∧
           StronglySorted (λ a b, we_idleSince a ≤ we_idleSince b) idle) ∧
        ∀ name, name ≠ "" → inFlightOf name res st = int64_wrap (freeing name res ws)
    end).
Proof.
  unfold classifyWorkloads. apply always_bind.
  eapply always_mono; [apply (always_for_range anything
    (λ rest tr st, ∃ seen, ws = seen ++ rest ∧ only_marks tr ∧ classified cfg seen tr st ∧ alwaysDone cfg seen tr)
    (λ tr st, only_marks tr ∧ classified cfg ws tr st ∧ alwaysDone cfg ws tr)
    (λ tr _, only_marks tr ∧ alwaysDone cfg ws tr)) with (tr0 := [])|].
  - intros tr st (seen & -> & ?). by rewrite app_nil_r.
  - intros w rest tr st (seen & -> & Ho & Hcl & Hal). eapply always_mono; [by apply classifyOne_spec|].
    intros tr' [st'|st'|err] [Ho' Hc]; [|done|].
    + exists (seen ++ [w]). rewrite <- app_assoc. destruct Hc. auto using only_marks_app.
    + split; [by apply only_marks_app|]. intros k Hk. destruct (Hc k Hk) as (w' & Hin & ?).
      exists w'. split; [|done]. change (w :: rest) with ([w] ++ rest). rewrite app_assoc. apply elem_of_app. by left.
  - exists []. repeat split; try done.
    + intros res. exists []. repeat split; [constructor|constructor|]. intros w Hw. by apply elem_of_nil in Hw.
    + intros k Hk. by apply elem_of_nil in Hk.
  - intros tr [st|err]; simpl; rewrite app_nil_r; [|by intros [? ?]].
    intros (Ho & [Hp Hi Hf] & Hal). split; [done|]. split; [done|]. intros res. split; [|split].
    + simpl. split; [by rewrite default_fmap_sort, Hp|]. rewrite lookup_fmap.
      destruct (pendingByResource st !! res); simpl; [apply (sort_by_key (λ e, gw_CreationTimestamp (we_gw e)))|constructor].
    + destruct (Hi res) as (l & El & ?). exists l. simpl.
      split; [by rewrite default_fmap_sort, El|]. rewrite !(and_assoc _ _ (StronglySorted _ _)).
      split; [tauto|]. rewrite lookup_fmap.
      destruct (idleByResource st !! res); simpl; [apply (sort_by_key we_idleSince)|constructor].
    + intros name Hne. by apply Hf.
Qed.

End classify.
