(* ===== verification/Lease.v ===== *)
(** The lease that serialises preemption evaluation between replicas of the
    operator, and the evaluation round that runs under it
    (internal/controller/gpuworkload_controller.go). The replicas run
    concurrently against one API server: a system of programs whose calls
    interleave, over a lease store with optimistic concurrency. *)

From stdpp Require Import gmap strings list.
From Stdlib Require Import ZArith Lia.
From S2P Require Import Prelude Float64 Types GpuResources GpuApi Preemption.

Section lease.
Context `{Host}.

Definition leaseKey : Key := mkKey getOperatorNamespace PreemptionEvalLeaseName.

(** The lease duration in nanoseconds, 0 when unset. *)
Definition leaseDuration (l : Lease) : Z :=
  match lease_LeaseDurationSeconds l with
  | Some s => int64_wrap (s * Second)
  | None => 0
  end.

(** The fields an acquisition sets; [int32(PreemptionEvalLeaseDur.Seconds())]. *)
Definition takeLease (holderID : string) (now : Z) (l : Lease) : Lease :=
  {| lease_Key := lease_Key l; lease_ResourceVersion := lease_ResourceVersion l;
     lease_HolderIdentity := Some holderID;
     lease_LeaseDurationSeconds := Some (PreemptionEvalLeaseDur `div` Second);
     lease_AcquireTime := Some now; lease_RenewTime := Some now |}.

Definition newLease : Lease :=
  {| lease_Key := leaseKey; lease_ResourceVersion := 0; lease_HolderIdentity := None;
     lease_LeaseDurationSeconds := None; lease_AcquireTime := None; lease_RenewTime := None |}.

(** Whether another holder's lease is still running; it reads the clock when it
    has a renewal time to compare with. *)
Definition heldByOther (holderID : string) (l : Lease) : M bool :=
  match lease_HolderIdentity l with
  | Some h =>
      if decide (h ≠ holderID) then
        match lease_RenewTime l with
        | Some renew =>
            now ← call (S := GpuSig) Now;
            mret (bool_decide (time_sub now renew < leaseDuration l))
        | None => mret false
        end
      else mret false
  | None => mret false
  end.

Definition tryAcquireLease (holderID : string) : M bool :=
  r ← call (S := GpuSig) (GetLease leaseKey);
  now ← call (S := GpuSig) Now;
  match r with
  | inl err =>
      if IsNotFound err then
        c ← call (S := GpuSig) (CreateLease (takeLease holderID now newLease));
        mret (match c with inl _ => false | inr _ => true end)
      else mret false
  | inr lease =>
      held ← heldByOther holderID lease;
      if (held : bool) then mret false
      else
        u ← call (S := GpuSig) (UpdateLease (takeLease holderID now lease));
        mret (match u with inl _ => false | inr _ => true end)
  end.

(** [empty := ""; lease.Spec.HolderIdentity = &empty]. *)
Definition clearHolder (l : Lease) : Lease :=
  {| lease_Key := lease_Key l; lease_ResourceVersion := lease_ResourceVersion l;
     lease_HolderIdentity := Some ""; lease_LeaseDurationSeconds := lease_LeaseDurationSeconds l;
     lease_AcquireTime := lease_AcquireTime l; lease_RenewTime := lease_RenewTime l |}.

Definition releaseLease (holderID : string) : M unit :=
  r ← call (S := GpuSig) (GetLease leaseKey);
  match r with
  | inl _ => mret ()
  | inr lease =>
      if decide (lease_HolderIdentity lease = Some holderID) then
        _ ← call (S := GpuSig) (UpdateLease (clearHolder lease));
        mret ()
      else mret ()
  end.

Context `{GoOrder} (retries : Retry).

(** What runs while the lease is held. *)
Definition evaluate (gpuCfg : KaiwoGpuPreemptionConfig) : M (option error) :=
  r ← call (S := GpuSig) ListGW;
  match r with
  | inl err => mret (Some (Wrapf "failed to list GpuWorkloads" err))
  | inr items =>
      c ← classifyWorkloads retries items gpuCfg;
      match c with
      | inl err => mret (Some err)
      | inr state => matchAndMarkVictims retries state
      end
  end.

(** The release is deferred: it runs on every way out of the evaluation. *)
Definition tryRunPreemptionEvaluation (holderID : string) (gpuCfg : KaiwoGpuPreemptionConfig) : M (option error) :=
  acquired ← tryAcquireLease holderID;
  if (acquired : bool) then
    err ← evaluate gpuCfg;
    _ ← releaseLease holderID;
    mret err
  else mret None.

End lease.

(** * The lease protocol, one replica at a time *)

Section sequential.
Context `{Host} `{GoOrder}.

(** Whether a replica that finds [l] at time [now] has to stay away. *)
Definition blocks (holderID : string) (now : Z) (l : Lease) : Prop :=
  ∃ h renew, lease_HolderIdentity l = Some h ∧ h ≠ holderID ∧ lease_RenewTime l = Some renew ∧
    time_sub now renew < leaseDuration l.

(** Events that change a lease on the server, and calls of them. *)
Definition lease_write (e : event GpuSig) : Prop :=
  match projT1 e with CreateLease _ | UpdateLease _ => True | _ => False end.

(** A server that answers reads of the lease with [l], and a clock that reads
    times in [clock]. *)
Definition lease_answers (l : Lease) (clock : Z → Prop) : contract GpuSig := λ r : gpu_req,
  match r return gpu_resp r → Prop with
  | GetLease _ => λ x, x = inr l
  | Now => clock
  | _ => λ _, True
  end.

(** A lease released by its holder still keeps every replica out, the one
    that released it included, until the duration counted from its last renewal
    is over: the cleared holder is the empty string, which the acquisition takes
    for another holder. *)
Theorem released_lease_blocks holderID l renew :
  holderID ≠ "" → lease_RenewTime l = Some renew →
  always (lease_answers (clearHolder l) (λ now, time_sub now renew < leaseDuration l))
    (tryAcquireLease holderID) (λ tr acquired, acquired = false ∧ Forall (λ e, ¬ lease_write e) tr).
Proof.
  intros Hid Hr. unfold tryAcquireLease.
  apply always_bind. intros x Hx. simpl in Hx. subst x.
  apply always_bind. intros now _. unfold heldByOther. cbn [lease_HolderIdentity clearHolder].
  apply always_bind. rewrite decide_True by congruence. cbn [lease_RenewTime clearHolder]. rewrite Hr.
  apply always_bind. intros now' Hn. cbn [always mret prog_ret].
  rewrite bool_decide_eq_true_2 by done. split; [done|]. repeat constructor; by intros [].
Qed.

(** The acquisition's attempt to write the lease it read at [now]. *)
Definition attempts (holderID : string) (clock : Z → Prop) (l : Lease) (e : event GpuSig) : Prop :=
  ∃ now, clock now ∧ projT1 e = UpdateLease (takeLease holderID now l).
Definition refused (e : event GpuSig) : Prop := ∃ l err, e = ev (S := GpuSig) (UpdateLease l) (inl err).

(** What an acquisition with the lease [l] on the server does. *)
Definition acquisition (holderID : string) (clock : Z → Prop) (l : Lease) (tr : trace GpuSig) (acquired : bool) : Prop :=
  if acquired
  then (∃ now, clock now ∧ ¬ blocks holderID now l) ∧ Exists (λ e, attempts holderID clock l e ∧ ¬ refused e) tr
  else (∃ now, clock now ∧ blocks holderID now l) ∧ Forall (λ e, ¬ lease_write e) tr ∨
       Exists (λ e, attempts holderID clock l e ∧ refused e) tr.

Lemma acquire_update holderID clock l now tr :
  clock now → (∃ now', clock now' ∧ ¬ blocks holderID now' l) →
  always (lease_answers l clock)
    (u ← call (S := GpuSig) (UpdateLease (takeLease holderID now l)); mret (match u with inl _ => false | inr _ => true end))
    (λ tr' acquired, acquisition holderID clock l (tr ++ tr') acquired).
Proof.
  intros Hnow Hfree. apply always_bind. intros u _. cbn [always mret prog_ret app].
  destruct u as [err|l']; simpl.
  - right. apply Exists_app. right. constructor. split; [by exists now|by eexists _, _].
  - split; [done|]. apply Exists_app. right. constructor. split; [by exists now|].
    intros (l2 & err & E). apply (f_equal (λ e : event GpuSig, match e with
      | existT (UpdateLease _) x => match x with inl _ => true | inr _ => false end | _ => false end)) in E. done.
Qed.

(** With the lease [l] on the server, an acquisition stays away without
    writing when another holder's lease is running, and otherwise writes itself
    as the holder into exactly the version it read; it succeeds when the server
    takes that write. *)
Theorem tryAcquireLease_spec holderID l clock :
  always (lease_answers l clock) (tryAcquireLease holderID) (acquisition holderID clock l).
Proof.
  unfold tryAcquireLease. apply always_bind. intros x Hx. simpl in Hx. subst x.
  apply always_bind. intros now Hnow. apply always_bind. unfold heldByOther.
  assert (lease_HolderIdentity l = None ∨ lease_HolderIdentity l = Some holderID ∨ lease_RenewTime l = None →
    ∃ now', clock now' ∧ ¬ blocks holderID now' l) as Hfree.
  { intros Hl. exists now. split; [done|]. intros (? & ? & ? & ? & ? & ?). destruct Hl as [?|[?|?]]; congruence. }
  destruct (lease_HolderIdentity l) as [h|] eqn:Hh; [case_decide as Hne; [destruct (lease_RenewTime l) as [rt|] eqn:Hrt|]|].
  2,3,4: apply (acquire_update _ _ _ _ [_; _]); [done|apply Hfree; tauto || (right; left; congruence)].
  apply always_bind. intros now' Hnow'. cbn [always mret prog_ret]. case_bool_decide as Hb.
  - cbn [always mret prog_ret]. left. split; [exists now'; split; [done|]; by exists h, rt|].
    repeat constructor; by intros [].
  - apply (acquire_update _ _ _ _ [_; _; _]); [done|]. exists now'. split; [done|].
    intros (h' & rt' & ? & ? & ? & ?). congruence.
Qed.

End sequential.

(** * Replicas running against one server *)

(** The server's side: the lease store and its revision counter, and the clock. *)
Record world := { w_lease : option Lease; w_revision : Z; w_clock : Z }.

Definition set_version (v : Z) (l : Lease) : Lease :=
  {| lease_Key := lease_Key l; lease_ResourceVersion := v; lease_HolderIdentity := lease_HolderIdentity l;
     lease_LeaseDurationSeconds := lease_LeaseDurationSeconds l; lease_AcquireTime := lease_AcquireTime l;
     lease_RenewTime := lease_RenewTime l |}.

(** Storing a lease gives it a version never used before. *)
Definition store (l : Lease) (w : world) : world :=
  {| w_lease := Some (set_version (w_revision w + 1) l); w_revision := w_revision w + 1; w_clock := w_clock w |}.

(** [serve w r x w']: the server answers [r] with [x]. A read may fail, but only
    an absent lease is reported as not found. A write may fail with or without
    having taken effect; a create takes effect only on an absent lease and an
    update only on the version it carries. *)
Definition serve (w : world) (r : gpu_req) : gpu_resp r → world → Prop :=
  match r return gpu_resp r → world → Prop with
  | GetLease _ => λ x w', w' = w ∧
      match x with
      | inr l => w_lease w = Some l
      | inl err => IsNotFound err = true → w_lease w = None
      end
  | CreateLease l => λ x w',
      (w' = w ∧ ∃ err, x = inl err) ∨
      (w_lease w = None ∧ w' = store l w)
  | UpdateLease l => λ x w',
      (w' = w ∧ ∃ err, x = inl err) ∨
      (∃ cur, w_lease w = Some cur ∧ lease_ResourceVersion cur = lease_ResourceVersion l ∧ w' = store l w)
  | Now => λ x w', w' = w ∧ x = w_clock w
  | _ => λ _ w', w' = w
  end.

(** A replica: the rest of its current round, and the calls it made so far. *)
Record replica := { rep_prog : M (option error); rep_past : trace GpuSig }.

Record system := { s_world : world; s_replicas : string → replica }.

Definition set_replica (i : string) (r : replica) (f : string → replica) : string → replica :=
  λ j, if decide (j = i) then r else f j.

Section system.
Context `{Host} `{GoOrder} (retries : Retry) (cfg : KaiwoGpuPreemptionConfig).

(** Time passes, a replica makes its next call, or one that is done starts
    another evaluation. *)
Inductive step : system → system → Prop :=
| step_tick w rs t : w_clock w ≤ t →
    step {| s_world := w; s_replicas := rs |}
         {| s_world := {| w_lease := w_lease w; w_revision := w_revision w; w_clock := t |}; s_replicas := rs |}
| step_call w w' rs i r k x : rep_prog (rs i) = Call r k → serve w r x w' →
    step {| s_world := w; s_replicas := rs |}
         {| s_world := w'; s_replicas := set_replica i
              {| rep_prog := k x; rep_past := rep_past (rs i) ++ [ev (S := GpuSig) r x] |} rs |}
| step_start w rs i a : rep_prog (rs i) = Ret a →
    step {| s_world := w; s_replicas := rs |}
         {| s_world := w; s_replicas := set_replica i
              {| rep_prog := tryRunPreemptionEvaluation retries i cfg; rep_past := [] |} rs |}.

(** At the start every replica is at rest. *)
Definition init (s : system) : Prop :=
  (∀ i, rep_past (s_replicas s i) = [] ∧ ∃ a, rep_prog (s_replicas s i) = Ret a) ∧
  ∀ l, w_lease (s_world s) = Some l → lease_ResourceVersion l ≤ w_revision (s_world s).

(** ** What a replica's lease writes rest on *)

Definition saw (pre : trace GpuSig) (l : Lease) : Prop := ∃ k, ev (S := GpuSig) (GetLease k) (inr l) ∈ pre.

Definition lawful (i : string) (pre : trace GpuSig) (e : event GpuSig) : Prop :=
  match projT1 e with
  | UpdateLease l' => ∃ l, saw pre l ∧ lease_ResourceVersion l' = lease_ResourceVersion l ∧
      ((lease_HolderIdentity l' = Some i ∧
        ∀ h renew, lease_HolderIdentity l = Some h → h ≠ i → lease_RenewTime l = Some renew →
          ∃ now, ev (S := GpuSig) Now now ∈ pre ∧ leaseDuration l ≤ time_sub now renew) ∨
       (lease_HolderIdentity l' = Some "" ∧ lease_HolderIdentity l = Some i))
  | _ => True
  end.

Lemma lawful_mono i pre pre' e : (∀ x, x ∈ pre → x ∈ pre') → lawful i pre e → lawful i pre' e.
Proof.
  intros Hsub. unfold lawful, saw. destruct (projT1 e); try done.
  intros (l' & [k Hk] & Hv & Hc). exists l'. split; [eauto|]. split; [done|].
  destruct Hc as [[? Hc]|?]; [left|by right]. split; [done|]. intros h rt ? ? ?.
  destruct (Hc h rt) as (now & ? & ?); eauto.
Qed.

Lemma lawful_later i pre tr : justified (lawful i) [] tr → justified (lawful i) pre tr.
Proof. apply justified_mono. intros e tr'. apply lawful_mono. intros x. simpl. rewrite elem_of_app. auto. Qed.

(** An acquisition's write is lawful once it has seen the lease free for it. *)
Lemma acquire_update_lawful i l now pre :
  saw pre l → justified (lawful i) [] pre →
  (∀ h renew, lease_HolderIdentity l = Some h → h ≠ i → lease_RenewTime l = Some renew →
     ∃ now, ev (S := GpuSig) Now now ∈ pre ∧ leaseDuration l ≤ time_sub now renew) →
  always anything
    (u ← call (S := GpuSig) (UpdateLease (takeLease i now l)); mret (match u with inl _ => false | inr _ => true end))
    (λ tr' _, justified (lawful i) [] (pre ++ tr')).
Proof.
  intros Hsaw Hpre Hfree. apply always_bind. intros u _. cbn [always mret prog_ret app].
  apply justified_app. split; [done|]. split; [|done].
  exists l. split; [done|]. split; [done|]. by left.
Qed.

Lemma acquire_lawful i : always anything (tryAcquireLease i) (λ tr _, justified (lawful i) [] tr).
Proof.
  unfold tryAcquireLease. apply always_bind. intros x _. apply always_bind. intros now _.
  destruct x as [err|l].
  - destruct (IsNotFound err); [|done]. apply always_bind. intros c _. cbn. tauto.
  - apply always_bind. unfold heldByOther.
    destruct (lease_HolderIdentity l) as [h|] eqn:Hh; [case_decide as Hne; [destruct (lease_RenewTime l) as [rt|] eqn:Hrt|]|].
    2,3,4: apply (acquire_update_lawful _ _ _ [_; _]); [eexists; by left| |intros; congruence]; repeat split.
    apply always_bind. intros now' _. cbn [always mret prog_ret]. case_bool_decide; [done|].
    apply (acquire_update_lawful _ _ _ [_; _; _]); [eexists; by left|repeat split|].
    intros h' rt' ? ? ?. exists now'. split; [do 2 right; by left|]. simplify_eq. lia.
Qed.

Lemma release_lawful i : always anything (releaseLease i) (λ tr _, justified (lawful i) [] tr).
Proof.
  unfold releaseLease. apply always_bind. intros [err|l] _; [done|].
  cbn. case_decide; [|cbn; tauto]. intros u _. cbn. split; [done|]. split; [|done].
  exists l. split; [eexists; by left|]. split; [done|]. by right.
Qed.

(** Marks are not lease writes. *)
Lemma only_marks_lawful i tr : only_marks tr → justified (lawful i) [] tr.
Proof.
  intros Ho. apply justified_all. intros pre e He. unfold lawful.
  destruct (projT1 e) eqn:Hr; try done. apply list_elem_of_lookup in He as [n He].
  destruct (guarded_lookup _ _ _ _ _ Ho He) as (m & p & _ & _ & k & f & fo & re & _ & _ & E).
  - unfold is_write. by rewrite Hr.
  - congruence.
Qed.

Lemma evaluate_marks : always anything (evaluate retries cfg) (λ tr _, only_marks tr).
Proof.
  unfold evaluate. apply always_bind. intros [err|items] _; [done|]. apply always_bind.
  eapply always_mono; [apply classifyWorkloads_marks|]. intros tr [err|st] Ho; cbn [always mret prog_ret].
  - rewrite app_nil_r. by apply (only_marks_app [_]).
  - eapply always_mono; [apply matchAndMarkVictims_marks|]. intros tr' r Ho'.
    by apply (only_marks_app [_]), only_marks_app.
Qed.

Lemma round_lawful i : always anything (tryRunPreemptionEvaluation retries i cfg) (λ tr _, justified (lawful i) [] tr).
Proof.
  unfold tryRunPreemptionEvaluation. apply always_bind. eapply always_mono; [apply acquire_lawful|].
  intros tr [|] Htr; [|simpl; by rewrite app_nil_r].
  apply always_bind. eapply always_mono; [apply evaluate_marks|]. intros tr' err Hm.
  apply always_bind. eapply always_mono; [apply release_lawful|]. intros tr'' [] Hr. cbn [always mret prog_ret].
  rewrite app_nil_r. apply justified_app. split; [done|]. apply justified_app.
  split; apply lawful_later; [by apply only_marks_lawful|done].
Qed.

(** ** The invariant *)

Lemma gpu_resp_inhabited (r : req GpuSig) : inhabited (resp GpuSig r).
Proof. destruct r; simpl; constructor; try exact (inl NoMatchError); try exact None; [exact 0|exact ()]. Qed.

(** What a replica has learned is still true of the server: versions only grow,
    and a version it saw stands for the lease it saw. *)
Definition learned (w : world) (e : event GpuSig) : Prop :=
  match e with
  | existT r x =>
      match r return gpu_resp r → Prop with
      | GetLease _ => λ x, match x with
          | inr l => lease_ResourceVersion l ≤ w_revision w ∧
              ∀ cur, w_lease w = Some cur → lease_ResourceVersion cur = lease_ResourceVersion l → cur = l
          | inl _ => True
          end
      | Now => λ now, now ≤ w_clock w
      | _ => λ _, True
      end x
  end.

Record inv (s : system) : Prop := {
  inv_rev l : w_lease (s_world s) = Some l → lease_ResourceVersion l ≤ w_revision (s_world s);
  inv_next i : always anything (rep_prog (s_replicas s i))
    (λ tr _, justified (lawful i) (rep_past (s_replicas s i)) tr);
  inv_learned i : Forall (learned (s_world s)) (rep_past (s_replicas s i))
}.

Lemma learned_store w l e : learned w e → learned (store l w) e.
Proof.
  destruct e as [r x]. unfold learned. destruct r; try done. destruct x as [|l']; [done|].
  intros [Hv Hc]. simpl. split; [lia|]. intros cur [= <-] Ev. simpl in Ev. lia.
Qed.

(** A call only ever moves the store forward. *)
Lemma serve_world w r x w' : serve w r x w' → w' = w ∨ ∃ l, w' = store l w.
Proof. unfold serve. destruct r; simpl; try tauto; [|]; intros [[? _]|Hs]; [by left| |by left|]; right; [destruct Hs|destruct Hs as (? & ? & ? & ?)]; eauto. Qed.

Lemma serve_learned w r x w' e : serve w r x w' → learned w e → learned w' e.
Proof. intros [->|[l ->]]%serve_world; [done|apply learned_store]. Qed.

Lemma serve_learns w r x w' : 
  (∀ l, w_lease w = Some l → lease_ResourceVersion l ≤ w_revision w) → serve w r x w' → learned w' (ev (S := GpuSig) r x).
Proof.
  intros Hrev. unfold serve, learned. destruct r; try done; simpl.
  - intros [-> Hx]. destruct x as [|l]; [done|]. split; [by apply Hrev|]. intros. congruence.
  - intros [-> ->]. done.
Qed.

Lemma inv_init s : init s → inv s.
Proof.
  intros [Hrest Hrev]. split; [done| |]; intros i; destruct (Hrest i) as [Hp [a Ha]]; [by rewrite Ha|].
  rewrite Hp. constructor.
Qed.

Lemma inv_step s s' : inv s → step s s' → inv s'.
Proof.
  intros [Hrev Hnext Hlearn] Hstep. destruct Hstep as [w rs t Ht|w w' rs i r k x Hp Hs|w rs i a Hp]; simpl in *.
  - split; simpl; [done|done|]. intros i. eapply Forall_impl; [apply Hlearn|].
    intros [r x]. unfold learned. destruct r; try done. simpl. intros. lia.
  - split; simpl.
    + destruct (serve_world _ _ _ _ Hs) as [->|[l ->]]; [done|]. by intros ? [= <-].
    + intros j. unfold set_replica. case_decide as Hj; [subst j|apply Hnext]. simpl.
      specialize (Hnext i). rewrite Hp in Hnext. simpl in Hnext.
      eapply always_mono; [by apply Hnext|]. simpl. by intros tr a [_ ?].
    + intros j. assert (∀ j, Forall (learned w') (rep_past (rs j))) as Hold.
      { intros j'. eapply Forall_impl; [apply Hlearn|]. intros e. by eapply serve_learned. }
      unfold set_replica. case_decide; [|apply Hold]. simpl.
      apply Forall_app. split; [apply Hold|]. repeat constructor. by eapply serve_learns.
  - split; simpl; [done| |]; intros j; unfold set_replica; (case_decide; [subst j|by auto]); simpl; [|constructor].
    apply round_lawful.
Qed.

Lemma inv_reachable s0 s : init s0 → rtc step s0 s → inv s.
Proof. intros Hi Hr. apply inv_init in Hi. induction Hr; eauto using inv_step. Qed.

Lemma time_sub_mono t t' u : t ≤ t' → time_sub t u ≤ time_sub t' u.
Proof. unfold time_sub. lia. Qed.

(** The next call of a replica is lawful. *)
Lemma inv_call_lawful s i (r : req GpuSig) (k : resp GpuSig r → M (option error)) (x : resp GpuSig r) :
  inv s → rep_prog (s_replicas s i) = Call r k → lawful i (rep_past (s_replicas s i)) (ev (S := GpuSig) r x).
Proof.
  intros [_ Hnext _] Hp. specialize (Hnext i). rewrite Hp in Hnext. simpl in Hnext.
  apply (always_const (k x)); [apply gpu_resp_inhabited|].
  eapply always_mono; [by apply Hnext|]. by intros tr a [? _].
Qed.

(** C1: however many replicas of the operator evaluate preemption concurrently,
    and however their calls interleave, a running lease is never taken from its
    holder: as long as it has not expired, a step leaves the lease in place, or
    renews it for the same holder, or is the holder's own release. *)
Theorem lease_exclusive s0 s s' l h renew :
  init s0 → rtc step s0 s → step s s' →
  w_lease (s_world s) = Some l → lease_HolderIdentity l = Some h → h ≠ "" → lease_RenewTime l = Some renew →
  time_sub (w_clock (s_world s)) renew < leaseDuration l →
  ∃ l', w_lease (s_world s') = Some l' ∧
    (lease_HolderIdentity l' = Some h ∨
     lease_HolderIdentity l' = Some "" ∧ ∃ lw k, rep_prog (s_replicas s h) = Call (S := GpuSig) (UpdateLease lw) k).
Proof.
  intros Hinit Hreach Hstep Hl Hh Hne Hrt Hrun. pose proof (inv_reachable _ _ Hinit Hreach) as Hinv.
  destruct Hstep as [w rs t Ht|w w' rs i r k x Hp Hs|w rs i a Hp]; simpl in *; [by eauto| |by eauto].
  destruct r; simpl in Hs; try (subst w'; by eauto); try (destruct Hs as [-> _]; by eauto).
  - destruct Hs as [[-> _]|[? _]]; [by eauto|congruence].
  - destruct Hs as [[-> _]|(cur & Hcur & Hv & ->)]; [by eauto|].
    assert (cur = l) as -> by congruence. simpl. eexists; split; [done|]. simpl.
    pose proof (inv_call_lawful _ _ _ _ x Hinv Hp) as (seen & [key Hsaw] & Hv' & Hlaw). simpl in *.
    pose proof (inv_learned _ Hinv i) as Hlearn. rewrite Forall_forall in Hlearn. simpl in Hlearn.
    destruct (Hlearn _ Hsaw) as [_ Heq]. assert (l = seen) as -> by (apply Heq; [done|congruence]).
    destruct Hlaw as [[-> Htake]|[-> Hown]]; [left|right; split; [done|]; simplify_eq; eauto].
    destruct (decide (h = i)) as [->|Hhi]; [done|].
    destruct (Htake h renew) as (now & Hnow & Hexp); [congruence..|].
    specialize (Hlearn _ Hnow). simpl in Hlearn. pose proof (time_sub_mono _ _ renew Hlearn). lia.
Qed.

Lemma always_self {A} (p : M A) : always anything p (λ tr a, exec anything p tr a).
Proof. by apply always_exec. Qed.

(** An evaluation round first tries to get the lease. Without it nothing else
    is called. With it, the evaluation writes nothing but marks on workloads it
    has just read as Idle, and the lease is released on every way out, errors
    included. *)
Theorem tryRunPreemptionEvaluation_under_lease i :
  always anything (tryRunPreemptionEvaluation retries i cfg) (λ tr err,
    (exec anything (tryAcquireLease i) tr false ∧ err = None) ∨
    ∃ acq body rel, tr = acq ++ body ++ rel ∧ exec anything (tryAcquireLease i) acq true ∧
      only_marks body ∧ exec anything (evaluate retries cfg) body err ∧ exec anything (releaseLease i) rel ()).
Proof.
  unfold tryRunPreemptionEvaluation. apply always_bind. eapply always_mono; [apply always_self|].
  intros tr [|] Htr; [|simpl; rewrite app_nil_r; by left].
  apply always_bind. apply always_exec. intros tr' err Hev.
  apply always_bind. eapply always_mono; [apply always_self|]. intros tr'' [] Hr. cbn [always mret prog_ret].
  right. exists tr, tr', tr''. rewrite app_nil_r. repeat split; [done| |done|done].
  by apply (exec_always _ _ _ _ Hev _ evaluate_marks).
Qed.

(** Taking and giving up the lease touches nothing but the lease. *)
Definition touches_workloads (e : event GpuSig) : Prop := is_write e ∧ ¬ lease_write e.

(** Closes a goal that no event of a listed trace touches a workload. *)
Local Ltac quiet :=
  repeat (apply Forall_cons_2; [first [by intros [[] _] | by intros [_ Hn]; apply Hn]|]); apply Forall_nil_2.

Lemma acquire_quiet i : always anything (tryAcquireLease i) (λ tr _, Forall (λ e, ¬ touches_workloads e) tr).
Proof.
  unfold tryAcquireLease. apply always_bind. intros x _. apply always_bind. intros now _.
  destruct x as [err|l].
  - destruct (IsNotFound err); [apply always_bind; intros c _|]; quiet.
  - apply always_bind. unfold heldByOther.
    assert (∀ pre, Forall (λ e, ¬ touches_workloads e) pre → always anything
      (u ← call (S := GpuSig) (UpdateLease (takeLease i now l)); mret (match u with inl _ => false | inr _ => true end))
      (λ tr' _, Forall (λ e, ¬ touches_workloads e) (pre ++ tr'))) as Hup.
    { intros pre Hpre. apply always_bind. intros u _. apply Forall_app. split; [done|]. quiet. }
    destruct (lease_HolderIdentity l); [case_decide; [destruct (lease_RenewTime l)|]|].
    2,3,4: apply (Hup [_; _]); quiet.
    apply always_bind. intros now' _. cbn [always mret prog_ret]. case_bool_decide; [quiet|].
    apply (Hup [_; _; _]); quiet.
Qed.

Lemma release_quiet i : always anything (releaseLease i) (λ tr _, Forall (λ e, ¬ touches_workloads e) tr).
Proof.
  unfold releaseLease. apply always_bind. intros [err|l] _; [quiet|].
  cbn. case_decide; cbn; [intros u _|]; quiet.
Qed.

(** A round writes to workloads only to mark one just read as Idle. *)
Lemma round_marks i :
  always anything (tryRunPreemptionEvaluation retries i cfg) (λ tr _, guarded touches_workloads marks None tr).
Proof.
  assert (∀ tr, Forall (λ e, ¬ touches_workloads e) tr → guarded touches_workloads marks None tr) as Hq.
  { intros tr Hall. generalize (@None (event GpuSig)). induction Hall; simpl; [done|]. intros. split; [done|auto]. }
  assert (∀ tr, only_marks tr → guarded touches_workloads marks None tr) as Hm.
  { intros tr. unfold only_marks. generalize (@None (event GpuSig)).
    induction tr as [|e tr IH]; simpl; [done|]. intros prev [He Htr]. split; [|by apply IH].
    intros [Hw _]. by apply He. }
  unfold tryRunPreemptionEvaluation. apply always_bind. eapply always_mono; [apply acquire_quiet|].
  intros tr [|] Htr; [|simpl; rewrite app_nil_r; by apply Hq].
  apply always_bind. eapply always_mono; [apply evaluate_marks|]. intros tr' err Hev.
  apply always_bind. eapply always_mono; [apply release_quiet|]. intros tr'' [] Hr. cbn [always mret prog_ret].
  rewrite app_nil_r. repeat apply guarded_app; auto.
Qed.

End system.
