(* ===== verification/Reconcile.v ===== *)
(** The reconcile loop of the GpuWorkload controller and the event handlers that
    create GpuWorkloads (internal/controller/gpuworkload_controller.go). *)

From stdpp Require Import gmap strings list.
From Stdlib Require Import ZArith Lia.
From S2P Require Import Prelude History Float64 Types GpuResources GpuApi Resolver Phase Preemption Lease.

Section reconcile.
Context `{Host} `{GoOrder} (retries : Retry) (holderID : string).

Definition reconciled : Type := Result * option error.

(** What a failed status update leads to: a conflict is retried. *)
Definition afterUpdateError (err : error) : reconciled :=
  if IsConflict err then (requeue, None) else (done_, Some err).

Definition refPath (gw : GpuWorkload) : string :=
  ref_Kind (spec_WorkloadRef (gw_Spec gw)) +:+ "/" +:+ ref_Name (spec_WorkloadRef (gw_Spec gw)).

(** The fields a workload loses when it is finished. *)
Definition clearLive (s : GpuWorkloadStatus) : GpuWorkloadStatus :=
  set_TrackedPods [] (set_AggregatedUtilization None (set_IdleSince None s)).

Definition revertIdle (s : GpuWorkloadStatus) : GpuWorkloadStatus :=
  set_PreemptionReason "" (set_PreemptedFor "" (set_Phase PhaseIdle s)).

Definition markPreempted (now : Z) (s : GpuWorkloadStatus) : GpuWorkloadStatus :=
  clearLive (set_FinishedAt (Some now) (set_Preempted (Some now) (set_Phase PhasePreempted s))).

Definition markDeleted (now : Z) (s : GpuWorkloadStatus) : GpuWorkloadStatus :=
  clearLive (set_FinishedAt (Some now) (set_Phase PhaseDeleted s)).

(** The part of [handlePreempting] after the workload is gone. *)
Definition finishPreempting (gw : GpuWorkload) : M reconciled :=
  now ← call (S := GpuSig) Now;
  let gw' := with_status (markPreempted now) gw in
  _ ← call (S := GpuSig) (Emit (gw_key gw) EventTypeWarning "WorkloadPreempted"
        (refPath gw +:+ " was deleted to free GPU resources; reason: " +:+ st_PreemptionReason (gw_Status gw')));
  u ← call (S := GpuSig) (StatusUpdateGW gw');
  match u with
  | inl err => mret (afterUpdateError err)
  | inr _ => mret (requeueAfter IdleRequeueInterval, None)
  end.

Definition handlePreempting (gw : GpuWorkload) : M reconciled :=
  d ← deleteWorkload gw;
  match d with
  | None => finishPreempting gw
  | Some err =>
      if IsForbidden err then
        _ ← call (S := GpuSig) (Emit (gw_key gw) EventTypeWarning "PreemptionFailed"
              ("Cannot delete " +:+ refPath gw +:+ ": the operator lacks RBAC delete permission for "
               +:+ ref_Kind (spec_WorkloadRef (gw_Spec gw)) +:+ " resources"));
        u ← call (S := GpuSig) (StatusUpdateGW (with_status revertIdle gw));
        match u with
        | inl err => mret (afterUpdateError err)
        | inr _ => mret (requeueAfter IdleRequeueInterval, None)
        end
      else if IsNotFound err then finishPreempting gw
      else mret (done_, Some err)
  end.

Definition handleTerminal (gw : GpuWorkload) (gpuCfg : KaiwoGpuPreemptionConfig) : M reconciled :=
  let ttl := getTTL gw gpuCfg in
  if decide (ttl = 0) then mret (done_, None)
  else
    match st_FinishedAt (gw_Status gw) with
    | None => mret (done_, None)
    | Some finishedAt =>
        now ← call (S := GpuSig) Now;
        let elapsed := time_sub now finishedAt in
        if decide (ttl ≤ elapsed) then
          d ← call (S := GpuSig) (DeleteGW gw);
          match d with
          | Some err => mret (done_, IgnoreNotFound err)
          | None => mret (done_, None)
          end
        else mret (requeueAfter (int64_wrap (ttl - elapsed)), None)
    end.

(** The loop that keeps the pods owned by the workload. *)
Fixpoint ownedPods (pods : list Pod) (gw : GpuWorkload) : M (list Pod) :=
  match pods with
  | [] => mret []
  | p :: ps =>
      b ← isPodOwnedByWorkload p gw;
      rest ← ownedPods ps gw;
      mret (if (b : bool) then p :: rest else rest)
  end.

(** What [syncOwnedPods] returns: an error, a request to retry, or the pods; and
    the workload, which it may have rewritten and read again. *)
Inductive synced := SyncError (e : error) | SyncRequeue | SyncPods (gw : GpuWorkload) (pods : list Pod).

Definition syncOwnedPods (req : Key) (gw : GpuWorkload) : M synced :=
  l ← call (S := GpuSig) (ListPods (gw_Namespace gw));
  match l with
  | inl err => mret (SyncError err)
  | inr items =>
      owned ← ownedPods items gw;
      match owned with
      | [] => mret (SyncPods gw owned)
      | _ =>
          let totalGpu := computeTotalGpuResources owned in
          if gpuResourcesEqual (spec_GpuResources (gw_Spec gw)) totalGpu then mret (SyncPods gw owned)
          else
            u ← call (S := GpuSig) (UpdateGW (with_spec (set_GpuResources totalGpu) gw));
            match u with
            | inl err => if IsConflict err then mret SyncRequeue else mret (SyncError err)
            | inr gw' =>
                g ← call (S := GpuSig) (GetGW req);
                match g with
                | inl err =>
                    match IgnoreNotFound err with
                    | Some err => mret (SyncError err)
                    | None => mret (SyncPods gw' [])
                    end
                | inr gw'' => mret (SyncPods gw'' owned)
                end
            end
      end
  end.

Definition emitPhaseTransitionEvent (gw : GpuWorkload) (newPhase : GpuWorkloadPhase) : M unit :=
  let emit t reason message := call (S := GpuSig) (Emit (gw_key gw) t reason message) in
  let utilization := st_AggregatedUtilization (gw_Status gw) in
  match newPhase with
  | PhaseIdle => emit EventTypeNormal "WorkloadIdle"
      match utilization with
      | Some u => "GPU utilization dropped to " +:+ FormatFloat1 u +:+ "%, workload is now considered idle"
      | None => "GPU utilization is below threshold, workload is now considered idle"
      end
  | PhaseActive => emit EventTypeNormal "WorkloadActive"
      match utilization with
      | Some u => "GPU utilization is " +:+ FormatFloat1 u +:+ "%, workload is actively using GPUs"
      | None => "Workload is actively using GPUs"
      end
  | PhasePendingGpu => emit EventTypeWarning "WorkloadPendingGpu"
      "Pods cannot be scheduled due to insufficient GPU resources"
  | PhasePendingOther => emit EventTypeNormal "WorkloadPending"
      "Waiting for pods to become ready (image pull, volume binding, init containers, etc.)"
  | PhasePreempting => emit EventTypeWarning "PreemptionStarted"
      ("Preemption initiated: " +:+ st_PreemptionReason (gw_Status gw))
  | PhasePreempted => emit EventTypeWarning "WorkloadPreempted"
      ("Workload " +:+ refPath gw +:+ " was preempted" +:+
       (if decide (st_PreemptedFor (gw_Status gw) ≠ "")
        then " to free GPUs for " +:+ st_PreemptedFor (gw_Status gw) else ""))
  | PhaseDeleted => emit EventTypeNormal "WorkloadDeleted"
      ("Underlying " +:+ refPath gw +:+ " no longer exists")
  | PhaseUnset => mret ()
  end.

(** [workloadByOwnerUID] and [workloadByPodUID]: a later Kueue workload with the
    same owner replaces an earlier one. *)
Definition indexWorkloads (keep : OwnerReference → bool) (wls : list KueueWorkload) : gmap string KueueWorkload :=
  foldl (λ m wl, foldl (λ m owner, if keep owner then <[or_UID owner := wl]> m else m) m (wl_OwnerReferences wl)) ∅ wls.

Definition existingMetrics (tps : list TrackedPod) : gmap string (list GpuMetric) :=
  foldl (λ m tp, match tp_GpuMetrics tp with [] => m | gms => <[tp_PodName tp := gms]> m end) ∅ tps.

Definition trackPods (pods : list Pod) (tps : list TrackedPod) : list TrackedPod :=
  let existing := existingMetrics tps in
  sortSlice (λ a b, Str.lt (tp_PodName a) (tp_PodName b))
    (map (λ p, {| tp_PodName := pod_Name p; tp_GpuMetrics := default [] (existing !! pod_Name p) |}) pods).

(** The idle time follows the phase: kept or started when idle, dropped when not. *)
Definition trackIdle (phase : GpuWorkloadPhase) (gw : GpuWorkload) : M GpuWorkload :=
  if decide (phase = PhaseIdle) then
    match st_IdleSince (gw_Status gw) with
    | Some _ => mret gw
    | None => now ← call (S := GpuSig) Now; mret (with_status (set_IdleSince (Some now)) gw)
    end
  else mret (with_status (set_IdleSince None) gw).

(** After the status is written: events and evaluations. *)
Definition afterPhase (gpuCfg : KaiwoGpuPreemptionConfig) (gw : GpuWorkload) (oldPhase phase : GpuWorkloadPhase)
  : M reconciled :=
  let phaseChanged := bool_decide (oldPhase ≠ phase) in
  _ ← (if phaseChanged then emitPhaseTransitionEvent gw phase else mret ());
  e1 ← (if phaseChanged && bool_decide (phase = PhaseIdle ∨ phase = PhasePendingGpu ∨ phase = PhaseActive)
        then tryRunPreemptionEvaluation retries holderID gpuCfg else mret None);
  match e1 with
  | Some err => mret (done_, Some err)
  | None =>
      if decide (phase = PhaseIdle) then
        e2 ← tryRunPreemptionEvaluation retries holderID gpuCfg;
        match e2 with
        | Some err => mret (done_, Some err)
        | None => mret (requeueAfter IdleRequeueInterval, None)
        end
      else mret (done_, None)
  end.

(** The workload's owner is gone. *)
Definition finishDeleted (gw : GpuWorkload) : M reconciled :=
  now ← call (S := GpuSig) Now;
  u ← call (S := GpuSig) (StatusUpdateGW (with_status (markDeleted now) gw));
  match u with
  | inl err => mret (afterUpdateError err)
  | inr gw' =>
      _ ← call (S := GpuSig) (Emit (gw_key gw') EventTypeNormal "WorkloadDeleted"
            ("Underlying " +:+ refPath gw' +:+ " no longer exists; tracking will be retained until TTL expires"));
      mret (requeueAfter IdleRequeueInterval, None)
  end.

(** The rest of a reconcile once the pods are known. *)
Definition updatePhase (req : Key) (gpuCfg : KaiwoGpuPreemptionConfig) (gw : GpuWorkload) (pods : list Pod)
  : M reconciled :=
  l ← call (S := GpuSig) (ListKueueWorkloads (key_namespace req));
  match l with
  | inl err => mret (done_, Some err)
  | inr wls =>
      let workloadByOwnerUID := indexWorkloads (λ _, true) wls in
      let workloadByPodUID := indexWorkloads (λ o, bool_decide (or_Kind o = "Pod")) wls in
      let gw1 := with_status (set_TrackedPods (trackPods pods (st_TrackedPods (gw_Status gw)))) gw in
      let oldPhase := st_Phase (gw_Status gw1) in
      let '(gw2, phase) := computePhase gw1 pods workloadByPodUID workloadByOwnerUID gpuCfg in
      gw3 ← trackIdle phase (with_status (set_Phase phase) gw2);
      u ← call (S := GpuSig) (StatusUpdateGW gw3);
      match u with
      | inl err => mret (afterUpdateError err)
      | inr gw4 => afterPhase gpuCfg gw4 oldPhase phase
      end
  end.

Definition Reconcile (req : Key) : M reconciled :=
  g ← call (S := GpuSig) (GetGW req);
  match g with
  | inl err => mret (done_, IgnoreNotFound err)
  | inr gw =>
      c ← call (S := GpuSig) GetConfig;
      let gpuCfg := match c with inl _ => zero_gpu_config | inr cfg => cfg end in
      match st_Phase (gw_Status gw) with
      | PhasePreempting => handlePreempting gw
      | PhasePreempted | PhaseDeleted => handleTerminal gw gpuCfg
      | _ =>
          x ← ownerExists gw;
          match x with
          | inl err => mret (done_, Some err)
          | inr false => finishDeleted gw
          | inr true =>
              s ← syncOwnedPods req gw;
              match s with
              | SyncRequeue => mret (requeue, None)
              | SyncError err => mret (done_, Some err)
              | SyncPods gw' pods => updatePhase req gpuCfg gw' pods
              end
          end
      end
  end.

(** * Creating GpuWorkloads from pods and Kueue workloads *)

Definition extractGpuResourcesFromUnstructuredOwner (obj : Unstructured) : gmap string Z :=
  let podSpecMap :=
    match NestedMap (u_Object obj) ["spec"; "template"; "spec"] with
    | Some m => Some m
    | None => NestedMap (u_Object obj) ["spec"]
    end in
  match podSpecMap with
  | None => ∅
  | Some m => match FromUnstructured m with None => ∅ | Some podSpec => extractGpuResources podSpec end
  end.

(** One round of the loop that raises recorded counts; the flag is [updated]. *)
Definition raiseCount (acc : gmap string Z * bool) (kv : string * Z) : gmap string Z * bool :=
  let '(m, updated) := acc in
  if decide (default 0 (m !! kv.1) < kv.2) then (<[kv.1 := kv.2]> m, true) else (m, updated).

Definition raiseCounts (gpuResources existing : gmap string Z) : gmap string Z * bool :=
  foldl raiseCount (existing, false) (rangeMap gpuResources).

Definition newGpuWorkload (rootResult : RootOwnerResult) (gwName : string) (gpuResources : gmap string Z)
    (annotations : gmap string string) : GpuWorkload :=
  {| gw_Name := gwName; gw_Namespace := ro_Namespace rootResult; gw_CreationTimestamp := 0; gw_ResourceVersion := 0;
     gw_Spec := parseAnnotationsIntoSpec annotations
       {| spec_WorkloadRef := ro_Ref rootResult; spec_GpuResources := gpuResources;
          spec_UtilizationThreshold := None; spec_GracePeriod := None; spec_PreemptionPolicy := None;
          spec_AggregationPolicy := None; spec_TTLAfterFinished := None |};
     gw_Status := zero_status |}.

Definition upsertGpuWorkloadForPreemption (rootResult : RootOwnerResult) (rootObj : Unstructured)
    (gpuResources : gmap string Z) (namespace : string) : M (list Key) :=
  n ← call (S := GpuSig) (GetNamespace namespace);
  let nsAnnotations := match n with inl _ => ∅ | inr a => a end in
  let annotations := mergePreemptionAnnotations nsAnnotations (u_Annotations rootObj) in
  if negb (isGpuPreemptionAnnotated annotations) then mret []
  else
    let ref := ro_Ref rootResult in
    let gwName := GpuWorkloadName (ref_Kind ref) (ref_Name ref) (ref_UID ref) in
    let key := mkKey (ro_Namespace rootResult) gwName in
    g ← call (S := GpuSig) (GetGW key);
    match g with
    | inl err =>
        if negb (IsNotFound err) then mret []
        else
          c ← call (S := GpuSig) (CreateGW (newGpuWorkload rootResult gwName gpuResources annotations));
          match c with
          | inl _ => mret [key]
          | inr gw =>
              _ ← call (S := GpuSig) (StatusUpdateGW
                    (with_status (λ s, set_OwnerChain (ro_OwnerChain rootResult) (set_Phase PhasePendingOther s)) gw));
              mret [key]
          end
    | inr existing =>
        let '(m, updated) := raiseCounts gpuResources (spec_GpuResources (gw_Spec existing)) in
        if (updated : bool) then
          _ ← call (S := GpuSig) (UpdateGW (with_spec (set_GpuResources m) existing));
          mret [key]
        else mret [key]
    end.

(** Fetch the root owner and go on with it. *)
Definition withRootObject (rootResult : RootOwnerResult) (k : Unstructured → M (list Key)) : M (list Key) :=
  let ref := ro_Ref rootResult in
  o ← call (S := GpuSig) (GetObject (gvkFromAPIVersionKind (ref_APIVersion ref) (ref_Kind ref))
            (mkKey (ro_Namespace rootResult) (ref_Name ref)));
  match o with inl _ => mret [] | inr rootObj => k rootObj end.

Definition podToGpuWorkload (pod : Pod) : M (list Key) :=
  let gpuResources := extractGpuResources (pod_Spec pod) in
  if decide (size gpuResources = 0%nat) then mret []
  else
    r ← ResolveRootOwner (pod_Namespace pod) (pod_Name pod) "Pod" "v1";
    match r with
    | inl _ => mret []
    | inr rootResult =>
        withRootObject rootResult (λ rootObj,
          upsertGpuWorkloadForPreemption rootResult rootObj gpuResources (pod_Namespace pod))
    end.

Definition workloadToGpuWorkload (wl : KueueWorkload) : M (list Key) :=
  let ownerRef :=
    match getControllerOwnerRef (wl_OwnerReferences wl) with
    | Some ref => Some ref
    | None => head (wl_OwnerReferences wl)
    end in
  match ownerRef with
  | None => mret []
  | Some ref =>
      r ← ResolveRootOwner (wl_Namespace wl) (or_Name ref) (or_Kind ref) (or_APIVersion ref);
      match r with
      | inl _ => mret []
      | inr rootResult =>
          withRootObject rootResult (λ rootObj,
            let gpuResources := extractGpuResourcesFromUnstructuredOwner rootObj in
            if decide (size gpuResources = 0%nat) then mret []
            else upsertGpuWorkloadForPreemption rootResult rootObj gpuResources (wl_Namespace wl))
      end
  end.

End reconcile.

(** * What a reconcile may write *)

(** The object behind a workload. *)
Definition targetOf `{Host} (gw : GpuWorkload) : GroupVersionKind * Key :=
  let ref := spec_WorkloadRef (gw_Spec gw) in
  (gvkFromAPIVersionKind (ref_APIVersion ref) (ref_Kind ref), mkKey (gw_Namespace gw) (ref_Name ref)).

Definition terminal (p : GpuWorkloadPhase) : Prop := p = PhasePreempted ∨ p = PhaseDeleted.
Definition live (p : GpuWorkloadPhase) : Prop := p ≠ PhasePreempting ∧ ¬ terminal p.

(** The phases computed from pods. *)
Definition computed (p : GpuWorkloadPhase) : Prop :=
  p = PhasePendingGpu ∨ p = PhasePendingOther ∨ p = PhaseActive ∨ p = PhaseIdle.

(** The workload a reconcile works on: the answer to its first call. *)
Definition subject (req : Key) (pre : trace GpuSig) (gw : GpuWorkload) : Prop :=
  head pre = Some (ev (S := GpuSig) (GetGW req) (inr gw)).

(** A version of the workload the server has shown. *)
Definition shown (pre : trace GpuSig) (gw : GpuWorkload) : Prop :=
  (∃ k, ev (S := GpuSig) (GetGW k) (inr gw) ∈ pre) ∨ (∃ w, ev (S := GpuSig) (UpdateGW w) (inr gw) ∈ pre).

(** The configuration a reconcile goes by is the answer to its second call; one
    that cannot be read counts as all zero. *)
Definition config_read (pre : trace GpuSig) (cfg : KaiwoGpuPreemptionConfig) : Prop :=
  ∃ c, pre !! 1%nat = Some (ev (S := GpuSig) GetConfig c) ∧
    cfg = match c with inl _ => zero_gpu_config | inr cfg => cfg end.

(** What the third call, the read of the object behind a live workload, answered. *)
Definition owner_read `{Host} (pre : trace GpuSig) (gw : GpuWorkload) (ok : error + Unstructured → Prop) : Prop :=
  ∃ ans, pre !! 2%nat = Some (ev (S := GpuSig) (GetObject (targetOf gw).1 (targetOf gw).2) ans) ∧ ok ans.

(** The object is there, and is the one recorded; or it is not found, or another
    of the same name has taken its place. *)
Definition present (gw : GpuWorkload) (ans : error + Unstructured) : Prop :=
  ∃ obj, ans = inr obj ∧ u_UID obj = ref_UID (spec_WorkloadRef (gw_Spec gw)).

Definition absent (gw : GpuWorkload) (ans : error + Unstructured) : Prop :=
  match ans with
  | inl e => IsNotFound e = true
  | inr obj => u_UID obj ≠ ref_UID (spec_WorkloadRef (gw_Spec gw))
  end.

(** A pod names the object of a workload as its owner, or is that object. *)
Definition pod_names (gw : GpuWorkload) (p : Pod) : Prop :=
  let ref := spec_WorkloadRef (gw_Spec gw) in
  (ref_Kind ref = "Pod" ∧ pod_UID p = ref_UID ref) ∨ (∃ o, o ∈ pod_OwnerReferences p ∧ or_UID o = ref_UID ref).

(** Some object read on the way names an object as its owner. *)
Definition ancestor_read (pre : trace GpuSig) (uid : string) : Prop :=
  ∃ gvk k obj o, ev (S := GpuSig) (GetObject gvk k) (inr obj) ∈ pre ∧ o ∈ u_OwnerReferences obj ∧ or_UID o = uid.

(** The pods of a workload among some: all that name its object, and pods asking
    for GPUs whose owners were found to lead to it. *)
Definition pods_of `{GoOrder} (pre : trace GpuSig) (gw : GpuWorkload) (items pods : list Pod) : Prop :=
  pods `sublist_of` items ∧ (∀ p, p ∈ items → pod_names gw p → p ∈ pods) ∧
  (∀ p, p ∈ pods → pod_names gw p ∨
     (hasGpuResources (pod_Spec p) = true ∧ ancestor_read pre (ref_UID (spec_WorkloadRef (gw_Spec gw))))).

(** They are looked for among the pods listed in the namespace of the workload. *)
Definition listed_pods `{GoOrder} (pre : trace GpuSig) (gw : GpuWorkload) (pods : list Pod) : Prop :=
  ∃ items, ev (S := GpuSig) (ListPods (gw_Namespace gw)) (inr items) ∈ pre ∧ pods_of pre gw items pods.

(** The Kueue workload an index gives for a UID: the last one listed with an
    owner reference of that UID that [keep] keeps. *)
Definition indexes (keep : OwnerReference → Prop) (wls : list KueueWorkload) (m : gmap string KueueWorkload) : Prop :=
  ∀ uid, ∃ owned, m !! uid = last owned ∧ owned `sublist_of` wls ∧
    ∀ wl, wl ∈ owned ↔ wl ∈ wls ∧ ∃ o, o ∈ wl_OwnerReferences wl ∧ keep o ∧ or_UID o = uid.

(** The pods written are those found, with the metrics recorded for their names. *)
Definition tracks (old : list TrackedPod) (pods : list Pod) (tps : list TrackedPod) : Prop :=
  map tp_PodName tps ≡ₚ map pod_Name pods ∧
  ∀ tp, tp ∈ tps →
    (tp_GpuMetrics tp = [] ∧ ∀ o, o ∈ old → tp_PodName o = tp_PodName tp → tp_GpuMetrics o = []) ∨
    (∃ o, o ∈ old ∧ tp_PodName o = tp_PodName tp ∧ tp_GpuMetrics o = tp_GpuMetrics tp).

(** A write of the status from the pods: the spec, the identity, the times of the
    end and the marks of preemption stay, the pods written are those found, the
    phase and the utilization are the ones computed from them, the Kueue workloads
    and the configuration read, and the idle time is set exactly in phase Idle: to
    the one recorded, and to the clock's when none was. *)
Definition phase_write `{Host} `{GoOrder} (pre : trace GpuSig) (cfg : KaiwoGpuPreemptionConfig) (pods : list Pod) (wls : list KueueWorkload)
    (gw w : GpuWorkload) : Prop :=
  gw_key w = gw_key gw ∧ gw_Spec w = gw_Spec gw ∧ gw_ResourceVersion w = gw_ResourceVersion gw ∧
  st_FinishedAt (gw_Status w) = st_FinishedAt (gw_Status gw) ∧
  st_PreemptedFor (gw_Status w) = st_PreemptedFor (gw_Status gw) ∧
  st_PreemptionReason (gw_Status w) = st_PreemptionReason (gw_Status gw) ∧
  (computed (st_Phase (gw_Status w)) ∨ st_Phase (gw_Status w) = st_Phase (gw_Status gw)) ∧
  tracks (st_TrackedPods (gw_Status gw)) pods (st_TrackedPods (gw_Status w)) ∧
  (∃ byPod byOwner gw1, indexes (λ o, or_Kind o = "Pod") wls byPod ∧ indexes (λ _, True) wls byOwner ∧
     computePhase (with_status (set_TrackedPods (st_TrackedPods (gw_Status w))) gw) pods byPod byOwner cfg =
       (gw1, st_Phase (gw_Status w)) ∧
     st_AggregatedUtilization (gw_Status w) = st_AggregatedUtilization (gw_Status gw1)) ∧
  match st_IdleSince (gw_Status w) with
  | None => st_Phase (gw_Status w) ≠ PhaseIdle
  | Some t => st_Phase (gw_Status w) = PhaseIdle ∧
      (st_IdleSince (gw_Status gw) = Some t ∨ (st_IdleSince (gw_Status gw) = None ∧ ev (S := GpuSig) Now t ∈ pre))
  end.

(** How the deletion of the underlying object was answered. *)
Definition deletion `{Host} (pre : trace GpuSig) (gw : GpuWorkload) (ok : option error → Prop) : Prop :=
  ∃ ans, ok ans ∧ ev (S := GpuSig) (DeleteObject (targetOf gw).1 (targetOf gw).2) ans ∈ pre.

Definition gone (ans : option error) : Prop := match ans with None => True | Some e => IsNotFound e = true end.
Definition forbidden (ans : option error) : Prop := match ans with None => False | Some e => IsForbidden e = true end.

(** What accounts for a write after the calls [pre]. *)
Definition sanctioned `{Host} `{GoOrder} (req : Key) (pre : trace GpuSig) (e : event GpuSig) : Prop :=
  match projT1 e with
  | DeleteObject gvk k => ∃ gw, subject req pre gw ∧ st_Phase (gw_Status gw) = PhasePreempting ∧ (gvk, k) = targetOf gw
  | DeleteGW gw => subject req pre gw ∧ terminal (st_Phase (gw_Status gw)) ∧
      ∃ cfg finishedAt now, config_read pre cfg ∧
        st_FinishedAt (gw_Status gw) = Some finishedAt ∧ ev (S := GpuSig) Now now ∈ pre ∧
        getTTL gw cfg ≠ 0 ∧ getTTL gw cfg ≤ time_sub now finishedAt
  | UpdateGW w => ∃ gw pods, subject req pre gw ∧ live (st_Phase (gw_Status gw)) ∧ owner_read pre gw (present gw) ∧
      pods ≠ [] ∧ listed_pods pre gw pods ∧ w = with_spec (set_GpuResources (computeTotalGpuResources pods)) gw
  | StatusUpdateGW w =>
      (∃ gw, subject req pre gw ∧ st_Phase (gw_Status gw) = PhasePreempting ∧
         ((∃ now, ev (S := GpuSig) Now now ∈ pre ∧ w = with_status (markPreempted now) gw ∧ deletion pre gw gone) ∨
          (w = with_status revertIdle gw ∧ deletion pre gw forbidden))) ∨
      (∃ gw, subject req pre gw ∧ live (st_Phase (gw_Status gw)) ∧
         ((∃ now, ev (S := GpuSig) Now now ∈ pre ∧ w = with_status (markDeleted now) gw ∧ owner_read pre gw (absent gw)) ∨
          (∃ gw' cfg pods wls, owner_read pre gw (present gw) ∧ shown pre gw' ∧ config_read pre cfg ∧
             (listed_pods pre gw pods ∨ (pods = [] ∧ ∃ err, ev (S := GpuSig) (GetGW req) (inl err) ∈ pre)) ∧
             ev (S := GpuSig) (ListKueueWorkloads (key_namespace req)) (inr wls) ∈ pre ∧
             phase_write pre cfg pods wls gw' w))) ∨
      (∃ read, last pre = Some read ∧ marks read e)
  | CreateGW _ => False
  | _ => True
  end.

Section writes.
Context `{Host} `{GoOrder}.

Lemma subject_app req pre tr gw : subject req pre gw → subject req (pre ++ tr) gw.
Proof. unfold subject. destruct pre; [done|]. done. Qed.

Lemma shown_app pre tr gw : shown pre gw → shown (pre ++ tr) gw.
Proof. intros [[k ?]|[w ?]]; [left; exists k|right; exists w]; apply elem_of_app; by left. Qed.

Lemma config_read_app pre tr cfg : config_read pre cfg → config_read (pre ++ tr) cfg.
Proof. intros (c & Hc & ->). exists c. split; [by apply lookup_app_l_Some|done]. Qed.

Lemma owner_read_app pre tr gw ok : owner_read pre gw ok → owner_read (pre ++ tr) gw ok.
Proof. intros (ans & Ha & Hok). exists ans. split; [by apply lookup_app_l_Some|done]. Qed.

Lemma pods_of_mono pre pre' gw items pods :
  (∀ e, e ∈ pre → e ∈ pre') → pods_of pre gw items pods → pods_of pre' gw items pods.
Proof.
  intros Hin (? & ? & Hp). split; [done|]. split; [done|]. intros p Hpp.
  destruct (Hp p Hpp) as [?|[? (gvk & k & obj & o & ? & ? & ?)]]; [by left|right].
  split; [done|]. exists gvk, k, obj, o. auto.
Qed.

Lemma listed_pods_app pre tr gw pods : listed_pods pre gw pods → listed_pods (pre ++ tr) gw pods.
Proof.
  intros (items & Hl & Hp). exists items. split; [apply elem_of_app; by left|].
  eapply pods_of_mono; [|done]. intros e ?. apply elem_of_app. by left.
Qed.

(** Events that change no workload need nothing to account for them. *)
Lemma quiet_sanctioned req pre e : ¬ touches_workloads e → sanctioned req pre e.
Proof.
  unfold touches_workloads, is_write, lease_write, sanctioned. destruct (projT1 e); tauto.
Qed.

Lemma justified_quiet req pre tr : Forall (λ e, ¬ touches_workloads e) tr → justified (sanctioned req) pre tr.
Proof.
  intros Hall. apply justified_all. intros pre' e He. apply quiet_sanctioned.
  rewrite Forall_forall in Hall. by apply Hall.
Qed.

Lemma marks_sanctioned req pre tr : guarded touches_workloads marks None tr → justified (sanctioned req) pre tr.
Proof.
  apply guarded_justified.
  - apply quiet_sanctioned.
  - intros pre' p e _ HR. pose proof HR as (k & fresh & fo & re & _ & _ & E). unfold sanctioned. rewrite E.
    right. right. exists p. split; [apply last_snoc|done].
  - intros e. unfold touches_workloads, is_write, lease_write. destruct (projT1 e); tauto.
Qed.

Lemma handlePreempting_sanctioned req pre gw :
  subject req pre gw → st_Phase (gw_Status gw) = PhasePreempting →
  always anything (handlePreempting gw) (λ tr _, justified (sanctioned req) pre tr).
Proof.
  intros Hs Hph. unfold handlePreempting, deleteWorkload.
  assert (∀ d : option error, sanctioned req pre (ev (S := GpuSig) (DeleteObject (targetOf gw).1 (targetOf gw).2) d)) as Hd.
  { intros d. exists gw. by repeat split. }
  assert (∀ d, gone d → always anything (finishPreempting gw) (λ tr _, justified (sanctioned req) pre
    (ev (S := GpuSig) (DeleteObject (targetOf gw).1 (targetOf gw).2) d :: tr))) as Hfin.
  { intros d Hg. unfold finishPreempting. on_call now. on_call []. on_call u. destruct u; (split; [apply Hd|]); (split; [done|]); (split; [done|]);
      (split; [|done]); left; exists gw; (split; [by repeat apply subject_app|]); (split; [done|]); left; exists now;
      (split; [rewrite !elem_of_app; left; right; by left|]); (split; [done|]); exists d; (split; [done|]); rewrite !elem_of_app; do 2 left; right; by left. }
  on_call [err|]; [|by apply (Hfin None)].
  destruct (IsForbidden err) eqn:Hf; [|destruct (IsNotFound err) eqn:Hn].
  - on_call []. on_call u.
    destruct u; (split; [apply Hd|]); (split; [done|]); (split; [|done]); left; exists gw;
      (split; [by repeat apply subject_app|]); (split; [done|]); right;
      (split; [done|]); exists (Some err); (split; [done|]); rewrite !elem_of_app; left; right; by left.
  - by apply (Hfin (Some err)).
  - split; [apply Hd|done].
Qed.

Lemma handleTerminal_sanctioned req pre gw cfg :
  subject req pre gw → config_read pre cfg → terminal (st_Phase (gw_Status gw)) →
  always anything (handleTerminal gw cfg) (λ tr _, justified (sanctioned req) pre tr).
Proof.
  intros Hs Hc Hph. unfold handleTerminal. case_decide as Httl; [done|].
  destruct (st_FinishedAt (gw_Status gw)) as [t|] eqn:Ht; [|done]. on_call now.
  case_decide as Hel; [|by split]. on_call d.
  assert (sanctioned req (pre ++ [ev (S := GpuSig) Now now]) (ev (S := GpuSig) (DeleteGW gw) d)) as Hd.
  { split; [by apply subject_app|]. split; [done|]. exists cfg, t, now. rewrite elem_of_app.
    split; [by apply config_read_app|]. repeat split; try done. right. by left. }
  destruct d; exact (conj I (conj Hd I)).
Qed.

Lemma ancestor_quiet fuel ns ref seen uid :
  always anything (ancestorLoop fuel ns ref seen uid) (λ tr b,
    Forall (λ e, ¬ touches_workloads e) tr ∧ (b = true → ancestor_read tr uid)).
Proof.
  revert ref seen. induction fuel as [|fuel IH]; intros ref seen; [by split|]. cbn [ancestorLoop].
  on_call r. assert (¬ touches_workloads (ev (S := GpuSig) (GetObject (gvkFromAPIVersionKind (or_APIVersion ref) (or_Kind ref))
    (mkKey ns (or_Name ref))) r)) by by intros [[] _].
  destruct r as [err|obj]; [by repeat constructor|]. destruct (existsb _ _) eqn:Hex.
  { split; [by repeat constructor|]. intros _. apply existsb_exists in Hex as (o & Ho & Heq). apply bool_decide_eq_true in Heq.
    apply list_elem_of_In in Ho. do 3 eexists. exists o. split; [by left|done]. }
  case_match; [|by repeat constructor]. case_decide; [by repeat constructor|].
  eapply always_mono; [apply IH|]. intros tr b [Htr Hb]. split; [by constructor|]. intros Ht.
  destruct (Hb Ht) as (gvk & k & obj' & o' & ? & ?). exists gvk, k, obj', o'. split; [by right|done].
Qed.

Lemma podOwned_spec p gw :
  always anything (isPodOwnedByWorkload p gw) (λ tr b, Forall (λ e, ¬ touches_workloads e) tr ∧
    (pod_names gw p → b = true) ∧ (b = true → pod_names gw p ∨
      (hasGpuResources (pod_Spec p) = true ∧ ancestor_read tr (ref_UID (spec_WorkloadRef (gw_Spec gw)))))).
Proof.
  unfold isPodOwnedByWorkload, isAncestorOf. case_decide as Hpod; [split; [done|]; split; [done|]; intros _; by left; left|].
  destruct (existsb _ _) eqn:Hex.
  { apply existsb_exists in Hex as (o & Ho & Heq). apply bool_decide_eq_true in Heq. apply list_elem_of_In in Ho.
    split; [done|]. split; [done|]. intros _. left. right. eauto. }
  assert (¬ pod_names gw p) as Hno.
  { intros [?|(o & Ho & Heq)]; [done|]. apply not_true_iff_false in Hex. apply Hex, existsb_exists. exists o.
    by rewrite <- list_elem_of_In, bool_decide_eq_true. }
  destruct (hasGpuResources (pod_Spec p)); [|by split]. destruct (getControllerOwnerRef _); [|by split].
  eapply always_mono; [apply ancestor_quiet|]. intros tr b [Htr Hb]. split; [done|]. split; [done|]. auto.
Qed.

Lemma owned_quiet pods gw : always anything (ownedPods pods gw) (λ tr owned,
  Forall (λ e, ¬ touches_workloads e) tr ∧ pods_of tr gw pods owned).
Proof.
  induction pods as [|p ps IH].
  { split; [done|]. split; [done|]. by split; intros ? ?%elem_of_nil. }
  cbn [ownedPods]. apply always_bind. eapply always_mono; [apply podOwned_spec|]. intros tr b (Htr & Hn & Hb).
  apply always_bind. eapply always_mono; [apply IH|]. intros tr' ps' [Htr' (Hsub & Hall & Hin)]. cbn [always mret prog_ret].
  rewrite app_nil_r. split; [by apply Forall_app|]. apply (pods_of_mono (tr ++ tr')); [done|].
  assert (∀ u, ancestor_read tr u ∨ ancestor_read tr' u → ancestor_read (tr ++ tr') u) as Happ.
  { intros u [(gvk & k & obj & o & ? & ?)|(gvk & k & obj & o & ? & ?)]; exists gvk, k, obj, o;
      (split; [rewrite elem_of_app; auto|done]). }
  split; [destruct b; by constructor|]. split.
  - intros q [->|Hq]%elem_of_cons Hqn; [rewrite (Hn Hqn); by left|]. destruct b; [right|]; by apply Hall.
  - intros q Hq. assert ((b = true ∧ q = p) ∨ q ∈ ps') as [[Hbt ->]|Hq'].
    { destruct b; [apply elem_of_cons in Hq as [?|?]; auto|by right]. }
    + destruct (Hb Hbt) as [?|[? ?]]; auto.
    + destruct (Hin q Hq') as [?|[? ?]]; auto.
Qed.

(** What synchronising the pods leaves the reconcile with: a version of the
    workload the server has shown, and its pods, or none when it is gone. *)
Definition synced_pods (req : Key) (pre : trace GpuSig) (gw gw' : GpuWorkload) (pods : list Pod) : Prop :=
  shown pre gw' ∧
  (listed_pods pre gw pods ∨ (pods = [] ∧ ∃ err, ev (S := GpuSig) (GetGW req) (inl err) ∈ pre)).

Lemma sync_sanctioned req pre gw :
  subject req pre gw → live (st_Phase (gw_Status gw)) → owner_read pre gw (present gw) →
  always anything (syncOwnedPods req gw) (λ tr s, justified (sanctioned req) pre tr ∧
    match s with SyncPods gw' pods => synced_pods req (pre ++ tr) gw gw' pods | _ => True end).
Proof.
  intros Hs Hl Ho. assert (∀ tr, shown (pre ++ tr) gw) as Hsh.
  { intros tr. apply shown_app. left. exists req. unfold subject in Hs. destruct pre; [done|]. simpl in Hs.
    injection Hs as ->. by left. }
  unfold syncOwnedPods. on_call [err|items]; [by repeat split|].
  apply always_bind. eapply always_mono; [apply owned_quiet|]. intros tr owned [Htr Hown].
  set (l := ev (S := GpuSig) (ListPods (gw_Namespace gw)) (inr items)).
  assert (listed_pods (pre ++ l :: tr) gw owned) as Hpods.
  { exists items. split; [rewrite elem_of_app, elem_of_cons; auto|].
    eapply pods_of_mono; [|exact Hown]. intros e ?. rewrite elem_of_app, elem_of_cons. auto. }
  assert (justified (sanctioned req) pre (l :: tr)) as Hpre by (split; [done|by apply justified_quiet]).
  assert (∀ w, justified (sanctioned req) pre (l :: (tr ++ w)) ↔ justified (sanctioned req) (pre ++ l :: tr) w) as Happ.
  { intros w. change (?a :: tr ++ w) with ((a :: tr) ++ w). rewrite justified_app. tauto. }
  assert (owned = [] ∨ gpuResourcesEqual (spec_GpuResources (gw_Spec gw)) (computeTotalGpuResources owned) = true →
    always anything (mret (SyncPods gw owned)) (λ w s, justified (sanctioned req) pre (l :: tr ++ w) ∧
      match s with SyncPods gw' pods => synced_pods req (pre ++ l :: tr ++ w) gw gw' pods | _ => True end)) as Hstay.
  { intros _. cbn [always mret prog_ret]. rewrite app_nil_r. split; [done|]. split; [apply Hsh|by left]. }
  destruct owned as [|p ps]; [apply Hstay; by left|].
  destruct (gpuResourcesEqual _ _); [apply Hstay; by right|]. on_call u.
  set (w := ev (S := GpuSig) (UpdateGW _) u).
  assert (sanctioned req (pre ++ l :: tr) w) as Hu.
  { exists gw, (p :: ps). split; [by apply subject_app|]. split; [done|]. split; [by apply owner_read_app|]. by split. }
  destruct u as [err|gw'].
  { destruct (IsConflict err); (split; [|done]); apply Happ; exact (conj Hu I). }
  on_call r. assert (∀ s, justified (sanctioned req) pre (l :: tr ++ [w; ev (S := GpuSig) (GetGW req) r]) ∧
      match s with SyncPods gw'' pods => synced_pods req (pre ++ l :: tr ++ [w; ev (S := GpuSig) (GetGW req) r]) gw gw'' pods | _ => True end ↔
      match s with SyncPods gw'' pods => synced_pods req (pre ++ l :: tr ++ [w; ev (S := GpuSig) (GetGW req) r]) gw gw'' pods | _ => True end) as Hj.
  { intros s. split; [tauto|]. intros ?. split; [|done]. apply Happ. exact (conj Hu (conj I I)). }
  destruct r as [err|gw'']; [destruct (IgnoreNotFound err)|]; apply Hj; [done|split..].
  - right. eexists. rewrite elem_of_app, elem_of_cons, elem_of_app, elem_of_cons. right. right. right. by left.
  - right. split; [done|]. exists err. rewrite elem_of_app, elem_of_cons, elem_of_app, !elem_of_cons. do 4 right. by left.
  - left. exists req. rewrite elem_of_app, elem_of_cons, elem_of_app, !elem_of_cons. do 4 right. by left.
  - left. change (pre ++ l :: tr ++ ?z) with (pre ++ (l :: tr) ++ z). rewrite app_assoc. by apply listed_pods_app.
Qed.

(** The indexes of the Kueue workloads: a later one replaces an earlier one. *)
Lemma indexOwners (keep : OwnerReference → bool) wl os (m : gmap string KueueWorkload) uid :
  foldl (λ m o, if keep o then <[or_UID o := wl]> m else m) m os !! uid =
    if decide (Exists (λ o, keep o = true ∧ or_UID o = uid) os) then Some wl else m !! uid.
Proof.
  revert m. induction os as [|o os IH]; intros m; cbn [foldl].
  { case_decide as Hd; [by apply Exists_nil in Hd|done]. }
  rewrite IH. destruct (decide (Exists _ (o :: os))) as [Hd|Hd], (decide (Exists _ os)) as [Hos|Hos]; try done;
    rewrite Exists_cons in Hd.
  - destruct Hd as [[-> <-]|?]; [by rewrite lookup_insert_eq|done].
  - tauto.
  - destruct (keep o) eqn:Hk; [|done]. destruct (decide (or_UID o = uid)); [tauto|by rewrite lookup_insert_ne].
Qed.

Lemma indexWorkloads_indexes (keep : OwnerReference → bool) wls :
  indexes (λ o, keep o = true) wls (indexWorkloads keep wls).
Proof.
  intros uid. set (mine := λ wl, Exists (λ o, keep o = true ∧ or_UID o = uid) (wl_OwnerReferences wl)).
  exists (filter mine wls). split; [|split; [apply sublist_filter|]].
  - unfold indexWorkloads. induction wls as [|wl wls IH] using rev_ind; [done|].
    rewrite foldl_app, filter_app. cbn [foldl]. rewrite indexOwners. fold (mine wl).
    rewrite filter_cons, filter_nil. unfold mine. case_decide; [by rewrite last_snoc|by rewrite app_nil_r].
  - intros wl. rewrite list_elem_of_filter. unfold mine. rewrite Exists_exists. naive_solver.
Qed.

Lemma existingMetrics_lookup tps name :
  match existingMetrics tps !! name with
  | None => ∀ o, o ∈ tps → tp_PodName o = name → tp_GpuMetrics o = []
  | Some gms => ∃ o, o ∈ tps ∧ tp_PodName o = name ∧ tp_GpuMetrics o = gms
  end.
Proof.
  unfold existingMetrics. induction tps as [|tp tps IH] using rev_ind; [cbn [foldl]; rewrite lookup_empty; by intros ? ?%elem_of_nil|].
  rewrite foldl_app. cbn [foldl]. set (m := foldl _ ∅ tps) in *. set (m' := match tp_GpuMetrics tp with [] => m | _ => _ end).
  assert ((tp_PodName tp = name ∧ tp_GpuMetrics tp ≠ [] ∧ m' !! name = Some (tp_GpuMetrics tp)) ∨
    ((tp_PodName tp = name → tp_GpuMetrics tp = []) ∧ m' !! name = m !! name)) as [(Hn & Hg & ->)|[Hn ->]].
  { unfold m'. destruct (tp_GpuMetrics tp) as [|g gs]; [by right|].
    destruct (decide (tp_PodName tp = name)) as [<-|]; [left; by rewrite lookup_insert_eq|right; by rewrite lookup_insert_ne]. }
  - exists tp. rewrite elem_of_app, elem_of_cons. auto.
  - destruct (m !! name).
    + destruct IH as (o & ? & ?). exists o. rewrite elem_of_app. auto.
    + intros o [?|Ho]%elem_of_app; [auto|apply list_elem_of_singleton in Ho as ->; auto].
Qed.

Lemma trackPods_tracks pods tps : tracks tps pods (trackPods pods tps).
Proof.
  unfold trackPods. split.
  - rewrite sortSlice_perm, map_map. by rewrite (map_ext _ pod_Name).
  - intros tp Htp. rewrite sortSlice_perm in Htp. apply list_elem_of_fmap in Htp as (p & -> & _). cbn.
    pose proof (existingMetrics_lookup tps (pod_Name p)) as Hm. destruct (existingMetrics tps !! _); [by right|by left].
Qed.

Lemma computePhase_range gw pods byPod byOwner cfg :
  let '(gw', phase) := computePhase gw pods byPod byOwner cfg in
  (∃ u, gw' = with_status (set_AggregatedUtilization u) gw) ∧ (computed phase ∨ phase = st_Phase (gw_Status gw)).
Proof.
  assert (∃ u, gw = with_status (set_AggregatedUtilization u) gw) as Hgw.
  { exists (st_AggregatedUtilization (gw_Status gw)). by destruct gw as [? ? ? ? ? []]. }
  unfold computePhase, computed. destruct pods as [|p ps].
  - repeat case_match; simplify_eq; auto.
  - repeat case_match; simplify_eq; (split; [by eauto|]); auto.
Qed.

(** The idle time written with a phase. *)
Definition idle_time (pre : trace GpuSig) (phase : GpuWorkloadPhase) (old new : option Z) : Prop :=
  match new with
  | None => phase ≠ PhaseIdle
  | Some t => phase = PhaseIdle ∧ (old = Some t ∨ (old = None ∧ ev (S := GpuSig) Now t ∈ pre))
  end.

Lemma trackIdle_spec phase gw :
  always anything (trackIdle phase gw) (λ tr gw', Forall (λ e, ¬ touches_workloads e) tr ∧
    ∃ idle, gw' = with_status (set_IdleSince idle) gw ∧ idle_time tr phase (st_IdleSince (gw_Status gw)) idle).
Proof.
  unfold trackIdle. case_decide as Hid; cbn [always mret prog_ret].
  - destruct (st_IdleSince (gw_Status gw)) as [t|] eqn:Hs; cbn [always mret prog_ret].
    + split; [done|]. exists (Some t). split; [rewrite <- Hs; by destruct gw as [? ? ? ? ? []]|]. split; auto.
    + on_call now. cbn [always mret prog_ret]. split; [repeat constructor; by intros [[] _]|].
      exists (Some now). split; [done|]. split; [done|]. right. split; [done|]. by left.
  - split; [done|]. by exists None.
Qed.

(** The status computed from the pods found is a write of the phase. *)
Lemma phase_written pre cfg pods wls gw gw2 phase idle :
  let gw1 := with_status (set_TrackedPods (trackPods pods (st_TrackedPods (gw_Status gw)))) gw in
  computePhase gw1 pods (indexWorkloads (λ o, bool_decide (or_Kind o = "Pod")) wls) (indexWorkloads (λ _, true) wls) cfg = (gw2, phase) →
  idle_time pre phase (st_IdleSince (gw_Status gw2)) idle →
  phase_write pre cfg pods wls gw (with_status (set_IdleSince idle) (with_status (set_Phase phase) gw2)).
Proof.
  intros gw1 Hc Hidle. pose proof (computePhase_range gw1 pods (indexWorkloads (λ o, bool_decide (or_Kind o = "Pod")) wls)
    (indexWorkloads (λ _, true) wls) cfg) as Hrange. rewrite Hc in Hrange. destruct Hrange as [[u ->] Hphase].
  do 6 (split; [done|]). split; [done|]. split; [apply trackPods_tracks|]. split; [|by destruct idle].
  eexists _, _, _. split; [|split; [|split; [exact Hc|done]]].
  - intros uid. destruct (indexWorkloads_indexes (λ o, bool_decide (or_Kind o = "Pod")) wls uid) as (l & Hl & Hs & Hin).
    exists l. split; [done|]. split; [done|]. intros wl. rewrite Hin. setoid_rewrite bool_decide_eq_true. done.
  - intros uid. destruct (indexWorkloads_indexes (λ _, true) wls uid) as (l & Hl & Hs & Hin).
    exists l. split; [done|]. split; [done|]. intros wl. rewrite Hin. naive_solver.
Qed.

(** Events and evaluations after the status write only mark idle workloads. *)
Lemma afterPhase_marks n id cfg gw oldPhase phase :
  always anything (afterPhase n id cfg gw oldPhase phase) (λ tr _, guarded touches_workloads marks None tr).
Proof.
  unfold afterPhase. apply always_bind.
  apply always_mono with (Q := λ tr _, guarded touches_workloads marks None tr).
  { case_match; [|done]. destruct phase; try done; cbn; intros [] _; split; try done; by intros [[] _]. }
  intros tr [] Htr. apply always_bind.
  apply always_mono with (Q := λ tr _, guarded touches_workloads marks None tr).
  { case_match; [apply round_marks|done]. }
  intros tr' [err|] Htr'; [simpl; rewrite app_nil_r; by apply guarded_app|].
  case_decide; [|simpl; rewrite app_nil_r; by apply guarded_app]. apply always_bind.
  eapply always_mono; [apply round_marks|]. intros tr'' [err|] Htr''; simpl; rewrite app_nil_r;
    by repeat apply guarded_app.
Qed.

Lemma updatePhase_sanctioned n id req pre gw gw' cfg pods :
  subject req pre gw → live (st_Phase (gw_Status gw)) → owner_read pre gw (present gw) → config_read pre cfg →
  synced_pods req pre gw gw' pods →
  always anything (updatePhase n id req cfg gw' pods) (λ tr _, justified (sanctioned req) pre tr).
Proof.
  intros Hs Hl Ho Hc [Hsh Hpods]. unfold updatePhase. on_call [err|wls]; [by split|].
  set (l := ev (S := GpuSig) (ListKueueWorkloads (key_namespace req)) (inr wls)).
  destruct (computePhase _ pods _ _ cfg) as [gw2 phase] eqn:Hcp.
  apply always_bind. eapply always_mono; [by apply trackIdle_spec|]. intros tr gw3 (Htr & idle & -> & Hid). on_call up.
  assert (sanctioned req ((pre ++ [l]) ++ tr) (ev (S := GpuSig) (StatusUpdateGW
    (with_status (set_IdleSince idle) (with_status (set_Phase phase) gw2))) up)) as Hup.
  { right. left. exists gw. split; [by repeat apply subject_app|]. split; [done|]. right. exists gw', cfg, pods, wls.
    split; [by repeat apply owner_read_app|]. split; [by repeat apply shown_app|]. split; [by repeat apply config_read_app|].
    split; [|split].
    - destruct Hpods as [?|(? & err & ?)]; [left; by repeat apply listed_pods_app|right].
      split; [done|]. exists err. rewrite !elem_of_app. auto.
    - rewrite !elem_of_app, list_elem_of_singleton. auto.
    - eapply phase_written; [exact Hcp|]. destruct idle as [t|]; [|done]. destruct Hid as [? [?|[? ?]]]; (split; [done|]); [by left|right].
      split; [done|]. apply elem_of_app. by right. }
  assert (∀ w, justified (sanctioned req) ((pre ++ [l]) ++ tr) w → justified (sanctioned req) pre (l :: (tr ++ w))) as Happ.
  { intros w Hjw. split; [done|]. apply justified_app. split; [by apply justified_quiet|done]. }
  destruct up as [err|gw4]; [apply Happ; by split|].
  eapply always_mono; [apply afterPhase_marks|]. intros tr' r Htr'.
  apply Happ. split; [done|]. by apply marks_sanctioned.
Qed.

(** The check of the object behind a workload is one read, whose answer decides. *)
Lemma ownerExists_decides gw :
  always anything (ownerExists gw) (λ tr x, ∃ ans,
    tr = [ev (S := GpuSig) (GetObject (targetOf gw).1 (targetOf gw).2) ans] ∧
    match x with inl _ => (¬ absent gw ans) ∧ ¬ present gw ans | inr true => present gw ans | inr false => absent gw ans end).
Proof.
  unfold ownerExists. on_call r. destruct r as [err|obj].
  - destruct (IsNotFound err) eqn:Hn; (eexists; split; [done|]); [done|]. cbn. split; [by rewrite Hn|by intros (? & ? & _)].
  - eexists. split; [done|]. case_bool_decide; [by exists obj|done].
Qed.

Lemma reconcileLive_sanctioned n id req pre gw cfg :
  length pre = 2%nat → subject req pre gw → config_read pre cfg → live (st_Phase (gw_Status gw)) →
  always anything
    (x ← ownerExists gw;
     match x with
     | inl err => mret (done_, Some err)
     | inr false => finishDeleted gw
     | inr true =>
         s ← syncOwnedPods req gw;
         match s with
         | SyncRequeue => mret (requeue, None)
         | SyncError err => mret (done_, Some err)
         | SyncPods gw' pods => updatePhase n id req cfg gw' pods
         end
     end) (λ tr _, justified (sanctioned req) pre tr).
Proof.
  intros Hlen Hs Hc Hl. apply always_bind. eapply always_mono; [apply ownerExists_decides|]. intros tr x (ans & -> & Hx).
  set (o := ev (S := GpuSig) (GetObject _ _) ans) in *.
  assert (∀ ok : _ → Prop, ok ans → owner_read (pre ++ [o]) gw ok) as Ho.
  { intros ok Hok. exists ans. split; [|done]. by apply list_lookup_middle. }
  assert (subject req (pre ++ [o]) gw) as Hs' by by apply subject_app.
  assert (config_read (pre ++ [o]) cfg) as Hc' by by apply config_read_app.
  destruct x as [err|[|]]; [by split| |].
  - apply Ho in Hx. apply always_bind. eapply always_mono; [by apply (sync_sanctioned req (pre ++ [o]))|].
    intros tr' [err| |gw' pods] [Hj Hsh]; [cbn [always mret prog_ret]; rewrite app_nil_r; by split..|].
    eapply always_mono; [apply (updatePhase_sanctioned n id req ((pre ++ [o]) ++ tr') gw gw');
      [by apply subject_app|done|by apply owner_read_app|by apply config_read_app|done]|].
    intros tr'' r Hj''. split; [done|]. cbn [app]. rewrite justified_app. by split.
  - apply Ho in Hx. unfold finishDeleted. on_call now. on_call u.
    assert (sanctioned req ((pre ++ [o]) ++ [ev (S := GpuSig) Now now])
      (ev (S := GpuSig) (StatusUpdateGW (with_status (markDeleted now) gw)) u)) as Hu.
    { right. left. exists gw. split; [by apply subject_app|]. split; [done|]. left. exists now.
      split; [apply elem_of_app; right; by left|]. split; [done|by apply owner_read_app]. }
    destruct u as [err|gw']; [|on_call []]; cbn [always mret prog_ret]; by repeat (split; [done|]).
Qed.

(** *** What is done *)

(** A call of a reconcile that was refused: the pods, the Kueue workloads or a write. *)
Definition refused_call (e : event GpuSig) : Prop :=
  match projT1 e as r return gpu_resp r → Prop with
  | ListPods _ | ListKueueWorkloads _ | UpdateGW _ | GetGW _ => λ x, ∃ err, x = inl err
  | _ => λ _, False
  end (projT2 e).

(** A workload being preempted has its object deleted, and its status follows the answer. *)
Definition preempts `{Host} (gw : GpuWorkload) (tr : trace GpuSig) : Prop :=
  ∃ ans, ev (S := GpuSig) (DeleteObject (targetOf gw).1 (targetOf gw).2) ans ∈ tr ∧
    (forbidden ans → ∃ u, ev (S := GpuSig) (StatusUpdateGW (with_status revertIdle gw)) u ∈ tr) ∧
    (gone ans → ¬ forbidden ans → ∃ now u, ev (S := GpuSig) (StatusUpdateGW (with_status (markPreempted now) gw)) u ∈ tr).

(** The record of a finished workload is deleted when its TTL is over. *)
Definition expires `{Host} (gw : GpuWorkload) (cfg : KaiwoGpuPreemptionConfig) (tr : trace GpuSig) : Prop :=
  ∀ finishedAt, st_FinishedAt (gw_Status gw) = Some finishedAt → getTTL gw cfg ≠ 0 →
    ∃ now, ev (S := GpuSig) Now now ∈ tr ∧
      (getTTL gw cfg ≤ time_sub now finishedAt → ∃ ans, ev (S := GpuSig) (DeleteGW gw) ans ∈ tr).

(** A live workload is marked Deleted when its object is gone; when the object is there its
    status is written, unless a call before that is refused. *)
Definition follows `{Host} (gw : GpuWorkload) (ans : error + Unstructured) (tr : trace GpuSig) : Prop :=
  (absent gw ans → ∃ now u, ev (S := GpuSig) (StatusUpdateGW (with_status (markDeleted now) gw)) u ∈ tr) ∧
  (present gw ans → (∃ w u, ev (S := GpuSig) (StatusUpdateGW w) u ∈ tr) ∨ Exists refused_call tr).

Definition performed `{Host} (req : Key) (tr : trace GpuSig) : Prop :=
  ∀ gw, subject req tr gw →
    (st_Phase (gw_Status gw) = PhasePreempting → preempts gw tr) ∧
    (terminal (st_Phase (gw_Status gw)) → ∃ cfg, config_read tr cfg ∧ expires gw cfg tr) ∧
    (live (st_Phase (gw_Status gw)) → ∃ ans,
       tr !! 2%nat = Some (ev (S := GpuSig) (GetObject (targetOf gw).1 (targetOf gw).2) ans) ∧ follows gw ans tr).

Lemma handlePreempting_preempts gw : always anything (handlePreempting gw) (λ tr _, preempts gw tr).
Proof.
  unfold handlePreempting, deleteWorkload.
  assert (∀ d : option error, (¬ forbidden d) → always anything (finishPreempting gw) (λ tr _, preempts gw
    (ev (S := GpuSig) (DeleteObject (targetOf gw).1 (targetOf gw).2) d :: tr))) as Hfin.
  { intros d Hf. unfold finishPreempting. on_call now. on_call []. on_call u. destruct u; exists d; (split; [by left|]); (split; [done|]);
      intros _ _; eexists now, _; do 3 right; by left. }
  on_call [err|]; [|apply (Hfin None); by intros []].
  destruct (IsForbidden err) eqn:Hf; [|destruct (IsNotFound err) eqn:Hn].
  - on_call []. on_call u. destruct u; exists (Some err); (split; [by left|]); (split; [intros _; eexists; do 2 right; by left|done]).
  - apply (Hfin (Some err)). cbn. congruence.
  - exists (Some err). split; [by left|]. cbn. split; congruence.
Qed.

Lemma handleTerminal_expire gw cfg : always anything (handleTerminal gw cfg) (λ tr _, expires gw cfg tr).
Proof.
  unfold handleTerminal. case_decide as Httl; [by intros ? _ ?|]. destruct (st_FinishedAt (gw_Status gw)) as [t|] eqn:Ht; [|intros ?; congruence].
  on_call now. case_decide as Hel.
  - on_call d. destruct d; intros f Hf _; exists now; (split; [by left|]); intros _; eexists; right; by left.
  - intros f Hf _. exists now. split; [by left|]. rewrite Ht in Hf. injection Hf as <-. done.
Qed.

(** A call that is refused, or a status that is written, on the way of a live workload. *)
Definition settled (tr : trace GpuSig) : Prop :=
  (∃ w u, ev (S := GpuSig) (StatusUpdateGW w) u ∈ tr) ∨ Exists refused_call tr.

Lemma settled_app tr tr' : settled tr ∨ settled tr' → settled (tr ++ tr').
Proof.
  unfold settled. rewrite Exists_app. intros [[(w & u & ?)|?]|[(w & u & ?)|?]]; auto; left; exists w, u; rewrite elem_of_app; auto.
Qed.

Lemma settled_bind {A B} (p : M A) (k : A → M B) (T : A → Prop) :
  always anything p (λ tr a, settled tr ∨ T a) → (∀ a, T a → always anything (k a) (λ tr _, settled tr)) →
  always anything (p ≫= k) (λ tr _, settled tr).
Proof.
  intros Hp Hk. apply always_bind. eapply always_mono; [exact Hp|]. intros tr a [Hs|Ha].
  - eapply always_mono; [apply always_true|]. intros tr' b _. apply settled_app. by left.
  - eapply always_mono; [by apply Hk|]. intros tr' b Hb. apply settled_app. by right.
Qed.

Lemma sync_settles req gw :
  always anything (syncOwnedPods req gw) (λ tr s, settled tr ∨ ∃ gw' pods, s = SyncPods gw' pods).
Proof.
  unfold syncOwnedPods. on_call [err|items]; [left; right; left; by exists err|].
  apply always_bind. eapply always_mono; [apply always_true|]. intros tr owned _.
  destruct owned as [|p ps]; [right; eauto|]. destruct (gpuResourcesEqual _ _); [right; eauto|]. on_call u. destruct u as [err|gw'].
  - assert (∀ tr, settled (ev (S := GpuSig) (ListPods (gw_Namespace gw)) (inr items) :: tr ++
      [ev (S := GpuSig) (UpdateGW (with_spec (set_GpuResources (computeTotalGpuResources (p :: ps))) gw)) (inl err)])) as Hs.
    { intros tr'. right. apply Exists_cons. right. apply Exists_app. right. left. by exists err. }
    destruct (IsConflict err); left; apply Hs.
  - on_call [err|gw'']; [destruct (IgnoreNotFound err)|]; [|right; eauto..].
    left. right. apply Exists_cons. right. apply Exists_app. right. apply Exists_cons. right. left. by exists err.
Qed.

Lemma updatePhase_settles n id req cfg gw pods : always anything (updatePhase n id req cfg gw pods) (λ tr _, settled tr).
Proof.
  unfold updatePhase. on_call [err|wls]; [right; left; by exists err|]. destruct (computePhase _ pods _ _ cfg) as [gw2 phase].
  apply always_bind. eapply always_mono; [apply always_true|]. intros tr gw3 _. on_call u.
  assert (∀ l w, settled (l :: tr ++ ev (S := GpuSig) (StatusUpdateGW gw3) u :: w)) as Hs.
  { intros l w. left. exists gw3, u. right. apply elem_of_app. right. by left. }
  destruct u; [apply Hs|]. eapply always_mono; [apply always_true|]. intros tr' r _. apply Hs.
Qed.

Lemma reconcileLive_follows n id req gw cfg :
  always anything
    (x ← ownerExists gw;
     match x with
     | inl err => mret (done_, Some err)
     | inr false => finishDeleted gw
     | inr true =>
         s ← syncOwnedPods req gw;
         match s with
         | SyncRequeue => mret (requeue, None)
         | SyncError err => mret (done_, Some err)
         | SyncPods gw' pods => updatePhase n id req cfg gw' pods
         end
     end) (λ tr _, ∃ ans, tr !! 0%nat = Some (ev (S := GpuSig) (GetObject (targetOf gw).1 (targetOf gw).2) ans) ∧ follows gw ans tr).
Proof.
  apply always_bind. eapply always_mono; [apply ownerExists_decides|]. intros tr x (ans & -> & Hx). destruct x as [err|[|]].
  - exists ans. split; [done|]. destruct Hx as [Hno1 Hno2]. by split.
  - destruct Hx as (obj & -> & Huid). eapply always_mono.
    { apply (settled_bind _ _ (λ s, ∃ gw' pods, s = SyncPods gw' pods)); [apply sync_settles|].
      intros s (gw' & pods & ->). apply updatePhase_settles. }
    intros tr r Hs. exists (inr obj). split; [done|]. split; [by intros []|]. intros _. apply (settled_app [_]). by right.
  - unfold finishDeleted. on_call now. on_call u.
    assert (∀ w, ∃ ans0, ([ev (S := GpuSig) (GetObject (targetOf gw).1 (targetOf gw).2) ans] ++ ev (S := GpuSig) Now now ::
      ev (S := GpuSig) (StatusUpdateGW (with_status (markDeleted now) gw)) u :: w) !! 0%nat =
        Some (ev (S := GpuSig) (GetObject (targetOf gw).1 (targetOf gw).2) ans0) ∧ follows gw ans0
      ([ev (S := GpuSig) (GetObject (targetOf gw).1 (targetOf gw).2) ans] ++ ev (S := GpuSig) Now now ::
      ev (S := GpuSig) (StatusUpdateGW (with_status (markDeleted now) gw)) u :: w)) as Hw.
    { intros w. exists ans. split; [done|]. split; [intros _; exists now, u; do 2 right; by left|].
      intros (obj & -> & Huid). by destruct Hx. }
    destruct u as [err|gw']; [|on_call []]; apply Hw.
Qed.

(** The workload an event read. *)
Definition workload_read (e : event GpuSig) : option GpuWorkload :=
  match projT1 e as r return gpu_resp r → option GpuWorkload with
  | GetGW _ => λ x, match x with inl _ => None | inr gw => Some gw end
  | _ => λ _, None
  end (projT2 e).

Lemma subject_read req e tr gw : subject req (e :: tr) gw → workload_read e = Some gw.
Proof. unfold subject. cbn. by intros [= ->]. Qed.

Lemma Reconcile_performs n id req : always anything (Reconcile n id req) (λ tr _, performed req tr).
Proof.
  unfold Reconcile. on_call [err|gw]; [by intros gw Hs%subject_read|]. on_call c.
  set (cfg := match c with inl _ => zero_gpu_config | inr cfg => cfg end).
  set (g := ev (S := GpuSig) (GetGW req) (inr gw)). set (k := ev (S := GpuSig) GetConfig c).
  assert (∀ tr, (st_Phase (gw_Status gw) = PhasePreempting → preempts gw tr) →
    (terminal (st_Phase (gw_Status gw)) → expires gw cfg tr) →
    (live (st_Phase (gw_Status gw)) → ∃ ans, tr !! 0%nat = Some (ev (S := GpuSig) (GetObject (targetOf gw).1 (targetOf gw).2) ans) ∧ follows gw ans tr) →
    performed req (g :: k :: tr)) as Hperf.
  { intros tr Hp Ht Hl gw' Hs%subject_read. injection Hs as <-. split; [|split].
    - intros Hph. destruct (Hp Hph) as (ans & ? & Hf & Hg). exists ans. split; [by do 2 right|]. split.
      + intros Hfo. destruct (Hf Hfo) as [u ?]. exists u. by do 2 right.
      + intros Hgo Hfo. destruct (Hg Hgo Hfo) as (now & u & ?). exists now, u. by do 2 right.
    - intros Hph. exists cfg. split; [by exists c|]. intros f Hf Httl. destruct (Ht Hph f Hf Httl) as (now & ? & Hd). exists now.
      split; [by do 2 right|]. intros He. destruct (Hd He) as [ans ?]. exists ans. by do 2 right.
    - intros Hph. destruct (Hl Hph) as (ans & Ha & Habs & Hpres). exists ans. split; [done|]. split.
      + intros He. destruct (Habs He) as (now & u & ?). exists now, u. by do 2 right.
      + intros He. apply (settled_app [g; k]). right. by apply Hpres. }
  destruct (st_Phase (gw_Status gw)) eqn:Hph.
  6: { eapply always_mono; [apply handlePreempting_preempts|]. intros tr r Hr. apply Hperf; [done|by intros [|]|by intros [? _]]. }
  6,7: eapply always_mono; [apply handleTerminal_expire|]; intros tr r Hr; apply Hperf; [done|done|intros [_ Hn]; destruct Hn; by (left + right)].
  all: eapply always_mono; [apply (reconcileLive_follows n id req gw cfg)|]; intros tr r Hr; apply Hperf; [done|by intros [|]|done].
Qed.

(** C3: whatever the server answers, every write of a reconcile is accounted for
    by what was read before it. The underlying object is deleted only for a
    workload read as Preempting, and it is then marked Preempted only after that
    deletion succeeded or found nothing, or put back to Idle only after it was
    forbidden. The record of a finished workload is deleted only when it is in a
    terminal phase and its TTL, by its annotations and the configuration just read,
    is over. A live workload is marked Deleted only when the object behind it was
    just read as missing or replaced by another of its name. Only when that object
    was found are the GPU totals rewritten, to the total of the workload's pods
    among those listed, or the status updated: to the phase and utilization
    computed from these pods, the Kueue workloads listed and the configuration
    read, with the idle time set exactly in phase Idle. All else that is written
    are preemption marks on workloads just read as Idle. And these writes are made: the
    object of a workload read as Preempting is deleted and its status written by the
    answer, a record whose TTL is over is deleted, a live workload whose object is gone
    is marked Deleted, and the status of one whose object is there is written unless the
    pods, the Kueue workloads or the workload itself are refused before. *)
Theorem Reconcile_sanctioned n id req :
  always anything (Reconcile n id req) (λ tr _, justified (sanctioned req) [] tr ∧ performed req tr).
Proof.
  apply always_both; [|apply Reconcile_performs].
  unfold Reconcile. on_call [err|gw]; [by split|]. on_call c.
  set (pre := [ev (S := GpuSig) (GetGW req) (inr gw); ev (S := GpuSig) GetConfig c]).
  set (cfg := match c with inl _ => zero_gpu_config | inr cfg => cfg end).
  assert (subject req pre gw) as Hs by done. assert (config_read pre cfg) as Hc by by exists c.
  assert (∀ w, justified (sanctioned req) pre w → justified (sanctioned req) []
    (ev (S := GpuSig) (GetGW req) (inr gw) :: ev (S := GpuSig) GetConfig c :: w)) as Happ by by repeat split.
  destruct (st_Phase (gw_Status gw)) eqn:Hph.
  6: { eapply always_mono; [by apply (handlePreempting_sanctioned req pre)|]. auto. }
  6,7: eapply always_mono; [apply (handleTerminal_sanctioned req pre); [done..|rewrite Hph; by (left + right)]|]; by auto.
  all: assert (live (st_Phase (gw_Status gw))) as Hl by (rewrite Hph; split; [done|by intros [|]]).
  all: eapply always_mono; [by apply (reconcileLive_sanctioned n id req pre gw cfg)|auto].
Qed.

End writes.

(** * Expiry of finished workloads *)

(** A clock that reads [now] and a server that takes deletions. *)
Definition clock_at (now : Z) : contract GpuSig := λ r : gpu_req,
  match r return gpu_resp r → Prop with Now => λ x, x = now | _ => λ _, True end.

(** A finished workload is kept until its TTL is over and the controller
    comes back in time: looked at at [now], it is deleted when the TTL is over,
    and otherwise requeued after a positive delay, at the end of which it is
    deleted. *)
Theorem handleTerminal_expires `{Host} gw cfg finishedAt now :
  st_FinishedAt (gw_Status gw) = Some finishedAt → 0 < getTTL gw cfg → in_int64 (getTTL gw cfg) →
  finishedAt ≤ now → in_int64 (now + getTTL gw cfg - finishedAt) →
  always (clock_at now) (handleTerminal gw cfg) (λ tr r,
    if decide (finishedAt + getTTL gw cfg ≤ now)
    then ∃ ans, tr = [ev (S := GpuSig) Now now; ev (S := GpuSig) (DeleteGW gw) ans]
    else tr = [ev (S := GpuSig) Now now] ∧ ∃ delay, r = (requeueAfter delay, None) ∧ 0 < delay ∧
      now + delay = finishedAt + getTTL gw cfg ∧
      always (clock_at (now + delay)) (handleTerminal gw cfg)
        (λ tr' _, ∃ ans, ev (S := GpuSig) (DeleteGW gw) ans ∈ tr')).
Proof.
  intros Hf Hpos Hr Hle Hr'. assert (∀ t, finishedAt ≤ t ≤ now + getTTL gw cfg → time_sub t finishedAt = t - finishedAt) as Hsub.
  { intros t Ht. apply time_sub_exact. unfold in_int64, int64_min, int64_max in *. lia. }
  unfold handleTerminal. rewrite (decide_False (P := getTTL gw cfg = 0)) by lia. rewrite Hf.
  apply always_call. intros x Hx. simpl in Hx. subst x. cbv beta iota zeta. rewrite Hsub by lia.
  destruct (decide (finishedAt + getTTL gw cfg ≤ now)) as [Hexp|Hexp];
    [rewrite decide_True by lia|rewrite decide_False by lia].
  - on_call d. destruct d; cbn; by eexists.
  - cbn [always mret prog_ret]. split; [done|].
    exists (getTTL gw cfg - (now - finishedAt)). rewrite int64_wrap_id by (unfold in_int64, int64_min, int64_max in *; lia).
    split; [done|]. split; [lia|]. split; [lia|].
    apply always_call. intros x Hx. simpl in Hx. subst x. cbv beta iota zeta. rewrite Hsub by lia. rewrite decide_True by lia.
    on_call d. destruct d; eexists; right; by left.
Qed.

(** * Creation *)

Section creation.
Context `{Host} `{GoOrder}.

Lemma raiseCounts_foldl (l : list (string * Z)) (m : gmap string Z) b k :
  NoDup l.*1 →
  (foldl raiseCount (m, b) l).1 !! k =
    match list_to_map (M := gmap string Z) l !! k with
    | Some c => if decide (default 0 (m !! k) < c) then Some c else m !! k
    | None => m !! k
    end.
Proof.
  revert m b. induction l as [|[k' c] l IH]; intros m b Hnd; [simpl; by rewrite lookup_empty|].
  apply NoDup_cons in Hnd as [Hk' Hnd]. cbn [foldl]. unfold raiseCount at 2. cbn [fst snd].
  cbn [list_to_map foldr]. destruct (decide (k = k')) as [->|Hne].
  - rewrite lookup_insert_eq. assert (list_to_map (M := gmap string Z) l !! k' = None) as Hn by by apply not_elem_of_list_to_map_1.
    cbn [snd]. destruct (decide (default 0 (m !! k') < c)); rewrite IH, Hn by done; [by rewrite lookup_insert_eq|done].
  - rewrite lookup_insert_ne by done. case_decide; rewrite IH by done; [|done].
    by rewrite lookup_insert_ne.
Qed.

Lemma raiseCounts_lookup (gpu existing : gmap string Z) k :
  (raiseCounts gpu existing).1 !! k =
    match gpu !! k with
    | Some c => if decide (default 0 (existing !! k) < c) then Some c else existing !! k
    | None => existing !! k
    end.
Proof.
  assert (NoDup (rangeMap gpu).*1) as Hnd by (rewrite rangeMap_perm; apply NoDup_fst_map_to_list).
  unfold raiseCounts. rewrite raiseCounts_foldl by done.
  by rewrite (list_to_map_proper _ _ Hnd (rangeMap_perm gpu)), list_to_map_to_list.
Qed.

(** The workload record of a root owner. *)
Definition recordKey (root : RootOwnerResult) : Key :=
  mkKey (ro_Namespace root) (GpuWorkloadName (ref_Kind (ro_Ref root)) (ref_Name (ro_Ref root)) (ref_UID (ro_Ref root))).

(** What discovery may write for a root owner. *)
Definition discovery (root : RootOwnerResult) (gpu : gmap string Z) (pre : trace GpuSig) (e : event GpuSig) : Prop :=
  match projT1 e with
  | CreateGW w =>
      gw_key w = recordKey root ∧ spec_WorkloadRef (gw_Spec w) = ro_Ref root ∧
      spec_GpuResources (gw_Spec w) = gpu ∧ gw_Status w = zero_status ∧
      ∃ err, IsNotFound err = true ∧ last pre = Some (ev (S := GpuSig) (GetGW (recordKey root)) (inl err))
  | StatusUpdateGW w => ∃ w0 gw, last pre = Some (ev (S := GpuSig) (CreateGW w0) (inr gw)) ∧
      gw_key w = gw_key gw ∧ gw_Spec w = gw_Spec gw ∧
      st_Phase (gw_Status w) = PhasePendingOther ∧ st_OwnerChain (gw_Status w) = ro_OwnerChain root
  | UpdateGW w => ∃ old, last pre = Some (ev (S := GpuSig) (GetGW (recordKey root)) (inr old)) ∧
      gw_key w = gw_key old ∧ gw_Status w = gw_Status old ∧ spec_WorkloadRef (gw_Spec w) = spec_WorkloadRef (gw_Spec old) ∧
      ∀ k, default 0 (spec_GpuResources (gw_Spec w) !! k) =
        match gpu !! k with
        | Some c => Z.max (default 0 (spec_GpuResources (gw_Spec old) !! k)) c
        | None => default 0 (spec_GpuResources (gw_Spec old) !! k)
        end
  | DeleteGW _ | DeleteObject _ _ | CreateLease _ | UpdateLease _ => False
  | _ => True
  end.

(** Discovering an annotated owner creates its record when there is none,
    with the owner's reference and GPU counts and an initial PendingOther status,
    and otherwise only ever raises the recorded counts, leaving the rest of the
    record alone. Without a preemption annotation on the owner or its namespace
    nothing is written. *)
Theorem upsert_discovery root obj gpu ns :
  always anything (upsertGpuWorkloadForPreemption root obj gpu ns) (λ tr keys,
    justified (discovery root gpu) [] tr ∧ (keys = [] ∨ keys = [recordKey root]) ∧
    ∃ a, head tr = Some (ev (S := GpuSig) (GetNamespace ns) a) ∧
      (isGpuPreemptionAnnotated (match a with inl _ => ∅ | inr m => m end) || isGpuPreemptionAnnotated (u_Annotations obj) = false →
       length tr = 1%nat)).
Proof.
  unfold upsertGpuWorkloadForPreemption. on_call n. rewrite merge_annotated.
  destruct (_ || _) eqn:Hann; cbn [negb]; cycle 1.
  { cbn [always mret prog_ret]. split; [by split|]. split; [by left|]. by exists n. }
  fold (recordKey root). on_call g.
  assert (∀ tr (keys : list Key), (keys = [] ∨ keys = [recordKey root]) →
    justified (discovery root gpu) [ev (S := GpuSig) (GetNamespace ns) n; ev (S := GpuSig) (GetGW (recordKey root)) g] tr →
    justified (discovery root gpu) [] (ev (S := GpuSig) (GetNamespace ns) n :: ev (S := GpuSig) (GetGW (recordKey root)) g :: tr) ∧
    (keys = [] ∨ keys = [recordKey root]) ∧
    ∃ a, head (ev (S := GpuSig) (GetNamespace ns) n :: ev (S := GpuSig) (GetGW (recordKey root)) g :: tr) =
        Some (ev (S := GpuSig) (GetNamespace ns) a) ∧
      (isGpuPreemptionAnnotated (match a with inl _ => ∅ | inr m => m end) || isGpuPreemptionAnnotated (u_Annotations obj) = false →
       length (ev (S := GpuSig) (GetNamespace ns) n :: ev (S := GpuSig) (GetGW (recordKey root)) g :: tr) = 1%nat)) as Hwrap.
  { intros tr keys Hk Hj. split; [by split|]. split; [done|]. exists n. split; [done|]. congruence. }
  destruct g as [err|old].
  - destruct (IsNotFound err) eqn:Hnf; cbn [negb]; [|apply Hwrap; [by left|done]].
    on_call c. assert (discovery root gpu [ev (S := GpuSig) (GetNamespace ns) n; ev (S := GpuSig) (GetGW (recordKey root)) (inl err)]
      (ev (S := GpuSig) (CreateGW (newGpuWorkload root _ gpu _)) c)) as Hc by (repeat split; by exists err).
    destruct c as [err'|gw]; [apply Hwrap; [by right|by split]|]. on_call u.
    apply Hwrap; [by right|]. split; [exact Hc|]. split; [|done]. eexists _, gw. by repeat split.
  - pose proof (raiseCounts_lookup gpu (spec_GpuResources (gw_Spec old))) as Hr.
    destruct (raiseCounts gpu (spec_GpuResources (gw_Spec old))) as [m [|]]; simpl in Hr; cycle 1.
    { apply Hwrap; [by right|done]. }
    on_call u. apply Hwrap; [by right|]. split; [|done]. exists old. do 4 (split; [done|]). simpl. intros k. rewrite Hr.
    destruct (gpu !! k); [|done]. case_decide; simpl; lia.
Qed.

End creation.
