(* ===== verification/Scraper.v ===== *)
(** The GPU metrics scraper (internal/controller/gpuworkload_scraper.go): it
    reads utilization samples from the metrics endpoint and records them in the
    status of the workloads that track the pods. The workloads of one poll are
    shared objects: a pod's update works on what earlier pods of the same
    workload left in memory, so they are kept in a store addressed by index. *)

From stdpp Require Import gmap strings list.
From Stdlib Require Import ZArith Lia SpecFloat.
From S2P Require Import Prelude Float64 Types GpuResources GpuApi.

Definition EnvMetricsEndpoint : string := EnvGpuPreemptionPrefix +:+ "METRICS_ENDPOINT".
Definition EnvPollingInterval : string := EnvGpuPreemptionPrefix +:+ "POLLING_INTERVAL".
Definition gpuActivityMetric : string := "gpu_gfx_activity".
Definition utilizationEpsilon : float64 := F64.div (F64.of_Z 1) (F64.of_Z 100).
Definition utilizationPrecision : float64 := F64.of_Z 100.
Definition defaultPollingInterval : string := "15s".

Record GpuMetricsScraper := { metricsEndpoint : string; pollInterval : Z }.

Record gpuSample := {
  sm_namespace : string;
  sm_podName : string;
  sm_gpuID : string;
  sm_utilization : float64
}.

(** * Parsing the metric family *)

Definition prometheusSampleValue (m : Metric) : option float64 :=
  match m_Gauge m with
  | Some v => Some v
  | None => m_Untyped m
  end.

Fixpoint firstNonEmpty (labels : gmap string string) (keys : list string) : string :=
  match keys with
  | [] => ""
  | k :: ks =>
      let v := default "" (labels !! k) in
      if decide (v ≠ "") then v else firstNonEmpty labels ks
  end.

Definition collectLabels (l : list (option string * option string)) : gmap string string :=
  foldl (λ labels lp, match lp with (Some n, Some v) => <[n := v]> labels | _ => labels end) ∅ l.

Definition parseGpuSample (m : Metric) : option gpuSample :=
  let labels := collectLabels (m_Label m) in
  let ns := firstNonEmpty labels ["namespace"; "kubernetes_namespace"; "k8s_namespace_name"; "k8s.namespace.name"] in
  let pod := firstNonEmpty labels ["pod"; "pod_name"; "kubernetes_pod_name"; "k8s_pod_name"; "k8s.pod.name"] in
  let gpuID := firstNonEmpty labels ["gpu_id"; "gpu"] in
  if decide (ns = "" ∨ pod = "") then None
  else
    match prometheusSampleValue m with
    | None => None
    | Some util => Some {| sm_namespace := ns; sm_podName := pod; sm_gpuID := gpuID; sm_utilization := util |}
    end.

Definition parseGpuSamples (family : list Metric) : list gpuSample := omap parseGpuSample family.

(** * Recording samples *)

Definition roundUtil (u : float64) : float64 :=
  F64.div (F64.Round (F64.mul u utilizationPrecision)) utilizationPrecision.

(** The loop that looks for the GPU of a sample: the metrics after it, whether
    one changed, and whether the GPU was found. *)
Fixpoint recordSample (gpuID : string) (rounded : float64) (now : Z) (gms : list GpuMetric)
  : list GpuMetric * bool * bool :=
  match gms with
  | [] => ([], false, false)
  | gm :: gms' =>
      if decide (gm_GpuID gm = gpuID) then
        if F64.ltb utilizationEpsilon (F64.abs (F64.sub (gm_Utilization gm) rounded))
        then ({| gm_GpuID := gm_GpuID gm; gm_Utilization := rounded; gm_LastUpdate := now |} :: gms', true, true)
        else (gm :: gms', false, true)
      else
        let '(gms'', changed, found) := recordSample gpuID rounded now gms' in
        (gm :: gms'', changed, found)
  end.

Definition applySample (now : Z) (acc : list GpuMetric * bool) (sample : gpuSample) : list GpuMetric * bool :=
  let '(gms, changed) := acc in
  let rounded := roundUtil (sm_utilization sample) in
  let '(gms', changed', found) := recordSample (sm_gpuID sample) rounded now gms in
  if (found : bool) then (gms', changed || changed')
  else (gms' ++ [{| gm_GpuID := sm_gpuID sample; gm_Utilization := rounded; gm_LastUpdate := now |}], true).

Definition applySamples (now : Z) (samples : list gpuSample) (gms : list GpuMetric) : list GpuMetric * bool :=
  foldl (applySample now) (gms, false) samples.

(** The samples go to the first tracked pod with the name; [None] when there is none. *)
Fixpoint applyToPod (podName : string) (samples : list gpuSample) (now : Z) (tps : list TrackedPod)
  : option (list TrackedPod * bool) :=
  match tps with
  | [] => None
  | tp :: tps' =>
      if decide (tp_PodName tp = podName) then
        let '(gms, changed) := applySamples now samples (tp_GpuMetrics tp) in
        Some ({| tp_PodName := tp_PodName tp; tp_GpuMetrics := gms |} :: tps', changed)
      else
        match applyToPod podName samples now tps' with
        | None => None
        | Some (tps'', changed) => Some (tp :: tps'', changed)
        end
  end.

Definition applyUtilizationSamples (gw : GpuWorkload) (podName : string) (samples : list gpuSample) (now : Z)
  : GpuWorkload * bool :=
  match applyToPod podName samples now (st_TrackedPods (gw_Status gw)) with
  | None => (gw, false)
  | Some (tps, changed) =>
      let gw' := with_status (set_TrackedPods tps) gw in
      if (changed : bool) then (with_status (set_LastMetricsUpdate (Some now)) gw', true) else (gw', false)
  end.

(** * One poll *)

Section poll.
Context `{Host} `{GoOrder}.

(** What one pod's update leaves in memory and whether it succeeded. *)
Definition updatePodMetrics (gw : GpuWorkload) (podName : string) (samples : list gpuSample)
  : M (GpuWorkload * bool) :=
  now ← call (S := GpuSig) Now;
  let '(gw', changed) := applyUtilizationSamples gw podName samples now in
  if negb changed then mret (gw', false)
  else
    u ← call (S := GpuSig) (StatusUpdateGW gw');
    match u with
    | inr stored => mret (stored, true)
    | inl err =>
        if negb (IsConflict err) then mret (gw', false)
        else
          f ← call (S := GpuSig) (GetGW (gw_key gw'));
          match f with
          | inl _ => mret (gw', false)
          | inr fresh =>
              let '(fresh', changed') := applyUtilizationSamples fresh podName samples now in
              if negb changed' then mret (gw', false)
              else
                u' ← call (S := GpuSig) (StatusUpdateGW fresh');
                mret (gw', match u' with inl _ => false | inr _ => true end)
          end
    end.

Definition sampleKey (s : gpuSample) : Key := mkKey (sm_namespace s) (sm_podName s).

Definition appendSample (s : gpuSample) (cur : option (list gpuSample)) : option (list gpuSample) :=
  Some (default [] cur ++ [s]).

Definition groupByPod (samples : list gpuSample) : gmap Key (list gpuSample) :=
  foldl (λ m s, partial_alter (appendSample s) (sampleKey s) m) ∅ samples.

(** [gwByPod]: which item of the list tracks a pod; a later one replaces an earlier. *)
Definition indexGW (m : gmap Key nat) (igw : nat * GpuWorkload) : gmap Key nat :=
  let '(i, gw) := igw in
  if decide (st_Phase (gw_Status gw) = PhasePreempted ∨ st_Phase (gw_Status gw) = PhaseDeleted) then m
  else foldl (λ m tp, <[mkKey (gw_Namespace gw) (tp_PodName tp) := i]> m) m (st_TrackedPods (gw_Status gw)).

Definition gwByPod (items : list GpuWorkload) : gmap Key nat :=
  foldl indexGW ∅ (imap pair items).

(** The body of the loop over the pods, on the store of items. *)
Definition pollPod (index : gmap Key nat) (entry : Key * list gpuSample) (items : list GpuWorkload)
  : M (ctl (list GpuWorkload) error) :=
  let '(pk, podSamples) := entry in
  match index !! pk with
  | None => mret (Continue items)
  | Some i =>
      match items !! i with
      | None => mret (Continue items)
      | Some gw =>
          r ← updatePodMetrics gw (key_name pk) podSamples;
          mret (Continue (<[i := r.1]> items))
      end
  end.

Definition poll (s : GpuMetricsScraper) : M (option error) :=
  m ← call (S := GpuSig) (Scrape (metricsEndpoint s));
  match m with
  | inl err => mret (Some (Wrapf "failed to scrape metrics endpoint" err))
  | inr metrics =>
      match metrics !! gpuActivityMetric with
      | None => mret None
      | Some family =>
          match parseGpuSamples family with
          | [] => mret None
          | samples =>
              let samplesByPod := groupByPod samples in
              l ← call (S := GpuSig) ListGW;
              match l with
              | inl err => mret (Some (Wrapf "failed to list GpuWorkloads" err))
              | inr items =>
                  _ ← for_range (rangeMap samplesByPod) items (pollPod (gwByPod items));
                  mret None
              end
          end
      end
  end.

Definition NewGpuMetricsScraper : error + GpuMetricsScraper :=
  let endpoint := Getenv EnvMetricsEndpoint in
  if decide (endpoint = "") then inl (Errorf "environment variable is required when GPU preemption is enabled")
  else
    match URLScheme endpoint with
    | Some scheme =>
        if decide (scheme ≠ "http" ∧ scheme ≠ "https") then inl (Errorf "must use http or https scheme")
        else
          let intervalStr := Getenv EnvPollingInterval in
          let intervalStr := if decide (intervalStr = "") then defaultPollingInterval else intervalStr in
          match ParseDuration intervalStr with
          | None => inl (Errorf "failed to parse polling interval")
          | Some interval => inr {| metricsEndpoint := endpoint; pollInterval := interval |}
          end
    | None => inl (Errorf "must use http or https scheme")
    end.

End poll.

(** * What recording does *)

(** The utilization recorded for a GPU. *)
Fixpoint utilOf (gpuID : string) (gms : list GpuMetric) : option float64 :=
  match gms with
  | [] => None
  | gm :: gms' => if decide (gm_GpuID gm = gpuID) then Some (gm_Utilization gm) else utilOf gpuID gms'
  end.

(** The recorded utilization is as good as the sample. *)
Definition near (s : gpuSample) (gms : list GpuMetric) : Prop :=
  ∃ u, utilOf (sm_gpuID s) gms = Some u ∧
    F64.ltb utilizationEpsilon (F64.abs (F64.sub u (roundUtil (sm_utilization s)))) = false.

Lemma epsilon_pos : F64.ltb (S754_zero false) utilizationEpsilon = true.
Proof. by vm_compute. Qed.

#[local] Opaque utilizationEpsilon utilizationPrecision roundUtil F64.ltb F64.sub F64.abs.

Lemma record_near s now gms :
  let '(gms', changed, found) := recordSample (sm_gpuID s) (roundUtil (sm_utilization s)) now gms in
  (if (found : bool) then near s gms' else utilOf (sm_gpuID s) gms' = None) ∧
  (∀ id, id ≠ sm_gpuID s → utilOf id gms' = utilOf id gms) ∧
  (changed = false → gms' = gms).
Proof.
  induction gms as [|gm gms IH]; cbn [recordSample]; [done|].
  case_decide as Hid; [destruct (F64.ltb _ _) eqn:Hlt|].
  - repeat split; [|intros id Hne; cbn [utilOf gm_GpuID]; by rewrite !decide_False by congruence|done].
    eexists. cbn [utilOf gm_GpuID]. rewrite decide_True by done. split; [done|]. apply F64.sub_diag_small, epsilon_pos.
  - repeat split; [|done..]. eexists. cbn [utilOf]. rewrite decide_True by done. done.
  - destruct (recordSample _ _ _ gms) as [[gms' ch] fd]. destruct IH as (Hn & Ho & Hc). repeat split.
    + unfold near in *. cbn [utilOf]. by rewrite decide_False.
    + intros id Hne. cbn [utilOf]. case_decide; [done|auto].
    + intros E. by rewrite Hc.
Qed.

Lemma utilOf_app id gms gms' : utilOf id (gms ++ gms') = utilOf id gms ∪ utilOf id gms'.
Proof. induction gms as [|gm gms IH]; cbn [app utilOf]; [by rewrite (left_id_L None _)|]. case_decide; [by destruct (utilOf id gms')|done]. Qed.

Lemma applySample_near s now gms ch :
  near s (applySample now (gms, ch) s).1 ∧
  (∀ id, id ≠ sm_gpuID s → utilOf id (applySample now (gms, ch) s).1 = utilOf id gms) ∧
  ((applySample now (gms, ch) s).2 = false → ch = false ∧ (applySample now (gms, ch) s).1 = gms).
Proof.
  unfold applySample. pose proof (record_near s now gms) as Hr.
  destruct (recordSample _ _ _ gms) as [[gms' ch'] [|]]; destruct Hr as (Hn & Ho & Hc); cbn [fst snd].
  - repeat split; [done|done| |]; apply orb_false_iff in H as [? ?]; auto.
  - split; [|split; [|done]].
    + eexists. rewrite utilOf_app, Hn. cbn [utilOf gm_GpuID]. rewrite decide_True by done. split; [done|]. apply F64.sub_diag_small, epsilon_pos.
    + intros id Hne. rewrite utilOf_app, Ho by done. cbn [utilOf gm_GpuID]. rewrite decide_False by done.
      by destruct (utilOf id gms).
Qed.

(** A sample that is recorded already changes nothing. *)
Lemma applySample_fix s now gms : near s gms → applySample now (gms, false) s = (gms, false).
Proof.
  intros (u & Hu & Hlt). unfold applySample.
  assert (recordSample (sm_gpuID s) (roundUtil (sm_utilization s)) now gms = (gms, false, true)) as ->; [|done].
  induction gms as [|gm gms IH]; [done|]. cbn [recordSample utilOf] in *. case_decide; simplify_eq; [by rewrite Hlt|].
  by rewrite IH.
Qed.

Lemma applySamples_near now samples gms ch :
  NoDup (sm_gpuID <$> samples) →
  Forall (λ s, near s (foldl (applySample now) (gms, ch) samples).1) samples ∧
  (∀ id, id ∉ sm_gpuID <$> samples → utilOf id (foldl (applySample now) (gms, ch) samples).1 = utilOf id gms) ∧
  ((foldl (applySample now) (gms, ch) samples).2 = false → ch = false ∧ (foldl (applySample now) (gms, ch) samples).1 = gms).
Proof.
  revert gms ch. induction samples as [|s samples IH]; intros gms ch Hnd; [by repeat constructor|].
  apply NoDup_cons in Hnd as [Hs Hnd]. cbn [foldl].
  destruct (applySample_near s now gms ch) as (Hn & Ho & Hc).
  destruct (applySample now (gms, ch) s) as [gms1 ch1]. cbn [fst snd] in *.
  destruct (IH gms1 ch1 Hnd) as (Hall & Hother & Hch). repeat split.
  - constructor; [|done]. destruct Hn as (u & Hu & Hlt). exists u. by rewrite Hother.
  - intros id Hid. rewrite fmap_cons, not_elem_of_cons in Hid. destruct Hid. by rewrite Hother, Ho.
  - destruct (Hch H) as [-> ?]. by destruct Hc.
  - destruct (Hch H) as [-> ->]. by destruct Hc.
Qed.

Lemma applySamples_fix now samples gms :
  Forall (λ s, near s gms) samples → foldl (applySample now) (gms, false) samples = (gms, false).
Proof. induction 1; [done|]. cbn [foldl]. by rewrite applySample_fix. Qed.

(** The metrics of the tracked pod [name]. *)
Fixpoint metricsOf (name : string) (tps : list TrackedPod) : option (list GpuMetric) :=
  match tps with
  | [] => None
  | tp :: tps' => if decide (tp_PodName tp = name) then Some (tp_GpuMetrics tp) else metricsOf name tps'
  end.

Lemma applyToPod_spec name samples now tps :
  NoDup (sm_gpuID <$> samples) →
  match applyToPod name samples now tps with
  | None => metricsOf name tps = None
  | Some (tps', changed) =>
      map tp_PodName tps' = map tp_PodName tps ∧
      (∀ n, n ≠ name → metricsOf n tps' = metricsOf n tps) ∧
      (∃ gms, metricsOf name tps' = Some gms ∧ Forall (λ s, near s gms) samples) ∧
      (changed = false → tps' = tps) ∧
      (∀ now', applyToPod name samples now' tps' = Some (tps', false))
  end.
Proof.
  intros Hnd. induction tps as [|tp tps IH]; cbn [applyToPod]; [done|]. case_decide as Hn.
  - unfold applySamples. destruct (applySamples_near now samples (tp_GpuMetrics tp) false Hnd) as (Hall & _ & Hc).
    destruct (foldl _ _ samples) as [gms ch]. cbn [fst snd] in *. split; [done|]. repeat split.
    + intros n Hne. cbn [metricsOf tp_PodName]. by rewrite !decide_False by congruence.
    + exists gms. cbn [metricsOf tp_PodName]. by rewrite decide_True.
    + intros ->. destruct Hc as [_ ->]; [done|]. by destruct tp.
    + intros now'. cbn [applyToPod tp_PodName tp_GpuMetrics]. rewrite decide_True by done.
      unfold applySamples. by rewrite applySamples_fix.
  - destruct (applyToPod name samples now tps) as [[tps' ch]|]; cycle 1.
    { cbn [metricsOf]. by rewrite decide_False. }
    destruct IH as (Hm & Ho & (gms & Hg & Hall) & Hc & Hi). repeat split.
    + cbn [map]. by rewrite Hm.
    + intros n Hne. cbn [metricsOf]. case_decide; [done|auto].
    + exists gms. cbn [metricsOf]. by rewrite decide_False.
    + intros E. by rewrite Hc.
    + intros now'. cbn [applyToPod]. rewrite decide_False by done. by rewrite Hi.
Qed.

Lemma applyToPod_none name samples now tps : metricsOf name tps = None → applyToPod name samples now tps = None.
Proof. induction tps as [|tp tps IH]; cbn [metricsOf applyToPod]; [done|]. case_decide; [done|]. intros. by rewrite IH. Qed.

(** Nothing but the recorded samples and the time of the last update differs. *)
Definition metrics_only (old new : GpuWorkload) : Prop :=
  ∃ tps t, new = with_status (λ s, set_LastMetricsUpdate t (set_TrackedPods tps s)) old ∧
    map tp_PodName tps = map tp_PodName (st_TrackedPods (gw_Status old)).

Lemma metrics_only_refl gw : metrics_only gw gw.
Proof. exists (st_TrackedPods (gw_Status gw)), (st_LastMetricsUpdate (gw_Status gw)). split; [|done]. by destruct gw as [? ? ? ? ? []]. Qed.

Lemma metrics_only_trans a b c : metrics_only a b → metrics_only b c → metrics_only a c.
Proof. intros (tps & t & -> & Hn) (tps' & t' & -> & Hn'). exists tps', t'. split; [done|]. by rewrite Hn', <- Hn. Qed.

Lemma applyToPod_names name samples now tps tps' ch :
  applyToPod name samples now tps = Some (tps', ch) → map tp_PodName tps' = map tp_PodName tps.
Proof.
  revert tps' ch. induction tps as [|tp tps IH]; intros tps' ch; cbn [applyToPod]; [done|]. case_decide.
  - destruct (applySamples _ _ _). by intros [= <- <-].
  - destruct (applyToPod name samples now tps) as [[tps'' ch']|]; [|done]. intros [= <- <-]. simpl. by erewrite IH.
Qed.

Lemma apply_metrics_only gw name samples now :
  metrics_only gw (applyUtilizationSamples gw name samples now).1.
Proof.
  unfold applyUtilizationSamples. destruct (applyToPod _ _ _ _) as [[tps ch]|] eqn:E; [|apply metrics_only_refl].
  apply applyToPod_names in E. exists tps, (if ch then Some now else st_LastMetricsUpdate (gw_Status gw)).
  split; [|done]. by destruct ch.
Qed.

(** Recording a pod's samples brings every GPU of the pod to within the
    epsilon of its rounded sample, touches no other tracked pod and nothing of the
    workload but the time of the last update, and reports no change only when it
    left the workload as it was. *)
Theorem applyUtilizationSamples_records gw name samples now :
  NoDup (sm_gpuID <$> samples) → is_Some (metricsOf name (st_TrackedPods (gw_Status gw))) →
  let '(gw', changed) := applyUtilizationSamples gw name samples now in
  metrics_only gw gw' ∧
  (∃ gms, metricsOf name (st_TrackedPods (gw_Status gw')) = Some gms ∧ Forall (λ s, near s gms) samples) ∧
  (∀ n, n ≠ name → metricsOf n (st_TrackedPods (gw_Status gw')) = metricsOf n (st_TrackedPods (gw_Status gw))) ∧
  (if changed then st_LastMetricsUpdate (gw_Status gw') = Some now else gw' = gw).
Proof.
  intros Hnd [gms0 Hs]. pose proof (apply_metrics_only gw name samples now) as Hm.
  unfold applyUtilizationSamples in *. pose proof (applyToPod_spec name samples now (st_TrackedPods (gw_Status gw)) Hnd) as Hp.
  destruct (applyToPod _ _ _ _) as [[tps ch]|]; [|congruence]. destruct Hp as (_ & Ho & Hg & Hc & _).
  destruct ch; simpl in *; repeat split; auto.
  rewrite Hc by done. by destruct gw as [? ? ? ? ? []].
Qed.

(** Recording the same samples again finds nothing to change, at whatever
    time it happens, so an idle scrape cycle causes no status write. *)
Theorem applyUtilizationSamples_idempotent gw name samples now now' :
  NoDup (sm_gpuID <$> samples) →
  let gw' := (applyUtilizationSamples gw name samples now).1 in
  applyUtilizationSamples gw' name samples now' = (gw', false).
Proof.
  intros Hnd. cbv zeta.
  assert (∀ gw', (applyUtilizationSamples gw name samples now).1 = gw' → applyUtilizationSamples gw' name samples now' = (gw', false))
    as Hgen; [|by apply Hgen]. intros gw'. unfold applyUtilizationSamples at 1.
  pose proof (applyToPod_spec name samples now (st_TrackedPods (gw_Status gw)) Hnd) as Hp.
  destruct (applyToPod name samples now (st_TrackedPods (gw_Status gw))) as [[tps ch]|] eqn:E.
  - destruct Hp as (_ & _ & _ & _ & Hi). destruct ch; intros <-; unfold applyUtilizationSamples; simpl; by rewrite Hi.
  - intros <-. unfold applyUtilizationSamples. simpl. by rewrite applyToPod_none.
Qed.

(** * What a poll writes *)

(** A version of the workload a call of [pre] returned. *)
Definition seen (pre : trace GpuSig) (gw : GpuWorkload) : Prop :=
  (∃ items, ev (S := GpuSig) ListGW (inr items) ∈ pre ∧ gw ∈ items) ∨
  (∃ k, ev (S := GpuSig) (GetGW k) (inr gw) ∈ pre) ∨
  (∃ w, ev (S := GpuSig) (StatusUpdateGW w) (inr gw) ∈ pre).

Definition metrics_write (pre : trace GpuSig) (e : event GpuSig) : Prop :=
  match projT1 e with
  | StatusUpdateGW w => ∃ gw, seen pre gw ∧ metrics_only gw w
  | CreateGW _ | UpdateGW _ | DeleteGW _ | DeleteObject _ _ | CreateLease _ | UpdateLease _ => False
  | _ => True
  end.

(** What is in memory is a version the server showed, but for recorded samples. *)
Definition held (pre : trace GpuSig) (gw : GpuWorkload) : Prop := ∃ old, seen pre old ∧ metrics_only old gw.

Lemma seen_app pre tr gw : seen pre gw → seen (pre ++ tr) gw.
Proof.
  intros [(items & ? & ?)|[[k ?]|[w ?]]]; [left; exists items|right; left; exists k|right; right; exists w];
    rewrite elem_of_app; auto.
Qed.

Lemma held_app pre tr gw : held pre gw → held (pre ++ tr) gw.
Proof. intros (old & ? & ?). exists old. auto using seen_app. Qed.

Lemma held_apply pre gw name samples now : held pre gw → held pre (applyUtilizationSamples gw name samples now).1.
Proof. intros (old & ? & ?). exists old. split; [done|]. eapply metrics_only_trans; [done|apply apply_metrics_only]. Qed.

Lemma seen_snoc_get pre k gw : seen (pre ++ [ev (S := GpuSig) (GetGW k) (inr gw)]) gw.
Proof. right. left. exists k. apply elem_of_app. right. by left. Qed.
Lemma seen_snoc_update pre w gw : seen (pre ++ [ev (S := GpuSig) (StatusUpdateGW w) (inr gw)]) gw.
Proof. right. right. exists w. apply elem_of_app. right. by left. Qed.

Lemma updatePodMetrics_writes pre gw name samples :
  held pre gw →
  always anything (updatePodMetrics gw name samples) (λ tr r, justified metrics_write pre tr ∧ held (pre ++ tr) r.1).
Proof.
  intros Hh. unfold updatePodMetrics. on_call now.
  pose proof (held_apply (pre ++ [ev (S := GpuSig) Now now]) gw name samples now (held_app _ _ _ Hh)) as Hh'.
  destruct (applyUtilizationSamples gw name samples now) as [gw' [|]]; cbn [negb fst] in *; [|split; [by split|done]].
  on_call u. set (pre1 := pre ++ [ev (S := GpuSig) Now now]) in *.
  assert (metrics_write pre1 (ev (S := GpuSig) (StatusUpdateGW gw') u)) as Hw by exact Hh'.
  assert (∀ tr, pre ++ ev (S := GpuSig) Now now :: tr = pre1 ++ tr) as Epre by (intros; unfold pre1; by rewrite <- app_assoc).
  assert (∀ tr, justified metrics_write pre1 tr → justified metrics_write pre (ev (S := GpuSig) Now now :: tr)) as Hj
    by (intros; by split).
  destruct u as [err|stored]; cycle 1.
  { cbn [always mret prog_ret]. split; [apply Hj; by split|]. rewrite Epre. exists stored.
    split; [apply seen_snoc_update|apply metrics_only_refl]. }
  destruct (IsConflict err); cbn [negb]; cycle 1.
  { split; [apply Hj; by split|]. rewrite Epre. by apply held_app. }
  on_call f. destruct f as [err'|fresh].
  { split; [apply Hj; by repeat split|]. rewrite Epre. by apply held_app. }
  set (pre2 := (pre1 ++ [ev (S := GpuSig) (StatusUpdateGW gw') (inl err)]) ++ [ev (S := GpuSig) (GetGW (gw_key gw')) (inr fresh)]).
  assert (held pre2 (applyUtilizationSamples fresh name samples now).1) as Hf.
  { exists fresh. split; [apply seen_snoc_get|apply apply_metrics_only]. }
  destruct (applyUtilizationSamples fresh name samples now) as [fresh' [|]]; cbn [negb fst] in *.
  - on_call u'. split; [apply Hj; by repeat (split; [done|])|]. rewrite Epre. by apply held_app.
  - split; [apply Hj; by repeat (split; [done|])|]. rewrite Epre. by apply held_app.
Qed.

Section poll_writes.
Context `{Host} `{GoOrder}.

(** A poll changes workloads only by recording samples: every write is the
    status of a version of the workload the server returned in this poll, with
    other metrics of its tracked pods and another time of the last update, and
    nothing else changed; in particular the phase, the idle time and the marks of
    preemption are the server's. *)
Theorem poll_writes_metrics_only s :
  always anything (poll s) (λ tr _, justified metrics_write [] tr).
Proof.
  unfold poll. on_call [err|metrics]; [by split|].
  destruct (metrics !! gpuActivityMetric) as [family|]; [|by split].
  destruct (parseGpuSamples family) as [|s0 samples]; [by split|].
  on_call [err|items]; [by repeat split|]. apply always_bind.
  set (pre := [ev (S := GpuSig) (Scrape (metricsEndpoint s)) (inr metrics); ev (S := GpuSig) ListGW (inr items)]).
  eapply always_mono; [apply (always_for_range anything
    (λ _ tr its, justified metrics_write pre tr ∧ Forall (held (pre ++ tr)) its)
    (λ tr _, justified metrics_write pre tr) (λ tr (_ : error), justified metrics_write pre tr)) with (tr0 := [])|].
  - by intros tr its [? _].
  - intros [pk podSamples] rest tr its [Hj Hits]. unfold pollPod.
    destruct (gwByPod items !! pk) as [i|]; [|simpl; rewrite app_nil_r; auto].
    destruct (its !! i) as [gw|] eqn:Hi; [|simpl; rewrite app_nil_r; auto].
    apply always_bind. eapply always_mono; [apply (updatePodMetrics_writes (pre ++ tr))|].
    { rewrite Forall_lookup in Hits. by eapply Hits. }
    intros tr' r [Hj' Hr]. cbn [always mret prog_ret]. rewrite !app_nil_r. split; [by apply justified_app|].
    rewrite app_assoc. apply Forall_insert; [|done]. eapply Forall_impl; [done|]. intros. by apply held_app.
  - split; [done|]. apply Forall_forall. intros gw Hgw. exists gw. split; [|apply metrics_only_refl].
    left. exists items. split; [|done]. right. by left.
  - intros tr [its|err]; cbn [always mret prog_ret]; rewrite app_nil_r; intros Hj; by repeat split.
Qed.

End poll_writes.
