(* ===== verification/Kueue.v ===== *)
(** The Kueue objects Kaiwo manages and the KaiwoQueueConfig that describes them
    (apis/kaiwo/v1alpha1/kaiwoqueueconfig_types.go), nodes, and the conversions
    and comparisons of internal/controller/utils/kueue.go. *)

From stdpp Require Import gmap strings list.
From Stdlib Require Import ZArith Lia.
From S2P Require Import Prelude Types.

(** * Slices, quantities and metadata *)

(** A slice for which nil and empty are told apart by [reflect.DeepEqual]. *)
Abbreviation slice A := (option (list A)).

(** Rewriting every element in place. *)
Definition map_slice {A B} (f : A → B) (s : slice A) : slice B := option_map (map f) s.

(** What ranging over a slice visits. *)
Definition elems {A} (s : slice A) : list A := default [] s.

(** [var s []T] after appending [l]. *)
Definition appended {A} (l : list A) : slice A := match l with [] => None | _ => Some l end.

Inductive Format := DecimalSI | BinarySI | DecimalExponent.

(** [resource.Quantity]: an amount, counted in billionths, and how it prints. *)
Record Quantity := { q_Nano : Z; q_Format : Format }.

Record ObjectMeta := {
  om_Name : string;
  om_Namespace : string;
  om_ResourceVersion : Z;
  om_Finalizers : list string;
  om_DeletionTimestamp : option Z;
  om_OwnerReferences : list OwnerReference
}.

(** [metav1.ObjectMeta{Name: name}]. *)
Definition named (name : string) : ObjectMeta :=
  {| om_Name := name; om_Namespace := ""; om_ResourceVersion := 0; om_Finalizers := []; om_DeletionTimestamp := None;
     om_OwnerReferences := [] |}.

Record Taint := { taint_Key : string; taint_Value : string; taint_Effect : string }.

#[export] Instance Format_eq_dec : EqDecision Format.
Proof. solve_decision. Defined.
#[export] Instance Quantity_eq_dec : EqDecision Quantity.
Proof. solve_decision. Defined.
#[export] Instance Taint_eq_dec : EqDecision Taint.
Proof. solve_decision. Defined.

(** * Nodes *)

(** A node as decoded from the API server: a nil map is an empty one. *)
Record Node := {
  node_Name : string;
  node_Labels : gmap string string;
  node_Unschedulable : bool;
  node_Taints : list Taint;
  node_Capacity : gmap string Quantity;
  node_Allocatable : gmap string Z
}.

Definition node_set_Labels (l : gmap string string) (n : Node) : Node :=
  {| node_Name := node_Name n; node_Labels := l; node_Unschedulable := node_Unschedulable n; node_Taints := node_Taints n;
     node_Capacity := node_Capacity n; node_Allocatable := node_Allocatable n |}.
Definition node_set_Taints (t : list Taint) (n : Node) : Node :=
  {| node_Name := node_Name n; node_Labels := node_Labels n; node_Unschedulable := node_Unschedulable n; node_Taints := t;
     node_Capacity := node_Capacity n; node_Allocatable := node_Allocatable n |}.

(** * Kueue objects *)

(** Selectors, policies, strategies and tolerations, which the controllers only
    copy and compare, are strings: their serialised form. *)

Record ResourceQuota := {
  rqt_Name : string;
  rqt_NominalQuota : Quantity;
  rqt_BorrowingLimit : option Quantity;
  rqt_LendingLimit : option Quantity
}.

Record FlavorQuotas := { fq_Name : string; fq_Resources : slice ResourceQuota }.
Record ResourceGroup := { rg_CoveredResources : slice string; rg_Flavors : slice FlavorQuotas }.

Record KueueClusterQueueSpec := {
  ks_ResourceGroups : slice ResourceGroup;
  ks_Cohort : string;
  ks_QueueingStrategy : string;
  ks_NamespaceSelector : option string;
  ks_FlavorFungibility : option string;
  ks_Preemption : option string;
  ks_AdmissionChecks : slice string;
  ks_AdmissionChecksStrategy : option string;
  ks_StopPolicy : option string;
  ks_FairSharing : option string
}.
Record KueueClusterQueue := { kq_Meta : ObjectMeta; kq_Spec : KueueClusterQueueSpec }.

Record KueueResourceFlavorSpec := {
  kfs_NodeLabels : option (gmap string string);
  kfs_NodeTaints : slice Taint;
  kfs_Tolerations : slice string;
  kfs_TopologyName : option string
}.
Record KueueResourceFlavor := { kf_Meta : ObjectMeta; kf_Spec : KueueResourceFlavorSpec }.

(** A topology is its levels' node labels. *)
Record KueueTopology := { kt_Meta : ObjectMeta; kt_Levels : slice string }.

Record KueueLocalQueue := { lq_Meta : ObjectMeta; lq_ClusterQueue : string }.
Record WorkloadPriorityClass := { pc_Meta : ObjectMeta; pc_Value : Z; pc_Description : string }.

#[export] Instance ResourceQuota_eq_dec : EqDecision ResourceQuota.
Proof. solve_decision. Defined.
#[export] Instance FlavorQuotas_eq_dec : EqDecision FlavorQuotas.
Proof. solve_decision. Defined.
#[export] Instance ResourceGroup_eq_dec : EqDecision ResourceGroup.
Proof. solve_decision. Defined.
#[export] Instance KueueClusterQueueSpec_eq_dec : EqDecision KueueClusterQueueSpec.
Proof. solve_decision. Defined.
#[export] Instance KueueResourceFlavorSpec_eq_dec : EqDecision KueueResourceFlavorSpec.
Proof. solve_decision. Defined.

(** * KaiwoQueueConfig *)

Record ClusterQueueSpec := {
  cqs_ResourceGroups : slice ResourceGroup;
  cqs_Cohort : string;
  cqs_QueueingStrategy : string;
  cqs_NamespaceSelector : option string;
  cqs_FlavorFungibility : option string;
  cqs_Preemption : option string;
  cqs_AdmissionChecks : slice string;
  cqs_AdmissionChecksStrategy : option string;
  cqs_StopPolicy : option string;
  cqs_FairSharing : option string
}.
Record ClusterQueue := { cq_Name : string; cq_Spec : ClusterQueueSpec; cq_Namespaces : list string }.

Record ResourceFlavorSpec := {
  rf_Name : string;
  rf_NodeLabels : gmap string string;
  rf_Taints : list Taint;
  rf_Tolerations : list string;
  rf_TopologyName : string
}.

Record Topology := { tp_Meta : ObjectMeta; tp_Levels : slice string }.

Record KaiwoQueueConfigSpec := {
  qs_ClusterQueues : list ClusterQueue;
  qs_ResourceFlavors : list ResourceFlavorSpec;
  qs_WorkloadPriorityClasses : list WorkloadPriorityClass;
  qs_Topologies : list Topology
}.

Definition QueueConfigStatusReady : string := "READY".
Definition QueueConfigStatusFailed : string := "FAILED".

Record KaiwoQueueConfig := { qc_Meta : ObjectMeta; qc_Spec : KaiwoQueueConfigSpec; qc_Status : string }.

Definition empty_spec : KaiwoQueueConfigSpec :=
  {| qs_ClusterQueues := []; qs_ResourceFlavors := []; qs_WorkloadPriorityClasses := []; qs_Topologies := [] |}.
(** [kaiwo.KaiwoQueueConfig{}]. *)
Definition zero_queueConfig : KaiwoQueueConfig := {| qc_Meta := named ""; qc_Spec := empty_spec; qc_Status := "" |}.

Definition qc_set_Spec (s : KaiwoQueueConfigSpec) (qc : KaiwoQueueConfig) : KaiwoQueueConfig :=
  {| qc_Meta := qc_Meta qc; qc_Spec := s; qc_Status := qc_Status qc |}.
Definition qc_set_Status (s : string) (qc : KaiwoQueueConfig) : KaiwoQueueConfig :=
  {| qc_Meta := qc_Meta qc; qc_Spec := qc_Spec qc; qc_Status := s |}.

(** * Labels *)

Definition DefaultNodePoolLabel : string := "kaiwo/nodepool".
Definition DefaultKaiwoWorkerLabel : string := "kaiwo/worker".
Definition GPUModelLabel : string := "kaiwo/gpu-model".
Definition DefaultTopologyBlockLabel : string := "kaiwo/topology-block".
Definition DefaultTopologyRackLabel : string := "kaiwo/topology-rack".
Definition DefaultTopologyHostLabel : string := "kubernetes.io/hostname".
Definition DefaultTopologyName : string := "default-topology".
Definition CPUOnly : string := "cpu-only".
Definition KaiwoQueueConfigName : string := "kaiwo".

(** * Conversions *)

Definition ConvertKaiwoToKueueResourceFlavor (f : ResourceFlavorSpec) : KueueResourceFlavor :=
  let nodeLabels := rf_NodeLabels f in
  let '(topologyRef, nodeLabels) :=
    if decide (rf_TopologyName f ≠ "") then (Some (rf_TopologyName f), nodeLabels)
    else (None, <[DefaultKaiwoWorkerLabel := "true"]> nodeLabels) in
  {| kf_Meta := named (rf_Name f);
     kf_Spec := {| kfs_NodeLabels := Some nodeLabels; kfs_NodeTaints := None; kfs_Tolerations := None;
                   kfs_TopologyName := topologyRef |} |}.

Definition ConvertKaiwoToKueueResourceFlavors (fs : list ResourceFlavorSpec) : list KueueResourceFlavor :=
  ConvertKaiwoToKueueResourceFlavor <$> fs.

Definition ConvertKaiwoToKueueTopology (t : Topology) : KueueTopology :=
  {| kt_Meta := named (om_Name (tp_Meta t)); kt_Levels := Some (elems (tp_Levels t)) |}.

Definition ConvertKaiwoToKueueTopologies (ts : list Topology) : list KueueTopology := ConvertKaiwoToKueueTopology <$> ts.

Definition ConvertKaiwoToKueueSpec (s : ClusterQueueSpec) : KueueClusterQueueSpec :=
  {| ks_ResourceGroups := cqs_ResourceGroups s; ks_Cohort := cqs_Cohort s; ks_QueueingStrategy := cqs_QueueingStrategy s;
     ks_NamespaceSelector := cqs_NamespaceSelector s; ks_FlavorFungibility := cqs_FlavorFungibility s;
     ks_Preemption := cqs_Preemption s; ks_AdmissionChecks := cqs_AdmissionChecks s;
     ks_AdmissionChecksStrategy := cqs_AdmissionChecksStrategy s; ks_StopPolicy := cqs_StopPolicy s;
     ks_FairSharing := cqs_FairSharing s |}.

Definition ConvertKaiwoToKueueClusterQueue (q : ClusterQueue) : KueueClusterQueue :=
  {| kq_Meta := named (cq_Name q); kq_Spec := ConvertKaiwoToKueueSpec (cq_Spec q) |}.

(** * Searching and comparing *)

Fixpoint FindFlavor (flavors : list KueueResourceFlavor) (name : string) : option KueueResourceFlavor :=
  match flavors with
  | [] => None
  | f :: fs => if decide (om_Name (kf_Meta f) = name) then Some f else FindFlavor fs name
  end.

Fixpoint FindTopology (topologies : list KueueTopology) (name : string) : option KueueTopology :=
  match topologies with
  | [] => None
  | t :: ts => if decide (om_Name (kt_Meta t) = name) then Some t else FindTopology ts name
  end.

Definition CompareResourceFlavors (a b : KueueResourceFlavor) : bool := bool_decide (kf_Spec a = kf_Spec b).
Definition CompareClusterQueues (a b : KueueClusterQueue) : bool := bool_decide (kq_Spec a = kq_Spec b).
Definition CompareTopologies (a b : KueueTopology) : bool := bool_decide (kt_Levels a = kt_Levels b).
Definition ComparePriorityClasses (a b : WorkloadPriorityClass) : bool := bool_decide (pc_Value a = pc_Value b).

(** * Cleaning and normalising *)

Definition stripTopologyFromResourceFlavors (fs : list ResourceFlavorSpec) : list ResourceFlavorSpec :=
  (λ f, {| rf_Name := rf_Name f; rf_NodeLabels := rf_NodeLabels f; rf_Taints := rf_Taints f;
           rf_Tolerations := rf_Tolerations f; rf_TopologyName := "" |}) <$> fs.

Fixpoint sanitizeTopologies (ts : list Topology) : list Topology :=
  match ts with
  | [] => []
  | t :: ts' =>
      if decide (om_Name (tp_Meta t) = "") then sanitizeTopologies ts'
      else {| tp_Meta := named (om_Name (tp_Meta t)); tp_Levels := tp_Levels t |} :: sanitizeTopologies ts'
  end.

(** The quotas of a flavor by resource name; the last of a name wins. *)
Definition quotaMap (quotas : list ResourceQuota) : gmap string ResourceQuota :=
  foldl (λ m q, <[rqt_Name q := q]> m) ∅ quotas.

(** The quotas of a flavor in the order of the covered resources. *)
Definition coveredQuotas (covered : list string) (quotas : list ResourceQuota) : slice ResourceQuota :=
  appended (omap (λ r, quotaMap quotas !! r) covered).

(** The loop of [syncClusterQueues] over groups and flavors, which rewrites the
    queue's specification in place. *)
Definition normalizeGroup (g : ResourceGroup) : ResourceGroup :=
  {| rg_CoveredResources := rg_CoveredResources g;
     rg_Flavors := map_slice (λ f, {| fq_Name := fq_Name f;
       fq_Resources := coveredQuotas (elems (rg_CoveredResources g)) (elems (fq_Resources f)) |}) (rg_Flavors g) |}.

Definition normalizeQueue (q : KueueClusterQueue) : KueueClusterQueue :=
  let s := kq_Spec q in
  {| kq_Meta := kq_Meta q;
     kq_Spec :=
       {| ks_ResourceGroups := map_slice normalizeGroup (ks_ResourceGroups s); ks_Cohort := ks_Cohort s;
          ks_QueueingStrategy := ks_QueueingStrategy s; ks_NamespaceSelector := ks_NamespaceSelector s;
          ks_FlavorFungibility := ks_FlavorFungibility s; ks_Preemption := ks_Preemption s;
          ks_AdmissionChecks := ks_AdmissionChecks s; ks_AdmissionChecksStrategy := ks_AdmissionChecksStrategy s;
          ks_StopPolicy := ks_StopPolicy s; ks_FairSharing := ks_FairSharing s |} |}.
