(* ===== verification/QueueApi.v ===== *)
(** The calls of the KaiwoQueueConfig controller, the library functions it relies
    on, and an API server that holds the Kueue objects and serves those calls. *)

From stdpp Require Import gmap strings list.
From Stdlib Require Import ZArith Lia.
From S2P Require Import Prelude Types Kueue.

(** * Calls *)

(** The fields of [KaiwoConfigSpec] the controller reads. *)
Record KaiwoConfigSpec := {
  kc_DefaultClusterQueueName : string;
  kc_DefaultClusterQueueCohortName : string;
  kc_DynamicallyUpdateDefaultClusterQueue : bool;
  kc_DefaultTopologyName : string;
  kc_DefaultGpuTaintKey : string;
  kc_ExcludeMasterNodesFromNodePools : bool;
  kc_AddTaintsToGpuNodes : bool
}.

(** The Kueue objects the controller writes. *)
Inductive kobj :=
| OFlavor (f : KueueResourceFlavor)
| OQueue (q : KueueClusterQueue)
| OLocal (l : KueueLocalQueue)
| OPriority (p : WorkloadPriorityClass)
| OTopology (t : KueueTopology).

Inductive queue_req :=
| GetKaiwoConfig (name : string)
| ListNodes
| GetNode (name : string)
| UpdateNode (n : Node)
| PatchNode (base n : Node)
| GetQueueConfig (name : string)
| CreateQueueConfig (qc : KaiwoQueueConfig)
| UpdateQueueConfig (qc : KaiwoQueueConfig)
| StatusUpdateQueueConfig (qc : KaiwoQueueConfig)
| ListFlavors
| ListQueues
| ListLocals
| ListPriorities
| ListTopologies
| GetFlavor (name : string)
| GetQueue (name : string)
| GetLocal (namespace name : string)
| GetPriority (name : string)
| CreateObj (o : kobj)
| UpdateObj (o : kobj)
| DeleteObj (o : kobj)
| RecordEvent (type : EventType) (reason message : string).

Definition queue_resp (r : queue_req) : Type :=
  match r with
  | GetKaiwoConfig _ => error + KaiwoConfigSpec
  | ListNodes => error + list Node
  | GetNode _ => error + Node
  | GetQueueConfig _ | UpdateQueueConfig _ => error + KaiwoQueueConfig
  | ListFlavors => error + list KueueResourceFlavor
  | ListQueues => error + list KueueClusterQueue
  | ListLocals => error + list KueueLocalQueue
  | ListPriorities => error + list WorkloadPriorityClass
  | ListTopologies => error + list KueueTopology
  | GetFlavor _ => error + KueueResourceFlavor
  | GetQueue _ => error + KueueClusterQueue
  | GetLocal _ _ => error + KueueLocalQueue
  | GetPriority _ => error + WorkloadPriorityClass
  | UpdateNode _ | PatchNode _ _ | CreateQueueConfig _ | StatusUpdateQueueConfig _
  | CreateObj _ | UpdateObj _ | DeleteObj _ => option error
  | RecordEvent _ _ _ => unit
  end.

Definition QueueSig : sig := Sig queue_req queue_resp.
Abbreviation QM := (prog QueueSig).
Abbreviation QueueRetry := (RetryOf QueueSig).

Lemma queue_resp_inhabited r : inhabited (resp QueueSig r).
Proof. destruct r; constructor; first [exact (inl NoMatchError) | exact None | exact tt]. Qed.

(** The call deletes [o]. *)
Definition deletes (o : kobj) (e : event QueueSig) : Prop := projT1 e = DeleteObj o.

(** * Library functions *)

(** What the controller uses of controller-runtime and of the Kubernetes API
    packages: owner references, finalizers, taints and error texts. *)
Class KubeLib := {
  ErrorText : error → string;
  (** "SetControllerReference sets owner as a Controller OwnerReference on
      controlled": nothing else of the object changes. *)
  SetControllerReference : ObjectMeta → ObjectMeta → error + ObjectMeta;
  SetControllerReference_keeps owner m m' : SetControllerReference owner m = inr m' →
    om_Name m' = om_Name m ∧ om_Namespace m' = om_Namespace m ∧ om_Finalizers m' = om_Finalizers m ∧
    om_DeletionTimestamp m' = om_DeletionTimestamp m;
  (** "RemoveFinalizer removes the provided finalizer if present. It returns an
      indication of whether it updated the object's list of finalizers." *)
  RemoveFinalizer : ObjectMeta → string → ObjectMeta * bool;
  RemoveFinalizer_removes m f :
    let '(m', updated) := RemoveFinalizer m f in
    om_Name m' = om_Name m ∧ om_Namespace m' = om_Namespace m ∧ om_DeletionTimestamp m' = om_DeletionTimestamp m ∧
    om_Finalizers m' = filter (λ g, g ≠ f) (om_Finalizers m) ∧ (updated = false → m' = m);
  (** "taints that have the same key and effect" match. *)
  MatchTaint : Taint → Taint → bool;
  MatchTaint_spec t u : MatchTaint t u = true ↔ taint_Key t = taint_Key u ∧ taint_Effect t = taint_Effect u
}.

(** * Objects *)

Definition set_kf_Meta (m : ObjectMeta) (f : KueueResourceFlavor) : KueueResourceFlavor := {| kf_Meta := m; kf_Spec := kf_Spec f |}.
Definition set_kq_Meta (m : ObjectMeta) (q : KueueClusterQueue) : KueueClusterQueue := {| kq_Meta := m; kq_Spec := kq_Spec q |}.
Definition set_lq_Meta (m : ObjectMeta) (l : KueueLocalQueue) : KueueLocalQueue := {| lq_Meta := m; lq_ClusterQueue := lq_ClusterQueue l |}.
Definition set_pc_Meta (m : ObjectMeta) (p : WorkloadPriorityClass) : WorkloadPriorityClass :=
  {| pc_Meta := m; pc_Value := pc_Value p; pc_Description := pc_Description p |}.
Definition set_kt_Meta (m : ObjectMeta) (t : KueueTopology) : KueueTopology := {| kt_Meta := m; kt_Levels := kt_Levels t |}.

Inductive kind := KFlavor | KQueue | KLocal | KPriority | KTopology.
#[export] Instance kind_eq_dec : EqDecision kind.
Proof. solve_decision. Defined.
#[export] Instance kind_countable : Countable kind.
Proof.
  refine (inj_countable' (λ k, match k with KFlavor => 0 | KQueue => 1 | KLocal => 2 | KPriority => 3 | KTopology => 4 end)%nat
    (λ n, match n with 0 => KFlavor | 1 => KQueue | 2 => KLocal | 3 => KPriority | _ => KTopology end)%nat _).
  by intros [].
Defined.

(** An object's kind, namespace and name. *)
Abbreviation okey := (kind * string * string)%type.

Definition objMeta (o : kobj) : ObjectMeta :=
  match o with
  | OFlavor f => kf_Meta f
  | OQueue q => kq_Meta q
  | OLocal l => lq_Meta l
  | OPriority p => pc_Meta p
  | OTopology t => kt_Meta t
  end.

Definition objKind (o : kobj) : kind :=
  match o with OFlavor _ => KFlavor | OQueue _ => KQueue | OLocal _ => KLocal | OPriority _ => KPriority | OTopology _ => KTopology end.

Definition setObjMeta (m : ObjectMeta) (o : kobj) : kobj :=
  match o with
  | OFlavor f => OFlavor (set_kf_Meta m f)
  | OQueue q => OQueue (set_kq_Meta m q)
  | OLocal l => OLocal (set_lq_Meta m l)
  | OPriority p => OPriority (set_pc_Meta m p)
  | OTopology t => OTopology (set_kt_Meta m t)
  end.

Definition objKey (o : kobj) : okey := (objKind o, om_Namespace (objMeta o), om_Name (objMeta o)).

(** * A server of Kueue objects *)

(** The objects the server holds, under their keys. *)
Definition okey_eq_dec : EqDecision okey := _.
Definition okey_countable : @Countable okey okey_eq_dec := _.
Abbreviation cluster := (@gmap okey okey_eq_dec okey_countable kobj).

Definition well_keyed (st : cluster) : Prop := ∀ k o, st !! k = Some o → objKey o = k.

Definition terminating (o : kobj) : Prop := om_DeletionTimestamp (objMeta o) ≠ None.
#[export] Instance terminating_dec o : Decision (terminating o).
Proof. unfold terminating. apply _. Defined.

(** Storing an object: one that is being deleted goes when its last finalizer has. *)
Definition put (o : kobj) (st : cluster) : cluster :=
  if decide (terminating o ∧ om_Finalizers (objMeta o) = []) then delete (objKey o) st else <[objKey o := o]> st.

Definition terminate (t : Z) (o : kobj) : kobj :=
  setObjMeta {| om_Name := om_Name (objMeta o); om_Namespace := om_Namespace (objMeta o);
                om_ResourceVersion := om_ResourceVersion (objMeta o); om_Finalizers := om_Finalizers (objMeta o);
                om_DeletionTimestamp := Some t; om_OwnerReferences := om_OwnerReferences (objMeta o) |} o.

(** Kueue refuses to change the specification of a flavor that has a topology. *)
Definition immutable (old o : kobj) : Prop :=
  match old, o with
  | OFlavor f, OFlavor g => kfs_TopologyName (kf_Spec f) ≠ None ∧ kf_Spec f ≠ kf_Spec g
  | _, _ => False
  end.

(** A listing of the objects of a kind, in any order. *)
Definition listed {A} (mk : A → kobj) (st : cluster) (x : error + list A) : Prop :=
  ∃ l, x = inr l ∧ NoDup ((λ a, objKey (mk a)) <$> l) ∧ ∀ a, a ∈ l ↔ st !! objKey (mk a) = Some (mk a).

Definition NotFound : error := StatusError ReasonNotFound.

(** How the server answers: reads give what it holds; a create of a name that is
    taken, and an update or delete of one that is missing, fail; an update that
    touches an immutable specification may be refused; a delete marks the object
    and removes it once no finalizer is left. *)
Definition answer (r : queue_req) : cluster → queue_resp r → cluster → Prop :=
  match r return cluster → queue_resp r → cluster → Prop with
  | ListFlavors => λ st x st', st' = st ∧ listed OFlavor st x
  | ListQueues => λ st x st', st' = st ∧ listed OQueue st x
  | ListLocals => λ st x st', st' = st ∧ listed OLocal st x
  | ListPriorities => λ st x st', st' = st ∧ listed OPriority st x
  | ListTopologies => λ st x st', st' = st ∧ listed OTopology st x
  | GetFlavor n => λ st x st', st' = st ∧ x = match st !! (KFlavor, "", n) with Some (OFlavor f) => inr f | _ => inl NotFound end
  | GetQueue n => λ st x st', st' = st ∧ x = match st !! (KQueue, "", n) with Some (OQueue f) => inr f | _ => inl NotFound end
  | GetLocal ns n => λ st x st', st' = st ∧ x = match st !! (KLocal, ns, n) with Some (OLocal f) => inr f | _ => inl NotFound end
  | GetPriority n => λ st x st', st' = st ∧ x = match st !! (KPriority, "", n) with Some (OPriority f) => inr f | _ => inl NotFound end
  | CreateObj o => λ st x st',
      match st !! objKey o with
      | None => x = None ∧ st' = <[objKey o := o]> st
      | Some _ => x = Some (StatusError ReasonAlreadyExists) ∧ st' = st
      end
  | UpdateObj o => λ st x st',
      match st !! objKey o with
      | None => x = Some NotFound ∧ st' = st
      | Some old => x = None ∧ st' = put o st ∨ immutable old o ∧ x = Some (StatusError ReasonInvalid) ∧ st' = st
      end
  | DeleteObj o => λ st x st',
      match st !! objKey o with
      | None => x = Some NotFound ∧ st' = st
      | Some old => x = None ∧ ∃ t, st' = put (terminate t old) st
      end
  | _ => λ st _ st', st' = st
  end.

Lemma objKey_terminate t o : objKey (terminate t o) = objKey o.
Proof. by destruct o. Qed.
Lemma terminating_terminate t o : terminating (terminate t o).
Proof. by destruct o. Qed.

Lemma put_lookup_ne o st k : k ≠ objKey o → put o st !! k = st !! k.
Proof. intros Hk. unfold put. case_decide; [by rewrite lookup_delete_ne|by rewrite lookup_insert_ne]. Qed.

Lemma put_live o st : ¬ terminating o → put o st = <[objKey o := o]> st.
Proof. intros Ho. unfold put. rewrite decide_False; [done|tauto]. Qed.

(** An object is out of the way when it is gone or going. *)
Definition gone (x : option kobj) : Prop := match x with None => True | Some o => terminating o end.

Lemma put_terminate_gone t o st : gone (put (terminate t o) st !! objKey o).
Proof.
  unfold put. rewrite objKey_terminate. case_decide.
  - by rewrite lookup_delete_eq.
  - rewrite lookup_insert_eq. apply terminating_terminate.
Qed.

(** The server answers every call. *)
Lemma listed_exists {A} (mk : A → kobj) (proj : kobj → option A) st :
  (∀ a, proj (mk a) = Some a) → (∀ o a, proj o = Some a → o = mk a) → well_keyed st → ∃ x, listed mk st x.
Proof.
  intros Hmk Hproj Hk. exists (inr (omap proj (map_to_list st).*2)), (omap proj (map_to_list st).*2). split; [done|].
  assert (∀ l : list (okey * kobj), (∀ k o, (k, o) ∈ l → objKey o = k) → NoDup l.*1 →
    NoDup ((λ a, objKey (mk a)) <$> omap proj l.*2) ∧ ∀ a, a ∈ omap proj l.*2 ↔ (objKey (mk a), mk a) ∈ l) as Hl.
  { clear Hk. intros l. induction l as [|[k o] l IH]; intros Hk Hnd; [split; [constructor|]; intros a; simpl; by rewrite !elem_of_nil|].
    cbn [fmap list_fmap] in *. apply NoDup_cons in Hnd as [Hk1 Hnd].
    destruct IH as [IH1 IH2]; [intros; apply Hk; by right|done|].
    assert (objKey o = k) as <- by (apply Hk; by left).
    assert (∀ a, a ∈ omap proj (o :: l.*2) ↔ (objKey (mk a), mk a) ∈ (objKey o, o) :: l) as Hin.
    { intros a. cbn. destruct (proj o) as [b|] eqn:E.
      - apply Hproj in E as ->. rewrite !elem_of_cons, IH2. split; [intros [->|?]; auto|].
        intros [E|?]; [|by right]. left. apply (f_equal snd), (f_equal proj) in E. cbn in E. rewrite !Hmk in E. congruence.
      - rewrite IH2, elem_of_cons. split; [by right|]. intros [E'|?]; [|done]. apply (f_equal snd) in E'. cbn in E'. subst o. by rewrite Hmk in E. }
    split; [|exact Hin]. cbn. destruct (proj o) as [b|] eqn:E; [|done]. apply Hproj in E as ->. apply NoDup_cons. split; [|done].
    intros (a & Ea & Ha)%list_elem_of_fmap. apply IH2 in Ha. apply Hk1. rewrite Ea. by apply (list_elem_of_fmap_2 fst) in Ha. }
  destruct (Hl (map_to_list st)) as [H1 H2].
  - intros k o Hko. apply Hk. by apply elem_of_map_to_list.
  - apply NoDup_fst_map_to_list.
  - split; [done|]. intros a. rewrite H2. apply elem_of_map_to_list.
Qed.

Lemma answer_exists r st : well_keyed st → ∃ x st', answer r st x st'.
Proof.
  intros Hk. destruct (queue_resp_inhabited r) as [x0].
  destruct r; try (by exists x0, st); try (by eexists _, _; split; [reflexivity|]); simpl.
  - destruct (listed_exists OFlavor (λ o, match o with OFlavor a => Some a | _ => None end) st) as [x Hx]; [done|by intros [] ? [= <-]|done|by exists x, st].
  - destruct (listed_exists OQueue (λ o, match o with OQueue a => Some a | _ => None end) st) as [x Hx]; [done|by intros [] ? [= <-]|done|by exists x, st].
  - destruct (listed_exists OLocal (λ o, match o with OLocal a => Some a | _ => None end) st) as [x Hx]; [done|by intros [] ? [= <-]|done|by exists x, st].
  - destruct (listed_exists OPriority (λ o, match o with OPriority a => Some a | _ => None end) st) as [x Hx]; [done|by intros [] ? [= <-]|done|by exists x, st].
  - destruct (listed_exists OTopology (λ o, match o with OTopology a => Some a | _ => None end) st) as [x Hx]; [done|by intros [] ? [= <-]|done|by exists x, st].
  - destruct (st !! objKey o); eauto.
  - destruct (st !! objKey o); eauto.
  - destruct (st !! objKey o) as [old|]; [|by eauto]. exists None, (put (terminate 0 old) st). split; [done|by exists 0].
Qed.

Lemma answer_keyed r st x st' : answer r st x st' → well_keyed st → well_keyed st'.
Proof.
  assert (∀ o st, well_keyed st → well_keyed (<[objKey o := o]> st)) as Hins.
  { intros o st0 Hk k o' [[<- <-]|[_ ?]]%lookup_insert_Some; auto. }
  assert (∀ o st, well_keyed st → well_keyed (put o st)) as Hput.
  { intros o st0 Hk. unfold put. case_decide; [|by apply Hins]. intros k o' [_ ?]%lookup_delete_Some. auto. }
  destruct r; simpl; try (by intros ->); try (by intros [-> _]).
  - destruct (st !! objKey o); [by intros [_ ->]|intros [_ ->]; apply Hins].
  - destruct (st !! objKey o); [intros [[_ ->]|(_ & _ & ->)]; auto|by intros [_ ->]].
  - destruct (st !! objKey o); [intros (_ & t & ->); auto|by intros [_ ->]].
Qed.
