(* ===== verification/QueueSync.v ===== *)
(** Syncing the Kueue objects with a KaiwoQueueConfig
    (internal/controller/kaiwoqueueconfig_controller.go: SyncKueueResources and
    the sync functions of each kind). *)

From stdpp Require Import gmap strings list.
From Stdlib Require Import ZArith Lia.
From S2P Require Import Prelude Text Types Kueue QueueApi.

(** * Events *)

(** On ASCII text. *)
Definition capitalize (s : string) : string :=
  match s with EmptyString => "" | String c s' => String (Str.upper_ascii c) s' end.

Definition ToPascalCase (s : string) : string := foldr (λ w acc, capitalize w +:+ acc) "" (Text.Fields s).

(** The loop variables of a sync: [success] and the names seen. *)
Abbreviation syncVars := (bool * gset string)%type.

(** Queue name, then namespace, to local queue. *)
Abbreviation staleMap := (gmap string (gmap string KueueLocalQueue)).

Abbreviation localVars := (bool * staleMap * gmap string ClusterQueue)%type.

Section sync.
Context `{KubeLib} `{GoOrder} (retries : QueueRetry).

Definition emitEvent (target action : string) (obj : option ObjectMeta) (err : option error) : QM unit :=
  let reason := "KaiwoQueueConfig" +:+ ToPascalCase target +:+ ToPascalCase action in
  let key := match obj with Some m => om_Namespace m +:+ "/" +:+ om_Name m | None => "" end in
  match err with
  | Some e =>
      call (S := QueueSig) (RecordEvent EventTypeWarning (reason +:+ "Failed")
        ("Failed to " +:+ action +:+ " " +:+ target +:+ " " +:+ key +:+ ": " +:+ ErrorText e))
  | None => call (S := QueueSig) (RecordEvent EventTypeNormal (reason +:+ "d") (action +:+ "d " +:+ target +:+ " " +:+ key))
  end.

(** * The loops over what exists *)

(** [if err != nil && !tolerated { success = false }]. *)
Definition noted (tolerate : bool) (err : option error) (success : bool) : bool :=
  match err with
  | None => success
  | Some e => if tolerate && IsNotFound e then success else false
  end.

(** The second loop of a sync function: delete the listed objects whose names are
    not expected. Only the flavors' loop counts a missing object as a failure. *)
Definition deleteUnexpected {A} (mk : A → kobj) (tolerate : bool) (target : string) (expected : gset string)
    (items : list A) (success : bool) : QM bool :=
  for_each items success (λ x success,
    if decide (om_Name (objMeta (mk x)) ∈ expected) then mret success
    else
      err ← call (S := QueueSig) (DeleteObj (mk x));
      _ ← emitEvent target "delete" (Some (objMeta (mk x))) err;
      mret (noted tolerate err success)).

(** * Resource flavors *)

Definition inUseFinalizer : string := "kueue.x-k8s.io/resource-in-use".

Definition replaceResourceFlavor (qc : KaiwoQueueConfig) (existing desired : KueueResourceFlavor) : QM bool :=
  let target := "resource flavor" in
  if decide (om_DeletionTimestamp (kf_Meta existing) ≠ None) then mret true
  else
    let existing := {| kf_Meta := kf_Meta existing; kf_Spec := kf_Spec desired |} in
    updateErr ← call (S := QueueSig) (UpdateObj (OFlavor existing));
    match updateErr with
    | None => _ ← emitEvent target "update" (Some (kf_Meta existing)) None; mret true
    | Some e =>
        if negb (IsInvalid e) && negb (IsForbidden e) then
          _ ← emitEvent target "update" (Some (kf_Meta existing)) (Some e); mret false
        else
          got ← call (S := QueueSig) (GetFlavor (om_Name (kf_Meta desired)));
          match got with
          | inl _ => mret false
          | inr fresh =>
              let '(meta, removed) := RemoveFinalizer (kf_Meta fresh) inUseFinalizer in
              let fresh := set_kf_Meta meta fresh in
              unlocked ← (if removed : bool then call (S := QueueSig) (UpdateObj (OFlavor fresh)) else mret None);
              match unlocked with
              | Some _ => mret false
              | None =>
                  deleted ← call (S := QueueSig) (DeleteObj (OFlavor fresh));
                  match deleted with
                  | Some e => _ ← emitEvent target "delete" (Some (kf_Meta fresh)) (Some e); mret false
                  | None =>
                      match SetControllerReference (qc_Meta qc) (kf_Meta desired) with
                      | inl e => _ ← emitEvent target "owner reference" (Some (kf_Meta desired)) (Some e); mret false
                      | inr meta =>
                          created ← call (S := QueueSig) (CreateObj (OFlavor (set_kf_Meta meta desired)));
                          _ ← emitEvent target "recreate" (Some meta) created;
                          mret true
                      end
                  end
              end
          end
    end.

(** The name has been handled. *)
Definition seen (name : string) (success : bool) (s : syncVars) : syncVars := (success, {[ name ]} ∪ s.2).

(** Setting the owner reference and creating a missing object; a failure to set
    the reference skips the rest of the iteration. *)
Definition createOwned (qc : KaiwoQueueConfig) (target : string) (o : kobj) (s : syncVars) : QM syncVars :=
  match SetControllerReference (qc_Meta qc) (objMeta o) with
  | inl e => _ ← emitEvent target "owner reference" (Some (objMeta o)) (Some e); mret (false, s.2)
  | inr meta =>
      err ← call (S := QueueSig) (CreateObj (setObjMeta meta o));
      _ ← emitEvent target "create" (Some meta) err;
      mret (seen (om_Name (objMeta o)) (noted false err s.1) s)
  end.

Definition syncFlavor (qc : KaiwoQueueConfig) (existing : list KueueResourceFlavor) (f : KueueResourceFlavor) (s : syncVars)
  : QM syncVars :=
  let name := om_Name (kf_Meta f) in
  match FindFlavor existing name with
  | None => createOwned qc "resource flavor" (OFlavor f) s
  | Some e =>
      if CompareResourceFlavors e f then mret (seen name s.1 s)
      else
        ok ← replaceResourceFlavor qc e f;
        mret (seen name (if ok : bool then s.1 else false) s)
  end.

Definition syncResourceFlavors (qc : KaiwoQueueConfig) (existing : list KueueResourceFlavor)
    (specs : list ResourceFlavorSpec) : QM bool :=
  s ← for_each (ConvertKaiwoToKueueResourceFlavors specs) (true, ∅) (syncFlavor qc existing);
  deleteUnexpected OFlavor false "resource flavor" s.2 existing s.1.

(** * Topologies *)

Definition syncTopology (qc : KaiwoQueueConfig) (existing : list KueueTopology) (t : KueueTopology) (s : syncVars) : QM syncVars :=
  let name := om_Name (kt_Meta t) in
  if decide (name = "") then mret s
  else
    match FindTopology existing name with
    | None => createOwned qc "topology" (OTopology t) s
    | Some e =>
        if CompareTopologies e t then mret (seen name s.1 s)
        else
          let e := {| kt_Meta := kt_Meta e; kt_Levels := kt_Levels t |} in
          err ← call (S := QueueSig) (UpdateObj (OTopology e));
          _ ← emitEvent "topology" "update" (Some (kt_Meta e)) err;
          mret (seen name (noted false err s.1) s)
    end.

Definition syncTopologies (qc : KaiwoQueueConfig) (existing : list KueueTopology) : QM bool :=
  s ← for_each (ConvertKaiwoToKueueTopologies (qs_Topologies (qc_Spec qc))) (true, ∅) (syncTopology qc existing);
  deleteUnexpected OTopology true "topology" s.2 existing s.1.

(** * Cluster queues *)

(** The closure retried on conflicts. *)
Definition updateQueue (q : KueueClusterQueue) : QM (option error) :=
  got ← call (S := QueueSig) (GetQueue (om_Name (kq_Meta q)));
  match got with
  | inl e => mret (Some e)
  | inr latest => call (S := QueueSig) (UpdateObj (OQueue {| kq_Meta := kq_Meta latest; kq_Spec := kq_Spec q |}))
  end.

Definition syncClusterQueue (qc : KaiwoQueueConfig) (kaiwoQueue : ClusterQueue) (s : syncVars) : QM syncVars :=
  let q := normalizeQueue (ConvertKaiwoToKueueClusterQueue kaiwoQueue) in
  let name := om_Name (kq_Meta q) in
  got ← call (S := QueueSig) (GetQueue name);
  match got with
  | inl e =>
      if IsNotFound e then createOwned qc "cluster queue" (OQueue q) s
      else
        _ ← emitEvent "cluster queue" "get" (Some (kq_Meta q)) (Some e);
        mret (seen name false s)
  | inr existing =>
      if CompareClusterQueues existing q then mret (seen name s.1 s)
      else
        err ← RetryOnConflict retries (updateQueue q);
        _ ← emitEvent "cluster queue" "update" (Some (kq_Meta existing)) err;
        mret (seen name (noted false err s.1) s)
  end.

Definition syncClusterQueues (qc : KaiwoQueueConfig) (existing : list KueueClusterQueue) : QM bool :=
  s ← for_each (qs_ClusterQueues (qc_Spec qc)) (true, ∅) (syncClusterQueue qc);
  deleteUnexpected OQueue true "cluster queue" s.2 existing s.1.

(** * Priority classes *)

Definition syncPriorityClass (qc : KaiwoQueueConfig) (p : WorkloadPriorityClass) (s : syncVars) : QM syncVars :=
  let name := om_Name (pc_Meta p) in
  got ← call (S := QueueSig) (GetPriority name);
  match got with
  | inl e =>
      if IsNotFound e then createOwned qc "workload priority class" (OPriority p) s
      else
        _ ← emitEvent "workload priority class" "get" (Some (pc_Meta p)) (Some e);
        mret (seen name false s)
  | inr existing =>
      if ComparePriorityClasses existing p then mret (seen name s.1 s)
      else
        let existing := {| pc_Meta := pc_Meta existing; pc_Value := pc_Value p; pc_Description := pc_Description existing |} in
        err ← call (S := QueueSig) (UpdateObj (OPriority existing));
        _ ← emitEvent "workload priority class" "update" (Some (pc_Meta existing)) err;
        mret (seen name (noted false err s.1) s)
  end.

Definition syncWorkloadPriorityClasses (qc : KaiwoQueueConfig) (existing : list WorkloadPriorityClass) : QM bool :=
  s ← for_each (qs_WorkloadPriorityClasses (qc_Spec qc)) (true, ∅) (syncPriorityClass qc);
  deleteUnexpected OPriority true "workload priority class" s.2 existing s.1.

(** * Local queues *)

Definition addStale (m : staleMap) (l : KueueLocalQueue) : staleMap :=
  let name := om_Name (lq_Meta l) in
  <[name := <[om_Namespace (lq_Meta l) := l]> (default ∅ (m !! name))]> m.

Definition buildStale (locals : list KueueLocalQueue) : staleMap := foldl addStale ∅ locals.

(** The local queue is expected: out of the stale map. *)
Definition unstale (name namespace : string) (m : staleMap) : staleMap :=
  match m !! name with
  | Some nm =>
      let nm := delete namespace nm in
      if decide (nm = ∅) then delete name m else <[name := nm]> m
  | None => m
  end.

Definition syncNamespace (queueMeta : ObjectMeta) (name namespace : string) (s : bool * staleMap) : QM (bool * staleMap) :=
  let localQueue :=
    {| lq_Meta := {| om_Name := name; om_Namespace := namespace; om_ResourceVersion := 0; om_Finalizers := [];
                     om_DeletionTimestamp := None; om_OwnerReferences := [] |};
       lq_ClusterQueue := name |} in
  got ← call (S := QueueSig) (GetLocal namespace name);
  match got with
  | inr _ => mret (s.1, unstale name namespace s.2)
  | inl e =>
      if IsNotFound e then
        match SetControllerReference queueMeta (lq_Meta localQueue) with
        | inl e => _ ← emitEvent "local queue" "owner reference" (Some (lq_Meta localQueue)) (Some e); mret (false, s.2)
        | inr meta =>
            err ← call (S := QueueSig) (CreateObj (OLocal (set_lq_Meta meta localQueue)));
            _ ← emitEvent "local queue" "create" (Some meta) err;
            mret (noted false err s.1, s.2)
        end
      else
        _ ← emitEvent "local queue" "get" None (Some e);
        mret (false, s.2)
  end.

Definition syncQueueNamespaces (cq : ClusterQueue) (s : localVars) : QM localVars :=
  let '(success, stale, lookup) := s in
  let lookup := <[cq_Name cq := cq]> lookup in
  got ← call (S := QueueSig) (GetQueue (cq_Name cq));
  match got with
  | inl e =>
      if IsNotFound e then mret (success, stale, lookup)
      else
        _ ← emitEvent "cluster queue" "get" (Some (named "")) (Some e);
        mret (false, stale, lookup)
  | inr actual =>
      match cq_Namespaces cq with
      | [] =>
          let stale := match stale !! cq_Name cq with
                       | Some nm => if decide (nm = ∅) then delete (cq_Name cq) stale else stale
                       | None => stale
                       end in
          mret (success, stale, lookup)
      | namespaces =>
          '(success, stale) ← for_each namespaces (success, stale) (syncNamespace (kq_Meta actual) (cq_Name cq));
          mret (success, stale, lookup)
      end
  end.

(** The clean-up of what stayed in the stale map, for the queues that list
    namespaces. *)
Definition deleteStale (lookup : gmap string ClusterQueue) (stale : staleMap) (success : bool) : QM bool :=
  for_each (rangeMap stale) success (λ '(queueName, nm) success,
    match lookup !! queueName with
    | Some cq =>
        match cq_Namespaces cq with
        | [] => mret success
        | _ =>
            for_each (rangeMap nm) success (λ '(_, l) success,
              err ← call (S := QueueSig) (DeleteObj (OLocal l));
              _ ← emitEvent "local queue" "delete" (Some (lq_Meta l)) err;
              mret (noted true err success))
        end
    | None => mret success
    end).

Definition syncLocalQueues (qc : KaiwoQueueConfig) (existing : list KueueLocalQueue) : QM bool :=
  '(success, stale, lookup) ← for_each (qs_ClusterQueues (qc_Spec qc)) (true, buildStale existing, ∅) syncQueueNamespaces;
  deleteStale lookup stale success.

(** * SyncKueueResources *)

Definition syncFailed : error := Errorf "failed to sync some Kueue resources".

(** [meta.IsNoMatchError]: the kind is not installed in the cluster. *)
Definition IsNoMatchError (e : error) : bool := match e with NoMatchError => true | _ => false end.

(** What follows the listings. *)
Definition syncAll (qc : KaiwoQueueConfig) (topologyAPIUnavailable : bool) (flavors : list KueueResourceFlavor)
    (queues : list KueueClusterQueue) (locals : list KueueLocalQueue) (priorities : list WorkloadPriorityClass)
    (topologies : list KueueTopology) : QM (option error) :=
  let specs := qs_ResourceFlavors (qc_Spec qc) in
  let flavorSpecs := if topologyAPIUnavailable then stripTopologyFromResourceFlavors specs else specs in
  topologiesOk ← (if topologyAPIUnavailable then mret true else syncTopologies qc topologies);
  flavorsOk ← syncResourceFlavors qc flavors flavorSpecs;
  queuesOk ← syncClusterQueues qc queues;
  localsOk ← syncLocalQueues qc locals;
  prioritiesOk ← syncWorkloadPriorityClasses qc priorities;
  mret (if prioritiesOk && (localsOk && (queuesOk && (flavorsOk && topologiesOk))) then None else Some syncFailed).

Definition SyncKueueResources (qc : KaiwoQueueConfig) : QM (option error) :=
  flavors ← call (S := QueueSig) ListFlavors;
  match flavors with
  | inl e => mret (Some e)
  | inr flavors =>
      queues ← call (S := QueueSig) ListQueues;
      match queues with
      | inl e => mret (Some e)
      | inr queues =>
          priorities ← call (S := QueueSig) ListPriorities;
          match priorities with
          | inl e => mret (Some e)
          | inr priorities =>
              locals ← call (S := QueueSig) ListLocals;
              match locals with
              | inl e => mret (Some e)
              | inr locals =>
                  topologies ← call (S := QueueSig) ListTopologies;
                  match topologies with
                  | inl e =>
                      if IsNoMatchError e then syncAll qc true flavors queues locals priorities []
                      else mret (Some e)
                  | inr topologies => syncAll qc false flavors queues locals priorities topologies
                  end
              end
          end
      end
  end.

End sync.
