(* ===== verification/QueueConverge.v ===== *)
(** What syncing does to a cluster: against a server that holds the Kueue objects
    ([QueueApi.answer]), the sync functions bring every kind to what the
    KaiwoQueueConfig describes. *)

From stdpp Require Import gmap strings list.
From Stdlib Require Import ZArith Lia.
From S2P Require Import Prelude Types Kueue QueueApi QueueSync.

(** * Rules *)

(** [settles st p Q]: every run of [p] the server serves from [st] ends with a
    result and a cluster in [Q]. *)
Definition settles {A : Type} (st : cluster) (p : QM A) (Q : A → cluster → Prop) : Prop :=
  ensures (S := QueueSig) answer st p (λ _ a st', Q a st').

Lemma settles_ret {A : Type} (st : cluster) (a : A) (Q : A → cluster → Prop) : Q a st → settles st (mret a) Q.
Proof. intros HQ. by apply (ensures_ret (S := QueueSig)). Qed.

Lemma settles_mono {A : Type} (st : cluster) (p : QM A) (Q Q' : A → cluster → Prop) :
  settles st p Q → (∀ a st', Q a st' → Q' a st') → settles st p Q'.
Proof. intros Hp HQ. eapply ensures_mono; [exact Hp|]. cbv beta. eauto. Qed.

Lemma settles_bind {A B : Type} (st : cluster) (p : QM A) (f : A → QM B) (Q : B → cluster → Prop) :
  settles st p (λ a st', settles st' (f a) Q) → settles st (p ≫= f) Q.
Proof. intros Hp. apply ensures_bind. exact Hp. Qed.

Lemma settles_call {B : Type} (st : cluster) r (f : queue_resp r → QM B) (Q : B → cluster → Prop) :
  (∀ x st1, answer r st x st1 → settles st1 (f x) Q) → settles st (call (S := QueueSig) r ≫= f) Q.
Proof. intros Hf. apply (ensures_call (S := QueueSig)). exact Hf. Qed.

Lemma settles_last (st : cluster) r (Q : queue_resp r → cluster → Prop) :
  (∀ x st1, answer r st x st1 → Q x st1) → settles st (call (S := QueueSig) r) Q.
Proof. intros HQ x _ st1 (w & Hw & <-). by apply HQ. Qed.

Tactic Notation "on_served" simple_intropattern(x) ident(st) ident(H) :=
  apply settles_call; intros x st H; cbn [answer] in H; cbv beta iota.

(** Loops whose iterations work on disjoint parts of the cluster: the part of an
    element is the keys with its tag. *)
Section footprint.
Context {A T St : Type} (tag : A → T) (ktag : okey → option T) (P : A → cluster → Prop) (advance : A → St → St).
Context (body : A → St → QM St).

Definition agree_at (x : A) (s1 s2 : cluster) : Prop := ∀ k, ktag k = Some (tag x) → s1 !! k = s2 !! k.

Context (P_ext : ∀ x s1 s2, agree_at x s1 s2 → P x s1 → P x s2).

Lemma footprint_loop (l : list A) s (st : cluster) :
  NoDup (tag <$> l) →
  (∀ x s st', x ∈ l → agree_at x st' st → settles st' (body x s) (λ s' st'',
     s' = advance x s ∧ P x st'' ∧ ∀ k, ktag k ≠ Some (tag x) → st'' !! k = st' !! k)) →
  settles st (for_each l s body) (λ s' st',
    s' = foldl (flip advance) s l ∧ (∀ x, x ∈ l → P x st') ∧
    ∀ k, (∀ x, x ∈ l → ktag k ≠ Some (tag x)) → st' !! k = st !! k).
Proof.
  revert s st. induction l as [|x l IH]; intros s st Hnd Hbody; cbn [for_each].
  { apply settles_ret. split; [done|]. split; [by intros x Hx%elem_of_nil|done]. }
  cbn [fmap list_fmap] in Hnd. apply NoDup_cons in Hnd as [Hx Hnd].
  apply settles_bind. eapply settles_mono; [apply Hbody; [by left|by intros k]|].
  intros s1 st1 (-> & HP & Hsame). eapply settles_mono.
  - apply IH; [done|]. intros y s2 st2 Hy Hag. apply Hbody; [by right|]. intros k Hk. rewrite (Hag k Hk).
    apply Hsame. rewrite Hk. intros [= E]. apply Hx. rewrite <- E. by apply list_elem_of_fmap_2.
  - intros s' st' (-> & Hall & Hrest). split; [done|]. split.
    + intros y [->|Hy]%elem_of_cons; [|by apply Hall]. eapply P_ext; [|exact HP]. intros k Hk. symmetry. apply Hrest.
      intros y Hy E. rewrite Hk in E. injection E as E. apply Hx. rewrite E. by apply list_elem_of_fmap_2.
    + intros k Hk. rewrite Hrest; [|intros y Hy; apply Hk; by right]. apply Hsame, Hk. by left.
Qed.

End footprint.

(** Iterations that each own one key. *)
Lemma key_loop {A St : Type} (key : A → okey) (P : A → option kobj → Prop) (advance : A → St → St) (body : A → St → QM St) (l : list A) s (st : cluster) :
  NoDup (key <$> l) →
  (∀ x s st', x ∈ l → st' !! key x = st !! key x → settles st' (body x s) (λ s' st'',
     s' = advance x s ∧ P x (st'' !! key x) ∧ ∀ k, k ≠ key x → st'' !! k = st' !! k)) →
  settles st (for_each l s body) (λ s' st',
    s' = foldl (flip advance) s l ∧ (∀ x, x ∈ l → P x (st' !! key x)) ∧ ∀ k, k ∉ key <$> l → st' !! k = st !! k).
Proof.
  intros Hnd Hbody. eapply settles_mono.
  - apply (footprint_loop key Some (λ x st, P x (st !! key x)) advance body); [|done|].
    + intros x s1 s2 Hag. by rewrite (Hag (key x) eq_refl).
    + intros x s' st' Hx Hag. eapply settles_mono; [apply Hbody; [done|by apply Hag]|].
      intros s'' st'' (? & ? & Hsame). repeat split; [done..|]. intros k Hk. apply Hsame. congruence.
  - intros s' st' (? & ? & Hrest). repeat split; [done..|]. intros k Hk. apply Hrest. intros x Hx [= ->].
    apply Hk. by apply list_elem_of_fmap_2.
Qed.

Section converge.
Context `{KubeLib} `{GoOrder} (retries : QueueRetry).

(** Objects stay under their keys. *)
Lemma settles_keyed {A : Type} (st : cluster) (p : QM A) (Q : A → cluster → Prop) :
  well_keyed st → settles st p Q → settles st p (λ a st', Q a st' ∧ well_keyed st').
Proof.
  intros Hk Hp. unfold settles, ensures in *. eapply always_mono; [exact Hp|]. cbv beta. intros tr a HQ st' Hs.
  split; [by apply HQ|]. clear HQ Hp. revert st Hk Hs. induction tr as [|[r x] tr IH]; intros st Hk; simpl; [by intros <-|].
  intros (st1 & Hx & Hs). eapply IH; [|exact Hs]. by eapply answer_keyed.
Qed.

(** Recording an event leaves the cluster as it is. *)
Lemma settles_emit {B : Type} (st : cluster) target action obj err (f : unit → QM B) (Q : B → cluster → Prop) :
  settles st (f tt) Q → settles st (emitEvent target action obj err ≫= f) Q.
Proof. intros Hf. unfold emitEvent. destruct err; on_served [] st1 Hx; by subst st1. Qed.

(** Owner references can be set. *)
Definition owners_ok : Prop := ∀ owner m, ∃ m', SetControllerReference owner m = inr m'.

Lemma objKey_setMeta m o : om_Name m = om_Name (objMeta o) → om_Namespace m = om_Namespace (objMeta o) →
  objKey (setObjMeta m o) = objKey o.
Proof. by destruct o; unfold objKey; simpl; intros -> ->. Qed.

Lemma createOwned_settles qc target o s (st : cluster) :
  owners_ok → st !! objKey o = None →
  settles st (createOwned qc target o s) (λ s' st', s' = seen (om_Name (objMeta o)) s.1 s ∧
    (∃ m, st' !! objKey o = Some (setObjMeta m o)) ∧ ∀ k, k ≠ objKey o → st' !! k = st !! k).
Proof.
  intros Hown Hnone. unfold createOwned. destruct (Hown (qc_Meta qc) (objMeta o)) as [m Hm]. rewrite Hm.
  destruct (SetControllerReference_keeps _ _ _ Hm) as (Hn & Hns & _).
  on_served x st1 Hx. rewrite objKey_setMeta, Hnone in Hx by done. destruct Hx as [-> ->]. apply settles_emit, settles_ret.
  split; [done|]. split; [exists m; by rewrite lookup_insert_eq|]. intros k Hk. by rewrite lookup_insert_ne.
Qed.

(** Deleting an object the server holds. *)
Lemma delete_settles (st : cluster) o target (tolerate : bool) (success : bool) :
  st !! objKey o = Some o →
  settles st (err ← call (S := QueueSig) (DeleteObj o); _ ← emitEvent target "delete" (Some (objMeta o)) err; mret (noted tolerate err success))
    (λ s' st', s' = success ∧ gone (st' !! objKey o) ∧ ∀ k, k ≠ objKey o → st' !! k = st !! k).
Proof.
  intros Ho. on_served x st1 Hx. rewrite Ho in Hx. destruct Hx as (-> & t & ->). apply settles_emit, settles_ret.
  split; [done|]. split; [apply put_terminate_gone|]. intros k Hk. apply put_lookup_ne. by rewrite objKey_terminate.
Qed.

(** * One kind of cluster-scoped objects *)

(** [items] are the objects of kind [K] the cluster holds. *)
Definition holds {A : Type} (K : kind) (mk : A → kobj) (items : list A) (st : cluster) : Prop :=
  NoDup ((λ a, objKey (mk a)) <$> items) ∧
  (∀ a, a ∈ items → objKey (mk a) = (K, "", om_Name (objMeta (mk a))) ∧ st !! objKey (mk a) = Some (mk a)) ∧
  (∀ n o, st !! (K, "", n) = Some o → ∃ a, a ∈ items ∧ o = mk a ∧ om_Name (objMeta (mk a)) = n).

Lemma holds_find {A : Type} K (mk : A → kobj) items (st : cluster) n :
  holds K mk items st →
  (∃ a, a ∈ items ∧ om_Name (objMeta (mk a)) = n ∧ st !! (K, "", n) = Some (mk a)) ∨
  (∀ a, a ∈ items → om_Name (objMeta (mk a)) ≠ n) ∧ st !! (K, "", n) = None.
Proof.
  intros (_ & Hin & Hall). destruct (st !! (K, "", n)) as [o|] eqn:E.
  - left. destruct (Hall n o E) as (a & Ha & -> & Hn). eauto.
  - right. split; [|done]. intros a Ha <-. destruct (Hin a Ha) as [Hk Hst]. rewrite Hk in Hst. congruence.
Qed.

(** What a sync of the kind leaves: every expected object meets [good], whatever
    else there was is gone or going, and other kinds are untouched. *)
Definition synced_kind {A : Type} (K : kind) (name : A → string) (good : A → option kobj → Prop) (expected : list A)
    (st st' : cluster) : Prop :=
  (∀ x, x ∈ expected → good x (st' !! (K, "", name x))) ∧
  (∀ n, n ∉ name <$> expected → gone (st' !! (K, "", n))) ∧
  (∀ k, k.1.1 ≠ K → st' !! k = st !! k).

(** The two loops of a sync function. *)
Lemma sync_kind_settles {A B : Type} K (name : A → string) (good : A → option kobj → Prop) (mk : B → kobj)
    (expected : list A) (items : list B) body tolerate target (st : cluster) :
  holds K mk items st → NoDup (name <$> expected) →
  (∀ x s st', x ∈ expected → st' !! (K, "", name x) = st !! (K, "", name x) → settles st' (body x s) (λ s' st'',
     s' = seen (name x) s.1 s ∧ good x (st'' !! (K, "", name x)) ∧ ∀ k, k ≠ (K, "", name x) → st'' !! k = st' !! k)) →
  settles st (s ← for_each expected (true, ∅) body; deleteUnexpected mk tolerate target s.2 items s.1)
    (λ ok st', ok = true ∧ synced_kind K name good expected st st').
Proof.
  intros (Hnd & Hin & Hall) Hnames Hbody. apply settles_bind. eapply settles_mono.
  - apply (key_loop (λ x, (K, "", name x)) good (λ x s, seen (name x) s.1 s) body expected); [|exact Hbody].
    revert Hnames. generalize expected as l. induction l; cbn; [constructor|]. rewrite !NoDup_cons. intros [Hx ?]. split; [|auto].
    intros (y & [= E] & Hy)%list_elem_of_fmap. apply Hx. rewrite E. by apply list_elem_of_fmap_2.
  - intros s st1 (-> & Hgood & Hsame).
    assert (∀ l s0, foldl (flip (λ x s, seen (name x) s.1 s)) (true, s0) l = (true, list_to_set (name <$> l) ∪ s0)) as Hfold.
    { induction l as [|x l IH]; intros s0; cbn; [f_equal; set_solver|]. unfold seen at 2. cbn. rewrite IH. f_equal. set_solver. }
    rewrite Hfold. cbn [fst snd]. rewrite union_empty_r_L.
    assert (∀ k, k.1.1 ≠ K ∨ k.2 ∉ name <$> expected → st1 !! k = st !! k) as Hout.
    { intros k Hk. apply Hsame. intros (x & -> & Hx)%list_elem_of_fmap. destruct Hk as [Hk|Hk]; [done|]. apply Hk.
      by apply (list_elem_of_fmap_2 name). }
    eapply settles_mono.
    + apply (key_loop (λ a, objKey (mk a)) (λ a v, if decide (om_Name (objMeta (mk a)) ∈ name <$> expected)
        then v = st1 !! objKey (mk a) else gone v) (λ _ s, s)); [done|].
      intros a s st' Ha Hst. destruct (Hin a Ha) as [Hk Ho].
      destruct (decide (om_Name (objMeta (mk a)) ∈ name <$> expected)) as [Hx|Hx].
      * rewrite (decide_True (P := _ ∈ list_to_set _)) by set_solver. by apply settles_ret.
      * rewrite (decide_False (P := _ ∈ list_to_set _)) by set_solver. apply delete_settles. rewrite Hst, Hout; [done|]. rewrite Hk. by right.
    + intros ok st' (-> & Hdel & Hkeep). split; [|split; [|split]].
      * clear. by induction items.
      * intros x Hx. destruct (decide ((K, "", name x) ∈ (λ a, objKey (mk a)) <$> items)) as [(a & Ea & Ha)%list_elem_of_fmap|Hno].
        -- specialize (Hdel a Ha). cbv beta in Hdel. destruct (Hin a Ha) as [Hk _]. rewrite decide_True in Hdel.
           ++ rewrite <- Ea in Hdel. rewrite Hdel. by apply Hgood.
           ++ rewrite Hk in Ea. injection Ea as <-. by apply (list_elem_of_fmap_2 name).
        -- rewrite Hkeep by done. by apply Hgood.
      * intros n Hn. destruct (decide ((K, "", n) ∈ (λ a, objKey (mk a)) <$> items)) as [(a & Ea & Ha)%list_elem_of_fmap|Hno].
        -- specialize (Hdel a Ha). cbv beta in Hdel. destruct (Hin a Ha) as [Hk _]. rewrite decide_False in Hdel.
           ++ by rewrite Ea.
           ++ rewrite Hk in Ea. by injection Ea as <-.
        -- rewrite Hkeep, Hout by auto. destruct (st !! (K, "", n)) as [o|] eqn:E; [|done].
           destruct (Hall n o E) as (a & Ha & -> & Hname). exfalso. apply Hno. destruct (Hin a Ha) as [Hk _].
           rewrite <- Hname, <- Hk. by apply (list_elem_of_fmap_2 (λ a, objKey (mk a))).
      * intros k Hk. rewrite Hkeep; [apply Hout; by left|]. intros (a & -> & Ha)%list_elem_of_fmap. apply Hk.
        by destruct (Hin a Ha) as [-> _].
Qed.

(** * Well-formed clusters *)

(** Objects sit under their own keys, only local queues have a namespace, and
    what is being deleted still has a finalizer. *)
Record well_formed (st : cluster) : Prop := {
  wf_keyed : well_keyed st;
  wf_scoped k o : st !! k = Some o → objKind o ≠ KLocal → om_Namespace (objMeta o) = "";
  wf_lingers k o : st !! k = Some o → terminating o → om_Finalizers (objMeta o) ≠ []
}.

Lemma listed_holds {A : Type} K (mk : A → kobj) items (st : cluster) :
  (∀ a, objKind (mk a) = K) → (∀ o, objKind o = K → ∃ a, o = mk a) → K ≠ KLocal → well_formed st →
  listed mk st (inr items) → holds K mk items st.
Proof.
  intros Hkind Hall HK Hwf (l & [= <-] & Hnd & Hin). split; [done|]. split.
  - intros a Ha. apply Hin in Ha. split; [|done]. unfold objKey. rewrite Hkind. f_equal. f_equal.
    apply (wf_scoped _ Hwf _ _ Ha). by rewrite Hkind.
  - intros n o Ho. pose proof (wf_keyed _ Hwf _ _ Ho) as Hk. assert (objKind o = K) as HKo by (unfold objKey in Hk; congruence).
    destruct (Hall o HKo) as [a ->]. exists a. split; [apply Hin; by rewrite Hk|]. split; [done|]. unfold objKey in Hk. congruence.
Qed.

Lemma holds_agree {A : Type} K (mk : A → kobj) items (st st' : cluster) :
  (∀ k, k.1.1 = K → st' !! k = st !! k) → holds K mk items st → holds K mk items st'.
Proof.
  intros Hag (Hnd & Hin & Hall). split; [done|]. split.
  - intros a Ha. destruct (Hin a Ha) as [Hk Hst]. split; [done|]. rewrite Hag; [done|by rewrite Hk].
  - intros n o Ho. apply Hall. by rewrite <- Hag.
Qed.

(** * Resource flavors *)

Lemma FindFlavor_holds items (st : cluster) n :
  holds KFlavor OFlavor items st →
  match FindFlavor items n with
  | Some f => om_Name (kf_Meta f) = n ∧ om_Namespace (kf_Meta f) = "" ∧ st !! (KFlavor, "", n) = Some (OFlavor f)
  | None => st !! (KFlavor, "", n) = None
  end.
Proof.
  intros Hh. destruct (FindFlavor items n) as [f|] eqn:E.
  - assert (f ∈ items ∧ om_Name (kf_Meta f) = n) as [Hf <-].
    { clear Hh. induction items as [|g items IH]; cbn in E; [done|]. case_decide; [injection E as ->; split; [by left|done]|].
      destruct (IH E). split; [by right|done]. }
    destruct Hh as (_ & Hin & _). destruct (Hin f Hf) as [Hk Hst]. rewrite Hk in Hst. split; [done|]. split; [|done].
    unfold objKey in Hk. cbn in Hk. congruence.
  - destruct (holds_find _ _ _ _ n Hh) as [(f & Hf & Hn & _)|[_ ?]]; [|done]. exfalso. clear Hh.
    induction items as [|g items IH]; [by apply elem_of_nil in Hf|]. cbn in E. case_decide as Hd; [done|].
    apply elem_of_cons in Hf as [->|Hf]; [done|]. by apply IH.
Qed.

(** The flavor is there with the expected specification, or an old one is going. *)
Definition good_flavor (f : KueueResourceFlavor) (v : option kobj) : Prop :=
  ∃ g, v = Some (OFlavor g) ∧ (kf_Spec g = kf_Spec f ∨ terminating (OFlavor g)).

Lemma replaceResourceFlavor_settles qc e d (st : cluster) :
  owners_ok → om_Namespace (kf_Meta d) = "" → objKey (OFlavor e) = objKey (OFlavor d) →
  st !! objKey (OFlavor d) = Some (OFlavor e) →
  settles st (replaceResourceFlavor qc e d) (λ ok st', ok = true ∧ good_flavor d (st' !! objKey (OFlavor d)) ∧
    ∀ k, k ≠ objKey (OFlavor d) → st' !! k = st !! k).
Proof.
  intros Hown Hns Hkey Hst. unfold replaceResourceFlavor. case_decide as Hterm.
  { apply settles_ret. split; [done|]. split; [|done]. exists e. auto. }
  assert (¬ terminating (OFlavor e)) as Hlive by (intros Ht; by apply Ht).
  on_served x st1 Hx. change (objKey (OFlavor {| kf_Meta := kf_Meta e; kf_Spec := kf_Spec d |})) with (objKey (OFlavor e)) in Hx.
  rewrite Hkey, Hst in Hx. destruct Hx as [[-> ->]|(_ & -> & ->)].
  { apply settles_emit, settles_ret. split; [done|]. rewrite put_live by done.
    change (objKey (OFlavor {| kf_Meta := kf_Meta e; kf_Spec := kf_Spec d |})) with (objKey (OFlavor e)). rewrite Hkey.
    split; [rewrite lookup_insert_eq; eexists; split; [done|by left]|]. intros k Hk. by rewrite lookup_insert_ne. }
  cbn [negb andb]. on_served y st1 Hy. destruct Hy as [-> ->].
  assert ((KFlavor, "", om_Name (kf_Meta d)) = objKey (OFlavor d)) as -> by (unfold objKey; cbn; by rewrite Hns).
  rewrite Hst. pose proof (RemoveFinalizer_removes (kf_Meta e) inUseFinalizer) as Hrem.
  destruct (RemoveFinalizer (kf_Meta e) inUseFinalizer) as [m removed]. destruct Hrem as (Hn & Hns' & Hdt & _ & Hsame).
  assert (objKey (OFlavor (set_kf_Meta m e)) = objKey (OFlavor d)) as Hkm.
  { rewrite <- Hkey. unfold objKey. cbn. by rewrite Hn, Hns'. }
  apply settles_bind. eapply (settles_mono _ _ (λ r st', r = None ∧ st' = <[objKey (OFlavor d) := OFlavor (set_kf_Meta m e)]> st)).
  { destruct removed.
    - apply settles_last. intros r st1 Hr. cbn [answer] in Hr. rewrite Hkm, Hst in Hr.
      destruct Hr as [[-> ->]|([_ Hne] & _)]; [|done]. split; [done|]. rewrite put_live, Hkm; [done|]. unfold terminating. cbn. by rewrite Hdt.
    - apply settles_ret. split; [done|]. rewrite (Hsame eq_refl). rewrite insert_id; [done|]. rewrite Hst. by destruct e. }
  intros r st1 [-> ->]. cbv beta iota. on_served z st1 Hz. rewrite Hkm, lookup_insert_eq in Hz. destruct Hz as (-> & t & ->).
  destruct (Hown (qc_Meta qc) (kf_Meta d)) as [m' Hm']. rewrite Hm'.
  destruct (SetControllerReference_keeps _ _ _ Hm') as (Hn2 & Hns2 & _).
  assert (objKey (OFlavor (set_kf_Meta m' d)) = objKey (OFlavor d)) as Hkd by (unfold objKey; cbn; by rewrite Hn2, Hns2).
  set (st2 := put _ _). assert (gone (st2 !! objKey (OFlavor d))) as Hgone by (subst st2; rewrite <- Hkm; apply put_terminate_gone).
  assert (∀ k, k ≠ objKey (OFlavor d) → st2 !! k = st !! k) as Hframe.
  { intros k Hk. subst st2. rewrite put_lookup_ne by (rewrite objKey_terminate, Hkm; done). by rewrite lookup_insert_ne. }
  on_served u st3 Hu. rewrite Hkd in Hu. destruct (st2 !! objKey (OFlavor d)) as [o|] eqn:E.
  - destruct Hu as [-> ->]. apply settles_emit, settles_ret. split; [done|]. split; [|done]. rewrite E.
    subst st2. unfold put in E. case_decide; [by rewrite objKey_terminate, Hkm, lookup_delete_eq in E|].
    rewrite objKey_terminate, Hkm, lookup_insert_eq in E. injection E as <-. eexists. split; [done|]. right. exact Hgone.
  - destruct Hu as [-> ->]. apply settles_emit, settles_ret. split; [done|].
    rewrite lookup_insert_eq. split; [eexists; split; [done|by left]|]. intros k Hk. rewrite lookup_insert_ne by done. by apply Hframe.
Qed.

Lemma ConvertFlavor_meta f :
  om_Name (kf_Meta (ConvertKaiwoToKueueResourceFlavor f)) = rf_Name f ∧
  om_Namespace (kf_Meta (ConvertKaiwoToKueueResourceFlavor f)) = "".
Proof. unfold ConvertKaiwoToKueueResourceFlavor. by case_decide. Qed.

Lemma syncResourceFlavors_settles qc items specs (st : cluster) :
  owners_ok → holds KFlavor OFlavor items st → NoDup (rf_Name <$> specs) →
  settles st (syncResourceFlavors qc items specs) (λ ok st', ok = true ∧
    synced_kind KFlavor (λ f, om_Name (kf_Meta f)) good_flavor (ConvertKaiwoToKueueResourceFlavors specs) st st').
Proof.
  intros Hown Hh Hnd. apply sync_kind_settles; [done| |].
  { unfold ConvertKaiwoToKueueResourceFlavors. rewrite <- list_fmap_compose.
    rewrite (list_fmap_ext _ rf_Name specs); [done|]. intros i f _. unfold compose. apply ConvertFlavor_meta. }
  intros f s st' (r & -> & _)%list_elem_of_fmap Hst.
  assert (om_Namespace (kf_Meta (ConvertKaiwoToKueueResourceFlavor r)) = "") as Hns
    by apply ConvertFlavor_meta.
  set (f := ConvertKaiwoToKueueResourceFlavor r) in *.
  assert ((KFlavor, "", om_Name (kf_Meta f)) = objKey (OFlavor f)) as Hk by (unfold objKey; cbn; by rewrite Hns).
  unfold syncFlavor. pose proof (FindFlavor_holds items st (om_Name (kf_Meta f)) Hh) as Hfind.
  destruct (FindFlavor items _) as [e|].
  - destruct Hfind as (Hen & Hens & He). rewrite He in Hst. unfold CompareResourceFlavors. case_bool_decide as Hcmp.
    + apply settles_ret. split; [done|]. split; [|done]. rewrite Hst. exists e. auto.
    + apply settles_bind. eapply settles_mono.
      * apply replaceResourceFlavor_settles; [done..| |by rewrite <- Hk].
        unfold objKey. cbn. by rewrite Hen, Hens, Hns.
      * intros ok st'' (-> & Hg & Hf). apply settles_ret. rewrite Hk. done.
  - rewrite Hfind in Hst. eapply settles_mono; [apply createOwned_settles; [done|by rewrite <- Hk]|].
    intros s' st'' (-> & (m & Hm) & Hf). rewrite Hk. split; [done|]. split; [|done]. rewrite Hm. eexists. split; [done|by left].
Qed.

(** * Topologies, cluster queues and priority classes *)

(** The object is under its key, and has a finalizer if it is being deleted. *)
Definition settled_at (k : okey) (o : kobj) : Prop := objKey o = k ∧ (terminating o → om_Finalizers (objMeta o) ≠ []).

Definition settled_kind (K : kind) (st : cluster) : Prop := ∀ k o, k.1.1 = K → st !! k = Some o → settled_at k o.

Lemma wf_settled K (st st' : cluster) : well_formed st → (∀ k, k.1.1 = K → st' !! k = st !! k) → settled_kind K st'.
Proof.
  intros Hwf Hag k o Hk Ho. rewrite Hag in Ho by done. split; [by apply (wf_keyed _ Hwf)|by apply (wf_lingers _ Hwf _ _ Ho)].
Qed.

(** Updating an object the server holds, keeping its metadata. *)
Lemma put_same_meta o old (st : cluster) :
  objMeta o = objMeta old → (terminating old → om_Finalizers (objMeta old) ≠ []) → put o st = <[objKey o := o]> st.
Proof.
  intros Hm Hl. unfold put. rewrite decide_False; [done|]. unfold terminating in *. rewrite Hm. intros [? ?]. by apply Hl.
Qed.

Lemma update_settles (st : cluster) o old target name s :
  st !! objKey o = Some old → objMeta o = objMeta old → (terminating old → om_Finalizers (objMeta old) ≠ []) → ¬ immutable old o →
  settles st (err ← call (S := QueueSig) (UpdateObj o); _ ← emitEvent target "update" (Some (objMeta o)) err;
              mret (seen name (noted false err s.1) s))
    (λ s' st', s' = seen name s.1 s ∧ st' !! objKey o = Some o ∧ ∀ k, k ≠ objKey o → st' !! k = st !! k).
Proof.
  intros Ho Hm Hl Him. on_served x st1 Hx. rewrite Ho in Hx. destruct Hx as [[-> ->]|(? & _)]; [|done].
  apply settles_emit, settles_ret. split; [done|]. rewrite (put_same_meta o old) by done.
  split; [by rewrite lookup_insert_eq|]. intros k Hk. by rewrite lookup_insert_ne.
Qed.

Lemma FindTopology_holds items (st : cluster) n :
  holds KTopology OTopology items st →
  match FindTopology items n with
  | Some t => om_Name (kt_Meta t) = n ∧ om_Namespace (kt_Meta t) = "" ∧ st !! (KTopology, "", n) = Some (OTopology t)
  | None => st !! (KTopology, "", n) = None
  end.
Proof.
  intros Hh. destruct (FindTopology items n) as [f|] eqn:E.
  - assert (f ∈ items ∧ om_Name (kt_Meta f) = n) as [Hf <-].
    { clear Hh. induction items as [|g items IH]; cbn in E; [done|]. case_decide; [injection E as ->; split; [by left|done]|].
      destruct (IH E). split; [by right|done]. }
    destruct Hh as (_ & Hin & _). destruct (Hin f Hf) as [Hk Hst]. rewrite Hk in Hst. split; [done|]. split; [|done].
    unfold objKey in Hk. cbn in Hk. congruence.
  - destruct (holds_find _ _ _ _ n Hh) as [(f & Hf & Hn & _)|[_ ?]]; [|done]. exfalso. clear Hh.
    induction items as [|g items IH]; [by apply elem_of_nil in Hf|]. cbn in E. case_decide as Hd; [done|].
    apply elem_of_cons in Hf as [->|Hf]; [done|]. by apply IH.
Qed.

Definition good_topology (t : KueueTopology) (v : option kobj) : Prop := ∃ g, v = Some (OTopology g) ∧ kt_Levels g = kt_Levels t.

(** The topologies of the configuration that have a name. *)
Definition namedTopologies (ts : list Topology) : list KueueTopology :=
  filter (λ t, om_Name (kt_Meta t) ≠ "") (ConvertKaiwoToKueueTopologies ts).

Lemma syncTopologies_settles qc items (st : cluster) :
  owners_ok → holds KTopology OTopology items st → settled_kind KTopology st →
  NoDup ((λ t, om_Name (kt_Meta t)) <$> namedTopologies (qs_Topologies (qc_Spec qc))) →
  settles st (syncTopologies qc items) (λ ok st', ok = true ∧
    synced_kind KTopology (λ t, om_Name (kt_Meta t)) good_topology (namedTopologies (qs_Topologies (qc_Spec qc))) st st').
Proof.
  intros Hown Hh Hwf Hnd. unfold syncTopologies.
  rewrite (for_each_filter (λ t, om_Name (kt_Meta t) ≠ "")) by (intros t s Ht; unfold syncTopology; rewrite decide_True; [done|by apply dec_stable]).
  apply sync_kind_settles; [done..|].
  intros t s st' [Ht (r & -> & _)%list_elem_of_fmap]%list_elem_of_filter Hst. set (t := ConvertKaiwoToKueueTopology r) in *.
  assert ((KTopology, "", om_Name (kt_Meta t)) = objKey (OTopology t)) as Hk by done.
  unfold syncTopology. rewrite decide_False by done. pose proof (FindTopology_holds items st (om_Name (kt_Meta t)) Hh) as Hfind.
  destruct (FindTopology items _) as [e|].
  - destruct Hfind as (Hen & Hens & He). unfold CompareTopologies. case_bool_decide as Hcmp.
    + apply settles_ret. split; [done|]. split; [|done]. rewrite Hst, He. exists e. auto.
    + set (e' := {| kt_Meta := kt_Meta e; kt_Levels := kt_Levels t |}).
      assert (objKey (OTopology e') = (KTopology, "", om_Name (kt_Meta t))) as Hke by (unfold objKey; cbn; by rewrite Hen, Hens).
      eapply settles_mono; [apply (update_settles st' (OTopology e') (OTopology e)); [by rewrite Hke, Hst|done| |by intros []]|].
      * by apply (λ Hk, Hwf _ _ Hk He).
      * intros s' st'' (-> & Hg & Hf). rewrite <- Hke. split; [done|]. split; [|done]. rewrite Hg. by eexists.
  - rewrite Hfind in Hst. eapply settles_mono; [apply createOwned_settles; done|].
    intros s' st'' (-> & (m & Hm) & Hf). rewrite Hk. split; [done|]. split; [|done]. rewrite Hm. by eexists.
Qed.

Definition good_queue (q : ClusterQueue) (v : option kobj) : Prop :=
  ∃ g, v = Some (OQueue g) ∧ kq_Spec g = kq_Spec (normalizeQueue (ConvertKaiwoToKueueClusterQueue q)).

Lemma updateQueue_settles q g (st : cluster) :
  let k := (KQueue, "", om_Name (kq_Meta q)) in
  st !! k = Some (OQueue g) → settled_at k (OQueue g) →
  settles st (updateQueue q) (λ r st', (∀ err, r = Some err → IsConflict err = false) ∧ r = None ∧
    st' = <[k := OQueue {| kq_Meta := kq_Meta g; kq_Spec := kq_Spec q |}]> st).
Proof.
  intros k Hq [Hkg Hl]. subst k. unfold updateQueue. on_served x st1 Hx. destruct Hx as [-> ->]. rewrite Hq.
  apply settles_last. intros r st1 Hr. cbn [answer] in Hr. set (g' := {| kq_Meta := kq_Meta g; kq_Spec := kq_Spec q |}) in *.
  assert (objKey (OQueue g') = (KQueue, "", om_Name (kq_Meta q))) as Hk by exact Hkg.
  rewrite Hk, Hq in Hr. destruct Hr as [[-> ->]|([] & _)]. split; [done|]. split; [done|].
  by rewrite (put_same_meta (OQueue g') (OQueue g)), Hk.
Qed.

Lemma syncClusterQueues_settles qc items (st : cluster) :
  owners_ok → holds KQueue OQueue items st → settled_kind KQueue st → NoDup (cq_Name <$> qs_ClusterQueues (qc_Spec qc)) →
  settles st (syncClusterQueues retries qc items) (λ ok st', ok = true ∧
    synced_kind KQueue cq_Name good_queue (qs_ClusterQueues (qc_Spec qc)) st st').
Proof.
  intros Hown Hh Hwf Hnd. apply sync_kind_settles; [done..|].
  intros q s st' _ Hst. unfold syncClusterQueue. set (k := normalizeQueue _). on_served x st1 Hx.
  change (om_Name (kq_Meta k)) with (cq_Name q) in *. destruct Hx as [-> ->]. rewrite Hst.
  destruct (holds_find _ _ _ _ (cq_Name q) Hh) as [(g & _ & _ & Hg)|[_ Hnone]].
  - rewrite Hg in *. unfold CompareClusterQueues. case_bool_decide as Hcmp.
    { apply settles_ret. split; [done|]. split; [|done]. rewrite Hst. by exists g. }
    apply settles_bind. eapply settles_mono; [apply ensures_retry, updateQueue_settles|].
    + exact Hst.
    + by apply Hwf.
    + intros r st1 [-> ->]. apply settles_emit, settles_ret. split; [done|]. change (om_Name (kq_Meta k)) with (cq_Name q).
      split; [rewrite lookup_insert_eq; by eexists|]. intros k' Hk'. by rewrite lookup_insert_ne.
  - rewrite Hnone in *. cbv beta iota. change (IsNotFound NotFound) with true. cbv beta iota.
    eapply settles_mono; [apply (createOwned_settles qc _ (OQueue k)); done|].
    intros s' st'' (-> & (m & Hm) & Hf). change (objKey (OQueue k)) with (KQueue, "", cq_Name q) in *.
    split; [done|]. split; [|done]. rewrite Hm. by eexists.
Qed.

Definition good_priority (p : WorkloadPriorityClass) (v : option kobj) : Prop := ∃ g, v = Some (OPriority g) ∧ pc_Value g = pc_Value p.

Lemma syncWorkloadPriorityClasses_settles qc items (st : cluster) :
  let expected := qs_WorkloadPriorityClasses (qc_Spec qc) in
  owners_ok → holds KPriority OPriority items st → settled_kind KPriority st → NoDup ((λ p, om_Name (pc_Meta p)) <$> expected) →
  (∀ p, p ∈ expected → om_Namespace (pc_Meta p) = "") →
  settles st (syncWorkloadPriorityClasses qc items) (λ ok st', ok = true ∧
    synced_kind KPriority (λ p, om_Name (pc_Meta p)) good_priority expected st st').
Proof.
  intros expected Hown Hh Hwf Hnd Hscope. apply sync_kind_settles; [done..|].
  intros p s st' Hp Hst. assert (objKey (OPriority p) = (KPriority, "", om_Name (pc_Meta p))) as Hkp by (unfold objKey; cbn; by rewrite Hscope).
  unfold syncPriorityClass. on_served x st1 Hx. destruct Hx as [-> ->]. rewrite Hst.
  destruct (holds_find _ _ _ _ (om_Name (pc_Meta p)) Hh) as [(g & _ & _ & Hg)|[_ Hnone]].
  - rewrite Hg in *. unfold ComparePriorityClasses. case_bool_decide as Hcmp.
    { apply settles_ret. split; [done|]. split; [|done]. rewrite Hst. by exists g. }
    destruct (Hwf (KPriority, "", om_Name (pc_Meta p)) _ eq_refl Hg) as [Hkg Hl].
    set (g' := {| pc_Meta := pc_Meta g; pc_Value := pc_Value p; pc_Description := pc_Description g |}).
    assert (objKey (OPriority g') = (KPriority, "", om_Name (pc_Meta p))) as Hk by exact Hkg.
    eapply settles_mono; [apply (update_settles st' (OPriority g') (OPriority g)); [by rewrite Hk|done|done|by intros []]|].
    intros s' st'' (-> & Hs & Hf). rewrite <- Hk. split; [done|]. split; [|done]. rewrite Hs. by eexists.
  - rewrite Hnone in *. cbv beta iota. change (IsNotFound NotFound) with true. cbv beta iota.
    eapply settles_mono; [apply (createOwned_settles qc _ (OPriority p)); [done|by rewrite Hkp]|].
    intros s' st'' (-> & (m & Hm) & Hf). rewrite <- Hkp. split; [done|]. split; [|done]. rewrite Hm. by eexists.
Qed.

End converge.
