(* ===== verification/LocalQueues.v ===== *)
(** Syncing the local queues of the cluster queues that list namespaces: what it
    leaves in a cluster that answers, and what it does when a read fails. *)

From stdpp Require Import gmap strings list.
From Stdlib Require Import ZArith Lia.
From S2P Require Import Prelude Types Kueue QueueApi QueueSync QueueConverge.

(** * The map of stale queues *)

Definition staleAt (m : staleMap) (name ns : string) : option KueueLocalQueue := m !! name ≫= λ nm, nm !! ns.

Lemma staleAt_unstale name ns m n' ns' :
  staleAt (unstale name ns m) n' ns' = if decide (n' = name ∧ ns' = ns) then None else staleAt m n' ns'.
Proof.
  unfold unstale, staleAt. destruct (m !! name) as [nm|] eqn:E; cbv zeta.
  - case_decide as Hnil.
    + destruct (decide (n' = name)) as [->|Hn]; [|by rewrite lookup_delete_ne, decide_False by naive_solver].
      rewrite lookup_delete_eq, E. cbn. case_decide as Hd; [done|].
      assert (delete ns nm !! ns' = None) as H1 by by rewrite Hnil. rewrite lookup_delete_ne in H1; [done|]. intros ->. by apply Hd.
    + destruct (decide (n' = name)) as [->|Hn]; [|by rewrite lookup_insert_ne, decide_False by naive_solver].
      rewrite lookup_insert_eq, E. cbn. case_decide as Hd; [destruct Hd as [_ ->]; by rewrite lookup_delete_eq|].
      rewrite lookup_delete_ne; [done|]. intros ->. by apply Hd.
  - case_decide as Hd; [|done]. destruct Hd as [-> ->]. by rewrite E.
Qed.

Lemma staleAt_add m l n ns :
  staleAt (addStale m l) n ns = if decide (n = om_Name (lq_Meta l) ∧ ns = om_Namespace (lq_Meta l)) then Some l else staleAt m n ns.
Proof.
  unfold addStale, staleAt. destruct (decide (n = om_Name (lq_Meta l))) as [->|Hn].
  - rewrite lookup_insert_eq. cbn. destruct (decide (ns = om_Namespace (lq_Meta l))) as [->|Hns].
    + by rewrite lookup_insert_eq, decide_True.
    + rewrite lookup_insert_ne, decide_False by naive_solver. by destruct (m !! om_Name (lq_Meta l)).
  - by rewrite lookup_insert_ne, decide_False by naive_solver.
Qed.

(** What the cluster holds as a local queue. *)
Definition localAt (st : cluster) (name ns : string) : option KueueLocalQueue :=
  match st !! (KLocal, ns, name) with Some (OLocal l) => Some l | _ => None end.

Lemma localAt_lookup (st : cluster) n ns l :
  well_keyed st → localAt st n ns = Some l → st !! (KLocal, ns, n) = Some (OLocal l) ∧ objKey (OLocal l) = (KLocal, ns, n).
Proof.
  intros Hk. unfold localAt. destruct (st !! (KLocal, ns, n)) as [[]|] eqn:E; try done. intros [= <-]. split; [done|]. by apply Hk.
Qed.

Lemma localAt_none (st : cluster) n ns : well_keyed st → localAt st n ns = None → st !! (KLocal, ns, n) = None.
Proof.
  intros Hk. unfold localAt. destruct (st !! (KLocal, ns, n)) as [o|] eqn:E; [|done]. pose proof (Hk _ _ E) as Ho.
  destruct o; try discriminate Ho. done.
Qed.

Lemma build_from l m n ns x :
  NoDup ((λ a, objKey (OLocal a)) <$> l) →
  staleAt (foldl addStale m l) n ns = Some x ↔
    x ∈ l ∧ objKey (OLocal x) = (KLocal, ns, n) ∨
    staleAt m n ns = Some x ∧ ∀ y, y ∈ l → objKey (OLocal y) ≠ (KLocal, ns, n).
Proof.
  revert m. induction l as [|a l IH]; intros m Hnd; cbn [foldl].
  { split; [intros; right; split; [done|]; by intros y Hy%elem_of_nil|]. intros [[Hx _]|[? _]]; [by apply elem_of_nil in Hx|done]. }
  cbn [fmap list_fmap] in Hnd. apply NoDup_cons in Hnd as [Ha Hnd]. rewrite IH, staleAt_add by done.
  case_decide as Hd.
  - destruct Hd as [-> ->]. split.
    + intros [[Hx Hk]|[[= <-] _]]; [|left; split; [by left|done]]. exfalso. apply Ha. apply list_elem_of_fmap. exists x. by split.
    + intros [[[->|Hx]%elem_of_cons Hk]|[_ Hno]]; [right|left; by split|exfalso; by apply (Hno a); [left|]].
      split; [done|]. intros y Hy Hk'. apply Ha. apply list_elem_of_fmap. exists y. by split.
  - setoid_rewrite elem_of_cons. split.
    + intros [[Hx Hk]|[Hs Hno]]; [left; auto|right]. split; [done|]. intros y [->|Hy]; [|by apply Hno]. intros [= ? ?]. naive_solver.
    + intros [[[->|Hx] Hk]|[Hs Hno]]; [|by left|right; split; [done|]; intros; apply Hno; by right].
      exfalso. injection Hk. naive_solver.
Qed.

Lemma stale_listed items (st : cluster) n ns :
  well_keyed st → listed OLocal st (inr items) → staleAt (buildStale items) n ns = localAt st n ns.
Proof.
  intros Hk (l & [= <-] & Hnd & Hin). apply option_eq. intros x. unfold buildStale. rewrite build_from by done. split.
  - intros [[Hx Hkx]|[Hx _]]; [|done]. apply Hin in Hx. unfold localAt. rewrite <- Hkx. by rewrite Hx.
  - intros Hx. left. apply localAt_lookup in Hx as [Hx Hkx]; [|done]. split; [|done]. apply Hin. by rewrite Hkx.
Qed.

(** * The loops *)

(** Local queues in [E] are there and not stale; the others are as in [st], and
    those [st] holds are stale. *)
Record tracked (E : string → string → Prop) (st : cluster) (stale : staleMap) (st' : cluster) : Prop := {
  tr_expected n ns : E n ns → staleAt stale n ns = None ∧ ∃ l, st' !! (KLocal, ns, n) = Some (OLocal l);
  tr_other n ns : ¬ E n ns → staleAt stale n ns = localAt st n ns ∧ st' !! (KLocal, ns, n) = st !! (KLocal, ns, n);
  tr_frame k : k.1.1 ≠ KLocal → st' !! k = st !! k
}.

Lemma tracked_iff (E E' : string → string → Prop) st stale st' :
  (∀ n ns, E n ns ↔ E' n ns) → tracked E st stale st' → tracked E' st stale st'.
Proof. intros HE [H1 H2 H3]. split; [|setoid_rewrite <- HE|]; [setoid_rewrite <- HE|..]; done. Qed.

Section locals.
Context `{KubeLib} `{GoOrder}.

Lemma syncNamespace_settles E meta name ns stale (st st' : cluster) :
  (∀ n ns, Decision (E n ns)) → owners_ok → well_keyed st → tracked E st stale st' →
  settles st' (syncNamespace meta name ns (true, stale)) (λ s st'',
    s.1 = true ∧ tracked (λ n m, E n m ∨ n = name ∧ m = ns) st s.2 st'').
Proof.
  intros Hdec Hown Hk [Hexp Hoth Hfr]. unfold syncNamespace. on_served x st1 Hx. destruct Hx as [-> ->].
  destruct (st' !! (KLocal, ns, name)) as [o|] eqn:E1.
  - assert (∃ l, o = OLocal l) as [l ->].
    { destruct (Hdec name ns) as [HE|HE]; [destruct (Hexp _ _ HE) as (_ & l & Hl); exists l; congruence|].
      destruct (Hoth _ _ HE) as [_ Hs]. rewrite E1 in Hs. symmetry in Hs. pose proof (Hk _ _ Hs) as Hko. destruct o; try discriminate Hko. eauto. }
    apply settles_ret. split; [done|]. cbn [snd]. split; [| |done].
    + intros n m Hn. rewrite staleAt_unstale. destruct (decide (n = name ∧ m = ns)) as [[-> ->]|Hne]; [by eauto|].
      destruct Hn as [Hn|?]; [|done]. by apply Hexp.
    + intros n m Hn. rewrite staleAt_unstale, decide_False by tauto. apply Hoth. tauto.
  - assert (¬ E name ns) as HE. { intros HE. destruct (Hexp _ _ HE) as (_ & l & Hl). congruence. }
    destruct (Hoth _ _ HE) as [Hst Hs]. rewrite E1 in Hs.
    change (IsNotFound NotFound) with true. cbv iota.
    set (m0 := {| om_Name := name; om_Namespace := ns; om_ResourceVersion := 0; om_Finalizers := []; om_DeletionTimestamp := None; om_OwnerReferences := [] |}).
    destruct (Hown meta m0) as [m' Hm']. cbn [lq_Meta]. rewrite Hm'. destruct (SetControllerReference_keeps _ _ _ Hm') as (Hn & Hns & _).
    on_served y st2 Hy. unfold objKey in Hy. cbn in Hy. rewrite Hn, Hns in Hy. cbn in Hy. rewrite E1 in Hy. destruct Hy as [-> ->].
    apply settles_emit, settles_ret. split; [done|]. cbn [snd]. split.
    + intros n m Hor. destruct (decide (n = name ∧ m = ns)) as [[-> ->]|Hne].
      * rewrite Hst. unfold localAt. rewrite <- Hs, lookup_insert_eq. eauto.
      * destruct Hor as [Hor|?]; [|done]. rewrite lookup_insert_ne by naive_solver. by apply Hexp.
    + intros n m Hor. rewrite lookup_insert_ne by naive_solver. apply Hoth. tauto.
    + intros k Hkk. rewrite lookup_insert_ne by naive_solver. by apply Hfr.
Qed.

Lemma namespaces_settles E meta name all stale (st st' : cluster) :
  (∀ n ns, Decision (E n ns)) → owners_ok → well_keyed st → tracked E st stale st' →
  settles st' (for_each all (true, stale) (syncNamespace meta name)) (λ s st'',
    s.1 = true ∧ tracked (λ n m, E n m ∨ n = name ∧ m ∈ all) st s.2 st'').
Proof.
  intros Hdec Hown Hk Htr. eapply settles_mono.
  - apply (ensures_for_each (S := QueueSig) answer (λ rest s w, s.1 = true ∧
      ∃ seen, all = seen ++ rest ∧ tracked (λ n m, E n m ∨ n = name ∧ m ∈ seen) st s.2 w)).
    + intros ns rest [ok stale1] w (Hok & seen & Hall & Htr'). cbn [snd fst] in *. subst ok.
      eapply settles_mono; [apply (syncNamespace_settles (λ n m, E n m ∨ n = name ∧ m ∈ seen) meta name ns stale1 st w); [|done..]|].
      { intros n m. apply _. }
      intros s w' (Hok & Hw). split; [done|]. exists (seen ++ [ns]). split; [by rewrite <- app_assoc|].
      eapply tracked_iff; [|exact Hw]. intros n m. cbv beta. set_solver.
    + cbn [fst snd]. split; [done|]. exists []. split; [done|]. eapply tracked_iff; [|exact Htr]. intros n m. cbv beta. set_solver.
  - intros s w (Hok & seen & Hall & Hw). split; [done|]. by rewrite app_nil_r in Hall; subst.
Qed.

(** The namespaces the configuration gives a queue name. *)
Definition wants (queues : list ClusterQueue) (name ns : string) : Prop :=
  ∃ q, q ∈ queues ∧ cq_Name q = name ∧ ns ∈ cq_Namespaces q.

#[local] Instance wants_dec queues name ns : Decision (wants queues name ns).
Proof.
  refine (cast_if (decide (Exists (λ q, cq_Name q = name ∧ ns ∈ cq_Namespaces q) queues))); unfold wants; rewrite <- Exists_exists; done.
Defined.

(** The queues visited so far, by name. *)
Definition lookup_of (queues : list ClusterQueue) (lookup : gmap string ClusterQueue) : Prop :=
  (∀ n q, lookup !! n = Some q → q ∈ queues ∧ cq_Name q = n) ∧ (∀ q, q ∈ queues → is_Some (lookup !! cq_Name q)).

Lemma syncQueueNamespaces_settles seen cq stale lookup (st st' : cluster) :
  owners_ok → well_keyed st → tracked (wants seen) st stale st' → lookup_of seen lookup →
  (∃ q, st !! (KQueue, "", cq_Name cq) = Some (OQueue q)) →
  settles st' (syncQueueNamespaces cq (true, stale, lookup)) (λ s st'',
    s.1.1 = true ∧ tracked (wants (seen ++ [cq])) st s.1.2 st'' ∧ lookup_of (seen ++ [cq]) s.2).
Proof.
  intros Hown Hk Htr [Hl1 Hl2] [q Hq].
  assert (lookup_of (seen ++ [cq]) (<[cq_Name cq := cq]> lookup)) as Hlook.
  { split.
    - intros n q' [[<- <-]|[_ Hn]]%lookup_insert_Some; [split; [set_solver|done]|]. destruct (Hl1 _ _ Hn). split; [set_solver|done].
    - intros q' [Hq'| ->%list_elem_of_singleton]%elem_of_app; rewrite ?lookup_insert_eq; [|by eexists].
      destruct (Hl2 _ Hq') as [z Hz]. destruct (decide (cq_Name cq = cq_Name q')) as [->|]; [rewrite lookup_insert_eq; by eexists|].
      rewrite lookup_insert_ne by done. by eexists. }
  assert (∀ n m, wants (seen ++ [cq]) n m ↔ wants seen n m ∨ n = cq_Name cq ∧ m ∈ cq_Namespaces cq) as Hw.
  { intros n m. unfold wants. setoid_rewrite elem_of_app. setoid_rewrite list_elem_of_singleton. naive_solver. }
  unfold syncQueueNamespaces. on_served x st1 Hx. destruct Hx as [-> ->]. rewrite (tr_frame _ _ _ _ Htr), Hq by done.
  destruct (cq_Namespaces cq) as [|n0 nss] eqn:Hnss.
  - apply settles_ret. split; [done|]. split; [|done]. cbn [fst snd].
    apply (tracked_iff (wants seen)); [intros n m; rewrite Hw; set_solver|].
    destruct Htr as [H1 H2 H3]. assert (∀ n m, staleAt (match stale !! cq_Name cq with
      | Some nm => if decide (nm = ∅) then delete (cq_Name cq) stale else stale | None => stale end) n m = staleAt stale n m) as Hs.
    { intros n m. destruct (stale !! cq_Name cq) as [nm|] eqn:E; [|done]. case_decide as Hd; [|done]. subst nm. unfold staleAt.
      destruct (decide (n = cq_Name cq)) as [->|]; [by rewrite lookup_delete_eq, E|]. by rewrite lookup_delete_ne. }
    split; [| |done]; intros n m HE; rewrite Hs; auto.
  - apply settles_bind. eapply settles_mono; [apply (namespaces_settles (wants seen)); [apply _|done..]|].
    intros [ok stale'] st'' (Hok & Htr'). apply settles_ret. cbn [fst snd] in *. split; [done|]. split; [|done].
    apply (tracked_iff _ _ _ _ _) with (2 := Htr'). intros n m. by rewrite Hw.
Qed.

(** The controller manages the local queues of a queue that lists namespaces. *)
Definition managed (lookup : gmap string ClusterQueue) (n : string) : Prop :=
  match lookup !! n with Some cq => cq_Namespaces cq ≠ [] | None => False end.

(** What deleting the stale queues of one name leaves of it. *)
Definition swept (lookup : gmap string ClusterQueue) (st1 : cluster) (p : string * gmap string KueueLocalQueue) (st' : cluster) : Prop :=
  ∀ ns, match p.2 !! ns with
        | Some _ => (managed lookup p.1 → gone (st' !! (KLocal, ns, p.1))) ∧
                    (¬ managed lookup p.1 → st' !! (KLocal, ns, p.1) = st1 !! (KLocal, ns, p.1))
        | None => st' !! (KLocal, ns, p.1) = st1 !! (KLocal, ns, p.1)
        end.

Lemma sweep_name_settles (nm : gmap string KueueLocalQueue) n (st : cluster) :
  (∀ ns l, nm !! ns = Some l → st !! (KLocal, ns, n) = Some (OLocal l) ∧ objKey (OLocal l) = (KLocal, ns, n)) →
  ∀ success, settles st (for_each (rangeMap nm) success (λ '(_, l) success,
      err ← call (S := QueueSig) (DeleteObj (OLocal l));
      _ ← emitEvent "local queue" "delete" (Some (lq_Meta l)) err;
      mret (noted true err success)))
    (λ s' st', s' = success ∧ (∀ ns, is_Some (nm !! ns) → gone (st' !! (KLocal, ns, n))) ∧
      ∀ k, (∀ ns, is_Some (nm !! ns) → k ≠ (KLocal, ns, n)) → st' !! k = st !! k).
Proof.
  intros Hin success. assert (∀ p, p ∈ rangeMap nm ↔ nm !! p.1 = Some p.2) as Hmem.
  { intros [ns l]. rewrite rangeMap_perm. apply elem_of_map_to_list. }
  eapply settles_mono.
  - apply (key_loop (λ p : string * KueueLocalQueue, (KLocal, p.1, n)) (λ _ v, gone v) (λ _ s, s)).
    + assert (NoDup (rangeMap nm).*1) as Hnd by (rewrite rangeMap_perm; apply NoDup_fst_map_to_list).
      change (λ p : string * KueueLocalQueue, (KLocal, p.1, n)) with ((λ a, (KLocal, a, n)) ∘ @fst string KueueLocalQueue).
      rewrite list_fmap_compose. apply NoDup_fmap_2; [|done]. by intros a b [= ->].
    + intros [ns l] s st' Hp Hst. apply Hmem in Hp. cbn [fst snd] in *. destruct (Hin ns l Hp) as [Hl Hk]. rewrite <- Hk in *.
      apply (delete_settles st' (OLocal l)). by rewrite Hst.
  - intros s' st' (-> & Hg & Hf). split; [|split].
    + clear. by induction (rangeMap nm).
    + intros ns [l Hl]. apply (Hg (ns, l)). by apply Hmem.
    + intros k Hk. apply Hf. intros ([ns l] & -> & Hp)%list_elem_of_fmap. apply Hmem in Hp. apply (Hk ns); [by eexists|done].
Qed.

Lemma deleteStale_settles lookup stale (st : cluster) :
  (∀ n ns l, staleAt stale n ns = Some l → st !! (KLocal, ns, n) = Some (OLocal l) ∧ objKey (OLocal l) = (KLocal, ns, n)) →
  settles st (deleteStale lookup stale true) (λ ok st', ok = true ∧
    (∀ n ns, is_Some (staleAt stale n ns) → managed lookup n → gone (st' !! (KLocal, ns, n))) ∧
    (∀ n ns, staleAt stale n ns = None ∨ ¬ managed lookup n → st' !! (KLocal, ns, n) = st !! (KLocal, ns, n)) ∧
    ∀ k, k.1.1 ≠ KLocal → st' !! k = st !! k).
Proof.
  intros Hin. assert (∀ p, p ∈ rangeMap stale ↔ stale !! p.1 = Some p.2) as Hmem.
  { intros [n nm]. rewrite rangeMap_perm. apply elem_of_map_to_list. }
  set (ktag := λ k : okey, if decide (k.1.1 = KLocal) then Some k.2 else None).
  eapply settles_mono.
  - apply (footprint_loop fst ktag (swept lookup st) (λ _ s, s)).
    + intros [n nm] s1 s2 Hag. unfold swept. intros Hs ns. specialize (Hs ns). cbn [fst snd] in *.
      rewrite <- (Hag (KLocal, ns, n)) by done. done.
    + rewrite rangeMap_perm. apply NoDup_fst_map_to_list.
    + intros [n nm] s st' Hp Hag. apply Hmem in Hp. cbn [fst snd] in Hp.
      assert (∀ ns, st' !! (KLocal, ns, n) = st !! (KLocal, ns, n)) as Hag' by (intros ns; by apply Hag).
      assert (¬ managed lookup n → swept lookup st (n, nm) st') as Hkeep.
      { intros Hm ns. cbn [fst snd]. rewrite Hag'. destruct (nm !! ns); [split; [done|done]|done]. }
      unfold managed in Hkeep. destruct (lookup !! n) as [cq|] eqn:El; [|apply settles_ret; auto].
      destruct (cq_Namespaces cq) as [|n0 nss] eqn:Ens; [apply settles_ret; split; [done|split; [apply Hkeep; naive_solver|done]]|].
      eapply settles_mono; [apply (sweep_name_settles nm n st')|].
      * intros ns l Hl. rewrite Hag'. apply Hin. unfold staleAt. by rewrite Hp.
      * intros s' st'' (-> & Hg & Hf). split; [done|]. split.
        -- intros ns. cbn [fst snd]. destruct (nm !! ns) as [l|] eqn:E1.
           ++ split; [intros _; apply Hg; by eexists|]. intros Hm. exfalso. apply Hm. unfold managed. rewrite El, Ens. done.
           ++ rewrite Hf, Hag'; [done|]. intros ns' [l' Hl'] [= ->]. congruence.
        -- intros k Hk. apply Hf. intros ns _ ->. by apply Hk.
  - intros s' st' (-> & Hsw & Hf). split; [clear; by induction (rangeMap stale)|]. split; [|split].
    + intros n ns [l Hl] Hm. unfold staleAt in Hl. destruct (stale !! n) as [nm|] eqn:E; [|done]. cbn in Hl.
      pose proof (Hsw (n, nm) (proj2 (Hmem (n, nm)) E) ns) as Hs. cbn [fst snd] in Hs. rewrite Hl in Hs. by apply Hs.
    + intros n ns Hor. unfold staleAt in Hor. destruct (stale !! n) as [nm|] eqn:E; cbn in Hor.
      * pose proof (Hsw (n, nm) (proj2 (Hmem (n, nm)) E) ns) as Hs. cbn [fst snd] in Hs. destruct (nm !! ns); [|done].
        apply Hs. by destruct Hor.
      * apply Hf. intros [n' nm'] Hp [= ->]. apply Hmem in Hp. cbn in Hp. congruence.
    + intros k Hk. apply Hf. intros p _. unfold ktag. by rewrite decide_False.
Qed.

(** What syncing the local queues leaves: a queue that lists namespaces has a
    local queue in each of them and, beyond what is going, in no other; the local
    queues of other names are as they were. *)
Definition synced_locals (queues : list ClusterQueue) (st st' : cluster) : Prop :=
  (∀ q ns, q ∈ queues → ns ∈ cq_Namespaces q → ∃ l, st' !! (KLocal, ns, cq_Name q) = Some (OLocal l)) ∧
  (∀ q ns, q ∈ queues → cq_Namespaces q ≠ [] → ns ∉ cq_Namespaces q → gone (st' !! (KLocal, ns, cq_Name q))) ∧
  (∀ n ns, (∀ q, q ∈ queues → cq_Name q = n → cq_Namespaces q = []) → st' !! (KLocal, ns, n) = st !! (KLocal, ns, n)) ∧
  (∀ k, k.1.1 ≠ KLocal → st' !! k = st !! k).

Lemma queue_unique (queues : list ClusterQueue) q q' :
  NoDup (cq_Name <$> queues) → q ∈ queues → q' ∈ queues → cq_Name q = cq_Name q' → q = q'.
Proof.
  induction queues as [|a queues IH]; cbn; [by intros _ ?%elem_of_nil|]. rewrite NoDup_cons, !elem_of_cons. intros [Ha Hnd].
  intros [->|Hq] [->|Hq'] E; [done|exfalso..|by apply IH]; apply Ha; [rewrite E|rewrite <- E]; by apply list_elem_of_fmap_2.
Qed.

Lemma queues_settle queues (st : cluster) stale :
  owners_ok → well_keyed st → (∀ n ns, staleAt stale n ns = localAt st n ns) →
  (∀ q, q ∈ queues → ∃ k, st !! (KQueue, "", cq_Name q) = Some (OQueue k)) →
  settles st (for_each queues (true, stale, ∅) syncQueueNamespaces) (λ s st',
    s.1.1 = true ∧ tracked (wants queues) st s.1.2 st' ∧ lookup_of queues s.2).
Proof.
  intros Hown Hk Hst Hq. eapply settles_mono.
  - apply (ensures_for_each (S := QueueSig) answer (λ rest s w, ∃ seen, queues = seen ++ rest ∧
      s.1.1 = true ∧ tracked (wants seen) st s.1.2 w ∧ lookup_of seen s.2)).
    + intros cq rest [[ok stale1] lookup] w (seen & Hall & Hok & Htr & Hl). cbn [fst snd] in *. subst ok.
      eapply settles_mono; [apply (syncQueueNamespaces_settles seen); [done..|]|].
      * apply Hq. rewrite Hall. set_solver.
      * intros s w' Hs. exists (seen ++ [cq]). split; [by rewrite <- app_assoc|done].
    + exists []. cbn [fst snd]. split; [done|]. split; [done|]. split; [|split; [by intros n q|by intros q Hq'%elem_of_nil]].
      split; [intros n ns (q & Hin%elem_of_nil & _); done|by split|done].
  - intros s w (seen & Hall & Hs). rewrite app_nil_r in Hall. by subst seen.
Qed.

Lemma syncLocalQueues_settles qc items (st : cluster) :
  let queues := qs_ClusterQueues (qc_Spec qc) in
  owners_ok → well_keyed st → (∀ n ns, staleAt (buildStale items) n ns = localAt st n ns) → NoDup (cq_Name <$> queues) →
  (∀ q, q ∈ queues → ∃ k, st !! (KQueue, "", cq_Name q) = Some (OQueue k)) →
  settles st (syncLocalQueues qc items) (λ ok st', ok = true ∧ synced_locals queues st st').
Proof.
  intros queues Hown Hk Hst Hnd Hq. unfold syncLocalQueues. apply settles_bind.
  eapply settles_mono; [by apply (queues_settle queues)|]. intros [[ok stale] lookup] st1 (Hok & [Hexp Hoth Hfr] & [Hl1 Hl2]).
  cbn [fst snd] in *. subst ok. eapply settles_mono; [apply deleteStale_settles|].
  { intros n ns l Hl. destruct (decide (wants queues n ns)) as [Hw|Hw].
    - destruct (Hexp n ns Hw) as [Hn _]. congruence.
    - destruct (Hoth n ns Hw) as [Hs Hs']. rewrite Hs in Hl. rewrite Hs'. by apply localAt_lookup. }
  intros ok st' (-> & Hdel & Hkeep & Hframe). split; [done|].
  assert (∀ q, q ∈ queues → lookup !! cq_Name q = Some q) as Hlook.
  { intros q Hin. destruct (Hl2 q Hin) as [q' Hq']. rewrite Hq'. f_equal. destruct (Hl1 _ _ Hq'). by apply (queue_unique queues). }
  split; [|split; [|split]].
  - intros q ns Hin Hns. destruct (Hexp (cq_Name q) ns) as [Hs Hl]; [by exists q|]. rewrite Hkeep; [done|by left].
  - intros q ns Hin Hne Hns. assert (¬ wants queues (cq_Name q) ns) as Hw.
    { intros (q' & Hin' & Hn & Hns'). by rewrite (queue_unique queues q' q) in Hns'. }
    destruct (Hoth _ _ Hw) as [Hs Hs']. destruct (staleAt stale (cq_Name q) ns) as [l|] eqn:E.
    + apply Hdel; [by rewrite E|]. unfold managed. by rewrite (Hlook q Hin).
    + rewrite Hkeep, Hs' by (by left). by rewrite localAt_none.
  - intros n ns Hno. assert (¬ wants queues n ns) as Hw.
    { intros (q & Hin & Hn & Hns). rewrite (Hno q Hin Hn) in Hns. by apply elem_of_nil in Hns. }
    rewrite Hkeep; [by apply Hoth|]. right. unfold managed. destruct (lookup !! n) as [q|] eqn:E; [|tauto].
    destruct (Hl1 _ _ E) as [Hin Hn]. rewrite (Hno q Hin Hn). tauto.
  - intros k Hkk. rewrite Hframe by done. by apply Hfr.
Qed.

(** * A queue that cannot be read *)

(** Reading the cluster queue fails. *)
Definition unreadable (name : string) : contract QueueSig := λ r,
  match r return queue_resp r → Prop with
  | GetQueue n => λ x, n = name → ∃ e, x = inl e
  | _ => λ _, True
  end.

Lemma syncNamespace_other ok meta name ns s n' :
  n' ≠ name → always ok (syncNamespace meta name ns s) (λ _ s', ∀ m, staleAt s'.2 n' m = staleAt s.2 n' m).
Proof.
  intros Hn. unfold syncNamespace. on_call [e|l]; [|simpl; intros m; rewrite staleAt_unstale, decide_False by naive_solver; done].
  destruct (IsNotFound e).
  - destruct (SetControllerReference _ _); [|on_call err]; unfold emitEvent; [by on_call []|destruct err; by on_call []].
  - unfold emitEvent. by on_call [].
Qed.

Lemma syncQueueNamespaces_unreadable cq name s q0 :
  (cq_Name cq = name → q0 = cq) → always (unreadable name) (syncQueueNamespaces cq s) (λ _ s',
    (∀ m, staleAt s'.1.2 name m = staleAt s.1.2 name m) ∧
    s'.2 !! name = if decide (cq_Name cq = name) then Some q0 else s.2 !! name).
Proof.
  intros Hq0. destruct s as [[success stale] lookup]. unfold syncQueueNamespaces. apply always_call. intros x Hx. cbv beta iota.
  assert (<[cq_Name cq:=cq]> lookup !! name = if decide (cq_Name cq = name) then Some q0 else lookup !! name) as Hl.
  { case_decide as E; [rewrite E, lookup_insert_eq; by rewrite Hq0|by rewrite lookup_insert_ne]. }
  destruct x as [e|actual].
  { destruct (IsNotFound e); [by split|]. unfold emitEvent. by on_call []. }
  destruct (decide (cq_Name cq = name)) as [E|Hn]; [destruct (Hx E) as [e He]; discriminate|].
  destruct (cq_Namespaces cq) as [|n0 nss].
  - split; [|done]. intros m. cbn [fst snd]. destruct (stale !! cq_Name cq) as [nm|]; [|done]. case_decide; [|done].
    unfold staleAt. by rewrite lookup_delete_ne.
  - apply always_bind. eapply always_mono.
    + apply (always_for_each _ (λ _ s', ∀ m, staleAt s'.2 name m = staleAt stale name m)); [|done].
      intros ns l s Hs. eapply always_mono; [apply (syncNamespace_other _ _ _ _ _ name); congruence|]. cbv beta.
      intros _ s' Hs' m. by rewrite Hs'.
    + intros _ [ok stale'] Hs. by split.
Qed.

(** When the cluster queue cannot be read, whether it is missing or the read
    fails, the local queues it has are all deleted, those in the namespaces it
    lists included, although the code means to leave them to a later reconcile. *)
Theorem syncLocalQueues_unreadable_deletes qc items cq l :
  NoDup (cq_Name <$> qs_ClusterQueues (qc_Spec qc)) → cq ∈ qs_ClusterQueues (qc_Spec qc) → cq_Namespaces cq ≠ [] →
  NoDup ((λ a, objKey (OLocal a)) <$> items) → l ∈ items → om_Name (lq_Meta l) = cq_Name cq →
  always (unreadable (cq_Name cq)) (syncLocalQueues qc items) (λ tr _, calls (deletes (OLocal l)) tr).
Proof.
  intros Hnd Hcq Hns Hitems Hl Hname. unfold syncLocalQueues. apply always_bind. set (name := cq_Name cq) in *.
  assert (staleAt (buildStale items) name (om_Namespace (lq_Meta l)) = Some l) as Hstale.
  { apply build_from; [done|]. left. split; [done|]. unfold objKey. cbn. by rewrite Hname. }
  eapply always_mono.
  - apply (always_for_each _ (λ rest s, (∀ q, q ∈ rest → q ∈ qs_ClusterQueues (qc_Spec qc)) ∧
      (cq ∈ rest ∨ s.2 !! name = Some cq) ∧ staleAt s.1.2 name (om_Namespace (lq_Meta l)) = Some l)).
    + intros q rest s (Hsub & Hor & Hs).
      assert (cq_Name q = name → cq = q) as Hu.
      { intros E. by apply (queue_unique (qs_ClusterQueues (qc_Spec qc))); [|done|apply Hsub; left|]. }
      eapply always_mono; [apply (syncQueueNamespaces_unreadable q name s cq Hu)|]. cbv beta. intros _ s' [Hst Hlk].
      split; [intros; apply Hsub; by right|]. split; [|by rewrite Hst]. rewrite Hlk. case_decide as E; [by right|].
      destruct Hor as [[->|?]%elem_of_cons|?]; [done|by left|by right].
    + split; [done|]. split; [by left|done].
  - intros tr [[ok stale] lookup] (_ & [Hbad%elem_of_nil|Hlk] & Hs); [done|]. cbn [fst snd] in *.
    unfold staleAt in Hs. destruct (stale !! name) as [nm|] eqn:E; [|done]. cbn in Hs.
    unfold deleteStale. eapply always_mono;
      [apply (always_for_each_visits _ (deletes (OLocal l)) _ _ (name, nm))|].
    + rewrite rangeMap_perm. by apply elem_of_map_to_list.
    + intros s. cbv beta iota. rewrite Hlk. destruct (cq_Namespaces cq) as [|n0 nss] eqn:Ens; [done|].
      apply always_for_each_visits with (x := (om_Namespace (lq_Meta l), l)); [rewrite rangeMap_perm; by apply elem_of_map_to_list|].
      intros s'. cbv beta iota. on_call x. apply always_bind. skip_run. intros tr' _ _.
      simpl. eexists. split; [by left|done].
    + cbv beta. intros tr' _ (e & He & HT). exists e. split; [apply elem_of_app; by right|exact HT].
Qed.

End locals.
