(* ===== verification/QueueQuiet.v ===== *)
(** The steady state: on a cluster that is what the configuration describes, a
    sync makes no write at all. *)

From stdpp Require Import gmap strings list.
From Stdlib Require Import ZArith Lia.
From S2P Require Import Prelude Types Kueue QueueApi QueueSync QueueConverge LocalQueues.

(** The calls that change Kueue objects. *)
Definition obj_write (e : event QueueSig) : Prop :=
  match projT1 e with CreateObj _ | UpdateObj _ | DeleteObj _ => True | _ => False end.
Definition quiet (tr : trace QueueSig) : Prop := Forall (λ e, ¬ obj_write e) tr.

Lemma quiet_app tr tr' : quiet tr → quiet tr' → quiet (tr ++ tr').
Proof. intros ? ?. by apply Forall_app. Qed.

(** Answers a server in state [st] gives. *)
Definition reading (st : cluster) : contract QueueSig := λ r x, ∃ st', answer r st x st'.

(** The cluster holds the expected objects of a kind and no other. *)
Definition kind_exact {A : Type} (K : kind) (name : A → string) (same : A → kobj → Prop) (expected : list A) (st : cluster) : Prop :=
  (∀ x, x ∈ expected → ∃ o, st !! (K, "", name x) = Some o ∧ same x o) ∧
  (∀ n, is_Some (st !! (K, "", n)) → n ∈ name <$> expected).

Record exact (spec : KaiwoQueueConfigSpec) (st : cluster) : Prop := {
  ex_flavors : kind_exact KFlavor (λ f, om_Name (kf_Meta f)) (λ f o, ∃ g, o = OFlavor g ∧ kf_Spec g = kf_Spec f)
    (ConvertKaiwoToKueueResourceFlavors (qs_ResourceFlavors spec)) st;
  ex_topologies : kind_exact KTopology (λ t, om_Name (kt_Meta t)) (λ t o, ∃ g, o = OTopology g ∧ kt_Levels g = kt_Levels t)
    (namedTopologies (qs_Topologies spec)) st;
  ex_queues : kind_exact KQueue cq_Name
    (λ q o, ∃ g, o = OQueue g ∧ kq_Spec g = kq_Spec (normalizeQueue (ConvertKaiwoToKueueClusterQueue q))) (qs_ClusterQueues spec) st;
  ex_priorities : kind_exact KPriority (λ p, om_Name (pc_Meta p)) (λ p o, ∃ g, o = OPriority g ∧ pc_Value g = pc_Value p)
    (qs_WorkloadPriorityClasses spec) st;
  ex_locals_there q ns : q ∈ qs_ClusterQueues spec → ns ∈ cq_Namespaces q → ∃ l, st !! (KLocal, ns, cq_Name q) = Some (OLocal l);
  ex_locals_only q ns : q ∈ qs_ClusterQueues spec → cq_Namespaces q ≠ [] → is_Some (st !! (KLocal, ns, cq_Name q)) → ns ∈ cq_Namespaces q
}.

Section quiet.
Context `{KubeLib} `{GoOrder} (retries : QueueRetry).

(** The two loops of a sync function when every expected object is in place. *)
Lemma sync_kind_quiet {A B : Type} ok K (name : A → string) (same : A → kobj → Prop) (mk : B → kobj) expected items body tolerate target st :
  holds K mk items st → kind_exact K name same expected st →
  (∀ x s, x ∈ expected → always ok (body x s) (λ tr s', quiet tr ∧ s' = seen (name x) s.1 s)) →
  always ok (s ← for_each expected (true, ∅) body; deleteUnexpected mk tolerate target s.2 items s.1) (λ tr b, quiet tr ∧ b = true).
Proof.
  intros (_ & Hin & _) [_ Honly] Hbody. apply always_bind. eapply always_mono.
  - apply (always_for_each_trace ok quiet (λ rest s, s.1 = true ∧ (∀ x, x ∈ rest → x ∈ expected) ∧
      ∀ x, x ∈ expected → x ∈ rest ∨ name x ∈ s.2)); [constructor|apply quiet_app| |].
    + intros x rest s (Hok & Hsub & Hall). eapply always_mono; [apply Hbody, Hsub; by left|].
      intros tr s' [? ->]. split; [done|]. unfold seen. cbn [fst snd]. split; [done|]. split; [intros; apply Hsub; by right|].
      intros y Hy. destruct (Hall y Hy) as [[->|?]%elem_of_cons|?]; [right|by left|right]; set_solver.
    + split; [done|]. split; [done|]. by left.
  - intros tr s (Htr & Hok & _ & Hall). eapply always_mono.
    + apply (always_for_each_closed ok quiet (λ b, b = true)); [constructor|apply quiet_app|done|].
      intros a b Ha ->. destruct (Hin a Ha) as [Hk Hst]. rewrite decide_True; [by split; [constructor|]|].
      assert (om_Name (objMeta (mk a)) ∈ name <$> expected) as (x & -> & Hx)%list_elem_of_fmap.
      { apply Honly. rewrite <- Hk, Hst. by eexists. }
      by destruct (Hall x Hx) as [Hbad%elem_of_nil|?].
    + intros tr' b [Htr' ->]. split; [by apply quiet_app|done].
Qed.

(** A pure step. *)
Lemma quiet_ret {A : Type} ok (a : A) (P : A → Prop) : P a → always (S := QueueSig) ok (mret a) (λ tr b, quiet tr ∧ P b).
Proof. intros HP. split; [constructor|done]. Qed.

(** A read, and then the rest. *)
Lemma quiet_read {B : Type} (ok : contract QueueSig) r (f : queue_resp r → QM B) (P : B → Prop) :
  (∀ x, ¬ obj_write (ev (S := QueueSig) r x)) → (∀ x, ok r x → always ok (f x) (λ tr b, quiet tr ∧ P b)) →
  always ok (call (S := QueueSig) r ≫= f) (λ tr b, quiet tr ∧ P b).
Proof.
  intros Hr Hf. apply always_call. intros x Hx. eapply always_mono; [by apply Hf|]. intros tr b [? ?]. split; [by constructor|done].
Qed.

Lemma syncResourceFlavors_quiet ok qc specs items st :
  holds KFlavor OFlavor items st →
  kind_exact KFlavor (λ f, om_Name (kf_Meta f)) (λ f o, ∃ g, o = OFlavor g ∧ kf_Spec g = kf_Spec f) (ConvertKaiwoToKueueResourceFlavors specs) st →
  always ok (syncResourceFlavors qc items specs) (λ tr b, quiet tr ∧ b = true).
Proof.
  intros Hh Hex. eapply sync_kind_quiet; [done|exact Hex|]. intros f s Hf. destruct Hex as [Hthere _].
  destruct (Hthere f Hf) as (o & Ho & g & -> & Hs). unfold syncFlavor.
  pose proof (FindFlavor_holds items st (om_Name (kf_Meta f)) Hh) as Hfind. destruct (FindFlavor items _) as [e|]; [|congruence].
  destruct Hfind as (_ & _ & He). unfold CompareResourceFlavors. rewrite bool_decide_true by congruence. by apply quiet_ret.
Qed.

Lemma syncTopologies_quiet ok qc items st :
  holds KTopology OTopology items st →
  kind_exact KTopology (λ t, om_Name (kt_Meta t)) (λ t o, ∃ g, o = OTopology g ∧ kt_Levels g = kt_Levels t)
    (namedTopologies (qs_Topologies (qc_Spec qc))) st →
  always ok (syncTopologies qc items) (λ tr b, quiet tr ∧ b = true).
Proof.
  intros Hh Hex. unfold syncTopologies.
  rewrite (for_each_filter (λ t, om_Name (kt_Meta t) ≠ "")) by (intros t s Ht; unfold syncTopology; rewrite decide_True; [done|by apply dec_stable]).
  eapply sync_kind_quiet; [done|exact Hex|]. intros t s Ht. destruct Hex as [Hthere _].
  destruct (Hthere t Ht) as (o & Ho & g & -> & Hs). apply list_elem_of_filter in Ht as [Hne _].
  unfold syncTopology. rewrite decide_False by done.
  pose proof (FindTopology_holds items st (om_Name (kt_Meta t)) Hh) as Hfind. destruct (FindTopology items _) as [e|]; [|congruence].
  destruct Hfind as (_ & _ & He). unfold CompareTopologies. rewrite bool_decide_true by congruence. by apply quiet_ret.
Qed.

Lemma syncClusterQueues_quiet qc items st :
  holds KQueue OQueue items st →
  kind_exact KQueue cq_Name (λ q o, ∃ g, o = OQueue g ∧ kq_Spec g = kq_Spec (normalizeQueue (ConvertKaiwoToKueueClusterQueue q)))
    (qs_ClusterQueues (qc_Spec qc)) st →
  always (reading st) (syncClusterQueues retries qc items) (λ tr b, quiet tr ∧ b = true).
Proof.
  intros Hh Hex. eapply sync_kind_quiet; [done|exact Hex|]. intros q s Hq. destruct Hex as [Hthere _].
  destruct (Hthere q Hq) as (o & Ho & g & -> & Hs). unfold syncClusterQueue. apply quiet_read; [by intros ? []|].
  intros x (st' & -> & ->). change (om_Name (kq_Meta (normalizeQueue (ConvertKaiwoToKueueClusterQueue q)))) with (cq_Name q).
  rewrite Ho. unfold CompareClusterQueues. rewrite bool_decide_true by done. by apply quiet_ret.
Qed.

Lemma syncWorkloadPriorityClasses_quiet qc items st :
  holds KPriority OPriority items st →
  kind_exact KPriority (λ p, om_Name (pc_Meta p)) (λ p o, ∃ g, o = OPriority g ∧ pc_Value g = pc_Value p)
    (qs_WorkloadPriorityClasses (qc_Spec qc)) st →
  always (reading st) (syncWorkloadPriorityClasses qc items) (λ tr b, quiet tr ∧ b = true).
Proof.
  intros Hh Hex. eapply sync_kind_quiet; [done|exact Hex|]. intros p s Hp. destruct Hex as [Hthere _].
  destruct (Hthere p Hp) as (o & Ho & g & -> & Hs). unfold syncPriorityClass. apply quiet_read; [by intros ? []|].
  intros x (st' & -> & ->). rewrite Ho. unfold ComparePriorityClasses. rewrite bool_decide_true by done. by apply quiet_ret.
Qed.

(** * Local queues *)

(** Only local queues the cluster holds are stale, and none that the queues
    already visited want. *)
Definition stale_left (st : cluster) (queues rest : list ClusterQueue) (stale : staleMap) : Prop :=
  ∀ n ns l, staleAt stale n ns = Some l → localAt st n ns = Some l ∧
    ∀ q, q ∈ queues → cq_Name q = n → ns ∈ cq_Namespaces q → q ∈ rest.

Lemma namespaces_quiet st meta name all stale :
  (∀ ns, ns ∈ all → ∃ l, st !! (KLocal, ns, name) = Some (OLocal l)) →
  always (reading st) (for_each all (true, stale) (syncNamespace meta name)) (λ tr s, quiet tr ∧ s.1 = true ∧
    (∀ n ns l, staleAt s.2 n ns = Some l → staleAt stale n ns = Some l ∧ ¬ (n = name ∧ ns ∈ all))).
Proof.
  intros Hall. eapply always_mono.
  - apply (always_for_each_trace (reading st) quiet (λ rest s, s.1 = true ∧ (∀ ns, ns ∈ rest → ns ∈ all) ∧
      ∀ n ns l, staleAt s.2 n ns = Some l → staleAt stale n ns = Some l ∧ (n = name → ns ∈ all → ns ∈ rest)));
      [constructor|apply quiet_app| |by repeat split].
    intros ns rest s (Hok & Hsub & Hst). unfold syncNamespace. apply quiet_read; [by intros ? []|].
    intros x (st' & -> & ->). destruct (Hall ns) as [l Hl]; [apply Hsub; by left|]. rewrite Hl. apply quiet_ret. cbn [fst snd].
    split; [done|]. split; [intros; apply Hsub; by right|]. intros n m l'. rewrite staleAt_unstale. case_decide as Hd; [done|].
    intros Hl'. destruct (Hst _ _ _ Hl') as [? Hrest]. split; [done|]. intros -> Hin.
    pose proof (Hrest eq_refl Hin) as [->|?]%elem_of_cons; [by destruct Hd|done].
  - intros tr s (? & ? & _ & Hst). split; [done|]. split; [done|]. intros n ns l Hl. destruct (Hst _ _ _ Hl) as [? Hrest].
    split; [done|]. intros [-> Hin]. by apply (elem_of_nil ns), Hrest.
Qed.

Lemma syncQueueNamespaces_quiet st queues cq rest s :
  (∀ q ns, q ∈ queues → ns ∈ cq_Namespaces q → ∃ l, st !! (KLocal, ns, cq_Name q) = Some (OLocal l)) →
  (∃ k, st !! (KQueue, "", cq_Name cq) = Some (OQueue k)) → cq ∈ queues →
  s.1.1 = true → stale_left st queues (cq :: rest) s.1.2 →
  always (reading st) (syncQueueNamespaces cq s) (λ tr s', quiet tr ∧ s'.1.1 = true ∧ stale_left st queues rest s'.1.2 ∧
    s'.2 = <[cq_Name cq := cq]> s.2).
Proof.
  intros Hthere [k Hk] Hcq. destruct s as [[success stale] lookup]. cbn [fst snd]. intros -> Hleft.
  assert (∀ n ns l, staleAt stale n ns = Some l → ¬ (n = cq_Name cq ∧ ns ∈ cq_Namespaces cq) → localAt st n ns = Some l ∧
    ∀ q, q ∈ queues → cq_Name q = n → ns ∈ cq_Namespaces q → q ∈ rest) as Hnext.
  { intros n ns l Hl Hnot. destruct (Hleft n ns l Hl) as [? Hq]. split; [done|]. intros q Hin Hn Hns.
    pose proof (Hq q Hin Hn Hns) as [->|?]%elem_of_cons; [|done]. by destruct Hnot. }
  unfold syncQueueNamespaces. apply quiet_read; [by intros ? []|]. intros x (st' & -> & ->). rewrite Hk.
  destruct (cq_Namespaces cq) as [|n0 nss] eqn:Hns.
  - apply quiet_ret. cbn [fst snd]. split; [done|]. split; [|done]. intros n ns l Hl. apply Hnext; [|intros [_ Hbad]; by apply elem_of_nil in Hbad].
    destruct (stale !! cq_Name cq) as [nm|] eqn:E; [|done]. case_decide; [|done]. unfold staleAt in *. subst nm.
    destruct (decide (n = cq_Name cq)) as [->|]; [by rewrite lookup_delete_eq in Hl|by rewrite lookup_delete_ne in Hl].
  - apply always_bind. eapply always_mono; [apply namespaces_quiet|].
    + intros ns Hin. apply Hthere; [done|by rewrite Hns].
    + intros tr [ok stale'] (Htr & Hok & Hst). cbn [fst snd] in *. subst ok. simpl. rewrite app_nil_r. split; [done|]. split; [done|].
      split; [|done]. intros n ns l Hl. destruct (Hst _ _ _ Hl) as [? Hnot]. by apply Hnext.
Qed.

Lemma deleteStale_quiet ok lookup stale :
  (∀ n ns, managed lookup n → staleAt stale n ns = None) →
  always ok (deleteStale lookup stale true) (λ tr b, quiet tr ∧ b = true).
Proof.
  intros Hnone. unfold deleteStale. apply (always_for_each_closed ok quiet (λ b, b = true)); [constructor|apply quiet_app|done|].
  intros [n nm] b Hin ->. rewrite rangeMap_perm in Hin. apply elem_of_map_to_list in Hin.
  specialize (Hnone n). unfold managed in Hnone. destruct (lookup !! n) as [cq|]; [|by apply quiet_ret].
  destruct (cq_Namespaces cq) as [|n0 nss]; [by apply quiet_ret|].
  assert (nm = ∅) as ->.
  { apply map_eq. intros ns. rewrite lookup_empty. specialize (Hnone ns ltac:(done)). unfold staleAt in Hnone. by rewrite Hin in Hnone. }
  assert (rangeMap (∅ : gmap string KueueLocalQueue) = []) as ->; [|by apply quiet_ret].
  apply Permutation_nil. symmetry. rewrite rangeMap_perm. by rewrite map_to_list_empty.
Qed.

Lemma syncLocalQueues_quiet qc items st :
  let queues := qs_ClusterQueues (qc_Spec qc) in
  well_keyed st → listed OLocal st (inr items) → exact (qc_Spec qc) st →
  always (reading st) (syncLocalQueues qc items) (λ tr b, quiet tr ∧ b = true).
Proof.
  intros queues Hk Hl Hex. unfold syncLocalQueues. apply always_bind. eapply always_mono.
  - apply (always_for_each_trace (reading st) quiet (λ rest s, s.1.1 = true ∧ stale_left st queues rest s.1.2 ∧
      (∀ q, q ∈ rest → q ∈ queues) ∧ ∀ n q, s.2 !! n = Some q → q ∈ queues ∧ cq_Name q = n)); [constructor|apply quiet_app| |].
    + intros cq rest s (Hok & Hleft & Hsub & Hlook). assert (cq ∈ queues) as Hcq by (apply Hsub; by left).
      eapply always_mono; [apply (syncQueueNamespaces_quiet st queues cq rest s); try done|].
      * apply (ex_locals_there _ _ Hex).
      * destruct (ex_queues _ _ Hex) as [Hq _]. destruct (Hq cq Hcq) as (o & Ho & g & -> & _). by exists g.
      * intros tr s' (Htr & Hok' & Hleft' & ->). split; [done|]. split; [done|]. split; [done|]. split; [intros; apply Hsub; by right|].
        intros n q [[<- <-]|[_ ?]]%lookup_insert_Some; auto.
    + split; [done|]. split; [|by split]. intros n ns l Hs. cbn [fst snd] in Hs. rewrite (stale_listed items st) in Hs by done. auto.
  - intros tr [[ok stale] lookup] (Htr & Hok & Hleft & _ & Hlook). cbn [fst snd] in *. subst ok.
    eapply always_mono; [apply deleteStale_quiet|intros tr' b [? ->]; split; [by apply quiet_app|done]].
    intros n ns Hm. unfold managed in Hm. destruct (lookup !! n) as [q|] eqn:E; [|done]. destruct (Hlook _ _ E) as [Hq Hn].
    destruct (staleAt stale n ns) as [l|] eqn:Es; [|done]. exfalso. destruct (Hleft _ _ _ Es) as [Hloc Hrest].
    apply localAt_lookup in Hloc as [Hloc _]; [|done]. apply (elem_of_nil q). apply (Hrest q); [done|done|].
    apply (ex_locals_only _ _ Hex); [done|done|]. rewrite Hn, Hloc. by eexists.
Qed.

(** Running one quiet sync after another. *)
Lemma quiet_bind {A B : Type} ok (p : QM A) (f : A → QM B) (P : A → Prop) (R : B → Prop) :
  always ok p (λ tr a, quiet tr ∧ P a) → (∀ a, P a → always ok (f a) (λ tr b, quiet tr ∧ R b)) →
  always ok (p ≫= f) (λ tr b, quiet tr ∧ R b).
Proof.
  intros Hp Hf. apply always_bind. eapply always_mono; [exact Hp|]. intros tr a [? Ha]. eapply always_mono; [by apply Hf|].
  intros tr' b [? ?]. split; [by apply quiet_app|done].
Qed.

(** C18: on a cluster that holds exactly what the configuration describes, a sync
    reports success and creates, updates and deletes nothing. *)
Theorem SyncKueueResources_quiet qc (st : cluster) :
  well_formed st → exact (qc_Spec qc) st →
  always (reading st) (SyncKueueResources retries qc) (λ tr err, quiet tr ∧ err = None).
Proof.
  intros Hwf Hex. pose proof (wf_keyed _ Hwf) as Hk. unfold SyncKueueResources.
  apply quiet_read; [by intros ? []|]. intros x (st1 & -> & fs & -> & Hf).
  apply quiet_read; [by intros ? []|]. intros x (st1 & -> & qs & -> & Hq).
  apply quiet_read; [by intros ? []|]. intros x (st1 & -> & ps & -> & Hp).
  apply quiet_read; [by intros ? []|]. intros x (st1 & -> & ls & -> & Hl).
  apply quiet_read; [by intros ? []|]. intros x (st1 & -> & ts & -> & Ht).
  assert (∀ {A : Type} K (mk : A → kobj) l, (∀ a, objKind (mk a) = K) → (∀ o, objKind o = K → ∃ a, o = mk a) → K ≠ KLocal →
    NoDup ((λ a, objKey (mk a)) <$> l) ∧ (∀ a, a ∈ l ↔ st !! objKey (mk a) = Some (mk a)) → holds K mk l st) as Hholds.
  { intros A K mk l H1' H2' H3' H4'. apply listed_holds; try done. by exists l. }
  unfold syncAll. pose proof Hex as [Ef Et Eq Ep Hl1 Hl2].
  apply (quiet_bind _ _ _ (λ b, b = true)); [eapply syncTopologies_quiet; [apply (Hholds _ KTopology OTopology); try done; intros []; eauto; done|done]|intros ? ->].
  apply (quiet_bind _ _ _ (λ b, b = true)); [eapply syncResourceFlavors_quiet; [apply (Hholds _ KFlavor OFlavor); try done; intros []; eauto; done|done]|intros ? ->].
  apply (quiet_bind _ _ _ (λ b, b = true)); [eapply syncClusterQueues_quiet; [apply (Hholds _ KQueue OQueue); try done; intros []; eauto; done|done]|intros ? ->].
  apply (quiet_bind _ _ _ (λ b, b = true)); [apply syncLocalQueues_quiet; [done|by exists ls|done]|intros ? ->].
  apply (quiet_bind _ _ _ (λ b, b = true)); [eapply syncWorkloadPriorityClasses_quiet; [apply (Hholds _ KPriority OPriority); try done; intros []; eauto; done|done]|intros ? ->].
  by apply quiet_ret.
Qed.

End quiet.
