(* ===== verification/Scheduling.v ===== *)
(** Workload sizing and admission to a cluster (pkg/workloads/common: cluster.go,
    scheduling.go): summing up the GPUs of the nodes, turning a request into
    replicas and GPUs per replica, and deciding whether it can be scheduled. *)

From stdpp Require Import gmap strings list pretty.
From Stdlib Require Import ZArith Lia.
From S2P Require Import Prelude Float64 Types Kueue.

(** * Data *)

(** [corev1.ResourceRequirements]; a missing map is [None]. *)
Record ResourceRequirements := {
  rq_Requests : option (gmap string Z);
  rq_Limits : option (gmap string Z)
}.

(** The fields of [CommonMetaSpec] that size and place a workload. *)
Record CommonMetaSpec := {
  ms_Gpus : Z;
  ms_GpuVendor : string;
  ms_Replicas : option Z;
  ms_GpusPerReplica : Z;
  ms_Duration : option Z;
  ms_Resources : option ResourceRequirements;
  ms_ClusterQueue : string
}.

Record GPUStats := {
  TotalClusterGPUs : Z;
  TotalAllocatableGPUs : Z;
  MinAllocatableGPUsPerNode : Z;
  MinGPUsPerNode : Z;
  NodeGPUMap : gmap string Z
}.

(** What the code uses of the cluster: its nodes, their GPUs and the queues of
    the KaiwoQueueConfig named [cc_QueueConfigName]. *)
Record ClusterContext := {
  cc_Nodes : list Node;
  cc_GpuStats : GPUStats;
  cc_QueueConfigName : string;
  cc_ClusterQueues : list ClusterQueue
}.

Definition MaxInt32 : Z := 2 ^ 31 - 1.

(** * fillGpuStats *)

(** The GPU count the nodepool label of a node gives for a vendor. *)
Definition labelGpus (gpuVendor : string) (node : Node) : option Z :=
  match node_Labels node !! DefaultNodePoolLabel with
  | None => None
  | Some label =>
      match Str.Split label (Ascii.ascii_of_nat 45) with
      | p0 :: _ :: p2 :: _ =>
          if decide (p0 ≠ gpuVendor) then None else Str.Atoi (Str.TrimSuffix p2 "gpu")
      | _ => None
      end
  end.

Definition addNode (gpuVendor : string) (useAvailability : bool) (stats : GPUStats) (node : Node) : GPUStats :=
  match labelGpus gpuVendor node with
  | None => stats
  | Some gpusPerNode =>
      let stats1 :=
        {| TotalClusterGPUs := int64_wrap (TotalClusterGPUs stats + gpusPerNode);
           TotalAllocatableGPUs := TotalAllocatableGPUs stats;
           MinAllocatableGPUsPerNode := MinAllocatableGPUsPerNode stats;
           MinGPUsPerNode := if decide (gpusPerNode < MinGPUsPerNode stats) then gpusPerNode else MinGPUsPerNode stats;
           NodeGPUMap := <[node_Name node := gpusPerNode]> (NodeGPUMap stats) |} in
      if useAvailability then
        match node_Allocatable node !! (gpuVendor +:+ ".com/gpu") with
        | None => stats1
        | Some allocG =>
            if decide (allocG = 0) then stats1
            else
              {| TotalClusterGPUs := TotalClusterGPUs stats1;
                 TotalAllocatableGPUs := int64_wrap (TotalAllocatableGPUs stats1 + allocG);
                 MinAllocatableGPUsPerNode :=
                   if decide (allocG < MinAllocatableGPUsPerNode stats1) then allocG else MinAllocatableGPUsPerNode stats1;
                 MinGPUsPerNode := MinGPUsPerNode stats1;
                 NodeGPUMap := NodeGPUMap stats1 |}
        end
      else stats1
  end.

Definition emptyStats : GPUStats :=
  {| TotalClusterGPUs := 0; TotalAllocatableGPUs := 0; MinAllocatableGPUsPerNode := MaxInt32;
     MinGPUsPerNode := MaxInt32; NodeGPUMap := ∅ |}.

Definition fillGpuStats (nodes : list Node) (gpuVendor : string) (useAvailability : bool) : GPUStats :=
  foldl (addNode gpuVendor useAvailability) emptyStats nodes.

(** * CalculateResourceConfig *)

Record ResourceConfig := {
  rc_TotalGpus : Z;
  rc_Replicas : Z;
  rc_GpusPerReplica : Z;
  rc_GpuVendor : string;
  rc_DefaultResources : option ResourceRequirements
}.

(** [int(math.Max(float64(a), float64(b)))]. *)
Definition maxThroughFloat (a b : Z) : Z := F64.to_int (F64.max (F64.of_Z a) (F64.of_Z b)).

Definition totalUserRequestedGpus (spec : CommonMetaSpec) : Z :=
  let userRequestedGpus :=
    match ms_Replicas spec with
    | Some r => int64_wrap (r * ms_GpusPerReplica spec)
    | None => 0
    end in
  maxThroughFloat userRequestedGpus (ms_Gpus spec).

(** Division of machine integers: [None] is the run-time panic. *)
Definition int_div (a b : Z) : option Z := if decide (b = 0) then None else Some (int64_wrap (Z.quot a b)).

(** The node size the request is split by. *)
Definition minGpusPerNode (stats : GPUStats) (useAvailability : bool) (total : Z) : Z :=
  if useAvailability && bool_decide (total ≤ TotalAllocatableGPUs stats)
  then MinAllocatableGPUsPerNode stats else MinGPUsPerNode stats.

(** Replicas and GPUs per replica: rounding up to nodes, then sharing out. *)
Definition splitByNode (total m : Z) : option (Z * Z) :=
  replicas ← int_div (int64_wrap (int64_wrap (total + m) - 1)) m;
  gpusPerReplica ← int_div total replicas;
  Some (replicas, gpusPerReplica).

Definition CalculateResourceConfig (stats : GPUStats) (spec : CommonMetaSpec) (useAvailability : bool)
  : option ResourceConfig :=
  let config total replicas perReplica :=
    {| rc_TotalGpus := total; rc_Replicas := replicas; rc_GpusPerReplica := perReplica;
       rc_GpuVendor := ms_GpuVendor spec; rc_DefaultResources := ms_Resources spec |} in
  let total := totalUserRequestedGpus spec in
  if decide (total = 0) then Some (config 0 (default 1 (ms_Replicas spec)) 0)
  else
    let byNode :=
      match splitByNode total (minGpusPerNode stats useAvailability total) with
      | Some (replicas, gpusPerReplica) => Some (config total replicas gpusPerReplica)
      | None => None
      end in
    match ms_Replicas spec with
    | Some r =>
        if decide (0 < r ∧ 0 < ms_GpusPerReplica spec ∧ total ≤ TotalClusterGPUs stats)
        then Some (config total r (ms_GpusPerReplica spec))
        else byNode
    | None => byNode
    end.

(** * Schedulable conditions *)

Definition SchedulableType : string := "Schedulable".
Definition Schedulable : string := "Schedulable".
Definition UnschedulableNoGPUs : string := "NoGPUs".
Definition UnschedulableInsufficientGPUs : string := "InsufficientGPUs".
Definition UnschedulableWrongQueueNamespace : string := "WrongQueueNamespace".
Definition UnschedulableClusterQueueNotFound : string := "ClusterQueueNotFound".

Definition condition (type : string) (status : ConditionStatus) (reason message : string) : Condition :=
  {| cond_Type := type; cond_Status := status; cond_Reason := reason; cond_Message := message;
     cond_ObservedGeneration := 0; cond_LastTransitionTime := 0 |}.

Definition GetClusterQueueName (defaultClusterQueueName : string) (spec : CommonMetaSpec) : string :=
  if decide (ms_ClusterQueue spec ≠ "") then ms_ClusterQueue spec else defaultClusterQueueName.

(** The loop over the queues: the first one with the name decides. *)
Fixpoint queueCondition (queues : list ClusterQueue) (configName clusterQueueName workloadNamespace : string) : Condition :=
  match queues with
  | [] => condition SchedulableType ConditionFalse UnschedulableClusterQueueNotFound
      ("Cluster queue '" +:+ clusterQueueName +:+ "' is not defined in KaiwoQueueConfig '" +:+ configName +:+ "'")
  | q :: queues' =>
      if decide (cq_Name q = clusterQueueName) then
        match cq_Namespaces q with
        | [] => condition SchedulableType ConditionTrue Schedulable "Cluster queue has no namespace restrictions"
        | namespaces =>
            if existsb (λ ns, bool_decide (ns = workloadNamespace)) namespaces
            then condition SchedulableType ConditionTrue Schedulable "Cluster queue namespace matches"
            else condition SchedulableType ConditionFalse UnschedulableWrongQueueNamespace
              ("Cluster queue '" +:+ clusterQueueName +:+ "' defines one or more namespaces, but workload namespace '"
               +:+ workloadNamespace +:+ "' is not one of them")
        end
      else queueCondition queues' configName clusterQueueName workloadNamespace
  end.

Definition getQueueConfigCondition (defaultQueue : string) (ctx : ClusterContext) (namespace : string)
    (spec : CommonMetaSpec) : Condition :=
  queueCondition (cc_ClusterQueues ctx) (cc_QueueConfigName ctx) (GetClusterQueueName defaultQueue spec) namespace.

Definition getGpuSchedulableCondition (ctx : ClusterContext) (spec : CommonMetaSpec) : option Condition :=
  rc ← CalculateResourceConfig (cc_GpuStats ctx) spec true;
  let total := rc_TotalGpus rc in
  let cluster := TotalClusterGPUs (cc_GpuStats ctx) in
  Some (
    if decide (0 < total ∧ cluster = 0) then
      condition SchedulableType ConditionFalse UnschedulableNoGPUs ("Cluster has 0 GPUs (vendor: " +:+ ms_GpuVendor spec +:+ ")")
    else if decide (cluster < total) then
      condition SchedulableType ConditionFalse UnschedulableInsufficientGPUs
        ("Cluster has " +:+ pretty cluster +:+ " GPUs, but requested for " +:+ pretty total +:+ " GPUs (vendor: "
         +:+ ms_GpuVendor spec +:+ ")")
    else if decide (0 < total) then
      condition SchedulableType ConditionTrue Schedulable "Cluster has sufficient GPU resources"
    else condition SchedulableType ConditionTrue Schedulable "Workload does not require GPU resources").

(** [None] is the panic of a division by zero. *)
Definition GetSchedulableCondition (defaultQueue : string) (ctx : ClusterContext) (namespace : string)
    (spec : CommonMetaSpec) : option Condition :=
  let queueConfigCondition := getQueueConfigCondition defaultQueue ctx namespace spec in
  if decide (cond_Status queueConfigCondition = ConditionFalse) then Some queueConfigCondition
  else getGpuSchedulableCondition ctx spec.

(** * Properties *)

(** The counts of the nodes of a vendor, and what they have allocatable. *)
Definition nodeGpus (vendor : string) (nodes : list Node) : list Z := omap (labelGpus vendor) nodes.
Definition allocatableGpus (vendor : string) (nodes : list Node) : list Z :=
  omap (λ n, match labelGpus vendor n, node_Allocatable n !! (vendor +:+ ".com/gpu") with
             | Some _, Some a => if decide (a = 0) then None else Some a
             | _, _ => None
             end) nodes.

Definition least (l : list Z) (z : Z) : Z := foldr Z.min z l.

Lemma least_min l z w : least l (Z.min z w) = Z.min z (least l w).
Proof. induction l as [|x l IH]; simpl; [done|]. unfold least in *. simpl. rewrite IH. lia. Qed.

Lemma least_cons x l z : least l (if decide (x < z) then x else z) = Z.min x (least l z).
Proof. rewrite <- least_min. f_equal. case_decide; lia. Qed.

Lemma fill_foldl vendor nodes st :
  let st' := foldl (addNode vendor true) st nodes in
  in_int64 (TotalClusterGPUs st) → in_int64 (TotalAllocatableGPUs st) →
  TotalClusterGPUs st' = int64_wrap (TotalClusterGPUs st + sumZ (nodeGpus vendor nodes)) ∧
  TotalAllocatableGPUs st' = int64_wrap (TotalAllocatableGPUs st + sumZ (allocatableGpus vendor nodes)) ∧
  MinGPUsPerNode st' = least (nodeGpus vendor nodes) (MinGPUsPerNode st) ∧
  MinAllocatableGPUsPerNode st' = least (allocatableGpus vendor nodes) (MinAllocatableGPUsPerNode st).
Proof.
  revert st. induction nodes as [|n nodes IH]; intros st st' Hc Ha.
  { subst st'. cbn. rewrite !Z.add_0_r, !int64_wrap_id by done. done. }
  subst st'. cbn [foldl nodeGpus allocatableGpus omap list_omap]. unfold addNode at 2 4 6 8.
  destruct (labelGpus vendor n) as [g|]; [|by apply IH].
  destruct (node_Allocatable n !! (vendor +:+ ".com/gpu")) as [a|]; [case_decide as Hz|].
  all: edestruct IH as (E1 & E2 & E3 & E4); [| |rewrite E1, E2, E3, E4]; simpl; try done; auto with kaiwo.
  all: change (omap (M := list)) with (@list_omap Node Z); fold (nodeGpus vendor nodes); fold (allocatableGpus vendor nodes).
  all: rewrite ?int64_wrap_add_l, ?least_cons, ?sumZ_cons.
  all: repeat split; by rewrite ?Z.add_assoc.
Qed.

(** The summary of the cluster counts the nodes whose nodepool label names
    the vendor: the total is the int64 sum of their labelled counts, the minima
    are over those nodes (the largest int32 when there is none), and only nodes
    with a nonzero allocatable count enter the allocatable figures. *)
Theorem fillGpuStats_spec nodes vendor :
  let stats := fillGpuStats nodes vendor true in
  TotalClusterGPUs stats = int64_wrap (sumZ (nodeGpus vendor nodes)) ∧
  TotalAllocatableGPUs stats = int64_wrap (sumZ (allocatableGpus vendor nodes)) ∧
  MinGPUsPerNode stats = least (nodeGpus vendor nodes) MaxInt32 ∧
  MinAllocatableGPUsPerNode stats = least (allocatableGpus vendor nodes) MaxInt32.
Proof. apply (fill_foldl vendor nodes emptyStats); done. Qed.

(** A request that stays within what [float64] and the arithmetic hold. *)
Definition sane (spec : CommonMetaSpec) : Prop :=
  0 ≤ ms_Gpus spec < 2 ^ 53 ∧ 0 ≤ ms_GpusPerReplica spec ∧ 0 ≤ default 0 (ms_Replicas spec) ∧
  default 0 (ms_Replicas spec) * ms_GpusPerReplica spec < 2 ^ 53.

(** The number of GPUs asked for. *)
Definition requested (spec : CommonMetaSpec) : Z :=
  Z.max (default 0 (ms_Replicas spec) * ms_GpusPerReplica spec) (ms_Gpus spec).

Lemma requested_sane spec : sane spec → totalUserRequestedGpus spec = requested spec ∧ 0 ≤ requested spec < 2 ^ 53.
Proof.
  intros (Hg & Hp & Hr & Hm). unfold totalUserRequestedGpus, requested, maxThroughFloat.
  destruct (ms_Replicas spec) as [r|]; [change (default 0 (Some r)) with r in *|change (default 0 None) with 0 in *].
  - rewrite int64_wrap_id by (unfold in_int64, int64_min, int64_max; nia).
    rewrite F64.max_of_Z by nia. split; [done|nia].
  - rewrite F64.max_of_Z by lia. split; [done|lia].
Qed.

Lemma int_div_zero a b : b = 0 → int_div a b = None.
Proof. intros. unfold int_div. by rewrite decide_True. Qed.
Lemma int_div_some a b : b ≠ 0 → int_div a b = Some (int64_wrap (Z.quot a b)).
Proof. intros. unfold int_div. by rewrite decide_False. Qed.

Lemma splitByNode_spec total m :
  0 < total < 2 ^ 53 → 0 ≤ m ≤ MaxInt32 →
  match splitByNode total m with
  | None => m = 0
  | Some (r, g) => m * (r - 1) < total ≤ m * r ∧ 1 ≤ g ≤ m ∧ r * g ≤ total < r * (g + 1)
  end.
Proof.
  unfold MaxInt32. intros Ht Hm. unfold splitByNode.
  destruct (decide (m = 0)) as [Hm0|Hm0]; [by rewrite (int_div_zero _ m)|]. rewrite (int_div_some _ m) by done. cbn [mbind option_bind].
  rewrite (int64_wrap_id (total + m)) by (unfold in_int64, int64_min, int64_max; lia).
  rewrite (int64_wrap_id (total + m - 1)) by (unfold in_int64, int64_min, int64_max; lia).
  rewrite Z.quot_div_nonneg by lia.
  set (r := (total + m - 1) / m).
  assert (m * (r - 1) < total ≤ m * r) as Hr.
  { unfold r. pose proof (Z.div_mod (total + m - 1) m Hm0). pose proof (Z.mod_pos_bound (total + m - 1) m). lia. }
  assert (1 ≤ r) by nia. assert (r ≤ total) by nia.
  rewrite (int64_wrap_id r) by (unfold in_int64, int64_min, int64_max; lia).
  rewrite int_div_some by lia. cbn [mbind option_bind]. rewrite Z.quot_div_nonneg by lia.
  set (g := total / r).
  assert (r * g ≤ total < r * (g + 1)) as Hg.
  { unfold g. pose proof (Z.div_mod total r ltac:(lia)). pose proof (Z.mod_pos_bound total r). lia. }
  rewrite (int64_wrap_id g) by (unfold in_int64, int64_min, int64_max; nia).
  repeat split; [lia|lia|nia|nia|lia|lia].
Qed.

(** Replicas and GPUs per replica are given, and within the cluster. *)
Definition given (stats : GPUStats) (spec : CommonMetaSpec) : Prop :=
  ∃ r, ms_Replicas spec = Some r ∧ 0 < r ∧ 0 < ms_GpusPerReplica spec ∧ requested spec ≤ TotalClusterGPUs stats.


(** Rounding to whole replicas can drop GPUs: 9 requested on nodes of 8 give
    2 replicas with 4 each. *)
Theorem CalculateResourceConfig_drops_gpus stats spec :
  ms_Replicas spec = None → ms_GpusPerReplica spec = 0 → ms_Gpus spec = 9 → minGpusPerNode stats true 9 = 8 →
  ∃ rc, CalculateResourceConfig stats spec true = Some rc ∧
    rc_TotalGpus rc = 9 ∧ rc_Replicas rc = 2 ∧ rc_GpusPerReplica rc = 4.
Proof.
  intros Hr Hp Hg Hm. assert (sane spec) as Hs by (unfold sane; rewrite Hr, Hg, Hp; simpl; lia).
  destruct (requested_sane spec Hs) as [Et _]. assert (requested spec = 9) as Er by (unfold requested; by rewrite Hr, Hg, Hp).
  unfold CalculateResourceConfig. rewrite Et, Er, Hm, Hr. simpl. eexists. split; [vm_compute; reflexivity|done].
Qed.

(** The queue configuration lets workloads of a namespace into a queue: the first
    queue with the name has no namespaces, or the namespace among them. *)
Fixpoint admits (queues : list ClusterQueue) (name namespace : string) : Prop :=
  match queues with
  | [] => False
  | q :: queues' =>
      if decide (cq_Name q = name) then cq_Namespaces q = [] ∨ namespace ∈ cq_Namespaces q
      else admits queues' name namespace
  end.

Lemma queueCondition_spec queues config name ns :
  cond_Status (queueCondition queues config name ns) = ConditionTrue ∧ admits queues name ns ∨
  cond_Status (queueCondition queues config name ns) = ConditionFalse ∧ ¬ admits queues name ns.
Proof.
  induction queues as [|q queues IH]; cbn [queueCondition admits]; [right; split; [done|tauto]|]. case_decide; [|done].
  destruct (cq_Namespaces q) as [|n nss] eqn:En; [by left; split; [|left]|].
  destruct (existsb _ (n :: nss)) eqn:Ex.
  - left. split; [done|]. right. apply existsb_exists in Ex as (x & Hx & ->%bool_decide_eq_true). by apply list_elem_of_In.
  - right. split; [done|]. intros [?|Hin]; [done|]. apply not_true_iff_false in Ex. apply Ex, existsb_exists.
    exists ns. split; [by apply list_elem_of_In|]. by apply bool_decide_eq_true.
Qed.

(** C33: a workload is schedulable exactly when its queue admits its namespace and
    the cluster has at least the GPUs it asks for. *)
Theorem GetSchedulableCondition_spec defaultQueue ctx ns spec cond :
  sane spec → 0 < minGpusPerNode (cc_GpuStats ctx) true (requested spec) ≤ MaxInt32 →
  0 ≤ TotalClusterGPUs (cc_GpuStats ctx) →
  GetSchedulableCondition defaultQueue ctx ns spec = Some cond →
  (cond_Status cond = ConditionTrue ↔
     admits (cc_ClusterQueues ctx) (GetClusterQueueName defaultQueue spec) ns ∧
     requested spec ≤ TotalClusterGPUs (cc_GpuStats ctx)) ∧
  (cond_Status cond = ConditionTrue ∨ cond_Status cond = ConditionFalse).
Proof.
  intros Hs Hm Hc. unfold GetSchedulableCondition, getQueueConfigCondition.
  destruct (queueCondition_spec (cc_ClusterQueues ctx) (cc_QueueConfigName ctx) (GetClusterQueueName defaultQueue spec) ns)
    as [[-> Had]|[Hf Hna]]; cycle 1.
  { rewrite decide_True by done. intros [= <-]. rewrite Hf. split; [|by right]. split; [done|]. by intros [? _]. }
  rewrite decide_False by done. unfold getGpuSchedulableCondition.
  assert (∃ rc, CalculateResourceConfig (cc_GpuStats ctx) spec true = Some rc ∧ rc_TotalGpus rc = requested spec) as (rc & -> & Etot).
  { destruct (requested_sane spec Hs) as [Et Ht]. unfold CalculateResourceConfig. rewrite Et.
    case_decide as Hz; [eexists; split; [done|]; simpl; lia|].
    pose proof (splitByNode_spec (requested spec) (minGpusPerNode (cc_GpuStats ctx) true (requested spec)) ltac:(lia) ltac:(lia)) as Hsp.
    destruct (splitByNode _ _) as [[r g]|]; [|lia].
    destruct (ms_Replicas spec); [case_decide|]; by eexists. }
  destruct (requested_sane spec Hs) as [_ Ht]. cbn [mbind option_bind]. rewrite Etot. intros [= <-].
  repeat case_decide; simpl; (split; [|by auto]); (split; [intros Hx; first [discriminate Hx | split; [done|lia]]|]); try done; intros [_ ?]; lia.
Qed.
