(* ===== verification/Nodepools.v ===== *)
(** Node pools and the default cluster queue (internal/controller/utils: kueue.go,
    scheduling.go): grouping nodes into flavors by their GPUs, CPUs and memory,
    summing up their quotas, labelling the nodes, and building the queue. *)

From stdpp Require Import gmap strings list pretty.
From Stdlib Require Import ZArith Lia SpecFloat.
From S2P Require Import Prelude Text Float64 Types Kueue QueueApi Scheduling.

(** * Quantities *)

(** The documented behaviour of [resource.Quantity] the code relies on. *)
Class Quantities := {
  NewQuantity : Z → Format → Quantity;
  NewQuantity_nano v f : q_Nano (NewQuantity v f) = v * 10 ^ 9;
  QuantityAdd : Quantity → Quantity → Quantity;
  QuantityAdd_nano q r : q_Nano (QuantityAdd q r) = q_Nano q + q_Nano r;
  (** "Value returns the unscaled value of q rounded up to the nearest integer". *)
  QuantityValue : Quantity → Z;
  QuantityValue_integral q v : in_int64 v → q_Nano q = v * 10 ^ 9 → QuantityValue q = v;
  QuantityCmp : Quantity → Quantity → Z;
  QuantityCmp_zero q r : QuantityCmp q r = 0 ↔ q_Nano q = q_Nano r
}.

Definition zero_quantity : Quantity := {| q_Nano := 0; q_Format := DecimalSI |}.

(** [Capacity.Cpu()] and [Capacity.Memory()]: zero when the entry is missing. *)
Definition capacityOf (r : string) (n : Node) : Quantity := default zero_quantity (node_Capacity n !! r).

(** * Describing a node *)

Record NodeResourceInfo := {
  nr_Name : string;
  nr_CPU : Z;
  nr_Memory : Z;
  nr_Labels : gmap string string;
  nr_Unschedulable : bool
}.

Definition CleanAMDGPUName (gpuID : string) : string :=
  Text.TrimSpace (foldl Text.RemoveAll (Str.ToLower gpuID) ["instinct"; "radeon"; "_"; "oam"; "amd"; "series"; "gpu"]).

(** Count, vendor and type of a node's GPUs by its labels. *)
Definition gpuIdentity (labels : gmap string string) : Z * string * string :=
  let start := (0, "cpu", "only") in
  let amd :=
    match labels !! "amd.com/gpu.product-name" with
    | None => start
    | Some gpuID =>
        match labels !! "beta.amd.com/gpu.family.AI" with
        | Some count => (Text.AtoiValue count, "amd", CleanAMDGPUName gpuID)
        | None => (start.1.1, start.1.2, CleanAMDGPUName gpuID)
        end
    end in
  match labels !! "nvidia.com/gpu.product" with
  | None => amd
  | Some gpuProduct =>
      let gpuType := Text.RemoveAll (Str.ToLower gpuProduct) "-" in
      match labels !! "nvidia.com/gpu.count" with
      | Some count => (Text.AtoiValue count, "nvidia", gpuType)
      | None => (amd.1.1, amd.1.2, gpuType)
      end
  end.

Definition GiB : Z := 1024 * 1024 * 1024.

(** The constant 0.9 as a float64. *)
Definition cpuMemoryDiscountFactor : float64 := S754_finite false 8106479329266893 (-53).

Definition discounted (n : Z) : float64 := F64.mul (F64.of_Z n) cpuMemoryDiscountFactor.

Definition flavorNameOf (vendor type : string) (count cpu gi : Z) : string :=
  vendor +:+ "-" +:+ type +:+ "-" +:+ pretty count +:+ "gpu-" +:+ pretty cpu +:+ "core-" +:+ pretty gi +:+ "gi".

Section pools.
Context `{Quantities} `{GoOrder} `{KubeLib} (retries : QueueRetry).

Definition GetNodeResources : QM (list NodeResourceInfo) :=
  got ← call (S := QueueSig) ListNodes;
  mret (match got with
        | inl _ => []
        | inr nodes => (λ n,
            {| nr_Name := node_Name n; nr_CPU := QuantityValue (capacityOf "cpu" n);
               nr_Memory := Z.quot (QuantityValue (capacityOf "memory" n)) GiB;
               nr_Labels := node_Labels n; nr_Unschedulable := node_Unschedulable n |}) <$> nodes
        end).

Definition nominalCPU (n : NodeResourceInfo) : Quantity := NewQuantity (F64.to_int (discounted (nr_CPU n))) DecimalSI.

Definition nominalMemory (n : NodeResourceInfo) : Quantity :=
  let k := F64.of_Z 1024 in
  NewQuantity (F64.to_int (F64.mul (F64.mul (F64.mul (discounted (nr_Memory n)) k) k) k)) BinarySI.

Definition flavorName (n : NodeResourceInfo) : string :=
  let '(count, vendor, type) := gpuIdentity (nr_Labels n) in
  flavorNameOf vendor type count (QuantityValue (nominalCPU n)) (Z.quot (QuantityValue (nominalMemory n)) GiB).

Definition gpuResource (vendor : string) : string := if decide (vendor = "nvidia") then "nvidia.com/gpu" else "amd.com/gpu".

(** * Grouping *)

(** Pool to node names, and pool to resource to amount. *)
Record Pools := { np_Nodes : gmap string (list string); np_Aggregates : gmap string (gmap string Quantity) }.

Definition skipped (excludeMasters : bool) (n : NodeResourceInfo) : bool :=
  nr_Unschedulable n ||
  excludeMasters && (bool_decide (is_Some (nr_Labels n !! "node-role.kubernetes.io/control-plane")) ||
                     bool_decide (is_Some (nr_Labels n !! "node-role.kubernetes.io/master"))).

(** [m[r].Add(q)]: [None] is the panic when [m[r]] is nil. *)
Definition addAt (r : string) (q : Quantity) (m : gmap string Quantity) : option (gmap string Quantity) :=
  old ← m !! r; Some (<[r := QuantityAdd old q]> m).

(** The aggregates of a new pool. *)
Definition newAggregates (gpuCount : Z) (vendor : string) : gmap string Quantity :=
  let m := {[ "cpu" := NewQuantity 0 DecimalSI; "memory" := NewQuantity 0 BinarySI ]} in
  if decide (0 < gpuCount) then <[gpuResource vendor := NewQuantity 0 DecimalSI]> m else m.

Definition addToPools (excludeMasters : bool) (p : Pools) (n : NodeResourceInfo) : option Pools :=
  if skipped excludeMasters n then Some p
  else
    let '(gpuCount, vendor, _) := gpuIdentity (nr_Labels n) in
    let f := flavorName n in
    let m := default (newAggregates gpuCount vendor) (np_Aggregates p !! f) in
    m ← addAt "cpu" (nominalCPU n) m;
    m ← addAt "memory" (nominalMemory n) m;
    m ← (if decide (0 < gpuCount) then addAt (gpuResource vendor) (NewQuantity gpuCount DecimalSI) m else Some m);
    Some {| np_Nodes := <[f := default [] (np_Nodes p !! f) ++ [nr_Name n]]> (np_Nodes p);
            np_Aggregates := <[f := m]> (np_Aggregates p) |}.

Fixpoint groupNodes (excludeMasters : bool) (nodes : list NodeResourceInfo) (p : Pools) : option Pools :=
  match nodes with
  | [] => Some p
  | n :: nodes' => p ← addToPools excludeMasters p n; groupNodes excludeMasters nodes' p
  end.

Definition no_pools : Pools := {| np_Nodes := ∅; np_Aggregates := ∅ |}.

(** * Quotas and flavors *)

Definition plainQuota (name : string) (q : Quantity) : ResourceQuota :=
  {| rqt_Name := name; rqt_NominalQuota := q; rqt_BorrowingLimit := None; rqt_LendingLimit := None |}.

(** CPU and memory first, then the others; [None] when one of them is missing. *)
Definition poolQuotas (m : gmap string Quantity) : option (list ResourceQuota) :=
  cpu ← m !! "cpu"; mem ← m !! "memory";
  Some (plainQuota "cpu" cpu :: plainQuota "memory" mem ::
    ((λ e, plainQuota e.1 e.2) <$> filter (λ e : string * Quantity, e.1 ≠ "cpu" ∧ e.1 ≠ "memory") (rangeMap m))).

Definition RemoveDuplicateResourceFlavors (fs : list ResourceFlavorSpec) : list ResourceFlavorSpec :=
  snd <$> rangeMap (foldl (λ m f, <[rf_Name f := f]> m) (∅ : gmap string ResourceFlavorSpec) fs).

Definition poolFlavor (topologyName f : string) : ResourceFlavorSpec :=
  {| rf_Name := f; rf_NodeLabels := {[ DefaultNodePoolLabel := f ]}; rf_Taints := []; rf_Tolerations := [];
     rf_TopologyName := topologyName |}.

Definition poolResources (p : Pools) : option (gmap string FlavorQuotas) :=
  foldr (λ '(f, _) acc, m ← acc; agg ← np_Aggregates p !! f; quotas ← poolQuotas agg;
           Some (<[f := {| fq_Name := f; fq_Resources := Some quotas |}]> m)) (Some ∅) (rangeMap (np_Nodes p)).

(** * Labelling nodes *)

Definition LabelNode (nodeName key value : string) : QM (option error) :=
  RetryOnConflict retries (
    got ← call (S := QueueSig) (GetNode nodeName);
    match got with
    | inl e => mret (Some e)
    | inr node =>
        if decide (node_Labels node ≠ ∅ ∧ default "" (node_Labels node !! key) = value) then mret None
        else call (S := QueueSig) (PatchNode node (node_set_Labels (<[key := value]> (node_Labels node)) node))
    end).

Definition TaintNode (nodeName : string) (taint : Taint) : QM (option error) :=
  RetryOnConflict retries (
    got ← call (S := QueueSig) (GetNode nodeName);
    match got with
    | inl e => mret (Some e)
    | inr node =>
        if existsb (λ t, MatchTaint t taint) (node_Taints node) then mret None
        else call (S := QueueSig) (UpdateNode (node_set_Taints (node_Taints node ++ [taint]) node))
    end).

Definition labelFailed (nodeName : string) (e : error) : error := Wrapf ("failed to label node " +:+ nodeName) e.

Definition gpuTaint (cfg : KaiwoConfigSpec) : Taint :=
  {| taint_Key := kc_DefaultGpuTaintKey cfg; taint_Value := "true"; taint_Effect := "NoSchedule" |}.

(** The labels and the taint of a node in pool [f]. *)
Definition labelPoolNode (cfg : KaiwoConfigSpec) (f nodeName : string) : QM (option error) :=
  worker ← LabelNode nodeName DefaultKaiwoWorkerLabel "true";
  match worker with
  | Some e => mret (Some (labelFailed nodeName e))
  | None =>
      pool ← LabelNode nodeName DefaultNodePoolLabel f;
      match pool with
      | Some e => mret (Some (labelFailed nodeName e))
      | None =>
          model ← (if Str.Contains f CPUOnly then mret None
                   else LabelNode nodeName GPUModelLabel (default "" (Str.Split f (Ascii.ascii_of_nat 45) !! 1%nat)));
          match model with
          | Some e => mret (Some (labelFailed nodeName e))
          | None =>
              _ ← (if kc_AddTaintsToGpuNodes cfg && negb (Str.HasPrefix f CPUOnly) then TaintNode nodeName (gpuTaint cfg) else mret None);
              mret None
          end
      end
  end.

Definition labelPools (cfg : KaiwoConfigSpec) (p : Pools) : QM (option error) :=
  r ← for_range (rangeMap (np_Nodes p)) tt (λ '(f, nodeNames) _,
        r ← for_range nodeNames tt (λ nodeName _,
              e ← labelPoolNode cfg f nodeName;
              mret (match e with Some err => Return err | None => Continue tt end));
        mret (match r with inr err => Return err | inl _ => Continue tt end));
  mret (match r with inr err => Some err | inl _ => None end).

(** The outer [None] is a panic. *)
Definition CreateDefaultResourceFlavors (cfg : KaiwoConfigSpec)
  : QM (option (error + list ResourceFlavorSpec * gmap string FlavorQuotas)) :=
  nodes ← GetNodeResources;
  match groupNodes (kc_ExcludeMasterNodesFromNodePools cfg) nodes no_pools with
  | None => mret None
  | Some p =>
      match poolResources p with
      | None => mret None
      | Some resources =>
          let flavors := RemoveDuplicateResourceFlavors ((λ '(f, _), poolFlavor (kc_DefaultTopologyName cfg) f) <$> rangeMap (np_Nodes p)) in
          err ← labelPools cfg p;
          mret (Some (match err with Some e => inl e | None => inr (flavors, resources) end))
      end
  end.

(** * The default cluster queue *)

Fixpoint countWith (suffix : string) (parts : list string) : Z :=
  match parts with
  | [] => 0
  | p :: parts' => if Str.HasSuffix p suffix then Text.AtoiValue (Str.TrimSuffix p suffix) else countWith suffix parts'
  end.

Definition parts (f : string) : list string := Str.Split f (Ascii.ascii_of_nat 45).

Definition getGPUCount (f : string) : Z :=
  if Str.Contains f "nvidia" || Str.Contains f "amd" then countWith "gpu" (parts f) else 0.
Definition getCPUCount (f : string) : Z := countWith "core" (parts f).
Definition getMemoryCount (f : string) : Z := countWith "Gi" (parts f).

Definition flavorLess (a b : FlavorQuotas) : bool :=
  let gpuI := getGPUCount (fq_Name a) in let gpuJ := getGPUCount (fq_Name b) in
  let cpuI := getCPUCount (fq_Name a) in let cpuJ := getCPUCount (fq_Name b) in
  if decide (gpuI = 0 ∧ 0 < gpuJ) then true
  else if decide (gpuJ = 0 ∧ 0 < gpuI) then false
  else if decide (gpuI ≠ gpuJ) then bool_decide (gpuI < gpuJ)
  else if decide (cpuI ≠ cpuJ) then bool_decide (cpuI < cpuJ)
  else bool_decide (getMemoryCount (fq_Name a) < getMemoryCount (fq_Name b)).

Definition coveredSet (quotas : list FlavorQuotas) : gmap string unit :=
  foldl (λ s q, foldl (λ s r, <[Text.TrimSpace (rqt_Name r) := tt]> s) s (elems (fq_Resources q))) ∅ quotas.

(** A quota of zero for every covered resource the flavor lacks. *)
Definition fillMissing (covered : list string) (q : FlavorQuotas) : FlavorQuotas :=
  let missing := filter (λ c, c ∉ rqt_Name <$> elems (fq_Resources q)) covered in
  match missing with
  | [] => q
  | _ => {| fq_Name := fq_Name q;
            fq_Resources := Some (elems (fq_Resources q) ++ ((λ c, plainQuota c (NewQuantity 0 DecimalSI)) <$> missing)) |}
  end.

Definition CreateClusterQueue (nodePoolResources : gmap string FlavorQuotas) (name cohort : string) : ClusterQueue :=
  let flavorQuotas := snd <$> rangeMap nodePoolResources in
  let covered := fst <$> rangeMap (coveredSet flavorQuotas) in
  let sorted := sortSlice flavorLess flavorQuotas in
  {| cq_Name := name; cq_Namespaces := [];
     cq_Spec :=
       {| cqs_ResourceGroups := Some [{| rg_CoveredResources := appended covered;
                                         rg_Flavors := appended (fillMissing covered <$> sorted) |}];
          cqs_Cohort := cohort; cqs_QueueingStrategy := ""; cqs_NamespaceSelector := Some "{}";
          cqs_FlavorFungibility := None; cqs_Preemption := None; cqs_AdmissionChecks := None;
          cqs_AdmissionChecksStrategy := None; cqs_StopPolicy := None; cqs_FairSharing := None |} |}.

(** * The default topology *)

Definition CreateDefaultTopology (cfg : KaiwoConfigSpec) : list Topology :=
  let name := if decide (kc_DefaultTopologyName cfg = "") then DefaultTopologyName else kc_DefaultTopologyName cfg in
  [{| tp_Meta := named name;
      tp_Levels := Some [DefaultTopologyBlockLabel; DefaultTopologyRackLabel; DefaultTopologyHostLabel] |}].

(** Every node gets the block and rack labels of the topology it lacks. *)
Definition defaultLabel (key value : string) (labels : gmap string string) : gmap string string :=
  match labels !! key with Some _ => labels | None => <[key := value]> labels end.

Definition CreateTopology : QM (option error) :=
  got ← call (S := QueueSig) ListNodes;
  match got with
  | inl e => mret (Some (Wrapf "listing nodes" e))
  | inr nodes =>
      r ← for_range nodes tt (λ node _,
            let labels := defaultLabel DefaultTopologyRackLabel "rack-a"
                            (defaultLabel DefaultTopologyBlockLabel "block-a" (node_Labels node)) in
            if decide (labels = node_Labels node) then mret (Continue tt)
            else
              e ← call (S := QueueSig) (UpdateNode (node_set_Labels labels node));
              mret (match e with
                    | Some err => Return (Wrapf ("failed to label node " +:+ node_Name node) err)
                    | None => Continue tt
                    end));
      mret (match r with inr err => Some err | inl _ => None end)
  end.

(** The fields of a node the controller watches. *)
Definition nodeResourceChanged (old new : Node) : bool :=
  bool_decide (node_Unschedulable old ≠ node_Unschedulable new) ||
  bool_decide (QuantityCmp (capacityOf "cpu" old) (capacityOf "cpu" new) ≠ 0) ||
  bool_decide (QuantityCmp (capacityOf "memory" old) (capacityOf "memory" new) ≠ 0) ||
  bool_decide (node_Labels old ≠ node_Labels new).

End pools.
