(* ===== verification/QueueInstances.v ===== *)
(** Instances of the interfaces the queue configuration code is proved against:
    exact quantities, and owner references, finalizers and taints as their
    documentation describes them. *)

From stdpp Require Import gmap strings list.
From Stdlib Require Import ZArith Lia.
From S2P Require Import Prelude Types Kueue QueueApi Nodepools.

#[refine, export] Instance exactQuantities : Quantities := {
  NewQuantity v f := {| q_Nano := v * 10 ^ 9; q_Format := f |};
  QuantityAdd q r := {| q_Nano := q_Nano q + q_Nano r; q_Format := q_Format q |};
  QuantityValue q := (q_Nano q + (10 ^ 9 - 1)) `div` 10 ^ 9;
  QuantityCmp q r := Z.sgn (q_Nano q - q_Nano r)
}.
Proof.
  - done.
  - done.
  - intros q v _ ->. rewrite Z.div_add_l by done. by rewrite Z.add_0_r.
  - intros q r. rewrite Z.sgn_null_iff. lia.
Defined.

Definition ownedBy (owner m : ObjectMeta) : ObjectMeta :=
  {| om_Name := om_Name m; om_Namespace := om_Namespace m; om_ResourceVersion := om_ResourceVersion m;
     om_Finalizers := om_Finalizers m; om_DeletionTimestamp := om_DeletionTimestamp m;
     om_OwnerReferences := om_OwnerReferences m ++
       [{| or_APIVersion := ""; or_Kind := ""; or_Name := om_Name owner; or_UID := ""; or_Controller := Some true |}] |}.

Definition withoutFinalizer (m : ObjectMeta) (f : string) : ObjectMeta :=
  {| om_Name := om_Name m; om_Namespace := om_Namespace m; om_ResourceVersion := om_ResourceVersion m;
     om_Finalizers := filter (λ g, g ≠ f) (om_Finalizers m); om_DeletionTimestamp := om_DeletionTimestamp m;
     om_OwnerReferences := om_OwnerReferences m |}.

#[refine, export] Instance plainLib : KubeLib := {
  ErrorText e := "error";
  SetControllerReference owner m := inr (ownedBy owner m);
  RemoveFinalizer m f := if decide (f ∈ om_Finalizers m) then (withoutFinalizer m f, true) else (m, false);
  MatchTaint t u := bool_decide (taint_Key t = taint_Key u ∧ taint_Effect t = taint_Effect u)
}.
Proof.
  - by intros owner m m' [= <-].
  - intros m f. destruct (decide (f ∈ om_Finalizers m)) as [Hf|Hf]; [done|]. repeat split.
    induction (om_Finalizers m) as [|g l IH]; [done|]. rewrite filter_cons, decide_True by set_solver. f_equal. apply IH. set_solver.
  - intros t u. apply bool_decide_eq_true.
Defined.
