(* ===== verification/PoolTheory.v ===== *)
(** What the node pools and the default cluster queue amount to: the pools
    partition the nodes and add up their resources, the nodepool label of a node
    tells its GPU count to the scheduler, and the queue covers every resource in
    every flavor. *)

From stdpp Require Import gmap strings list pretty sorting.
From Stdlib Require Import ZArith Lia.
From S2P Require Import Prelude Text Float64 Types Kueue QueueApi Scheduling Nodepools.

(** * Names of flavors *)

Definition dash : Ascii.ascii := Ascii.ascii_of_nat 45.

Lemma parts_flavorNameOf vendor type count cpu gi :
  dash ∉ Text.chars vendor → 0 ≤ count → 0 ≤ cpu → 0 ≤ gi →
  parts (flavorNameOf vendor type count cpu gi) =
    vendor :: Str.Split type dash ++ [pretty count +:+ "gpu"; pretty cpu +:+ "core"; pretty gi +:+ "gi"].
Proof.
  intros Hv Hc Hcpu Hgi. unfold parts, flavorNameOf.
  assert (∀ z suf, 0 ≤ z → dash ∉ Text.chars suf → Str.Split (pretty z +:+ suf) dash = [pretty z +:+ suf]) as Hlast.
  { intros z suf Hz Hs. apply Text.Split_whole. rewrite Text.chars_app, elem_of_app. intros [Hd|Hd]; [|done].
    by apply (Text.pretty_no_dash z). }
  change (Ascii.ascii_of_nat 45) with dash.
  change ("-" +:+ type +:+ "-" +:+ pretty count +:+ "gpu-" +:+ pretty cpu +:+ "core-" +:+ pretty gi +:+ "gi")
    with (String dash (type +:+ String dash (pretty count +:+ "gpu-" +:+ pretty cpu +:+ "core-" +:+ pretty gi +:+ "gi"))).
  rewrite !Text.Split_app, (Text.Split_whole vendor) by done. cbn [app]. do 2 f_equal.
  assert (∀ a b, (a +:+ "gpu-" +:+ b) = (a +:+ "gpu") +:+ String dash b) as Hgpu.
  { intros a b. induction a as [|c a IH]; [done|]. rewrite !Text.app_cons. by f_equal. }
  assert (∀ a b, (a +:+ "core-" +:+ b) = (a +:+ "core") +:+ String dash b) as Hcore.
  { intros a b. induction a as [|c a IH]; [done|]. rewrite !Text.app_cons. by f_equal. }
  rewrite Hgpu, Hcore, !Text.Split_app, !Hlast by (done || set_solver). done.
Qed.

Lemma flavorNameOf_inj v t c cpu gi v' t' c' cpu' gi' :
  dash ∉ Text.chars v → dash ∉ Text.chars v' → 0 ≤ c → 0 ≤ cpu → 0 ≤ gi → 0 ≤ c' → 0 ≤ cpu' → 0 ≤ gi' →
  flavorNameOf v t c cpu gi = flavorNameOf v' t' c' cpu' gi' → v = v' ∧ c = c'.
Proof.
  intros Hv Hv' ? ? ? ? ? ? E. apply (f_equal parts) in E. rewrite !parts_flavorNameOf in E by done.
  injection E as -> E. split; [done|].
  assert (length (Str.Split t dash) = length (Str.Split t' dash)) as Hlen.
  { apply (f_equal length) in E. rewrite !length_app in E. cbn in E. lia. }
  apply app_inj_1 in E as [_ E]; [|done]. injection E as E _. apply (f_equal (λ s, Str.TrimSuffix s "gpu")) in E.
  rewrite !Text.TrimSuffix_app in E. by apply (inj pretty).
Qed.

Section pools.
Context `{Quantities} `{GoOrder} `{KubeLib}.

Abbreviation gpuCountOf n := (gpuIdentity (nr_Labels n)).1.1.
Abbreviation vendorOf n := (gpuIdentity (nr_Labels n)).1.2.

(** Labels and capacities that are not negative. *)
Record valid_node (n : NodeResourceInfo) : Prop := {
  vn_count : 0 ≤ gpuCountOf n;
  vn_cpu : 0 ≤ QuantityValue (nominalCPU n);
  vn_mem : 0 ≤ Z.quot (QuantityValue (nominalMemory n)) GiB
}.

Lemma vendor_cases labels :
  let v := (gpuIdentity labels).1.2 in v = "cpu" ∨ v = "amd" ∨ v = "nvidia".
Proof. unfold gpuIdentity. repeat (case_match; simpl); auto. Qed.

Lemma vendor_no_dash n : dash ∉ Text.chars (vendorOf n).
Proof. destruct (vendor_cases (nr_Labels n)) as [->|[->| ->]]; by apply (bool_decide_unpack _). Qed.

Lemma flavorName_inj n n' : valid_node n → valid_node n' → flavorName n = flavorName n' →
  vendorOf n = vendorOf n' ∧ gpuCountOf n = gpuCountOf n'.
Proof.
  intros [] []. pose proof (vendor_no_dash n). pose proof (vendor_no_dash n'). unfold flavorName.
  destruct (gpuIdentity (nr_Labels n)) as [[c v] t], (gpuIdentity (nr_Labels n')) as [[c' v'] t']. by apply flavorNameOf_inj.
Qed.

(** * Pools *)

(** The nodes that make up a pool, in order. *)
Definition members (exclude : bool) (nodes : list NodeResourceInfo) (f : string) : list NodeResourceInfo :=
  filter (λ n, skipped exclude n = false ∧ flavorName n = f) nodes.

(** The resources a node's pool has a quota for, and what the node adds to them. *)
Definition offers (n : NodeResourceInfo) (r : string) : Prop :=
  r = "cpu" ∨ r = "memory" ∨ 0 < gpuCountOf n ∧ r = gpuResource (vendorOf n).
#[export] Instance offers_dec n r : Decision (offers n r).
Proof. unfold offers. apply _. Defined.

Definition contribution (r : string) (n : NodeResourceInfo) : Z :=
  if decide (r = "cpu") then q_Nano (nominalCPU n)
  else if decide (r = "memory") then q_Nano (nominalMemory n)
  else gpuCountOf n * 10 ^ 9.

(** The aggregates [m] hold [amount] of the resources node [n] offers. *)
Definition amounts (n : NodeResourceInfo) (amount : string → Z) (m : gmap string Quantity) : Prop :=
  ∀ r, q_Nano <$> m !! r = if decide (offers n r) then Some (amount r) else None.

Lemma gpuResource_not v : gpuResource v ≠ "cpu" ∧ gpuResource v ≠ "memory".
Proof. unfold gpuResource. by case_decide. Qed.

Lemma newAggregates_amounts n : amounts n (λ _, 0) (newAggregates (gpuCountOf n) (vendorOf n)).
Proof.
  intros r. unfold newAggregates. destruct (gpuResource_not (vendorOf n)) as [Hc Hm].
  set (m := {["cpu" := NewQuantity 0 DecimalSI; "memory" := NewQuantity 0 BinarySI]}).
  assert (q_Nano <$> m !! r = if decide (r = "cpu" ∨ r = "memory") then Some 0 else None) as Hbase.
  { subst m. destruct (decide (r = "cpu")) as [->|].
    { rewrite lookup_insert_eq, decide_True by auto. cbn. by rewrite NewQuantity_nano. }
    destruct (decide (r = "memory")) as [->|].
    { rewrite lookup_insert_ne, lookup_singleton_eq, decide_True by auto. cbn. by rewrite NewQuantity_nano. }
    rewrite lookup_insert_ne, lookup_singleton_ne, decide_False by naive_solver. done. }
  destruct (decide (0 < gpuCountOf n)) as [Hg|Hg]; [destruct (decide (r = gpuResource (vendorOf n))) as [->|Hr]|].
  - rewrite lookup_insert_eq, decide_True by (unfold offers; auto). cbn. by rewrite NewQuantity_nano.
  - rewrite lookup_insert_ne, Hbase by done. apply decide_ext. unfold offers. tauto.
  - rewrite Hbase. apply decide_ext. unfold offers. tauto.
Qed.

Lemma addAt_amounts n amount m r q :
  amounts n amount m → offers n r →
  ∃ m', addAt r q m = Some m' ∧ amounts n (λ r', if decide (r' = r) then amount r + q_Nano q else amount r') m'.
Proof.
  intros Hm Hr. pose proof (Hm r) as Hmr. rewrite decide_True in Hmr by done. apply fmap_Some in Hmr as (old & Hold & Ha).
  unfold addAt. rewrite Hold. eexists. split; [done|]. intros r'. destruct (decide (r' = r)) as [->|Hne].
  - rewrite lookup_insert_eq, decide_True by done. cbn. by rewrite QuantityAdd_nano, Ha.
  - rewrite lookup_insert_ne by done. apply Hm.
Qed.

Lemma amounts_ext n a a' m : (∀ r, offers n r → a r = a' r) → amounts n a m → amounts n a' m.
Proof. intros Ha Hm r. rewrite Hm. case_decide; [by rewrite Ha|done]. Qed.

(** The three additions a node makes. *)
Lemma addNode_amounts n amount m :
  amounts n amount m →
  ∃ m', (∀ k : gmap string Quantity → option Pools,
      (m ← addAt "cpu" (nominalCPU n) m; m ← addAt "memory" (nominalMemory n) m;
       m ← (if decide (0 < gpuCountOf n) then addAt (gpuResource (vendorOf n)) (NewQuantity (gpuCountOf n) DecimalSI) m else Some m);
       k m) = k m') ∧
    amounts n (λ r, amount r + contribution r n) m'.
Proof.
  intros Hm. destruct (gpuResource_not (vendorOf n)) as [Hc Hmm].
  destruct (addAt_amounts n _ m "cpu" (nominalCPU n) Hm) as (m1 & -> & A1); [by left|]. cbn [mbind option_bind].
  destruct (addAt_amounts n _ m1 "memory" (nominalMemory n) A1) as (m2 & -> & A2); [by right; left|]. cbn [mbind option_bind].
  destruct (decide (0 < gpuCountOf n)) as [Hg|Hg].
  - destruct (addAt_amounts n _ m2 (gpuResource (vendorOf n)) (NewQuantity (gpuCountOf n) DecimalSI) A2) as (m3 & -> & A3); [by right; right|].
    eexists. split; [done|]. eapply amounts_ext; [|exact A3]. intros r Hr. unfold contribution. cbv beta.
    rewrite NewQuantity_nano. destruct Hr as [->|[->|[_ ->]]]; repeat case_decide; done.
  - eexists. split; [done|]. eapply amounts_ext; [|exact A2]. intros r Hr. unfold contribution. cbv beta.
    destruct Hr as [->|[->|[? _]]]; repeat case_decide; done.
Qed.

(** A pool holds its members' names and the sums of what they contribute. *)
Definition pool_of (exclude : bool) (nodes : list NodeResourceInfo) (p : Pools) (f : string) : Prop :=
  np_Nodes p !! f = appended (nr_Name <$> members exclude nodes f) ∧
  match members exclude nodes f with
  | [] => np_Aggregates p !! f = None
  | n :: _ => ∃ m, np_Aggregates p !! f = Some m ∧ amounts n (λ r, sumZ (contribution r <$> members exclude nodes f)) m
  end.

Lemma members_snoc exclude nodes n f :
  members exclude (nodes ++ [n]) f =
    members exclude nodes f ++ (if decide (skipped exclude n = false ∧ flavorName n = f) then [n] else []).
Proof. unfold members. by rewrite filter_app. Qed.

Lemma offers_same n n' r : valid_node n → valid_node n' → flavorName n = flavorName n' → offers n r ↔ offers n' r.
Proof. intros Hn Hn' E. destruct (flavorName_inj n n' Hn Hn' E) as [E1 E2]. unfold offers. by rewrite E1, E2. Qed.

Lemma addToPools_spec exclude nodes p n :
  Forall valid_node (nodes ++ [n]) → (∀ f, pool_of exclude nodes p f) →
  ∃ p', addToPools exclude p n = Some p' ∧ ∀ f, pool_of exclude (nodes ++ [n]) p' f.
Proof.
  intros [Hval [Hn _]%Forall_cons]%Forall_app Hp. unfold addToPools. destruct (skipped exclude n) eqn:Hskip.
  { exists p. split; [done|]. intros f. unfold pool_of. rewrite members_snoc, decide_False, app_nil_r; [apply Hp|]. intros [Hs _]. congruence. }
  destruct (Hp (flavorName n)) as [Hnodes Hagg].
  assert (amounts n (λ r, sumZ (contribution r <$> members exclude nodes (flavorName n)))
    (default (newAggregates (gpuCountOf n) (vendorOf n)) (np_Aggregates p !! flavorName n))) as Hstart.
  { destruct (members exclude nodes (flavorName n)) as [|n0 ms] eqn:Em.
    - rewrite Hagg. apply newAggregates_amounts.
    - destruct Hagg as (m & -> & Hm). intros r. cbn [default]. rewrite Hm. apply decide_ext.
      assert (n0 ∈ members exclude nodes (flavorName n)) as [[_ E] Hin]%list_elem_of_filter by (rewrite Em; by left).
      rewrite Forall_forall in Hval. apply offers_same; [by apply Hval|done|done]. }
  destruct (addNode_amounts n _ _ Hstart) as (m' & Hk & Hm').
  destruct (gpuIdentity (nr_Labels n)) as [[c v] t] eqn:Eid. cbn [fst snd] in *. rewrite Hk. eexists. split; [done|].
  intros f. unfold pool_of. cbn [np_Nodes np_Aggregates]. rewrite members_snoc. destruct (decide (flavorName n = f)) as [<-|Hne].
  - rewrite decide_True, !lookup_insert_eq, Hnodes by done. split.
    + destruct (members exclude nodes (flavorName n)); cbn; [done|]. by rewrite fmap_app.
    + assert (amounts n (λ r, sumZ (contribution r <$> members exclude nodes (flavorName n) ++ [n])) m') as Hfin.
      { eapply amounts_ext; [|exact Hm']. intros r _. rewrite fmap_app, sumZ_app. cbn. lia. }
      destruct (members exclude nodes (flavorName n)) as [|n0 ms] eqn:Em; cbn [app]; exists m'; split; [done|done|done|].
      intros r. rewrite Hfin. apply decide_ext.
      assert (n0 ∈ members exclude nodes (flavorName n)) as [[_ E] Hin]%list_elem_of_filter by (rewrite Em; by left).
      rewrite Forall_forall in Hval. symmetry. apply offers_same; [by apply Hval|done|done].
  - rewrite decide_False, app_nil_r, !lookup_insert_ne by (done || tauto). apply Hp.
Qed.

Lemma groupNodes_from exclude seen nodes p :
  Forall valid_node (seen ++ nodes) → (∀ f, pool_of exclude seen p f) →
  ∃ p', groupNodes exclude nodes p = Some p' ∧ ∀ f, pool_of exclude (seen ++ nodes) p' f.
Proof.
  revert seen p. induction nodes as [|n nodes IH]; intros seen p Hval Hp; [exists p; by rewrite app_nil_r|].
  change (n :: nodes) with ([n] ++ nodes) in *. rewrite app_assoc in Hval |- *.
  destruct (addToPools_spec exclude seen p n) as (p1 & Hadd & Hp1); [by apply Forall_app in Hval as [? _]|done|].
  cbn. rewrite Hadd. cbn. by apply IH.
Qed.

(** C27: grouping the nodes never panics, and every node that is not skipped is in
    exactly the pool of its flavor name, in listing order; a pool's quota for a
    resource is the exact sum over its nodes of 90% of their CPUs and memory and of
    all their GPUs, and it has a GPU quota exactly when its nodes have GPUs. *)
Theorem groupNodes_spec exclude nodes :
  Forall valid_node nodes →
  ∃ p, groupNodes exclude nodes no_pools = Some p ∧ ∀ f, pool_of exclude nodes p f.
Proof. intros Hval. by apply (groupNodes_from exclude [] nodes no_pools). Qed.

(** * The label a pool puts on its nodes *)

Lemma removeFrom_chars skip s old c : c ∈ Text.chars (Text.removeFrom skip s old) → c ∈ Text.chars s.
Proof.
  revert skip. induction s as [|d s IH]; intros skip; cbn [Text.removeFrom Text.chars]; [done|].
  destruct skip; [destruct (String.prefix old (String d s))|]; cbn [Text.chars]; rewrite ?elem_of_cons; naive_solver.
Qed.

Lemma trimLeft_chars s c : c ∈ Text.chars (Text.trimLeft s) → c ∈ Text.chars s.
Proof. induction s as [|d s IH]; cbn [Text.trimLeft Text.chars]; [done|]. destruct (Text.isSpace d); [right; auto|done]. Qed.

Lemma trimRight_chars s c : c ∈ Text.chars (Text.trimRight s) → c ∈ Text.chars s.
Proof.
  induction s as [|d s IH]; cbn [Text.trimRight Text.chars]; [done|].
  destruct (Text.trimRight s) as [|e t]; [destruct (Text.isSpace d)|]; cbn [Text.chars] in *; rewrite ?elem_of_cons; set_solver.
Qed.

Lemma RemoveAll_dash s : dash ∉ Text.chars (Text.RemoveAll s "-").
Proof.
  unfold Text.RemoveAll. induction s as [|c s IH]; cbn [Text.removeFrom Text.chars]; [apply not_elem_of_nil|].
  destruct (String.prefix "-" (String c s)) eqn:E; [done|]. cbn [Text.chars]. apply not_elem_of_cons. split; [|done].
  intros <-. assert (String.prefix "-" (String dash s) = true); [|congruence]. apply Str.prefix_spec. by exists s.
Qed.

Lemma ToLower_chars s c : c ∈ Text.chars (Str.ToLower s) → ∃ d, c = Str.lower_ascii d.
Proof. induction s as [|d s IH]; cbn; [by intros ?%elem_of_nil|]. rewrite elem_of_cons. naive_solver. Qed.

Lemma AtoiValue_range s : in_int64 (Text.AtoiValue s).
Proof.
  unfold Text.AtoiValue, in_int64, int64_min, int64_max. repeat case_match; lia.
Qed.

Lemma gpuIdentity_count labels : in_int64 (gpuIdentity labels).1.1.
Proof. unfold gpuIdentity. repeat (case_match; cbn); apply AtoiValue_range || done. Qed.

Lemma nvidia_type labels : (gpuIdentity labels).1.2 = "nvidia" → dash ∉ Text.chars (gpuIdentity labels).2.
Proof. unfold gpuIdentity. repeat (case_match; cbn); intros E; try discriminate E; apply RemoveAll_dash. Qed.

Lemma labelGpus_flavorNameOf vendor type count cpu gi node :
  dash ∉ Text.chars vendor → dash ∉ Text.chars type → 0 ≤ count ≤ int64_max → 0 ≤ cpu → 0 ≤ gi →
  node_Labels node !! DefaultNodePoolLabel = Some (flavorNameOf vendor type count cpu gi) → labelGpus vendor node = Some count.
Proof.
  intros Hv Ht Hc Hcpu Hgi Hl. unfold labelGpus. rewrite Hl.
  change (Str.Split ?f _) with (parts f). rewrite parts_flavorNameOf by (done || lia).
  rewrite (Text.Split_whole type) by done. cbn [app]. rewrite decide_False by auto. rewrite Text.TrimSuffix_app. by apply Text.Atoi_pretty.
Qed.

(** C35: the nodepool label is a round trip from the node pools to the scheduler:
    a node that carries the name of its pool is counted with its own GPU count,
    always for NVIDIA, and for AMD as long as the cleaned product name has no dash. *)
Theorem nodepool_label_roundtrip n node :
  valid_node n → vendorOf n = "nvidia" ∨ dash ∉ Text.chars (gpuIdentity (nr_Labels n)).2 →
  node_Labels node !! DefaultNodePoolLabel = Some (flavorName n) →
  labelGpus (vendorOf n) node = Some (gpuCountOf n).
Proof.
  intros [Hc Hcpu Hmem] Htype Hl. pose proof (gpuIdentity_count (nr_Labels n)) as [_ Hmax]. pose proof (vendor_no_dash n) as Hv.
  assert (dash ∉ Text.chars (gpuIdentity (nr_Labels n)).2) as Ht by (destruct Htype; [by apply nvidia_type|done]).
  unfold flavorName in Hl. destruct (gpuIdentity (nr_Labels n)) as [[c v] t]. cbn [fst snd] in *.
  by eapply labelGpus_flavorNameOf; [| | | | |exact Hl].
Qed.

(** An AMD product name with dashes hides the node's GPUs from the scheduler:
    they enter the pool's quota and the label, but the label is not read back. *)
Theorem nodepool_label_dashed n node :
  valid_node n →
  nr_Labels n = {[ "amd.com/gpu.product-name" := "AMD-Radeon-PRO-W7900"; "beta.amd.com/gpu.family.AI" := "8" ]} →
  node_Labels node !! DefaultNodePoolLabel = Some (flavorName n) →
  gpuCountOf n = 8 ∧ labelGpus "amd" node = None.
Proof.
  intros [Hc Hcpu Hmem] Hlabels Hl. unfold flavorName in Hl. rewrite Hlabels in Hl |- *.
  assert (gpuIdentity {[ "amd.com/gpu.product-name" := "AMD-Radeon-PRO-W7900"; "beta.amd.com/gpu.family.AI" := "8" ]}
    = (8, "amd", "--pro-w7900")) as Hid by (vm_compute; reflexivity).
  rewrite Hid in Hl |- *. split; [done|]. unfold labelGpus. rewrite Hl. change (Str.Split ?f _) with (parts f).
  rewrite parts_flavorNameOf by (done || by apply (bool_decide_unpack _)). done.
Qed.

(** * The default cluster queue *)

(** The order of the flavors: fewest GPUs, then fewest CPUs, then least memory. *)
Definition lexLess (a b : FlavorQuotas) : Prop :=
  getGPUCount (fq_Name a) < getGPUCount (fq_Name b) ∨
  getGPUCount (fq_Name a) = getGPUCount (fq_Name b) ∧
    (getCPUCount (fq_Name a) < getCPUCount (fq_Name b) ∨
     getCPUCount (fq_Name a) = getCPUCount (fq_Name b) ∧ getMemoryCount (fq_Name a) < getMemoryCount (fq_Name b)).

Lemma flavorLess_lex a b : flavorLess a b = true ↔ lexLess a b.
Proof. unfold flavorLess, lexLess. repeat case_decide; rewrite ?bool_decide_eq_true; try lia; split; try done; lia. Qed.

Lemma flavorLess_false a b : flavorLess a b = false ↔ ¬ lexLess a b.
Proof. rewrite <- flavorLess_lex. by destruct (flavorLess a b). Qed.

Lemma flavorLess_order : strict_weak flavorLess.
Proof.
  split.
  - intros x. rewrite flavorLess_false. unfold lexLess. lia.
  - intros x y z. rewrite !flavorLess_lex. unfold lexLess. lia.
  - intros x y z. rewrite !flavorLess_false. unfold lexLess. lia.
Qed.

Lemma coveredSet_lookup quotas c :
  is_Some (coveredSet quotas !! c) ↔ ∃ q r, q ∈ quotas ∧ r ∈ elems (fq_Resources q) ∧ Text.TrimSpace (rqt_Name r) = c.
Proof.
  assert (∀ rs (s : gmap string unit), is_Some (foldl (λ s r, <[Text.TrimSpace (rqt_Name r) := tt]> s) s rs !! c) ↔
    is_Some (s !! c) ∨ ∃ r, r ∈ rs ∧ Text.TrimSpace (rqt_Name r) = c) as Hin.
  { intros rs. induction rs as [|r rs IH]; intros s; cbn [foldl].
    - split; [by left|]. intros [?|(r & Hr%elem_of_nil & _)]; done.
    - rewrite IH, lookup_insert_is_Some. setoid_rewrite elem_of_cons.
      destruct (decide (Text.TrimSpace (rqt_Name r) = c)); naive_solver. }
  unfold coveredSet. assert (∀ s : gmap string unit, is_Some (foldl (λ s q, foldl (λ s r, <[Text.TrimSpace (rqt_Name r) := tt]> s) s
    (elems (fq_Resources q))) s quotas !! c) ↔ is_Some (s !! c) ∨ ∃ q r, q ∈ quotas ∧ r ∈ elems (fq_Resources q) ∧ Text.TrimSpace (rqt_Name r) = c) as Hout.
  { induction quotas as [|q quotas IH]; intros s; cbn [foldl].
    - split; [by left|]. intros [?|(q & r & Hq%elem_of_nil & _)]; done.
    - rewrite IH, Hin. setoid_rewrite elem_of_cons. naive_solver. }
  rewrite Hout, lookup_empty. split; [intros [[? ?]|?]; [done|done]|by right].
Qed.

Lemma elems_appended {A : Type} (l : list A) : elems (appended l) = l.
Proof. by destruct l. Qed.

Lemma fillMissing_resources covered q :
  fq_Name (fillMissing covered q) = fq_Name q ∧
  ∃ zs, elems (fq_Resources (fillMissing covered q)) = elems (fq_Resources q) ++ zs ∧
    (∀ z, z ∈ zs → z = plainQuota (rqt_Name z) (NewQuantity 0 DecimalSI)) ∧
    ∀ c, c ∈ covered → c ∈ rqt_Name <$> elems (fq_Resources (fillMissing covered q)).
Proof.
  unfold fillMissing. set (missing := filter _ covered).
  assert (∀ c, c ∈ covered → c ∈ missing ∨ c ∈ rqt_Name <$> elems (fq_Resources q)) as Hcov.
  { intros c Hc. destruct (decide (c ∈ rqt_Name <$> elems (fq_Resources q))); [by right|]. left. by apply list_elem_of_filter. }
  destruct missing as [|c0 cs] eqn:Em; cbn [fq_Name fq_Resources].
  - split; [done|]. exists []. rewrite app_nil_r. split; [done|]. split; [by intros z ?%elem_of_nil|].
    intros c Hc. destruct (Hcov c Hc) as [Hm|?]; [|done]. by apply elem_of_nil in Hm.
  - split; [done|]. change (elems (Some ?l)) with l. eexists. split; [done|]. split.
    + intros z (c & -> & _)%list_elem_of_fmap. done.
    + intros c Hc. rewrite fmap_app, elem_of_app, <- list_fmap_compose. destruct (Hcov c Hc) as [Hm|?]; [right|by left].
      apply list_elem_of_fmap. by exists c.
Qed.

(** C20: the default cluster queue has one group whose flavors are the node pools,
    ordered by GPUs and then CPUs; it covers exactly the resources the pools have,
    and every flavor has a quota for every covered resource: its own, or zero. *)
Theorem CreateClusterQueue_spec resources name cohort :
  ∃ g, cqs_ResourceGroups (cq_Spec (CreateClusterQueue resources name cohort)) = Some [g] ∧
    (∀ c, c ∈ elems (rg_CoveredResources g) ↔
       ∃ f q r, resources !! f = Some q ∧ r ∈ elems (fq_Resources q) ∧ Text.TrimSpace (rqt_Name r) = c) ∧
    (∀ q c, q ∈ elems (rg_Flavors g) → c ∈ elems (rg_CoveredResources g) → c ∈ rqt_Name <$> elems (fq_Resources q)) ∧
    StronglySorted (λ a b, ¬ lexLess b a) (elems (rg_Flavors g)) ∧
    ∃ qs, qs ≡ₚ (map_to_list resources).*2 ∧
      Forall2 (λ q q', fq_Name q' = fq_Name q ∧ ∃ zs, elems (fq_Resources q') = elems (fq_Resources q) ++ zs ∧
        ∀ z, z ∈ zs → z = plainQuota (rqt_Name z) (NewQuantity 0 DecimalSI)) qs (elems (rg_Flavors g)).
Proof.
  eexists. split; [reflexivity|]. cbn [rg_CoveredResources rg_Flavors]. rewrite !elems_appended.
  set (quotas := snd <$> rangeMap resources). set (covered := fst <$> rangeMap (coveredSet quotas)).
  split; [|split; [|split]].
  - intros c. transitivity (is_Some (coveredSet quotas !! c)).
    + unfold covered. rewrite rangeMap_perm, list_elem_of_fmap. split.
      * intros ([k u] & -> & Hk%elem_of_map_to_list). by eexists.
      * intros [u Hu]. exists (c, u). split; [done|]. by apply elem_of_map_to_list.
    + rewrite coveredSet_lookup. unfold quotas. setoid_rewrite rangeMap_perm. setoid_rewrite list_elem_of_fmap. split.
      * intros (q & r & ([f q'] & -> & Hf%elem_of_map_to_list) & ?). eauto.
      * intros (f & q & r & Hf & ?). exists q, r. split; [|done]. exists (f, q). split; [done|]. by apply elem_of_map_to_list.
  - intros q c (q0 & -> & _)%list_elem_of_fmap Hc. destruct (fillMissing_resources covered q0) as (_ & zs & _ & _ & Hall). by apply Hall.
  - pose proof (sortSlice_sorted flavorLess quotas flavorLess_order) as Hs. induction Hs as [|q l Hs IH Hq]; cbn; constructor; [done|].
    rewrite Forall_fmap. eapply Forall_impl; [exact Hq|]. intros q' Hlt. apply flavorLess_false in Hlt.
    unfold lexLess in *. cbn. by rewrite !(proj1 (fillMissing_resources _ _)).
  - exists (sortSlice flavorLess quotas). split; [rewrite sortSlice_perm; unfold quotas; by rewrite rangeMap_perm|].
    apply Forall2_fmap_r, Forall_Forall2_diag, Forall_true. intros q. destruct (fillMissing_resources covered q) as (? & zs & ? & ? & _). eauto.
Qed.

Lemma gpuType_lower labels : Ascii.ascii_of_nat 71 ∉ Text.chars (gpuIdentity labels).2.
Proof.
  assert (∀ d, Ascii.ascii_of_nat 71 ≠ Str.lower_ascii d) as Hlow.
  { intros d. unfold Str.lower_ascii. case_decide as Hd.
    - intros E. apply (f_equal Ascii.nat_of_ascii) in E. rewrite !Ascii.nat_ascii_embedding in E by lia. lia.
    - intros E. apply Hd. rewrite <- E, Ascii.nat_ascii_embedding by lia. lia. }
  assert (∀ s old, Ascii.ascii_of_nat 71 ∉ Text.chars s → Ascii.ascii_of_nat 71 ∉ Text.chars (Text.RemoveAll s old)) as Hrem.
  { intros s old Hs Hin. apply Hs. by apply removeFrom_chars in Hin. }
  assert (∀ s, Ascii.ascii_of_nat 71 ∉ Text.chars (Str.ToLower s)) as Hto.
  { intros s Hin. apply ToLower_chars in Hin as [d Hd]. by apply Hlow in Hd. }
  assert (∀ s, Ascii.ascii_of_nat 71 ∉ Text.chars (CleanAMDGPUName s)) as Hamd.
  { intros s Hin. apply trimRight_chars, trimLeft_chars in Hin. revert Hin. cbn [foldl]. by repeat apply Hrem. }
  unfold gpuIdentity. repeat (case_match; cbn [fst snd]); auto; by apply (bool_decide_unpack _).
Qed.

(** The memory in a flavor's name never decides the order: it is looked for
    with the suffix "Gi" and written with "gi", so every pool counts as 0. *)
Theorem getMemoryCount_generated n : valid_node n → getMemoryCount (flavorName n) = 0.
Proof.
  intros [Hc Hcpu Hmem]. set (G := Ascii.ascii_of_nat 71).
  assert (G ∉ Text.chars (flavorName n)) as HG.
  { unfold flavorName. assert ((G ∉ Text.chars (vendorOf n)) ∧ (G ∉ Text.chars (gpuIdentity (nr_Labels n)).2)) as [Hv Ht].
    { split; [destruct (vendor_cases (nr_Labels n)) as [->|[->| ->]]; by apply (bool_decide_unpack _)|]. apply gpuType_lower. }
    destruct (gpuIdentity (nr_Labels n)) as [[c v] t]. cbn [fst snd] in *. unfold flavorNameOf.
    assert (∀ z, 0 ≤ z → G ∉ Text.chars (pretty z)) as Hz.
    { intros z Hz Hin. destruct (Text.pretty_chars z G Hz Hin) as [d Hd]. discriminate Hd. }
    rewrite !Text.chars_app, !elem_of_app. specialize (Hz _ Hc) as H1'. specialize (Hz _ Hcpu) as H2'. specialize (Hz _ Hmem) as H3'.
    assert (∀ s, s ∈ ["-"; "gpu-"; "core-"; "gi"] → G ∉ Text.chars s) as Hlit.
    { intros s Hs. repeat (apply elem_of_cons in Hs as [->|Hs]; [by apply (bool_decide_unpack _)|]). by apply elem_of_nil in Hs. }
    pose proof (Hlit "-" ltac:(set_solver)). pose proof (Hlit "gpu-" ltac:(set_solver)).
    pose proof (Hlit "core-" ltac:(set_solver)). pose proof (Hlit "gi" ltac:(set_solver)). tauto. }
  unfold getMemoryCount. assert (∀ l, (∀ p, p ∈ l → G ∉ Text.chars p) → countWith "Gi" l = 0) as Hcount.
  { induction l as [|p l IH]; intros Hl; [done|]. cbn [countWith]. destruct (Str.HasSuffix p "Gi") eqn:E.
    - exfalso. apply Text.HasSuffix_spec in E as [q ->]. apply (Hl (q +:+ "Gi")); [by left|]. rewrite Text.chars_app.
      apply elem_of_app. right. by left.
    - apply IH. intros q Hq. apply Hl. by right. }
  apply Hcount. intros p Hp Hin. apply HG. by apply (Text.Split_chars _ _ _ Hp).
Qed.

(** * Writing to nodes *)

Definition node_write (e : event QueueSig) : Prop :=
  match projT1 e with PatchNode _ _ | UpdateNode _ => True | _ => False end.

(** The write is to the node just read, and changes one of the controller's labels
    or adds the GPU taint. *)
Definition node_write_after (cfg : KaiwoConfigSpec) (prev e : event QueueSig) : Prop :=
  ∃ name node, prev = ev (S := QueueSig) (GetNode name) (inr node) ∧
    ((∃ key value, key ∈ [DefaultKaiwoWorkerLabel; DefaultNodePoolLabel; GPUModelLabel] ∧
        projT1 e = PatchNode node (node_set_Labels (<[key := value]> (node_Labels node)) node)) ∨
     (∃ taint, taint_Key taint = kc_DefaultGpuTaintKey cfg ∧ kc_AddTaintsToGpuNodes cfg = true ∧
        projT1 e = UpdateNode (node_set_Taints (node_Taints node ++ [taint]) node))).

Definition node_call (e : event QueueSig) : Prop :=
  match projT1 e with ListNodes | GetNode _ | PatchNode _ _ | UpdateNode _ => True | _ => False end.

(** Calls about nodes only, with every write as described. *)
Definition node_writes_ok (cfg : KaiwoConfigSpec) (tr : trace QueueSig) : Prop :=
  guarded node_write (node_write_after cfg) None tr ∧ Forall node_call tr.

Lemma node_writes_ok_app cfg tr tr' : node_writes_ok cfg tr → node_writes_ok cfg tr' → node_writes_ok cfg (tr ++ tr').
Proof. intros [? ?] [? ?]. split; [by apply guarded_app|by apply Forall_app]. Qed.

Lemma LabelNode_writes retries cfg name key value :
  key ∈ [DefaultKaiwoWorkerLabel; DefaultNodePoolLabel; GPUModelLabel] →
  always anything (LabelNode retries name key value) (λ tr _, node_writes_ok cfg tr).
Proof.
  intros Hkey. apply RetryOnConflict_spec; [apply node_writes_ok_app|]. on_call [e|node]; [by repeat constructor|].
  case_decide; [by repeat constructor|]. intros x _. split; [|by repeat constructor]. split; [done|]. split; [|done]. intros _. eexists. split; [done|].
  exists name, node. split; [done|]. left. by exists key, value.
Qed.

Lemma TaintNode_writes retries cfg name taint :
  taint_Key taint = kc_DefaultGpuTaintKey cfg → kc_AddTaintsToGpuNodes cfg = true →
  always anything (TaintNode retries name taint) (λ tr _, node_writes_ok cfg tr).
Proof.
  intros Hkey Hadd. apply RetryOnConflict_spec; [apply node_writes_ok_app|]. on_call [e|node]; [by repeat constructor|].
  destruct (existsb _ _); [by repeat constructor|]. intros x _. split; [|by repeat constructor]. split; [done|]. split; [|done]. intros _. eexists. split; [done|].
  exists name, node. split; [done|]. right. by exists taint.
Qed.

(** Sequencing keeps [node_writes_ok]. *)
Lemma writes_bind {A B : Type} cfg (p : QM A) (f : A → QM B) :
  always anything p (λ tr _, node_writes_ok cfg tr) → (∀ a, always anything (f a) (λ tr _, node_writes_ok cfg tr)) →
  always anything (p ≫= f) (λ tr _, node_writes_ok cfg tr).
Proof.
  intros Hp Hf. apply always_bind. eapply always_mono; [exact Hp|]. intros tr a Htr. eapply always_mono; [apply Hf|].
  intros tr' b. by apply node_writes_ok_app.
Qed.

Lemma writes_ret {A : Type} cfg (a : A) : always (S := QueueSig) anything (mret a) (λ tr _, node_writes_ok cfg tr).
Proof. split; [done|constructor]. Qed.

Lemma writes_loop {A St R : Type} cfg (l : list A) (s : St) (body : A → St → QM (ctl St R)) :
  (∀ x s, always anything (body x s) (λ tr _, node_writes_ok cfg tr)) →
  always anything (for_range l s body) (λ tr _, node_writes_ok cfg tr).
Proof.
  intros Hbody. eapply always_mono; [apply (always_for_range_closed anything (node_writes_ok cfg) (λ _, True) (λ _, True))|].
  - split; [done|constructor].
  - apply node_writes_ok_app.
  - done.
  - intros x s' _ _. eapply always_mono; [apply Hbody|]. intros tr c Htr. split; [done|]. by destruct c.
  - by intros tr c [? _].
Qed.

Lemma labelPoolNode_writes retries cfg f name :
  always anything (labelPoolNode retries cfg f name) (λ tr _, node_writes_ok cfg tr).
Proof.
  unfold labelPoolNode. apply writes_bind; [apply LabelNode_writes; set_solver|]. intros [e|]; [apply writes_ret|].
  apply writes_bind; [apply LabelNode_writes; set_solver|]. intros [e|]; [apply writes_ret|].
  apply writes_bind; [destruct (Str.Contains f CPUOnly); [apply writes_ret|]; apply LabelNode_writes; set_solver|].
  intros [e|]; [apply writes_ret|]. apply writes_bind; [|intros; apply writes_ret].
  destruct (kc_AddTaintsToGpuNodes cfg) eqn:E; [|apply writes_ret].
  destruct (negb (Str.HasPrefix f CPUOnly)); [|apply writes_ret]. by apply TaintNode_writes.
Qed.

Lemma labelPools_writes retries cfg p : always anything (labelPools retries cfg p) (λ tr _, node_writes_ok cfg tr).
Proof.
  apply writes_bind; [|intros; apply writes_ret]. apply writes_loop. intros [f names] _.
  apply writes_bind; [|intros; apply writes_ret]. apply writes_loop. intros name _.
  apply writes_bind; [apply labelPoolNode_writes|intros; apply writes_ret].
Qed.

(** Describing the node pools writes to nodes only: every write goes to the
    node read just before, sets the worker, nodepool or GPU model label, or adds
    the configured GPU taint when tainting is enabled, and leaves the rest of the
    node alone. *)
Theorem CreateDefaultResourceFlavors_writes retries cfg :
  always anything (CreateDefaultResourceFlavors retries cfg) (λ tr _, node_writes_ok cfg tr).
Proof.
  apply writes_bind.
  - unfold GetNodeResources. on_call x. by repeat constructor.
  - intros nodes. destruct (groupNodes _ _ _); [|apply writes_ret]. destruct (poolResources _); [|apply writes_ret].
    apply writes_bind; [apply labelPools_writes|intros; apply writes_ret].
Qed.

End pools.
