(* ===== verification/QueueConfig.v ===== *)
(** The KaiwoQueueConfig controller (internal/controller/kaiwoqueueconfig_controller.go:
    Reconcile, EnsureKaiwoQueueConfig) and what a reconcile brings about. *)

From stdpp Require Import gmap strings list.
From Stdlib Require Import ZArith Lia.
From S2P Require Import Prelude Types Kueue QueueApi QueueSync QueueConverge LocalQueues Scheduling Nodepools PoolTheory.

Definition configName : string := "kaiwo".

(** Later elements replace earlier ones with the same name. *)
Definition byName {A} (name : A → string) (l : list A) (m : gmap string A) : gmap string A :=
  foldl (λ m x, <[name x := x]> m) m l.

Section config.
Context `{KubeLib} `{GoOrder} `{Quantities} (retries : QueueRetry).

(** The branch that would create a missing config follows a test that the read
    succeeded, so it is never taken. *)
Definition GetContextWithConfig : QM (error + KaiwoConfigSpec) :=
  got ← call (S := QueueSig) (GetKaiwoConfig configName);
  mret (match got with
        | inl e => inl (Wrapf ("could not get Kaiwo Config with name '" +:+ configName +:+ "'") e)
        | inr cfg => inr cfg
        end).

(** Merging the generated flavors, queue and topologies into a configuration. *)
Definition mergeConfig (flavors : list ResourceFlavorSpec) (queue : ClusterQueue) (topologies : list Topology)
    (qc : KaiwoQueueConfig) : KaiwoQueueConfig :=
  let spec := qc_Spec qc in
  let topologyName t := om_Name (tp_Meta t) in
  qc_set_Spec
    {| qs_ClusterQueues := snd <$> rangeMap (<[cq_Name queue := queue]> (byName cq_Name (qs_ClusterQueues spec) ∅));
       qs_ResourceFlavors := snd <$> rangeMap (byName rf_Name flavors (byName rf_Name (qs_ResourceFlavors spec) ∅));
       qs_WorkloadPriorityClasses := qs_WorkloadPriorityClasses spec;
       qs_Topologies := snd <$> rangeMap (byName topologyName topologies
                          (byName topologyName (sanitizeTopologies (qs_Topologies spec)) ∅)) |} qc.

(** Gives the error and what the caller's variable holds afterwards, which a
    creation leaves as it was; the outer [None] is a panic. *)
Definition EnsureKaiwoQueueConfig (cfg : KaiwoConfigSpec) (name clusterQueueName cohort : string) (qc : KaiwoQueueConfig)
  : QM (option (option error * KaiwoQueueConfig)) :=
  r ← CreateDefaultResourceFlavors retries cfg;
  match r with
  | None => mret None
  | Some (inl e) => mret (Some (Some e, qc))
  | Some (inr (flavors, resources)) =>
      let queue := CreateClusterQueue resources clusterQueueName cohort in
      let topologies := sanitizeTopologies (CreateDefaultTopology cfg) in
      got ← call (S := QueueSig) (GetQueueConfig name);
      match got with
      | inl e =>
          if IsNotFound e then
            err ← call (S := QueueSig) (CreateQueueConfig
              {| qc_Meta := named name; qc_Status := "";
                 qc_Spec := {| qs_ClusterQueues := [queue]; qs_ResourceFlavors := flavors;
                               qs_WorkloadPriorityClasses := []; qs_Topologies := topologies |} |});
            mret (Some (err, qc))
          else mret (Some (Some e, qc))
      | inr existing =>
          let merged := mergeConfig flavors queue topologies existing in
          updated ← call (S := QueueSig) (UpdateQueueConfig merged);
          mret (Some (match updated with
                      | inl e => (Some e, merged)
                      | inr stored => (None, stored)
                      end))
      end
  end.

(** What a reconcile returns; the outer [None] is a panic. *)
Abbreviation Outcome := (option (Result * option error)).

(** From the sync of a fetched or ensured configuration on. *)
Definition syncAndReport (name : string) (qc : KaiwoQueueConfig) : QM Outcome :=
  err ← SyncKueueResources retries qc;
  let status := match err with Some _ => QueueConfigStatusFailed | None => QueueConfigStatusReady end in
  let result := if decide (status = QueueConfigStatusFailed) then requeueAfter (30 * Second) else done_ in
  if decide (qc_Status qc = status) then mret (Some (result, None))
  else
    got ← call (S := QueueSig) (GetQueueConfig name);
    match got with
    | inl e => mret (Some (done_, Some e))
    | inr latest =>
        updated ← call (S := QueueSig) (StatusUpdateQueueConfig (qc_set_Status status latest));
        mret (Some (match updated with Some e => (done_, Some e) | None => (result, None) end))
    end.

(** [EnsureKaiwoQueueConfig] on an empty variable, then the sync. *)
Definition ensureAndSync (cfg : KaiwoConfigSpec) (name : string) : QM Outcome :=
  r ← EnsureKaiwoQueueConfig cfg KaiwoQueueConfigName (kc_DefaultClusterQueueName cfg) (kc_DefaultClusterQueueCohortName cfg)
        zero_queueConfig;
  match r with
  | None => mret None
  | Some (Some e, _) => mret (Some (done_, Some e))
  | Some (None, qc) => syncAndReport name qc
  end.

Definition Reconcile (name : string) : QM Outcome :=
  if decide (name ≠ "kaiwo") then mret (Some (done_, Some (Errorf "only a KaiwoQueueConfig named 'kaiwo' is allowed")))
  else
    ctx ← GetContextWithConfig;
    match ctx with
    | inl e => mret (Some (done_, Some (Wrapf "could not get config context" e)))
    | inr cfg =>
        if kc_DynamicallyUpdateDefaultClusterQueue cfg then ensureAndSync cfg name
        else
          got ← call (S := QueueSig) (GetQueueConfig name);
          match got with
          | inl e => if IsNotFound e then ensureAndSync cfg name else mret (Some (done_, Some e))
          | inr qc =>
              r ← CreateDefaultResourceFlavors retries cfg;
              match r with
              | None => mret None
              | Some (inl e) => mret (Some (done_, Some e))
              | Some (inr _) =>
                  let spec := qc_Spec qc in
                  let cleaned := sanitizeTopologies (qs_Topologies spec) in
                  if decide (length cleaned ≠ length (qs_Topologies spec)) then
                    let qc := qc_set_Spec {| qs_ClusterQueues := qs_ClusterQueues spec; qs_ResourceFlavors := qs_ResourceFlavors spec;
                      qs_WorkloadPriorityClasses := qs_WorkloadPriorityClasses spec; qs_Topologies := cleaned |} qc in
                    updated ← call (S := QueueSig) (UpdateQueueConfig qc);
                    mret (Some (match updated with inl e => (done_, Some e) | inr _ => (requeue, None) end))
                  else syncAndReport name qc
              end
          end
    end.

(** * What a sync brings about *)

(** Names identify the entries of the configuration, and priority classes are
    cluster-scoped. *)
Record well_named (spec : KaiwoQueueConfigSpec) : Prop := {
  wn_flavors : NoDup (rf_Name <$> qs_ResourceFlavors spec);
  wn_queues : NoDup (cq_Name <$> qs_ClusterQueues spec);
  wn_priorities : NoDup ((λ p, om_Name (pc_Meta p)) <$> qs_WorkloadPriorityClasses spec);
  wn_topologies : NoDup ((λ t, om_Name (kt_Meta t)) <$> namedTopologies (qs_Topologies spec));
  wn_scope p : p ∈ qs_WorkloadPriorityClasses spec → om_Namespace (pc_Meta p) = ""
}.

(** A kind is in line: the expected objects are good, the rest gone or going. *)
Definition kind_in_line {A : Type} (K : kind) (name : A → string) (good : A → option kobj → Prop) (expected : list A)
    (st : cluster) : Prop :=
  (∀ x, x ∈ expected → good x (st !! (K, "", name x))) ∧ (∀ n, n ∉ name <$> expected → gone (st !! (K, "", n))).

Lemma kind_in_line_agree {A : Type} K name (good : A → option kobj → Prop) expected (st st' : cluster) :
  (∀ k, k.1.1 = K → st' !! k = st !! k) → kind_in_line K name good expected st → kind_in_line K name good expected st'.
Proof. intros Hag [H1' H2']. split; [intros x Hx|intros n Hn]; rewrite Hag by done; auto. Qed.

Record in_line (spec : KaiwoQueueConfigSpec) (st st' : cluster) : Prop := {
  il_flavors : kind_in_line KFlavor (λ f, om_Name (kf_Meta f)) good_flavor
    (ConvertKaiwoToKueueResourceFlavors (qs_ResourceFlavors spec)) st';
  il_topologies : kind_in_line KTopology (λ t, om_Name (kt_Meta t)) good_topology (namedTopologies (qs_Topologies spec)) st';
  il_queues : kind_in_line KQueue cq_Name good_queue (qs_ClusterQueues spec) st';
  il_priorities : kind_in_line KPriority (λ p, om_Name (pc_Meta p)) good_priority (qs_WorkloadPriorityClasses spec) st';
  il_locals_there q ns : q ∈ qs_ClusterQueues spec → ns ∈ cq_Namespaces q → ∃ l, st' !! (KLocal, ns, cq_Name q) = Some (OLocal l);
  il_locals_gone q ns : q ∈ qs_ClusterQueues spec → cq_Namespaces q ≠ [] → ns ∉ cq_Namespaces q →
    gone (st' !! (KLocal, ns, cq_Name q));
  il_locals_kept n ns : (∀ q, q ∈ qs_ClusterQueues spec → cq_Name q = n → cq_Namespaces q = []) →
    st' !! (KLocal, ns, n) = st !! (KLocal, ns, n)
}.

Lemma syncAll_settles qc flavors queues locals priorities topologies (st : cluster) :
  owners_ok → well_formed st → well_named (qc_Spec qc) →
  listed OFlavor st (inr flavors) → listed OQueue st (inr queues) → listed OLocal st (inr locals) →
  listed OPriority st (inr priorities) → listed OTopology st (inr topologies) →
  settles st (syncAll retries qc false flavors queues locals priorities topologies)
    (λ err st', err = None ∧ in_line (qc_Spec qc) st st').
Proof.
  intros Hown Hwf [Hnf Hnq Hnp Hnt Hsc] Hlf Hlq Hll Hlp Hlt. unfold syncAll.
  assert (holds KFlavor OFlavor flavors st) as Hf by (apply listed_holds; try done; intros []; try done; eauto).
  assert (holds KQueue OQueue queues st) as Hq by (apply listed_holds; try done; intros []; try done; eauto).
  assert (holds KPriority OPriority priorities st) as Hp by (apply listed_holds; try done; intros []; try done; eauto).
  assert (holds KTopology OTopology topologies st) as Ht by (apply listed_holds; try done; intros []; try done; eauto).
  pose proof (wf_keyed _ Hwf) as Hkeyed.
  apply settles_bind. eapply settles_mono; [apply settles_keyed, syncTopologies_settles; [done|done|done|by apply (wf_settled _ st)|done]|].
  intros ok1 st1 ((-> & A1 & A2 & A3) & Hk1).
  apply settles_bind. eapply settles_mono; [apply settles_keyed, (syncResourceFlavors_settles qc flavors); [done|done| |done]|].
  { eapply holds_agree; [|exact Hf]. intros k Hk. rewrite A3 by congruence. done. }
  intros ok2 st2 ((-> & B1 & B2 & B3) & Hk2). assert (∀ k, k.1.1 = KQueue → st2 !! k = st !! k) as Hag2.
  { intros k Hk. rewrite B3, A3 by congruence. done. }
  apply settles_bind. eapply settles_mono; [apply settles_keyed, (syncClusterQueues_settles retries qc queues); [done|done| | |done]|].
  { eapply holds_agree; [|exact Hq]. done. }
  { by apply (wf_settled _ st). }
  intros ok3 st3 ((-> & C1 & C2 & C3) & Hk3). assert (∀ k, k.1.1 = KLocal → st3 !! k = st !! k) as Hag3.
  { intros k Hk. rewrite C3, B3, A3 by congruence. done. }
  apply settles_bind. eapply settles_mono; [apply settles_keyed, (syncLocalQueues_settles qc locals); [done|done|done| |done|]|].
  { intros n ns. rewrite (stale_listed locals st) by done. unfold localAt. by rewrite Hag3. }
  { intros q Hin. destruct (C1 q Hin) as (g & Hg & _). eauto. }
  intros ok4 st4 ((-> & D1 & D2 & D3 & D4) & Hk4). assert (∀ k, k.1.1 = KPriority → st4 !! k = st !! k) as Hag4.
  { intros k Hk. rewrite D4, C3, B3, A3 by congruence. done. }
  apply settles_bind. eapply settles_mono; [apply (syncWorkloadPriorityClasses_settles qc priorities); [done| | |done|done]|].
  { eapply holds_agree; [|exact Hp]. done. }
  { by apply (wf_settled _ st). }
  intros ok5 st5 (-> & E1 & E2 & E3). apply settles_ret. split; [done|]. split.
  - apply (kind_in_line_agree _ _ _ _ st2); [|by split]. intros k Hk. rewrite E3, D4, C3 by congruence. done.
  - apply (kind_in_line_agree _ _ _ _ st1); [|by split]. intros k Hk. rewrite E3, D4, C3, B3 by congruence. done.
  - apply (kind_in_line_agree _ _ _ _ st3); [|by split]. intros k Hk. rewrite E3, D4 by congruence. done.
  - by split.
  - intros q ns Hin Hns. rewrite E3 by done. by apply D1.
  - intros q ns Hin Hne Hns. rewrite E3 by done. by apply D2.
  - intros n ns Hn. rewrite E3, D3, Hag3 by done. done.
Qed.

(** C5: against a server that answers, a sync reports success and leaves the
    cluster in line with the configuration: every flavor, topology, queue and
    priority class it names is there with its specification (a flavor Kueue will
    not change in place is replaced, or going), everything else of those kinds is
    gone or going, the queues that list namespaces have local queues in exactly
    those, and other local queues are untouched. Such a run always exists. *)
Theorem SyncKueueResources_converges qc (st : cluster) :
  owners_ok → well_formed st → well_named (qc_Spec qc) →
  (∃ tr err st', exec anything (SyncKueueResources retries qc) tr err ∧ served (S := QueueSig) answer st tr st') ∧
  ∀ tr err st', exec anything (SyncKueueResources retries qc) tr err → served (S := QueueSig) answer st tr st' →
    err = None ∧ in_line (qc_Spec qc) st st'.
Proof.
  intros Hown Hwf Hnamed. split.
  { apply (served_exists (S := QueueSig) answer well_keyed); [|by apply wf_keyed]. intros r w Hw. destruct (answer_exists r w Hw) as (x & w' & Hx).
    exists x, w'. split; [done|]. by eapply answer_keyed. }
  cut (settles st (SyncKueueResources retries qc) (λ err st', err = None ∧ in_line (qc_Spec qc) st st')).
  { intros Hsettles tr err st' Hex Hs. exact (exec_always _ _ _ _ Hex _ Hsettles st' Hs). }
  unfold SyncKueueResources. on_served x1 st1 Hx. destruct Hx as (-> & fs & -> & Hf).
  on_served x2 st1 Hx. destruct Hx as (-> & qs & -> & Hq). on_served x3 st1 Hx. destruct Hx as (-> & ps & -> & Hp).
  on_served x4 st1 Hx. destruct Hx as (-> & ls & -> & Hl). on_served x5 st1 Hx. destruct Hx as (-> & ts & -> & Ht).
  apply syncAll_settles; try done; by eexists.
Qed.

(** * Merging generated entries *)

Lemma byName_lookup {A : Type} (name : A → string) l m n x :
  NoDup (name <$> l) → byName name l m !! n = Some x ↔ x ∈ l ∧ name x = n ∨ (n ∉ name <$> l) ∧ m !! n = Some x.
Proof.
  unfold byName. revert m. induction l as [|y l IH]; intros m Hnd; cbn [foldl fmap list_fmap].
  { split; [intros Hm; right; split; [apply not_elem_of_nil|done]|]. intros [[Hx _]|[_ ?]]; [by apply elem_of_nil in Hx|done]. }
  apply NoDup_cons in Hnd as [Hy Hnd]. rewrite IH by done. rewrite not_elem_of_cons, elem_of_cons. destruct (decide (name y = n)) as [<-|Hne].
  - rewrite lookup_insert_eq. split; [intros [[? ?]|[_ [= ->]]]; auto|]. intros [[[->|?] ?]|[[? _] _]]; [right; auto|left; auto|done].
  - rewrite lookup_insert_ne by done. split; [intros [[? ?]|[? ?]]; auto|]. intros [[[->|?] ?]|[[_ ?] ?]]; [done|auto|auto].
Qed.

(** What is in a merged list. *)
Lemma merged_elem {A : Type} (name : A → string) old new x :
  NoDup (name <$> old) → NoDup (name <$> new) →
  x ∈ snd <$> rangeMap (byName name new (byName name old ∅)) ↔ x ∈ new ∨ x ∈ old ∧ name x ∉ name <$> new.
Proof.
  intros Ho Hn. rewrite rangeMap_perm, list_elem_of_fmap. split.
  - intros ([n y] & -> & [[? <-]|[Hnot [[? <-]|[_ ?]]%byName_lookup]]%elem_of_map_to_list%byName_lookup); cbn; auto. done.
  - intros Hx. exists (name x, x). split; [done|]. apply elem_of_map_to_list, byName_lookup; [done|].
    destruct Hx as [Hx|[Hx Hnot]]; [by left|right]. split; [done|]. apply byName_lookup; auto.
Qed.

Lemma sanitizeTopologies_elem ts t :
  t ∈ sanitizeTopologies ts → om_Name (tp_Meta t) ≠ "" ∧ ∃ t', t' ∈ ts ∧ om_Name (tp_Meta t') = om_Name (tp_Meta t) ∧ tp_Levels t' = tp_Levels t.
Proof.
  induction ts as [|a ts IH]; cbn [sanitizeTopologies]; [by intros ?%elem_of_nil|]. setoid_rewrite elem_of_cons. case_decide as Hd.
  - intros Ht. destruct (IH Ht) as (? & t' & ? & ?). split; [done|]. eauto.
  - intros [->|Ht]%elem_of_cons; [cbn; eauto 6|]. destruct (IH Ht) as (? & t' & ? & ?). split; [done|]. eauto.
Qed.

(** Refreshing an existing configuration replaces the flavors, the default
    queue and the topologies it generates anew, keeps every other entry, drops the
    topologies without a name, and leaves the priority classes, the metadata and
    the status as they were. *)
Theorem mergeConfig_spec flavors queue topologies qc :
  let old := qc_Spec qc in
  let qc' := mergeConfig flavors queue (sanitizeTopologies topologies) qc in
  let topologyName t := om_Name (tp_Meta t) in
  NoDup (rf_Name <$> flavors) → NoDup (rf_Name <$> qs_ResourceFlavors old) → NoDup (cq_Name <$> qs_ClusterQueues old) →
  NoDup (topologyName <$> sanitizeTopologies topologies) → NoDup (topologyName <$> sanitizeTopologies (qs_Topologies old)) →
  (∀ f, f ∈ qs_ResourceFlavors (qc_Spec qc') ↔ f ∈ flavors ∨ f ∈ qs_ResourceFlavors old ∧ rf_Name f ∉ rf_Name <$> flavors) ∧
  (∀ q, q ∈ qs_ClusterQueues (qc_Spec qc') ↔ q = queue ∨ q ∈ qs_ClusterQueues old ∧ cq_Name q ≠ cq_Name queue) ∧
  (∀ t, t ∈ qs_Topologies (qc_Spec qc') ↔ t ∈ sanitizeTopologies topologies ∨
     t ∈ sanitizeTopologies (qs_Topologies old) ∧ topologyName t ∉ topologyName <$> sanitizeTopologies topologies) ∧
  (∀ t, t ∈ qs_Topologies (qc_Spec qc') → topologyName t ≠ "") ∧
  qs_WorkloadPriorityClasses (qc_Spec qc') = qs_WorkloadPriorityClasses old ∧ qc_Meta qc' = qc_Meta qc ∧ qc_Status qc' = qc_Status qc.
Proof.
  intros old qc' topologyName Hf Hfo Hqo Ht Hto.
  assert (∀ t, t ∈ qs_Topologies (qc_Spec qc') ↔ t ∈ sanitizeTopologies topologies ∨
    t ∈ sanitizeTopologies (qs_Topologies old) ∧ topologyName t ∉ topologyName <$> sanitizeTopologies topologies) as Htop.
  { intros t. by apply (merged_elem topologyName). }
  split; [intros f; by apply (merged_elem rf_Name)|]. split; [|split; [done|split; [|done]]].
  - intros q. pose proof (merged_elem cq_Name (qs_ClusterQueues old) [queue] q Hqo (NoDup_singleton _)) as Hm.
    cbn in Hm. rewrite !list_elem_of_singleton in Hm. exact Hm.
  - intros t [Hin|[Hin _]]%Htop; by apply sanitizeTopologies_elem in Hin as [? _].
Qed.

(** * A failed listing *)

(** Listing the nodes fails; the configuration exists. *)
Definition unlisted (existing : KaiwoQueueConfig) : contract QueueSig := λ r,
  match r return queue_resp r → Prop with
  | ListNodes => λ x, ∃ e, x = inl e
  | GetQueueConfig _ => λ x, x = inr existing
  | _ => λ _, True
  end.

Lemma sortSlice_nil {A : Type} (less : A → A → bool) : sortSlice less [] = [].
Proof. apply Permutation_nil. symmetry. apply sortSlice_perm. Qed.

Lemma rangeMap_nil {V : Type} : rangeMap (∅ : gmap string V) = [].
Proof. apply Permutation_nil. symmetry. rewrite rangeMap_perm. by rewrite map_to_list_empty. Qed.

(** The group of a queue generated from no node. *)
Definition emptyGroup : ResourceGroup := {| rg_CoveredResources := None; rg_Flavors := None |}.

Lemma CreateClusterQueue_empty name cohort :
  cqs_ResourceGroups (cq_Spec (CreateClusterQueue ∅ name cohort)) = Some [emptyGroup].
Proof. unfold CreateClusterQueue. rewrite !rangeMap_nil. cbn. by rewrite rangeMap_nil, sortSlice_nil. Qed.

Lemma CreateDefaultResourceFlavors_unlisted cfg existing :
  always (unlisted existing) (CreateDefaultResourceFlavors retries cfg) (λ tr r,
    r = Some (inr ([], ∅)) ∧ Forall (λ e, projT1 e = ListNodes) tr).
Proof.
  unfold CreateDefaultResourceFlavors, GetNodeResources. apply always_bind. apply always_call. intros x [e ->]. simpl.
  unfold poolResources, labelPools, RemoveDuplicateResourceFlavors. cbn [np_Nodes no_pools]. rewrite rangeMap_nil. cbn.
  rewrite rangeMap_nil. split; [done|]. by repeat constructor.
Qed.

(** When the nodes cannot be listed, the refresh of an existing configuration
    does not fail: it writes the configuration back with the default cluster queue
    replaced by one without any flavor or quota. *)
Theorem EnsureKaiwoQueueConfig_unlisted cfg name queueName cohort existing qc :
  always (unlisted existing) (EnsureKaiwoQueueConfig cfg name queueName cohort qc) (λ tr _,
    ∃ qc' x q, last tr = Some (ev (S := QueueSig) (UpdateQueueConfig qc') x) ∧
      q ∈ qs_ClusterQueues (qc_Spec qc') ∧ cq_Name q = queueName ∧ cqs_ResourceGroups (cq_Spec q) = Some [emptyGroup]).
Proof.
  unfold EnsureKaiwoQueueConfig. apply always_bind. eapply always_mono; [apply CreateDefaultResourceFlavors_unlisted|].
  cbv beta. intros tr r [-> Htr]. cbv beta iota. apply always_call. intros x ->. cbv beta iota. on_call updated. simpl.
  eexists _, _, (CreateClusterQueue ∅ queueName cohort). split; [by rewrite last_app|]. split; [|split; [done|apply CreateClusterQueue_empty]].
  cbn [qc_Spec mergeConfig qc_set_Spec qs_ClusterQueues]. rewrite rangeMap_perm, list_elem_of_fmap. eexists (_, _).
  split; [reflexivity|]. apply elem_of_map_to_list. apply lookup_insert_eq.
Qed.

(** * The reconcile that creates the configuration *)

(** The configuration does not exist yet; the cluster has [flavors]. *)
Definition fresh_install (flavors : list KueueResourceFlavor) : contract QueueSig := λ r,
  match r return queue_resp r → Prop with
  | GetKaiwoConfig _ => λ x, ∃ cfg, x = inr cfg
  | GetQueueConfig _ => λ x, x = inl NotFound
  | ListFlavors => λ x, x = inr flavors
  | ListQueues => λ x, ∃ l, x = inr l
  | ListLocals => λ x, ∃ l, x = inr l
  | ListPriorities => λ x, ∃ l, x = inr l
  | ListTopologies => λ x, ∃ l, x = inr l
  | _ => λ _, True
  end.

Lemma syncAll_empty_deletes ok flavors queues locals priorities topologies f :
  f ∈ flavors →
  always ok (syncAll retries zero_queueConfig false flavors queues locals priorities topologies) (λ tr _, calls (deletes (OFlavor f)) tr).
Proof.
  intros Hf. unfold syncAll. apply always_calls_right. skip_run. intros _ ok1 _.
  apply always_calls_left. unfold syncResourceFlavors. cbn -[deleteUnexpected].
  unfold deleteUnexpected. apply always_for_each_visits with (x := f); [done|]. intros s.
  rewrite decide_False by apply not_elem_of_empty. on_call err. skip_run. intros tr _ _.
  eexists. split; [by left|done].
Qed.

Lemma SyncKueueResources_empty_deletes flavors f :
  f ∈ flavors → always (fresh_install flavors) (SyncKueueResources retries zero_queueConfig) (λ tr _, calls (deletes (OFlavor f)) tr).
Proof.
  intros Hf. unfold SyncKueueResources. apply always_calls_right. intros x ->. cbv beta iota.
  do 4 (apply always_calls_right; intros x [? ->]; cbv beta iota).
  by apply syncAll_empty_deletes.
Qed.

(** The configuration was created. *)
Definition created (tr : trace QueueSig) : Prop := ∃ qc, ev (S := QueueSig) (CreateQueueConfig qc) None ∈ tr.

Lemma created_app tr tr' : created (tr ++ tr') ↔ created tr ∨ created tr'.
Proof. unfold created. setoid_rewrite elem_of_app. naive_solver. Qed.

Lemma created_skip r x tr : (∀ qc, r ≠ CreateQueueConfig qc) → created (ev (S := QueueSig) r x :: tr) ↔ created tr.
Proof.
  intros Hr. unfold created. setoid_rewrite elem_of_cons. split; [|naive_solver]. intros [qc [E|E]]; [|eauto].
  exfalso. apply (f_equal (@projT1 _ _)) in E. by apply (Hr qc).
Qed.

Lemma CreateDefaultResourceFlavors_nodes ok cfg : always ok (CreateDefaultResourceFlavors retries cfg) (λ tr _, ¬ created tr).
Proof.
  apply (always_weaken _ anything); [done|]. eapply always_mono.
  - unfold CreateDefaultResourceFlavors. apply (writes_bind cfg); [unfold GetNodeResources; on_call x; by repeat constructor|].
    intros nodes. destruct (groupNodes _ _ _); [|apply writes_ret]. destruct (poolResources _); [|apply writes_ret].
    apply writes_bind; [apply labelPools_writes|intros; apply writes_ret].
  - intros tr _ [_ Hcalls] [qc Hin]. rewrite Forall_forall in Hcalls. by apply Hcalls in Hin.
Qed.

Lemma ensureAndSync_creation_deletes cfg flavors f name :
  f ∈ flavors → always (fresh_install flavors) (ensureAndSync cfg name) (λ tr _, created tr → calls (deletes (OFlavor f)) tr).
Proof.
  intros Hf. unfold ensureAndSync, EnsureKaiwoQueueConfig. apply always_bind, always_bind.
  eapply always_mono; [apply CreateDefaultResourceFlavors_nodes|]. intros tr r Hno.
  assert (∀ tr' : trace QueueSig, (created tr' → calls (deletes (OFlavor f)) tr') → created (tr ++ tr') → calls (deletes (OFlavor f)) (tr ++ tr')) as Happ.
  { intros tr' Himp [?|Hc]%created_app; [done|]. destruct (Himp Hc) as (e & He & HT). exists e. split; [apply elem_of_app; by right|done]. }
  destruct r as [[e|[fs rs]]|]; [simpl; rewrite !app_nil_r; tauto| |simpl; rewrite !app_nil_r; tauto].
  apply always_call. intros x ->. cbv beta iota. change (IsNotFound NotFound) with true. cbv iota. on_call [e|].
  - simpl. rewrite app_nil_r. apply Happ. rewrite created_skip by done. intros [qc Hin]. apply list_elem_of_singleton in Hin.
    apply (f_equal (λ e, match e with existT (CreateQueueConfig _) x => x | _ => None end)) in Hin. discriminate Hin.
  - change (mret (Some (None, zero_queueConfig))) with (Ret (S := QueueSig) (Some (@None error, zero_queueConfig))). cbn [always].
    unfold syncAndReport. eapply always_mono; [apply always_calls_left, SyncKueueResources_empty_deletes; exact Hf|].
    cbv beta. intros tr' _ (e & He & HT) _. exists e. split; [apply elem_of_app; by right|done].
Qed.

(** C40: the reconcile that creates the configuration then syncs an empty one:
    whatever the created configuration names, every resource flavor the cluster
    has is deleted. *)
Theorem Reconcile_creation_deletes flavors f :
  f ∈ flavors →
  always (fresh_install flavors) (Reconcile configName) (λ tr _, created tr → calls (deletes (OFlavor f)) tr).
Proof.
  intros Hf. unfold Reconcile, GetContextWithConfig. rewrite decide_False by (intros Hn; by apply Hn). apply always_bind.
  apply always_call. intros x [cfg ->].
  change (mret (inr cfg)) with (Ret (S := QueueSig) (@inr error KaiwoConfigSpec cfg)). cbn [always].
  assert (∀ r x (tr' : trace QueueSig), (∀ qc, r ≠ CreateQueueConfig qc) → (created tr' → calls (deletes (OFlavor f)) tr') →
    created (ev (S := QueueSig) r x :: tr') → calls (deletes (OFlavor f)) (ev (S := QueueSig) r x :: tr')) as Hskip.
  { intros r x tr' Hr Himp Hc. rewrite created_skip in Hc by done. destruct (Himp Hc) as (e & He & HT). exists e. split; [by right|done]. }
  destruct (kc_DynamicallyUpdateDefaultClusterQueue cfg).
  - eapply always_mono; [by apply (ensureAndSync_creation_deletes cfg flavors f)|]. intros tr out Himp. by apply (Hskip _ _ tr).
  - apply always_call. intros x ->. cbv beta iota. change (IsNotFound NotFound) with true. cbv iota.
    eapply always_mono; [by apply (ensureAndSync_creation_deletes cfg flavors f)|]. intros tr out Himp. by apply (Hskip _ _ (_ :: tr)), (Hskip _ _ tr).
Qed.

End config.
