(* ===== verification/Resources.v ===== *)
(** Container resources (pkg/workloads/common/resources.go, podspec.go and the
    Ray cluster update of pkg/workloads/utils/ray.go). The resource lists are Go
    maps shared by reference between the scheduling config and the requirements
    made from it, so they live in a store of maps. *)

From stdpp Require Import gmap strings list.
From Stdlib Require Import ZArith Lia.
From S2P Require Import Prelude Float64 Types GpuResources Scheduling.

(** * The store of resource lists *)

Abbreviation ResourceList := (gmap string Z).
Abbreviation mapStore := (list ResourceList).

(** A reference to a map, or nil. *)
Abbreviation mapref := (option nat).

Definition alloc (m : ResourceList) (h : mapStore) : mapStore * nat := (h ++ [m], length h).
Definition deref (h : mapStore) (l : nat) : ResourceList := default ∅ (h !! l).

(** [corev1.ResourceRequirements] with its two maps by reference. *)
Record RequirementsRef := { rr_Requests : mapref; rr_Limits : mapref }.

(** The part of [ResourceConfig] used here; [DefaultResources] is a pointer to a
    struct nothing writes to, so its content stands for it. *)
Record SharedConfig := {
  sc_TotalGpus : Z;
  sc_Replicas : Z;
  sc_GpusPerReplica : Z;
  sc_GpuVendor : string;
  sc_DefaultResources : option RequirementsRef
}.

(** [spec.Resources.DeepCopy()] and the rest of a calculated config. *)
Definition copyMap (m : option ResourceList) (h : mapStore) : mapStore * mapref :=
  match m with
  | None => (h, None)
  | Some m => let '(h, l) := alloc m h in (h, Some l)
  end.

Definition shareConfig (rc : ResourceConfig) (h : mapStore) : mapStore * SharedConfig :=
  let '(h, d) :=
    match rc_DefaultResources rc with
    | None => (h, None)
    | Some rq =>
        let '(h, q) := copyMap (rq_Requests rq) h in
        let '(h, l) := copyMap (rq_Limits rq) h in
        (h, Some {| rr_Requests := q; rr_Limits := l |})
    end in
  (h, {| sc_TotalGpus := rc_TotalGpus rc; sc_Replicas := rc_Replicas rc; sc_GpusPerReplica := rc_GpusPerReplica rc;
         sc_GpuVendor := rc_GpuVendor rc; sc_DefaultResources := d |}).

(** * resources.go *)

Definition ResourceCPU : string := "cpu".
Definition ResourceMemory : string := "memory".
Definition Gi : Z := 2 ^ 30.
Definition DefaultMemory : Z := 16 * Gi.
Definition DefaultCPU : Z := 2.

Definition getGpuResourceKey (vendor defaultVendor : string) : string :=
  let vendor := Str.ToUpper vendor in
  if decide (vendor = "NVIDIA") then "nvidia.com/gpu"
  else if decide (vendor = "AMD") then "amd.com/gpu"
  else defaultVendor.

(** The closure [updateResourceList]: CPU and memory where they are missing. *)
Definition updateResourceList (gpuCount : Z) (m : ResourceList) : ResourceList :=
  let hasGpus := bool_decide (0 < gpuCount) in
  let m := match m !! ResourceCPU with
           | Some _ => m
           | None => <[ResourceCPU := if hasGpus then int64_wrap (gpuCount * 4) else DefaultCPU]> m
           end in
  match m !! ResourceMemory with
  | Some _ => m
  | None => <[ResourceMemory := if hasGpus then int64_wrap (gpuCount * 32) * Gi else DefaultMemory]> m
  end.

(** [if m == nil { m = ResourceList{} }]. *)
Definition ensureMap (r : mapref) (h : mapStore) : mapStore * nat :=
  match r with Some l => (h, l) | None => alloc ∅ h end.

Definition writeMap (f : ResourceList → ResourceList) (l : nat) (h : mapStore) : mapStore := <[l := f (deref h l)]> h.

(** The requirements are returned as the references of their two maps. *)
Definition CreateResourceRequirements (defaultGpuResourceKey : string) (sc : SharedConfig) (rayhead : bool) (h : mapStore)
  : mapStore * (nat * nat) :=
  let resources := default {| rr_Requests := None; rr_Limits := None |} (sc_DefaultResources sc) in
  let '(h, requests) := ensureMap (rr_Requests resources) h in
  let '(h, limits) := ensureMap (rr_Limits resources) h in
  let gpuCount := if rayhead then 0 else sc_GpusPerReplica sc in
  let h :=
    if decide (0 < gpuCount) then
      let key := getGpuResourceKey (sc_GpuVendor sc) defaultGpuResourceKey in
      writeMap (<[key := gpuCount]>) limits (writeMap (<[key := gpuCount]>) requests h)
    else h in
  let h := writeMap (updateResourceList gpuCount) limits h in
  let h := writeMap (updateResourceList gpuCount) requests h in
  (h, (requests, limits)).

Section fill.
Context `{GoOrder}.

Definition fillEntry (override : bool) (k : string) (v : Z) (cur : option Z) : option Z :=
  match cur with
  | None => Some v
  | Some _ => if override then Some v else cur
  end.

Definition fillResourceList (dest src : ResourceList) (override : bool) : ResourceList :=
  range_alter (fillEntry override) src dest.

Definition fillContainerResources (c : Container) (requests limits : ResourceList) (override : bool) : Container :=
  {| c_Name := c_Name c; c_Requests := fillResourceList (c_Requests c) requests override;
     c_Limits := fillResourceList (c_Limits c) limits override |}.

(** The resources part of [updateMainContainer]. *)
Definition updateMainContainer (defaultKey : string) (sc : SharedConfig) (rayHead : bool) (c : Container) (h : mapStore)
  : mapStore * Container :=
  let '(h, (requests, limits)) := CreateResourceRequirements defaultKey sc rayHead h in
  (h, fillContainerResources c (deref h requests) (deref h limits) false).

(** The loop of [UpdatePodSpec] over the main containers. *)
Fixpoint updateContainers (defaultKey : string) (sc : SharedConfig) (rayHead : bool) (cs : list Container) (h : mapStore)
  : mapStore * list Container :=
  match cs with
  | [] => (h, [])
  | c :: cs' =>
      let '(h, c) := updateMainContainer defaultKey sc rayHead c h in
      let '(h, cs') := updateContainers defaultKey sc rayHead cs' h in
      (h, c :: cs')
  end.

Fixpoint updateWorkers (defaultKey : string) (sc : SharedConfig) (workers : list (list Container)) (h : mapStore)
  : mapStore * list (list Container) :=
  match workers with
  | [] => (h, [])
  | w :: ws =>
      let '(h, w) := updateContainers defaultKey sc false w h in
      let '(h, ws) := updateWorkers defaultKey sc ws h in
      (h, w :: ws)
  end.

(** The head's memory is written into the default resources; [None] is the panic
    of a write to a nil map. *)
Definition overrideHeadMemory (headMemory : Z) (sc : SharedConfig) (h : mapStore) : option (mapStore * SharedConfig) :=
  if decide (0 < headMemory) then
    let '(h, d) :=
      match sc_DefaultResources sc with
      | Some d => (h, d)
      | None =>
          let '(h, l) := alloc ∅ h in
          let '(h, q) := alloc ∅ h in
          (h, {| rr_Requests := Some q; rr_Limits := Some l |})
      end in
    match rr_Limits d, rr_Requests d with
    | Some l, Some q =>
        Some (writeMap (<[ResourceMemory := headMemory]>) q (writeMap (<[ResourceMemory := headMemory]>) l h),
              {| sc_TotalGpus := sc_TotalGpus sc; sc_Replicas := sc_Replicas sc; sc_GpusPerReplica := sc_GpusPerReplica sc;
                 sc_GpuVendor := sc_GpuVendor sc; sc_DefaultResources := Some d |})
    | _, _ => None
    end
  else Some (h, sc).

(** The containers of a Ray cluster's worker groups and head. *)
Definition UpdateRayClusterSpec (defaultKey : string) (headMemory : Z) (rc : ResourceConfig)
    (workers : list (list Container)) (head : list Container) : option (list (list Container) * list Container) :=
  let '(h, sc) := shareConfig rc [] in
  let '(h, workers) := updateWorkers defaultKey sc workers h in
  match overrideHeadMemory headMemory sc h with
  | None => None
  | Some (h, sc) =>
      let '(_, head) := updateContainers defaultKey sc true head h in
      Some (workers, head)
  end.

End fill.

(** * Properties *)

Section resources.
Context `{GoOrder}.

Lemma fillResourceList_lookup dest src override k :
  fillResourceList dest src override !! k =
    match src !! k with Some v => fillEntry override k v (dest !! k) | None => dest !! k end.
Proof. apply range_alter_lookup. Qed.

(** Defaults never replace what a container states itself: a request or limit
    the container has stays, one it lacks is taken from the template, and nothing
    else appears. *)
Theorem fillContainerResources_keeps c requests limits k :
  let c' := fillContainerResources c requests limits false in
  c_Requests c' !! k = c_Requests c !! k ∪ requests !! k ∧
  c_Limits c' !! k = c_Limits c !! k ∪ limits !! k.
Proof.
  simpl. rewrite !fillResourceList_lookup.
  split; [destruct (requests !! k), (c_Requests c !! k)|destruct (limits !! k), (c_Limits c !! k)]; done.
Qed.

(** A name of a GPU resource. *)
Definition gpuName (key : string) : Prop := key ≠ ResourceCPU ∧ key ≠ ResourceMemory.

Lemma updateResourceList_other n m key : gpuName key → updateResourceList n m !! key = m !! key.
Proof.
  intros [Hc Hm]. unfold updateResourceList.
  destruct (m !! ResourceCPU) eqn:E1; [|rewrite lookup_insert_ne by (unfold ResourceCPU, ResourceMemory; done)];
    destruct (m !! ResourceMemory); rewrite ?lookup_insert_ne by done; done.
Qed.

(** Giving the Ray workload default resources gives the Ray head the workers'
    GPUs: the head's requirements are made without GPUs, but from the map into
    which the workers' GPU count was written. *)
Theorem UpdateRayClusterSpec_head_gets_gpus defaultKey rc q l w hd key :
  rc_DefaultResources rc = Some {| rq_Requests := Some q; rq_Limits := Some l |} →
  0 < rc_GpusPerReplica rc → getGpuResourceKey (rc_GpuVendor rc) defaultKey = key → gpuName key →
  c_Requests hd !! key = None →
  ∃ ws hd', UpdateRayClusterSpec defaultKey 0 rc [[w]] [hd] = Some (ws, [hd']) ∧
    c_Requests hd' !! key = Some (rc_GpusPerReplica rc).
Proof.
  intros Hd Hg Hkey Hname Hhd. unfold UpdateRayClusterSpec, shareConfig. rewrite Hd. cbn.
  unfold updateMainContainer, CreateResourceRequirements, overrideHeadMemory. cbn. rewrite !(decide_True (P := 0 < rc_GpusPerReplica rc)) by done.
  cbn. rewrite Hkey. eexists _, _. split; [reflexivity|]. cbn. rewrite fillResourceList_lookup, Hhd.
  unfold writeMap, deref. cbn. rewrite !(decide_False (P := 0 < 0)) by lia. cbn.
  rewrite !updateResourceList_other, lookup_insert_eq by done. done.
Qed.

(** The maps a config gives its containers lack a GPU resource. *)
Definition gpuFree (key : string) (sc : SharedConfig) (h : mapStore) : Prop :=
  match sc_DefaultResources sc with
  | None => True
  | Some d => ∀ r, rr_Requests d = Some r ∨ rr_Limits d = Some r → (r < length h)%nat ∧ deref h r !! key = None
  end.

Lemma deref_write f l r h : (l < length h)%nat → deref (writeMap f l h) r = if decide (r = l) then f (deref h l) else deref h r.
Proof.
  intros Hl. unfold writeMap, deref. case_decide as E.
  - subst r. by rewrite list_lookup_insert_eq.
  - by rewrite list_lookup_insert_ne.
Qed.

Lemma length_write f l h : length (writeMap f l h) = length h.
Proof. apply length_insert. Qed.

Lemma ensureMap_spec r h key :
  (∀ l, r = Some l → (l < length h)%nat ∧ deref h l !! key = None) →
  let '(h', l) := ensureMap r h in
  (l < length h')%nat ∧ deref h' l !! key = None ∧ (length h ≤ length h')%nat ∧
  ∀ l', (l' < length h)%nat → deref h' l' = deref h l'.
Proof.
  intros Hr. destruct r as [l|]; simpl.
  - destruct (Hr l eq_refl). repeat split; auto.
  - rewrite length_app. simpl. unfold deref. repeat split; [lia| |lia|].
    + by rewrite list_lookup_middle by done.
    + intros l' Hl'. by rewrite lookup_app_l.
Qed.

(** Requirements for a head are made without the GPU resource, and leave the
    config's maps without it. *)
Lemma CreateResourceRequirements_head defaultKey sc h key :
  gpuName key → gpuFree key sc h →
  let '(h', (q, l)) := CreateResourceRequirements defaultKey sc true h in
  deref h' q !! key = None ∧ deref h' l !! key = None ∧ gpuFree key sc h'.
Proof.
  intros Hname Hfree. unfold CreateResourceRequirements, gpuFree in *.
  set (d := default _ (sc_DefaultResources sc)).
  assert (∀ r, rr_Requests d = Some r ∨ rr_Limits d = Some r → (r < length h)%nat ∧ deref h r !! key = None) as Hd.
  { subst d. destruct (sc_DefaultResources sc); [done|]. simpl. by intros r [|]. }
  pose proof (ensureMap_spec (rr_Requests d) h key ltac:(auto)) as H1.
  destruct (ensureMap (rr_Requests d) h) as [h1 q]. destruct H1 as (Hq & Hqk & Hlen1 & Hold1).
  pose proof (ensureMap_spec (rr_Limits d) h1 key) as H2.
  destruct (ensureMap (rr_Limits d) h1) as [h2 l]. destruct H2 as (Hl & Hlk & Hlen2 & Hold2).
  { intros r Hr. destruct (Hd r (or_intror Hr)). split; [lia|]. by rewrite Hold1. }
  rewrite decide_False by lia.
  assert (∀ r, deref h2 r !! key = None → deref (writeMap (updateResourceList 0) q (writeMap (updateResourceList 0) l h2)) r !! key = None) as Hw.
  { intros r Hr. rewrite !deref_write by (rewrite ?length_write; lia).
    repeat case_decide; subst; rewrite ?updateResourceList_other by done; auto. }
  split; [|split].
  - apply Hw. by rewrite Hold2.
  - by apply Hw.
  - destruct (sc_DefaultResources sc) as [d'|]; [|done]. intros r Hr. destruct (Hd r Hr) as [Hlt Hk].
    rewrite !length_write. split; [lia|]. apply Hw. by rewrite Hold2, Hold1 by lia.
Qed.

Lemma updateContainers_head defaultKey sc cs h key :
  gpuName key → gpuFree key sc h →
  Forall2 (λ c c', c_Requests c' !! key = c_Requests c !! key ∧ c_Limits c' !! key = c_Limits c !! key)
    cs (updateContainers defaultKey sc true cs h).2.
Proof.
  intros Hname. revert h. induction cs as [|c cs IH]; intros h Hfree; cbn [updateContainers]; [constructor|].
  unfold updateMainContainer. pose proof (CreateResourceRequirements_head defaultKey sc h key Hname Hfree) as Hc.
  destruct (CreateResourceRequirements defaultKey sc true h) as [h1 [q l]]. destruct Hc as (Hq & Hl & Hfree1).
  specialize (IH h1 Hfree1). destruct (updateContainers defaultKey sc true cs h1) as [h2 cs']. constructor; [|done].
  simpl. rewrite !fillResourceList_lookup, Hq, Hl. done.
Qed.

(** Without default resources on the workload the Ray head never gets a GPU it
    does not ask for itself, whatever the workers get. *)
Theorem UpdateRayClusterSpec_head_without_gpus defaultKey headMemory rc workers head key :
  rc_DefaultResources rc = None → gpuName key →
  ∃ ws head', UpdateRayClusterSpec defaultKey headMemory rc workers head = Some (ws, head') ∧
    Forall2 (λ c c', c_Requests c' !! key = c_Requests c !! key ∧ c_Limits c' !! key = c_Limits c !! key) head head'.
Proof.
  intros Hd Hname. unfold UpdateRayClusterSpec, shareConfig. rewrite Hd.
  destruct (updateWorkers _ _ workers _) as [h ws]. unfold overrideHeadMemory. case_decide as Hm; cbn [sc_DefaultResources].
  - unfold alloc. cbn [fst snd rr_Limits rr_Requests].
    set (h1 := writeMap _ _ _). set (sc := {| sc_TotalGpus := _ |}).
    pose proof (updateContainers_head defaultKey sc head h1 key Hname) as Hc.
    destruct (updateContainers defaultKey sc true head h1) as [h2 head']. eexists _, _. split; [done|]. apply Hc.
    intros r Hr. subst h1. rewrite !length_write, !length_app. simpl in *.
    assert (r = length h ∨ r = length (h ++ [∅])) as Hr' by (destruct Hr as [[= <-]|[= <-]]; auto).
    rewrite length_app in Hr'. simpl in Hr'. split; [lia|].
    rewrite !deref_write by (rewrite ?length_write, !length_app; simpl; lia).
    assert (∀ r', (length h ≤ r')%nat → deref ((h ++ [∅]) ++ [∅]) r' = ∅) as Hy.
    { intros r' Hr2. unfold deref. rewrite <- app_assoc, lookup_app_r by lia. by destruct (r' - length h)%nat as [|[|?]]. }
    destruct Hname. rewrite ?length_app. simpl. repeat case_decide; rewrite ?lookup_insert_ne, ?Hy, ?lookup_empty by (lia || done); done.
  - set (sc := {| sc_TotalGpus := _ |}).
    pose proof (updateContainers_head defaultKey sc head h key Hname) as Hc.
    destruct (updateContainers defaultKey sc true head h) as [h2 head']. eexists _, _. split; [done|]. by apply Hc.
Qed.

(** Default resources that state only requests make the update of a Ray
    workload panic when a head memory is configured. *)
Theorem UpdateRayClusterSpec_panics defaultKey headMemory rc q workers head :
  rc_DefaultResources rc = Some {| rq_Requests := Some q; rq_Limits := None |} → 0 < headMemory →
  UpdateRayClusterSpec defaultKey headMemory rc workers head = None.
Proof.
  intros Hd Hm. unfold UpdateRayClusterSpec, shareConfig. rewrite Hd. cbn.
  destruct (updateWorkers _ _ workers _) as [h ws]. unfold overrideHeadMemory. by rewrite decide_True.
Qed.

(** ** Default resources with both maps *)

(** The maps of the default resources are the ones the requirements are made of, and
    keep what the GPU entry was set to. *)
Lemma CreateResourceRequirements_shared defaultKey sc rayHead h q l key :
  sc_DefaultResources sc = Some {| rr_Requests := Some q; rr_Limits := Some l |} → (q < length h)%nat → (l < length h)%nat →
  getGpuResourceKey (sc_GpuVendor sc) defaultKey = key → gpuName key →
  let '(h', (q', _)) := CreateResourceRequirements defaultKey sc rayHead h in
  q' = q ∧ length h' = length h ∧
  deref h' q !! key = if decide (rayHead = false ∧ 0 < sc_GpusPerReplica sc) then Some (sc_GpusPerReplica sc) else
    deref h q !! key.
Proof.
  intros Hd Hq Hl <- Hname. unfold CreateResourceRequirements. rewrite Hd. cbn [default rr_Requests rr_Limits ensureMap]. cbv beta iota zeta.
  split; [done|]. split; [case_decide; by rewrite !length_write|].
  rewrite !deref_write by (case_decide; rewrite ?length_write; lia).
  rewrite decide_True by done. rewrite updateResourceList_other by done.
  assert (∀ h', (if decide (q = l) then updateResourceList (if rayHead then 0 else sc_GpusPerReplica sc) (deref h' l)
    else deref h' q) !! getGpuResourceKey (sc_GpuVendor sc) defaultKey = deref h' q !! getGpuResourceKey (sc_GpuVendor sc) defaultKey) as Hu.
  { intros h'. destruct (decide (q = l)) as [->|]; [by apply updateResourceList_other|done]. }
  rewrite Hu. destruct rayHead.
  - rewrite (decide_False (P := true = false ∧ _)) by naive_solver. by rewrite decide_False by lia.
  - destruct (decide (0 < sc_GpusPerReplica sc)); [|by rewrite decide_False by tauto]. rewrite decide_True by done.
    rewrite !deref_write by (rewrite ?length_write; lia). destruct (decide (q = l)) as [->|].
    + by rewrite !decide_True, lookup_insert_eq.
    + by rewrite decide_True, lookup_insert_eq.
Qed.

Lemma updateContainers_shared defaultKey sc rayHead cs h q l key :
  sc_DefaultResources sc = Some {| rr_Requests := Some q; rr_Limits := Some l |} → (q < length h)%nat → (l < length h)%nat →
  getGpuResourceKey (sc_GpuVendor sc) defaultKey = key → gpuName key →
  let '(h', cs') := updateContainers defaultKey sc rayHead cs h in
  length h' = length h ∧
  (deref h q !! key = Some (sc_GpusPerReplica sc) ∨ rayHead = false ∧ 0 < sc_GpusPerReplica sc ∧ cs ≠ [] →
    deref h' q !! key = Some (sc_GpusPerReplica sc)) ∧
  (deref h q !! key = Some (sc_GpusPerReplica sc) →
    Forall2 (λ c c', c_Requests c !! key = None → c_Requests c' !! key = Some (sc_GpusPerReplica sc)) cs cs').
Proof.
  intros Hd Hq Hl Hkey Hname. revert h Hq Hl. induction cs as [|c cs IH]; intros h Hq Hl; cbn [updateContainers].
  { split; [done|]. split; [by intros [|(_ & _ & ?)]|constructor]. }
  unfold updateMainContainer. pose proof (CreateResourceRequirements_shared defaultKey sc rayHead h q l key Hd Hq Hl Hkey Hname) as Hc.
  destruct (CreateResourceRequirements _ _ _ _) as [h1 [q' l']]. destruct Hc as (-> & Hlen & Hk).
  specialize (IH h1 ltac:(lia) ltac:(lia)). destruct (updateContainers defaultKey sc rayHead cs h1) as [h2 cs'].
  destruct IH as (Hlen2 & Hkeep & Hall). split; [lia|].
  assert (deref h q !! key = Some (sc_GpusPerReplica sc) ∨ rayHead = false ∧ 0 < sc_GpusPerReplica sc ∧ c :: cs ≠ [] →
    deref h1 q !! key = Some (sc_GpusPerReplica sc)) as H1.
  { rewrite Hk. case_decide; naive_solver. }
  split; [auto|]. intros Hh. constructor; [|auto]. intros Hc. cbn. rewrite fillResourceList_lookup, Hc. by rewrite H1 by auto.
Qed.

Lemma updateWorkers_shared defaultKey sc ws h q l key :
  sc_DefaultResources sc = Some {| rr_Requests := Some q; rr_Limits := Some l |} → (q < length h)%nat → (l < length h)%nat →
  getGpuResourceKey (sc_GpuVendor sc) defaultKey = key → gpuName key → 0 < sc_GpusPerReplica sc →
  let '(h', _) := updateWorkers defaultKey sc ws h in
  length h' = length h ∧
  (deref h q !! key = Some (sc_GpusPerReplica sc) ∨ (∃ w, w ∈ ws ∧ w ≠ []) → deref h' q !! key = Some (sc_GpusPerReplica sc)).
Proof.
  intros Hd Hq Hl Hkey Hname Hg. revert h Hq Hl. induction ws as [|w ws IH]; intros h Hq Hl; cbn [updateWorkers].
  { split; [done|]. intros [|(w & ?%elem_of_nil & _)]; done. }
  pose proof (updateContainers_shared defaultKey sc false w h q l key Hd Hq Hl Hkey Hname) as Hc.
  destruct (updateContainers defaultKey sc false w h) as [h1 w']. destruct Hc as (Hlen & Hset & _).
  specialize (IH h1 ltac:(lia) ltac:(lia)). destruct (updateWorkers defaultKey sc ws h1) as [h2 ws']. destruct IH as [Hlen2 Hkeep].
  split; [lia|]. intros [Hh|(w0 & Hw0 & Hne)]; [by apply Hkeep; left; apply Hset; left|].
  apply elem_of_cons in Hw0 as [->|Hw0]; apply Hkeep; [left; apply Hset; auto|right; eauto].
Qed.

(** With default resources that have both maps, the head's containers get the GPUs of
    the workers. *)
Lemma UpdateRayClusterSpec_shared defaultKey headMemory rc q l workers head key :
  rc_DefaultResources rc = Some {| rq_Requests := Some q; rq_Limits := Some l |} →
  0 < rc_GpusPerReplica rc → getGpuResourceKey (rc_GpuVendor rc) defaultKey = key → gpuName key →
  (∃ w, w ∈ workers ∧ w ≠ []) →
  ∃ ws head', UpdateRayClusterSpec defaultKey headMemory rc workers head = Some (ws, head') ∧
    Forall2 (λ c c', c_Requests c !! key = None → c_Requests c' !! key = Some (rc_GpusPerReplica rc)) head head'.
Proof.
  intros Hd Hg Hkey Hname Hw. unfold UpdateRayClusterSpec, shareConfig. rewrite Hd. cbn [copyMap alloc rq_Requests rq_Limits app length].
  set (sc := {| sc_TotalGpus := _ |}). set (h0 := [q; l]).
  pose proof (updateWorkers_shared defaultKey sc workers h0 0 1 key eq_refl ltac:(cbn; lia) ltac:(cbn; lia) Hkey Hname Hg) as Hws.
  destruct (updateWorkers defaultKey sc workers h0) as [h1 ws]. destruct Hws as [Hlen Hset]. specialize (Hset (or_intror Hw)). change (length h1 = 2%nat) in Hlen.
  unfold overrideHeadMemory. destruct Hname as [Hcpu Hmem].
  assert (∀ h sc', length h = 2%nat → deref h 0 !! key = Some (rc_GpusPerReplica rc) → sc_DefaultResources sc' = sc_DefaultResources sc →
    sc_GpuVendor sc' = sc_GpuVendor sc → sc_GpusPerReplica sc' = sc_GpusPerReplica sc →
    Forall2 (λ c c', c_Requests c !! key = None → c_Requests c' !! key = Some (rc_GpusPerReplica rc)) head
      (updateContainers defaultKey sc' true head h).2) as Hhead.
  { intros h sc' Hlen' Hh Hsd Hsv Hsg.
    pose proof (updateContainers_shared defaultKey sc' true head h 0 1 key Hsd ltac:(lia) ltac:(lia) ltac:(by rewrite Hsv) (conj Hcpu Hmem)) as Hc.
    destruct (updateContainers defaultKey sc' true head h) as [h2 head']. destruct Hc as (_ & _ & Hc). rewrite Hsg in Hc. by apply Hc. }
  case_decide; cbn [sc_DefaultResources sc rr_Limits rr_Requests].
  - match goal with |- context [updateContainers _ ?s true head ?h] => specialize (Hhead h s); destruct (updateContainers _ s true head h) end.
    eexists _, _. split; [done|]. apply Hhead; [by rewrite !length_write| |done..].
    rewrite !deref_write by (rewrite ?length_write; lia). by rewrite decide_True, lookup_insert_ne, decide_False by done.
  - specialize (Hhead h1 sc). destruct (updateContainers _ sc true head h1). eexists _, _. split; [done|]. by apply Hhead.
Qed.

End resources.
