(* ===== verification/Ordering.v ===== *)
(** The order of Go strings, comparisons by several keys, and sorting whose result
    does not depend on the order of the input. *)

From stdpp Require Import strings list sorting.
From Stdlib Require Import ZArith Lia.
From S2P Require Import Prelude.

(** * Strings *)

Lemma compare_refl s : String.compare s s = Eq.
Proof. induction s as [|c s IH]; [done|]. cbn. unfold Ascii.compare. by rewrite N.compare_refl. Qed.

Lemma compare_trans o a b c :
  String.compare a b = o → String.compare b c = o → String.compare a c = o.
Proof.
  revert b c. induction a as [|x a IH]; intros [|y b] [|z c]; cbn; try congruence. unfold Ascii.compare.
  destruct (N.compare_spec (Ascii.N_of_ascii x) (Ascii.N_of_ascii y)) as [E|E|E];
  destruct (N.compare_spec (Ascii.N_of_ascii y) (Ascii.N_of_ascii z)) as [E'|E'|E']; intros H1 H2; subst o; try congruence.
  all: try (rewrite E, E', N.compare_refl; by eapply IH).
  all: first [rewrite (proj2 (N.compare_lt_iff _ _)) by lia|rewrite (proj2 (N.compare_gt_iff _ _)) by lia]; congruence.
Qed.

Lemma lt_true a b : Str.lt a b = true ↔ String.compare a b = Lt.
Proof. unfold Str.lt, String.ltb. by destruct (String.compare a b). Qed.

Lemma lt_false a b : Str.lt a b = false ↔ a = b ∨ String.compare b a = Lt.
Proof.
  unfold Str.lt, String.ltb. rewrite (String.compare_antisym b a). destruct (String.compare a b) eqn:E; cbn; split; try done.
  - intros _. left. by apply String.compare_eq_iff.
  - intros [->|?]; [|done]. by rewrite compare_refl in E.
  - by right.
Qed.

Lemma Str_lt_order : strict_weak Str.lt.
Proof.
  split.
  - intros x. rewrite lt_false. by left.
  - intros x y z. rewrite !lt_true. apply compare_trans.
  - intros x y z. rewrite !lt_false. intros [->|H1] [->|H2]; [by left|by right|by right|].
    right. by eapply compare_trans.
Qed.

Lemma Str_lt_total x y : Str.lt x y = false → Str.lt y x = false → x = y.
Proof. rewrite !lt_false. intros [|H1] [|H2]; try done. rewrite String.compare_antisym, H1 in H2. done. Qed.

(** * Comparisons by keys *)

Section lex.
Context {A : Type}.

(** By one key, and by the next when it is the same. *)
Definition byKey (k : A → string) (next : A → A → bool) (x y : A) : bool :=
  if decide (k x ≠ k y) then Str.lt (k x) (k y) else next x y.

Lemma byKey_eq k next x y : k x = k y → byKey k next x y = next x y.
Proof. intros E. unfold byKey. by rewrite decide_False by (by intros ?). Qed.

Lemma byKey_ne k next x y : k x ≠ k y → byKey k next x y = Str.lt (k x) (k y).
Proof. intros E. unfold byKey. by rewrite decide_True. Qed.

Lemma byKey_trans k next x y z b :
  (∀ s t u, Str.lt s t = b → Str.lt t u = b → Str.lt s u = b) → (∀ s t, s ≠ t → Str.lt s t = b → Str.lt t s = negb b) →
  (next x y = b → next y z = b → next x z = b) →
  byKey k next x y = b → byKey k next y z = b → byKey k next x z = b.
Proof.
  intros Ht Ha Hn. destruct (decide (k x = k y)) as [E1|E1], (decide (k y = k z)) as [E2|E2].
  - rewrite !byKey_eq by congruence. done.
  - rewrite (byKey_eq _ _ x y), (byKey_ne _ _ y z), (byKey_ne _ _ x z), E1 by congruence. done.
  - rewrite (byKey_ne _ _ x y), (byKey_eq _ _ y z), (byKey_ne _ _ x z), E2 by congruence. done.
  - rewrite (byKey_ne _ _ x y), (byKey_ne _ _ y z) by done. intros H1 H2.
    destruct (decide (k x = k z)) as [E|E]; [|rewrite byKey_ne by done; by eapply Ht].
    rewrite <- E in H2. rewrite (Ha _ _ E1 H1) in H2. by destruct b.
Qed.

Lemma byKey_order k next : strict_weak next → strict_weak (byKey k next).
Proof.
  intros [Hi Ht Hc]. destruct Str_lt_order as [Si St Sc]. split.
  - intros x. by rewrite byKey_eq.
  - intros x y z. apply byKey_trans; [apply St| |apply Ht].
    intros s t Hne H. cbn. destruct (Str.lt t s) eqn:E; [|done]. exfalso. pose proof (St _ _ _ H E) as Hss. by rewrite Si in Hss.
  - intros x y z. apply byKey_trans; [apply Sc| |apply Hc].
    intros s t Hne H. cbn. destruct (Str.lt t s) eqn:E; [done|]. exfalso. apply Hne. by apply Str_lt_total.
Qed.

Lemma byKey_total k next x y :
  byKey k next x y = false → byKey k next y x = false → k x = k y ∧ next x y = false ∧ next y x = false.
Proof.
  destruct (decide (k x = k y)) as [E|E].
  - rewrite !byKey_eq by done. done.
  - rewrite !byKey_ne by done. intros H1 H2. exfalso. apply E. by apply Str_lt_total.
Qed.

Lemma by_order (k : A → string) : strict_weak (λ x y, Str.lt (k x) (k y)).
Proof. destruct Str_lt_order as [Si St Sc]. split; eauto. Qed.

(** * Sorting *)

Context `{GoOrder}.

(** When elements that compare equal are equal, only one list is sorted. *)
Lemma sortSlice_canonical (less : A → A → bool) l l' :
  strict_weak less → (∀ x y, x ∈ l → y ∈ l → less x y = false → less y x = false → x = y) → l ≡ₚ l' →
  sortSlice less l = sortSlice less l'.
Proof.
  intros Ho Ht Hp. eapply (StronglySorted_unique_strong (λ x y, less y x = false)).
  - intros x y Hx Hy Hyx Hxy. rewrite sortSlice_perm in Hx. rewrite sortSlice_perm, <- Hp in Hy. by apply Ht.
  - by apply sortSlice_sorted.
  - by apply sortSlice_sorted.
  - by rewrite !sortSlice_perm.
Qed.

End lex.

Lemma sortStrings_canonical `{GoOrder} l l' : l ≡ₚ l' → sortSlice Str.lt l = sortSlice Str.lt l'.
Proof. apply sortSlice_canonical; [apply Str_lt_order|]. intros x y _ _. apply Str_lt_total. Qed.

#[export] Hint Resolve Str_lt_order byKey_order by_order : kaiwo.
