(* ===== verification/Runes.v ===== *)
(** Go strings as sequences of runes: what ranging over a string decodes, and lower
    case. *)

From stdpp Require Import strings list.
From Stdlib Require Import ZArith Lia.
From S2P Require Import Prelude.

(** A rune is its code point. *)
Definition RuneError : Z := 65533.

Definition byteOf (c : Ascii.ascii) : Z := Z.of_nat (Ascii.nat_of_ascii c).

Definition continuation (b : Z) : bool := (128 <=? b) && (b <=? 191).

(** The second byte of an encoding of two bytes or more: not every continuation byte
    can follow every first byte. *)
Definition accepts (b0 b1 : Z) : bool :=
  continuation b1 &&
  (if decide (b0 = 224) then 160 <=? b1 else if decide (b0 = 237) then b1 <=? 159
   else if decide (b0 = 240) then 144 <=? b1 else if decide (b0 = 244) then b1 <=? 143 else true).

Definition low6 (b : Z) : Z := Z.land b 63.

(** The runes of a string; a byte that starts no valid encoding is an error of width
    one. *)
Fixpoint decodeRunes (s : list Ascii.ascii) : list Z :=
  match s with
  | [] => []
  | c0 :: s1 =>
      let b0 := byteOf c0 in
      if b0 <? 128 then b0 :: decodeRunes s1
      else if (b0 <? 194) || (244 <? b0) then RuneError :: decodeRunes s1
      else
        match s1 with
        | [] => RuneError :: decodeRunes s1
        | c1 :: s2 =>
            let b1 := byteOf c1 in
            if negb (accepts b0 b1) then RuneError :: decodeRunes s1
            else if b0 <? 224 then Z.lor (Z.shiftl (Z.land b0 31) 6) (low6 b1) :: decodeRunes s2
            else
              match s2 with
              | [] => RuneError :: decodeRunes s1
              | c2 :: s3 =>
                  let b2 := byteOf c2 in
                  if negb (continuation b2) then RuneError :: decodeRunes s1
                  else if b0 <? 240
                  then Z.lor (Z.shiftl (Z.land b0 15) 12) (Z.lor (Z.shiftl (low6 b1) 6) (low6 b2)) :: decodeRunes s3
                  else
                    match s3 with
                    | [] => RuneError :: decodeRunes s1
                    | c3 :: s4 =>
                        let b3 := byteOf c3 in
                        if negb (continuation b3) then RuneError :: decodeRunes s1
                        else Z.lor (Z.shiftl (Z.land b0 7) 18)
                               (Z.lor (Z.shiftl (low6 b1) 12) (Z.lor (Z.shiftl (low6 b2) 6) (low6 b3))) :: decodeRunes s4
                    end
              end
        end
  end.

(** [unicode.ToLower], as far as it can matter for expressions over ASCII classes: two
    letters outside ASCII, the capital I with a dot above and the Kelvin sign, have
    an ASCII letter as their lower case; no other rune outside ASCII does. *)
Definition lowerRune (r : Z) : Z :=
  if decide (65 ≤ r ≤ 90) then r + 32
  else if decide (r = 304) then 105
  else if decide (r = 8490) then 107
  else r.

(** A rune for such an expression: its byte if it is in ASCII, and the byte 0xFF, which
    is in none of the classes, if it is not. *)
Definition classByte (r : Z) : Ascii.ascii := Ascii.ascii_of_nat (if decide (r < 128) then Z.to_nat r else 255).

(** [strings.ToLower], one byte a rune. *)
Definition lowered (s : list Ascii.ascii) : list Ascii.ascii := classByte ∘ lowerRune <$> decodeRunes s.

(** * Properties *)

Definition isAscii (c : Ascii.ascii) : Prop := byteOf c < 128.

Lemma byteOf_nonneg c : 0 ≤ byteOf c.
Proof. unfold byteOf. lia. Qed.

Lemma decodeRunes_ascii c s : isAscii c → decodeRunes (c :: s) = byteOf c :: decodeRunes s.
Proof.
  unfold isAscii. intros Hc. cbn [decodeRunes]. cbv zeta. by rewrite (proj2 (Z.ltb_lt _ _) Hc).
Qed.

Lemma classByte_ascii c : isAscii c → classByte (lowerRune (byteOf c)) = Str.lower_ascii c.
Proof.
  unfold isAscii, classByte, lowerRune, Str.lower_ascii, byteOf. intros Hc.
  destruct (decide (65 ≤ Ascii.nat_of_ascii c ∧ Ascii.nat_of_ascii c ≤ 90)%nat).
  - rewrite (decide_True (P := 65 ≤ Z.of_nat _ ≤ 90)) by lia. rewrite decide_True by lia. f_equal. lia.
  - rewrite (decide_False (P := 65 ≤ Z.of_nat _ ≤ 90)) by lia. rewrite !(decide_False (P := Z.of_nat _ = _)) by lia.
    rewrite decide_True by lia. rewrite Nat2Z.id. apply Ascii.ascii_nat_embedding.
Qed.

Lemma lowered_nil : lowered [] = [].
Proof. done. Qed.

Lemma lowered_ascii c s : isAscii c → lowered (c :: s) = Str.lower_ascii c :: lowered s.
Proof. intros Hc. unfold lowered. rewrite decodeRunes_ascii by done. rewrite fmap_cons. simpl. by rewrite classByte_ascii. Qed.

Lemma lowered_ascii_app s t : Forall isAscii s → lowered (s ++ t) = (Str.lower_ascii <$> s) ++ lowered t.
Proof. induction 1 as [|c s Hc _ IH]; [done|]. cbn [app]. by rewrite lowered_ascii, IH. Qed.

Lemma decodeRunes_length s : (length (decodeRunes s) ≤ length s)%nat.
Proof.
  induction s as [s IH] using (induction_ltof1 _ length). unfold ltof in IH.
  assert (∀ r t, (length t < length s)%nat → (length (r :: decodeRunes t) ≤ length s)%nat) as Hcons.
  { intros r t Ht. specialize (IH t Ht). simpl. lia. }
  destruct s as [|c0 s1]; [done|]. cbn [decodeRunes]. cbv zeta.
  repeat (case_match; try (apply Hcons; subst; simpl; lia)).
Qed.

Lemma lowered_length s : (length (lowered s) ≤ length s)%nat.
Proof. unfold lowered. rewrite length_fmap. apply decodeRunes_length. Qed.

(** A precomposed letter, the Kelvin sign and a stray continuation byte. *)
Example decodeRunes_examples :
  decodeRunes (Ascii.ascii_of_nat <$> [195; 169]%nat) = [233] ∧
  decodeRunes (Ascii.ascii_of_nat <$> [226; 132; 170; 97]%nat) = [8490; 97] ∧
  decodeRunes (Ascii.ascii_of_nat <$> [240; 159; 152; 128]%nat) = [128512] ∧
  decodeRunes (Ascii.ascii_of_nat <$> [170; 97]%nat) = [RuneError; 97] ∧
  decodeRunes (Ascii.ascii_of_nat <$> [237; 160; 128]%nat) = [RuneError; RuneError; RuneError] ∧
  lowered (Ascii.ascii_of_nat <$> [226; 132; 170; 65]%nat) = Ascii.ascii_of_nat <$> [107; 97]%nat.
Proof. split_and!; by vm_compute. Qed.
