(* ===== verification/Naming.v ===== *)
(** Names of the objects a workload owns (pkg/utils/utils.go:
    MakeRFC1123Compliant, FormatNameWithPostfix). The two regular expressions are the
    replacement of runs of runes; all the runes outside ASCII are one byte to them
    (Runes.v). *)

From stdpp Require Import strings list.
From Stdlib Require Import ZArith Lia.
From S2P Require Import Prelude Text Runes.

(** * Definitions *)

Definition dashChar : Ascii.ascii := Ascii.ascii_of_nat 45.
Definition dotChar : Ascii.ascii := Ascii.ascii_of_nat 46.

(** The class [[-.]]. *)
Definition isSep (c : Ascii.ascii) : bool := bool_decide (c = dashChar ∨ c = dotChar).

(** The class [[a-z0-9]]. *)
Definition isAlnum (c : Ascii.ascii) : bool :=
  let n := Ascii.nat_of_ascii c in (97 <=? n)%nat && (n <=? 122)%nat || (48 <=? n)%nat && (n <=? 57)%nat.

Definition isAllowed (c : Ascii.ascii) : bool := isAlnum c || isSep c.

(** [ReplaceAllString(s, rep)], for the expression that matches the runs of at
    least [least] bytes of a class; [run] is the run read so far. *)
Definition flushRun (rep : Ascii.ascii) (least : nat) (run : list Ascii.ascii) : list Ascii.ascii :=
  if decide (length run < least)%nat then run else [rep].

Fixpoint replaceRuns (rep : Ascii.ascii) (p : Ascii.ascii → bool) (least : nat) (run s : list Ascii.ascii) : list Ascii.ascii :=
  match s with
  | [] => flushRun rep least run
  | c :: s' =>
      if p c then replaceRuns rep p least (run ++ [c]) s'
      else flushRun rep least run ++ c :: replaceRuns rep p least [] s'
  end.

(** [strings.TrimLeft] and [strings.TrimRight] with the bytes of a class. *)
Fixpoint trimLeft (p : Ascii.ascii → bool) (s : list Ascii.ascii) : list Ascii.ascii :=
  match s with [] => [] | c :: s' => if p c then trimLeft p s' else s end.

Definition trimRight (p : Ascii.ascii → bool) (s : list Ascii.ascii) : list Ascii.ascii := reverse (trimLeft p (reverse s)).

Definition maxNameLength : nat := 63.

Definition compliantBytes (input : list Ascii.ascii) : list Ascii.ascii :=
  let input := lowered input in
  let input := replaceRuns dashChar (λ c, negb (isAllowed c)) 1 [] input in
  let input := trimRight isSep (trimLeft isSep input) in
  let input := replaceRuns dashChar isSep 2 [] input in
  let input := if decide (maxNameLength < length input)%nat then take maxNameLength input else input in
  trimRight (λ c, bool_decide (c = dashChar)) input.

Definition MakeRFC1123Compliant (input : string) : string :=
  String.string_of_list_ascii (compliantBytes (String.list_ascii_of_string input)).

Definition FormatNameWithPostfix (name : string) (postfix : list string) : string :=
  MakeRFC1123Compliant (foldl (λ builtName p, builtName +:+ "-" +:+ p) name postfix).

(** * Properties *)

(** No two bytes of a class in a row. *)
Fixpoint spaced (p : Ascii.ascii → bool) (s : list Ascii.ascii) : Prop :=
  match s with
  | c :: ((d :: _) as s') => (p c = true → p d = false) ∧ spaced p s'
  | _ => True
  end.

(** A name as RFC 1123 wants it. *)
Record label (s : list Ascii.ascii) : Prop := {
  label_allowed : Forall (λ c, isAllowed c = true) s;
  label_spaced : spaced isSep s;
  label_head c : head s = Some c → isSep c = false;
  label_last c : last s = Some c → isSep c = false;
  label_length : (length s ≤ maxNameLength)%nat
}.

Lemma isAllowed_dash : isAllowed dashChar = true.
Proof. done. Qed.

(** ** Runs *)

Lemma flushRun_nil rep least : (0 < least)%nat → flushRun rep least [] = [].
Proof. intros. unfold flushRun. rewrite decide_True by done. done. Qed.

Lemma replaceRuns_Forall (q : Ascii.ascii → Prop) rep p least run s :
  q rep → (least ≤ 1 ∨ Forall q run)%nat → (∀ c, c ∈ s → q c ∨ (p c = true ∧ (least ≤ 1)%nat)) →
  Forall q (replaceRuns rep p least run s).
Proof.
  intros Hd. assert (∀ run, (least ≤ 1 ∨ Forall q run)%nat → Forall q (flushRun rep least run)) as Hflush.
  { intros run' Hr. unfold flushRun. case_decide; [|by constructor].
    destruct Hr as [Hle|]; [|done]. destruct run'; [constructor|simpl in *; lia]. }
  revert run. induction s as [|c s IH]; intros run Hrun Hs; [by apply Hflush|]. simpl.
  destruct (p c) eqn:Hp.
  - apply IH; [|intros d Hd'; apply Hs; by right]. destruct Hrun as [|Hrun]; [by left|].
    destruct (Hs c ltac:(by left)) as [Hq|[_ ?]]; [|by left]. right. apply Forall_app. auto.
  - apply Forall_app. split; [by apply Hflush|]. constructor.
    + destruct (Hs c ltac:(by left)) as [|[? _]]; congruence.
    + apply IH; [right; constructor|]. intros d Hd'. apply Hs. by right.
Qed.

(** A byte outside the class ends the run, so the parts are treated apart. *)
Lemma replaceRuns_app rep p least run a c b :
  (0 < least)%nat → p c = false →
  replaceRuns rep p least run (a ++ c :: b) = replaceRuns rep p least run (a ++ [c]) ++ replaceRuns rep p least [] b.
Proof.
  intros Hl Hp. revert run. induction a as [|d a IH]; intros run; cbn [app replaceRuns].
  - rewrite Hp, (flushRun_nil rep least Hl), <- app_assoc. done.
  - destruct (p d); [apply IH|]. rewrite IH, <- app_assoc. done.
Qed.

Lemma replaceRuns_none rep p s : Forall (λ c, p c = false) s → replaceRuns rep p 1 [] s = s.
Proof. induction 1 as [|c s Hc _ IH]; [done|]. simpl. by rewrite Hc, IH. Qed.

Lemma replaceRuns_spaced_id s : spaced isSep s → replaceRuns dashChar isSep 2 [] s = s.
Proof.
  induction s as [s IH] using (induction_ltof1 _ length). unfold ltof in IH. intros Hs.
  destruct s as [|c s]; [done|]. destruct s as [|d s].
  { simpl. by destruct (isSep c). }
  destruct Hs as [Hcd Hs]. cbn [replaceRuns]. destruct (isSep c) eqn:Hc.
  - rewrite (Hcd eq_refl). cbn [app]. unfold flushRun. rewrite decide_True by (simpl; lia). cbn [app]. do 2 f_equal.
    apply IH; [simpl; lia|]. by destruct s as [|e s], Hs.
  - rewrite flushRun_nil by lia. cbn [app]. f_equal. apply (IH (d :: s)); [simpl; lia|done].
Qed.

Lemma spaced_cons p c s : (p c = true → ∀ d, head s = Some d → p d = false) → spaced p s → spaced p (c :: s).
Proof. intros Hc Hs. destruct s as [|d s]; [done|]. split; [|done]. intros E. by apply Hc. Qed.

(** Collapsing leaves no two separators in a row: a run is followed by a byte
    outside the class. *)
Lemma flushRun_sep rep p least run s :
  (least ≤ 2)%nat → spaced p s → (∀ c, head s = Some c → p c = false) → spaced p (flushRun rep least run ++ s).
Proof.
  intros Hl Hs Hh. unfold flushRun. case_decide as Hlen.
  - destruct run as [|c [|d run]]; [done| |simpl in *; lia]. apply spaced_cons; auto.
  - apply spaced_cons; auto.
Qed.

Lemma replaceRuns_spaced rep p least run s : (least ≤ 2)%nat → spaced p (replaceRuns rep p least run s).
Proof.
  intros Hl. revert run. induction s as [|c s IH]; intros run.
  - rewrite <- (app_nil_r (replaceRuns _ _ _ _ _)). by apply flushRun_sep.
  - simpl. destruct (p c) eqn:Hc; [apply IH|].
    apply flushRun_sep; [done| |by intros d [= <-]]. apply spaced_cons; [congruence|apply IH].
Qed.

(** ** Trimming *)

Lemma trimLeft_suffix p s : ∃ t, s = t ++ trimLeft p s.
Proof.
  induction s as [|c s [t IH]]; [by exists []|]. simpl. destruct (p c); [|by exists []].
  exists (c :: t). simpl. by f_equal.
Qed.

Lemma trimLeft_head p s c : head (trimLeft p s) = Some c → p c = false.
Proof. induction s as [|d s IH]; [done|]. simpl. destruct (p d) eqn:Hd; [auto|]. by intros [= <-]. Qed.

Lemma trimLeft_id p s : (∀ c, head s = Some c → p c = false) → trimLeft p s = s.
Proof. destruct s as [|c s]; [done|]. intros Hc. simpl. by rewrite Hc. Qed.

Lemma trimRight_prefix p s : trimRight p s `prefix_of` s.
Proof.
  destruct (trimLeft_suffix p (reverse s)) as [t Ht]. exists (reverse t). unfold trimRight.
  by rewrite <- reverse_app, <- Ht, reverse_involutive.
Qed.

Lemma trimRight_last p s c : last (trimRight p s) = Some c → p c = false.
Proof. unfold trimRight. rewrite last_reverse. apply trimLeft_head. Qed.

Lemma trimRight_app p a c b : p c = false → ∃ b', trimRight p (a ++ c :: b) = a ++ c :: b' ∧ b' `prefix_of` b.
Proof.
  intros Hp. destruct (trimRight_prefix p (a ++ c :: b)) as [t Ht].
  assert (∀ x, trimLeft p (x ++ c :: reverse a) = trimLeft p x ++ (c :: reverse a) ∨
    trimLeft p (x ++ c :: reverse a) = c :: reverse a) as Hx.
  { induction x as [|d x IH]; [right; apply trimLeft_id; by intros ? [= <-]|]. simpl. destruct (p d); [done|by left]. }
  unfold trimRight in *. rewrite reverse_app, reverse_cons, <- app_assoc in *. simpl in *.
  destruct (Hx (reverse b)) as [E|E]; rewrite E.
  - exists (reverse (trimLeft p (reverse b))). rewrite reverse_app, reverse_cons, reverse_involutive, <- app_assoc. split; [done|].
    apply (trimRight_prefix p b).
  - exists []. rewrite reverse_cons, reverse_involutive. split; [done|apply prefix_nil].
Qed.

Lemma prefix_spaced p a b : a `prefix_of` b → spaced p b → spaced p a.
Proof.
  intros [t ->]. induction a as [|c a IH]; [done|]. intros Hs. destruct a as [|d a]; [done|].
  destruct Hs as [? Hs]. split; [done|]. by apply IH.
Qed.

Lemma prefix_head {A} (a b : list A) x : a `prefix_of` b → head a = Some x → head b = Some x.
Proof. intros [t ->]. by destruct a. Qed.

Lemma prefix_Forall {A} (P : A → Prop) (a b : list A) : a `prefix_of` b → Forall P b → Forall P a.
Proof. intros [t ->]. rewrite Forall_app. by intros [? _]. Qed.

(** ** The bytes of a compliant name *)

Lemma shorten_prefix (s : list Ascii.ascii) : (if decide (maxNameLength < length s)%nat then take maxNameLength s else s) `prefix_of` s.
Proof. case_decide; [apply prefix_take|done]. Qed.

Lemma shorten_length (s : list Ascii.ascii) :
  (length (if decide (maxNameLength < length s)%nat then take maxNameLength s else s) ≤ maxNameLength)%nat.
Proof. case_decide; [rewrite length_take|]; lia. Qed.

Lemma list_string s : String.list_ascii_of_string (MakeRFC1123Compliant s) = compliantBytes (String.list_ascii_of_string s).
Proof. apply String.list_ascii_of_string_of_list_ascii. Qed.

(** C24: whatever the input, the name [MakeRFC1123Compliant] gives has at most 63
    bytes, all of them lower-case letters, digits, dashes or dots, with no two
    separators in a row, starting with a letter or digit and not ending in a
    dash. *)
Theorem MakeRFC1123Compliant_shape s :
  let out := String.list_ascii_of_string (MakeRFC1123Compliant s) in
  Forall (λ c, isAllowed c = true) out ∧ (length out ≤ 63)%nat ∧ spaced isSep out ∧
  (∀ c, head out = Some c → isSep c = false) ∧ (∀ c, last out = Some c → c ≠ dashChar).
Proof.
  cbv zeta. rewrite list_string. unfold compliantBytes.
  set (s1 := replaceRuns dashChar (λ c, negb (isAllowed c)) 1 [] (lowered (String.list_ascii_of_string s))).
  set (s2 := trimRight isSep (trimLeft isSep s1)). set (s3 := replaceRuns dashChar isSep 2 [] s2).
  set (s4 := if decide _ then _ else _).
  assert (Forall (λ c, isAllowed c = true) s1) as H1.
  { apply replaceRuns_Forall; [done|by left|]. intros c _. simpl. destruct (isAllowed c); auto. }
  assert (Forall (λ c, isAllowed c = true) s2) as H2.
  { eapply prefix_Forall; [apply trimRight_prefix|]. destruct (trimLeft_suffix isSep s1) as [t Ht].
    rewrite Ht in H1. by apply Forall_app in H1 as [_ ?]. }
  assert (Forall (λ c, isAllowed c = true) s3) as H3.
  { apply replaceRuns_Forall; [done|right; constructor|]. intros c Hc. left. by apply (proj1 (Forall_forall _ _) H2). }
  assert (∀ c, head s3 = Some c → isSep c = false) as Hh.
  { assert (∀ c, head s2 = Some c → isSep c = false) as Hh2.
    { intros c Hc. eapply trimLeft_head, prefix_head; [apply trimRight_prefix|exact Hc]. }
    intros c. unfold s3. destruct s2 as [|d s2']; [done|]. simpl. rewrite (Hh2 d eq_refl). simpl. intros [= <-]. by apply Hh2. }
  assert (trimRight (λ c, bool_decide (c = dashChar)) s4 `prefix_of` s3) as Hpre.
  { etrans; [apply trimRight_prefix|apply shorten_prefix]. }
  split_and!.
  - by eapply prefix_Forall.
  - etrans; [apply prefix_length, trimRight_prefix|]. apply (shorten_length s3).
  - eapply prefix_spaced; [done|]. apply replaceRuns_spaced. lia.
  - intros c Hc. by eapply Hh, prefix_head.
  - intros c Hc. apply trimRight_last in Hc. by apply bool_decide_eq_false in Hc.
Qed.

Lemma lower_allowed c : isAllowed c = true → Str.lower_ascii c = c.
Proof.
  unfold isAllowed, isAlnum, isSep, Str.lower_ascii. intros Hc. rewrite decide_False; [done|]. intros [H65 H90].
  apply orb_true_iff in Hc as [Hc|Hc].
  - apply orb_true_iff in Hc as [Hc|Hc]; apply andb_true_iff in Hc as [?%Nat.leb_le ?%Nat.leb_le]; lia.
  - apply bool_decide_eq_true in Hc as [->| ->]; vm_compute in H65; lia.
Qed.

Lemma allowed_ascii c : isAllowed c = true → isAscii c.
Proof.
  unfold isAllowed, isAlnum, isSep, isAscii, byteOf. intros Hc. apply orb_true_iff in Hc as [Hc|Hc].
  - apply orb_true_iff in Hc as [Hc|Hc]; apply andb_true_iff in Hc as [?%Nat.leb_le ?%Nat.leb_le]; lia.
  - apply bool_decide_eq_true in Hc as [->| ->]; by vm_compute.
Qed.

(** Lower-casing keeps a compliant beginning. *)
Lemma lower_label_app s t : Forall (λ c, isAllowed c = true) s → lowered (s ++ t) = s ++ lowered t.
Proof.
  induction 1 as [|c s Hc _ IH]; [done|]. cbn [app]. rewrite lowered_ascii by (by apply allowed_ascii).
  by rewrite IH, lower_allowed.
Qed.

Lemma lower_label s : Forall (λ c, isAllowed c = true) s → lowered s = s.
Proof. intros Hs. rewrite <- (app_nil_r s) at 1. by rewrite lower_label_app, lowered_nil, app_nil_r. Qed.

Lemma allowed_kept s : Forall (λ c, isAllowed c = true) s → replaceRuns dashChar (λ c, negb (isAllowed c)) 1 [] s = s.
Proof. intros Hs. apply replaceRuns_none. eapply Forall_impl; [exact Hs|]. by intros c ->. Qed.

Lemma trimRight_id p s : (∀ c, last s = Some c → p c = false) → trimRight p s = s.
Proof. intros Hl. unfold trimRight. rewrite trimLeft_id, reverse_involutive; [done|]. intros c Hc. apply Hl. by rewrite <- head_reverse. Qed.

Lemma compliant_label s : label s → compliantBytes s = s.
Proof.
  intros [Ha Hs Hh Hl Hn]. unfold compliantBytes. rewrite lower_label, allowed_kept by done.
  rewrite (trimLeft_id isSep s), (trimRight_id isSep s) by done. rewrite replaceRuns_spaced_id by done.
  rewrite decide_False by lia. apply trimRight_id. intros c Hc. apply bool_decide_eq_false. intros ->. by apply Hl in Hc.
Qed.

Lemma replaceRuns_dash run s : ∃ t, replaceRuns dashChar isSep 2 (dashChar :: run) s = dashChar :: t.
Proof.
  assert (∀ run, ∃ t, flushRun dashChar 2 (dashChar :: run) = dashChar :: t) as Hf.
  { intros r. unfold flushRun. case_decide; eauto. }
  revert run. induction s as [|c s IH]; intros run; simpl; [apply Hf|]. destruct (isSep c); [apply (IH (run ++ [c]))|].
  destruct (Hf run) as [t ->]. eauto.
Qed.

Lemma trimRight_snoc p s c : p c = true → trimRight p (s ++ [c]) = trimRight p s.
Proof. intros Hc. unfold trimRight. rewrite reverse_app. simpl. by rewrite Hc. Qed.

(** What follows a name of 62 or 63 bytes is cut off. *)
Lemma cut_name name t :
  (∀ c, last name = Some c → c ≠ dashChar) → (62 ≤ length name ≤ maxNameLength)%nat →
  let s := name ++ dashChar :: t in
  trimRight (λ c, bool_decide (c = dashChar)) (if decide (maxNameLength < length s)%nat then take maxNameLength s else s) = name.
Proof.
  intros Hl Hn. cbv zeta. assert (trimRight (λ c, bool_decide (c = dashChar)) name = name) as Hid.
  { apply trimRight_id. intros c Hc. apply bool_decide_eq_false. auto. }
  assert (∀ s, s = name ∨ s = name ++ [dashChar] → trimRight (λ c, bool_decide (c = dashChar)) s = name) as Hcut.
  { intros s [-> | ->]; [done|]. by rewrite trimRight_snoc by (by apply bool_decide_eq_true). }
  apply Hcut. unfold maxNameLength in *. case_decide as Hd.
  - destruct (decide (length name = 63)%nat) as [E|E]; [left; rewrite <- E; apply take_app_length|].
    right. rewrite take_app_ge by lia. by replace (63 - length name)%nat with 1%nat by lia.
  - right. rewrite length_app in Hd. destruct t; [done|]. simpl in Hd. lia.
Qed.

(** Two names that differ only after 62 bytes become the same. *)
Lemma compliant_long name rest : label name → (62 ≤ length name)%nat → compliantBytes (name ++ dashChar :: rest) = name.
Proof.
  intros Hlab Hlen. pose proof Hlab as [Ha Hs Hh Hl Hn]. destruct name as [|c a _] using rev_ind; [simpl in *; lia|].
  assert (isSep c = false) as Hc by (apply Hl; by rewrite last_snoc).
  assert (negb (isAllowed c) = false) as Hc' by (apply Forall_app in Ha as [_ Ha]; inversion_clear Ha as [|? ? Hca _]; by rewrite Hca).
  unfold compliantBytes. rewrite (lower_label_app (a ++ [c])) by done. rewrite <- app_assoc. cbn [app].
  rewrite replaceRuns_app by (done || lia). rewrite allowed_kept by done.
  rewrite lowered_ascii by by vm_compute. change (Str.lower_ascii dashChar) with dashChar. cbn [replaceRuns]. change (negb (isAllowed dashChar)) with false.
  cbn [app]. rewrite flushRun_nil by lia. rewrite <- app_assoc. cbn [app]. set (r1 := replaceRuns dashChar _ 1 _ _).
  rewrite trimLeft_id by (intros d Hd; apply Hh; rewrite <- Hd; by destruct a).
  destruct (trimRight_app isSep a c (dashChar :: r1) Hc) as (b & -> & Hb).
  rewrite replaceRuns_app by (done || lia). rewrite replaceRuns_spaced_id by done.
  destruct b as [|d b].
  - cbn [replaceRuns]. rewrite flushRun_nil, app_nil_r, decide_False by lia. apply trimRight_id. intros d Hd. apply bool_decide_eq_false. intros ->. by apply Hl in Hd.
  - apply prefix_cons_inv_1 in Hb as ->. cbn [replaceRuns]. change (isSep dashChar) with true. cbv iota.
    destruct (replaceRuns_dash [] b) as [t Ht]. cbn [app]. rewrite Ht. apply (cut_name (a ++ [c])).
    + intros d Hd ->. by apply Hl in Hd.
    + lia.
Qed.

Lemma postfixes_app name postfix :
  postfix ≠ [] → ∃ rest, foldl (λ b p, b +:+ "-" +:+ p) name postfix = name +:+ String dashChar rest.
Proof.
  destruct postfix as [|p ps]; [done|]. intros _. simpl. assert (∀ ps r, ∃ rest,
    foldl (λ b p, b +:+ "-" +:+ p) (name +:+ String dashChar r) ps = name +:+ String dashChar rest) as Hgen.
  { clear. induction ps as [|p ps IH]; intros r; [by exists r|]. simpl.
    destruct (IH (r +:+ "-" +:+ p)) as [rest Hrest]. exists rest. rewrite <- Hrest. f_equal.
    clear. induction name as [|c name IH]; [done|]. rewrite !Text.app_cons. by f_equal. }
  apply (Hgen ps p).
Qed.

Lemma list_of_app a b : String.list_ascii_of_string (a +:+ b) = String.list_ascii_of_string a ++ String.list_ascii_of_string b.
Proof. induction a as [|c a IH]; [done|]. change (String c a +:+ b) with (String c (a +:+ b)). simpl. by rewrite IH. Qed.

(** The name of an owned object is the workload's name with the postfixes
    appended as long as the whole is a compliant name; but when the workload's own
    name is 62 or 63 bytes long the postfixes are cut off again, whatever they
    are, so that all objects of the workload get its own name. *)
Theorem FormatNameWithPostfix_spec name postfix :
  label (String.list_ascii_of_string name) → postfix ≠ [] →
  let built := foldl (λ b p, b +:+ "-" +:+ p) name postfix in
  (label (String.list_ascii_of_string built) → FormatNameWithPostfix name postfix = built) ∧
  ((62 ≤ length (String.list_ascii_of_string name))%nat → FormatNameWithPostfix name postfix = name).
Proof.
  intros Hn Hp. cbv zeta. unfold FormatNameWithPostfix, MakeRFC1123Compliant. split.
  - intros Hb. rewrite compliant_label by done. apply String.string_of_list_ascii_of_string.
  - intros Hlen. destruct (postfixes_app name postfix Hp) as [rest ->]. rewrite list_of_app. simpl.
    rewrite compliant_long by done. apply String.string_of_list_ascii_of_string.
Qed.
