(* ===== verification/DerivedNames.v ===== *)
(** Names derived from other names and from hashes of values, and label values
    (internal/controller/utils/naming.go, and its copy pkg/utils/naming.go, which
    differs in the function that makes the parts compliant). *)

From stdpp Require Import strings list sorting.
From Stdlib Require Import ZArith Lia.
From Equations Require Import Equations.
From S2P Require Import Prelude Types Ordering Runes Naming.

(** * Values and their hash *)

(** A Go value, as far as the hash looks at it. The entries of a map are listed in the
    order in which ranging over it happens to give them. *)
#[warnings="-register-all"]
Inductive Value :=
| VNil
| VString (s : string)
| VStrings (entries : list (string * string))
| VMap (entries : list (string * Value))
| VSlice (l : list Value)
| VOther (j : Json).

(** Equality of values: the order in which maps are ranged over does not matter. *)
#[warnings="-register-all"]
Inductive same_value : Value → Value → Prop :=
| same_nil : same_value VNil VNil
| same_string s : same_value (VString s) (VString s)
| same_strings m m' : NoDup m.*1 → m ≡ₚ m' → same_value (VStrings m) (VStrings m')
| same_map m n m' : NoDup m.*1 → Forall2 (λ x y, x.1 = y.1 ∧ same_value x.2 y.2) m n → n ≡ₚ m' → same_value (VMap m) (VMap m')
| same_slice l l' : Forall2 same_value l l' → same_value (VSlice l) (VSlice l')
| same_other j : same_value (VOther j) (VOther j).

(** What the code uses of encoding/json, fmt and crypto/sha256: [fmt] prints maps in the
    order of their keys, and a sum has 32 bytes. *)
Class Encoding := {
  Marshal : Value → option string;
  Sprint : Value → string;
  Sum256 : string → list Z;
  Sprint_same v v' : same_value v v' → Sprint v = Sprint v';
  Sum256_length s : length (Sum256 s) = 32%nat;
  Sum256_bytes s : Forall (λ b, 0 ≤ b < 256) (Sum256 s)
}.

(** [m[k]], nil for a key that is not there. *)
Definition entryOf (m : list (string * Value)) (k : string) : Value :=
  match List.find (λ e, bool_decide (e.1 = k)) m with Some e => e.2 | None => VNil end.

Section hash.
Context `{GoOrder} `{Encoding}.

(** The values of the entries have been normalised already. *)
Definition normalizeDeterministicMap (m : list (string * Value)) : Value :=
  let keys := sortSlice Str.lt m.*1 in
  VSlice (concat ((λ k, [VString k; entryOf m k]) <$> keys)).

Fixpoint normalizeDeterministic (v : Value) : Value :=
  match v with
  | VNil => VNil
  | VStrings m => normalizeDeterministicMap (prod_map id VString <$> m)
  | VMap m => normalizeDeterministicMap (prod_map id normalizeDeterministic <$> m)
  | VSlice l => VSlice (normalizeDeterministic <$> l)
  | VString _ | VOther _ => v
  end.

Definition normalizeToJSON (v : Value) : string :=
  match v with
  | VNil => "null"
  | _ => match Marshal (normalizeDeterministic v) with Some jsonBytes => jsonBytes | None => Sprint v end
  end.

(** [%x] of bytes. *)
Definition hexDigit (n : Z) : Ascii.ascii := Ascii.ascii_of_nat (Z.to_nat (if decide (n < 10) then 48 + n else 87 + n)).
Definition hexOf (l : list Z) : list Ascii.ascii := concat ((λ b, [hexDigit (b / 16); hexDigit (b mod 16)]) <$> l).

Definition computeHash (inputs : list Value) : list Ascii.ascii :=
  hexOf (Sum256 (Str.Join (normalizeToJSON <$> inputs) "|")).

End hash.

(** * Names *)

Abbreviation bytes := (list Ascii.ascii).
Definition len (s : bytes) : Z := Z.of_nat (length s).
Definition bytesOf (s : string) : bytes := String.list_ascii_of_string s.
Definition stringOf (s : bytes) : string := String.string_of_list_ascii s.

Definition MaxKubernetesNameLength : Z := 63.
Definition DefaultHashLength : Z := 8.

Definition isDash (c : Ascii.ascii) : bool := bool_decide (c = dashChar).

(** The class [[a-z0-9-]]. *)
Definition isNameChar (c : Ascii.ascii) : bool := isAlnum c || isDash c.

(** [MakeRFC1123Compliant] of internal/controller/utils/naming.go, where the expression
    matches single runes. *)
Definition controllerCompliant (s : string) : string :=
  let s := lowered (bytesOf s) in
  let s := (λ c, if isNameChar c then c else dashChar) <$> s in
  let s := trimRight isDash (trimLeft isDash s) in
  let s := if decide (63 < length s)%nat then take 63 s else s in
  stringOf (trimRight isDash s).

(** [calculateLength], with the suffix it captures. *)
Definition calculateLength (hashSuffix : bytes) (parts : list bytes) : Z :=
  let total := foldl (λ total part, total + (len part + 1)) 0 parts in
  if decide (hashSuffix ≠ []) then total + len hashSuffix else total - 1.

(** The first of the longest parts, and its length. *)
Fixpoint longestFrom (i longestIdx longestLen : nat) (parts : list bytes) : nat * nat :=
  match parts with
  | [] => (longestIdx, longestLen)
  | p :: parts' =>
      if decide (longestLen < length p)%nat then longestFrom (S i) i (length p) parts'
      else longestFrom (S i) longestIdx longestLen parts'
  end.

Definition longest (parts : list bytes) : nat * nat :=
  match parts with [] => (0, 0)%nat | p :: parts' => longestFrom 1 0 (length p) parts' end.

Definition cutPart (n : nat) (part : bytes) : bytes := trimRight isDash (take (n - 1) part).

Definition cutLongest (parts : list bytes) : list bytes :=
  alter (cutPart (longest parts).2) (longest parts).1 parts.

Lemma longestFrom_spec i idx n parts before :
  length before = i → (∃ p, before !! idx = Some p ∧ length p = n) → Forall (λ q, (length q ≤ n)%nat) before →
  ∃ p, (before ++ parts) !! (longestFrom i idx n parts).1 = Some p ∧ length p = (longestFrom i idx n parts).2 ∧
    Forall (λ q, (length q ≤ length p)%nat) (before ++ parts).
Proof.
  revert i idx n before. induction parts as [|q parts IH]; intros i idx n before Hi (p & Hp & <-) Hb.
  - exists p. rewrite app_nil_r. by split_and!.
  - cbn [longestFrom]. replace (before ++ q :: parts) with ((before ++ [q]) ++ parts) by (by rewrite <- app_assoc).
    case_decide as Hlt; apply IH.
    + rewrite length_app. simpl. lia.
    + exists q. split; [|done]. rewrite <- Hi. by apply list_lookup_middle.
    + apply Forall_app. split; [|by repeat constructor]. eapply Forall_impl; [exact Hb|]. intros x Hx. simpl in *. lia.
    + rewrite length_app. simpl. lia.
    + exists p. split; [|done]. by apply lookup_app_l_Some.
    + apply Forall_app. split; [done|]. repeat constructor. lia.
Qed.

Lemma longest_spec parts :
  parts ≠ [] → ∃ p, parts !! (longest parts).1 = Some p ∧ length p = (longest parts).2 ∧ Forall (λ q, (length q ≤ length p)%nat) parts.
Proof.
  destruct parts as [|p parts]; [done|]. intros _. unfold longest.
  apply (longestFrom_spec 1 0 (length p) parts [p]); [done|by exists p|by repeat constructor].
Qed.

Lemma cutPart_length n part : (1 < n)%nat → length part = n → (length (cutPart n part) < length part)%nat.
Proof.
  intros Hn Hp. unfold cutPart. pose proof (prefix_length _ _ (trimRight_prefix isDash (take (n - 1) part))) as Hl.
  rewrite length_take in Hl. lia.
Qed.

Lemma alter_total f (parts : list bytes) i p :
  parts !! i = Some p → (length (f p) < length p)%nat → (sum_list_with length (alter f i parts) < sum_list_with length parts)%nat.
Proof.
  revert i. induction parts as [|q parts IH]; intros i Hi Hf; [done|]. destruct i as [|i]; simpl in *.
  - injection Hi as ->. lia.
  - specialize (IH i Hi Hf). unfold alter in IH. lia.
Qed.

Lemma cutLongest_total parts :
  (1 < (longest parts).2)%nat → (sum_list_with length (cutLongest parts) < sum_list_with length parts)%nat.
Proof.
  intros Hl. destruct (longest_spec parts) as (p & Hp & Hlen & _); [by intros ->; simpl in Hl; lia|].
  eapply alter_total; [done|]. by apply cutPart_length.
Qed.

(** The longest part is cut until the name fits, or until all parts are down to one
    byte. *)
Equations? shortenParts (hashSuffix : bytes) (parts : list bytes) : list bytes by wf (sum_list_with length parts) lt :=
  shortenParts hashSuffix parts with decide (MaxKubernetesNameLength < calculateLength hashSuffix parts) => {
    | right _ := parts
    | left _ with decide (1 < (longest parts).2)%nat => {
        | left _ := shortenParts hashSuffix (cutLongest parts)
        | right _ := parts } }.
Proof. by apply cutLongest_total. Qed.

(** [strings.Join(parts, "-")]. *)
Fixpoint joinDash (parts : list bytes) : bytes :=
  match parts with
  | [] => []
  | [p] => p
  | p :: parts' => p ++ dashChar :: joinDash parts'
  end.

Definition withSuffix (hashSuffix name : bytes) : bytes :=
  if decide (hashSuffix ≠ []) then name ++ dashChar :: hashSuffix else name.

Section derive.
Context `{GoOrder} `{Encoding}.

(** [MakeRFC1123Compliant] of the package. *)
Context (compliant : string → string).

Definition partOf (part : string) : bytes :=
  let sanitized := bytesOf (compliant part) in
  if decide (sanitized = []) then bytesOf "part" else sanitized.

(** The slice [hash[:hashLength]] is out of range beyond the length of the hash. *)
Definition GenerateDerivedNameWithHashLength (nameParts : list string) (hashLength : Z) (hashInputs : list Value) : outcome string :=
  if decide (nameParts = []) then Err (Errorf "nameParts cannot be empty")
  else
    let derive hashSuffix :=
      Ok (stringOf (withSuffix hashSuffix (joinDash (shortenParts hashSuffix (partOf <$> nameParts))))) in
    if decide (0 < hashLength ∧ hashInputs ≠ []) then
      let hash := computeHash hashInputs in
      if decide (hashLength ≤ len hash) then derive (take (Z.to_nat hashLength) hash) else Panics
    else derive [].

Definition GenerateDerivedName (nameParts : list string) (hashInputs : list Value) : outcome string :=
  if decide (hashInputs = []) then GenerateDerivedNameWithHashLength nameParts 0 hashInputs
  else GenerateDerivedNameWithHashLength nameParts DefaultHashLength hashInputs.

End derive.

Section copies.
Context `{GoOrder} `{Encoding}.

(** The two copies. *)
Definition controllerDerivedName : list string → list Value → outcome string := GenerateDerivedName controllerCompliant.
Definition baseDerivedName : list string → list Value → outcome string := GenerateDerivedName MakeRFC1123Compliant.

End copies.

(** * Properties *)

(** ** Hashes *)

Definition isHex (c : Ascii.ascii) : Prop := ∃ n, 0 ≤ n < 16 ∧ c = hexDigit n.

Lemma small_digits (P : Z → Prop) : Forall P (seqZ 0 16) → ∀ n, 0 ≤ n < 16 → P n.
Proof. intros HP n Hn. rewrite Forall_forall in HP. apply HP. apply elem_of_seqZ. lia. Qed.

Lemma isHex_name c : isHex c → isNameChar c = true ∧ c ≠ dashChar.
Proof. intros (n & Hn & ->). revert n Hn. apply small_digits. repeat (constructor; [by vm_compute|]). constructor. Qed.

Lemma hexOf_length l : length (hexOf l) = (2 * length l)%nat.
Proof. unfold hexOf. induction l as [|b l IH]; [done|]. rewrite fmap_cons. simpl in *. lia. Qed.

Lemma hexOf_hex l : Forall (λ b, 0 ≤ b < 256) l → Forall isHex (hexOf l).
Proof.
  unfold hexOf. induction 1 as [|b l Hb _ IH]; [constructor|]. rewrite fmap_cons. simpl.
  repeat constructor; [| |done]; eexists; (split; [|done]); [|apply Z.mod_pos_bound; lia].
  split; [apply Z.div_pos; lia|]. apply Z.div_lt_upper_bound; lia.
Qed.

Section hash_theory.
Context `{GoOrder} `{Encoding}.

Lemma computeHash_length inputs : len (computeHash inputs) = 64.
Proof. unfold len, computeHash. by rewrite hexOf_length, Sum256_length. Qed.

Lemma computeHash_hex inputs : Forall isHex (computeHash inputs).
Proof. apply hexOf_hex, Sum256_bytes. Qed.

(** Induction over values, with the hypothesis for the values inside. *)
Lemma value_ind (P : Value → Prop) :
  P VNil → (∀ s, P (VString s)) → (∀ m, P (VStrings m)) → (∀ m, Forall (λ e, P e.2) m → P (VMap m)) →
  (∀ l, Forall P l → P (VSlice l)) → (∀ j, P (VOther j)) → ∀ v, P v.
Proof.
  intros Hn Hs Hss Hm Hl Ho. fix IH 1. intros [|s|m|m|l|j]; [apply Hn|apply Hs|apply Hss| | |apply Ho].
  - apply Hm. induction m as [|[k v] m IHm]; constructor; [apply IH|exact IHm].
  - apply Hl. induction l as [|v l IHl]; constructor; [apply IH|exact IHl].
Qed.

Lemma entryOf_in m k v : NoDup m.*1 → (k, v) ∈ m → entryOf m k = v.
Proof.
  unfold entryOf. induction m as [|[k' v'] m IH]; [intros _ []%elem_of_nil|]. cbn [fmap list_fmap fst].
  rewrite NoDup_cons, elem_of_cons. intros [Hn Hd] [[= -> ->]|Hin]; cbn [List.find fst].
  - by rewrite bool_decide_eq_true_2.
  - rewrite bool_decide_eq_false_2; [by apply IH|]. intros ->. apply Hn. apply list_elem_of_fmap. by exists (k, v).
Qed.

(** A map normalises the same however it is ranged over. *)
Lemma normalizeDeterministicMap_perm m m' :
  NoDup m.*1 → m ≡ₚ m' → normalizeDeterministicMap m = normalizeDeterministicMap m'.
Proof.
  intros Hd Hp. assert (m.*1 ≡ₚ m'.*1) as Hk by (by rewrite Hp). unfold normalizeDeterministicMap.
  rewrite (sortStrings_canonical _ _ Hk). do 2 f_equal. apply list_fmap_ext. intros i k Hi. do 2 f_equal.
  assert (k ∈ m'.*1) as Hin by (rewrite <- (sortSlice_perm Str.lt); by eapply list_elem_of_lookup_2).
  apply list_elem_of_fmap in Hin as ([k' v] & -> & Hin). cbn [fst].
  rewrite (entryOf_in m' k' v), (entryOf_in m k' v); [done..|by rewrite Hp|by rewrite <- Hk|done].
Qed.

Lemma fst_prod_map {A B} (f : A → B) (m : list (string * A)) : (prod_map id f <$> m).*1 = m.*1.
Proof. induction m as [|[k v] m IH]; [done|]. rewrite !fmap_cons. by f_equal. Qed.

Lemma normalizeDeterministic_same v : ∀ v', same_value v v' → normalizeDeterministic v = normalizeDeterministic v'.
Proof.
  induction v as [|s|m|m IH|l IH|j] using value_ind; intros v' Hv; inversion Hv as [| |? m' Hd Hp|? n m' Hd Hf Hp|? l' Hf|]; subst; try done; cbn [normalizeDeterministic].
  - apply normalizeDeterministicMap_perm; [by rewrite fst_prod_map|]. by rewrite Hp.
  - transitivity (normalizeDeterministicMap (prod_map id normalizeDeterministic <$> n)).
    + apply (f_equal normalizeDeterministicMap). clear Hp Hd Hv. induction Hf as [|[k x] [k' y] m n [Hk Hs] _ IHf]; [done|].
      inversion_clear IH as [|? ? Hx Hm]. rewrite !fmap_cons. cbn in *. rewrite Hk, (Hx y Hs). f_equal. by apply IHf.
    + apply normalizeDeterministicMap_perm; [|by rewrite Hp]. rewrite fst_prod_map. replace n.*1 with m.*1; [done|].
      clear -Hf. induction Hf as [|x y m n [Hk _] _ IHf]; [done|]. rewrite !fmap_cons. by f_equal.
  - apply (f_equal VSlice). clear Hv. induction Hf as [|x y l l' Hs _ IHf]; [done|]. inversion_clear IH as [|? ? Hx Hl].
    rewrite !fmap_cons. f_equal; [by apply Hx|by apply IHf].
Qed.

Lemma normalizeToJSON_same v v' : same_value v v' → normalizeToJSON v = normalizeToJSON v'.
Proof.
  intros Hv. unfold normalizeToJSON. rewrite (normalizeDeterministic_same v v' Hv), (Sprint_same v v' Hv). by destruct Hv.
Qed.

Lemma computeHash_same inputs inputs' : Forall2 same_value inputs inputs' → computeHash inputs = computeHash inputs'.
Proof.
  intros Hs. unfold computeHash. do 3 f_equal. induction Hs as [|v v' l l' Hv _ IH]; [done|].
  rewrite !fmap_cons. f_equal; [by apply normalizeToJSON_same|done].
Qed.

End hash_theory.

(** ** Parts *)

(** A part of a name, and a name. *)
Record tidyPart (p : bytes) : Prop := {
  tidy_nonempty : p ≠ [];
  tidy_chars : Forall (λ c, isNameChar c = true) p;
  tidy_head c : head p = Some c → c ≠ dashChar;
  tidy_last c : last p = Some c → c ≠ dashChar
}.

(** What the derivation asks of [MakeRFC1123Compliant]. *)
Class Compliant (compliant : string → string) : Prop :=
  compliant_tidy s : bytesOf (compliant s) ≠ [] → tidyPart (bytesOf (compliant s)).

Lemma bytes_string s : bytesOf (stringOf s) = s.
Proof. apply String.list_ascii_of_string_of_list_ascii. Qed.

Lemma isDash_false c : isDash c = false ↔ c ≠ dashChar.
Proof. apply bool_decide_eq_false. Qed.

(** What is left of a beginning once the dashes at its end are gone. *)
Lemma trimmed_prefix p q :
  q `prefix_of` p → Forall (λ c, isNameChar c = true) p → (∀ c, head p = Some c → c ≠ dashChar) →
  trimRight isDash q ≠ [] → tidyPart (trimRight isDash q).
Proof.
  intros Hpre Hc Hh Hne. assert (trimRight isDash q `prefix_of` p) as Hp by (etrans; [apply trimRight_prefix|done]).
  split; [done|by eapply prefix_Forall|..].
  - intros c Hc'. apply Hh. by eapply prefix_head.
  - intros c Hc'. apply trimRight_last in Hc'. by apply isDash_false.
Qed.

#[export] Instance controllerCompliant_tidy : Compliant controllerCompliant.
Proof.
  intros s. unfold controllerCompliant. rewrite bytes_string. set (t := _ <$> lowered (bytesOf s)).
  assert (Forall (λ c, isNameChar c = true) t) as Ht.
  { apply Forall_fmap, Forall_forall. intros c _. simpl. by destruct (isNameChar c) eqn:E. }
  intros Hne. eapply (trimmed_prefix (trimLeft isDash t)); [| | |exact Hne].
  - case_decide; [etrans; [apply prefix_take|]|]; apply trimRight_prefix.
  - destruct (trimLeft_suffix isDash t) as [u Hu]. rewrite Hu in Ht. by apply Forall_app in Ht as [_ ?].
  - intros c Hc. apply trimLeft_head in Hc. by apply isDash_false.
Qed.

Lemma partOf_tidy compliant `{!Compliant compliant} part : tidyPart (partOf compliant part).
Proof.
  unfold partOf. case_decide as E; [|by apply compliant_tidy].
  split; [done|repeat (constructor; [by vm_compute|]); constructor|by intros c [= <-]|by intros c [= <-]].
Qed.

Lemma trimRight_head p c s : p c = false → trimRight p (c :: s) ≠ [].
Proof. intros Hc. destruct (trimRight_app p [] c s Hc) as (b & Hb & _). cbn [app] in Hb. by rewrite Hb. Qed.

Lemma cutPart_tidy n part : (1 < n)%nat → length part = n → tidyPart part → tidyPart (cutPart n part) ∧ cutPart n part `prefix_of` part.
Proof.
  intros Hn Hl [Hne Hc Hh _]. assert (take (n - 1) part `prefix_of` part) as Hp by apply prefix_take.
  split; [|etrans; [apply trimRight_prefix|done]]. eapply trimmed_prefix; [done..|].
  destruct part as [|c part]; [done|]. destruct n as [|[|n]]; [lia..|]. cbn. apply trimRight_head, isDash_false. by apply Hh.
Qed.

(** ** Shortening *)

Lemma prefixes_refl (l : list bytes) : Forall2 (λ p c, c `prefix_of` p) l l.
Proof. induction l; by constructor. Qed.

Lemma prefixes_trans (l l' l'' : list bytes) :
  Forall2 (λ p c, c `prefix_of` p) l l' → Forall2 (λ p c, c `prefix_of` p) l' l'' → Forall2 (λ p c, c `prefix_of` p) l l''.
Proof.
  intros Hl. revert l''. induction Hl as [|x y l l' Hxy _ IH]; intros l'' Hl'; inversion_clear Hl' as [|? z ? ? Hyz Hr]; constructor.
  - by etrans.
  - by apply IH.
Qed.

Lemma alter_tidy f parts i p :
  parts !! i = Some p → tidyPart (f p) → f p `prefix_of` p → Forall tidyPart parts →
  Forall2 (λ p c, c `prefix_of` p) parts (alter f i parts) ∧ Forall tidyPart (alter f i parts).
Proof.
  intros Hi Hf Hpre Ht. revert i Hi. induction Ht as [|q parts Hq Ht IH]; intros i Hi; [done|]. destruct i as [|i].
  - injection Hi as ->. split; constructor; try done. apply prefixes_refl.
  - destruct (IH i Hi). split; by constructor.
Qed.

Lemma cutLongest_tidy parts :
  (1 < (longest parts).2)%nat → Forall tidyPart parts →
  Forall2 (λ p c, c `prefix_of` p) parts (cutLongest parts) ∧ Forall tidyPart (cutLongest parts).
Proof.
  intros Hl Ht. destruct (longest_spec parts) as (p & Hp & Hlen & _); [by intros ->; simpl in Hl; lia|].
  destruct (cutPart_tidy _ p Hl Hlen) as [Htp Hpre]; [by eapply Forall_lookup_1|]. by eapply alter_tidy.
Qed.

Lemma shortenParts_tidy hashSuffix parts :
  Forall tidyPart parts →
  Forall2 (λ p c, c `prefix_of` p) parts (shortenParts hashSuffix parts) ∧ Forall tidyPart (shortenParts hashSuffix parts).
Proof.
  funelim (shortenParts hashSuffix parts); intros Ht.
  - split; [apply prefixes_refl|done].
  - destruct (cutLongest_tidy parts l0 Ht) as [Hc Htc]. destruct (H Htc) as [Hr Htr]. split; [|done]. by eapply prefixes_trans.
  - split; [apply prefixes_refl|done].
Qed.

Lemma shortenParts_end hashSuffix parts :
  parts ≠ [] →
  calculateLength hashSuffix (shortenParts hashSuffix parts) ≤ MaxKubernetesNameLength ∨
  Forall (λ c, (length c ≤ 1)%nat) (shortenParts hashSuffix parts).
Proof.
  funelim (shortenParts hashSuffix parts); intros Hne.
  - left. lia.
  - apply H. intros E. apply Hne. apply (f_equal length) in E. unfold cutLongest in E. rewrite length_alter in E.
    by destruct parts.
  - right. destruct (longest_spec parts Hne) as (p & _ & Hp & Hall). eapply Forall_impl; [exact Hall|]. intros q Hq. simpl in *. lia.
Qed.

Lemma shortenParts_fits hashSuffix parts :
  calculateLength hashSuffix parts ≤ MaxKubernetesNameLength → shortenParts hashSuffix parts = parts.
Proof. funelim (shortenParts hashSuffix parts); intros Hl; [done|lia|done]. Qed.

(** What the loop measures is the length of the name. *)
Lemma calculateLength_spec hashSuffix parts :
  parts ≠ [] → calculateLength hashSuffix parts = len (withSuffix hashSuffix (joinDash parts)).
Proof.
  intros Hne. assert (∀ z, foldl (λ total part, total + (len part + 1)) z parts = z + len (joinDash parts) + 1) as Hsum.
  { clear hashSuffix. induction parts as [|p parts IH]; [done|]. intros z. cbn [foldl]. destruct parts as [|q parts]; [cbn; lia|].
    rewrite IH by done. change (joinDash (p :: q :: parts)) with (p ++ dashChar :: joinDash (q :: parts)). unfold len.
    rewrite length_app. cbn [length]. lia. }
  unfold calculateLength, withSuffix. rewrite Hsum. case_decide; [|lia]. unfold len. rewrite length_app. cbn [length]. lia.
Qed.

Lemma joinDash_tidy parts : parts ≠ [] → Forall tidyPart parts → tidyPart (joinDash parts).
Proof.
  intros Hne Ht. induction Ht as [|p parts Hp Ht IH]; [done|]. destruct parts as [|q parts]; [done|].
  destruct (IH ltac:(done)) as [Hn Hc Hh Hl]. change (joinDash (p :: q :: parts)) with (p ++ dashChar :: joinDash (q :: parts)).
  destruct Hp as [Hpn Hpc Hph Hpl]. split.
  - by destruct p.
  - apply Forall_app. split; [done|]. by constructor.
  - intros c Hc'. apply Hph. by destruct p.
  - intros c. rewrite last_app_cons, last_cons. destruct (last (joinDash (q :: parts))) eqn:E; [by intros [= <-]; apply Hl|].
    by apply last_None in E.
Qed.

Lemma withSuffix_tidy hashSuffix name : Forall isHex hashSuffix → tidyPart name → tidyPart (withSuffix hashSuffix name).
Proof.
  intros Hx Hn. unfold withSuffix. case_decide as Hd; [|done].
  apply (joinDash_tidy [name; hashSuffix]); [done|]. constructor; [done|]. constructor; [|constructor]. split; [done| | |].
  - eapply Forall_impl; [exact Hx|]. intros c Hc. by apply isHex_name.
  - intros c Hc. apply isHex_name. rewrite Forall_forall in Hx. apply Hx. by apply head_Some_elem_of.
  - intros c Hc. apply isHex_name. rewrite Forall_forall in Hx. apply Hx. by apply last_Some_elem_of.
Qed.

(** ** The names *)

Section derive_theory.
Context `{GoOrder} `{Encoding}.

(** The name for a hash suffix. *)
Lemma derive_spec compliant `{!Compliant compliant} nameParts hashSuffix :
  nameParts ≠ [] → Forall isHex hashSuffix →
  let parts := partOf compliant <$> nameParts in
  let cut := shortenParts hashSuffix parts in
  let name := withSuffix hashSuffix (joinDash cut) in
  tidyPart name ∧ Forall2 (λ p c, c ≠ [] ∧ c `prefix_of` p) parts cut ∧
  (len (withSuffix hashSuffix (joinDash parts)) ≤ 63 → cut = parts) ∧
  (len name ≤ 63 ∨ Forall (λ c, length c = 1%nat) cut).
Proof.
  intros Hne Hx. cbv zeta. set (parts := partOf compliant <$> nameParts).
  assert (parts ≠ []) as Hp by (by destruct nameParts).
  assert (Forall tidyPart parts) as Ht by (apply Forall_fmap, Forall_forall; intros p _; by apply partOf_tidy).
  destruct (shortenParts_tidy hashSuffix parts Ht) as [Hcut Htc].
  assert (shortenParts hashSuffix parts ≠ []) as Hc.
  { intros E. rewrite E in Hcut. by inversion Hcut. }
  split_and!.
  - by apply withSuffix_tidy, joinDash_tidy.
  - clear -Hcut Htc. induction Hcut as [|p c ps cs Hpc _ IH]; inversion_clear Htc as [|? ? Hc Hcs]; constructor; [|by apply IH].
    split; [by destruct Hc|done].
  - rewrite <- calculateLength_spec by done. apply shortenParts_fits.
  - rewrite <- calculateLength_spec by done. destruct (shortenParts_end hashSuffix parts Hp) as [Hl|Hl]; [by left|right].
    apply Forall_forall. intros c Hin. rewrite Forall_forall in Hl, Htc. specialize (Hl c Hin). destruct (Htc c Hin) as [Hcn _ _ _].
    destruct c; [done|]. simpl in *. lia.
Qed.

(** C25: deriving a name, with any function for the parts that keeps to lower-case
    letters, digits and inner dashes. Without parts it fails, and a hash length beyond
    the 64 digits of the hash is out of range. Otherwise the name is the parts, in
    order and none of them empty, and then the first digits of the hash of the inputs
    if there are any, all separated by dashes: a string of lower-case letters, digits
    and inner dashes. Every part is the beginning of what it was; if the whole fits
    into 63 bytes no part is cut, and otherwise the name is cut to 63 bytes, except
    when a single byte of every part is too much already. *)
Theorem GenerateDerivedName_spec compliant `{!Compliant compliant} nameParts hashLength hashInputs :
  GenerateDerivedNameWithHashLength compliant [] hashLength hashInputs = Err (Errorf "nameParts cannot be empty") ∧
  (nameParts ≠ [] →
   (hashInputs ≠ [] → 64 < hashLength → GenerateDerivedNameWithHashLength compliant nameParts hashLength hashInputs = Panics) ∧
   (hashLength ≤ 64 → ∃ cut hashSuffix,
      let name := withSuffix hashSuffix (joinDash cut) in
      let parts := partOf compliant <$> nameParts in
      GenerateDerivedNameWithHashLength compliant nameParts hashLength hashInputs = Ok (stringOf name) ∧
      hashSuffix = (if decide (hashInputs ≠ []) then take (Z.to_nat hashLength) (computeHash hashInputs) else []) ∧
      tidyPart name ∧ Forall2 (λ p c, c ≠ [] ∧ c `prefix_of` p) parts cut ∧
      (len (withSuffix hashSuffix (joinDash parts)) ≤ 63 → cut = parts) ∧
      (len name ≤ 63 ∨ Forall (λ c, length c = 1%nat) cut))).
Proof.
  split; [done|]. intros Hne. unfold GenerateDerivedNameWithHashLength. rewrite !(decide_False (P := nameParts = [])) by done.
  pose proof (computeHash_length hashInputs) as Hlen. split.
  - intros Hi Hl. rewrite decide_True by (split; [lia|done]). by rewrite decide_False by lia.
  - intros Hl. set (hashSuffix := if decide (hashInputs ≠ []) then take (Z.to_nat hashLength) (computeHash hashInputs) else []).
    exists (shortenParts hashSuffix (partOf compliant <$> nameParts)), hashSuffix. cbv zeta.
    split; [|split; [done|]].
    + unfold hashSuffix. destruct (decide (hashInputs ≠ [])) as [Hi|Hi].
      * destruct (decide (0 < hashLength)) as [Hp|Hp].
        -- rewrite decide_True by done. by rewrite decide_True by lia.
        -- rewrite decide_False by (by intros [? _]). by replace (Z.to_nat hashLength) with 0%nat by lia.
      * by rewrite decide_False by (by intros [_ ?]).
    + apply (derive_spec compliant); [done|]. unfold hashSuffix. case_decide; [|constructor]. eapply prefix_Forall; [apply prefix_take|apply computeHash_hex].
Qed.

(** The name depends on the values of the hash inputs only: maps inside them may be
    ranged over in any order. *)
Theorem GenerateDerivedName_deterministic compliant nameParts hashInputs hashInputs' :
  Forall2 same_value hashInputs hashInputs' →
  GenerateDerivedName compliant nameParts hashInputs = GenerateDerivedName compliant nameParts hashInputs'.
Proof.
  intros Hs. unfold GenerateDerivedName, GenerateDerivedNameWithHashLength. rewrite (computeHash_same _ _ Hs).
  by destruct Hs.
Qed.

(** A map hashes like the slice of its keys and values, so that two inputs which differ
    have the same name. *)
Theorem map_hashes_like_slice compliant nameParts k v json :
  Marshal (VSlice [VString k; VString v]) = Some json →
  GenerateDerivedName compliant nameParts [VStrings [(k, v)]] = GenerateDerivedName compliant nameParts [VSlice [VString k; VString v]].
Proof.
  intros Hm. unfold GenerateDerivedName, GenerateDerivedNameWithHashLength.
  assert (normalizeDeterministic (VStrings [(k, v)]) = VSlice [VString k; VString v]) as E.
  { cbn [normalizeDeterministic]. unfold normalizeDeterministicMap. cbn [fmap list_fmap prod_map fst].
    rewrite (proj1 (Permutation_singleton_r _ k) (sortSlice_perm _ [k])). cbn. unfold entryOf. cbn.
    by rewrite bool_decide_eq_true_2. }
  assert (computeHash [VStrings [(k, v)]] = computeHash [VSlice [VString k; VString v]]) as ->; [|done].
  unfold computeHash. cbn [fmap list_fmap]. unfold normalizeToJSON. rewrite E. cbn [normalizeDeterministic fmap list_fmap]. by rewrite Hm.
Qed.

(** With the function of pkg/utils a part may end in a dot once it is cut, and the
    name, with a dot before a dash, is no valid name for an object. *)
Theorem baseDerivedName_dot :
  let part := stringOf (repeat (Ascii.ascii_of_nat 97) 60 ++ bytesOf ".bb") in
  MakeRFC1123Compliant part = part ∧
  baseDerivedName [part; "c"] [] = Ok (stringOf (repeat (Ascii.ascii_of_nat 97) 60 ++ bytesOf ".-c")).
Proof. split; by vm_compute. Qed.

End derive_theory.
