(* ===== verification/ImageNames.v ===== *)
(** Label values and the parts of image references
    (internal/controller/utils/naming.go, pkg/utils/naming.go). *)

From stdpp Require Import strings list.
From Stdlib Require Import ZArith Lia.
From S2P Require Import Prelude Runes Naming DerivedNames.

(** * Bytes *)

Definition slash : Ascii.ascii := Ascii.ascii_of_nat 47.
Definition colon : Ascii.ascii := Ascii.ascii_of_nat 58.
Definition atSign : Ascii.ascii := Ascii.ascii_of_nat 64.
Definition underscore : Ascii.ascii := Ascii.ascii_of_nat 95.

(** [strings.Index] and [strings.Contains] of a byte. *)
Fixpoint Index (s : bytes) (sep : Ascii.ascii) : Z :=
  match s with
  | [] => -1
  | c :: s' => if decide (c = sep) then 0 else let i := Index s' sep in if decide (i < 0) then i else i + 1
  end.

Definition Contains (s : bytes) (sep : Ascii.ascii) : bool := bool_decide (0 ≤ Index s sep).

(** [strings.Split], [strings.SplitN] into two at most, and [strings.Join]. *)
Fixpoint Split (s : bytes) (sep : Ascii.ascii) : list bytes :=
  match s with
  | [] => [[]]
  | c :: s' =>
      if decide (c = sep) then [] :: Split s' sep
      else match Split s' sep with [] => [[c]] | w :: ws => (c :: w) :: ws end
  end.

Definition SplitN2 (s : bytes) (sep : Ascii.ascii) : list bytes :=
  if Contains s sep then let i := Z.to_nat (Index s sep) in [take i s; drop (i + 1) s] else [s].

Fixpoint joinWith (sep : Ascii.ascii) (parts : list bytes) : bytes :=
  match parts with
  | [] => []
  | [p] => p
  | p :: parts' => p ++ sep :: joinWith sep parts'
  end.

(** * Label values *)

Definition MaxKubernetesLabelLength : nat := 63.

(** The classes [[a-z0-9._-]] and ["_.-"]. *)
Definition isLabelEdge (c : Ascii.ascii) : bool := isSep c || bool_decide (c = underscore).
Definition isLabelChar (c : Ascii.ascii) : bool := isAlnum c || isLabelEdge c.

Definition SanitizeLabelValue (s : string) : error + string :=
  let sanitized := lowered (bytesOf s) in
  let sanitized := replaceRuns underscore (λ c, negb (isLabelChar c)) 1 [] sanitized in
  let sanitized := trimLeft isLabelEdge sanitized in
  let sanitized := trimRight isLabelEdge sanitized in
  let sanitized :=
    if decide (MaxKubernetesLabelLength < length sanitized)%nat
    then trimRight isLabelEdge (take MaxKubernetesLabelLength sanitized) else sanitized in
  if decide (sanitized = []) then inl (Errorf "label value is empty after sanitization") else inr (stringOf sanitized).

(** * Image references *)

Record ImageParts := {
  Registry : string;
  Repository : string;
  ip_Name : string;
  Tag : string
}.

Definition sanitizeNameComponent (s : bytes) : bytes :=
  let s := lowered s in
  let s := replaceRuns dashChar (λ c, negb (isNameChar c)) 1 [] s in
  let s := replaceRuns dashChar isDash 1 [] s in
  trimRight isDash (trimLeft isDash s).

(** The registry, explicit or not, and what follows it. *)
Definition splitRegistry (image : bytes) : bytes * bytes :=
  let firstSlash := Index image slash in
  if decide (0 < firstSlash) then
    let firstPart := take (Z.to_nat firstSlash) image in
    if Contains firstPart dotChar || Contains firstPart colon || bool_decide (firstPart = bytesOf "localhost")
    then (firstPart, drop (Z.to_nat firstSlash + 1) image)
    else (bytesOf "docker.io", image)
  else (bytesOf "docker.io", image).

(** The image name and the tag in the last component. *)
Definition splitTag (image : string) (lastPart : bytes) : error + (bytes * bytes) :=
  if Contains lastPart atSign then
    let digestParts := SplitN2 lastPart atSign in
    let imageName := nth 0 digestParts [] in
    let digest := nth 1 digestParts [] in
    if decide (length digestParts ≠ 2%nat ∨ digest = []) then inl (Errorf ("malformed digest reference: " +:+ image))
    else
      let colonIdx := Index digest colon in
      if decide (colonIdx = -1) then inl (Errorf ("malformed digest (missing colon): " +:+ stringOf digest))
      else
        let hashStart := colonIdx + 1 in
        if decide (len digest ≤ hashStart) then inl (Errorf ("malformed digest (no hash after colon): " +:+ stringOf digest))
        else
          let hashEnd := if decide (len digest < hashStart + 6) then len digest else hashStart + 6 in
          inr (imageName, take (Z.to_nat (hashEnd - hashStart)) (drop (Z.to_nat hashStart) digest))
  else if Contains lastPart colon then
    let tagParts := SplitN2 lastPart colon in
    let tag := nth 1 tagParts [] in
    if decide (length tagParts ≠ 2%nat ∨ tag = []) then inl (Errorf ("malformed tag reference (empty tag): " +:+ image))
    else inr (nth 0 tagParts [], tag)
  else inr (lastPart, bytesOf "latest").

Definition ExtractImageParts (image : string) : error + ImageParts :=
  if decide (image = "") then inl (Errorf "image reference is empty")
  else
    let '(registry, repository) := splitRegistry (bytesOf image) in
    let repositoryParts := Split repository slash in
    let lastPart := List.last repositoryParts [] in
    match splitTag image lastPart with
    | inl e => inl e
    | inr (imageName, imageTag) =>
        let repositoryPath := joinWith slash (removelast repositoryParts ++ [imageName]) in
        let registry := sanitizeNameComponent registry in
        let imageName := sanitizeNameComponent imageName in
        let imageTag := sanitizeNameComponent imageTag in
        if decide (registry = []) then inl (Errorf "registry is empty after sanitization")
        else if decide (imageName = []) then inl (Errorf "image name is empty after sanitization")
        else if decide (imageTag = []) then inl (Errorf "image tag is empty after sanitization")
        else inr {| Registry := stringOf registry; Repository := stringOf repositoryPath; ip_Name := stringOf imageName;
                    Tag := stringOf imageTag |}
    end.

(** * Properties *)

(** ** Bytes *)

Lemma Index_none s c : c ∉ s → Index s c = -1.
Proof.
  induction s as [|d s IH]; [done|]. rewrite not_elem_of_cons. intros [Hd Hs]. cbn [Index].
  rewrite decide_False by congruence. by rewrite IH.
Qed.

Lemma Index_app a c b : c ∉ a → Index (a ++ c :: b) c = len a.
Proof.
  induction a as [|d a IH]; [intros _; cbn; by rewrite decide_True|]. rewrite not_elem_of_cons. intros [Hd Hs]. cbn [Index app].
  rewrite decide_False by congruence. rewrite IH by done. unfold len. rewrite decide_False by lia. cbn [length]. lia.
Qed.

Lemma elem_cut (c : Ascii.ascii) s : c ∈ s → ∃ a b, s = a ++ c :: b ∧ c ∉ a.
Proof. intros Hc. apply list_elem_of_split_l in Hc as (a & b & ? & ?). by exists a, b. Qed.

Lemma Contains_byte s c : Contains s c = true ↔ c ∈ s.
Proof.
  unfold Contains. rewrite bool_decide_eq_true. destruct (decide (c ∈ s)) as [Hc|Hc].
  - destruct (elem_cut c s Hc) as (a & b & -> & Ha). rewrite Index_app by done. unfold len. split; [done|lia].
  - rewrite Index_none by done. split; [lia|done].
Qed.

Lemma Contains_false s c : Contains s c = false ↔ c ∉ s.
Proof. rewrite <- Contains_byte. by destruct (Contains s c). Qed.

Lemma SplitN2_app a c b : c ∉ a → SplitN2 (a ++ c :: b) c = [a; b].
Proof.
  intros Ha. unfold SplitN2. rewrite (proj2 (Contains_byte _ _)) by (apply elem_of_app; right; by left).
  rewrite Index_app by done. unfold len. rewrite Nat2Z.id, take_app_length. do 2 f_equal.
  rewrite drop_app_ge by lia. by replace (length a + 1 - length a)%nat with 1%nat by lia.
Qed.

Lemma Split_none s sep : sep ∉ s → Split s sep = [s].
Proof.
  induction s as [|c s IH]; [done|]. rewrite not_elem_of_cons. intros [Hc Hs]. cbn [Split].
  rewrite decide_False by congruence. by rewrite IH.
Qed.

Lemma Split_cut a sep b : sep ∉ a → Split (a ++ sep :: b) sep = a :: Split b sep.
Proof.
  induction a as [|c a IH]; [intros _; cbn; by rewrite decide_True|]. rewrite not_elem_of_cons. intros [Hc Hs]. cbn [Split app].
  rewrite decide_False by congruence. by rewrite IH.
Qed.

(** What is joined is split again. *)
Lemma Split_joinWith sep parts : parts ≠ [] → Forall (λ p, sep ∉ p) parts → Split (joinWith sep parts) sep = parts.
Proof.
  intros Hne Hp. induction Hp as [|p parts Hp Hps IH]; [done|]. destruct parts as [|q parts]; [by apply Split_none|].
  change (joinWith sep (p :: q :: parts)) with (p ++ sep :: joinWith sep (q :: parts)). by rewrite Split_cut, IH.
Qed.

(** ** Label values *)

Record labelValue (v : bytes) : Prop := {
  lv_nonempty : v ≠ [];
  lv_length : (length v ≤ 63)%nat;
  lv_chars : Forall (λ c, isLabelChar c = true) v;
  lv_head c : head v = Some c → isAlnum c = true;
  lv_last c : last v = Some c → isAlnum c = true
}.

Lemma alnum_range c : isAlnum c = true → (97 ≤ Ascii.nat_of_ascii c ≤ 122 ∨ 48 ≤ Ascii.nat_of_ascii c ≤ 57)%nat.
Proof.
  unfold isAlnum. intros [Hc|Hc]%orb_true_iff; apply andb_true_iff in Hc as [?%Nat.leb_le ?%Nat.leb_le]; lia.
Qed.

Lemma alnum_not_edge c : isAlnum c = true → isLabelEdge c = false.
Proof.
  intros Hc%alnum_range. unfold isLabelEdge, isSep. apply orb_false_iff. rewrite !bool_decide_eq_false.
  split; [intros [->| ->]|intros ->]; vm_compute in Hc; lia.
Qed.

Lemma not_edge_alnum c : isLabelChar c = true → isLabelEdge c = false → isAlnum c = true.
Proof. unfold isLabelChar. intros [?|Hc]%orb_true_iff He; [done|congruence]. Qed.

Lemma label_char_kept c : isLabelChar c = true → isAscii c ∧ Str.lower_ascii c = c.
Proof.
  unfold isLabelChar, isLabelEdge. rewrite !orb_true_iff. intros [Hc|[Hc|Hc%bool_decide_eq_true]].
  - split; [apply allowed_ascii|apply lower_allowed]; unfold isAllowed; by rewrite Hc.
  - split; [apply allowed_ascii|apply lower_allowed]; unfold isAllowed; by rewrite Hc, orb_true_r.
  - subst c. by split; vm_compute.
Qed.

Lemma lowered_label s : Forall (λ c, isLabelChar c = true) s → lowered s = s.
Proof.
  induction 1 as [|c s Hc _ IH]; [done|]. destruct (label_char_kept c Hc) as [Ha Hl].
  by rewrite lowered_ascii, IH, Hl.
Qed.

(** Replacing runs of a class keeps the bytes outside it. *)
Lemma replaceRuns_kept rep p run s c : p c = false → c ∈ s → c ∈ replaceRuns rep p 1 run s.
Proof.
  intros Hc. revert run. induction s as [|d s IH]; intros run; [intros []%elem_of_nil|]. rewrite elem_of_cons. cbn [replaceRuns].
  destruct (p d) eqn:Hd.
  - intros [->|Hin]; [congruence|by apply IH].
  - rewrite elem_of_app, elem_of_cons. intros [->|Hin]; [by right; left|right; right; by apply IH].
Qed.

Lemma replaceRuns_from rep p run s c : c ∈ replaceRuns rep p 1 run s → c = rep ∨ c ∈ s ∧ p c = false.
Proof.
  assert (∀ run, c ∈ flushRun rep 1 run → c = rep) as Hf.
  { intros r. unfold flushRun. case_decide as Hl; [|by intros ->%list_elem_of_singleton]. destruct r; [by intros []%elem_of_nil|simpl in Hl; lia]. }
  revert run. induction s as [|d s IH]; intros run; [left; by eapply Hf|]. cbn [replaceRuns]. destruct (p d) eqn:Hd.
  - intros [?|[??]]%IH; [by left|right; split; [by right|done]].
  - rewrite elem_of_app, elem_of_cons. intros [Hr|[->|Hin]]; [left; by eapply Hf|right; split; [by left|done]|].
    apply IH in Hin as [?|[??]]; [by left|right; split; [by right|done]].
Qed.

Lemma trimLeft_in p s c : p c = false → c ∈ s → c ∈ trimLeft p s.
Proof.
  intros Hc. induction s as [|d s IH]; [done|]. cbn [trimLeft]. destruct (p d) eqn:Hd; [|done].
  rewrite elem_of_cons. intros [->|?]; [congruence|by apply IH].
Qed.

Lemma trimRight_in p s c : p c = false → c ∈ s → c ∈ trimRight p s.
Proof. intros Hc Hin. unfold trimRight. rewrite elem_of_reverse. apply trimLeft_in; [done|]. by rewrite elem_of_reverse. Qed.

Lemma trimRight_nonempty p s : (∀ c, head s = Some c → p c = false) → s ≠ [] → trimRight p s ≠ [].
Proof. destruct s as [|c s]; [done|]. intros Hc _. apply trimRight_head. by apply Hc. Qed.

(** What trimming leaves starts outside the class. *)
Lemma trimmed_head p s c : head (trimRight p (trimLeft p s)) = Some c → p c = false.
Proof. intros Hc. eapply trimLeft_head, prefix_head; [apply trimRight_prefix|exact Hc]. Qed.

Lemma trimmed_Forall (P : Ascii.ascii → Prop) p s : Forall P s → Forall P (trimRight p (trimLeft p s)).
Proof.
  intros Hs. eapply prefix_Forall; [apply trimRight_prefix|]. destruct (trimLeft_suffix p s) as [t Ht]. rewrite Ht in Hs.
  by apply Forall_app in Hs as [_ ?].
Qed.

(** A label value made by [SanitizeLabelValue] has between 1 and 63 bytes, all of
    them lower-case letters, digits, dashes, underscores and dots, and starts and ends
    with a letter or digit; a value that is like that already is kept. It fails on the
    inputs without any ASCII letter or digit, and on no others. *)
Theorem SanitizeLabelValue_spec s :
  (∀ v, SanitizeLabelValue s = inr v → labelValue (bytesOf v)) ∧
  (labelValue (bytesOf s) → SanitizeLabelValue s = inr s) ∧
  ((∃ e, SanitizeLabelValue s = inl e) ↔ Forall (λ c, isAlnum c = false) (lowered (bytesOf s))).
Proof.
  unfold SanitizeLabelValue. set (t := replaceRuns underscore _ 1 [] (lowered (bytesOf s))).
  set (u := trimRight isLabelEdge (trimLeft isLabelEdge t)).
  set (v := if decide (MaxKubernetesLabelLength < length u)%nat then _ else u).
  assert (Forall (λ c, isLabelChar c = true) t) as Ht.
  { apply replaceRuns_Forall; [done|by left|]. intros c _. simpl. destruct (isLabelChar c); auto. }
  pose proof (trimmed_Forall _ isLabelEdge t Ht) as Hu. fold u in Hu.
  assert (∀ c, head u = Some c → isLabelEdge c = false) as Hhead by (intros c; apply trimmed_head).
  assert (v `prefix_of` u) as Hvu.
  { unfold v. case_decide; [etrans; [apply trimRight_prefix|apply prefix_take]|done]. }
  assert (u ≠ [] → v ≠ []) as Hne.
  { intros Hun. unfold v. case_decide as Hd; [|done]. destruct u as [|c u']; [done|]. apply trimRight_head. by apply Hhead. }
  split_and!.
  - case_decide as Hv; [done|]. intros w [= <-]. rewrite bytes_string. split; [done| |by eapply prefix_Forall|..].
    + unfold v. case_decide; [|unfold MaxKubernetesLabelLength in *; lia].
      etrans; [apply prefix_length, trimRight_prefix|]. rewrite length_take. unfold MaxKubernetesLabelLength. lia.
    + intros c Hc. apply (prefix_head _ _ _ Hvu) in Hc. apply not_edge_alnum; [|by apply Hhead].
      rewrite Forall_forall in Hu. apply Hu. by apply head_Some_elem_of.
    + intros c Hc. apply not_edge_alnum.
      * rewrite Forall_forall in Hu. apply Hu. eapply elem_of_prefix; [by apply last_Some_elem_of|done].
      * revert Hc. unfold v. case_decide; apply trimRight_last.
  - intros [Hn Hl Hc Hh Hla].
    assert (t = bytesOf s) as Es.
    { unfold t. rewrite lowered_label by done. apply replaceRuns_none. eapply Forall_impl; [exact Hc|]. by intros c ->. }
    assert (u = bytesOf s) as Eu.
    { unfold u. rewrite Es. rewrite trimLeft_id by (intros c ?; by apply alnum_not_edge, Hh). apply trimRight_id.
      intros c ?. by apply alnum_not_edge, Hla. }
    assert (v = bytesOf s) as ->.
    { unfold v. rewrite decide_False; [done|]. rewrite Eu. unfold MaxKubernetesLabelLength. lia. }
    rewrite decide_False by done. do 1 f_equal. apply String.string_of_list_ascii_of_string.
  - assert (v = [] ↔ Forall (λ c, isAlnum c = false) (lowered (bytesOf s))) as <-; [|case_decide as Hv; naive_solver].
    split.
    + intros Hv. destruct (decide (u = [])) as [Hu'|]; [|by destruct Hne]. apply Forall_forall. intros c Hc.
      destruct (isAlnum c) eqn:Ha; [|done]. exfalso. cut (c ∈ u); [rewrite Hu'; by apply not_elem_of_nil|].
      pose proof (alnum_not_edge c Ha) as He. apply trimRight_in, trimLeft_in; [done..|]. apply replaceRuns_kept; [|done].
      unfold isLabelChar. by rewrite Ha.
    + intros Hs. destruct v as [|c v'] eqn:Ev; [done|]. exfalso.
      assert (head u = Some c) as Hc by (by eapply prefix_head).
      assert (c ∈ t) as Hin.
      { destruct (trimLeft_suffix isLabelEdge t) as [x Hx]. rewrite Hx. apply elem_of_app. right.
        eapply elem_of_prefix; [by apply head_Some_elem_of|apply trimRight_prefix]. }
      pose proof (Hhead c Hc) as He. apply replaceRuns_from in Hin as [->|[Hin Hl]]; [done|].
      rewrite Forall_forall in Hs. specialize (Hs c Hin). unfold isLabelChar in Hl. by rewrite Hs, He in Hl.
Qed.

(** ** Image references *)

(** A reference as people write it: a registry, the path, the image name, and a tag, a
    digest or nothing. *)
Inductive version := Untagged | Tagged (tag : bytes) | Digest (algorithm hash : bytes).

Record ImageRef := {
  ref_registry : option bytes;
  ref_path : list bytes;
  ref_name : bytes;
  ref_version : version
}.

Definition printVersion (v : version) : bytes :=
  match v with
  | Untagged => []
  | Tagged tag => colon :: tag
  | Digest algorithm hash => atSign :: algorithm ++ colon :: hash
  end.

Definition printRef (r : ImageRef) : bytes :=
  joinWith slash (match ref_registry r with Some h => [h] | None => [] end ++ ref_path r ++ [ref_name r ++ printVersion (ref_version r)]).

(** A first component that names a registry. *)
Definition isRegistry (p : bytes) : Prop := dotChar ∈ p ∨ colon ∈ p ∨ p = bytesOf "localhost".

Definition well_formed_version (v : version) : Prop :=
  match v with
  | Untagged => True
  | Tagged tag => tag ≠ [] ∧ (atSign ∉ tag) ∧ (slash ∉ tag)
  | Digest algorithm hash => hash ≠ [] ∧ (colon ∉ algorithm) ∧ (slash ∉ algorithm) ∧ (slash ∉ hash)
  end.

Record well_formed (r : ImageRef) : Prop := {
  wf_registry h : ref_registry r = Some h → isRegistry h ∧ (slash ∉ h);
  wf_no_registry p : ref_registry r = None → head (ref_path r) = Some p → ¬ isRegistry p;
  wf_path : Forall (λ p, slash ∉ p) (ref_path r);
  wf_name : ref_name r ≠ [] ∧ (slash ∉ ref_name r) ∧ (colon ∉ ref_name r) ∧ (atSign ∉ ref_name r);
  wf_version : well_formed_version (ref_version r)
}.

(** The tag of a version. *)
Definition tagOf (v : version) : bytes :=
  match v with Untagged => bytesOf "latest" | Tagged tag => tag | Digest _ hash => take 6 hash end.

Lemma isRegistry_spec p :
  Contains p dotChar || Contains p colon || bool_decide (p = bytesOf "localhost") = true ↔ isRegistry p.
Proof. rewrite !orb_true_iff, !Contains_byte, bool_decide_eq_true. unfold isRegistry. tauto. Qed.

Lemma isRegistry_nonempty p : isRegistry p → 0 < len p.
Proof. unfold isRegistry, len. destruct p; [|simpl; lia]. rewrite !elem_of_nil. by intros [|[|]]. Qed.

Lemma splitRegistry_app first rest :
  slash ∉ first → isRegistry first → splitRegistry (first ++ slash :: rest) = (first, rest).
Proof.
  intros Hs Hr. unfold splitRegistry. rewrite Index_app by done. rewrite decide_True by by apply isRegistry_nonempty.
  unfold len. rewrite Nat2Z.id, take_app_length. rewrite (proj2 (isRegistry_spec first)) by done. f_equal.
  rewrite drop_app_ge by lia. by replace (length first + 1 - length first)%nat with 1%nat by lia.
Qed.

Lemma splitRegistry_implicit first rest :
  slash ∉ first → ¬ isRegistry first → splitRegistry (first ++ slash :: rest) = (bytesOf "docker.io", first ++ slash :: rest).
Proof.
  intros Hs Hr. unfold splitRegistry. rewrite Index_app by done. case_decide; [|done].
  unfold len. rewrite Nat2Z.id, take_app_length. rewrite <- isRegistry_spec in Hr. by apply not_true_is_false in Hr as ->.
Qed.

Lemma splitRegistry_none image : slash ∉ image → splitRegistry image = (bytesOf "docker.io", image).
Proof. intros Hs. unfold splitRegistry. by rewrite Index_none. Qed.

(** The digest part of the last component. *)
Lemma splitTag_digest image name algorithm hash :
  atSign ∉ name → colon ∉ algorithm → hash ≠ [] →
  splitTag image (name ++ atSign :: algorithm ++ colon :: hash) = inr (name, take 6 hash).
Proof.
  intros Hn Ha Hh. unfold splitTag. rewrite (proj2 (Contains_byte _ _)) by (apply elem_of_app; right; by left).
  rewrite SplitN2_app by done. cbn [nth length]. rewrite decide_False by (intros [?|E]; [done|by destruct algorithm]).
  rewrite Index_app by done. unfold len. rewrite decide_False by lia. rewrite length_app. cbn [length].
  assert (0 < length hash)%nat as Hl by (destruct hash; [done|simpl; lia]).
  rewrite decide_False by lia. do 2 f_equal.
  replace (Z.to_nat (Z.of_nat (length algorithm) + 1)) with (length (algorithm ++ [colon])) by (rewrite length_app; simpl; lia).
  replace (algorithm ++ colon :: hash) with ((algorithm ++ [colon]) ++ hash) by (by rewrite <- app_assoc).
  rewrite drop_app_length. case_decide as Hd; [|f_equal; lia]. rewrite !take_ge by lia. done.
Qed.

Lemma splitTag_version image name v :
  colon ∉ name → atSign ∉ name → well_formed_version v → splitTag image (name ++ printVersion v) = inr (name, tagOf v).
Proof.
  intros Hc Ha Hv. destruct v as [|tag|algorithm hash]; cbn [printVersion tagOf].
  - rewrite app_nil_r. unfold splitTag. rewrite (proj2 (Contains_false _ _)), (proj2 (Contains_false _ _)) by done. done.
  - destruct Hv as (Hne & Hat & _). unfold splitTag. rewrite (proj2 (Contains_false _ atSign)).
    2: { rewrite not_elem_of_app, not_elem_of_cons. by split_and!. }
    rewrite (proj2 (Contains_byte _ _)) by (apply elem_of_app; right; by left).
    rewrite SplitN2_app by done. cbn [nth length]. rewrite decide_False by (by intros [?|?]). done.
  - destruct Hv as (? & ? & _). by apply splitTag_digest.
Qed.

(** What is left once the registry is known. *)
Definition partsFor (registry : bytes) (path : list bytes) (name : bytes) (repositoryName tag : bytes) : error + ImageParts :=
  let registry := sanitizeNameComponent registry in
  let tag := sanitizeNameComponent tag in
  let imageName := sanitizeNameComponent name in
  if decide (registry = []) then inl (Errorf "registry is empty after sanitization")
  else if decide (imageName = []) then inl (Errorf "image name is empty after sanitization")
  else if decide (tag = []) then inl (Errorf "image tag is empty after sanitization")
  else inr {| Registry := stringOf registry; Repository := stringOf (joinWith slash (path ++ [repositoryName]));
              ip_Name := stringOf imageName; Tag := stringOf tag |}.

Lemma extract_from image registry path last name tag :
  image ≠ [] → splitRegistry image = (registry, joinWith slash (path ++ [last])) →
  Forall (λ p, slash ∉ p) path → slash ∉ last → splitTag (stringOf image) last = inr (name, tag) →
  ExtractImageParts (stringOf image) = partsFor registry path name name tag.
Proof.
  intros Hne Hr Hp Hl Ht. unfold ExtractImageParts. rewrite decide_False.
  2: { intros E. apply (f_equal bytesOf) in E. rewrite bytes_string in E. done. }
  rewrite bytes_string, Hr. rewrite Split_joinWith.
  2: { by destruct path. }
  2: { apply Forall_app. by split; [|constructor]. }
  rewrite List.last_last, removelast_last, Ht. done.
Qed.

(** The image of a reference whose first component is no registry. *)
Lemma splitRegistry_components comps :
  comps ≠ [] → Forall (λ p, slash ∉ p) comps →
  (∀ first second rest, comps = first :: second :: rest → ¬ isRegistry first) →
  splitRegistry (joinWith slash comps) = (bytesOf "docker.io", joinWith slash comps).
Proof.
  intros Hne Hs Hr. destruct comps as [|first [|second rest]]; [done|..]; inversion_clear Hs.
  - by apply splitRegistry_none.
  - apply splitRegistry_implicit; [done|by eapply Hr].
Qed.

Lemma printVersion_slash v : well_formed_version v → slash ∉ printVersion v.
Proof.
  destruct v as [|tag|algorithm hash]; cbn.
  - intros _. apply not_elem_of_nil.
  - intros (_ & _ & Ht). rewrite not_elem_of_cons. done.
  - intros (_ & _ & Ha & Hh). rewrite not_elem_of_cons, not_elem_of_app, not_elem_of_cons. done.
Qed.

(** Reading a reference: whatever registry (a first component with a dot or a colon,
    or localhost), path, name and tag or digest it is printed from is found again, a
    missing registry is docker.io and a missing tag latest, and a digest gives the first
    six bytes of its hash. Registry, name and tag are sanitised, and one of which
    nothing remains is an error; the repository is not changed. *)
Theorem ExtractImageParts_roundtrip r :
  well_formed r →
  ExtractImageParts (stringOf (printRef r)) =
  partsFor (default (bytesOf "docker.io") (ref_registry r)) (ref_path r) (ref_name r) (ref_name r) (tagOf (ref_version r)).
Proof.
  intros [Hreg Hno Hpath (Hne & Hs & Hc & Ha) Hv]. set (last := ref_name r ++ printVersion (ref_version r)).
  assert (slash ∉ last) as Hlast by (apply not_elem_of_app; split; [done|by apply printVersion_slash]).
  assert (last ≠ []) as Hln by (unfold last; by destruct (ref_name r)).
  assert (Forall (λ p, slash ∉ p) (ref_path r ++ [last])) as Hall by (apply Forall_app; by repeat constructor).
  assert (∀ comps, joinWith slash (comps ++ [last]) ≠ []) as Hjoin.
  { intros comps E. destruct comps as [|p [|q comps]]; [done|..]; by destruct p. }
  unfold printRef. fold last. destruct (ref_registry r) as [h|] eqn:Hr; cbn [default app].
  - destruct (Hreg h eq_refl) as [Hh Hhs]. eapply extract_from with (last := last); [|..|by apply splitTag_version].
    + apply (Hjoin (h :: ref_path r)).
    + replace (joinWith slash (h :: ref_path r ++ [last])) with (h ++ slash :: joinWith slash (ref_path r ++ [last]))
        by (by destruct (ref_path r)). by apply splitRegistry_app.
    + done.
    + done.
  - apply extract_from with (last := last); [apply Hjoin| |done..|by apply splitTag_version].
    apply splitRegistry_components; [by destruct (ref_path r)|done|]. intros first second rest E. apply Hno; [done|].
    destruct (ref_path r); by injection E as -> ?.
Qed.

(** With a tag and a digest the tag stays in the repository, and in the name. *)
Theorem ExtractImageParts_tag_and_digest name tag algorithm hash :
  name ≠ [] → slash ∉ name ++ tag ++ algorithm ++ hash → atSign ∉ name ++ tag → colon ∉ algorithm → hash ≠ [] →
  let last := name ++ colon :: tag in
  ExtractImageParts (stringOf (last ++ printVersion (Digest algorithm hash))) =
  partsFor (bytesOf "docker.io") [] last last (take 6 hash).
Proof.
  rewrite !not_elem_of_app. intros Hne (Hn & Ht & Ha & Hh) (Han & Hat) Hc Hhash last. cbn [printVersion].
  assert (slash ∉ last ++ atSign :: algorithm ++ colon :: hash) as Hs.
  { unfold last. rewrite !not_elem_of_app, !not_elem_of_cons, !not_elem_of_app, !not_elem_of_cons. by split_and!. }
  apply extract_from with (last := last ++ atSign :: algorithm ++ colon :: hash) (path := []); [by destruct name|by apply splitRegistry_none|constructor|done|].
  apply splitTag_digest; [|done|done]. unfold last. rewrite not_elem_of_app, not_elem_of_cons. by split_and!.
Qed.
