(* ===== verification/Scripts.v ===== *)
(** Entry points (pkg/utils/utils.go: ConvertMultilineEntrypoint): trimming, joining
    lines that end in a backslash, and the interpreter of the first line. *)

From stdpp Require Import strings list.
From Stdlib Require Import ZArith Lia.
From S2P Require Import Prelude Runes Naming DerivedNames ImageNames.

(** * Definitions *)

Definition newline : Ascii.ascii := Ascii.ascii_of_nat 10.
Definition backslash : Ascii.ascii := Ascii.ascii_of_nat 92.
Definition spaceChar : Ascii.ascii := Ascii.ascii_of_nat 32.

(** The encodings of the white space of Unicode. *)
Definition spaceCodes : list bytes :=
  map (map Ascii.ascii_of_nat)
    [[9]; [10]; [11]; [12]; [13]; [32]; [194; 133]; [194; 160]; [225; 154; 128]; [226; 128; 128]; [226; 128; 129];
     [226; 128; 130]; [226; 128; 131]; [226; 128; 132]; [226; 128; 133]; [226; 128; 134]; [226; 128; 135]; [226; 128; 136];
     [226; 128; 137]; [226; 128; 138]; [226; 128; 168]; [226; 128; 169]; [226; 128; 175]; [226; 129; 159]; [227; 128; 128]]%nat.

(** The length of the code a text starts with. *)
Definition codeAt (codes : list bytes) (s : bytes) : option nat :=
  (λ '(_, w), length w) <$> list_find (λ w, w `prefix_of` s) codes.

(** [skip] bytes of the code being dropped are left. *)
Fixpoint dropCodes (codes : list bytes) (skip : nat) (s : bytes) : bytes :=
  match s with
  | [] => []
  | _ :: s' =>
      match skip with
      | S k => dropCodes codes k s'
      | O => match codeAt codes s with Some n => dropCodes codes (n - 1) s' | None => s end
      end
  end.

(** [strings.TrimSpace]; an encoding that ends a text is its last rune. *)
Definition trimSpace (s : bytes) : bytes :=
  reverse (dropCodes (reverse <$> spaceCodes) 0 (reverse (dropCodes spaceCodes 0 s))).

(** The class [\s] of the regular expressions. *)
Definition isRegexSpace (c : Ascii.ascii) : bool :=
  let n := Ascii.nat_of_ascii c in (n =? 9)%nat || (n =? 10)%nat || (n =? 12)%nat || (n =? 13)%nat || (n =? 32)%nat.

(** What [\s*\n] matches at the start of a text: as many bytes as possible. *)
Fixpoint lineEnd (s : bytes) : option nat :=
  match s with
  | [] => None
  | c :: s' =>
      if isRegexSpace c then
        match lineEnd s' with
        | Some n => Some (S n)
        | None => if decide (c = newline) then Some 1%nat else None
        end
      else None
  end.

(** [ReplaceAllString] of a backslash and [\s*\n] by a space. *)
Fixpoint joinContinued (skip : nat) (s : bytes) : bytes :=
  match s with
  | [] => []
  | c :: s' =>
      match skip with
      | S k => joinContinued k s'
      | O =>
          if decide (c = backslash) then
            match lineEnd s' with
            | Some n => spaceChar :: joinContinued n s'
            | None => c :: joinContinued 0 s'
            end
          else c :: joinContinued 0 s'
      end
  end.

Definition shebang : bytes := bytesOf "#!".

(** A string for Ray, a command otherwise. *)
Definition ConvertMultilineEntrypoint (entrypoint : string) (isRayJob : bool) : string + list string :=
  let script := joinContinued 0 (trimSpace (bytesOf entrypoint)) in
  if isRayJob then inl (stringOf script)
  else
    match Split script newline with
    | line :: rest =>
        if decide (shebang `prefix_of` line)
        then inr [stringOf (trimSpace (drop 2 line)); "-c"; stringOf (joinWith newline rest)]
        else inr ["/bin/sh"; "-c"; stringOf script]
    | [] => inr ["/bin/sh"; "-c"; stringOf script]
    end.

Example continued_command :
  ConvertMultilineEntrypoint "python train.py \
    --lr 1
echo done" false = inr ["/bin/sh"; "-c"; "python train.py      --lr 1
echo done"].
Proof. vm_compute. reflexivity. Qed.

Example bash_script :
  ConvertMultilineEntrypoint "#!/bin/bash
set -e
" false = inr ["/bin/bash"; "-c"; "set -e"].
Proof. vm_compute. reflexivity. Qed.

(** * Properties *)

(** A backslash, white space and a newline follow one another somewhere. *)
Definition continued (s : bytes) : Prop :=
  ∃ pre ws post, s = pre ++ backslash :: ws ++ newline :: post ∧ Forall (λ c, isRegexSpace c = true) ws.

(** ** The end of a line *)

Lemma space_not_backslash c : isRegexSpace c = true → c ≠ backslash.
Proof. by intros ? ->. Qed.

(** What is matched is white space and ends in a newline; no newline follows in the
    same run of white space. *)
Lemma lineEnd_some s n :
  lineEnd s = Some n → ∃ ws post, s = ws ++ newline :: post ∧ Forall (λ c, isRegexSpace c = true) ws ∧ n = S (length ws) ∧ lineEnd post = None.
Proof.
  revert n. induction s as [|c s IH]; intros n; cbn [lineEnd]; [done|]. destruct (isRegexSpace c) eqn:Hc; [|done].
  destruct (lineEnd s) as [m|] eqn:Hm.
  - intros [= <-]. destruct (IH m eq_refl) as (ws & post & -> & Hws & -> & Hpost). exists (c :: ws), post. auto.
  - destruct (decide (c = newline)) as [->|]; [|done]. intros [= <-]. exists [], s. auto.
Qed.

Lemma lineEnd_none s : lineEnd s = None → ¬ ∃ ws post, s = ws ++ newline :: post ∧ Forall (λ c, isRegexSpace c = true) ws.
Proof.
  intros Hs (ws & post & -> & Hws). revert Hs. induction Hws as [|c ws Hc _ IH]; cbn [app lineEnd].
  - rewrite decide_True by done. by destruct (lineEnd post).
  - rewrite Hc. by destruct (lineEnd (ws ++ newline :: post)); [|destruct IH].
Qed.

Lemma joinContinued_skip n s : joinContinued n s = joinContinued 0 (drop n s).
Proof. revert s. induction n as [|n IH]; intros [|c s]; try done. cbn [joinContinued drop]. apply IH. Qed.

Lemma drop_past {A} (a : list A) x b : drop (S (length a)) (a ++ x :: b) = b.
Proof. induction a as [|y a IH]; [done|]. exact IH. Qed.

(** The equations of the replacement. *)
Lemma joinContinued_match s n : lineEnd s = Some n → joinContinued 0 (backslash :: s) = spaceChar :: joinContinued 0 (drop n s).
Proof. intros Hs. cbn [joinContinued]. rewrite decide_True, Hs, joinContinued_skip by done. done. Qed.

Lemma joinContinued_byte c s : (c = backslash → lineEnd s = None) → joinContinued 0 (c :: s) = c :: joinContinued 0 s.
Proof. intros Hc. cbn [joinContinued]. destruct (decide (c = backslash)) as [->|]; [|done]. by rewrite Hc. Qed.

(** ** No continuation is left *)

(** The run of white space a text starts with contains a newline when it does after
    the replacement. *)
Lemma lineEnd_joined s : lineEnd s = None → lineEnd (joinContinued 0 s) = None.
Proof.
  induction s as [s IH] using (induction_ltof1 _ length). unfold ltof in IH. intros Hs. destruct s as [|c s]; [done|].
  destruct (decide (c = backslash)) as [->|Hc].
  - destruct (lineEnd s) as [n|] eqn:Hn; [|by rewrite joinContinued_byte].
    rewrite (joinContinued_match s n) by done. destruct (lineEnd_some s n Hn) as (ws & post & -> & _ & -> & Hpost).
    rewrite drop_past. cbn [lineEnd]. rewrite IH; [done| |done]. rewrite !length_cons, length_app, length_cons. lia.
  - rewrite joinContinued_byte by done. cbn [lineEnd] in *. destruct (isRegexSpace c); [|done].
    destruct (lineEnd s) eqn:E; [done|]. by rewrite IH by (simpl; lia || done).
Qed.

Lemma not_continued s : ¬ continued (joinContinued 0 s).
Proof.
  induction s as [s IH] using (induction_ltof1 _ length). unfold ltof in IH. destruct s as [|c s].
  { intros (pre & ws & post & Heq & _). by destruct pre. }
  assert (∀ d t, (length t < length (c :: s))%nat → (d = backslash → lineEnd (joinContinued 0 t) = None) →
    ¬ continued (d :: joinContinued 0 t)) as Hcons.
  { intros d t Hlen Hd (pre & ws & post & Heq & Hws). destruct pre as [|d' pre]; cbn [app] in Heq; injection Heq as -> Heq.
    - apply (lineEnd_none _ (Hd eq_refl)). eauto.
    - apply (IH t Hlen). exists pre, ws, post. auto. }
  destruct (decide (c = backslash)) as [->|Hc]; [destruct (lineEnd s) as [n|] eqn:Hn|].
  - rewrite (joinContinued_match s n Hn). apply Hcons; [|done]. rewrite length_drop, length_cons. lia.
  - rewrite joinContinued_byte by done. apply Hcons; [simpl; lia|]. intros _. by apply lineEnd_joined.
  - rewrite joinContinued_byte by done. apply Hcons; [simpl; lia|done].
Qed.

(** ** What the lines become *)

(** A line that has no newline, and one that does not end in a backslash and white
    space. *)
Definition oneLine (l : bytes) : Prop := newline ∉ l.
Definition blank (l : bytes) : Prop := Forall (λ c, isRegexSpace c = true) l.
Definition dangling (l : bytes) : Prop := ∃ pre ws, l = pre ++ backslash :: ws ∧ blank ws.

Lemma lineEnd_line l s : oneLine l → lineEnd (l ++ backslash :: s) = None.
Proof.
  intros Hl. induction l as [|c l IH]; cbn [app lineEnd]; [done|]. unfold oneLine in *. rewrite not_elem_of_cons in Hl.
  destruct Hl as [Hc Hl]. destruct (isRegexSpace c); [|done]. rewrite (IH Hl). by rewrite decide_False by congruence.
Qed.

Lemma lineEnd_words l s : oneLine l → ¬ blank l → lineEnd (l ++ s) = None.
Proof.
  intros Hl Hb. induction l as [|c l IH]; cbn [app lineEnd]; [by destruct Hb; apply Forall_nil_2|]. unfold oneLine in *.
  rewrite not_elem_of_cons in Hl. destruct Hl as [Hc Hl]. destruct (isRegexSpace c) eqn:E; [|done].
  rewrite IH; [by rewrite decide_False by congruence|done|]. intros Hbl. apply Hb. by constructor.
Qed.

(** A line is copied when what follows it does not end a line of its own backslashes. *)
Lemma joinContinued_line l s :
  oneLine l → (∀ pre ws, l = pre ++ backslash :: ws → blank ws → lineEnd (ws ++ s) = None) →
  joinContinued 0 (l ++ s) = l ++ joinContinued 0 s.
Proof.
  intros Hl Hs. induction l as [|c l IH]; [done|]. unfold oneLine in *. rewrite not_elem_of_cons in Hl. destruct Hl as [Hc Hl].
  cbn [app]. rewrite joinContinued_byte.
  - f_equal. apply IH; [done|]. intros pre ws ->. by apply (Hs (c :: pre)).
  - intros ->. destruct (decide (blank l)) as [Hb|Hb]; [by apply (Hs [] l)|by apply lineEnd_words].
Qed.

(** The text of a command on several lines: each but the last one ends in a backslash,
    perhaps with white space after it. *)
Inductive continuedLines : list bytes → bytes → Prop :=
| continued_last l : continuedLines [l] l
| continued_line l ws ls s : blank ws → oneLine ws → continuedLines ls s →
    continuedLines (l :: ls) (l ++ backslash :: ws ++ newline :: s).

(** A command as it is written: one line, or several the last of which is not
    blank. *)
Definition written (ls : list bytes) : Prop :=
  Forall oneLine ls ∧ ∃ l, last ls = Some l ∧ ¬ dangling l ∧ (length ls = 1%nat ∨ ¬ blank l).

Lemma lineEnd_blank ws s : blank ws → lineEnd s = None → lineEnd (ws ++ newline :: s) = Some (S (length ws)).
Proof.
  intros Hws Hs. induction Hws as [|c ws Hc _ IH]; cbn [app lineEnd].
  - by rewrite Hs, decide_True.
  - by rewrite Hc, IH.
Qed.

Lemma drop_blank ws (s : bytes) : drop (S (length ws)) (ws ++ newline :: s) = s.
Proof. apply drop_past. Qed.

(** What follows the backslash of a line starts with words before the next newline. *)
Lemma lineEnd_command ls s t l :
  continuedLines ls s → Forall oneLine ls → last ls = Some l → ¬ blank l → lineEnd (s ++ t) = None.
Proof.
  intros Hs Hls Hl Hb. destruct Hs as [l'|l' ws ls s Hws _ Hs].
  - injection Hl as ->. apply lineEnd_words; [by inversion Hls|done].
  - rewrite <- app_assoc. cbn [app]. apply lineEnd_line. by inversion Hls.
Qed.

Lemma joinContinued_command ls text s :
  continuedLines ls text → written ls → (s = [] ∨ ∃ t, s = newline :: t) →
  joinContinued 0 (text ++ s) = joinWith spaceChar ls ++ joinContinued 0 s.
Proof.
  intros Htext (Hls & l & Hlast & Hdang & Hblank) Hs. revert Hls Hlast Hblank.
  induction Htext as [l'|l' ws ls text Hws Hone Htext IH]; intros Hls Hlast Hblank.
  - injection Hlast as ->. cbn [joinWith]. apply joinContinued_line; [by inversion Hls|]. intros pre ws -> Hws.
    destruct Hdang. by exists pre, ws.
  - assert (ls ≠ []) as Hne by by destruct Htext. inversion Hls as [|? ? Hl' Hls']; subst.
    assert (last ls = Some l) as Hlast' by by destruct ls. assert (¬ blank l) as Hb by (destruct Hblank; [by destruct ls|done]).
    replace (joinWith spaceChar (l' :: ls)) with (l' ++ spaceChar :: joinWith spaceChar ls) by by destruct ls.
    rewrite <- !app_assoc. cbn [app]. rewrite <- app_assoc. cbn [app]. rewrite joinContinued_line; [|done|].
    + f_equal. rewrite (joinContinued_match _ (S (length ws))).
      * rewrite drop_blank. f_equal. apply IH; [done..|by right].
      * apply lineEnd_blank; [done|]. by eapply lineEnd_command.
    + intros pre ws' -> _. apply lineEnd_line. unfold oneLine in *. rewrite elem_of_app, elem_of_cons in Hl'. tauto.
Qed.

Lemma joinContinued_commands commands texts :
  commands ≠ [] → Forall2 continuedLines commands texts → Forall written commands →
  joinContinued 0 (joinWith newline texts) = joinWith newline (joinWith spaceChar <$> commands).
Proof.
  intros Hne Htexts. induction Htexts as [|ls text commands texts Hls Htexts IH]; [done|].
  intros [Hw Hws]%Forall_cons. destruct Htexts as [|ls2 text2 commands texts Hls2 Htexts].
  - cbn. rewrite <- (app_nil_r text). rewrite (joinContinued_command ls) by (done || by left). apply app_nil_r.
  - cbn [fmap list_fmap joinWith] in *. rewrite (joinContinued_command ls) by (done || right; eauto).
    rewrite joinContinued_byte by done. by rewrite IH.
Qed.

Lemma joinWith_oneLine ls : Forall oneLine ls → oneLine (joinWith spaceChar ls).
Proof.
  unfold oneLine. induction 1 as [|l ls Hl _ IH]; [apply not_elem_of_nil|]. destruct ls as [|l2 ls]; [done|].
  cbn [joinWith]. rewrite elem_of_app, elem_of_cons. intros [?|[?|?]]; done.
Qed.

(** What follows the first newline of a text without continuations has none. *)
Lemma continued_rest line rest : continued (joinWith newline rest) → continued (joinWith newline (line :: rest)).
Proof.
  intros (pre & ws & post & Heq & Hws). destruct rest as [|l rest]; [by destruct pre|].
  exists (line ++ newline :: pre), ws, post. split; [|done]. change (joinWith newline (line :: l :: rest)) with
    (line ++ newline :: joinWith newline (l :: rest)). rewrite Heq. by rewrite <- app_assoc.
Qed.

Lemma joinWith_Split sep s : joinWith sep (Split s sep) = s.
Proof.
  assert (∀ s, Split s sep ≠ []) as Hne.
  { intros [|c s']; cbn [Split]; [done|]. case_decide; [done|]. by destruct (Split s' sep). }
  induction s as [|c s IH]; [done|]. cbn [Split]. pose proof (Hne s) as Hs. case_decide as Hc.
  - subst c. destruct (Split s sep) as [|w ws]; [done|]. change (joinWith sep ([] :: w :: ws)) with (sep :: joinWith sep (w :: ws)). by rewrite IH.
  - destruct (Split s sep) as [|w ws]; [done|]. rewrite <- IH. by destruct ws.
Qed.

(** C34: an entry point is run as it was written. Whatever was written, no backslash is left
    that only white space separates from a newline, neither for Ray nor in the script of
    the shell. And when, without the white space around it, it is a sequence of commands,
    each on a line of its own or on several lines that end in a backslash, with or
    without white space after it, then Ray and the shell get each command on one line;
    the interpreter is /bin/sh unless the first line names another one, which is then
    taken off the script. *)
Theorem ConvertMultilineEntrypoint_commands entrypoint :
  (∃ script, ConvertMultilineEntrypoint entrypoint true = inl script ∧ ¬ continued (bytesOf script)) ∧
  (∃ interpreter script, ConvertMultilineEntrypoint entrypoint false = inr [interpreter; "-c"; script] ∧
     ¬ continued (bytesOf script)) ∧
  ∀ first commands texts,
    trimSpace (bytesOf entrypoint) = joinWith newline texts → Forall2 continuedLines (first :: commands) texts →
    Forall written (first :: commands) →
    let script := joinWith newline (joinWith spaceChar <$> (first :: commands)) in
    ConvertMultilineEntrypoint entrypoint true = inl (stringOf script) ∧
    (¬ shebang `prefix_of` joinWith spaceChar first →
      ConvertMultilineEntrypoint entrypoint false = inr ["/bin/sh"; "-c"; stringOf script]) ∧
    (∀ interpreter, joinWith spaceChar first = shebang ++ interpreter →
      ConvertMultilineEntrypoint entrypoint false =
        inr [stringOf (trimSpace interpreter); "-c"; stringOf (joinWith newline (joinWith spaceChar <$> commands))]).
Proof.
  set (joined := joinContinued 0 (trimSpace (bytesOf entrypoint))).
  assert (¬ continued joined) as Hjoined by apply not_continued. split; [|split].
  - eexists. split; [reflexivity|]. by rewrite bytes_string.
  - unfold ConvertMultilineEntrypoint. fold joined. pose proof (joinWith_Split newline joined) as Hsplit.
    destruct (Split joined newline) as [|line rest]; [|case_decide]; (eexists _, _; split; [done|]; rewrite bytes_string); [done| |done].
    intros Hc. apply Hjoined. rewrite <- Hsplit. by apply continued_rest.
  - intros first commands texts Htrim Htexts Hcs script.
    pose proof (joinContinued_commands (first :: commands) texts ltac:(done) Htexts Hcs) as Hscript.
    unfold ConvertMultilineEntrypoint. rewrite Htrim, Hscript. fold script.
    assert (Split script newline = joinWith spaceChar <$> (first :: commands)) as ->.
    { apply Split_joinWith; [done|]. apply Forall_fmap. eapply Forall_impl; [exact Hcs|]. intros ls (Hls & _). by apply joinWith_oneLine. }
    split; [done|]. split.
    + intros Hno. cbn [fmap list_fmap]. by rewrite decide_False.
    + intros interpreter Hi. cbn [fmap list_fmap]. rewrite Hi. rewrite decide_True by by exists interpreter. done.
Qed.

(** A blank line after a backslash is taken into the match: the command that follows
    becomes part of the one before, while a shell ends it at the blank line. *)
Example blank_line_swallowed :
  ConvertMultilineEntrypoint "train --lr 1 \

evaluate" true = inl "train --lr 1  evaluate".
Proof. reflexivity. Qed.

(** An interpreter with an argument becomes one word of the command, the name of a
    program that does not exist. *)
Example interpreter_with_argument :
  ConvertMultilineEntrypoint "#!/usr/bin/env bash
evaluate" false = inr ["/usr/bin/env bash"; "-c"; "evaluate"].
Proof. vm_compute. reflexivity. Qed.
