(* ===== verification/Framework.v ===== *)
(** The generic reconciler (internal/controller/utils: reconciler.go, apply.go, status.go,
    finalizer.go, types.go): observe, plan, apply, project the status and patch it, with
    a finalizer around the life of the object. What a controller supplies as functions
    is a call that its environment answers. *)

From stdpp Require Import strings list sorting.
From Stdlib Require Import ZArith Lia.
From S2P Require Import Prelude History Types Ordering.

(** * Interfaces *)

(** [client.Object], as the objects to apply use it, with what the scheme says of their
    kinds and how a kind prints. *)
Class ClientObject (O : Type) := {
  GetNamespace : O → string;
  GetName : O → string;
  ObjectKind : O → GroupVersionKind;
  SetGroupVersionKind : GroupVersionKind → O → O;
  ObjectKinds : O → error + list GroupVersionKind;
  GVKString : GroupVersionKind → string;
  ObjectKind_set g o : ObjectKind (SetGroupVersionKind g o) = g;
  GetNamespace_set g o : GetNamespace (SetGroupVersionKind g o) = GetNamespace o;
  GetName_set g o : GetName (SetGroupVersionKind g o) = GetName o
}.

(** [ObjectWithStatus] and the finalizer functions of controllerutil. A status type may
    have a generated copy function; [SetObservedGeneration] does nothing on one without
    the field. *)
Class ObjectWithStatus (T St : Type) := {
  objectKey : T → Key;
  DeletionTimestamp : T → option Z;
  Generation : T → Z;
  GetStatus : T → St;
  SetStatus : St → T → T;
  SetObservedGeneration : Z → St → St;
  DeepCopy : option (St → St);
  JSONCopy : St → St;
  ContainsFinalizer : T → string → bool;
  AddFinalizer : string → T → T;
  RemoveFinalizer : string → T → T;
  GetStatus_set s o : GetStatus (SetStatus s o) = s;
  objectKey_set s o : objectKey (SetStatus s o) = objectKey o;
  ContainsFinalizer_add o f : ContainsFinalizer (AddFinalizer f o) f = true;
  ContainsFinalizer_remove o f : ContainsFinalizer (RemoveFinalizer f o) f = false
}.

Section framework.
Context {T St O Obs : Type} `{!EqDecision St} `{!ObjectWithStatus T St} `{!ClientObject O} `{GoOrder}.

(** * Data *)

Record ReconcileErrors := {
  ObserveErr : option error;
  PlanErr : option error;
  ApplyErr : option error;
  FinalizeErr : option error
}.

Definition noErrors : ReconcileErrors := {| ObserveErr := None; PlanErr := None; ApplyErr := None; FinalizeErr := None |}.

Definition HasError (e : ReconcileErrors) : bool :=
  bool_decide (is_Some (ObserveErr e)) || bool_decide (is_Some (PlanErr e)) || bool_decide (is_Some (ApplyErr e)) ||
  bool_decide (is_Some (FinalizeErr e)).

Record ReconcileSpec := {
  Object_ : T;
  FinalizerName : string;
  FieldOwner : string;
  hasFinalizeFn : bool
}.

Record ApplyConfig := { ac_FieldOwner : string; EnablePruning : bool; InventoryLabels : list (string * string) }.

(** * Calls *)

(** The functions of the controller see the object as it is when they are called;
    [ProjectFn] leaves it with its new status, even when it fails. *)
Inductive frame_req :=
| ObserveFn (o : T)
| PlanFn (o : T) (obs : Obs)
| ProjectFn (o : T) (obs : Obs) (errs : ReconcileErrors)
| FinalizeFn (o : T) (obs : Obs)
| Update (o : T)
| Get (k : Key)
| StatusUpdate (o : T)
| Patch (d : O) (fieldOwner : string).

Definition frame_resp (r : frame_req) : Type :=
  match r with
  | ObserveFn _ => Obs * option error
  | PlanFn _ _ => list O * option error
  | ProjectFn _ _ _ => T * option error
  | FinalizeFn _ _ => option error
  | Update _ | Get _ => error + T
  | StatusUpdate _ | Patch _ _ => option error
  end.

Definition FrameSig : sig := Sig frame_req frame_resp.
Abbreviation FM := (prog FrameSig).
Abbreviation fcall r := (call (S := FrameSig) r).

(** * Applying *)

Definition stampGVK (obj : O) : error + O :=
  match ObjectKinds obj with
  | inl err => inl (Wrapf "cannot find GVK" err)
  | inr [] => inl (Errorf "no GVK registered")
  | inr (gvk :: _) => inr (SetGroupVersionKind gvk obj)
  end.

Fixpoint stampAll (desired : list O) : error + list O :=
  match desired with
  | [] => inr []
  | obj :: desired' =>
      match stampGVK obj with
      | inl err => inl (Wrapf "failed to stamp GVK" err)
      | inr obj' => match stampAll desired' with inl err => inl err | inr rest => inr (obj' :: rest) end
      end
  end.

(** By kind, then namespace, then name. *)
Definition objectLess : O → O → bool :=
  byKey (λ o, GVKString (ObjectKind o)) (byKey GetNamespace (λ x y, Str.lt (GetName x) (GetName y))).

Definition sortObjects (objects : list O) : list O := sortSlice objectLess objects.

Definition ApplyDesiredState (desired : list O) (config : ApplyConfig) : FM (option error) :=
  if decide (desired = []) then mret None
  else
    match stampAll desired with
    | inl err => mret (Some err)
    | inr stamped =>
        r ← for_range (sortObjects stamped) tt (λ obj _,
          e ← fcall (Patch obj (ac_FieldOwner config));
          mret (match e with
                | Some err => Return (Wrapf ("failed to apply " +:+ gvk_kind (ObjectKind obj) +:+ " " +:+ GetName obj) err)
                | None => Continue tt
                end));
        mret (match r with inl _ => None | inr err => Some err end)
    end.

(** * The status *)

Definition cloneStatus (obj : T) : St :=
  match DeepCopy with Some copy => copy (GetStatus obj) | None => JSONCopy (GetStatus obj) end.

(** One attempt: the status goes onto the object as it is now. *)
Definition patchAttempt (key : Key) (desiredStatus originalStatus : St) : FM (option error) :=
  got ← fcall (Get key);
  match got with
  | inl err => mret (if IsNotFound err then None else Some err)
  | inr obj =>
      let status := SetObservedGeneration (Generation obj) desiredStatus in
      if decide (originalStatus = status) then mret None
      else
        e ← fcall (StatusUpdate (SetStatus status obj));
        mret (match e with Some err => Some (Wrapf "failed to update status" err) | None => None end)
  end.

Definition PatchStatus (retries : RetryOf FrameSig) (obj : T) (originalStatus : St) : FM (option error) :=
  let desiredStatus := cloneStatus obj in
  RetryOnConflict retries (patchAttempt (objectKey obj) desiredStatus originalStatus).

(** * Reconciling *)

Context (retries : RetryOf FrameSig).

(** Projecting and patching where no error of either is returned. *)
Definition projectAndPatch (obj : T) (obs : Obs) (errs : ReconcileErrors) : FM unit :=
  let originalStatus := cloneStatus obj in
  projected ← fcall (ProjectFn obj obs errs);
  _ ← PatchStatus retries projected.1 originalStatus;
  mret tt.

Definition handleDeletion (spec : ReconcileSpec) (errs : ReconcileErrors) : FM (Result * option error) :=
  let obj := Object_ spec in
  observed ← fcall (ObserveFn obj);
  let obs := observed.1 in
  finalizeErr ← (if hasFinalizeFn spec then fcall (FinalizeFn obj obs) else mret None);
  let errs := {| ObserveErr := observed.2; PlanErr := PlanErr errs; ApplyErr := ApplyErr errs;
                 FinalizeErr := if hasFinalizeFn spec then finalizeErr else FinalizeErr errs |} in
  match finalizeErr with
  | Some err => _ ← projectAndPatch obj obs errs; mret (done_, Some err)
  | None =>
      removed ← (if bool_decide (FinalizerName spec ≠ "") && ContainsFinalizer obj (FinalizerName spec)
                 then fcall (Update (RemoveFinalizer (FinalizerName spec) obj)) else mret (inr obj));
      match removed with
      | inl err => mret (done_, Some (Wrapf "failed to remove finalizer" err))
      | inr obj => _ ← projectAndPatch obj obs errs; mret (done_, None)
      end
  end.

Definition Millisecond : Z := 1000000.

(** The steps after a successful observation. *)
Definition planAndApply (spec : ReconcileSpec) (obs : Obs) : FM (Result * option error) :=
  let obj := Object_ spec in
  planned ← fcall (PlanFn obj obs);
  let '(desired, planErr) := planned in
  applyErr ← (if bool_decide (planErr = None) && bool_decide (desired ≠ [])
              then ApplyDesiredState desired {| ac_FieldOwner := FieldOwner spec; EnablePruning := false; InventoryLabels := [] |}
              else mret None);
  let errs := {| ObserveErr := None; PlanErr := planErr; ApplyErr := applyErr; FinalizeErr := None |} in
  let originalStatus := cloneStatus obj in
  projected ← fcall (ProjectFn obj obs errs);
  match projected.2 with
  | Some projErr => mret (done_, Some projErr)
  | None =>
      patchErr ← PatchStatus retries projected.1 originalStatus;
      match patchErr with
      | Some err => mret (done_, Some err)
      | None =>
          mret (done_, if HasError errs then match applyErr with Some err => Some err | None => planErr end else None)
      end
  end.

Definition Reconcile (spec : ReconcileSpec) : FM (Result * option error) :=
  let obj := Object_ spec in
  if bool_decide (FinalizerName spec ≠ "") && bool_decide (DeletionTimestamp obj = None) &&
     negb (ContainsFinalizer obj (FinalizerName spec)) then
    updated ← fcall (Update (AddFinalizer (FinalizerName spec) obj));
    mret (match updated with
          | inl err => (done_, Some (Wrapf "failed to add finalizer" err))
          | inr _ => (requeueAfter Millisecond, None)
          end)
  else if decide (DeletionTimestamp obj ≠ None) then handleDeletion spec noErrors
  else
    observed ← fcall (ObserveFn obj);
    match observed.2 with
    | Some observeErr =>
        _ ← projectAndPatch obj observed.1 {| ObserveErr := Some observeErr; PlanErr := None; ApplyErr := None; FinalizeErr := None |};
        mret (done_, Some observeErr)
    | None => planAndApply spec observed.1
    end.

(** For resources without a status; the functions do not depend on an object. *)
Definition ReconcileWithoutStatus (obj : T) (fieldOwner : string) : FM (Result * option error) :=
  observed ← fcall (ObserveFn obj);
  match observed.2 with
  | Some observeErr => mret (done_, Some observeErr)
  | None =>
      planned ← fcall (PlanFn obj observed.1);
      match planned.2 with
      | Some planErr => mret (done_, Some planErr)
      | None =>
          if decide (planned.1 ≠ []) then
            applyErr ← ApplyDesiredState planned.1 {| ac_FieldOwner := fieldOwner; EnablePruning := false; InventoryLabels := [] |};
            mret (done_, applyErr)
          else mret (done_, None)
      end
  end.

(** * Properties *)

(** What the reconciler can give as the reason of its calls, from what happened before. *)
Definition account (spec : ReconcileSpec) (h : trace FrameSig) (e : event FrameSig) : Prop :=
  let obj := Object_ spec in
  match e with
  | existT (Patch d owner) _ =>
      owner = FieldOwner spec ∧ DeletionTimestamp obj = None ∧
      (FinalizerName spec ≠ "" → ContainsFinalizer obj (FinalizerName spec) = true) ∧
      ∃ obs desired d0, ev (S := FrameSig) (ObserveFn obj) (obs, None) ∈ h ∧
        ev (S := FrameSig) (PlanFn obj obs) (desired, None) ∈ h ∧ d0 ∈ desired ∧ stampGVK d0 = inr d
  | existT (Update o) _ =>
      FinalizerName spec ≠ "" ∧
      (DeletionTimestamp obj = None ∧ ContainsFinalizer obj (FinalizerName spec) = false ∧
         o = AddFinalizer (FinalizerName spec) obj ∧ h = [] ∨
       DeletionTimestamp obj ≠ None ∧ ContainsFinalizer obj (FinalizerName spec) = true ∧
         o = RemoveFinalizer (FinalizerName spec) obj ∧
         (hasFinalizeFn spec = true → ∃ obs, ev (S := FrameSig) (FinalizeFn obj obs) None ∈ h))
  | existT (StatusUpdate o) _ =>
      ∃ before obs errs projected fresh,
        ev (S := FrameSig) (ProjectFn before obs errs) projected ∈ h ∧
        ev (S := FrameSig) (Get (objectKey projected.1)) (inr fresh) ∈ h ∧
        o = SetStatus (SetObservedGeneration (Generation fresh) (cloneStatus projected.1)) fresh ∧ GetStatus o ≠ cloneStatus before
  | _ => True
  end.

Lemma stampAll_in desired stamped d :
  stampAll desired = inr stamped → d ∈ stamped → ∃ d0, d0 ∈ desired ∧ stampGVK d0 = inr d.
Proof.
  revert stamped. induction desired as [|o desired IH]; intros stamped; cbn [stampAll]; [by intros [= <-] []%elem_of_nil|].
  destruct (stampGVK o) as [|o'] eqn:Ho; [done|]. destruct (stampAll desired) as [|rest]; [done|]. intros [= <-].
  rewrite elem_of_cons. intros [->|Hin].
  - exists o. split; [by left|done].
  - destruct (IH rest eq_refl Hin) as (d0 & Hd0 & Hs). exists d0. split; [by right|done].
Qed.

Section accounts.
Context (spec : ReconcileSpec).
Abbreviation traced' := (traced (account spec)).

Lemma PatchStatus_traced h before obs errs projected :
  ev (S := FrameSig) (ProjectFn before obs errs) projected ∈ h →
  traced' h (PatchStatus retries projected.1 (cloneStatus before)) (λ h' _, h ⊆ h').
Proof.
  intros Hp. apply traced_retry; [done|]. intros h' Hh'. on_event [err|fresh]; [by apply traced_ret, list_subseteq_app_l|].
  cbv zeta. case_decide as Hs; [by apply traced_ret, list_subseteq_app_l|]. apply traced_call. intros x. split.
  - exists before, obs, errs, projected, fresh. split_and!; [|apply elem_of_app; right; by left|done|].
    + apply elem_of_app. left. by apply Hh'.
    + rewrite GetStatus_set. by intros E.
  - apply traced_ret. by repeat apply list_subseteq_app_l.
Qed.

Lemma projectAndPatch_traced h obj obs errs : traced' h (projectAndPatch obj obs errs) (λ h' _, h ⊆ h').
Proof.
  unfold projectAndPatch. cbv zeta. on_event projected. apply traced_bind.
  eapply traced_mono; [eapply PatchStatus_traced; apply elem_of_app; right; by left|]. intros h' a _ Hh'.
  apply traced_ret. etrans; [|exact Hh']. by apply list_subseteq_app_l.
Qed.

(** Objects are applied for a plan that can be shown. *)
Lemma ApplyDesiredState_traced h obs desired :
  DeletionTimestamp (Object_ spec) = None → (FinalizerName spec ≠ "" → ContainsFinalizer (Object_ spec) (FinalizerName spec) = true) →
  ev (S := FrameSig) (ObserveFn (Object_ spec)) (obs, None) ∈ h → ev (S := FrameSig) (PlanFn (Object_ spec) obs) (desired, None) ∈ h →
  traced' h (ApplyDesiredState desired {| ac_FieldOwner := FieldOwner spec; EnablePruning := false; InventoryLabels := [] |}) (λ h' _, h ⊆ h').
Proof.
  intros Hdel Hfin Hobs Hplan. unfold ApplyDesiredState. case_decide; [by apply traced_ret|].
  destruct (stampAll desired) as [err|stamped] eqn:Hs; [by apply traced_ret|]. apply traced_bind.
  eapply traced_mono; [apply (traced_for_range _ (λ h' _, h ⊆ h') (λ h' _, h ⊆ h')); [|done]|].
  - intros d h' [] Hd Hh'. apply traced_call. intros x. split.
    + split_and!; [done..|]. unfold sortObjects in Hd. rewrite sortSlice_perm in Hd. destruct (stampAll_in _ _ _ Hs Hd) as (d0 & Hd0 & Hst).
      exists obs, desired, d0. split_and!; [by apply Hh'|by apply Hh'|done|done].
    + destruct x; apply traced_ret; by apply list_subseteq_app_l.
  - intros h' [|] _ Hh'; by apply traced_ret.
Qed.

Abbreviation anyhow := (λ _ _, True).

Lemma handleDeletion_traced : DeletionTimestamp (Object_ spec) ≠ None → traced' [] (handleDeletion spec noErrors) anyhow.
Proof.
  intros Hdel. unfold handleDeletion. cbv zeta. on_event observed. apply traced_bind.
  eapply (traced_mono _ _ _ (λ h' r, r = None → hasFinalizeFn spec = true → ∃ obs, ev (S := FrameSig) (FinalizeFn (Object_ spec) obs) None ∈ h')).
  { destruct (hasFinalizeFn spec); [|by apply traced_ret]. intros r _. split; [done|]. intros -> _. eexists. apply elem_of_app. right. by left. }
  intros h' [err|] _ Hfin; cbv beta iota.
  - apply traced_bind. eapply traced_mono; [apply projectAndPatch_traced|]. intros. by apply traced_ret.
  - destruct (bool_decide _ && _) eqn:E.
    + apply andb_true_iff in E as [Hn%bool_decide_eq_true Hc]. apply (traced_call (account spec)). intros x. split.
      * split; [done|]. right. by split_and!; [..|apply Hfin].
      * destruct x as [err|obj]; [by apply traced_ret|]. apply traced_bind. eapply traced_mono; [apply projectAndPatch_traced|].
        intros. by apply traced_ret.
    + apply (traced_bind _ _ (mret (inr (Object_ spec)))). apply traced_ret. apply traced_bind.
      eapply traced_mono; [apply projectAndPatch_traced|]. intros. by apply traced_ret.
Qed.

Lemma planAndApply_traced h obs :
  DeletionTimestamp (Object_ spec) = None → (FinalizerName spec ≠ "" → ContainsFinalizer (Object_ spec) (FinalizerName spec) = true) →
  ev (S := FrameSig) (ObserveFn (Object_ spec)) (obs, None) ∈ h → traced' h (planAndApply spec obs) anyhow.
Proof.
  intros Hdel Hfin Hobs. unfold planAndApply. on_event [desired planErr]. apply traced_bind.
  eapply (traced_mono _ _ _ (λ _ _, True)).
  { destruct (bool_decide _ && _) eqn:E; [|by apply traced_ret]. apply andb_true_iff in E as [->%bool_decide_eq_true _].
    eapply traced_mono; [eapply ApplyDesiredState_traced; [done..| |]|done]; apply elem_of_app; [by left|right; by left]. }
  intros h' applyErr _ _. cbv beta zeta. on_event projected. destruct projected as [o1 [projErr|]]; cbn [snd fst]; [by apply traced_ret|].
  apply traced_bind. eapply traced_mono.
  - eapply (PatchStatus_traced _ _ _ _ (o1, None)). apply elem_of_app. right. by left.
  - intros h'' [err|] _ _; by apply traced_ret.
Qed.

End accounts.

(** Nothing the reconciler does to the cluster is without its reason. An object is
    applied only when the resource is not being deleted and has its finalizer, for a plan
    that was made from a successful observation and contains it, under the field owner
    of the controller. The resource itself is updated only to add the finalizer, before
    anything else is done, or, once it is being deleted, to remove it, after the
    finalization succeeded if there is one. A status is written only onto the object as
    it was just read, as the projection left it, and only if it differs from the status
    before. *)
Theorem Reconcile_accounted spec : always anything (Reconcile spec) (λ tr _, justified (account spec) [] tr).
Proof.
  assert (traced (account spec) [] (Reconcile spec) (λ _ _, True)) as Ht; [|eapply always_mono; [exact Ht|by intros tr a [? _]]].
  unfold Reconcile. cbv zeta. destruct (bool_decide (FinalizerName spec ≠ "") && _ && _) eqn:E.
  - rewrite !andb_true_iff, !bool_decide_eq_true, negb_true_iff in E. destruct E as [[Hn Hd] Hc].
    apply traced_call. intros x. split; [split; [done|left; done]|]. by apply traced_ret.
  - destruct (decide (DeletionTimestamp (Object_ spec) ≠ None)) as [Hd|Hd]; [by apply handleDeletion_traced|]. apply dec_stable in Hd. on_event observed.
    destruct observed as [obs [err|]]; cbn [snd fst].
    + apply traced_bind. eapply traced_mono; [apply projectAndPatch_traced|]. intros. by apply traced_ret.
    + apply planAndApply_traced; [done| |by left]. intros Hn. rewrite (bool_decide_eq_true_2 _ Hn), (bool_decide_eq_true_2 _ Hd) in E.
      cbn in E. by apply negb_false_iff in E.
Qed.

(** ** What is applied, and in which order *)

(** Applying a list of objects, all with success. *)
Definition patches (owner : string) (l : list O) : trace FrameSig := (λ d, ev (S := FrameSig) (Patch d owner) None) <$> l.

Definition applyError (d : O) (err : error) : error :=
  Wrapf ("failed to apply " +:+ gvk_kind (ObjectKind d) +:+ " " +:+ GetName d) err.

(** A run that applies some of [l] and ends with [r]. *)
Definition applies (owner : string) (l : list O) (tr : trace FrameSig) (r : option error) : Prop :=
  r = None ∧ tr = patches owner l ∨
  ∃ before d after err, l = before ++ d :: after ∧ tr = patches owner before ++ [ev (S := FrameSig) (Patch d owner) (Some err)] ∧
    r = Some (applyError d err).

(** The loop over the sorted objects. *)
Lemma apply_loop owner l :
  always anything (for_range l tt (λ obj _, e ← fcall (Patch obj owner);
    mret (match e with Some err => Return (applyError obj err) | None => Continue tt end)))
    (λ tr r, applies owner l tr (match r with inl _ => None | inr err => Some err end)).
Proof.
  induction l as [|d l IH]; [by left|]. cbn [for_range]. on_call e. destruct e as [err|]; cbn.
  - right. by exists [], d, l, err.
  - eapply always_mono; [exact IH|]. intros tr r [[Hr ->]|(before & d' & after & err & -> & -> & Hr)]; [by left|].
    right. by exists (d :: before), d', after, err.
Qed.

(** The objects of a plan get their kinds from the scheme and are applied one by one
    in the order of kind, namespace and name, until one fails, and the error says
    which; when the kind of one is unknown, none is applied. *)
Theorem ApplyDesiredState_spec desired config :
  always anything (ApplyDesiredState desired config) (λ tr r,
    match stampAll desired with
    | inl err => tr = [] ∧ r = Some err
    | inr stamped => applies (ac_FieldOwner config) (sortObjects stamped) tr r
    end).
Proof.
  unfold ApplyDesiredState. case_decide as Hd.
  { subst. cbn. left. split; [done|]. unfold sortObjects. by rewrite (proj1 (Permutation_nil_r _) (sortSlice_perm objectLess [])). }
  destruct (stampAll desired) as [err|stamped]; [done|]. apply always_bind. eapply always_mono; [apply apply_loop|].
  intros tr r Ha. cbn. by rewrite app_nil_r.
Qed.

(** The key the order looks at. *)
Definition sortKey (o : O) : string * string * string := (GVKString (ObjectKind o), GetNamespace o, GetName o).

Lemma objectLess_order : strict_weak objectLess.
Proof. unfold objectLess. auto using byKey_order, by_order. Qed.

Lemma objectLess_total x y : objectLess x y = false → objectLess y x = false → sortKey x = sortKey y.
Proof.
  intros Hx Hy. unfold objectLess in *. destruct (byKey_total _ _ _ _ Hx Hy) as (E1 & Hx1 & Hy1).
  destruct (byKey_total _ _ _ _ Hx1 Hy1) as (E2 & Hx2 & Hy2). unfold sortKey. by rewrite E1, E2, (Str_lt_total _ _ Hx2 Hy2).
Qed.

Lemma stampAll_perm desired desired' stamped :
  desired ≡ₚ desired' → stampAll desired = inr stamped → ∃ stamped', stampAll desired' = inr stamped' ∧ stamped ≡ₚ stamped'.
Proof.
  intros Hp. revert stamped. induction Hp as [|o l l' Hp IH|o o' l|l l' l'' Hp IH Hp' IH']; intros stamped; cbn [stampAll].
  - intros [= <-]. by exists [].
  - destruct (stampGVK o) as [|d]; [done|]. destruct (stampAll l) as [|rest]; [done|]. intros [= <-].
    destruct (IH rest eq_refl) as (rest' & -> & Hr). exists (d :: rest'). split; [done|]. by constructor.
  - destruct (stampGVK o') as [|d']; [done|]. destruct (stampGVK o) as [|d]; [done|]. destruct (stampAll l) as [|rest]; [done|].
    intros [= <-]. exists (d :: d' :: rest). split; [done|]. constructor.
  - intros Hs. destruct (IH stamped Hs) as (s1 & Hs1 & Hp1). destruct (IH' s1 Hs1) as (s2 & Hs2 & Hp2). exists s2. split; [done|]. by etrans.
Qed.

(** The order in which a plan lists its objects makes no difference, provided no two
    have the same kind, namespace and name. *)
Theorem ApplyDesiredState_deterministic desired desired' stamped config :
  desired ≡ₚ desired' → stampAll desired = inr stamped → NoDup (sortKey <$> stamped) →
  ApplyDesiredState desired config = ApplyDesiredState desired' config.
Proof.
  intros Hp Hs Hd. unfold ApplyDesiredState. destruct (stampAll_perm _ _ _ Hp Hs) as (stamped' & Hs' & Hps). rewrite Hs, Hs'.
  assert (sortObjects stamped = sortObjects stamped') as ->.
  { apply sortSlice_canonical; [apply objectLess_order| |done]. intros x y Hx Hy Hxy Hyx.
    pose proof (objectLess_total _ _ Hxy Hyx) as E. apply list_elem_of_lookup in Hx as [i Hi], Hy as [j Hj].
    assert (i = j) as ->; [|congruence]. eapply NoDup_lookup; [exact Hd|rewrite list_lookup_fmap, Hi; done|rewrite list_lookup_fmap, Hj; cbn; congruence]. }
  destruct (decide (desired = [])) as [->|Hne].
  - apply Permutation_nil_l in Hp. by rewrite decide_True by (by symmetry).
  - rewrite decide_False; [done|]. intros ->. by apply Permutation_nil_r in Hp.
Qed.

(** ** A reconcile without errors *)

(** How patching the status of [obj] ends when there is no error: the resource is gone,
    or has the status already, or is given it. *)
Definition settled (obj : T) (originalStatus : St) (tr : trace FrameSig) : Prop :=
  ∃ earlier final, tr = earlier ++ final ∧
    ((∃ err, final = [ev (S := FrameSig) (Get (objectKey obj)) (inl err)] ∧ IsNotFound err = true) ∨
     ∃ fresh, let status := SetObservedGeneration (Generation fresh) (cloneStatus obj) in
       (final = [ev (S := FrameSig) (Get (objectKey obj)) (inr fresh)] ∧ originalStatus = status ∨
        final = [ev (S := FrameSig) (Get (objectKey obj)) (inr fresh); ev (S := FrameSig) (StatusUpdate (SetStatus status fresh)) None])).

Lemma patchAttempt_settled obj originalStatus :
  always anything (patchAttempt (objectKey obj) (cloneStatus obj) originalStatus) (λ tr r, r = None → settled obj originalStatus tr).
Proof.
  unfold patchAttempt. on_call got. destruct got as [err|fresh].
  - destruct (IsNotFound err) eqn:E; [|done]. intros _. eexists [], _. split; [done|]. left. by exists err.
  - cbv zeta. case_decide as Hs.
    + intros _. eexists [], _. split; [done|]. right. exists fresh. by left.
    + on_call e. destruct e; [done|]. intros _. eexists [], _. split; [done|]. right. exists fresh. by right.
Qed.

Lemma PatchStatus_settled obj originalStatus :
  always anything (PatchStatus retries obj originalStatus) (λ tr r, r = None → settled obj originalStatus tr).
Proof.
  apply always_exec. intros tr r Hex%RetryOnConflict_retries ->. remember None as r eqn:Hr. revert Hr.
  induction Hex as [tr r Hex|tr err tr' r Hex _ _ IH]; intros Hr.
  - by apply (exec_always _ _ _ _ Hex _ (patchAttempt_settled obj originalStatus)).
  - destruct (IH Hr) as (earlier & final & -> & Hf). exists (tr ++ earlier), final. by rewrite app_assoc.
Qed.

Lemma planAndApply_complete spec obs :
  always anything (planAndApply spec obs) (λ tr r, r.2 = None → ∃ desired stamped projected tr',
    stampAll desired = inr stamped ∧
    tr = ev (S := FrameSig) (PlanFn (Object_ spec) obs) (desired, None) :: patches (FieldOwner spec) (sortObjects stamped) ++
         ev (S := FrameSig) (ProjectFn (Object_ spec) obs noErrors) (projected, None) :: tr' ∧
    settled projected (cloneStatus (Object_ spec)) tr').
Proof.
  unfold planAndApply. cbv zeta. on_call planned. destruct planned as [desired planErr]. apply always_bind.
  apply (always_mono _ _ (λ tr applyErr, planErr = None → applyErr = None → ∃ stamped, stampAll desired = inr stamped ∧
    tr = patches (FieldOwner spec) (sortObjects stamped))).
  { destruct planErr as [e|]; [by destruct (bool_decide _ && _) eqn:E; [apply andb_true_iff in E as [?%bool_decide_eq_true _]|]|].
    rewrite (bool_decide_eq_true_2 (None = None)) by done. cbn [andb]. destruct (bool_decide (desired ≠ [])) eqn:Hd.
    - eapply always_mono; [apply ApplyDesiredState_spec|]. intros tr r Ha _ ->. destruct (stampAll desired) as [|stamped]; [by destruct Ha|].
      exists stamped. split; [done|]. destruct Ha as [[_ ->]|(? & ? & ? & ? & _ & _ & ?)]; done.
    - apply bool_decide_eq_false, dec_stable in Hd as ->. intros _ _. exists []. split; [done|]. unfold sortObjects.
      by rewrite (proj1 (Permutation_nil_r _) (sortSlice_perm objectLess [])). }
  intros tra applyErr Happ. cbv beta. on_call projected. destruct projected as [o1 [projErr|]]; cbn [snd fst]; [done|].
  apply always_bind. eapply always_mono; [apply PatchStatus_settled|]. intros trp [patchErr|] Hset; [done|]. cbn.
  intros Hr. assert (planErr = None ∧ applyErr = None) as [-> ->].
  { unfold HasError in Hr. cbn in Hr. destruct planErr, applyErr; done. }
  destruct (Happ eq_refl eq_refl) as (stamped & Hst & ->). exists desired, stamped, o1, trp. rewrite app_nil_r.
  split_and!; [done|done|by apply Hset].
Qed.

(** A call that touches nothing but the status. *)
Definition statusOnly (e : event FrameSig) : Prop :=
  match projT1 e with ProjectFn _ _ _ | Get _ | StatusUpdate _ => True | _ => False end.

Lemma projectAndPatch_statusOnly obj obs errs : always anything (projectAndPatch obj obs errs) (λ tr _, Forall statusOnly tr).
Proof.
  unfold projectAndPatch. cbv zeta. on_call projected. apply always_bind.
  eapply always_mono; [apply (RetryOnConflict_spec _ _ (Forall statusOnly))|].
  - intros tr tr'. apply Forall_app_2.
  - unfold patchAttempt. on_call got. destruct got as [e|fresh]; [by repeat constructor|]. cbv zeta.
    case_decide; [by repeat constructor|]. on_call e'. by repeat constructor.
  - intros tr a Ht. cbn. rewrite app_nil_r. by constructor.
Qed.

(** A reconcile of a resource that is not being deleted and has its finalizer, if it
    returns no error, has observed and planned with success, applied every object of the
    plan, in order, then projected the status without an error, and last seen to it that
    the resource has that status, with the generation it was read at, or is gone. When
    the observation fails, its error is returned and nothing but the status is
    written. *)
Theorem Reconcile_complete spec :
  DeletionTimestamp (Object_ spec) = None → (FinalizerName spec ≠ "" → ContainsFinalizer (Object_ spec) (FinalizerName spec) = true) →
  always anything (Reconcile spec) (λ tr r, ∃ obs observeErr tr1,
    tr = ev (S := FrameSig) (ObserveFn (Object_ spec)) (obs, observeErr) :: tr1 ∧
    match observeErr with
    | Some err => r = (done_, Some err) ∧ Forall statusOnly tr1
    | None =>
        r.2 = None → ∃ desired stamped projected tr',
          stampAll desired = inr stamped ∧
          tr1 = ev (S := FrameSig) (PlanFn (Object_ spec) obs) (desired, None) :: patches (FieldOwner spec) (sortObjects stamped) ++
            ev (S := FrameSig) (ProjectFn (Object_ spec) obs noErrors) (projected, None) :: tr' ∧
          settled projected (cloneStatus (Object_ spec)) tr'
    end).
Proof.
  intros Hdel Hfin. unfold Reconcile. cbv zeta. destruct (bool_decide (FinalizerName spec ≠ "") && _ && _) eqn:E.
  { rewrite !andb_true_iff, bool_decide_eq_true, negb_true_iff in E. destruct E as [[Hn _] Hc]. rewrite Hfin in Hc by done. done. }
  destruct (decide (DeletionTimestamp (Object_ spec) ≠ None)) as [Hd|_]; [done|]. on_call observed. destruct observed as [obs [err|]]; cbn [snd fst].
  - apply always_bind. eapply always_mono; [apply projectAndPatch_statusOnly|]. intros tr [] Ht.
    exists obs, (Some err), tr. rewrite app_nil_r. done.
  - eapply always_mono; [apply planAndApply_complete|]. intros tr r Hr. by exists obs, None, tr.
Qed.

(** ** Without a status *)

(** What follows the observation. *)
Definition outcomeOf (owner : string) (obj : T) (obs : Obs) (observeErr : option error) (tr : trace FrameSig) (r : Result * option error) : Prop :=
  match observeErr with
  | Some err => tr = [] ∧ r = (done_, Some err)
  | None => ∃ desired planErr tr', tr = ev (S := FrameSig) (PlanFn obj obs) (desired, planErr) :: tr' ∧
      match planErr with
      | Some err => tr' = [] ∧ r = (done_, Some err)
      | None => r.1 = done_ ∧
          match stampAll desired with
          | inl err => tr' = [] ∧ r.2 = Some err
          | inr stamped => applies owner (sortObjects stamped) tr' r.2
          end
      end
  end.

(** Without a status, the error of the observation or of the plan is returned as it
    is and nothing is applied, and otherwise the objects of the plan are applied in
    order, until one fails. *)
Theorem ReconcileWithoutStatus_spec obj owner :
  always anything (ReconcileWithoutStatus obj owner) (λ tr r, ∃ obs observeErr tr1,
    tr = ev (S := FrameSig) (ObserveFn obj) (obs, observeErr) :: tr1 ∧ outcomeOf owner obj obs observeErr tr1 r).
Proof.
  unfold ReconcileWithoutStatus. on_call observed. destruct observed as [obs [err|]]; cbn [snd fst]; [by exists obs, (Some err), []|].
  on_call planned. destruct planned as [desired [err|]]; cbn [snd fst].
  - exists obs, None. eexists. split; [done|]. by exists desired, (Some err), [].
  - assert (∀ tr2 r, (match stampAll desired with
        | inl err => tr2 = [] ∧ r = Some err
        | inr stamped => applies owner (sortObjects stamped) tr2 r end) →
      ∃ obs' observeErr tr1, ev (S := FrameSig) (ObserveFn obj) (obs, None) :: ev (S := FrameSig) (PlanFn obj obs) (desired, None) :: tr2 =
          ev (S := FrameSig) (ObserveFn obj) (obs', observeErr) :: tr1 ∧ outcomeOf owner obj obs' observeErr tr1 (done_, r)) as Hk.
    { intros tr2 r Hr. exists obs, None. eexists. split; [done|]. exists desired, None, tr2. done. }
    destruct (decide (desired ≠ [])) as [Hd|Hd].
    + apply always_bind. eapply always_mono; [apply ApplyDesiredState_spec|]. intros tr r Hr. cbn. rewrite app_nil_r. by apply Hk.
    + apply dec_stable in Hd as ->. apply (Hk []). left. split; [done|]. unfold sortObjects.
      by rewrite (proj1 (Permutation_nil_r _) (sortSlice_perm objectLess [])).
Qed.

End framework.
