(* ===== verification/WorkloadTypes.v ===== *)
(** The data of KaiwoJob and KaiwoService workloads (apis/kaiwo/v1alpha1:
    common_types.go, kaiwojob_types.go, kaiwoservice_types.go): their statuses,
    their storage, and the objects they own with the fields the reconcilers
    read. *)

From stdpp Require Import gmap strings list.
From Stdlib Require Import ZArith.
From S2P Require Import Prelude Types Scheduling.

(** * Statuses *)

Inductive WorkloadStatus :=
| WorkloadStatusNew
| WorkloadStatusDownloading
| WorkloadStatusPending
| WorkloadStatusStarting
| WorkloadStatusRunning
| WorkloadStatusComplete
| WorkloadStatusError
| WorkloadStatusFailed
| WorkloadStatusTerminating
| WorkloadStatusTerminated.

#[export] Instance WorkloadStatus_eq_dec : EqDecision WorkloadStatus.
Proof. solve_decision. Defined.

(** What [%s] prints. *)
Definition statusText (s : WorkloadStatus) : string :=
  match s with
  | WorkloadStatusNew => ""
  | WorkloadStatusDownloading => "DOWNLOADING"
  | WorkloadStatusPending => "PENDING"
  | WorkloadStatusStarting => "STARTING"
  | WorkloadStatusRunning => "RUNNING"
  | WorkloadStatusComplete => "COMPLETE"
  | WorkloadStatusError => "ERROR"
  | WorkloadStatusFailed => "FAILED"
  | WorkloadStatusTerminating => "TERMINATING"
  | WorkloadStatusTerminated => "TERMINATED"
  end.

(** The map of ranks; the two statuses that are not in it read as zero. *)
Definition workloadStatusRank (s : WorkloadStatus) : Z :=
  match s with
  | WorkloadStatusNew | WorkloadStatusDownloading => 0
  | WorkloadStatusRunning => 0
  | WorkloadStatusComplete => 1
  | WorkloadStatusPending => 2
  | WorkloadStatusStarting => 3
  | WorkloadStatusError => 4
  | WorkloadStatusFailed => 5
  | WorkloadStatusTerminating => 6
  | WorkloadStatusTerminated => 7
  end.

(** The loop keeps [currentStatusRank] at its initial value. *)
Definition DetermineOverallStatus (statuses : list WorkloadStatus) : WorkloadStatus :=
  let currentStatusRank := -1 in
  foldl (λ overallStatus status,
    let statusRank := workloadStatusRank status in
    if decide (currentStatusRank < statusRank) then status else overallStatus) WorkloadStatusNew statuses.

(** * Storage *)

Record ValueReference := { vr_File : string; vr_SecretName : string; vr_SecretKey : string }.
Record CloudDownloadFile := { cf_Path : string; cf_TargetPath : string }.
Record CloudDownloadFolder := { cd_Path : string; cd_TargetPath : string; cd_Glob : string }.
Record CloudDownloadBucket := { cb_Name : string; cb_Files : list CloudDownloadFile; cb_Folders : list CloudDownloadFolder }.
Record S3DownloadItem :=
  { s3_EndpointUrl : string; s3_AccessKeyId : ValueReference; s3_SecretKey : ValueReference; s3_Buckets : list CloudDownloadBucket }.
Record GCSDownloadItem := { gcs_ApplicationCredentials : ValueReference; gcs_Buckets : list CloudDownloadBucket }.
Record AzureBlobStorageDownloadItem := { az_ConnectionString : ValueReference; az_Containers : list CloudDownloadBucket }.
Record HuggingFaceDownloadItem := { hf_RepoID : string; hf_Files : list string }.
Record GitDownloadItem := {
  git_Repository : string; git_Branch : string; git_Commit : string; git_Username : option ValueReference;
  git_Token : option ValueReference; git_Path : string; git_TargetPath : string
}.

Record ObjectStorageDownloadSpec := {
  ds_S3 : list S3DownloadItem;
  ds_GCS : list GCSDownloadItem;
  ds_AzureBlob : list AzureBlobStorageDownloadItem;
  ds_Git : list GitDownloadItem
}.

Record DataStorageSpec := { da_MountPath : string; da_StorageSize : string; da_Download : ObjectStorageDownloadSpec }.
Record HfStorageSpec := { hs_MountPath : string; hs_StorageSize : string; hs_PreCacheRepos : list HuggingFaceDownloadItem }.

Record StorageSpec := {
  ss_StorageEnabled : bool;
  ss_StorageClassName : string;
  ss_AccessMode : string;
  ss_Data : option DataStorageSpec;
  ss_HuggingFace : option HfStorageSpec
}.

(** The receivers may be nil. *)
Definition HasData (spec : option StorageSpec) : bool :=
  match spec with
  | Some s => match ss_Data s with Some d => bool_decide (da_StorageSize d ≠ "") | None => false end
  | None => false
  end.

Definition nonEmpty {A} (l : list A) : bool := match l with [] => false | _ => true end.

Definition HasObjectStorageDownloads (spec : option StorageSpec) : bool :=
  HasData spec &&
  match spec with
  | Some s =>
      match ss_Data s with
      | Some d => let dl := da_Download d in nonEmpty (ds_S3 dl) || nonEmpty (ds_GCS dl) || nonEmpty (ds_AzureBlob dl) || nonEmpty (ds_Git dl)
      | None => false
      end
  | None => false
  end.

Definition HasHfDownloads (spec : option StorageSpec) : bool :=
  match spec with
  | Some s => match ss_HuggingFace s with Some h => nonEmpty (hs_PreCacheRepos h) | None => false end
  | None => false
  end.

Definition HasDownloads (spec : option StorageSpec) : bool :=
  match spec with Some _ => HasObjectStorageDownloads spec || HasHfDownloads spec | None => false end.

(** The configuration of the download job. *)
Record DownloadTaskConfig := {
  dt_DownloadRoot : string;
  dt_HfHome : string;
  dt_S3 : list S3DownloadItem;
  dt_GCS : list GCSDownloadItem;
  dt_HF : list HuggingFaceDownloadItem;
  dt_AzureBlob : list AzureBlobStorageDownloadItem;
  dt_Git : list GitDownloadItem
}.

Definition CreateConfig (spec : StorageSpec) : DownloadTaskConfig :=
  let data := match ss_Data spec with
    | Some d => if decide (da_StorageSize d ≠ "") then Some d else None
    | None => None
    end in
  let hf := match ss_HuggingFace spec with
    | Some h => if decide (hs_StorageSize h ≠ "") then Some h else None
    | None => None
    end in
  let list_of {A} (f : ObjectStorageDownloadSpec → list A) := match data with Some d => f (da_Download d) | None => [] end in
  {| dt_DownloadRoot := match data with
       | Some d => if decide (da_MountPath d ≠ "") then da_MountPath d else "/workload"
       | None => "" end;
     dt_HfHome := match hf with Some h => hs_MountPath h | None => "" end;
     dt_S3 := list_of ds_S3; dt_GCS := list_of ds_GCS;
     dt_HF := match hf with Some h => hs_PreCacheRepos h | None => [] end;
     dt_AzureBlob := list_of ds_AzureBlob; dt_Git := list_of ds_Git |}.

(** * Workloads *)

Record CommonStatusSpec := {
  cs_StartTime : option Z;
  cs_Conditions : list Condition;
  cs_Status : WorkloadStatus;
  cs_Duration : Z;
  cs_ObservedGeneration : Z
}.

Definition set_Status (s : WorkloadStatus) (c : CommonStatusSpec) : CommonStatusSpec :=
  {| cs_StartTime := cs_StartTime c; cs_Conditions := cs_Conditions c; cs_Status := s; cs_Duration := cs_Duration c;
     cs_ObservedGeneration := cs_ObservedGeneration c |}.
Definition set_Conditions (l : list Condition) (c : CommonStatusSpec) : CommonStatusSpec :=
  {| cs_StartTime := cs_StartTime c; cs_Conditions := l; cs_Status := cs_Status c; cs_Duration := cs_Duration c;
     cs_ObservedGeneration := cs_ObservedGeneration c |}.
Definition set_StartTime (t : option Z) (c : CommonStatusSpec) : CommonStatusSpec :=
  {| cs_StartTime := t; cs_Conditions := cs_Conditions c; cs_Status := cs_Status c; cs_Duration := cs_Duration c;
     cs_ObservedGeneration := cs_ObservedGeneration c |}.
Definition set_Duration (d : Z) (c : CommonStatusSpec) : CommonStatusSpec :=
  {| cs_StartTime := cs_StartTime c; cs_Conditions := cs_Conditions c; cs_Status := cs_Status c; cs_Duration := d;
     cs_ObservedGeneration := cs_ObservedGeneration c |}.

Inductive WorkloadKind := KindKaiwoJob | KindKaiwoService.
#[export] Instance WorkloadKind_eq_dec : EqDecision WorkloadKind.
Proof. solve_decision. Defined.

(** A KaiwoJob or a KaiwoService: its metadata, the common spec with the storage
    and user parts the sizing code has no use for, whether it is to run on Ray
    (the flag, and whether a Ray spec is given), and its status. *)
Record KaiwoWorkload := {
  kw_Kind : WorkloadKind;
  kw_Name : string;
  kw_Namespace : string;
  kw_UID : string;
  kw_ResourceVersion : Z;
  kw_Generation : Z;
  kw_CreationTimestamp : Z;
  kw_Labels : gmap string string;
  kw_Spec : CommonMetaSpec;
  kw_User : string;
  kw_Storage : option StorageSpec;
  kw_Ray : bool;
  kw_HasRaySpec : bool;
  kw_Status : CommonStatusSpec
}.

Definition kw_key (w : KaiwoWorkload) : Key := mkKey (kw_Namespace w) (kw_Name w).

Definition on_status (f : CommonStatusSpec → CommonStatusSpec) (w : KaiwoWorkload) : KaiwoWorkload :=
  {| kw_Kind := kw_Kind w; kw_Name := kw_Name w; kw_Namespace := kw_Namespace w; kw_UID := kw_UID w;
     kw_ResourceVersion := kw_ResourceVersion w; kw_Generation := kw_Generation w; kw_CreationTimestamp := kw_CreationTimestamp w; kw_Labels := kw_Labels w;
     kw_Spec := kw_Spec w; kw_User := kw_User w; kw_Storage := kw_Storage w; kw_Ray := kw_Ray w;
     kw_HasRaySpec := kw_HasRaySpec w; kw_Status := f (kw_Status w) |}.

(** [IsRayJob] and [IsRayService]. *)
Definition IsRay (w : KaiwoWorkload) : bool := kw_HasRaySpec w || kw_Ray w.

(** * The objects a workload owns *)

Inductive ChildKind :=
| KindDeployment | KindRayService | KindAppWrapper | KindJob | KindRayJob | KindPersistentVolumeClaim | KindConfigMap.
#[export] Instance ChildKind_eq_dec : EqDecision ChildKind.
Proof. solve_decision. Defined.

(** The phases of the API; a missing one is defaulted to Pending by the server. *)
Inductive PersistentVolumeClaimPhase := ClaimPending | ClaimBound | ClaimLost.

(** Status fields, by kind. *)
Inductive ChildStatus :=
| JobStatus (conditions : list Condition) (failed : Z) (ready : option Z) (active : Z)
| RayJobStatus (jobStatus : string)
| DeploymentStatus (conditions : list Condition) (observedGeneration : Z) (availableReplicas : Z)
| RayServiceStatus (conditions : list Condition) (applications : gmap string string)
| PersistentVolumeClaimStatus (phase : PersistentVolumeClaimPhase)
| NoStatus.

(** An owned object: its metadata, the number of replicas where its kind has
    one, the rest of its content, and its status. *)
Record Child := {
  ch_Kind : ChildKind;
  ch_Name : string;
  ch_Namespace : string;
  ch_UID : string;
  ch_Generation : Z;
  ch_OwnerReferences : list OwnerReference;
  ch_Replicas : option Z;
  ch_Content : Json;
  ch_Status : ChildStatus
}.

Definition ch_key (c : Child) : Key := mkKey (ch_Namespace c) (ch_Name c).

Definition set_OwnerReferences (l : list OwnerReference) (c : Child) : Child :=
  {| ch_Kind := ch_Kind c; ch_Name := ch_Name c; ch_Namespace := ch_Namespace c; ch_UID := ch_UID c;
     ch_Generation := ch_Generation c; ch_OwnerReferences := l; ch_Replicas := ch_Replicas c; ch_Content := ch_Content c;
     ch_Status := ch_Status c |}.
