(* ===== verification/Labels.v ===== *)
(** Labels (pkg/workloads/common: constants.go, labels.go): the labels of a workload
    are propagated to its objects, and the labels of the system are set on them. *)

From stdpp Require Import gmap strings list.
From Stdlib Require Import ZArith Lia.
From S2P Require Import Prelude Types Naming Scheduling WorkloadTypes.

(** * Constants *)

Definition KaiwoLabelBase : string := "kaiwo.silogen.ai".
Definition KaiwoUserLabel : string := KaiwoLabelBase +:+ "/user".
Definition KaiwoNameLabel : string := KaiwoLabelBase +:+ "/name".
Definition KaiwoTypeLabel : string := KaiwoLabelBase +:+ "/type".
Definition KaiwoRunIdLabel : string := KaiwoLabelBase +:+ "/run-id".
Definition KaiwoManagedLabel : string := KaiwoLabelBase +:+ "/managed".
Definition QueueLabel : string := "kueue.x-k8s.io/queue-name".

(** * Operations *)

Record KaiwoLabelContext := { lc_User : string; lc_Name : string; lc_Type : string; lc_RunId : string; lc_Managed : string }.

Definition typeText (k : WorkloadKind) : string := match k with KindKaiwoJob => "job" | KindKaiwoService => "service" end.

Definition GetKaiwoLabelContext (kind : WorkloadKind) (name uid user : string) (labels : gmap string string) : KaiwoLabelContext :=
  {| lc_User := user; lc_Name := name; lc_Type := typeText kind; lc_RunId := uid; lc_Managed := default "" (labels !! KaiwoManagedLabel) |}.

(** A nil map of labels is made first, so that an empty one stands for both. *)
Definition SetKaiwoSystemLabels (lc : KaiwoLabelContext) (labels : gmap string string) : gmap string string :=
  let labels := <[KaiwoUserLabel := MakeRFC1123Compliant (lc_User lc)]> labels in
  let labels := <[KaiwoNameLabel := lc_Name lc]> labels in
  let labels := <[KaiwoTypeLabel := lc_Type lc]> labels in
  let labels := <[KaiwoRunIdLabel := lc_RunId lc]> labels in
  if decide (lc_Managed lc ≠ "") then <[KaiwoManagedLabel := lc_Managed lc]> labels else labels.

Section labels.
Context `{GoOrder}.

Definition copyLabel (labels : gmap string string) (kv : string * string) : gmap string string :=
  let '(k, v) := kv in
  if decide (k = QueueLabel) then labels
  else match labels !! k with Some _ => labels | None => <[k := v]> labels end.

Definition CopyLabels (kaiwoLabels labels : gmap string string) : gmap string string := foldl copyLabel labels (rangeMap kaiwoLabels).

Definition UpdateLabels (w : KaiwoWorkload) (labels : gmap string string) : gmap string string :=
  SetKaiwoSystemLabels (GetKaiwoLabelContext (kw_Kind w) (kw_Name w) (kw_UID w) (kw_User w) (kw_Labels w)) (CopyLabels (kw_Labels w) labels).

(** * Properties *)

Lemma SetKaiwoSystemLabels_other lc labels k :
  k ∉ [KaiwoUserLabel; KaiwoNameLabel; KaiwoTypeLabel; KaiwoRunIdLabel; KaiwoManagedLabel] → SetKaiwoSystemLabels lc labels !! k = labels !! k.
Proof.
  intros Hk. rewrite !not_elem_of_cons in Hk. destruct Hk as (? & ? & ? & ? & ? & _). unfold SetKaiwoSystemLabels.
  case_decide; rewrite !lookup_insert_ne; congruence.
Qed.

(** The order in which the labels are visited does not matter. *)
Lemma foldl_copyLabel l labels k :
  NoDup l.*1 → foldl copyLabel labels l !! k =
    match labels !! k with
    | Some v => Some v
    | None => if decide (k = QueueLabel) then None else (list_to_map l : gmap string string) !! k
    end.
Proof.
  revert labels. induction l as [|[k' v'] l IH]; intros labels; simpl; [intros _; by destruct (labels !! k); [|case_decide]|].
  intros [Hk' Hnd]%NoDup_cons. rewrite IH by done.
  destruct (decide (k' = QueueLabel)) as [->|Hq].
  { destruct (labels !! k); [done|]. case_decide; [done|]. by rewrite lookup_insert_ne. }
  destruct (decide (k' = k)) as [<-|Hne].
  - destruct (labels !! k') as [v|] eqn:E; [by rewrite E|]. by rewrite !lookup_insert_eq, decide_False.
  - destruct (labels !! k') as [v|] eqn:E; rewrite (lookup_insert_ne (list_to_map l)), ?lookup_insert_ne by done; done.
Qed.

Lemma CopyLabels_lookup src labels k :
  CopyLabels src labels !! k = match labels !! k with Some v => Some v | None => if decide (k = QueueLabel) then None else src !! k end.
Proof.
  unfold CopyLabels. rewrite foldl_copyLabel.
  - destruct (labels !! k); [done|]. case_decide; [done|]. rewrite (list_to_map_proper _ (map_to_list src)).
    + by rewrite list_to_map_to_list.
    + rewrite rangeMap_perm. apply NoDup_fst_map_to_list.
    + apply rangeMap_perm.
  - rewrite rangeMap_perm. apply NoDup_fst_map_to_list.
Qed.

(** An object gets the system labels of its workload (user, name, type and run,
    whatever it had), keeps its other labels, and takes over those of the workload
    that it does not have, but never the queue label. *)
Theorem UpdateLabels_spec w labels :
  UpdateLabels w labels !! KaiwoUserLabel = Some (MakeRFC1123Compliant (kw_User w)) ∧
  UpdateLabels w labels !! KaiwoNameLabel = Some (kw_Name w) ∧
  UpdateLabels w labels !! KaiwoTypeLabel = Some (typeText (kw_Kind w)) ∧
  UpdateLabels w labels !! KaiwoRunIdLabel = Some (kw_UID w) ∧
  UpdateLabels w labels !! QueueLabel = labels !! QueueLabel ∧
  ∀ k, k ∉ [KaiwoUserLabel; KaiwoNameLabel; KaiwoTypeLabel; KaiwoRunIdLabel; KaiwoManagedLabel; QueueLabel] →
    UpdateLabels w labels !! k = match labels !! k with Some v => Some v | None => kw_Labels w !! k end.
Proof.
  assert (∀ lc ls, SetKaiwoSystemLabels lc ls !! KaiwoUserLabel = Some (MakeRFC1123Compliant (lc_User lc)) ∧
    SetKaiwoSystemLabels lc ls !! KaiwoNameLabel = Some (lc_Name lc) ∧ SetKaiwoSystemLabels lc ls !! KaiwoTypeLabel = Some (lc_Type lc) ∧
    SetKaiwoSystemLabels lc ls !! KaiwoRunIdLabel = Some (lc_RunId lc)) as Hset.
  { intros lc ls. unfold SetKaiwoSystemLabels. case_decide; repeat split; by simplify_map_eq. }
  unfold UpdateLabels. destruct (Hset (GetKaiwoLabelContext (kw_Kind w) (kw_Name w) (kw_UID w) (kw_User w) (kw_Labels w))
    (CopyLabels (kw_Labels w) labels)) as (-> & -> & -> & ->). do 4 (split; [done|]). split.
  - rewrite SetKaiwoSystemLabels_other by (rewrite !not_elem_of_cons; repeat split; try done; apply not_elem_of_nil).
    rewrite CopyLabels_lookup, decide_True by done. by destruct (labels !! QueueLabel).
  - intros k Hk. rewrite !not_elem_of_cons in Hk. destruct Hk as (? & ? & ? & ? & ? & ? & _).
    rewrite SetKaiwoSystemLabels_other by (rewrite !not_elem_of_cons; repeat split; try done; apply not_elem_of_nil).
    by rewrite CopyLabels_lookup, decide_False.
Qed.
End labels.
