(* ===== verification/WorkloadApi.v ===== *)
(** The calls of the workload controllers, their interfaces
    (pkg/workloads/common/interfaces.go) and the library functions they use. *)

From stdpp Require Import gmap strings list.
From Stdlib Require Import ZArith Lia.
From S2P Require Import Prelude History Types Kueue Scheduling WorkloadTypes.

(** * Calls *)

(** The fields of [KaiwoConfigSpec] the workload controllers read. *)
Record WorkloadConfig := {
  wc_DefaultClusterQueueName : string;
  wc_PendingThresholdForPreemption : string;
  wc_LowUtilizationThreshold : Float64.float64;
  wc_TargetNamespaces : list string;
  wc_TerminateUnderutilized : bool;
  wc_TerminateUnderutilizedAfter : string
}.

Inductive OperationResult :=
| OperationResultNone | OperationResultCreated | OperationResultUpdated
| OperationResultUpdatedStatus | OperationResultUpdatedStatusOnly.

Inductive work_req :=
| GetConfigObject (name : string)
| ListClusterNodes
| GetQueueConfigObject (name : string)
| GetWorkload (kind : WorkloadKind) (k : Key)
| ListWorkloads (kind : WorkloadKind)
| StatusUpdate (w : KaiwoWorkload)
| GetChild (kind : ChildKind) (k : Key)
| ListChildren (kind : ChildKind) (namespace : string)
| DeleteChild (c : Child)
| CreateOrPatch (desired : Child) (mutate : Child → error + Child)
| GetPod (k : Key)
| ListPodsOfRun (uid : string)
| ListKueueWorkloadsOf (namespace jobUID : string)
| GetLocalQueue (k : Key)
| GetClusterQueue (name : string)
| CreateLocalQueue (l : KueueLocalQueue)
| CurrentTime
| EmitEvent (regarding : Key) (type : EventType) (reason message : string)
| ScrapeMetrics (endpoint : string).

(** [dto.Metric] with the gauge as a pointer to its value. *)
Record GaugeMetric := { gg_Label : list (option string * option string); gg_Gauge : option (option Float64.float64) }.

Definition work_resp (r : work_req) : Type :=
  match r with
  | GetConfigObject _ => error + WorkloadConfig
  | ListClusterNodes => error + list Node
  | GetQueueConfigObject _ => error + KaiwoQueueConfig
  | GetWorkload _ _ | StatusUpdate _ => error + KaiwoWorkload
  | ListWorkloads _ => error + list KaiwoWorkload
  | GetChild _ _ => error + Child
  | ListChildren _ _ => error + list Child
  | DeleteChild _ => option error
  | CreateOrPatch _ _ => error + (OperationResult * Child)
  | GetPod _ => error + Pod
  | ListPodsOfRun _ => error + list Pod
  | ListKueueWorkloadsOf _ _ => error + list KueueWorkload
  | GetLocalQueue _ => error + KueueLocalQueue
  | GetClusterQueue _ => error + KueueClusterQueue
  | CreateLocalQueue _ => option error
  | CurrentTime => Z
  | EmitEvent _ _ _ _ => unit
  | ScrapeMetrics _ => error + gmap string (list GaugeMetric)
  end.

Definition WorkSig : sig := Sig work_req work_resp.
Abbreviation WM := (prog WorkSig).

Lemma work_resp_inhabited r : inhabited (resp WorkSig r).
Proof. destruct r; simpl; repeat constructor; exact 0 || exact (Errorf ""). Qed.

(** * Interfaces *)

(** [ResourceReconciler]: the kind and key of [GetInitializedObject], and the
    operations on the object. *)
Record ResourceReconciler := {
  rr_Kind : ChildKind;
  rr_Key : Key;
  rr_BuildDesired : WorkloadConfig → ClusterContext → outcome Child;
  rr_MutateActual : Child → error + Child;
  rr_ObserveStatus : Child → WorkloadStatus → WM (outcome (option WorkloadStatus * list Condition))
}.

(** [WorkloadReconciler]: the reconciler of the workload's own object, which also
    knows the Kueue workloads that govern its admission. *)
Record WorkloadReconciler := {
  wr_Resource : ResourceReconciler;
  wr_GetKueueWorkloads : WM (outcome (list KueueWorkload))
}.

(** * Library functions *)

Definition with_time (t : Z) (c : Condition) : Condition :=
  {| cond_Type := cond_Type c; cond_Status := cond_Status c; cond_Reason := cond_Reason c; cond_Message := cond_Message c;
     cond_ObservedGeneration := cond_ObservedGeneration c; cond_LastTransitionTime := t |}.

(** Equal but for the fields [ConditionsEqual] ignores. *)
Definition same_condition (c d : Condition) : Prop :=
  cond_Type c = cond_Type d ∧ cond_Status c = cond_Status d ∧ cond_Reason c = cond_Reason d ∧ cond_Message c = cond_Message d.

(** The first condition of a type, with its position. *)
Definition firstOf (t : string) (cs : list Condition) : option (nat * Condition) := list_find (λ c, cond_Type c = t) cs.

Class WorkloadLib := {
  (** meta.FindStatusCondition: a pointer into the slice, as a position. *)
  FindStatusCondition : list Condition → string → option nat;
  FindStatusCondition_first cs t : FindStatusCondition cs t = fst <$> firstOf t cs;
  (** meta.IsStatusConditionTrue: "true when the conditionType is present and
      set to ConditionTrue". *)
  IsStatusConditionTrue : list Condition → string → bool;
  IsStatusConditionTrue_spec cs t :
    IsStatusConditionTrue cs t = true ↔ ∃ i c, firstOf t cs = Some (i, c) ∧ cond_Status c = ConditionTrue;
  (** meta.SetStatusCondition, at a given time: an existing condition of the type
      is updated, its transition time only when the status differs; a new one is
      appended, its transition time set when unset. *)
  SetStatusCondition : Z → list Condition → Condition → list Condition;
  SetStatusCondition_new now cs c : firstOf (cond_Type c) cs = None →
    SetStatusCondition now cs c =
      cs ++ [with_time (if decide (cond_LastTransitionTime c = 0) then now else cond_LastTransitionTime c) c];
  SetStatusCondition_old now cs c i old : firstOf (cond_Type c) cs = Some (i, old) →
    ∃ t, SetStatusCondition now cs c = <[i := with_time t c]> cs ∧
      (cond_Status old = cond_Status c → t = cond_LastTransitionTime old);
  (** cmp.Equal with the transition time and the generation ignored, on slices
      that are not empty. *)
  ConditionsCmp : list Condition → list Condition → bool;
  ConditionsCmp_spec a b : a ≠ [] → ConditionsCmp a b = true ↔ Forall2 same_condition a b;
  (** controllerutil's owner references change nothing else of the object. *)
  SetControllerReferenceOn : KaiwoWorkload → Child → error + Child;
  SetControllerReferenceOn_keeps w c c' : SetControllerReferenceOn w c = inr c' → ∃ l, c' = set_OwnerReferences l c;
  SetOwnerReference : KueueClusterQueue → KueueLocalQueue → error + KueueLocalQueue;
  SetOwnerReference_keeps q l l' : SetOwnerReference q l = inr l' →
    lq_ClusterQueue l' = lq_ClusterQueue l ∧ om_Name (lq_Meta l') = om_Name (lq_Meta l) ∧
    om_Namespace (lq_Meta l') = om_Namespace (lq_Meta l);
  (** The scheme's kinds of an object, and how a kind prints. *)
  ObjectKinds : Child → error + list GroupVersionKind;
  GVKText : GroupVersionKind → string;
  (** resource.ParseQuantity. *)
  ParseQuantity : string → option Quantity
}.

(** * Programs that only read *)

(** Whether a call leaves every object as it is. *)
Definition readOnly (r : work_req) : bool :=
  match r with StatusUpdate _ | DeleteChild _ | CreateOrPatch _ _ | CreateLocalQueue _ => false | _ => true end.

Definition reads (tr : trace WorkSig) : Prop := Forall (λ e : event WorkSig, readOnly (projT1 e) = true) tr.
Definition quiet {A} (p : WM A) : Prop := always anything p (λ tr _, reads tr).

Create HintDb quiet.

Lemma reads_app tr tr' : reads tr → reads tr' → reads (tr ++ tr').
Proof. intros. by apply Forall_app. Qed.

Lemma quietly_ret {A} (a : A) : quiet (mret a).
Proof. apply Forall_nil_2. Qed.

Lemma quiet_call r : readOnly r = true → quiet (call (S := WorkSig) r).
Proof. intros Hr x _. by apply Forall_singleton. Qed.

Lemma quietly_bind {A B} (p : WM A) (k : A → WM B) : quiet p → (∀ a, quiet (k a)) → quiet (p ≫= k).
Proof. intros Hp Hk. apply always_bind_closed; [apply reads_app|done|done]. Qed.

Lemma quiet_orFail {A B} msg (p : WM (outcome A)) (k : A → WM (outcome B)) : quiet p → (∀ a, quiet (k a)) → quiet (orFail msg p k).
Proof. intros Hp Hk. apply always_orFail_closed; [apply reads_app|done|done]. Qed.

Lemma quiet_for_range {A St R} (l : list A) (s : St) (body : A → St → WM (ctl St R)) :
  (∀ x s, x ∈ l → quiet (body x s)) → quiet (for_range l s body).
Proof.
  intros Hbody. revert s. induction l as [|x l IH]; intros s; simpl; [apply quietly_ret|].
  apply quietly_bind; [apply Hbody; by left|]. intros [s'|s'|r]; [|apply (quietly_ret (inl s'))|apply (quietly_ret (inr r))].
  apply IH. intros y s'' Hy. apply Hbody. by right.
Qed.

Lemma quiet_for_each {A St} (l : list A) (s : St) (body : A → St → WM St) : (∀ x s, quiet (body x s)) → quiet (for_each l s body).
Proof. intros Hbody. revert s. induction l as [|x l IH]; intros s; simpl; [apply quietly_ret|]. by apply quietly_bind. Qed.

#[export] Hint Resolve quietly_ret quietly_bind quiet_orFail quiet_for_range quiet_for_each : quiet.
#[export] Hint Extern 1 (quiet (call _)) => (apply quiet_call; reflexivity) : quiet.
#[export] Hint Extern 5 (quiet (match ?x with _ => _ end)) => destruct x : quiet.

(** A quiet program with a result in [T], between events that [J] accepts. *)
Lemma traced_quiet {A} (J : trace WorkSig → event WorkSig → Prop) h (p : WM A) (T : trace WorkSig → A → Prop) :
  (∀ h r x, readOnly r = true → J h (ev (S := WorkSig) r x)) → quiet p → always anything p T →
  traced J h p (λ h' a, ∃ tr, h' = h ++ tr ∧ reads tr ∧ T tr a).
Proof.
  intros HJ Hq HT. eapply always_mono; [apply (always_both _ _ _ _ Hq HT)|]. intros tr a [Htr Ha]. split; [|by exists tr].
  apply justified_all. intros h' [r x] He. apply HJ. unfold reads in Htr. rewrite Forall_forall in Htr. by apply (Htr (existT r x)).
Qed.

(** * Programs every event of which satisfies something that reads satisfy *)

Section each.
Context (E : event WorkSig → Prop) (Ereads : ∀ r x, readOnly r = true → E (ev (S := WorkSig) r x)).

Definition each {A} (p : WM A) : Prop := always anything p (λ tr _, Forall E tr).

Lemma each_reads tr : reads tr → Forall E tr.
Proof using Ereads. intros Hr. eapply Forall_impl; [exact Hr|]. intros [r x]. apply Ereads. Qed.

Lemma each_quiet {A} (p : WM A) : quiet p → each p.
Proof using Ereads. intros Hq. eapply always_mono; [exact Hq|]. intros tr a. apply each_reads. Qed.

Lemma each_ret {A} (a : A) : each (mret a).
Proof. apply Forall_nil_2. Qed.

Lemma each_bind {A B} (p : WM A) (k : A → WM B) : each p → (∀ a, each (k a)) → each (p ≫= k).
Proof. apply always_bind_closed. intros tr tr'. apply Forall_app_2. Qed.

Lemma each_orFail {A B} msg (p : WM (outcome A)) (k : A → WM (outcome B)) : each p → (∀ a, each (k a)) → each (orFail msg p k).
Proof. apply always_orFail_closed. intros tr tr'. apply Forall_app_2. Qed.

(** A result with what it satisfies, before what follows. *)
Lemma each_bind_with {A B} (P : A → Prop) (p : WM A) (k : A → WM B) :
  quiet p → always anything p (λ _ a, P a) → (∀ a, P a → each (k a)) → each (p ≫= k).
Proof using Ereads.
  intros Hq HP Hk. apply always_bind. eapply always_mono; [apply (always_both _ _ _ _ Hq HP)|]. intros tr a [Htr Ha].
  eapply always_mono; [by apply Hk|]. intros tr' b Hb. apply Forall_app_2; [by apply each_reads|done].
Qed.

Lemma each_for_range {A St R} (l : list A) (s : St) (body : A → St → WM (ctl St R)) :
  (∀ x s, each (body x s)) → each (for_range l s body).
Proof.
  intros Hb. revert s. induction l as [|x l IH]; intros s; [apply Forall_nil_2|].
  apply each_bind; [done|]. intros [s'|s'|r]; [done|apply Forall_nil_2..].
Qed.

Lemma each_call (r : work_req) : (∀ x, E (ev (S := WorkSig) r x)) → each (call (S := WorkSig) r).
Proof. intros Hr x _. by apply Forall_singleton. Qed.
End each.
