(* ===== verification/Handlers.v ===== *)
(** What the controllers see of a workload: the handlers of the four kinds of
    workload objects (pkg/workloads/job, pkg/workloads/service), of volumes and
    downloads (pkg/workloads/common: storage.go, pvc.go, download.go), admission by
    Kueue (admission.go) and the status of a group of objects (utils.go,
    observability.go, workload.go). *)

From stdpp Require Import gmap strings list pretty.
From Stdlib Require Import ZArith Lia.
From S2P Require Import Prelude History Types Kueue Scheduling WorkloadTypes WorkloadApi Naming.

(** * Batch jobs *)

Definition jobCondition (c : Condition) : option WorkloadStatus :=
  if decide (cond_Type c = "SuccessCriteriaMet" ∧ cond_Status c = ConditionTrue) then Some WorkloadStatusComplete
  else if decide (cond_Type c = "Failed" ∧ cond_Status c = ConditionTrue) then Some WorkloadStatusFailed
  else if decide (cond_Type c = "Suspended" ∧ cond_Status c = ConditionTrue) then Some WorkloadStatusPending
  else None.

Fixpoint jobConditions (cs : list Condition) : option WorkloadStatus :=
  match cs with
  | [] => None
  | c :: cs' => match jobCondition c with Some s => Some s | None => jobConditions cs' end
  end.

Definition ObserveBatchJob (conditions : list Condition) (failed : Z) (ready : option Z) (active : Z)
    (previousStatus : WorkloadStatus) : WorkloadStatus :=
  match jobConditions conditions with
  | Some s => s
  | None =>
      if decide (0 < failed) then WorkloadStatusFailed
      else if decide (0 < default 0 ready) then WorkloadStatusRunning
      else if decide (previousStatus = WorkloadStatusRunning) then previousStatus
      else if decide (0 < active) then WorkloadStatusStarting
      else WorkloadStatusPending
  end.

Abbreviation observed := (outcome (option WorkloadStatus * list Condition)).

(** [BatchJobHandler.ObserveStatus]; the type assertion panics on another kind. *)
Definition observeBatchJobObject (obj : Child) (previousStatus : WorkloadStatus) : WM observed :=
  mret (match ch_Status obj with
        | JobStatus cs failed ready active => Ok (Some (ObserveBatchJob cs failed ready active previousStatus), [])
        | _ => Panics
        end).

(** * Admission *)

Section handlers.
Context `{WorkloadLib}.

Definition GetKueueWorkload (namespace uid : string) : WM (outcome (option KueueWorkload)) :=
  items ←? (r ← call (S := WorkSig) (ListKueueWorkloadsOf namespace uid); mret (of_sum r)) else "failed to list kueue workloads";
  mret (match items with
        | [] => Ok None
        | [w] => Ok (Some w)
        | _ => Err (Errorf ("expected a single workload for job '" +:+ namespace +:+ "/" +:+ uid +:+ "', but found " +:+
                            pretty (Z.of_nat (length items)) +:+ " workloads"))
        end).

Definition listOf {A} (x : option A) : list A := match x with Some a => [a] | None => [] end.

(** The Kueue workload of an object of a kind, under a key. *)
Definition kueueWorkloadsOf (kind : ChildKind) (key : Key) (failed : string) : WM (outcome (list KueueWorkload)) :=
  obj ←? (r ← call (S := WorkSig) (GetChild kind key); mret (of_sum r)) else failed;
  w ←? GetKueueWorkload (ch_Namespace obj) (ch_UID obj) else "failed to extract workload from handler";
  mret (Ok (listOf w)).

(** A deployment is admitted pod by pod. *)
Definition deploymentKueueWorkloads (uid : string) : WM (outcome (list KueueWorkload)) :=
  pods ←? (r ← call (S := WorkSig) (ListPodsOfRun uid); mret (of_sum r)) else "failed to list pods";
  r ← for_range pods [] (λ pod workloads,
        o ← GetKueueWorkload (pod_Namespace pod) (pod_UID pod);
        mret (match o with
              | Ok w => Continue (workloads ++ listOf w)
              | Err e => Return (Err (Wrapf "failed to get workload" e))
              | Panics => Return Panics
              end));
  mret (match r with inl workloads => Ok workloads | inr o => o end).

(** The loop over the Kueue workloads. *)
Fixpoint allAdmitted (ws : list KueueWorkload) : bool :=
  match ws with
  | [] => true
  | w :: ws' =>
      match FindStatusCondition (wl_Conditions w) "Admitted" with
      | None => false
      | Some i =>
          match wl_Conditions w !! i with
          | Some c => if decide (cond_Status c = ConditionFalse) then false else allAdmitted ws'
          | None => false
          end
      end
  end.

Definition IsAdmitted (h : WorkloadReconciler) : WM (outcome bool) :=
  o ← wr_GetKueueWorkloads h;
  mret (match o with
        | Err e => if IsNotFound e then Ok false else Err (Wrapf "failed to get kueue workloads" e)
        | Panics => Panics
        | Ok [] => Ok false
        | Ok ws => Ok (allAdmitted ws)
        end).

(** * The status of a group of objects *)

Definition ObserveOverallStatus (reconcilers : list ResourceReconciler) (previous : WorkloadStatus) : WM observed :=
  r ← for_range reconcilers ([], []) (λ rec '(statuses, conditions),
        got ← call (S := WorkSig) (GetChild (rr_Kind rec) (rr_Key rec));
        match got with
        | inl e =>
            mret (Return (if IsNotFound e then Ok (Some WorkloadStatusNew, []) else Err (Wrapf "failed to fetch object" e)))
        | inr obj =>
            o ← rr_ObserveStatus rec obj previous;
            mret (match o with
                  | Ok (status, conds) => Continue (statuses ++ listOf status, conditions ++ conds)
                  | Err e => Return (Err (Wrapf "error observing status" e))
                  | Panics => Return Panics
                  end)
        end);
  mret (match r with
        | inl ([], _) => Ok (Some WorkloadStatusNew, [])
        | inl (statuses, conditions) => Ok (Some (DetermineOverallStatus statuses), conditions)
        | inr o => o
        end).

(** * Ray jobs, deployments and Ray services *)

Definition observeRayJob (obj : Child) (previous : WorkloadStatus) : WM observed :=
  mret (match ch_Status obj with
        | RayJobStatus s =>
            if decide (s = "" ∨ s = "PENDING") then Ok (Some WorkloadStatusStarting, [])
            else if decide (s = "RUNNING") then Ok (Some WorkloadStatusRunning, [])
            else if decide (s = "FAILED") then Ok (Some WorkloadStatusFailed, [])
            else if decide (s = "SUCCEEDED") then Ok (Some WorkloadStatusComplete, [])
            else if decide (s = "STOPPED") then Ok (Some WorkloadStatusTerminated, [])
            else Err (Errorf ("unexpected job status: " +:+ s))
        | _ => Panics
        end).

Definition progressFailed (c : Condition) : bool :=
  bool_decide (cond_Type c = "Progressing" ∧ cond_Status c = ConditionFalse ∧ cond_Reason c = "ProgressDeadlineExceeded").

Definition observeDeployment (obj : Child) (previous : WorkloadStatus) : WM observed :=
  mret (match ch_Status obj with
        | DeploymentStatus cs observedGeneration availableReplicas =>
            if existsb progressFailed cs then Ok (Some WorkloadStatusError, [])
            else if decide (observedGeneration < ch_Generation obj) then Ok (Some WorkloadStatusStarting, [])
            else if decide (availableReplicas < default 1 (ch_Replicas obj)) then Ok (Some WorkloadStatusStarting, [])
            else Ok (Some WorkloadStatusRunning, [])
        | _ => Panics
        end).

Definition unhealthy (s : string) : bool := bool_decide (s = "UNHEALTHY" ∨ s = "DEPLOY_FAILED").

(** The object observed is the AppWrapper; the service inside has its name. *)
Definition observeRayService (obj : Child) (previous : WorkloadStatus) : WM observed :=
  got ← call (S := WorkSig) (GetChild KindRayService (ch_key obj));
  mret (match got with
        | inl e =>
            if IsNotFound e then Ok (Some WorkloadStatusStarting, []) else Err (Wrapf "failed to get rayService" e)
        | inr svc =>
            match ch_Status svc with
            | RayServiceStatus cs applications =>
                if IsStatusConditionTrue cs "Ready" then Ok (Some WorkloadStatusRunning, [])
                else if existsb unhealthy (snd <$> map_to_list applications) then Ok (Some WorkloadStatusFailed, [])
                else Ok (Some WorkloadStatusStarting, [])
            | _ => Panics
            end
        end).

(** * The handlers *)

(** What [BuildDesired] of each reconciler makes of the workload, given the
    configuration and the cluster. *)
Record Manifests := {
  mf_BatchJob : KaiwoWorkload → WorkloadConfig → ClusterContext → outcome Child;
  mf_RayJob : KaiwoWorkload → WorkloadConfig → ClusterContext → outcome Child;
  mf_Deployment : KaiwoWorkload → WorkloadConfig → ClusterContext → outcome Child;
  mf_AppWrapper : KaiwoWorkload → WorkloadConfig → ClusterContext → outcome Child;
  mf_Pvc : Key → Quantity → StorageSpec → Child;
  mf_DownloadConfigMap : Key → StorageSpec → outcome Child;
  mf_DownloadJob : Key → StorageSpec → outcome Child
}.

Context (mf : Manifests).

(** No reconciler mutates an object that exists. *)
Definition unchanged (c : Child) : error + Child := inr c.

Definition BatchJobHandler (w : KaiwoWorkload) : WorkloadReconciler := {|
  wr_Resource := {| rr_Kind := KindJob; rr_Key := kw_key w; rr_BuildDesired := mf_BatchJob mf w;
                    rr_MutateActual := unchanged; rr_ObserveStatus := observeBatchJobObject |};
  wr_GetKueueWorkloads := kueueWorkloadsOf KindJob (kw_key w) "failed to get job" |}.

Definition RayJobHandler (w : KaiwoWorkload) : WorkloadReconciler := {|
  wr_Resource := {| rr_Kind := KindRayJob; rr_Key := kw_key w; rr_BuildDesired := mf_RayJob mf w;
                    rr_MutateActual := unchanged; rr_ObserveStatus := observeRayJob |};
  wr_GetKueueWorkloads := kueueWorkloadsOf KindRayJob (kw_key w) "failed to get rayJob" |}.

Definition DeploymentHandler (w : KaiwoWorkload) : WorkloadReconciler := {|
  wr_Resource := {| rr_Kind := KindDeployment; rr_Key := kw_key w; rr_BuildDesired := mf_Deployment mf w;
                    rr_MutateActual := unchanged; rr_ObserveStatus := observeDeployment |};
  wr_GetKueueWorkloads := deploymentKueueWorkloads (kw_UID w) |}.

Definition RayServiceHandler (w : KaiwoWorkload) : WorkloadReconciler := {|
  wr_Resource := {| rr_Kind := KindAppWrapper; rr_Key := kw_key w; rr_BuildDesired := mf_AppWrapper mf w;
                    rr_MutateActual := unchanged; rr_ObserveStatus := observeRayService |};
  wr_GetKueueWorkloads := kueueWorkloadsOf KindAppWrapper (kw_key w) "failed to get app wrapper" |}.

Definition NewKaiwoJobHandler (job : KaiwoWorkload) : WorkloadReconciler :=
  if negb (IsRay job) then BatchJobHandler job else RayJobHandler job.

Definition NewKaiwoServiceHandler (svc : KaiwoWorkload) : WorkloadReconciler :=
  if IsRay svc then RayServiceHandler svc else DeploymentHandler svc.

Definition workloadHandler (w : KaiwoWorkload) : WorkloadReconciler :=
  match kw_Kind w with KindKaiwoJob => NewKaiwoJobHandler w | KindKaiwoService => NewKaiwoServiceHandler w end.

(** * Storage *)

Definition PvcReadyConditionType : string := "PvcReady".
Definition DownloadJobSucceededConditionType : string := "DownloadJobSucceeded".
Definition DataStoragePostfix : string := "data".
Definition HfStoragePostfix : string := "hf".

Definition observePvc (obj : Child) (previous : WorkloadStatus) : WM observed :=
  mret (match ch_Status obj with
        | PersistentVolumeClaimStatus phase =>
            let '(status, conditionStatus, reason) := match phase with
              | ClaimBound => (WorkloadStatusComplete, ConditionTrue, "Bound")
              | ClaimPending => (WorkloadStatusPending, ConditionFalse, "Pending")
              | ClaimLost => (WorkloadStatusFailed, ConditionFalse, "Lost")
              end in
            Ok (Some status, [condition PvcReadyConditionType conditionStatus reason ""])
        | _ => Panics
        end).

(** [resource.MustParse] panics on a size it cannot parse. *)
Definition NewPvcReconciler (key : Key) (amount : string) (spec : StorageSpec) : outcome ResourceReconciler :=
  match ParseQuantity amount with
  | None => Panics
  | Some q => Ok {| rr_Kind := KindPersistentVolumeClaim; rr_Key := key; rr_BuildDesired := λ _ _, Ok (mf_Pvc mf key q spec);
                    rr_MutateActual := unchanged; rr_ObserveStatus := observePvc |}
  end.

Definition downloadKey (key : Key) : Key := mkKey (key_namespace key) (FormatNameWithPostfix (key_name key) ["download"]).

Definition NewDownloadConfigMapReconciler (key : Key) (spec : StorageSpec) : ResourceReconciler := {|
  rr_Kind := KindConfigMap; rr_Key := downloadKey key; rr_BuildDesired := λ _ _, mf_DownloadConfigMap mf key spec;
  rr_MutateActual := unchanged; rr_ObserveStatus := λ _ _, mret (Ok (None, [])) |}.

Definition observeDownloadJob (obj : Child) (previous : WorkloadStatus) : WM observed :=
  let cond status reason message := condition DownloadJobSucceededConditionType status reason message in
  mret (match ch_Status obj with
        | JobStatus cs failed ready active =>
            match ObserveBatchJob cs failed ready active previous with
            | WorkloadStatusPending => Ok (Some WorkloadStatusRunning, [cond ConditionFalse "JobPending" "Download job pending"])
            | WorkloadStatusRunning => Ok (Some WorkloadStatusRunning, [cond ConditionFalse "JobInProgress" "Download job in progress"])
            | WorkloadStatusStarting => Ok (Some WorkloadStatusStarting, [cond ConditionFalse "JobInProgress" "Download job starting"])
            | WorkloadStatusFailed => Ok (Some WorkloadStatusFailed, [cond ConditionFalse "JobFailed" "Download job failed"])
            | WorkloadStatusComplete => Ok (Some WorkloadStatusComplete, [cond ConditionTrue "JobCompleted" "Download job succeeded"])
            | status => Err (Errorf ("unexpected job status: " +:+ statusText status))
            end
        | _ => Panics
        end).

Definition NewDownloadJobReconciler (key : Key) (spec : StorageSpec) : ResourceReconciler := {|
  rr_Kind := KindJob; rr_Key := downloadKey key; rr_BuildDesired := λ _ _, mf_DownloadJob mf key spec;
  rr_MutateActual := unchanged; rr_ObserveStatus := observeDownloadJob |}.

(** [StorageHandler.GetResourceReconcilers]: the data volume, the Hugging Face
    volume, then the download's config map and job. *)
Definition storageReconcilers (key : Key) (spec : StorageSpec) : outcome (list ResourceReconciler) :=
  let pvc postfix amount := NewPvcReconciler (mkKey (key_namespace key) (FormatNameWithPostfix (key_name key) [postfix])) amount spec in
  let data := match ss_Data spec with
    | Some d => if HasData (Some spec) then match pvc DataStoragePostfix (da_StorageSize d) with Ok r => Ok [r] | _ => Panics end else Ok []
    | None => Ok []
    end in
  let hf := match ss_HuggingFace spec with
    | Some h => if HasHfDownloads (Some spec) then match pvc HfStoragePostfix (hs_StorageSize h) with Ok r => Ok [r] | _ => Panics end else Ok []
    | None => Ok []
    end in
  let downloads := if HasDownloads (Some spec) then [NewDownloadConfigMapReconciler key spec; NewDownloadJobReconciler key spec] else [] in
  match data, hf with
  | Ok d, Ok h => Ok (d ++ h ++ downloads)
  | _, _ => Panics
  end.

(** [NewStorageHandler]: there is one when storage is enabled. *)
Definition storageSpec (w : KaiwoWorkload) : option StorageSpec :=
  match kw_Storage w with Some s => if ss_StorageEnabled s then Some s else None | None => None end.

Definition storageObserveStatus (w : KaiwoWorkload) (spec : StorageSpec) (previous : WorkloadStatus)
  : WM (outcome (WorkloadStatus * list Condition)) :=
  match storageReconcilers (kw_key w) spec with
  | Ok recs =>
      o ← ObserveOverallStatus recs previous;
      mret (match o with
            | Ok (Some s, cs) => Ok (s, cs)
            | Ok (None, cs) => Ok (WorkloadStatusNew, cs)
            | Err e => Err e
            | Panics => Panics
            end)
  | _ => mret Panics
  end.

End handlers.
