(* ===== verification/PodSpecs.v ===== *)
(** Pod templates (pkg/workloads/common: podspec.go, and AddEntrypoint and addEnvVars
    of utils.go): what the operator adds to the pods of a workload. *)

From stdpp Require Import gmap strings list pretty.
From Stdlib Require Import ZArith Lia.
From S2P Require Import Prelude Types GpuResources Kueue Scheduling Nodepools Resources Naming DerivedNames Scripts WorkloadTypes Labels WorkloadApi Handlers.

(** * Data *)

(** The fields of the types of Kubernetes that the code reads or writes; the rest of an
    object is [Json]. A nil map is an empty one: maps are made before they are written
    to. *)
Record EnvVar := { ev_Name : string; ev_Value : string; ev_ValueFrom : Json }.
Record VolumeMount := { vm_Name : string; vm_MountPath : string; vm_SubPath : string; vm_Rest : Json }.
Record KeyToPath := { kp_Key : string; kp_Path : string }.

Inductive VolumeSource :=
| PersistentVolumeClaimSource (claimName : string)
| SecretSource (secretName : string) (items : list KeyToPath)
| ConfigMapSource (name : string)
| EmptyDirSource (medium : string) (sizeLimit : option Quantity)
| OtherSource (content : Json).
Record Volume := { v_Name : string; v_Source : VolumeSource }.

(** Name, requests and limits are those of [pc_Base]. *)
Record PodContainer := {
  pc_Base : Container;
  pc_Image : string;
  pc_ImagePullPolicy : string;
  pc_Command : list string;
  pc_Env : list EnvVar;
  pc_VolumeMounts : list VolumeMount;
  pc_Rest : Json
}.

Record Toleration := { tol_Key : string; tol_Operator : string; tol_Value : string; tol_Effect : string }.
Record NodeSelectorRequirement := { nr_Key : string; nr_Operator : string; nr_Values : list string }.

(** The required terms, each a list of expressions. *)
Record NodeAffinity := { na_Required : option (list (list NodeSelectorRequirement)); na_Preferred : Json }.
Record Affinity := { af_NodeAffinity : option NodeAffinity; af_Rest : Json }.
Record PodSecurityContext := { sec_RunAsUser : option Z; sec_RunAsGroup : option Z; sec_FSGroup : option Z; sec_Rest : Json }.

Record PodTemplateSpec := {
  pt_Labels : gmap string string;
  pt_Annotations : gmap string string;
  pt_ImagePullSecrets : list string;
  pt_Volumes : list Volume;
  pt_Containers : list PodContainer;
  pt_InitContainers : list PodContainer;
  pt_Tolerations : list Toleration;
  pt_Affinity : option Affinity;
  pt_RestartPolicy : string;
  pt_SchedulerName : string;
  pt_SecurityContext : option PodSecurityContext;
  pt_Rest : Json
}.

(** [batchv1.Job]: what is set of its spec, and its metadata. *)
Record JobSpec := {
  js_Suspend : option bool;
  js_BackoffLimit : option Z;
  js_TTLSecondsAfterFinished : option Z;
  js_Template : PodTemplateSpec;
  js_Rest : Json
}.
Record BatchJob := { jb_Name : string; jb_Namespace : string; jb_Labels : gmap string string; jb_Spec : JobSpec }.

Record SecretVolume := { sv_Name : string; sv_SecretName : string; sv_SubPath : string; sv_MountPath : string }.

(** The fields of [CommonMetaSpec] that only pod templates use, and the annotations of
    the workload. *)
Record PodOptions := {
  po_PodTemplateSpecLabels : gmap string string;
  po_Annotations : gmap string string;
  po_GpuModels : list string;
  po_PreferredTopologyLabel : string;
  po_RequiredTopologyLabel : string;
  po_Image : string;
  po_ImagePullSecrets : list string;
  po_Env : list EnvVar;
  po_SecretVolumes : list SecretVolume;
  po_WorkloadPriorityClass : string
}.

(** The fields of [KaiwoConfigSpec] the manifests depend on. *)
Record ManifestConfig := {
  mc_DefaultGpuTaintKey : string;
  mc_AddTaintsToGpuNodes : bool;
  mc_DefaultGpuResourceKey : string;
  mc_KubeSchedulerName : string;
  mc_HeadPodMemory : string;
  mc_DefaultRayImage : string;
  mc_DefaultClusterQueueName : string
}.

(** A workload with the fields of its spec that only its manifests use. *)
Record PodInput := { pi_Workload : KaiwoWorkload; pi_Options : PodOptions }.

Definition envVar (name value : string) : EnvVar := {| ev_Name := name; ev_Value := value; ev_ValueFrom := JNull |}.
Definition mount (name path subPath : string) : VolumeMount :=
  {| vm_Name := name; vm_MountPath := path; vm_SubPath := subPath; vm_Rest := JNull |}.

(** * Operations *)

(** [IsRequested] of the two kinds of storage. *)
Definition DataIsRequested (d : option DataStorageSpec) : bool :=
  match d with Some d => bool_decide (da_StorageSize d ≠ "") | None => false end.
Definition HfIsRequested (h : option HfStorageSpec) : bool :=
  match h with Some h => bool_decide (hs_StorageSize h ≠ "") | None => false end.

Definition requestedData (w : KaiwoWorkload) : option DataStorageSpec :=
  match storageSpec w with
  | Some s => if DataIsRequested (ss_Data s) then ss_Data s else None
  | None => None
  end.
Definition requestedHf (w : KaiwoWorkload) : option HfStorageSpec :=
  match storageSpec w with
  | Some s => if HfIsRequested (ss_HuggingFace s) then ss_HuggingFace s else None
  | None => None
  end.

(** The volumes of the storage. *)
Definition storageVolume (w : KaiwoWorkload) (name : string) : Volume :=
  {| v_Name := name; v_Source := PersistentVolumeClaimSource (FormatNameWithPostfix (kw_Name w) [name]) |}.

Definition storageVolumes (w : KaiwoWorkload) : list Volume :=
  match requestedData w with Some _ => [storageVolume w DataStoragePostfix] | None => [] end ++
  match requestedHf w with Some _ => [storageVolume w HfStoragePostfix] | None => [] end.

Definition secretVolume (v : SecretVolume) : Volume := {| v_Name := sv_Name v; v_Source := SecretSource (sv_SecretName v) [] |}.

Definition storageMounts (w : KaiwoWorkload) : list VolumeMount :=
  match requestedData w with Some d => [mount DataStoragePostfix (da_MountPath d) ""] | None => [] end ++
  match requestedHf w with Some h => [mount HfStoragePostfix (hs_MountPath h) ""] | None => [] end.

Definition updateContainerBase (i : PodInput) (c : PodContainer) : PodContainer :=
  let w := pi_Workload i in
  let envVars := po_Env (pi_Options i) ++ match requestedHf w with Some h => [envVar "HF_HOME" (hs_MountPath h)] | None => [] end in
  {| pc_Base := pc_Base c; pc_Image := pc_Image c; pc_ImagePullPolicy := pc_ImagePullPolicy c; pc_Command := pc_Command c;
     pc_Env := pc_Env c ++ envVars;
     pc_VolumeMounts := (pc_VolumeMounts c ++ storageMounts w) ++
       ((λ v, mount (sv_Name v) (sv_MountPath v) (sv_SubPath v)) <$> po_SecretVolumes (pi_Options i));
     pc_Rest := pc_Rest c |}.

Definition updateInitContainer := updateContainerBase.

Definition UpdatePodSpecWithGPUModelAffinity (affinity : option Affinity) (gpuModels : list string) (gpuModelLabel : string) : option Affinity :=
  if decide (gpuModels = []) then affinity
  else
    let nodeAffinity :=
      {| na_Required := Some [[{| nr_Key := gpuModelLabel; nr_Operator := "In"; nr_Values := gpuModels |}]]; na_Preferred := JNull |} in
    Some {| af_NodeAffinity := Some nodeAffinity; af_Rest := match affinity with Some a => af_Rest a | None => JNull end |}.

(** The closure [addToleration]. *)
Definition gpuToleration (cfg : ManifestConfig) : Toleration :=
  {| tol_Key := mc_DefaultGpuTaintKey cfg; tol_Operator := "Exists"; tol_Value := ""; tol_Effect := "NoSchedule" |}.

Definition requestsGpu (c : PodContainer) : bool :=
  bool_decide (is_Some (c_Requests (pc_Base c) !! "nvidia.com/gpu") ∨ is_Some (c_Requests (pc_Base c) !! "amd.com/gpu")).

Definition KueueRequiredTopologyKey : string := "kueue.x-k8s.io/podset-required-topology".
Definition KueuePreferredTopologyKey : string := "kueue.x-k8s.io/podset-preferred-topology".

Definition topologyAnnotations (o : PodOptions) (annotations : gmap string string) : gmap string string :=
  if decide (po_RequiredTopologyLabel o ≠ "") then <[KueueRequiredTopologyKey := po_RequiredTopologyLabel o]> annotations
  else if decide (po_PreferredTopologyLabel o ≠ "") then <[KueuePreferredTopologyKey := po_PreferredTopologyLabel o]> annotations
  else annotations.

Section pods.
Context `{GoOrder}.

Definition updateMainContainer (cfg : ManifestConfig) (i : PodInput) (sc : SharedConfig) (rayHead : bool) (c : PodContainer) (h : mapStore)
  : mapStore * PodContainer :=
  let c := updateContainerBase i c in
  let envVarsToAppend :=
    [envVar "NUM_GPUS" (pretty (sc_TotalGpus sc)); envVar "NUM_REPLICAS" (pretty (sc_Replicas sc));
     envVar "NUM_GPUS_PER_REPLICA" (pretty (sc_GpusPerReplica sc))] in
  let '(h, (requests, limits)) := CreateResourceRequirements (mc_DefaultGpuResourceKey cfg) sc rayHead h in
  (h, {| pc_Base := fillContainerResources (pc_Base c) (deref h requests) (deref h limits) false;
         pc_Image := if decide (pc_Image c = "") then po_Image (pi_Options i) else pc_Image c;
         pc_ImagePullPolicy := pc_ImagePullPolicy c; pc_Command := pc_Command c; pc_Env := pc_Env c ++ envVarsToAppend;
         pc_VolumeMounts := pc_VolumeMounts c; pc_Rest := pc_Rest c |}).

Fixpoint updateMainContainers (cfg : ManifestConfig) (i : PodInput) (sc : SharedConfig) (rayHead : bool) (cs : list PodContainer) (h : mapStore)
  : mapStore * list PodContainer :=
  match cs with
  | [] => (h, [])
  | c :: cs' =>
      let '(h, c) := updateMainContainer cfg i sc rayHead c h in
      let '(h, cs') := updateMainContainers cfg i sc rayHead cs' h in
      (h, c :: cs')
  end.

Definition UpdatePodSpec (cfg : ManifestConfig) (i : PodInput) (sc : SharedConfig) (rayHead : bool) (t : PodTemplateSpec) (h : mapStore)
  : mapStore * PodTemplateSpec :=
  let w := pi_Workload i in
  let o := pi_Options i in
  let '(h, containers) := updateMainContainers cfg i sc rayHead (pt_Containers t) h in
  (h, {| pt_Labels := UpdateLabels w (po_PodTemplateSpecLabels o ∪ pt_Labels t);
         pt_Annotations := topologyAnnotations o (po_Annotations o ∪ pt_Annotations t);
         pt_ImagePullSecrets := pt_ImagePullSecrets t ++ po_ImagePullSecrets o;
         pt_Volumes := (pt_Volumes t ++ storageVolumes w) ++ (secretVolume <$> po_SecretVolumes o);
         pt_Containers := containers;
         pt_InitContainers := updateInitContainer i <$> pt_InitContainers t;
         pt_Tolerations := pt_Tolerations t ++
           (if mc_AddTaintsToGpuNodes cfg && existsb requestsGpu containers then [gpuToleration cfg] else []);
         pt_Affinity := if decide (po_GpuModels o ≠ [] ∧ 0 < sc_GpusPerReplica sc)
                        then UpdatePodSpecWithGPUModelAffinity (pt_Affinity t) (po_GpuModels o) GPUModelLabel else pt_Affinity t;
         pt_RestartPolicy := pt_RestartPolicy t; pt_SchedulerName := pt_SchedulerName t;
         pt_SecurityContext := pt_SecurityContext t; pt_Rest := pt_Rest t |}).

End pods.

Definition GetPodTemplate (cfg : ManifestConfig) (dshmSize : Quantity) (dangerous : bool) (workloadContainerName : string) : PodTemplateSpec :=
  {| pt_Labels := ∅; pt_Annotations := ∅; pt_ImagePullSecrets := [];
     pt_Volumes := [{| v_Name := "dshm"; v_Source := EmptyDirSource "Memory" (Some dshmSize) |}];
     pt_Containers :=
       [{| pc_Base := {| c_Name := workloadContainerName; c_Requests := ∅; c_Limits := ∅ |}; pc_Image := ""; pc_ImagePullPolicy := "Always";
           pc_Command := []; pc_Env := []; pc_VolumeMounts := [mount "dshm" "/dev/shm" ""]; pc_Rest := JNull |}];
     pt_InitContainers := []; pt_Tolerations := []; pt_Affinity := None; pt_RestartPolicy := "Never";
     pt_SchedulerName := mc_KubeSchedulerName cfg;
     pt_SecurityContext :=
       if dangerous then None
       else Some {| sec_RunAsUser := Some 1000; sec_RunAsGroup := Some 1000; sec_FSGroup := Some 1000; sec_Rest := JNull |};
     pt_Rest := JNull |}.

(** ** utils.go *)

Definition set_Command (command : list string) (c : PodContainer) : PodContainer :=
  {| pc_Base := pc_Base c; pc_Image := pc_Image c; pc_ImagePullPolicy := pc_ImagePullPolicy c; pc_Command := command; pc_Env := pc_Env c;
     pc_VolumeMounts := pc_VolumeMounts c; pc_Rest := pc_Rest c |}.
Definition set_Env (env : list EnvVar) (c : PodContainer) : PodContainer :=
  {| pc_Base := pc_Base c; pc_Image := pc_Image c; pc_ImagePullPolicy := pc_ImagePullPolicy c; pc_Command := pc_Command c; pc_Env := env;
     pc_VolumeMounts := pc_VolumeMounts c; pc_Rest := pc_Rest c |}.
Definition set_Containers (cs : list PodContainer) (t : PodTemplateSpec) : PodTemplateSpec :=
  {| pt_Labels := pt_Labels t; pt_Annotations := pt_Annotations t; pt_ImagePullSecrets := pt_ImagePullSecrets t; pt_Volumes := pt_Volumes t;
     pt_Containers := cs; pt_InitContainers := pt_InitContainers t; pt_Tolerations := pt_Tolerations t; pt_Affinity := pt_Affinity t;
     pt_RestartPolicy := pt_RestartPolicy t; pt_SchedulerName := pt_SchedulerName t; pt_SecurityContext := pt_SecurityContext t;
     pt_Rest := pt_Rest t |}.
Definition set_Labels (ls : gmap string string) (t : PodTemplateSpec) : PodTemplateSpec :=
  {| pt_Labels := ls; pt_Annotations := pt_Annotations t; pt_ImagePullSecrets := pt_ImagePullSecrets t; pt_Volumes := pt_Volumes t;
     pt_Containers := pt_Containers t; pt_InitContainers := pt_InitContainers t; pt_Tolerations := pt_Tolerations t; pt_Affinity := pt_Affinity t;
     pt_RestartPolicy := pt_RestartPolicy t; pt_SchedulerName := pt_SchedulerName t; pt_SecurityContext := pt_SecurityContext t;
     pt_Rest := pt_Rest t |}.
Definition set_RestartPolicy (p : string) (t : PodTemplateSpec) : PodTemplateSpec :=
  {| pt_Labels := pt_Labels t; pt_Annotations := pt_Annotations t; pt_ImagePullSecrets := pt_ImagePullSecrets t; pt_Volumes := pt_Volumes t;
     pt_Containers := pt_Containers t; pt_InitContainers := pt_InitContainers t; pt_Tolerations := pt_Tolerations t; pt_Affinity := pt_Affinity t;
     pt_RestartPolicy := p; pt_SchedulerName := pt_SchedulerName t; pt_SecurityContext := pt_SecurityContext t;
     pt_Rest := pt_Rest t |}.

Definition noContainers : error := Errorf "podTemplateSpec has no containers to modify".

Definition AddEntrypoint (entrypoint : string) (t : PodTemplateSpec) : outcome PodTemplateSpec :=
  if decide (entrypoint = "") then Ok t
  else
    match pt_Containers t with
    | [] => Err noContainers
    | c :: cs =>
        match ConvertMultilineEntrypoint entrypoint false with
        | inr command => Ok (set_Containers (set_Command command c :: cs) t)
        | inl _ => Panics
        end
    end.

Definition addEnvVars (UserEnvVars : list EnvVar) (t : PodTemplateSpec) : outcome PodTemplateSpec :=
  match pt_Containers t with
  | [] => Err noContainers
  | c :: cs => Ok (set_Containers (set_Env (pc_Env c ++ UserEnvVars) c :: cs) t)
  end.

(** * Properties *)

(** Every mount of the pod's containers names one of its volumes. *)
Definition mounted (volumes : list string) (c : PodContainer) : Prop := vm_Name <$> pc_VolumeMounts c ⊆ volumes.
Definition well_mounted (t : PodTemplateSpec) : Prop :=
  Forall (mounted (v_Name <$> pt_Volumes t)) (pt_Containers t ++ pt_InitContainers t).

(** Whether a toleration tolerates a taint, and whether the node affinity of a pod
    accepts labels of a node: some term must have all its expressions hold. *)
Definition tolerates (t : Toleration) (taint : Taint) : Prop :=
  (tol_Effect t = "" ∨ tol_Effect t = taint_Effect taint) ∧ (tol_Key t = "" ∨ tol_Key t = taint_Key taint) ∧
  (tol_Operator t = "Exists" ∨ tol_Operator t ∈ [""; "Equal"] ∧ tol_Value t = taint_Value taint).

Section theory.
Context `{GoOrder}.

(** ** Containers *)

Lemma updateContainerBase_mounts i c :
  vm_Name <$> pc_VolumeMounts (updateContainerBase i c) =
    (vm_Name <$> pc_VolumeMounts c) ++ (v_Name <$> storageVolumes (pi_Workload i) ++ (secretVolume <$> po_SecretVolumes (pi_Options i))).
Proof.
  cbn [updateContainerBase pc_VolumeMounts]. rewrite !fmap_app, <- app_assoc. f_equal. f_equal.
  - unfold storageMounts, storageVolumes. by destruct (requestedData _), (requestedHf _).
  - rewrite <- !list_fmap_compose. by apply list_fmap_ext.
Qed.

(** What the update of one main container leaves of it, and what it adds. *)
Definition updated (cfg : ManifestConfig) (i : PodInput) (sc : SharedConfig) (c c' : PodContainer) : Prop :=
  c_Name (pc_Base c') = c_Name (pc_Base c) ∧ pc_Command c' = pc_Command c ∧
  pc_Image c' = (if decide (pc_Image c = "") then po_Image (pi_Options i) else pc_Image c) ∧
  (∃ env, pc_Env c' = pc_Env c ++ env) ∧ pc_VolumeMounts c' = pc_VolumeMounts (updateContainerBase i c) ∧
  (∀ k v, c_Requests (pc_Base c) !! k = Some v → c_Requests (pc_Base c') !! k = Some v).

Lemma updateMainContainers_spec cfg i sc rayHead cs h :
  Forall2 (updated cfg i sc) cs (updateMainContainers cfg i sc rayHead cs h).2.
Proof.
  revert h. induction cs as [|c cs IH]; intros h; cbn [updateMainContainers]; [constructor|]. unfold updateMainContainer.
  destruct (CreateResourceRequirements _ sc rayHead h) as [h1 [q l]]. specialize (IH h1).
  destruct (updateMainContainers cfg i sc rayHead cs h1) as [h2 cs']. constructor; [|exact IH]. unfold updated. cbn.
  do 3 (split; [done|]). split; [rewrite <- app_assoc; by eexists|]. split; [done|]. intros k v Hk.
  rewrite fillResourceList_lookup, Hk. by destruct (deref h1 q !! k).
Qed.

(** ** Volumes *)

Lemma UpdatePodSpec_well_mounted cfg i sc rayHead t h :
  well_mounted t → well_mounted (UpdatePodSpec cfg i sc rayHead t h).2.
Proof.
  unfold well_mounted. intros Ht. unfold UpdatePodSpec.
  pose proof (updateMainContainers_spec cfg i sc rayHead (pt_Containers t) h) as Hcs.
  destruct (updateMainContainers _ _ _ _ _ _) as [h' cs]. cbn in *. rewrite Forall_app in Ht |- *. destruct Ht as [Hmain Hinit].
  assert (∀ c, mounted (v_Name <$> pt_Volumes t) c → mounted (v_Name <$> (pt_Volumes t ++ storageVolumes (pi_Workload i)) ++
    (secretVolume <$> po_SecretVolumes (pi_Options i))) (updateContainerBase i c)) as Hbase.
  { intros c Hc. unfold mounted in *. rewrite updateContainerBase_mounts, <- app_assoc, (fmap_app _ (pt_Volumes t)).
    intros n. rewrite !elem_of_app. intros [?|?]; [left; auto|by right]. }
  split.
  - rewrite Forall_lookup in *. intros k c' Hk. destruct (Forall2_lookup_r _ _ _ _ _ Hcs Hk) as (c & Hc & Hupd).
    destruct Hupd as (_ & _ & _ & _ & Hm & _). unfold mounted. rewrite Hm. by apply Hbase, (Hmain k).
  - apply Forall_fmap. eapply Forall_impl; [exact Hinit|]. apply Hbase.
Qed.

Lemma GetPodTemplate_well_mounted cfg q d n : well_mounted (GetPodTemplate cfg q d n).
Proof. unfold well_mounted, mounted. cbn. constructor; [set_solver|constructor]. Qed.

(** ** GPUs and tolerations *)

(** The maps a config refers to exist. *)
Definition valid (sc : SharedConfig) (h : mapStore) : Prop :=
  ∀ d r, sc_DefaultResources sc = Some d → rr_Requests d = Some r ∨ rr_Limits d = Some r → (r < length h)%nat.

Lemma shareConfig_valid rc : valid (shareConfig rc []).2 (shareConfig rc []).1.
Proof.
  unfold shareConfig, valid. destruct (rc_DefaultResources rc) as [[[q|] [l|]]|]; cbn; intros d r Hd; simplify_eq; cbn; intros [|]; simplify_eq; lia.
Qed.

Lemma ensureMap_length r h : (∀ l, r = Some l → (l < length h)%nat) →
  ((ensureMap r h).2 < length (ensureMap r h).1)%nat ∧ (length h ≤ length (ensureMap r h).1)%nat.
Proof. intros Hr. destruct r as [l|]; cbn; [by auto|]. rewrite length_app. cbn. lia. Qed.

Lemma CreateResourceRequirements_gpus defaultKey sc rayHead h :
  valid sc h →
  let '(h', (q, _)) := CreateResourceRequirements defaultKey sc rayHead h in
  valid sc h' ∧
  ∀ key, getGpuResourceKey (sc_GpuVendor sc) defaultKey = key → gpuName key → rayHead = false → 0 < sc_GpusPerReplica sc →
    deref h' q !! key = Some (sc_GpusPerReplica sc).
Proof.
  intros Hv. unfold CreateResourceRequirements. set (d := default _ (sc_DefaultResources sc)).
  assert (∀ r, rr_Requests d = Some r ∨ rr_Limits d = Some r → (r < length h)%nat) as Hd.
  { subst d. intros r Hr. destruct (sc_DefaultResources sc) as [d|] eqn:E; [by eapply Hv|]. by destruct Hr. }
  destruct (ensureMap_length (rr_Requests d) h) as [Hq Hlen1]; [auto|]. destruct (ensureMap (rr_Requests d) h) as [h1 q]. cbn [fst snd] in *.
  destruct (ensureMap_length (rr_Limits d) h1) as [Hl Hlen2]; [intros l Hl; specialize (Hd l (or_intror Hl)); lia|].
  destruct (ensureMap (rr_Limits d) h1) as [h2 l]. cbn [fst snd] in *.
  split.
  - intros d' r Hd' Hr. rewrite !length_write. specialize (Hv d' r Hd' Hr). case_decide; rewrite ?length_write; lia.
  - intros key -> Hkey -> Hg. rewrite decide_True by done.
    rewrite !deref_write by (rewrite ?length_write; lia).
    repeat case_decide; subst; rewrite ?updateResourceList_other by done; rewrite ?lookup_insert_eq; done.
Qed.

(** The names by which the code recognises a GPU request. *)
Definition knownGpu (key : string) : Prop := key = "nvidia.com/gpu" ∨ key = "amd.com/gpu".

Lemma knownGpu_name key : knownGpu key → gpuName key.
Proof. by intros [-> | ->]. Qed.

Lemma updateMainContainers_gpus cfg i sc rayHead cs h :
  valid sc h →
  let '(h', cs') := updateMainContainers cfg i sc rayHead cs h in
  valid sc h' ∧
  (knownGpu (getGpuResourceKey (sc_GpuVendor sc) (mc_DefaultGpuResourceKey cfg)) → rayHead = false → 0 < sc_GpusPerReplica sc →
    cs ≠ [] → existsb requestsGpu cs' = true).
Proof.
  revert h. induction cs as [|c cs IH]; intros h Hv; cbn [updateMainContainers]; [done|]. unfold updateMainContainer.
  pose proof (CreateResourceRequirements_gpus (mc_DefaultGpuResourceKey cfg) sc rayHead h Hv) as Hc.
  destruct (CreateResourceRequirements _ _ _ _) as [h1 [q l]]. destruct Hc as [Hv1 Hgpu]. specialize (IH h1 Hv1).
  destruct (updateMainContainers cfg i sc rayHead cs h1) as [h2 cs']. destruct IH as [Hv2 _]. split; [done|].
  intros Hkey Hhead Hg _. cbn [existsb]. apply orb_true_iff. left. apply bool_decide_eq_true.
  specialize (Hgpu _ eq_refl (knownGpu_name _ Hkey) Hhead Hg). cbn [pc_Base].
  assert (is_Some (fillResourceList (c_Requests (pc_Base (updateContainerBase i c))) (deref h1 q) false !!
    getGpuResourceKey (sc_GpuVendor sc) (mc_DefaultGpuResourceKey cfg))) as Hs.
  { rewrite fillResourceList_lookup, Hgpu. cbn. destruct (c_Requests (pc_Base c) !! _); eauto. }
  destruct Hkey as [Hkey|Hkey]; rewrite Hkey in Hs; auto.
Qed.

(** ** What the operator makes of a pod template *)

(** Of a template, as it is and as it is made: mounts still name volumes, the containers
    keep their names and their commands, the pod is found by the run of its workload and,
    unless it is a Ray head, is let onto tainted nodes if it is given GPUs. *)
Record made (cfg : ManifestConfig) (i : PodInput) (rc : ResourceConfig) (rayHead : bool) (t t' : PodTemplateSpec) : Prop := {
  made_mounted : well_mounted t → well_mounted t';
  made_names : (c_Name ∘ pc_Base <$> pt_Containers t') = (c_Name ∘ pc_Base <$> pt_Containers t);
  made_volumes v : v ∈ pt_Volumes t' ↔
    v ∈ pt_Volumes t ++ storageVolumes (pi_Workload i) ++ (secretVolume <$> po_SecretVolumes (pi_Options i));
  made_run : pt_Labels t' !! KaiwoRunIdLabel = Some (kw_UID (pi_Workload i));
  made_name : pt_Labels t' !! KaiwoNameLabel = Some (kw_Name (pi_Workload i));
  made_tolerates :
    mc_AddTaintsToGpuNodes cfg = true → rayHead = false → 0 < rc_GpusPerReplica rc → pt_Containers t' ≠ [] →
    knownGpu (getGpuResourceKey (rc_GpuVendor rc) (mc_DefaultGpuResourceKey cfg)) → gpuToleration cfg ∈ pt_Tolerations t'
}.

(** A shared config that is the one calculated, but for its maps. *)
Definition same_size (rc : ResourceConfig) (sc : SharedConfig) : Prop :=
  sc_GpusPerReplica sc = rc_GpusPerReplica rc ∧ sc_GpuVendor sc = rc_GpuVendor rc ∧ sc_Replicas sc = rc_Replicas rc.

Lemma shareConfig_same rc h : same_size rc (shareConfig rc h).2.
Proof. unfold shareConfig, same_size. destruct (rc_DefaultResources rc) as [[[q|] [l|]]|]; done. Qed.

Lemma UpdatePodSpec_made cfg i rc sc rayHead t h :
  valid sc h → same_size rc sc →
  valid sc (UpdatePodSpec cfg i sc rayHead t h).1 ∧ made cfg i rc rayHead t (UpdatePodSpec cfg i sc rayHead t h).2.
Proof.
  intros Hv (Hg & Hvendor & _). pose proof (UpdatePodSpec_well_mounted cfg i sc rayHead t h) as Hmount. unfold UpdatePodSpec in *.
  pose proof (updateMainContainers_spec cfg i sc rayHead (pt_Containers t) h) as Hcs.
  pose proof (updateMainContainers_gpus cfg i sc rayHead (pt_Containers t) h Hv) as Hgpus.
  destruct (updateMainContainers _ _ _ _ _ _) as [h' cs]. cbn [fst snd] in *. destruct Hgpus as [Hv' Hgpus]. split; [done|].
  destruct (UpdateLabels_spec (pi_Workload i) (po_PodTemplateSpecLabels (pi_Options i) ∪ pt_Labels t)) as (_ & Hname & _ & Hrun & _).
  constructor; cbn [pt_Labels pt_Volumes pt_Containers pt_Tolerations]; [done|..|done|done|].
  - clear -Hcs. induction Hcs as [|c c' cs cs' (Hn & _) _ IH]; [done|]. rewrite !fmap_cons. f_equal; [exact Hn|exact IH].
  - intros v. by rewrite <- app_assoc.
  - intros Hadd Hhead Hpos Hne Hkey. rewrite Hadd, Hgpus; [cbn [andb]; apply elem_of_app; right; by left|by rewrite Hvendor|done|by rewrite Hg|].
    intros Hnil. rewrite Hnil in Hcs. inversion Hcs. by subst.
Qed.
End theory.
