(* ===== verification/Downloads.v ===== *)
(** The objects that make the storage of a workload (pkg/workloads/common: pvc.go,
    download.go): the volume claims, the configuration of the downloader and the job
    that runs it. *)

From stdpp Require Import gmap strings list.
From Stdlib Require Import ZArith Lia.
From S2P Require Import Prelude Types Text Kueue Resources Naming WorkloadTypes Labels WorkloadApi Handlers PodSpecs.

(** * Paths *)

(** [filepath.Clean]: empty and [.] elements go, [..] takes the element before with it;
    [out] is what is kept so far, the last element first. *)
Fixpoint cleanElements (rooted : bool) (out elems : list string) : list string :=
  match elems with
  | [] => reverse out
  | e :: elems' =>
      if decide (e = "" ∨ e = ".") then cleanElements rooted out elems'
      else if decide (e = "..") then
        match out with
        | o :: out' => if decide (o = "..") then cleanElements rooted (e :: out) elems' else cleanElements rooted out' elems'
        | [] => cleanElements rooted (if rooted then [] else [e]) elems'
        end
      else cleanElements rooted (e :: out) elems'
  end.

Definition slashChar : Ascii.ascii := Ascii.ascii_of_nat 47.

Definition Clean (path : string) : string :=
  let rooted := String.prefix "/" path in
  let cleaned := Str.Join (cleanElements rooted [] (Str.Split path slashChar)) "/" in
  if rooted then "/" +:+ cleaned else if decide (cleaned = "") then "." else cleaned.

(** [filepath.Join]. *)
Fixpoint JoinPath (elems : list string) : string :=
  match elems with
  | [] => ""
  | e :: elems' => if decide (e = "") then JoinPath elems' else Clean (Str.Join elems "/")
  end.

Example Clean_example : JoinPath ["/app/secrets"; "aws"; "../id//key"] = "/app/secrets/id/key".
Proof. reflexivity. Qed.

(** * Volume claims *)

Record PersistentVolumeClaim := {
  pvc_Name : string;
  pvc_Namespace : string;
  pvc_AccessModes : list string;
  pvc_StorageClassName : option string;
  pvc_Requests : gmap string Quantity
}.

Definition buildPvc (key : Key) (amount : Quantity) (spec : StorageSpec) : PersistentVolumeClaim :=
  {| pvc_Name := key_name key; pvc_Namespace := key_namespace key; pvc_AccessModes := [ss_AccessMode spec];
     pvc_StorageClassName := Some (ss_StorageClassName spec); pvc_Requests := {[ "storage" := amount ]} |}.

(** * The configuration *)

Definition configMapFilename : string := "config.yaml".
Definition secretsMount : string := "/app/secrets".

(** The closure [setSecretPath]. *)
Definition setSecretPath (ref : ValueReference) : ValueReference :=
  if decide (vr_File ref = "") then
    {| vr_File := JoinPath [secretsMount; vr_SecretName ref; vr_SecretKey ref]; vr_SecretName := vr_SecretName ref;
       vr_SecretKey := vr_SecretKey ref |}
  else ref.

Definition namesSecret (d : S3DownloadItem) : bool :=
  bool_decide (vr_SecretName (s3_AccessKeyId d) ≠ "" ∨ vr_SecretName (s3_SecretKey d) ≠ "").

(** The loops over the downloads; they write to the items of the workload in place, to
    nothing but [File], which nothing reads but the configuration. *)
Definition setS3Paths (d : S3DownloadItem) : S3DownloadItem :=
  if namesSecret d
  then {| s3_EndpointUrl := s3_EndpointUrl d; s3_AccessKeyId := setSecretPath (s3_AccessKeyId d);
          s3_SecretKey := setSecretPath (s3_SecretKey d); s3_Buckets := s3_Buckets d |}
  else d.
Definition setGCSPaths (d : GCSDownloadItem) : GCSDownloadItem :=
  {| gcs_ApplicationCredentials := setSecretPath (gcs_ApplicationCredentials d); gcs_Buckets := gcs_Buckets d |}.
Definition setAzurePaths (d : AzureBlobStorageDownloadItem) : AzureBlobStorageDownloadItem :=
  {| az_ConnectionString := setSecretPath (az_ConnectionString d); az_Containers := az_Containers d |}.
Definition setGitPaths (d : GitDownloadItem) : GitDownloadItem :=
  {| git_Repository := git_Repository d; git_Branch := git_Branch d; git_Commit := git_Commit d;
     git_Username := setSecretPath <$> git_Username d; git_Token := setSecretPath <$> git_Token d; git_Path := git_Path d;
     git_TargetPath := git_TargetPath d |}.

Definition setDataPaths (d : DataStorageSpec) : DataStorageSpec :=
  let dl := da_Download d in
  {| da_MountPath := da_MountPath d; da_StorageSize := da_StorageSize d;
     da_Download := {| ds_S3 := setS3Paths <$> ds_S3 dl; ds_GCS := setGCSPaths <$> ds_GCS dl;
                       ds_AzureBlob := setAzurePaths <$> ds_AzureBlob dl; ds_Git := setGitPaths <$> ds_Git dl |} |}.

Definition setSecretPaths (spec : StorageSpec) : StorageSpec :=
  if HasObjectStorageDownloads (Some spec) then
    {| ss_StorageEnabled := ss_StorageEnabled spec; ss_StorageClassName := ss_StorageClassName spec; ss_AccessMode := ss_AccessMode spec;
       ss_Data := setDataPaths <$> ss_Data spec; ss_HuggingFace := ss_HuggingFace spec |}
  else spec.

Record ConfigMap := { cm_Name : string; cm_Namespace : string; cm_Data : gmap string string }.

(** [yaml.Marshal]. *)
Class YamlLib := { Marshal : DownloadTaskConfig → error + string }.

Definition buildDownloadConfigMap `{YamlLib} (key : Key) (spec : StorageSpec) : outcome ConfigMap :=
  let downloadConfig := CreateConfig (setSecretPaths spec) in
  match Marshal downloadConfig with
  | inl e => Err (Wrapf "failed to marshal download job config to yaml" e)
  | inr yamlData =>
      Ok {| cm_Name := key_name (downloadKey key); cm_Namespace := key_namespace (downloadKey key);
            cm_Data := {[ configMapFilename := yamlData ]} |}
  end.

(** * The job *)

(** The references the loops visit. *)
Definition s3Secrets (d : S3DownloadItem) : list ValueReference := if namesSecret d then [s3_AccessKeyId d; s3_SecretKey d] else [].
Definition gitSecrets (d : GitDownloadItem) : list ValueReference := listOf (git_Username d) ++ listOf (git_Token d).

Definition downloadSecrets (dl : ObjectStorageDownloadSpec) : list ValueReference :=
  concat (s3Secrets <$> ds_S3 dl) ++ (gcs_ApplicationCredentials <$> ds_GCS dl) ++ (az_ConnectionString <$> ds_AzureBlob dl) ++
  concat (gitSecrets <$> ds_Git dl).

(** The closure [addSecret]; of the volume of a secret only its items vary. *)
Definition addSecret (secretVolumes : gmap string (list KeyToPath)) (ref : ValueReference) : gmap string (list KeyToPath) :=
  let items := default [] (secretVolumes !! vr_SecretName ref) in
  <[vr_SecretName ref := items ++ [{| kp_Key := vr_SecretKey ref; kp_Path := vr_SecretKey ref |}]]> secretVolumes.

Definition secretVolumes (dl : ObjectStorageDownloadSpec) : gmap string (list KeyToPath) := foldl addSecret ∅ (downloadSecrets dl).

Section job.
Context `{GoOrder}.

Definition secretEntries (dl : ObjectStorageDownloadSpec) : list (Volume * VolumeMount) :=
  (λ '(secretName, items),
    ({| v_Name := "secret-" +:+ secretName; v_Source := SecretSource secretName items |},
     mount ("secret-" +:+ secretName) (secretsMount +:+ "/" +:+ secretName) "")) <$> rangeMap (secretVolumes dl).

Definition claimEntry (key : Key) (name path : string) : Volume * VolumeMount :=
  ({| v_Name := name; v_Source := PersistentVolumeClaimSource (FormatNameWithPostfix (key_name key) [name]) |}, mount name path "").

(** The volumes with their mounts, which are appended together. *)
Definition downloadVolumes (key : Key) (spec : StorageSpec) : list (Volume * VolumeMount) :=
  let downloadConfig := CreateConfig spec in
  [({| v_Name := "config"; v_Source := ConfigMapSource (key_name (downloadKey key)) |}, mount "config" "/config" "")] ++
  (if HasObjectStorageDownloads (Some spec) then
     claimEntry key DataStoragePostfix (dt_DownloadRoot downloadConfig) ::
     match ss_Data spec with Some d => secretEntries (da_Download d) | None => [] end
   else []) ++
  (if HasHfDownloads (Some spec) then [claimEntry key HfStoragePostfix (dt_HfHome downloadConfig)] else []).

Definition downloadEnv (spec : StorageSpec) : list EnvVar :=
  match ss_HuggingFace spec with
  | Some h => if HasHfDownloads (Some spec) then [envVar "HF_HOME" (hs_MountPath h)] else []
  | None => []
  end.

Definition downloadTemplate (key : Key) (spec : StorageSpec) : PodTemplateSpec :=
  {| pt_Labels := ∅; pt_Annotations := ∅; pt_ImagePullSecrets := []; pt_Volumes := fst <$> downloadVolumes key spec;
     pt_Containers :=
       [{| pc_Base := {| c_Name := "data-downloader"; c_Requests := {[ ResourceCPU := 1; ResourceMemory := 1 * Gi ]};
                         c_Limits := {[ ResourceCPU := 2; ResourceMemory := 4 * Gi ]} |};
           pc_Image := "ghcr.io/silogen/kaiwo-python:0.6"; pc_ImagePullPolicy := "Always";
           pc_Command := ["python"; "-m"; "kaiwo.downloader"; "--log-level=INFO"; JoinPath ["/config"; configMapFilename]];
           pc_Env := downloadEnv spec; pc_VolumeMounts := snd <$> downloadVolumes key spec; pc_Rest := JNull |}];
     pt_InitContainers := []; pt_Tolerations := []; pt_Affinity := None; pt_RestartPolicy := "Never"; pt_SchedulerName := "";
     pt_SecurityContext := Some {| sec_RunAsUser := Some 1000; sec_RunAsGroup := Some 1000; sec_FSGroup := Some 1000; sec_Rest := JNull |};
     pt_Rest := JNull |}.

Definition buildDownloadJob (key : Key) (spec : StorageSpec) (UserEnvVars : list EnvVar) : outcome BatchJob :=
  match addEnvVars UserEnvVars (downloadTemplate key spec) with
  | Ok template =>
      Ok {| jb_Name := key_name (downloadKey key); jb_Namespace := key_namespace (downloadKey key);
            jb_Labels := {[ KaiwoTypeLabel := "downloader" ]};
            jb_Spec := {| js_Suspend := None; js_BackoffLimit := Some 0; js_TTLSecondsAfterFinished := None; js_Template := template;
                          js_Rest := JNull |} |}
  | Err e => Err (Wrapf "error adding env vars" e)
  | Panics => Panics
  end.
End job.

(** * Properties *)

(** An element of a path that stands for itself, as the names and keys of secrets do. *)
Definition plain (e : string) : Prop := (e ∉ [""; "."; ".."]) ∧ (slashChar ∉ Text.chars e).

Lemma cleanElements_plain rooted out e elems :
  e ∉ [""; "."; ".."] → cleanElements rooted out (e :: elems) = cleanElements rooted (e :: out) elems.
Proof. rewrite !not_elem_of_cons. intros He. cbn [cleanElements]. by rewrite !decide_False by tauto. Qed.

Lemma JoinPath_secret name key :
  plain name → plain key → JoinPath [secretsMount; name; key] = secretsMount +:+ "/" +:+ name +:+ "/" +:+ key.
Proof.
  intros [Hn Hns] [Hk Hks]. cbn [JoinPath]. rewrite decide_False by done. unfold Clean.
  assert (Str.Join [secretsMount; name; key] "/" = "/app/secrets" +:+ String slashChar (name +:+ String slashChar key)) as -> by done.
  assert (String.prefix "/" ("/app/secrets" +:+ String slashChar (name +:+ String slashChar key)) = true) as -> by by apply Str.prefix_spec; eexists.
  rewrite (Text.Split_app "/app/secrets"), (Text.Split_app name), !(Text.Split_whole name), !(Text.Split_whole key) by done.
  change (Str.Split "/app/secrets" slashChar ++ [name] ++ [key]) with [""; "app"; "secrets"; name; key].
  change (cleanElements true [] [""; "app"; "secrets"; name; key]) with (cleanElements true [] ["app"; "secrets"; name; key]).
  rewrite !cleanElements_plain by (done || set_solver). done.
Qed.

(** ** Secrets *)

(** The items of the volume of a secret. *)
Definition itemsOf (n : string) (refs : list ValueReference) : list KeyToPath :=
  (λ r, {| kp_Key := vr_SecretKey r; kp_Path := vr_SecretKey r |}) <$> filter (λ r, vr_SecretName r = n) refs.

Lemma foldl_addSecret refs m n :
  default [] (foldl addSecret m refs !! n) = default [] (m !! n) ++ itemsOf n refs ∧
  (is_Some (foldl addSecret m refs !! n) ↔ is_Some (m !! n) ∨ n ∈ vr_SecretName <$> refs).
Proof.
  revert m. induction refs as [|r refs IH]; intros m; cbn [foldl].
  { rewrite app_nil_r. split; [done|]. rewrite elem_of_nil. tauto. }
  destruct (IH (addSecret m r)) as [Hitems Hsome]. rewrite Hitems, Hsome. unfold addSecret, itemsOf. rewrite fmap_cons, elem_of_cons.
  destruct (decide (vr_SecretName r = n)) as [<-|Hne].
  - rewrite lookup_insert_eq, filter_cons_True by done. cbn. rewrite <- app_assoc. split; [done|]. split; [auto|eauto].
  - rewrite lookup_insert_ne, filter_cons_False by done. split; [done|]. naive_solver.
Qed.

Lemma secretVolumes_lookup dl r :
  r ∈ downloadSecrets dl → secretVolumes dl !! vr_SecretName r = Some (itemsOf (vr_SecretName r) (downloadSecrets dl)).
Proof.
  intros Hr. destruct (foldl_addSecret (downloadSecrets dl) ∅ (vr_SecretName r)) as [Hitems Hsome].
  fold (secretVolumes dl) in Hitems, Hsome. destruct (secretVolumes dl !! vr_SecretName r); [by cbn in Hitems; subst|].
  assert (vr_SecretName r ∈ vr_SecretName <$> downloadSecrets dl) as Hin by (by apply list_elem_of_fmap_2).
  destruct (proj2 Hsome (or_intror Hin)). done.
Qed.

(** Where a reference stands among the downloads: a field of an item of one of the lists. *)
Inductive place :=
| S3AccessKeyId (i : nat) | S3SecretKey (i : nat) | GCSCredentials (i : nat) | AzureConnectionString (i : nat)
| GitUsername (i : nat) | GitToken (i : nat).

Definition reference_at (dl : ObjectStorageDownloadSpec) (p : place) : option ValueReference :=
  match p with
  | S3AccessKeyId i => s3_AccessKeyId <$> ds_S3 dl !! i
  | S3SecretKey i => s3_SecretKey <$> ds_S3 dl !! i
  | GCSCredentials i => gcs_ApplicationCredentials <$> ds_GCS dl !! i
  | AzureConnectionString i => az_ConnectionString <$> ds_AzureBlob dl !! i
  | GitUsername i => item ← ds_Git dl !! i; git_Username item
  | GitToken i => item ← ds_Git dl !! i; git_Token item
  end.

(** The loops of the job and of the configuration visit them all. *)
Lemma reference_visited dl p r : reference_at dl p = Some r → vr_SecretName r ≠ "" → r ∈ downloadSecrets dl.
Proof.
  intros Hp Hn. assert (∀ {A} (l : list A) i x (f : A → list ValueReference), l !! i = Some x → r ∈ f x → r ∈ concat (f <$> l)) as Hconcat.
  { intros A l i x f Hx Hr. apply list_elem_of_In, List.in_concat. exists (f x). rewrite <- !list_elem_of_In. split; [|done].
    apply list_elem_of_fmap_2. by eapply list_elem_of_lookup_2. }
  unfold downloadSecrets. rewrite !elem_of_app. destruct p as [i|i|i|i|i|i]; cbn in Hp.
  - destruct (ds_S3 dl !! i) as [s|] eqn:E; [|done]. injection Hp as <-. left. eapply Hconcat; [exact E|]. unfold s3Secrets, namesSecret.
    rewrite bool_decide_true by tauto. by left.
  - destruct (ds_S3 dl !! i) as [s|] eqn:E; [|done]. injection Hp as <-. left. eapply Hconcat; [exact E|]. unfold s3Secrets, namesSecret.
    rewrite bool_decide_true by tauto. right. by left.
  - destruct (ds_GCS dl !! i) as [s|] eqn:E; [|done]. injection Hp as <-. right. left. apply list_elem_of_fmap_2. by eapply list_elem_of_lookup_2.
  - destruct (ds_AzureBlob dl !! i) as [s|] eqn:E; [|done]. injection Hp as <-. do 2 right. left. apply list_elem_of_fmap_2.
    by eapply list_elem_of_lookup_2.
  - destruct (ds_Git dl !! i) as [g|] eqn:E; [|done]. cbn in Hp. do 3 right. eapply Hconcat; [exact E|]. unfold gitSecrets. rewrite Hp. by left.
  - destruct (ds_Git dl !! i) as [g|] eqn:E; [|done]. cbn in Hp. do 3 right. eapply Hconcat; [exact E|]. unfold gitSecrets. rewrite Hp.
    apply elem_of_app. right. by left.
Qed.

(** The path is set where the reference stands. *)
Lemma reference_set d p r :
  reference_at (da_Download d) p = Some r → vr_SecretName r ≠ "" →
  reference_at (da_Download (setDataPaths d)) p = Some (setSecretPath r).
Proof.
  intros Hp Hn. destruct p as [i|i|i|i|i|i]; cbn in *; rewrite list_lookup_fmap.
  - destruct (ds_S3 _ !! i) as [s|]; [|done]. injection Hp as <-. cbn. unfold setS3Paths, namesSecret. by rewrite bool_decide_true by tauto.
  - destruct (ds_S3 _ !! i) as [s|]; [|done]. injection Hp as <-. cbn. unfold setS3Paths, namesSecret. by rewrite bool_decide_true by tauto.
  - destruct (ds_GCS _ !! i) as [s|]; [|done]. by injection Hp as <-.
  - destruct (ds_AzureBlob _ !! i) as [s|]; [|done]. by injection Hp as <-.
  - destruct (ds_Git _ !! i) as [g|]; [|done]. cbn in *. by rewrite Hp.
  - destruct (ds_Git _ !! i) as [g|]; [|done]. cbn in *. by rewrite Hp.
Qed.

Lemma reference_downloads spec d p r :
  ss_Data spec = Some d → da_StorageSize d ≠ "" → reference_at (da_Download d) p = Some r → HasObjectStorageDownloads (Some spec) = true.
Proof.
  intros Hd Hs Hp. unfold HasObjectStorageDownloads, HasData. rewrite Hd, bool_decide_true by done. cbn.
  destruct p as [i|i|i|i|i|i]; cbn in Hp.
  - by destruct (ds_S3 _).
  - by destruct (ds_S3 _).
  - rewrite !orb_true_iff. destruct (ds_GCS _); [done|auto].
  - rewrite !orb_true_iff. destruct (ds_AzureBlob _); [done|auto].
  - rewrite !orb_true_iff. destruct (ds_Git _); [done|auto].
  - rewrite !orb_true_iff. destruct (ds_Git _); [done|auto].
Qed.

(** The downloads of a configuration. *)
Definition configDownloads (c : DownloadTaskConfig) : ObjectStorageDownloadSpec :=
  {| ds_S3 := dt_S3 c; ds_GCS := dt_GCS c; ds_AzureBlob := dt_AzureBlob c; ds_Git := dt_Git c |}.

Lemma configDownloads_paths spec d :
  ss_Data spec = Some d → HasObjectStorageDownloads (Some spec) = true →
  configDownloads (CreateConfig (setSecretPaths spec)) = da_Download (setDataPaths d).
Proof.
  intros Hd Hdl. unfold setSecretPaths. rewrite Hdl. unfold configDownloads, CreateConfig. cbn. rewrite Hd. cbn.
  unfold HasObjectStorageDownloads, HasData in Hdl. rewrite Hd in Hdl. apply andb_prop in Hdl as [Hdl _].
  apply bool_decide_eq_true in Hdl. rewrite decide_True by done. by destruct d as [? ? []].
Qed.

Section theory.
Context `{GoOrder}.

Lemma secretEntries_in dl n items :
  secretVolumes dl !! n = Some items →
  ({| v_Name := "secret-" +:+ n; v_Source := SecretSource n items |}, mount ("secret-" +:+ n) (secretsMount +:+ "/" +:+ n) "") ∈ secretEntries dl.
Proof. intros Hn. unfold secretEntries. apply list_elem_of_fmap. exists (n, items). split; [done|]. rewrite rangeMap_perm. by apply elem_of_map_to_list. Qed.

Lemma downloadVolumes_mounts key spec : vm_Name ∘ snd <$> downloadVolumes key spec = v_Name ∘ fst <$> downloadVolumes key spec.
Proof.
  apply list_fmap_ext. intros k [v m] Hk. assert ((v, m) ∈ downloadVolumes key spec) as Hin by (by eapply list_elem_of_lookup_2).
  assert (∀ p, (v, m) = p → vm_Name p.2 = v_Name p.1 → vm_Name m = v_Name v) as Hp by (by intros p <-).
  unfold downloadVolumes in Hin. rewrite !elem_of_app in Hin. destruct Hin as [Hin|[Hin|Hin]].
  - apply list_elem_of_singleton in Hin. by eapply Hp.
  - destruct (HasObjectStorageDownloads _); [|by apply elem_of_nil in Hin]. rewrite elem_of_cons in Hin. destruct Hin as [Hin|Hin]; [by eapply Hp|].
    destruct (ss_Data spec); [|by apply elem_of_nil in Hin]. unfold secretEntries in Hin.
    apply list_elem_of_fmap in Hin as ([n its] & Heq & _). by eapply Hp.
  - destruct (HasHfDownloads _); [|by apply elem_of_nil in Hin]. apply list_elem_of_singleton in Hin. by eapply Hp.
Qed.

(** A download job, with the one container it has. *)
Lemma buildDownloadJob_template key spec env :
  ∃ job c, buildDownloadJob key spec env = Ok job ∧ pt_Containers (js_Template (jb_Spec job)) = [c] ∧
    jb_Namespace job = key_namespace key ∧ last (pc_Command c) = Some "/config/config.yaml" ∧
    pt_Volumes (js_Template (jb_Spec job)) = fst <$> downloadVolumes key spec ∧ pc_VolumeMounts c = snd <$> downloadVolumes key spec.
Proof. unfold buildDownloadJob, addEnvVars. cbn [downloadTemplate pt_Containers]. eexists _, _. repeat split. Qed.

(** The names of the volumes, with those of the secrets in between. *)
Lemma names_NoDup (b1 b2 : bool) (secrets : list string) :
  NoDup secrets → (∀ n, n ∈ secrets → n ∉ ["config"; DataStoragePostfix; HfStoragePostfix]) →
  NoDup (["config"] ++ (if b1 then DataStoragePostfix :: secrets else []) ++ (if b2 then [HfStoragePostfix] else [])).
Proof.
  intros Hnd Hno. assert (("config" ∉ secrets) ∧ (DataStoragePostfix ∉ secrets) ∧ (HfStoragePostfix ∉ secrets)) as (H1 & H2 & H3).
  { repeat split; intros Hin; apply (Hno _ Hin); set_solver. }
  rewrite !NoDup_app. split; [apply NoDup_singleton|]. split; [|split].
  - intros n ->%list_elem_of_singleton. rewrite elem_of_app. intros [Hin|Hin]; [destruct b1|destruct b2].
    + by apply elem_of_cons in Hin as [|].
    + by apply elem_of_nil in Hin.
    + by apply list_elem_of_singleton in Hin.
    + by apply elem_of_nil in Hin.
  - destruct b1; [by constructor|constructor].
  - split; [|destruct b2; [apply NoDup_singleton|constructor]]. intros n Hn Hin. destruct b2; [|by apply elem_of_nil in Hin].
    apply list_elem_of_singleton in Hin as ->. destruct b1; [by apply elem_of_cons in Hn as [|]|by apply elem_of_nil in Hn].
Qed.

Lemma downloadVolumes_NoDup key spec : NoDup (v_Name ∘ fst <$> downloadVolumes key spec).
Proof.
  set (secrets := match ss_Data spec with Some d => (λ n, "secret-" +:+ n) <$> (rangeMap (secretVolumes (da_Download d))).*1 | None => [] end).
  replace (_ <$> downloadVolumes key spec) with
    (["config"] ++ (if HasObjectStorageDownloads (Some spec) then DataStoragePostfix :: secrets else []) ++
     (if HasHfDownloads (Some spec) then [HfStoragePostfix] else [])).
  - apply names_NoDup; subst secrets; destruct (ss_Data spec) as [d|]; [|constructor|..].
    + apply NoDup_fmap_2_strong; [by intros x y _ _ [=]|]. rewrite rangeMap_perm. apply NoDup_fst_map_to_list.
    + intros n. rewrite list_elem_of_fmap. intros (m & -> & _). by rewrite !elem_of_cons, elem_of_nil; intros [|[|[|]]].
    + by intros n ?%elem_of_nil.
  - unfold downloadVolumes. rewrite !fmap_app. cbn [fmap list_fmap app]. f_equal. f_equal; [|by destruct (HasHfDownloads _)].
    destruct (HasObjectStorageDownloads _); [|done]. cbn [fmap list_fmap]. f_equal. subst secrets. destruct (ss_Data spec); [|done].
    unfold secretEntries. rewrite <- !list_fmap_compose. apply list_fmap_ext. by intros k [n its] _.
Qed.

Lemma secretEntries_volumes key spec d p :
  ss_Data spec = Some d → HasObjectStorageDownloads (Some spec) = true → p ∈ secretEntries (da_Download d) → p ∈ downloadVolumes key spec.
Proof. intros Hd Hdl Hp. unfold downloadVolumes. rewrite Hdl, Hd, !elem_of_app, elem_of_cons. right. left. by right. Qed.

(** C15: the secrets a download needs are where its configuration says. Take a reference by
    secret and key, wherever it stands in a list of downloads: the access key or the secret
    key of S3, the credentials of GCS, the connection string of Azure, the user or the token
    of Git. The configuration in the config map, which the download job mounts and reads,
    has at the same place the same reference with the path of a file, and in the job the
    volume of that secret, which is the only volume of its name, holds the key at exactly
    this path. *)
Theorem download_secrets_provided `{YamlLib} key spec env d cm job p r :
  ss_Data spec = Some d → da_StorageSize d ≠ "" →
  buildDownloadConfigMap key spec = Ok cm → buildDownloadJob key spec env = Ok job →
  reference_at (da_Download d) p = Some r → vr_File r = "" → plain (vr_SecretName r) → plain (vr_SecretKey r) →
  let t := js_Template (jb_Spec job) in
  NoDup (v_Name <$> pt_Volumes t) ∧ jb_Namespace job = cm_Namespace cm ∧
  ∃ config text r' c vc mc v m items item,
    Marshal config = inr text ∧ cm_Data cm = {[ "config.yaml" := text ]} ∧
    reference_at (configDownloads config) p = Some r' ∧ vr_SecretName r' = vr_SecretName r ∧ vr_SecretKey r' = vr_SecretKey r ∧
    pt_Containers t = [c] ∧
    mc ∈ pc_VolumeMounts c ∧ vc ∈ pt_Volumes t ∧ vm_Name mc = v_Name vc ∧ v_Source vc = ConfigMapSource (cm_Name cm) ∧
    last (pc_Command c) = Some (vm_MountPath mc +:+ "/config.yaml") ∧
    m ∈ pc_VolumeMounts c ∧ v ∈ pt_Volumes t ∧ vm_Name m = v_Name v ∧
    v_Source v = SecretSource (vr_SecretName r) items ∧ item ∈ items ∧ kp_Key item = vr_SecretKey r ∧
    vr_File r' = vm_MountPath m +:+ "/" +:+ kp_Path item.
Proof.
  intros Hd Hsize Hcm Hjob Hr Hfile Hn Hk t. destruct (buildDownloadJob_template key spec env) as (job' & c & Hjob' & Hc & Hns & Hcmd & Hv & Hm).
  assert (job' = job) as -> by congruence. fold t in Hc, Hv.
  pose proof (reference_downloads _ _ _ _ Hd Hsize Hr) as Hdl.
  assert (vr_SecretName r ≠ "") as Hne. { destruct Hn as [Hn _]. intros E. rewrite E in Hn. apply Hn. by left. }
  unfold buildDownloadConfigMap in Hcm. destruct (Marshal _) as [e|text] eqn:Htext; [done|]. injection Hcm as <-.
  rewrite Hv. split; [rewrite <- list_fmap_compose; apply downloadVolumes_NoDup|]. split; [exact Hns|].
  pose proof (secretEntries_in _ _ _ (secretVolumes_lookup _ _ (reference_visited _ _ _ Hr Hne))) as Hentry.
  apply (λ q, secretEntries_volumes key spec d q Hd Hdl) in Hentry.
  set (vc := {| v_Name := "config"; v_Source := ConfigMapSource (key_name (downloadKey key)) |}).
  assert ((vc, mount "config" "/config" "") ∈ downloadVolumes key spec) as Hconfig by by left.
  eexists _, text, (setSecretPath r), c, vc, (mount "config" "/config" ""), _, _, _, {| kp_Key := vr_SecretKey r; kp_Path := vr_SecretKey r |}.
  rewrite Hm. split; [exact Htext|]. split; [done|]. rewrite (configDownloads_paths spec d Hd Hdl). split; [by apply reference_set|].
  unfold setSecretPath. rewrite decide_True by done. do 2 (split; [done|]). split; [done|].
  split; [exact (list_elem_of_fmap_2 snd _ _ Hconfig)|]. split; [exact (list_elem_of_fmap_2 fst _ _ Hconfig)|].
  do 2 (split; [done|]). split; [done|]. split; [exact (list_elem_of_fmap_2 snd _ _ Hentry)|].
  split; [exact (list_elem_of_fmap_2 fst _ _ Hentry)|]. do 2 (split; [done|]). split.
  - unfold itemsOf. apply list_elem_of_fmap. exists r. split; [done|]. apply list_elem_of_filter. split; [done|]. by eapply reference_visited.
  - split; [done|]. cbn [vr_File vm_MountPath mount kp_Path]. rewrite JoinPath_secret by done. done.
Qed.

(** A reference that gives only a file makes the job ask for a secret without a name. *)
Lemma file_reference_nameless key spec env d job r :
  ss_Data spec = Some d → HasObjectStorageDownloads (Some spec) = true → buildDownloadJob key spec env = Ok job →
  r ∈ downloadSecrets (da_Download d) → vr_SecretName r = "" →
  ∃ items, {| v_Name := "secret-"; v_Source := SecretSource "" items |} ∈ pt_Volumes (js_Template (jb_Spec job)).
Proof.
  intros Hd Hdl Hjob Hr Hn. destruct (buildDownloadJob_template key spec env) as (job' & c & Hjob' & _ & _ & _ & Hv & _).
  assert (job' = job) as -> by congruence. rewrite Hv. pose proof (secretVolumes_lookup _ _ Hr) as Hl. rewrite Hn in Hl.
  eexists. exact (list_elem_of_fmap_2 fst _ _ (secretEntries_volumes _ _ _ _ Hd Hdl (secretEntries_in _ _ _ Hl))).
Qed.
End theory.
