(* ===== verification/Manifests.v ===== *)
(** The objects that run a workload (BuildDesired of pkg/workloads/job: batchjob.go,
    rayjob.go, pkg/workloads/service: deployment.go, rayservice.go, and
    pkg/workloads/utils/ray.go). *)

From stdpp Require Import gmap strings list.
From Stdlib Require Import ZArith Lia.
From S2P Require Import Prelude Types Kueue Scheduling Nodepools Resources Scripts WorkloadTypes Labels WorkloadApi Handlers PodSpecs Downloads.

(** * Data *)

Record WorkerGroupSpec := {
  wg_GroupName : string;
  wg_Replicas : option Z;
  wg_MinReplicas : option Z;
  wg_MaxReplicas : option Z;
  wg_RayStartParams : gmap string string;
  wg_Template : PodTemplateSpec;
  wg_Rest : Json
}.

Record RayClusterSpec := {
  rcs_EnableInTreeAutoscaling : option bool;
  rcs_HeadRayStartParams : gmap string string;
  rcs_HeadTemplate : PodTemplateSpec;
  rcs_WorkerGroupSpecs : list WorkerGroupSpec;
  rcs_Rest : Json
}.

Record RayJobSpec := {
  rj_BackoffLimit : option Z;
  rj_Entrypoint : string;
  rj_ShutdownAfterJobFinishes : bool;
  rj_RayClusterSpec : option RayClusterSpec;
  rj_Rest : Json
}.

Record RayServiceSpec := { rs_ServeConfigV2 : string; rs_RayClusterSpec : RayClusterSpec; rs_Rest : Json }.

(** The selector is a pointer and its labels are a map: either can be nil. *)
Record LabelSelector := { ls_MatchLabels : option (gmap string string); ls_MatchExpressions : Json }.
Record DeploymentSpec := {
  dp_Replicas : option Z;
  dp_Selector : option LabelSelector;
  dp_Template : PodTemplateSpec;
  dp_Rest : Json
}.

Record RayJob := { ryj_Name : string; ryj_Namespace : string; ryj_Labels : gmap string string; ryj_Spec : RayJobSpec }.
Record RayService := { rys_Name : string; rys_Namespace : string; rys_Labels : gmap string string; rys_Spec : RayServiceSpec }.
Record Deployment := { dep_Name : string; dep_Namespace : string; dep_Labels : gmap string string; dep_Spec : DeploymentSpec }.

Record AppWrapperPodSet := { aps_Replicas : option Z; aps_Path : string }.

(** An AppWrapper of one component, whose template is text. *)
Record AppWrapper := {
  aw_Name : string;
  aw_Namespace : string;
  aw_Labels : gmap string string;
  aw_DeclaredPodSets : list AppWrapperPodSet;
  aw_Template : string
}.

(** A workload with what its manifests are made of; the four specs are the pointers of
    the two kinds. *)
Record ManifestInput := {
  mi_Pod : PodInput;
  mi_Dangerous : bool;
  mi_EntryPoint : string;
  mi_ServeConfigV2 : string;
  mi_Job : option JobSpec;
  mi_RayJob : option RayJobSpec;
  mi_RayService : option RayServiceSpec;
  mi_Deployment : option DeploymentSpec
}.

Abbreviation mi_Workload m := (pi_Workload (mi_Pod m)).

(** [int32] of an [int]. *)
Definition int32 (z : Z) : Z := (z + 2 ^ 31) `mod` 2 ^ 32 - 2 ^ 31.

Definition WorkloaddPriorityClassLabel : string := "kueue.x-k8s.io/priority-class".
Definition defaultTTLSecondsAfterFinished : Z := 3600.

(** [json.Marshal] of the labels and of the spec of a Ray service. *)
Class JsonLib := { MarshalLabels : gmap string string → error + string; MarshalRayServiceSpec : RayServiceSpec → error + string }.

(** * Ray clusters *)

Definition gibi (n : Z) : Quantity := {| q_Nano := n * Gi * 10 ^ 9; q_Format := BinarySI |}.

Definition GetRayClusterTemplate (cfg : ManifestConfig) (dangerous : bool) : RayClusterSpec :=
  {| rcs_EnableInTreeAutoscaling := Some false; rcs_HeadRayStartParams := {[ "dashboard-host" := "0.0.0.0" ]};
     rcs_HeadTemplate := GetPodTemplate cfg (gibi 1) dangerous "ray-head";
     rcs_WorkerGroupSpecs :=
       [{| wg_GroupName := "default-worker-group"; wg_Replicas := Some 1; wg_MinReplicas := Some 1; wg_MaxReplicas := Some 1;
           wg_RayStartParams := ∅; wg_Template := GetPodTemplate cfg (gibi 200) dangerous "ray-worker"; wg_Rest := JNull |}];
     rcs_Rest := JNull |}.

(** The closure [ensureImage]. *)
Definition ensureImage (cfg : ManifestConfig) (t : PodTemplateSpec) : PodTemplateSpec :=
  set_Containers ((λ c, if decide (pc_Image c = "") then
      {| pc_Base := pc_Base c; pc_Image := mc_DefaultRayImage cfg; pc_ImagePullPolicy := pc_ImagePullPolicy c; pc_Command := pc_Command c;
         pc_Env := pc_Env c; pc_VolumeMounts := pc_VolumeMounts c; pc_Rest := pc_Rest c |} else c) <$> pt_Containers t) t.

Definition set_wg_Template (t : PodTemplateSpec) (g : WorkerGroupSpec) : WorkerGroupSpec :=
  {| wg_GroupName := wg_GroupName g; wg_Replicas := wg_Replicas g; wg_MinReplicas := wg_MinReplicas g; wg_MaxReplicas := wg_MaxReplicas g;
     wg_RayStartParams := wg_RayStartParams g; wg_Template := t; wg_Rest := wg_Rest g |}.
Definition set_HeadTemplate (t : PodTemplateSpec) (s : RayClusterSpec) : RayClusterSpec :=
  {| rcs_EnableInTreeAutoscaling := rcs_EnableInTreeAutoscaling s; rcs_HeadRayStartParams := rcs_HeadRayStartParams s;
     rcs_HeadTemplate := t; rcs_WorkerGroupSpecs := rcs_WorkerGroupSpecs s; rcs_Rest := rcs_Rest s |}.

Section manifests.
Context `{GoOrder} `{Quantities} `{WorkloadLib} `{JsonLib}.

Fixpoint updateWorkerGroups (cfg : ManifestConfig) (i : PodInput) (sc : SharedConfig) (gs : list WorkerGroupSpec) (h : mapStore)
  : mapStore * list WorkerGroupSpec :=
  match gs with
  | [] => (h, [])
  | g :: gs' =>
      let '(h, t) := UpdatePodSpec cfg i sc false (wg_Template g) h in
      let replicas := Some (int32 (sc_Replicas sc)) in
      let g := {| wg_GroupName := wg_GroupName g; wg_Replicas := replicas; wg_MinReplicas := replicas; wg_MaxReplicas := replicas;
                  wg_RayStartParams := wg_RayStartParams g; wg_Template := t; wg_Rest := wg_Rest g |} in
      let '(h, gs') := updateWorkerGroups cfg i sc gs' h in
      (h, g :: gs')
  end.

(** A division by zero in the sizing, a head memory that does not parse and a nil map of
    the default resources panic. *)
Definition UpdateRayClusterSpec (cfg : ManifestConfig) (stats : GPUStats) (i : PodInput) (s : RayClusterSpec) : outcome RayClusterSpec :=
  match CalculateResourceConfig stats (kw_Spec (pi_Workload i)) true with
  | None => Panics
  | Some resourceConfig =>
      let '(h, sc) := shareConfig resourceConfig [] in
      let '(h, workers) := updateWorkerGroups cfg i sc (rcs_WorkerGroupSpecs s) h in
      match ParseQuantity (mc_HeadPodMemory cfg) with
      | None => Panics
      | Some headMemoryOverride =>
          match overrideHeadMemory (QuantityValue headMemoryOverride) sc h with
          | None => Panics
          | Some (h, sc) =>
              let '(_, head) := UpdatePodSpec cfg i sc true (rcs_HeadTemplate s) h in
              Ok {| rcs_EnableInTreeAutoscaling := rcs_EnableInTreeAutoscaling s; rcs_HeadRayStartParams := rcs_HeadRayStartParams s;
                    rcs_HeadTemplate := ensureImage cfg head;
                    rcs_WorkerGroupSpecs := (λ g, set_wg_Template (ensureImage cfg (wg_Template g)) g) <$> workers;
                    rcs_Rest := rcs_Rest s |}
          end
      end
  end.

(** * Labels of the queue *)

Definition queueOf (cfg : ManifestConfig) (w : KaiwoWorkload) : string := GetClusterQueueName (mc_DefaultClusterQueueName cfg) (kw_Spec w).

Definition priorityLabel (o : PodOptions) (labels : gmap string string) : gmap string string :=
  if decide (po_WorkloadPriorityClass o ≠ "") then <[WorkloaddPriorityClassLabel := po_WorkloadPriorityClass o]> labels else labels.

Definition queueLabels (cfg : ManifestConfig) (i : PodInput) (labels : gmap string string) : gmap string string :=
  priorityLabel (pi_Options i) (<[QueueLabel := queueOf cfg (pi_Workload i)]> labels).

(** * Batch jobs *)

Definition GetDefaultJobSpec (cfg : ManifestConfig) (dangerous : bool) : JobSpec :=
  {| js_Suspend := None; js_BackoffLimit := Some 0; js_TTLSecondsAfterFinished := Some defaultTTLSecondsAfterFinished;
     js_Template := GetPodTemplate cfg (gibi 1) dangerous "workload"; js_Rest := JNull |}.

Definition entrypointFailed {A} (e : error) : outcome A := Err (Wrapf "failed to add entrypoint: %v" e).

(** [ValueOrDefault] of a positive limit. *)
Definition noBackoff (limit : option Z) : option Z := if decide (0 < default 0 limit) then Some 0 else limit.

(** The update of the single pod template of a job or deployment. *)
Definition updateTemplate (cfg : ManifestConfig) (i : PodInput) (rc : ResourceConfig) (t : PodTemplateSpec) : PodTemplateSpec :=
  let '(h, sc) := shareConfig rc [] in (UpdatePodSpec cfg i sc false t h).2.

Definition buildBatchJob (cfg : ManifestConfig) (stats : GPUStats) (m : ManifestInput) : outcome BatchJob :=
  let w := mi_Workload m in
  let jobSpec := match mi_Job m with None => GetDefaultJobSpec cfg (mi_Dangerous m) | Some spec => spec end in
  match AddEntrypoint (mi_EntryPoint m) (js_Template jobSpec) with
  | Err e => entrypointFailed e
  | Panics => Panics
  | Ok template =>
      match CalculateResourceConfig stats (kw_Spec w) true with
      | None => Panics
      | Some resourceConfig =>
          let template := updateTemplate cfg (mi_Pod m) resourceConfig template in
          Ok {| jb_Name := kw_Name w; jb_Namespace := kw_Namespace w;
                jb_Labels := queueLabels cfg (mi_Pod m) (UpdateLabels w ∅);
                jb_Spec :=
                  {| js_Suspend := Some true; js_BackoffLimit := noBackoff (js_BackoffLimit jobSpec);
                     js_TTLSecondsAfterFinished :=
                       match js_TTLSecondsAfterFinished jobSpec with None => Some defaultTTLSecondsAfterFinished | ttl => ttl end;
                     js_Template := set_Labels (UpdateLabels w (pt_Labels template)) template; js_Rest := js_Rest jobSpec |} |}
      end
  end.

(** * Deployments *)

Definition GetDefaultDeploymentSpec (cfg : ManifestConfig) (dangerous : bool) : DeploymentSpec :=
  {| dp_Replicas := Some 1; dp_Selector := Some {| ls_MatchLabels := Some ∅; ls_MatchExpressions := JNull |};
     dp_Template := GetPodTemplate cfg (gibi 1) dangerous "workload"; dp_Rest := JNull |}.

(** The labels of the deployment and of its pods are one map. *)
Definition buildDeployment (cfg : ManifestConfig) (stats : GPUStats) (m : ManifestInput) : outcome Deployment :=
  let w := mi_Workload m in
  let depSpec := match mi_Deployment m with None => GetDefaultDeploymentSpec cfg (mi_Dangerous m) | Some spec => spec end in
  match dp_Selector depSpec with
  | Some {| ls_MatchLabels := Some matchLabels; ls_MatchExpressions := exprs |} =>
      let selector := {| ls_MatchLabels := Some (<["app" := kw_Name w]> matchLabels); ls_MatchExpressions := exprs |} in
      match CalculateResourceConfig stats (kw_Spec w) true with
      | None => Panics
      | Some resourceConfig =>
          match AddEntrypoint (mi_EntryPoint m) (set_RestartPolicy "Always" (dp_Template depSpec)) with
          | Err e => entrypointFailed e
          | Panics => Panics
          | Ok template =>
              let template := updateTemplate cfg (mi_Pod m) resourceConfig template in
              let labels := UpdateLabels w (queueLabels cfg (mi_Pod m) (<["app" := kw_Name w]> (pt_Labels template))) in
              Ok {| dep_Name := kw_Name w; dep_Namespace := kw_Namespace w; dep_Labels := labels;
                    dep_Spec :=
                      {| dp_Replicas := match ms_Replicas (kw_Spec w) with
                           | Some _ => Some (int32 (rc_Replicas resourceConfig)) | None => dp_Replicas depSpec end;
                         dp_Selector := Some selector; dp_Template := set_Labels labels template; dp_Rest := dp_Rest depSpec |} |}
          end
      end
  | _ => Panics
  end.

(** * Ray jobs *)

Definition GetDefaultRayJobSpec (cfg : ManifestConfig) (dangerous : bool) : RayJobSpec :=
  {| rj_BackoffLimit := None; rj_Entrypoint := ""; rj_ShutdownAfterJobFinishes := true;
     rj_RayClusterSpec := Some (GetRayClusterTemplate cfg dangerous); rj_Rest := JNull |}.

(** The labels of the job and of its head pod are one map. *)
Definition buildRayJob (cfg : ManifestConfig) (stats : GPUStats) (m : ManifestInput) : outcome RayJob :=
  let w := mi_Workload m in
  let rayJobSpec := match mi_RayJob m with None => GetDefaultRayJobSpec cfg (mi_Dangerous m) | Some spec => spec end in
  let entrypoint :=
    if decide (mi_EntryPoint m = "") then Ok (rj_Entrypoint rayJobSpec)
    else match ConvertMultilineEntrypoint (mi_EntryPoint m) true with inl script => Ok script | inr _ => Panics end in
  match entrypoint, rj_RayClusterSpec rayJobSpec with
  | Ok entrypoint, Some cluster =>
      match UpdateRayClusterSpec cfg stats (mi_Pod m) cluster with
      | Ok cluster =>
          let labels := queueLabels cfg (mi_Pod m) (UpdateLabels w (pt_Labels (rcs_HeadTemplate cluster))) in
          Ok {| ryj_Name := kw_Name w; ryj_Namespace := kw_Namespace w; ryj_Labels := labels;
                ryj_Spec :=
                  {| rj_BackoffLimit := noBackoff (rj_BackoffLimit rayJobSpec); rj_Entrypoint := entrypoint;
                     rj_ShutdownAfterJobFinishes := rj_ShutdownAfterJobFinishes rayJobSpec;
                     rj_RayClusterSpec := Some (set_HeadTemplate (set_Labels labels (rcs_HeadTemplate cluster)) cluster);
                     rj_Rest := rj_Rest rayJobSpec |} |}
      | Err e => Err e
      | Panics => Panics
      end
  | _, _ => Panics
  end.

(** * Ray services *)

Definition GetDefaultRayServiceSpec (cfg : ManifestConfig) (dangerous : bool) : RayServiceSpec :=
  {| rs_ServeConfigV2 := ""; rs_RayClusterSpec := GetRayClusterTemplate cfg dangerous; rs_Rest := JNull |}.

Definition buildRayService (cfg : ManifestConfig) (stats : GPUStats) (m : ManifestInput) : outcome RayService :=
  let w := mi_Workload m in
  let spec := match mi_RayService m with None => GetDefaultRayServiceSpec cfg (mi_Dangerous m) | Some spec => spec end in
  match UpdateRayClusterSpec cfg stats (mi_Pod m) (rs_RayClusterSpec spec) with
  | Ok cluster =>
      let labels := UpdateLabels w (pt_Labels (rcs_HeadTemplate cluster)) in
      Ok {| rys_Name := kw_Name w; rys_Namespace := kw_Namespace w; rys_Labels := labels;
            rys_Spec :=
              {| rs_ServeConfigV2 := if decide (mi_ServeConfigV2 m ≠ "") then mi_ServeConfigV2 m else rs_ServeConfigV2 spec;
                 rs_RayClusterSpec := set_HeadTemplate (set_Labels labels (rcs_HeadTemplate cluster)) cluster; rs_Rest := rs_Rest spec |} |}
  | Err e => Err e
  | Panics => Panics
  end.

(** The text around the parts, with tabs and newlines as in the source. *)
Definition serviceText (name namespace labels spec : string) : string :=
  let q := String (Ascii.ascii_of_nat 34) "" in
  let nl := String (Ascii.ascii_of_nat 10) "" in
  let tabs (n : nat) := Nat.iter n (String.append (String (Ascii.ascii_of_nat 9) "")) "" in
  let field k v := q +:+ k +:+ q +:+ ": " +:+ v in
  let text s := q +:+ s +:+ q in
  let comma := "," +:+ nl in
  let outer := tabs 4%nat +:+ "    " in
  let inner := tabs 5%nat in
  "{" +:+ nl +:+
  outer +:+ field "apiVersion" (text "ray.io/v1") +:+ comma +:+
  outer +:+ field "kind" (text "RayService") +:+ comma +:+
  outer +:+ field "metadata" "{" +:+ nl +:+
  inner +:+ field "name" (text name) +:+ comma +:+
  inner +:+ field "namespace" (text namespace) +:+ comma +:+
  inner +:+ field "labels" labels +:+ nl +:+
  outer +:+ "}" +:+ comma +:+
  outer +:+ field "spec" spec +:+ nl +:+
  tabs 4%nat +:+ "}".

Definition buildAppWrapper (cfg : ManifestConfig) (stats : GPUStats) (m : ManifestInput) : outcome AppWrapper :=
  let w := mi_Workload m in
  match buildRayService cfg stats m with
  | Err e => Err e
  | Panics => Panics
  | Ok rayService =>
      match CalculateResourceConfig stats (kw_Spec w) true with
      | None => Panics
      | Some resourceConfig =>
          match MarshalRayServiceSpec (rys_Spec rayService), MarshalLabels (rys_Labels rayService) with
          | inl e, _ => Err (Wrapf "failed to marshal RayServiceSpec" e)
          | inr _, inl e => Err (Wrapf "failed to marshal labels" e)
          | inr rayServiceSpecBytes, inr labelsBytes =>
              Ok {| aw_Name := kw_Name w; aw_Namespace := kw_Namespace w;
                    aw_Labels := UpdateLabels w (queueLabels cfg (mi_Pod m) ∅);
                    aw_DeclaredPodSets :=
                      [{| aps_Replicas := Some 1; aps_Path := "template.spec.rayClusterConfig.headGroupSpec.template" |};
                       {| aps_Replicas := Some (int32 (rc_Replicas resourceConfig));
                          aps_Path := "template.spec.rayClusterConfig.workerGroupSpecs[0].template" |}];
                    aw_Template := serviceText (kw_Name w) (kw_Namespace w) labelsBytes rayServiceSpecBytes |}
          end
      end
  end.

End manifests.
