(* ===== verification/ManifestTheory.v ===== *)
(** What the manifests of a workload satisfy, whatever its kind: the objects of the four
    handlers seen through their pod templates. *)

From stdpp Require Import gmap strings list.
From Stdlib Require Import ZArith Lia.
From S2P Require Import Prelude Types Kueue QueueApi Scheduling Nodepools Resources Naming Scripts WorkloadTypes Labels WorkloadApi Handlers PodSpecs Downloads Manifests.

Section theory.
Context `{GoOrder} `{Quantities} `{WorkloadLib} `{JsonLib} (cfg : ManifestConfig) (stats : GPUStats).

(** * The objects of the handlers *)

(** What [BuildDesired] of a workload's handler makes; the Ray service is the one an
    AppWrapper prints. *)
Inductive built :=
| BuiltJob (j : BatchJob)
| BuiltRayJob (j : RayJob)
| BuiltDeployment (d : Deployment)
| BuiltAppWrapper (a : AppWrapper) (s : RayService).

Definition outcome_map {A B} (f : A → B) (o : outcome A) : outcome B :=
  match o with Ok a => Ok (f a) | Err e => Err e | Panics => Panics end.

Definition BuildDesired (m : ManifestInput) : outcome built :=
  match kw_Kind (mi_Workload m), IsRay (mi_Workload m) with
  | KindKaiwoJob, false => outcome_map BuiltJob (buildBatchJob cfg stats m)
  | KindKaiwoJob, true => outcome_map BuiltRayJob (buildRayJob cfg stats m)
  | KindKaiwoService, false => outcome_map BuiltDeployment (buildDeployment cfg stats m)
  | KindKaiwoService, true =>
      match buildRayService cfg stats m, buildAppWrapper cfg stats m with
      | Ok s, Ok a => Ok (BuiltAppWrapper a s)
      | _, Err e => Err e
      | _, _ => Panics
      end
  end.

(** The pod templates of a cluster and of an object; the flag marks Ray heads. *)
Definition clusterTemplates (s : RayClusterSpec) : list (bool * PodTemplateSpec) :=
  (true, rcs_HeadTemplate s) :: ((λ g, (false, wg_Template g)) <$> rcs_WorkerGroupSpecs s).

Definition templatesOf (b : built) : list (bool * PodTemplateSpec) :=
  match b with
  | BuiltJob j => [(false, js_Template (jb_Spec j))]
  | BuiltRayJob j => match rj_RayClusterSpec (ryj_Spec j) with Some s => clusterTemplates s | None => [] end
  | BuiltDeployment d => [(false, dp_Template (dep_Spec d))]
  | BuiltAppWrapper _ s => clusterTemplates (rs_RayClusterSpec (rys_Spec s))
  end.

(** The templates the user gave, or the default ones. *)
Definition jobSpecOf (m : ManifestInput) : JobSpec := default (GetDefaultJobSpec cfg (mi_Dangerous m)) (mi_Job m).
Definition rayJobSpecOf (m : ManifestInput) : RayJobSpec := default (GetDefaultRayJobSpec cfg (mi_Dangerous m)) (mi_RayJob m).
Definition deploymentSpecOf (m : ManifestInput) : DeploymentSpec := default (GetDefaultDeploymentSpec cfg (mi_Dangerous m)) (mi_Deployment m).
Definition rayServiceSpecOf (m : ManifestInput) : RayServiceSpec := default (GetDefaultRayServiceSpec cfg (mi_Dangerous m)) (mi_RayService m).

Definition templatesIn (m : ManifestInput) : list (bool * PodTemplateSpec) :=
  match kw_Kind (mi_Workload m), IsRay (mi_Workload m) with
  | KindKaiwoJob, false => [(false, js_Template (jobSpecOf m))]
  | KindKaiwoJob, true => match rj_RayClusterSpec (rayJobSpecOf m) with Some s => clusterTemplates s | None => [] end
  | KindKaiwoService, false => [(false, dp_Template (deploymentSpecOf m))]
  | KindKaiwoService, true => clusterTemplates (rs_RayClusterSpec (rayServiceSpecOf m))
  end.

(** * Every template of the object is made of one of the workload *)

Section made.
Context (i : PodInput) (rc : ResourceConfig).

Lemma made_relabel hd t t' ls :
  made cfg i rc hd t t' → ls !! KaiwoRunIdLabel = Some (kw_UID (pi_Workload i)) → ls !! KaiwoNameLabel = Some (kw_Name (pi_Workload i)) →
  made cfg i rc hd t (set_Labels ls t').
Proof. intros [] Hrun Hname. by constructor. Qed.

Lemma made_entrypoint entrypoint hd t t1 t' :
  AddEntrypoint entrypoint t = Ok t1 → made cfg i rc hd t1 t' → made cfg i rc hd t t'.
Proof.
  unfold AddEntrypoint. destruct (decide (entrypoint = "")); [by intros [= ->]|]. destruct (pt_Containers t) as [|c cs] eqn:E; [done|].
  destruct (ConvertMultilineEntrypoint _ _) as [|command]; [done|]. intros [= <-] [Hm Hn Hv Hr Hl Hgpu]. constructor; [|by rewrite Hn, E|done..].
  intros Ht. apply Hm. unfold well_mounted in *. rewrite E in Ht. cbn in *. inversion_clear Ht. by constructor.
Qed.

Lemma made_restart p hd t t' : made cfg i rc hd (set_RestartPolicy p t) t' → made cfg i rc hd t t'.
Proof. intros []. by constructor. Qed.

Lemma made_image hd t t' : made cfg i rc hd t t' → made cfg i rc hd t (ensureImage cfg t').
Proof.
  intros [Hmount Hn Hv Hr Hl Hgpu]. constructor; [| |done..|].
  - intros Ht. specialize (Hmount Ht). unfold well_mounted in *. rewrite Forall_app in *. cbn. destruct Hmount as [Hm ?].
    split; [|done]. apply Forall_fmap. eapply Forall_impl; [exact Hm|]. intros c Hc. unfold compose. by case_decide.
  - rewrite <- Hn. cbn. rewrite <- list_fmap_compose. apply list_fmap_ext. intros k c _. unfold compose. by case_decide.
  - intros ??? Hne ?. apply Hgpu; try done. intros Hnil. apply Hne. cbn. by rewrite Hnil.
Qed.

Lemma updateTemplate_made t : made cfg i rc false t (updateTemplate cfg i rc t).
Proof.
  unfold updateTemplate. pose proof (shareConfig_valid rc) as Hv. pose proof (shareConfig_same rc []) as Hs.
  destruct (shareConfig rc []) as [h sc]. by apply UpdatePodSpec_made.
Qed.

Lemma updateWorkerGroups_made sc gs h :
  valid sc h → same_size rc sc →
  let '(h', gs') := updateWorkerGroups cfg i sc gs h in
  valid sc h' ∧ Forall2 (λ g g', made cfg i rc false (wg_Template g) (wg_Template g') ∧ wg_Replicas g' = Some (int32 (rc_Replicas rc))) gs gs'.
Proof.
  intros Hv Hs. revert h Hv. induction gs as [|g gs IH]; intros h Hv; cbn [updateWorkerGroups]; [done|].
  pose proof (UpdatePodSpec_made cfg i rc sc false (wg_Template g) h Hv Hs) as Hm.
  destruct (UpdatePodSpec cfg i sc false (wg_Template g) h) as [h1 t]. destruct Hm as [Hv1 Hm]. specialize (IH h1 Hv1).
  destruct (updateWorkerGroups cfg i sc gs h1) as [h2 gs']. destruct IH as [Hv2 Hgs]. split; [done|]. constructor; [|done].
  split; [done|]. cbn. by destruct Hs as (_ & _ & ->).
Qed.

Lemma overrideHeadMemory_valid hm sc h h' sc' :
  overrideHeadMemory hm sc h = Some (h', sc') → valid sc h → same_size rc sc → valid sc' h' ∧ same_size rc sc'.
Proof.
  unfold overrideHeadMemory. case_decide; [|by intros [= <- <-]]. intros Ho Hv Hs.
  destruct (sc_DefaultResources sc) as [[[q|] [l|]]|] eqn:E; cbn in Ho; simplify_eq; (split; [|done]).
  - intros d r [= <-] Hr. rewrite !length_write. by eapply Hv.
  - intros d r [= <-] Hr. rewrite !length_write, !length_app. cbn in *. rewrite ?length_app in Hr. cbn in Hr. destruct Hr; simplify_eq; lia.
Qed.
End made.

Lemma UpdateRayClusterSpec_made i s s' :
  UpdateRayClusterSpec cfg stats i s = Ok s' →
  ∃ rc, CalculateResourceConfig stats (kw_Spec (pi_Workload i)) true = Some rc ∧
    Forall2 (λ p p', p'.1 = p.1 ∧ made cfg i rc p.1 p.2 p'.2) (clusterTemplates s) (clusterTemplates s') ∧
    Forall (λ g, wg_Replicas g = Some (int32 (rc_Replicas rc))) (rcs_WorkerGroupSpecs s').
Proof.
  unfold UpdateRayClusterSpec. destruct (CalculateResourceConfig _ _ _) as [rc|]; [|done]. intros Hs. exists rc. split; [done|].
  pose proof (shareConfig_valid rc) as Hv. pose proof (shareConfig_same rc []) as Hsame. destruct (shareConfig rc []) as [h sc]. cbn [fst snd] in *.
  pose proof (updateWorkerGroups_made i rc sc (rcs_WorkerGroupSpecs s) h Hv Hsame) as Hw.
  destruct (updateWorkerGroups _ _ _ _ _) as [h1 workers]. destruct Hw as [Hv1 Hw]. destruct (ParseQuantity _) as [q|]; [|done].
  destruct (overrideHeadMemory _ _ _) as [[h2 sc2]|] eqn:Eo; [|done].
  destruct (overrideHeadMemory_valid rc _ _ _ _ _ Eo Hv1 Hsame) as [Hv2 Hsame2].
  destruct (UpdatePodSpec_made cfg i rc sc2 true (rcs_HeadTemplate s) h2 Hv2 Hsame2) as [_ Hh].
  destruct (UpdatePodSpec cfg i sc2 true (rcs_HeadTemplate s) h2) as [h3 head]. injection Hs as <-. split.
  - constructor; [split; [done|by apply made_image]|]. cbn [rcs_WorkerGroupSpecs]. rewrite <- list_fmap_compose.
    apply Forall2_fmap. eapply Forall2_impl; [exact Hw|]. intros g g' [Hg _]. split; [done|by apply made_image].
  - cbn [rcs_WorkerGroupSpecs]. apply Forall_fmap. clear -Hw. by induction Hw as [|g g' gs gs' [_ Hg]]; constructor.
Qed.

Lemma queueLabels_lookup i labels k :
  k ≠ QueueLabel → k ≠ WorkloaddPriorityClassLabel → queueLabels cfg i labels !! k = labels !! k.
Proof. intros. unfold queueLabels, priorityLabel. case_decide; rewrite !lookup_insert_ne by done; done. Qed.

Lemma queueLabels_queue i labels : queueLabels cfg i labels !! QueueLabel = Some (queueOf cfg (pi_Workload i)).
Proof. unfold queueLabels, priorityLabel. case_decide; rewrite ?lookup_insert_ne by done; apply lookup_insert_eq. Qed.

Lemma UpdateLabels_run w ls : UpdateLabels w ls !! KaiwoRunIdLabel = Some (kw_UID w).
Proof. by destruct (UpdateLabels_spec w ls) as (_ & _ & _ & ? & _). Qed.
Lemma UpdateLabels_name w ls : UpdateLabels w ls !! KaiwoNameLabel = Some (kw_Name w).
Proof. by destruct (UpdateLabels_spec w ls) as (_ & ? & _). Qed.
Lemma UpdateLabels_queue w ls : UpdateLabels w ls !! QueueLabel = ls !! QueueLabel.
Proof. by destruct (UpdateLabels_spec w ls) as (_ & _ & _ & _ & ? & _). Qed.

(** A cluster whose head takes labels with those of the workload is still made. *)
Lemma cluster_relabel (P : bool → PodTemplateSpec → PodTemplateSpec → Prop) s s' ls :
  Forall2 (λ p p', p'.1 = p.1 ∧ P p.1 p.2 p'.2) (clusterTemplates s) (clusterTemplates s') →
  (∀ t t', P true t t' → P true t (set_Labels ls t')) →
  Forall2 (λ p p', p'.1 = p.1 ∧ P p.1 p.2 p'.2) (clusterTemplates s) (clusterTemplates (set_HeadTemplate (set_Labels ls (rcs_HeadTemplate s')) s')).
Proof. intros Hs HP. inversion_clear Hs as [|? ? ? ? [_ Hh] Hw]. constructor; [split; [done|by apply HP]|exact Hw]. Qed.

(** The labels and the name an object has. *)
Definition labelsOf (b : built) : gmap string string :=
  match b with
  | BuiltJob j => jb_Labels j
  | BuiltRayJob j => ryj_Labels j
  | BuiltDeployment d => dep_Labels d
  | BuiltAppWrapper a _ => aw_Labels a
  end.

Lemma outcome_map_ok {A B} (f : A → B) o b : outcome_map f o = Ok b → ∃ a, o = Ok a ∧ f a = b.
Proof. destruct o; [|done..]. intros [= <-]. eauto. Qed.

Lemma buildBatchJob_made m j :
  buildBatchJob cfg stats m = Ok j →
  ∃ rc, CalculateResourceConfig stats (kw_Spec (mi_Workload m)) true = Some rc ∧
    made cfg (mi_Pod m) rc false (js_Template (jobSpecOf m)) (js_Template (jb_Spec j)).
Proof.
  unfold buildBatchJob. change (match mi_Job m with Some spec => spec | None => _ end) with (jobSpecOf m).
  destruct (AddEntrypoint _ _) as [t|e|] eqn:Et; [|done..]. destruct (CalculateResourceConfig _ _ _) as [rc|]; [|done]. intros [= <-].
  exists rc. split; [done|]. eapply made_entrypoint; [done|]. cbn.
  apply made_relabel; [apply updateTemplate_made|apply UpdateLabels_run|apply UpdateLabels_name].
Qed.

Lemma buildDeployment_made m d :
  buildDeployment cfg stats m = Ok d →
  ∃ rc, CalculateResourceConfig stats (kw_Spec (mi_Workload m)) true = Some rc ∧
    made cfg (mi_Pod m) rc false (dp_Template (deploymentSpecOf m)) (dp_Template (dep_Spec d)).
Proof.
  unfold buildDeployment. change (match mi_Deployment m with Some spec => spec | None => _ end) with (deploymentSpecOf m).
  destruct (dp_Selector _) as [[[ml|] exprs]|]; [|done..]. destruct (CalculateResourceConfig _ _ _) as [rc|]; [|done].
  destruct (AddEntrypoint _ _) as [t|e|] eqn:Et; [|done..]. intros [= <-]. exists rc. split; [done|].
  eapply made_restart, made_entrypoint; [done|]. cbn.
  apply made_relabel; [apply updateTemplate_made|apply UpdateLabels_run|apply UpdateLabels_name].
Qed.

Lemma buildRayJob_made m j :
  buildRayJob cfg stats m = Ok j →
  ∃ rc s s', CalculateResourceConfig stats (kw_Spec (mi_Workload m)) true = Some rc ∧
    rj_RayClusterSpec (rayJobSpecOf m) = Some s ∧ rj_RayClusterSpec (ryj_Spec j) = Some s' ∧
    Forall2 (λ p p', p'.1 = p.1 ∧ made cfg (mi_Pod m) rc p.1 p.2 p'.2) (clusterTemplates s) (clusterTemplates s').
Proof.
  unfold buildRayJob. change (match mi_RayJob m with Some spec => spec | None => _ end) with (rayJobSpecOf m).
  destruct (if decide _ then _ else _) as [script| |]; [|done..]. destruct (rj_RayClusterSpec (rayJobSpecOf m)) as [s|]; [|done].
  destruct (UpdateRayClusterSpec _ _ _ _) as [s'| |] eqn:Es; [|done..]. intros [= <-].
  destruct (UpdateRayClusterSpec_made _ _ _ Es) as (rc & Hrc & Hs & _). eexists rc, s, _. do 3 (split; [done|]). cbn.
  apply cluster_relabel; [done|]. intros t t' Ht.
  apply made_relabel; [done|rewrite queueLabels_lookup by done; apply UpdateLabels_run|rewrite queueLabels_lookup by done; apply UpdateLabels_name].
Qed.

Lemma buildRayService_made m s :
  buildRayService cfg stats m = Ok s →
  ∃ rc, CalculateResourceConfig stats (kw_Spec (mi_Workload m)) true = Some rc ∧
    Forall2 (λ p p', p'.1 = p.1 ∧ made cfg (mi_Pod m) rc p.1 p.2 p'.2)
      (clusterTemplates (rs_RayClusterSpec (rayServiceSpecOf m))) (clusterTemplates (rs_RayClusterSpec (rys_Spec s))) ∧
    Forall (λ g, wg_Replicas g = Some (int32 (rc_Replicas rc))) (rcs_WorkerGroupSpecs (rs_RayClusterSpec (rys_Spec s))) ∧
    length (rcs_WorkerGroupSpecs (rs_RayClusterSpec (rys_Spec s))) = length (rcs_WorkerGroupSpecs (rs_RayClusterSpec (rayServiceSpecOf m))).
Proof.
  unfold buildRayService. change (match mi_RayService m with Some spec => spec | None => _ end) with (rayServiceSpecOf m).
  destruct (UpdateRayClusterSpec _ _ _ _) as [s'| |] eqn:Es; [|done..]. intros [= <-].
  destruct (UpdateRayClusterSpec_made _ _ _ Es) as (rc & Hrc & Hs & Hw). exists rc. split; [done|]. cbn. split; [|split; [done|]].
  - apply cluster_relabel; [done|]. intros t t' Ht. apply made_relabel; [done|apply UpdateLabels_run|apply UpdateLabels_name].
  - apply Forall2_length in Hs. unfold clusterTemplates in Hs. cbn in Hs. rewrite !length_fmap in Hs. lia.
Qed.

Lemma buildAppWrapper_labels m a : buildAppWrapper cfg stats m = Ok a →
  aw_Labels a = UpdateLabels (mi_Workload m) (queueLabels cfg (mi_Pod m) ∅).
Proof.
  unfold buildAppWrapper. destruct (buildRayService _ _ _); [|done..]. destruct (CalculateResourceConfig _ _ _); [|done].
  destruct (MarshalRayServiceSpec _); [done|]. destruct (MarshalLabels _); by intros [= <-].
Qed.

(** The templates of an object, one by one. *)
Lemma BuildDesired_made m b :
  BuildDesired m = Ok b →
  ∃ rc, CalculateResourceConfig stats (kw_Spec (mi_Workload m)) true = Some rc ∧
    Forall2 (λ p p', p'.1 = p.1 ∧ made cfg (mi_Pod m) rc p.1 p.2 p'.2) (templatesIn m) (templatesOf b).
Proof.
  unfold BuildDesired, templatesIn. destruct (kw_Kind _), (IsRay _).
  - intros (j & (rc & s & s' & Hrc & -> & Hs' & Hs)%buildRayJob_made & <-)%outcome_map_ok. exists rc. cbn. by rewrite Hs'.
  - intros (j & (rc & Hrc & Hm)%buildBatchJob_made & <-)%outcome_map_ok. exists rc. split; [done|]. constructor; [done|constructor].
  - destruct (buildRayService _ _ _) as [s| |] eqn:Es, (buildAppWrapper _ _ _); try done. intros [= <-].
    destruct (buildRayService_made _ _ Es) as (rc & Hrc & Hs & _). by exists rc.
  - intros (d & (rc & Hrc & Hm)%buildDeployment_made & <-)%outcome_map_ok. exists rc. split; [done|]. constructor; [done|constructor].
Qed.

Lemma templatesOf_made m b hd t' :
  BuildDesired m = Ok b → (hd, t') ∈ templatesOf b →
  ∃ rc t, CalculateResourceConfig stats (kw_Spec (mi_Workload m)) true = Some rc ∧ (hd, t) ∈ templatesIn m ∧ made cfg (mi_Pod m) rc hd t t'.
Proof.
  intros (rc & Hrc & Hall)%BuildDesired_made [k Hk]%list_elem_of_lookup.
  destruct (Forall2_lookup_r _ _ _ _ _ Hall Hk) as ([hd' t] & Ht & Heq & Hm). cbn in *. subst hd'.
  exists rc, t. split; [done|]. split; [by eapply list_elem_of_lookup_2|done].
Qed.

(** * Pods *)

(** The templates the user gives. *)
Definition userTemplates (m : ManifestInput) : list PodTemplateSpec :=
  match kw_Kind (mi_Workload m), IsRay (mi_Workload m) with
  | KindKaiwoJob, false => js_Template <$> listOf (mi_Job m)
  | KindKaiwoJob, true =>
      snd <$> match mi_RayJob m with Some j => concat (clusterTemplates <$> listOf (rj_RayClusterSpec j)) | None => [] end
  | KindKaiwoService, false => dp_Template <$> listOf (mi_Deployment m)
  | KindKaiwoService, true => snd <$> concat ((clusterTemplates ∘ rs_RayClusterSpec) <$> listOf (mi_RayService m))
  end.

Lemma default_cluster_mounted dangerous hd t : (hd, t) ∈ clusterTemplates (GetRayClusterTemplate cfg dangerous) → well_mounted t.
Proof.
  unfold clusterTemplates, GetRayClusterTemplate. cbn [rcs_HeadTemplate rcs_WorkerGroupSpecs fmap list_fmap wg_Template].
  rewrite !elem_of_cons, elem_of_nil. intros [[= -> ->]|[[= -> ->]|[]]]; apply GetPodTemplate_well_mounted.
Qed.

Lemma templatesIn_mounted m hd t :
  Forall well_mounted (userTemplates m) → (hd, t) ∈ templatesIn m → well_mounted t.
Proof.
  rewrite Forall_forall. unfold userTemplates, templatesIn, jobSpecOf, rayJobSpecOf, deploymentSpecOf, rayServiceSpecOf. intros Huser Hin.
  assert (∀ s, (hd, t) ∈ clusterTemplates s → (∀ t, t ∈ snd <$> clusterTemplates s → well_mounted t) → well_mounted t) as Hs.
  { intros s Ht Hall. apply Hall. by apply (list_elem_of_fmap_2 snd _ (hd, t)). }
  destruct (kw_Kind _), (IsRay _).
  - destruct (mi_RayJob m) as [j|]; cbn in *; [|by eapply default_cluster_mounted].
    destruct (rj_RayClusterSpec j) as [s|]; cbn [listOf fmap list_fmap concat] in *; [|by apply elem_of_nil in Hin]. rewrite app_nil_r in Huser. by apply (Hs s).
  - apply list_elem_of_singleton in Hin as [= -> ->]. destruct (mi_Job m); [|apply GetPodTemplate_well_mounted]. apply Huser. by left.
  - destruct (mi_RayService m) as [j|]; cbn in *; [|by eapply default_cluster_mounted]. rewrite app_nil_r in Huser. by apply (Hs (rs_RayClusterSpec j)).
  - apply list_elem_of_singleton in Hin as [= -> ->]. destruct (mi_Deployment m); [|apply GetPodTemplate_well_mounted]. apply Huser. by left.
Qed.

(** C12: the object that runs a workload, of whatever kind, is put into the queue of the
    workload, and its pods can be found and mounted: each of them carries the run and the
    name of the workload, which is what the controllers list pods by, and its containers
    mount only volumes it has, if this is so of the templates the user gives. *)
Theorem BuildDesired_pods m b hd t' :
  BuildDesired m = Ok b → Forall well_mounted (userTemplates m) → (hd, t') ∈ templatesOf b →
  labelsOf b !! QueueLabel = Some (queueOf cfg (mi_Workload m)) ∧
  pt_Labels t' !! KaiwoRunIdLabel = Some (kw_UID (mi_Workload m)) ∧
  pt_Labels t' !! KaiwoNameLabel = Some (kw_Name (mi_Workload m)) ∧
  well_mounted t'.
Proof.
  intros Hb Huser Ht'. split.
  - unfold BuildDesired in Hb. destruct (kw_Kind _), (IsRay _).
    + apply outcome_map_ok in Hb as (j & Hj & <-). unfold buildRayJob in Hj. destruct (if decide _ then _ else _); [|done..].
      destruct (rj_RayClusterSpec _); [|done]. destruct (UpdateRayClusterSpec _ _ _ _); [|done..]. injection Hj as <-. apply queueLabels_queue.
    + apply outcome_map_ok in Hb as (j & Hj & <-). unfold buildBatchJob in Hj. destruct (AddEntrypoint _ _); [|done..].
      destruct (CalculateResourceConfig _ _ _); [|done]. injection Hj as <-. apply queueLabels_queue.
    + destruct (buildRayService _ _ _), (buildAppWrapper _ _ _) eqn:Ea; try done. injection Hb as <-. cbn.
      rewrite (buildAppWrapper_labels _ _ Ea), UpdateLabels_queue. apply queueLabels_queue.
    + apply outcome_map_ok in Hb as (d & Hd & <-). unfold buildDeployment in Hd.
      destruct (dp_Selector _) as [[[ml|] exprs]|]; [|done..]. destruct (CalculateResourceConfig _ _ _); [|done].
      destruct (AddEntrypoint _ _); [|done..]. injection Hd as <-. cbn. rewrite UpdateLabels_queue. apply queueLabels_queue.
  - destruct (templatesOf_made _ _ _ _ Hb Ht') as (rc & t & _ & Ht & [Hmount _ _ Hrun Hname _]).
    split; [done|]. split; [done|]. apply Hmount. by eapply templatesIn_mounted.
Qed.

(** C13: pods that are given GPUs are let onto the nodes that have them. When the operator
    taints GPU nodes, every pod of a workload that is not a Ray head tolerates the taint it
    puts on them, if the pod has a container and is given GPUs under one of the two names
    the code knows. *)
Theorem gpu_pods_tolerate m b rc kc t' :
  BuildDesired m = Ok b → CalculateResourceConfig stats (kw_Spec (mi_Workload m)) true = Some rc → 0 < rc_GpusPerReplica rc →
  knownGpu (getGpuResourceKey (rc_GpuVendor rc) (mc_DefaultGpuResourceKey cfg)) →
  mc_AddTaintsToGpuNodes cfg = true → mc_DefaultGpuTaintKey cfg = kc_DefaultGpuTaintKey kc →
  (false, t') ∈ templatesOf b → pt_Containers t' ≠ [] →
  Exists (λ tol, tolerates tol (gpuTaint kc)) (pt_Tolerations t').
Proof.
  intros Hb Hrc Hg Hkey Hadd Htaint Ht' Hne. destruct (templatesOf_made _ _ _ _ Hb Ht') as (rc' & t & Hrc' & _ & [_ _ _ _ _ Htol]).
  assert (rc' = rc) as -> by congruence. apply Exists_exists. exists (gpuToleration cfg). split; [by apply Htol|].
  split; [by right|]. split; [by right|by left].
Qed.

(** * Storage *)

Lemma NewPvcReconciler_ok mf key amount spec r :
  NewPvcReconciler mf key amount spec = Ok r → rr_Kind r = KindPersistentVolumeClaim ∧ rr_Key r = key.
Proof. unfold NewPvcReconciler. destruct (ParseQuantity amount); [|done]. by intros [= <-]. Qed.

(** The key of the volume claim with a postfix. *)
Definition claimKey (key : Key) (postfix : string) : Key := mkKey (key_namespace key) (FormatNameWithPostfix (key_name key) [postfix]).

(** The volume claims among the storage's objects are those of the data, if it has a
    size, and of Hugging Face, if repositories are downloaded. *)
Lemma storageReconcilers_pvc mf key spec recs k :
  storageReconcilers mf key spec = Ok recs →
  (∃ rec, rec ∈ recs ∧ rr_Kind rec = KindPersistentVolumeClaim ∧ rr_Key rec = k) ↔
    HasData (Some spec) = true ∧ k = claimKey key DataStoragePostfix ∨ HasHfDownloads (Some spec) = true ∧ k = claimKey key HfStoragePostfix.
Proof.
  unfold storageReconcilers. cbv zeta. fold (claimKey key DataStoragePostfix) (claimKey key HfStoragePostfix). intros Hrecs.
  set (downloads := if HasDownloads (Some spec) then _ else _) in Hrecs.
  assert (∀ rec, rec ∈ downloads → rr_Kind rec ≠ KindPersistentVolumeClaim) as Hdl.
  { subst downloads. destruct (HasDownloads _); intros rec; rewrite ?elem_of_cons, elem_of_nil; [|done]. by intros [->|[->|[]]]. }
  assert (∀ (b : bool) P (o : outcome ResourceReconciler) recs',
    (if b then match o with Ok r => Ok [r] | _ => Panics end else Ok []) = Ok recs' → (∀ r, o = Ok r → rr_Kind r = KindPersistentVolumeClaim ∧ rr_Key r = P) →
    (∃ rec, rec ∈ recs' ∧ rr_Kind rec = KindPersistentVolumeClaim ∧ rr_Key rec = k) ↔ b = true ∧ k = P) as Hone.
  { intros b P o recs' Hb Ho. destruct b; [destruct o as [r| |]; [|done..]|]; injection Hb as <-.
    - destruct (Ho r eq_refl) as [Hk Hp]. split.
      + intros (rec & ->%list_elem_of_singleton & _ & <-). done.
      + intros [_ ->]. exists r. split; [by left|done].
    - split; [by intros (rec & ?%elem_of_nil & _)|by intros []]. }
  destruct (match ss_Data spec with Some d => _ | None => _ end) as [ds| |] eqn:Ed; [|done..].
  destruct (match ss_HuggingFace spec with Some d => _ | None => _ end) as [hs| |] eqn:Eh; [|done..]. injection Hrecs as <-.
  assert ((∃ rec, rec ∈ ds ∧ rr_Kind rec = KindPersistentVolumeClaim ∧ rr_Key rec = k) ↔ HasData (Some spec) = true ∧ k = claimKey key DataStoragePostfix) as <-.
  { unfold HasData in *. destruct (ss_Data spec) as [d|]; [by eapply Hone; [exact Ed|intros r; apply NewPvcReconciler_ok]|].
    injection Ed as <-. split; [by intros (rec & ?%elem_of_nil & _)|by intros []]. }
  assert ((∃ rec, rec ∈ hs ∧ rr_Kind rec = KindPersistentVolumeClaim ∧ rr_Key rec = k) ↔ HasHfDownloads (Some spec) = true ∧ k = claimKey key HfStoragePostfix) as <-.
  { unfold HasHfDownloads in *. destruct (ss_HuggingFace spec) as [h|]; [by eapply Hone; [exact Eh|intros r; apply NewPvcReconciler_ok]|].
    injection Eh as <-. split; [by intros (rec & ?%elem_of_nil & _)|by intros []]. }
  setoid_rewrite elem_of_app. setoid_rewrite elem_of_app. naive_solver.
Qed.

(** A size is set for the data, or for Hugging Face; repositories are to be downloaded. *)
Definition data_sized (spec : StorageSpec) : Prop := ∃ d, ss_Data spec = Some d ∧ da_StorageSize d ≠ "".
Definition hf_sized (spec : StorageSpec) : Prop := ∃ h, ss_HuggingFace spec = Some h ∧ hs_StorageSize h ≠ "".
Definition hf_downloaded (spec : StorageSpec) : Prop := ∃ h, ss_HuggingFace spec = Some h ∧ hs_PreCacheRepos h ≠ [].

Lemma DataIsRequested_sized spec : DataIsRequested (ss_Data spec) = true ↔ data_sized spec.
Proof.
  unfold DataIsRequested, data_sized. destruct (ss_Data spec) as [d|]; [rewrite bool_decide_eq_true|]; [|by split; [|intros (? & ? & _)]].
  split; [by exists d|]. by intros (? & [= <-] & ?).
Qed.

Lemma HfIsRequested_sized spec : HfIsRequested (ss_HuggingFace spec) = true ↔ hf_sized spec.
Proof.
  unfold HfIsRequested, hf_sized. destruct (ss_HuggingFace spec) as [h|]; [rewrite bool_decide_eq_true|]; [|by split; [|intros (? & ? & _)]].
  split; [by exists h|]. by intros (? & [= <-] & ?).
Qed.

Lemma HasHfDownloads_downloaded spec : HasHfDownloads (Some spec) = true ↔ hf_downloaded spec.
Proof.
  unfold HasHfDownloads, hf_downloaded. destruct (ss_HuggingFace spec) as [h|]; [|by split; [|intros (? & ? & _)]]. split.
  - intros E. exists h. split; [done|]. by destruct (hs_PreCacheRepos h).
  - intros (? & [= <-] & ?). by destruct (hs_PreCacheRepos h).
Qed.

(** The volumes added for a storage that is enabled. *)
Lemma storageVolumes_sized w spec v :
  storageSpec w = Some spec →
  v ∈ storageVolumes w ↔
    data_sized spec ∧ v = storageVolume w DataStoragePostfix ∨ hf_sized spec ∧ v = storageVolume w HfStoragePostfix.
Proof.
  intros Hspec. unfold storageVolumes, requestedData, requestedHf. rewrite Hspec, elem_of_app, <- DataIsRequested_sized, <- HfIsRequested_sized.
  assert (∀ A (b : bool) (o : option A) x, (b = true → is_Some o) →
    v ∈ match (if b then o else None) with Some _ => [x] | None => [] end ↔ b = true ∧ v = x) as Hone.
  { intros A [|] o x Ho; [destruct (Ho eq_refl) as [y ->]; rewrite list_elem_of_singleton; naive_solver|].
    rewrite elem_of_nil. naive_solver. }
  rewrite !Hone; [done|..]; [destruct (ss_HuggingFace spec)|destruct (ss_Data spec)]; done.
Qed.

(** C14: the volume claims of the pods and of the controller, when the storage is enabled. A
    claim in a pod of the workload is one of the templates', the claim of the data, or that
    of Hugging Face; each of these two is added to every pod exactly when a size is set for
    it. The
    controller ensures the claim of the data exactly when its size is set, but the claim of
    Hugging Face exactly when repositories are to be downloaded, whatever its size, and no
    other. So a size alone puts a claim in the pods that nothing creates, although the
    documentation of the size says that it will be created. *)
Theorem claims_ensured m b hd t' spec recs mf :
  BuildDesired m = Ok b → (hd, t') ∈ templatesOf b →
  storageSpec (mi_Workload m) = Some spec → storageReconcilers mf (kw_key (mi_Workload m)) spec = Ok recs →
  let name postfix := FormatNameWithPostfix (kw_Name (mi_Workload m)) [postfix] in
  (∀ v claim, v ∈ pt_Volumes t' → v_Source v = PersistentVolumeClaimSource claim →
     (∃ t, (hd, t) ∈ templatesIn m ∧ v ∈ pt_Volumes t) ∨
     (data_sized spec ∧ claim = name DataStoragePostfix) ∨ (hf_sized spec ∧ claim = name HfStoragePostfix)) ∧
  (data_sized spec → {| v_Name := DataStoragePostfix; v_Source := PersistentVolumeClaimSource (name DataStoragePostfix) |} ∈ pt_Volumes t') ∧
  (hf_sized spec → {| v_Name := HfStoragePostfix; v_Source := PersistentVolumeClaimSource (name HfStoragePostfix) |} ∈ pt_Volumes t') ∧
  ∀ claim,
    (∃ rec, rec ∈ recs ∧ rr_Kind rec = KindPersistentVolumeClaim ∧ rr_Key rec = mkKey (kw_Namespace (mi_Workload m)) claim) ↔
    (data_sized spec ∧ claim = name DataStoragePostfix) ∨ (hf_downloaded spec ∧ claim = name HfStoragePostfix).
Proof.
  intros Hb Ht' Hspec Hrecs name. destruct (templatesOf_made _ _ _ _ Hb Ht') as (rc & t & _ & Ht & [_ _ Hvol _ _ _]).
  assert (∀ v, v ∈ storageVolumes (mi_Workload m) → v ∈ pt_Volumes t') as Hin.
  { intros v Hv. apply Hvol. rewrite !elem_of_app. auto. }
  split; [|split; [|split]].
  - intros v claim Hv Hclaim. apply Hvol in Hv. rewrite !elem_of_app in Hv. destruct Hv as [Hv|[Hv|Hv]]; [left; eauto|right|].
    + apply (storageVolumes_sized _ _ _ Hspec) in Hv as [[Hs ->]|[Hs ->]]; injection Hclaim as <-; auto.
    + apply list_elem_of_fmap in Hv as (sv & -> & _). done.
  - intros Hs. apply Hin, (storageVolumes_sized _ _ _ Hspec). by left.
  - intros Hs. apply Hin, (storageVolumes_sized _ _ _ Hspec). by right.
  - intros claim. rewrite (storageReconcilers_pvc _ _ _ _ _ Hrecs), HasHfDownloads_downloaded, <- DataIsRequested_sized.
    assert (∀ postfix, mkKey (kw_Namespace (mi_Workload m)) claim = claimKey (kw_key (mi_Workload m)) postfix ↔ claim = name postfix) as Hk.
    { intros postfix. split; [by intros [= ->]|by intros ->]. }
    by rewrite !Hk.
Qed.

(** A Hugging Face volume without repositories to download is mounted but never
    created. With a storage size and no repositories every pod of the workload claims the
    volume, and no object the controller ensures for the storage is that claim, so that the
    pods wait for it; the names are those of a workload short enough for them to differ. *)
Theorem hf_claim_missing m b hd t' spec h recs mf :
  BuildDesired m = Ok b → (hd, t') ∈ templatesOf b →
  storageSpec (mi_Workload m) = Some spec → ss_HuggingFace spec = Some h → hs_StorageSize h ≠ "" → hs_PreCacheRepos h = [] →
  storageReconcilers mf (kw_key (mi_Workload m)) spec = Ok recs →
  (∀ p, p ∈ [DataStoragePostfix; HfStoragePostfix] → FormatNameWithPostfix (kw_Name (mi_Workload m)) [p] = kw_Name (mi_Workload m) +:+ "-" +:+ p) →
  storageVolume (mi_Workload m) HfStoragePostfix ∈ pt_Volumes t' ∧
  ¬ ∃ rec, rec ∈ recs ∧ rr_Kind rec = KindPersistentVolumeClaim ∧ rr_Key rec = claimKey (kw_key (mi_Workload m)) HfStoragePostfix.
Proof.
  intros Hb Ht' Hspec Hh Hsize Hrepos Hrecs Hnames. destruct (templatesOf_made _ _ _ _ Hb Ht') as (rc & t & _ & _ & [_ _ Hvol _ _ _]). split.
  - apply Hvol. rewrite !elem_of_app. right. left. unfold storageVolumes, requestedHf, HfIsRequested. rewrite Hspec, Hh, bool_decide_true by done.
    apply elem_of_app. right. by left.
  - rewrite (storageReconcilers_pvc _ _ _ _ _ Hrecs). intros [[_ Hk]|[Hdl _]].
    + unfold claimKey in Hk. injection Hk as Hk. change (key_name _) with (kw_Name (mi_Workload m)) in Hk.
      rewrite !Hnames in Hk by (rewrite !elem_of_cons; auto). by apply (inj (String.append _)) in Hk.
    + unfold HasHfDownloads in Hdl. by rewrite Hh, Hrepos in Hdl.
Qed.

(** * Deployments *)

Lemma updateTemplate_labels i rc t : pt_Labels (updateTemplate cfg i rc t) = UpdateLabels (pi_Workload i) (po_PodTemplateSpecLabels (pi_Options i) ∪ pt_Labels t).
Proof.
  unfold updateTemplate, UpdatePodSpec. destruct (shareConfig rc []) as [h sc]. by destruct (updateMainContainers _ _ _ _ _ _).
Qed.

Lemma AddEntrypoint_labels entrypoint t t' : AddEntrypoint entrypoint t = Ok t' → pt_Labels t' = pt_Labels t.
Proof.
  unfold AddEntrypoint. case_decide; [by intros [= ->]|]. destruct (pt_Containers t); [done|].
  destruct (ConvertMultilineEntrypoint _ _); [done|]. by intros [= <-].
Qed.

(** The labels the operator sets itself. *)
Definition reserved : list string :=
  [KaiwoUserLabel; KaiwoNameLabel; KaiwoTypeLabel; KaiwoRunIdLabel; KaiwoManagedLabel; QueueLabel; WorkloaddPriorityClassLabel].

(** The deployment of a service selects the pods it makes: what its selector asks for
    is in the labels of its pod template, which are also its own. Of the labels the user's
    selector asks for this supposes that the template has them, that the labels for pod
    templates do not change them, and that they are not among those the operator sets; the
    default selector asks for none. *)
Theorem deployment_selects_pods m d sel ml :
  buildDeployment cfg stats m = Ok d → dp_Selector (deploymentSpecOf m) = Some sel → ls_MatchLabels sel = Some ml →
  (∀ k v, ml !! k = Some v → k ≠ "app" →
    pt_Labels (dp_Template (deploymentSpecOf m)) !! k = Some v ∧ (k ∉ reserved) ∧
    (po_PodTemplateSpecLabels (pi_Options (mi_Pod m)) !! k = None ∨ po_PodTemplateSpecLabels (pi_Options (mi_Pod m)) !! k = Some v)) →
  ∃ sel' ml', dp_Selector (dep_Spec d) = Some sel' ∧ ls_MatchLabels sel' = Some ml' ∧
    ml' !! "app" = Some (kw_Name (mi_Workload m)) ∧ ml' ⊆ pt_Labels (dp_Template (dep_Spec d)) ∧
    dep_Labels d = pt_Labels (dp_Template (dep_Spec d)).
Proof.
  unfold buildDeployment. change (match mi_Deployment m with Some spec => spec | None => _ end) with (deploymentSpecOf m).
  intros Hd Hsel Hml Hok. rewrite Hsel in Hd. destruct sel as [ml0 exprs]. cbn in Hml. subst ml0.
  destruct (CalculateResourceConfig _ _ _) as [rc|]; [|done]. destruct (AddEntrypoint _ _) as [t| |] eqn:Et; [|done..]. injection Hd as <-.
  apply AddEntrypoint_labels in Et. eexists _, _. do 2 (split; [done|]). split; [apply lookup_insert_eq|]. split; [|done]. cbn.
  apply map_subseteq_spec. intros k v Hk. rewrite updateTemplate_labels, Et. cbn [set_RestartPolicy pt_Labels].
  assert (∀ ls x, k ∉ reserved → ls !! k = Some x → UpdateLabels (mi_Workload m) ls !! k = Some x) as Hkeep.
  { intros ls x Hr Hx. destruct (UpdateLabels_spec (mi_Workload m) ls) as (_ & _ & _ & _ & _ & Hrest).
    rewrite Hrest, Hx; [done|]. unfold reserved in Hr. rewrite !not_elem_of_cons in *. tauto. }
  assert (k ∉ reserved) as Hr.
  { destruct (decide (k = "app")) as [->|Hne]; [|rewrite lookup_insert_ne in Hk by done; by destruct (Hok k v Hk Hne) as (_ & ? & _)].
    unfold reserved. rewrite !not_elem_of_cons. repeat split; try done. apply not_elem_of_nil. }
  apply Hkeep; [done|]. rewrite queueLabels_lookup by (intros ->; apply Hr; unfold reserved; rewrite !elem_of_cons; tauto).
  destruct (decide (k = "app")) as [->|Hne]; [by rewrite lookup_insert_eq in *|]. rewrite lookup_insert_ne in * by done.
  destruct (Hok k v Hk Hne) as (Ht & _ & Hpo). apply Hkeep; [done|]. rewrite lookup_union, Ht. by destruct Hpo as [-> | ->].
Qed.

(** * Ray *)

(** The pods an AppWrapper declares to Kueue, and those of the service it wraps. *)
Definition declaredPods (a : AppWrapper) : Z := foldr (λ p n, default 1 (aps_Replicas p) + n) 0 (aw_DeclaredPodSets a).
Definition servicePods (s : RayService) : Z :=
  1 + foldr (λ g n, default 0 (wg_Replicas g) + n) 0 (rcs_WorkerGroupSpecs (rs_RayClusterSpec (rys_Spec s))).

(** Kueue is told of as many pods as a Ray service has exactly when the service has one
    group of workers, as the default one has, or its groups are empty: every group gets the
    replicas of the workload, and only the first one is declared. *)
Theorem wrapped_pods m a s rc :
  BuildDesired m = Ok (BuiltAppWrapper a s) → CalculateResourceConfig stats (kw_Spec (mi_Workload m)) true = Some rc →
  declaredPods a = 1 + int32 (rc_Replicas rc) ∧
  servicePods s = 1 + Z.of_nat (length (rcs_WorkerGroupSpecs (rs_RayClusterSpec (rayServiceSpecOf m)))) * int32 (rc_Replicas rc) ∧
  (declaredPods a = servicePods s ↔
    length (rcs_WorkerGroupSpecs (rs_RayClusterSpec (rayServiceSpecOf m))) = 1%nat ∨ int32 (rc_Replicas rc) = 0).
Proof.
  intros Hb Hrc. unfold BuildDesired in Hb.
  destruct (kw_Kind _), (IsRay _); [by apply outcome_map_ok in Hb as (? & _ & ?)..| |by apply outcome_map_ok in Hb as (? & _ & ?)].
  destruct (buildRayService _ _ _) as [s'| |] eqn:Es, (buildAppWrapper _ _ _) as [a'| |] eqn:Ea; try done. injection Hb as -> ->.
  assert (declaredPods a = 1 + int32 (rc_Replicas rc)) as Ha.
  { unfold buildAppWrapper in Ea. rewrite Es, Hrc in Ea. destruct (MarshalRayServiceSpec _); [done|]. destruct (MarshalLabels _); [done|].
    injection Ea as <-. unfold declaredPods. cbn [aw_DeclaredPodSets foldr aps_Replicas from_option id]. lia. }
  assert (servicePods s = 1 + Z.of_nat (length (rcs_WorkerGroupSpecs (rs_RayClusterSpec (rayServiceSpecOf m)))) * int32 (rc_Replicas rc)) as Hs.
  { destruct (buildRayService_made _ _ Es) as (rc' & Hrc' & _ & Hw & <-). assert (rc' = rc) as -> by congruence. unfold servicePods. f_equal.
    induction Hw as [|g gs Hg _ IH]; [done|]. cbn [foldr length]. rewrite Hg, IH. cbn [from_option id]. lia. }
  split; [done|]. split; [done|]. rewrite Ha, Hs. generalize (int32 (rc_Replicas rc)) (length (rcs_WorkerGroupSpecs (rs_RayClusterSpec (rayServiceSpecOf m)))).
  intros r n. split; [|intros [-> | ->]; lia]. intros Heq. destruct (decide (r = 0)); [by right|left].
  assert ((Z.of_nat n - 1) * r = 0) as Hz by lia. apply Z.mul_eq_0 in Hz. lia.
Qed.

(** The resources of the containers are those of Resources.v. *)
Definition resourcesOf (t : PodTemplateSpec) : list Container := pc_Base <$> pt_Containers t.

Lemma UpdatePodSpec_resources i sc rayHead t h :
  let '(h', t') := UpdatePodSpec cfg i sc rayHead t h in
  updateContainers (mc_DefaultGpuResourceKey cfg) sc rayHead (resourcesOf t) h = (h', resourcesOf t').
Proof.
  unfold UpdatePodSpec, resourcesOf. set (cs := pt_Containers t). clearbody cs. cbv zeta.
  assert (updateContainers (mc_DefaultGpuResourceKey cfg) sc rayHead (pc_Base <$> cs) h =
    let '(h', cs') := updateMainContainers cfg i sc rayHead cs h in (h', pc_Base <$> cs')) as Hcs.
  { revert h. induction cs as [|c cs IH]; intros h; [done|]. cbn [fmap list_fmap updateContainers updateMainContainers].
    unfold Resources.updateMainContainer, updateMainContainer. destruct (CreateResourceRequirements _ _ _ _) as [h1 [q l]].
    rewrite IH. by destruct (updateMainContainers cfg i sc rayHead cs h1). }
  rewrite Hcs. by destruct (updateMainContainers cfg i sc rayHead cs h).
Qed.

Lemma updateWorkerGroups_resources i sc gs h :
  let '(h', gs') := updateWorkerGroups cfg i sc gs h in
  updateWorkers (mc_DefaultGpuResourceKey cfg) sc ((λ g, resourcesOf (wg_Template g)) <$> gs) h = (h', (λ g, resourcesOf (wg_Template g)) <$> gs').
Proof.
  revert h. induction gs as [|g gs IH]; intros h; [done|]. cbn [fmap list_fmap updateWorkers updateWorkerGroups].
  pose proof (UpdatePodSpec_resources i sc false (wg_Template g) h) as Hg. destruct (UpdatePodSpec _ _ _ _ _ _) as [h1 t]. rewrite Hg.
  specialize (IH h1). destruct (updateWorkerGroups cfg i sc gs h1) as [h2 gs']. by rewrite IH.
Qed.

Lemma ensureImage_resources t : resourcesOf (ensureImage cfg t) = resourcesOf t.
Proof. unfold resourcesOf. cbn. rewrite <- list_fmap_compose. apply list_fmap_ext. intros k c _. unfold compose. by case_decide. Qed.

(** The resources of a Ray cluster are the ones Resources.v computes. *)
Lemma UpdateRayClusterSpec_resources i s s' rc :
  UpdateRayClusterSpec cfg stats i s = Ok s' → CalculateResourceConfig stats (kw_Spec (pi_Workload i)) true = Some rc →
  ∃ q, ParseQuantity (mc_HeadPodMemory cfg) = Some q ∧
    Resources.UpdateRayClusterSpec (mc_DefaultGpuResourceKey cfg) (QuantityValue q) rc
      ((λ g, resourcesOf (wg_Template g)) <$> rcs_WorkerGroupSpecs s) (resourcesOf (rcs_HeadTemplate s)) =
    Some ((λ g, resourcesOf (wg_Template g)) <$> rcs_WorkerGroupSpecs s', resourcesOf (rcs_HeadTemplate s')).
Proof.
  unfold UpdateRayClusterSpec, Resources.UpdateRayClusterSpec. intros Hs Hrc. rewrite Hrc in Hs. destruct (shareConfig rc []) as [h sc].
  pose proof (updateWorkerGroups_resources i sc (rcs_WorkerGroupSpecs s) h) as Hw.
  destruct (updateWorkerGroups _ _ _ _ _) as [h1 ws]. rewrite Hw. destruct (ParseQuantity _) as [q|]; [|done]. exists q. split; [done|].
  destruct (overrideHeadMemory _ _ _) as [[h2 sc2]|]; [|done].
  pose proof (UpdatePodSpec_resources i sc2 true (rcs_HeadTemplate s) h2) as Hh. destruct (UpdatePodSpec _ _ _ _ _ _) as [h3 head]. rewrite Hh.
  injection Hs as <-. cbn [rcs_WorkerGroupSpecs rcs_HeadTemplate]. rewrite <- list_fmap_compose, ensureImage_resources. do 2 f_equal.
  apply list_fmap_ext. intros k g _. symmetry. apply ensureImage_resources.
Qed.

(** Giving a Ray workload default resources gives the head the workers' GPUs. The
    head's requirements are made without GPUs, but from the map into which the workers'
    count was written, so that each container of the head that does not state the resource
    itself requests as many GPUs as a worker. *)
Theorem ray_head_gets_gpus i s s' rc q l key :
  UpdateRayClusterSpec cfg stats i s = Ok s' → CalculateResourceConfig stats (kw_Spec (pi_Workload i)) true = Some rc →
  rc_DefaultResources rc = Some {| rq_Requests := Some q; rq_Limits := Some l |} → 0 < rc_GpusPerReplica rc →
  getGpuResourceKey (rc_GpuVendor rc) (mc_DefaultGpuResourceKey cfg) = key → gpuName key →
  Exists (λ g, pt_Containers (wg_Template g) ≠ []) (rcs_WorkerGroupSpecs s) →
  Forall2 (λ c c', c_Requests c !! key = None → c_Requests c' !! key = Some (rc_GpusPerReplica rc))
    (resourcesOf (rcs_HeadTemplate s)) (resourcesOf (rcs_HeadTemplate s')).
Proof.
  intros Hs Hrc Hd Hg Hkey Hname (g & Hgin & Hne)%Exists_exists. destruct (UpdateRayClusterSpec_resources i s s' rc Hs Hrc) as (hm & _ & Hres).
  destruct (UpdateRayClusterSpec_shared (mc_DefaultGpuResourceKey cfg) (QuantityValue hm) rc q l
    ((λ g, resourcesOf (wg_Template g)) <$> rcs_WorkerGroupSpecs s) (resourcesOf (rcs_HeadTemplate s)) key Hd Hg Hkey Hname) as (ws & head' & Heq & Hall).
  - exists (resourcesOf (wg_Template g)). split; [by apply (list_elem_of_fmap_2 (λ g, resourcesOf (wg_Template g)))|]. unfold resourcesOf. by destruct (pt_Containers _).
  - rewrite Heq in Hres. injection Hres as _ <-. exact Hall.
Qed.
End theory.
