(* ===== verification/Lifecycle.v ===== *)
(** The life of a KaiwoJob or KaiwoService (pkg/workloads/common: reconciler.go,
    workload.go, preempting.go, termination.go, localqueue.go, cluster.go;
    internal/controller: kaiwojob_controller.go, kaiwoservice_controller.go). *)

From stdpp Require Import gmap strings list.
From Stdlib Require Import ZArith Lia.
From S2P Require Import Prelude History Float64 Types Kueue Scheduling GpuResources WorkloadTypes WorkloadApi Handlers.

(** * Constants *)

Definition PreemptableConditionType : string := "Preemptable".
Definition PreemptReasonDurationNotExceeded : string := "DurationNotExceeded".
Definition PreemptReasonDurationExceeded : string := "DurationExceeded".
Definition PreemptReasonDurationExceededWithActiveGpuDemand : string := "DurationExceededWithActiveGpuDemand".
Definition WorkloadEarlyTerminationConditionType : string := "WorkloadTerminatedEarly".
Definition WorkloadAdmittedType : string := "Admitted".

(** [int64(d.Seconds())]: whole seconds plus the rest as a fraction, in float64. *)
Definition secondsOf (d : Z) : Z :=
  F64.to_int (F64.add (F64.of_Z (Z.quot d Second)) (F64.div (F64.of_Z (Z.rem d Second)) (F64.of_Z Second))).

Section lifecycle.
Context `{WorkloadLib} `{GoOrder} `{Host} (mf : Manifests).

Definition currentTime : WM Z := call (S := WorkSig) CurrentTime.
Definition emit (w : KaiwoWorkload) (type : EventType) (reason message : string) : WM unit :=
  call (S := WorkSig) (EmitEvent (kw_key w) type reason message).

(** [for _, c := range new { meta.SetStatusCondition(&base, c) }]. *)
Definition mergeConditions (base new : list Condition) : WM (list Condition) :=
  for_each new base (λ c cs, now ← currentTime; mret (SetStatusCondition now cs c)).

(** * Durations and preemption *)

Definition GetRemainingTimeBeforeBecomingPreemptable (w : KaiwoWorkload) : WM (option Z) :=
  match cs_Status (kw_Status w), ms_Duration (kw_Spec w), cs_StartTime (kw_Status w) with
  | WorkloadStatusRunning, Some duration, Some start =>
      now ← currentTime; mret (Some (int64_wrap (duration - time_sub now start)))
  | _, _, _ => mret None
  end.

Definition GetPreemptableCondition (w : KaiwoWorkload) : WM (option Condition) :=
  remaining ← GetRemainingTimeBeforeBecomingPreemptable w;
  let cond status reason message :=
    {| cond_Type := PreemptableConditionType; cond_Status := status; cond_Reason := reason; cond_Message := message;
       cond_ObservedGeneration := kw_Generation w; cond_LastTransitionTime := 0 |} in
  mret (match remaining with
        | None => None
        | Some r => Some (
            if decide (0 < r) then
              cond ConditionFalse PreemptReasonDurationNotExceeded "Workload is running and the duration has not been exceeded"
            else cond ConditionTrue PreemptReasonDurationExceeded "Workload duration has exceeded")
        end).

Definition expired (w : KaiwoWorkload) : bool :=
  bool_decide (cs_Status (kw_Status w) = WorkloadStatusRunning) &&
  IsStatusConditionTrue (cs_Conditions (kw_Status w)) PreemptableConditionType.

Definition expiredCondition : Condition :=
  condition WorkloadEarlyTerminationConditionType ConditionFalse PreemptReasonDurationExceeded
    "Workload is terminating due to exceeding its duration and active GPU demand".

(** [SetEarlyTermination] and the marking of an expired workload, at a time. *)
Definition flagTerminating (now : Z) (c : Condition) (s : CommonStatusSpec) : CommonStatusSpec :=
  set_Conditions (SetStatusCondition now (cs_Conditions s) c) (set_Status WorkloadStatusTerminating s).

Definition CleanupExpiredWorkloads : WM (outcome bool) :=
  jobs ←? (r ← call (S := WorkSig) (ListWorkloads KindKaiwoJob); mret (of_sum r)) else "failed to list Kaiwo jobs";
  services ←? (r ← call (S := WorkSig) (ListWorkloads KindKaiwoService); mret (of_sum r)) else "failed to list Kaiwo services";
  cleaned ← for_each (jobs ++ services) false (λ w cleaned,
    if expired w then
      now ← currentTime;
      r ← call (S := WorkSig) (StatusUpdate (on_status (flagTerminating now expiredCondition) w));
      mret (match r with inl _ => cleaned | inr _ => true end)
    else mret cleaned);
  mret (Ok cleaned).

Definition isPendingForLong (cfg : WorkloadConfig) (created : Z) : WM bool :=
  now ← currentTime;
  mret (match ParseDuration (wc_PendingThresholdForPreemption cfg) with
        | None => false
        | Some duration => bool_decide (duration < time_sub now created)
        end).

(** The loops over jobs and services are the same. *)
Definition demandFrom (cfg : WorkloadConfig) (clusterQueue gpuVendor : string) (ws : list KaiwoWorkload) : WM (unit + bool) :=
  for_range ws tt (λ w _,
    let queue := if decide (ms_ClusterQueue (kw_Spec w) = "") then wc_DefaultClusterQueueName cfg else ms_ClusterQueue (kw_Spec w) in
    if decide (cs_Status (kw_Status w) = WorkloadStatusPending ∧ 0 < ms_Gpus (kw_Spec w) ∧ queue = clusterQueue ∧
               ms_GpuVendor (kw_Spec w) = gpuVendor)
    then long ← isPendingForLong cfg (kw_CreationTimestamp w); mret (if long : bool then Return true else Continue tt)
    else mret (Continue tt)).

Definition ClusterHasGpuDemand (cfg : WorkloadConfig) (clusterQueue gpuVendor : string) : WM (outcome bool) :=
  jobs ←? (r ← call (S := WorkSig) (ListWorkloads KindKaiwoJob); mret (of_sum r)) else "failed to list KaiwoJobs";
  r ← demandFrom cfg clusterQueue gpuVendor jobs;
  match r with
  | inr b => mret (Ok b)
  | inl _ =>
      services ←? (r ← call (S := WorkSig) (ListWorkloads KindKaiwoService); mret (of_sum r)) else "failed to list KaiwoServices";
      r ← demandFrom cfg clusterQueue gpuVendor services;
      mret (Ok (match r with inr b => b | inl _ => false end))
  end.

Definition ShouldPreempt (cfg : WorkloadConfig) (w : KaiwoWorkload) : WM (outcome bool) :=
  match ms_Duration (kw_Spec w), cs_Status (kw_Status w), cs_StartTime (kw_Status w) with
  | Some duration, WorkloadStatusRunning, Some start =>
      now ← currentTime;
      if decide (start + duration < now) then
        d ←? ClusterHasGpuDemand cfg (GetClusterQueueName (wc_DefaultClusterQueueName cfg) (kw_Spec w)) (ms_GpuVendor (kw_Spec w))
          else "failed to check if cluster has GPU demand";
        mret (Ok d)
      else mret (Ok false)
  | _, _, _ => mret (Ok false)
  end.

Definition ShouldRequeueAfter (w : KaiwoWorkload) : WM (option Z) :=
  match FindStatusCondition (cs_Conditions (kw_Status w)) PreemptableConditionType with
  | None => mret None
  | Some i =>
      match cs_Conditions (kw_Status w) !! i with
      | Some c =>
          if decide (cond_Status c = ConditionFalse ∧ cond_ObservedGeneration c = kw_Generation w)
          then GetRemainingTimeBeforeBecomingPreemptable w else mret None
      | None => mret None
      end
  end.

(** * Termination *)

Definition controlledBy (uid : string) (o : OwnerReference) : bool := bool_decide (or_UID o = uid ∧ or_Controller o = Some true).

(** One deletion for each owner reference that names the workload as the
    controller. *)
Definition deleteOwned (uid : string) (obj : Child) (deletedAny : bool) : WM (bool + error) :=
  for_range (ch_OwnerReferences obj) deletedAny (λ o deletedAny,
    if controlledBy uid o then
      e ← call (S := WorkSig) (DeleteChild obj);
      mret (match e with
            | Some e => Return (Wrapf ("failed to delete resource " +:+ ch_Namespace obj +:+ "/" +:+ ch_Name obj) e)
            | None => Continue true
            end)
    else mret (Continue deletedAny)).

Definition resourceTypes : list ChildKind :=
  [KindDeployment; KindRayService; KindAppWrapper; KindJob; KindRayJob; KindPersistentVolumeClaim].

Definition DeleteUnderlyingResources (uid name namespace : string) : WM (outcome unit) :=
  r ← for_range resourceTypes false (λ kind deletedAny,
        got ← call (S := WorkSig) (ListChildren kind namespace);
        match got with
        | inl e => mret (Return (Wrapf "failed to list resources" e))
        | inr items =>
            r ← for_range items deletedAny (λ obj deletedAny,
                  r ← deleteOwned uid obj deletedAny;
                  mret (match r with inl d => Continue d | inr e => Return e end));
            mret (match r with inl d => Continue d | inr e => Return e end)
        end);
  mret (match r with
        | inr e => Err e
        | inl true => Ok tt
        | inl false => Err (Errorf ("no owned resources found to delete for " +:+ name))
        end).

Definition set_true (c : Condition) : Condition :=
  {| cond_Type := cond_Type c; cond_Status := ConditionTrue; cond_Reason := cond_Reason c; cond_Message := cond_Message c;
     cond_ObservedGeneration := cond_ObservedGeneration c; cond_LastTransitionTime := cond_LastTransitionTime c |}.

Definition earlyTermination : Condition :=
  condition WorkloadEarlyTerminationConditionType ConditionTrue "EarlyTermination"
    "Workload terminated early (check events and other conditions for likely causes)".

(** The condition that explains the end, and the conditions with it. A condition
    that exists is a pointer into the slice, so it is set to true in place. *)
Definition terminatedConditions (now : Z) (cs : list Condition) : Condition * list Condition :=
  match FindStatusCondition cs WorkloadEarlyTerminationConditionType with
  | None => (earlyTermination, SetStatusCondition now cs earlyTermination)
  | Some i =>
      match cs !! i with
      | Some c => let c := set_true c in (c, SetStatusCondition now (<[i := c]> cs) c)
      | None => (earlyTermination, cs)
      end
  end.

Definition TerminateWorkload (w : KaiwoWorkload) : WM (outcome unit) :=
  now ← currentTime;
  let '(c, cs) := terminatedConditions now (cs_Conditions (kw_Status w)) in
  let w := on_status (λ s, set_Conditions cs (set_Status WorkloadStatusTerminated s)) w in
  w ←? (r ← call (S := WorkSig) (StatusUpdate w); mret (of_sum r)) else "failed to update status";
  _ ←? DeleteUnderlyingResources (kw_UID w) (kw_Name w) (kw_Namespace w) else "failed to delete workload resources";
  _ ← emit w EventTypeWarning (cond_Reason c) (cond_Message c);
  mret (Ok tt).

(** * Observing a workload *)

(** [GetContextWithConfig]; the branch that would create a missing configuration
    cannot be reached. *)
Definition getConfig : WM (outcome WorkloadConfig) :=
  cfg ←? (r ← call (S := WorkSig) (GetConfigObject "kaiwo"); mret (of_sum r)) else "could not get Kaiwo Config with name 'kaiwo'";
  mret (Ok cfg).

Definition GetClusterContext (w : KaiwoWorkload) : WM (outcome ClusterContext) :=
  nodes ←? (r ← call (S := WorkSig) ListClusterNodes; mret (of_sum r)) else "failed to list nodes";
  let stats := fillGpuStats nodes (ms_GpuVendor (kw_Spec w)) true in
  qc ←? (r ← call (S := WorkSig) (GetQueueConfigObject KaiwoQueueConfigName); mret (of_sum r)) else "failed to get KaiwoQueueConfig";
  mret (Ok {| cc_Nodes := nodes; cc_GpuStats := stats; cc_QueueConfigName := om_Name (qc_Meta qc);
              cc_ClusterQueues := qs_ClusterQueues (qc_Spec qc) |}).

Definition admittedCondition : Condition := condition WorkloadAdmittedType ConditionTrue "Admitted" "Workload is admitted".
Definition pendingCondition (queue : string) : Condition :=
  condition WorkloadAdmittedType ConditionFalse "Pending" ("Workload is pending admission into '" +:+ queue +:+ "'").
Definition preemptedCondition : Condition :=
  condition WorkloadEarlyTerminationConditionType ConditionFalse PreemptReasonDurationExceededWithActiveGpuDemand
    "Terminated since duration was exceeded and there is active GPU demand".

(** The status of an admitted workload whose object is not there yet. *)
Definition startedStatus (s : option WorkloadStatus) : WorkloadStatus :=
  match s with None | Some WorkloadStatusNew => WorkloadStatusStarting | Some s => s end.

(** [WorkloadHandler.ObserveStatus]. *)
Definition observeWorkload (cfg : WorkloadConfig) (w : KaiwoWorkload) (previous : WorkloadStatus)
  : WM (outcome (WorkloadStatus * list Condition)) :=
  let h := workloadHandler mf w in
  isAdmitted ←? IsAdmitted h else "failed to check if workload is admitted";
  '(workloadStatus, workloadConditions) ←? ObserveOverallStatus [wr_Resource h] previous else "failed to observe workload status";
  if isAdmitted : bool then
    let workloadStatus := startedStatus workloadStatus in
    let conditions := admittedCondition :: workloadConditions in
    match ms_Duration (kw_Spec w) with
    | None => mret (Ok (workloadStatus, conditions))
    | Some _ =>
        preemptCondition ← GetPreemptableCondition w;
        match preemptCondition with
        | None => mret (Ok (workloadStatus, conditions))
        | Some c =>
            shouldPreempt ←? ShouldPreempt cfg w else "failed to check if workload is preemptable";
            mret (Ok (if shouldPreempt : bool then (WorkloadStatusTerminating, conditions ++ [c; preemptedCondition])
                      else (workloadStatus, conditions ++ [c])))
        end
    end
  else mret (Ok (WorkloadStatusPending, [pendingCondition (GetClusterQueueName (wc_DefaultClusterQueueName cfg) (kw_Spec w))])).

Definition quote : string := String (Ascii.ascii_of_nat 34) "".

(** The status the storage imposes on the workload, if any. *)
Definition storageVerdict (hasDownloads : bool) (storageStatus : WorkloadStatus) : outcome (option WorkloadStatus) :=
  if hasDownloads then
    match storageStatus with
    | WorkloadStatusNew | WorkloadStatusPending | WorkloadStatusRunning | WorkloadStatusStarting => Ok (Some WorkloadStatusDownloading)
    | WorkloadStatusFailed => Ok (Some storageStatus)
    | WorkloadStatusComplete => Ok None
    | _ => Err (Errorf ("unexpected storage status " +:+ quote +:+ statusText storageStatus +:+ quote))
    end
  else if decide (storageStatus = WorkloadStatusFailed) then Ok (Some storageStatus) else Ok None.

Definition observeOverallStatus (cfg : WorkloadConfig) (cluster : ClusterContext) (w : KaiwoWorkload)
  : WM (outcome (WorkloadStatus * list Condition)) :=
  let finish conditions :=
    '(workloadStatus, workloadConditions) ←? observeWorkload cfg w (cs_Status (kw_Status w)) else "failed to observe workload status";
    conditions ← mergeConditions conditions workloadConditions;
    mret (Ok (workloadStatus, conditions)) in
  match GetSchedulableCondition (wc_DefaultClusterQueueName cfg) cluster (kw_Namespace w) (kw_Spec w) with
  | None => mret Panics
  | Some schedulable =>
      if decide (cond_Status schedulable = ConditionFalse) then mret (Ok (WorkloadStatusError, [schedulable]))
      else
        match storageSpec w with
        | None => finish [schedulable]
        | Some spec =>
            '(storageStatus, storageConditions) ←? storageObserveStatus mf w spec (cs_Status (kw_Status w))
              else "failed to observe storage status";
            conditions ← mergeConditions [schedulable] storageConditions;
            match storageVerdict (HasDownloads (kw_Storage w)) storageStatus with
            | Ok (Some status) => mret (Ok (status, conditions))
            | Ok None => finish conditions
            | Err e => mret (Err e)
            | Panics => mret Panics
            end
        end
  end.

(** * Recording a new status *)

Definition typeLess (a b : Condition) : bool := Str.lt (cond_Type a) (cond_Type b).

(** Both slices are sorted in place, so the caller sees them sorted. *)
Definition ConditionsEqual (a b : list Condition) : bool * list Condition * list Condition :=
  let a := sortSlice typeLess a in
  let b := sortSlice typeLess b in
  (ConditionsCmp a b, a, b).

Definition statusEvent (s : WorkloadStatus) : option (EventType * string * string) :=
  match s with
  | WorkloadStatusPending => Some (EventTypeNormal, "WorkloadPending", "Workload is pending admission")
  | WorkloadStatusStarting => Some (EventTypeNormal, "WorkloadStarting", "Workload was admitted, starting")
  | WorkloadStatusRunning => Some (EventTypeNormal, "WorkloadRunning", "Workload has started")
  | WorkloadStatusComplete => Some (EventTypeNormal, "WorkloadComplete", "Workload has completed")
  | WorkloadStatusFailed => Some (EventTypeWarning, "WorkloadFailed", "Workload has failed")
  | WorkloadStatusTerminating => Some (EventTypeNormal, "WorkloadTermination", "Workload has been flagged for termination")
  | WorkloadStatusTerminated => Some (EventTypeNormal, "WorkloadTerminated", "Workload has been terminated")
  | WorkloadStatusNew | WorkloadStatusDownloading | WorkloadStatusError => None
  end.

(** What a change of status does: an event, and the start time of a workload that
    begins to run. *)
Definition announce (w : KaiwoWorkload) (newStatus : WorkloadStatus) (start : option Z) : WM (option Z) :=
  _ ← match statusEvent newStatus with Some (type, reason, message) => emit w type reason message | None => mret tt end;
  if decide (newStatus = WorkloadStatusRunning) then now ← currentTime; mret (Some now) else mret start.

Definition measured (s : WorkloadStatus) : bool :=
  match s with
  | WorkloadStatusComplete | WorkloadStatusFailed | WorkloadStatusTerminating | WorkloadStatusRunning => true
  | _ => false
  end.

Definition durationOf (s : WorkloadStatus) (start : option Z) (duration : Z) : WM Z :=
  match start with
  | Some t => if measured s then now ← currentTime; mret (secondsOf (time_sub now t)) else mret duration
  | None => mret duration
  end.

(** [condition != nil && Status == True && ObservedGeneration == 0] of the
    Preemptable condition. *)
Definition preemptableUnobserved (cs : list Condition) : bool :=
  match FindStatusCondition cs PreemptableConditionType with
  | Some i =>
      match cs !! i with
      | Some c => bool_decide (cond_Status c = ConditionTrue ∧ cond_ObservedGeneration c = 0)
      | None => false
      end
  | None => false
  end.

Definition handleStatusTransition (w : KaiwoWorkload) (newStatus : WorkloadStatus) (conditions : list Condition)
  : WM (outcome Result) :=
  let s := kw_Status w in
  cs ← mergeConditions (cs_Conditions s) conditions;
  start ← (if decide (cs_Status s ≠ newStatus) then announce w newStatus (cs_StartTime s) else mret (cs_StartTime s));
  duration ← durationOf newStatus start (cs_Duration s);
  _ ← (if preemptableUnobserved cs then emit w EventTypeNormal "Preemptable" "Workload has exceeded its duration" else mret tt);
  let w := on_status (λ s, set_Duration duration (set_StartTime start (set_Conditions cs (set_Status newStatus s)))) w in
  _ ←? (r ← call (S := WorkSig) (StatusUpdate w); mret (of_sum r)) else "failed to update status";
  mret (Ok requeue).

Definition isActiveStatus (s : WorkloadStatus) : bool :=
  match s with
  | WorkloadStatusNew | WorkloadStatusDownloading | WorkloadStatusPending | WorkloadStatusStarting | WorkloadStatusRunning => true
  | _ => false
  end.

Definition isTerminalStatus (s : WorkloadStatus) : bool :=
  match s with WorkloadStatusComplete | WorkloadStatusTerminated | WorkloadStatusFailed => true | _ => false end.

(** * Local queues *)

Definition createLocalQueue (clusterQueueName name namespace : string) : WM (outcome unit) :=
  cq ←? (r ← call (S := WorkSig) (GetClusterQueue clusterQueueName); mret (of_sum r)) else "failed to get cluster queue";
  let localQueue :=
    {| lq_Meta := {| om_Name := name; om_Namespace := namespace; om_ResourceVersion := 0; om_Finalizers := [];
                     om_DeletionTimestamp := None; om_OwnerReferences := [] |};
       lq_ClusterQueue := clusterQueueName |} in
  localQueue ←? mret (of_sum (SetOwnerReference cq localQueue)) else "failed to set owner reference";
  _ ←? (e ← call (S := WorkSig) (CreateLocalQueue localQueue); mret (of_err e))
    else ("failed to create LocalQueue " +:+ clusterQueueName +:+ " in namespace " +:+ namespace);
  mret (Ok tt).

(** The loop over the configured queues: the first one with the name decides. *)
Fixpoint ensureFrom (queues : list ClusterQueue) (clusterQueueName name namespace : string) : WM (outcome unit) :=
  match queues with
  | [] => mret (Err (Errorf ("the referenced cluster queue " +:+ clusterQueueName +:+ " does not exist within the KaiwoQueueConfig object")))
  | q :: queues' =>
      if decide (clusterQueueName = cq_Name q) then
        match cq_Namespaces q with
        | [] => createLocalQueue clusterQueueName name namespace
        | namespaces =>
            if existsb (λ clusterQueueNamespace, bool_decide (clusterQueueNamespace = clusterQueueName)) namespaces then mret (Ok tt)
            else mret (Err (Errorf ("cluster queue " +:+ cq_Name q +:+
                   " defines one or more namespaces, use one of these namespaces to use this cluster queue")))
        end
      else ensureFrom queues' clusterQueueName name namespace
  end.

Definition EnsureLocalQueue (clusterQueueName name namespace : string) : WM (outcome unit) :=
  got ← call (S := WorkSig) (GetLocalQueue (mkKey namespace name));
  match got with
  | inr _ => mret (Ok tt)
  | inl e =>
      if IsNotFound e then
        qc ←? (r ← call (S := WorkSig) (GetQueueConfigObject KaiwoQueueConfigName); mret (of_sum r)) else "failed to get KaiwoQueueConfig";
        ensureFrom (qs_ClusterQueues (qc_Spec qc)) clusterQueueName name namespace
      else mret (Err (Wrapf "failed to get local queue" e))
  end.

(** * Ensuring objects *)

(** How [%T] prints the type of an object. *)
Definition goType (k : ChildKind) : string :=
  match k with
  | KindDeployment => "*v1.Deployment"
  | KindRayService => "*v1.RayService"
  | KindAppWrapper => "*v1beta2.AppWrapper"
  | KindJob => "*v1.Job"
  | KindRayJob => "*v1.RayJob"
  | KindPersistentVolumeClaim => "*v1.PersistentVolumeClaim"
  | KindConfigMap => "*v1.ConfigMap"
  end.

Definition stampGVK (obj : Child) : outcome GroupVersionKind :=
  match ObjectKinds obj with
  | inl e => Err (Wrapf ("cannot find GVK for " +:+ goType (ch_Kind obj)) e)
  | inr [] => Err (Errorf ("no GVK registered for " +:+ goType (ch_Kind obj)))
  | inr (gvk :: _) => Ok gvk
  end.

Definition apply (cfg : WorkloadConfig) (cluster : ClusterContext) (owner : KaiwoWorkload) (rec : ResourceReconciler) : WM (outcome unit) :=
  desired ←? mret (rr_BuildDesired rec cfg cluster) else "failed to build desired object";
  desired ←? mret (of_sum (SetControllerReferenceOn owner desired)) else "failed to set owner reference for object";
  '(result, desired) ←? (r ← call (S := WorkSig) (CreateOrPatch desired (rr_MutateActual rec)); mret (of_sum r))
    else "failed to apply object";
  gvk ←? mret (stampGVK desired) else "failed to stamp object";
  _ ← match result with
      | OperationResultCreated =>
          emit owner EventTypeNormal "ResourceCreated" ("Created " +:+ GVKText gvk +:+ ": " +:+ ch_Name desired)
      | OperationResultUpdated =>
          emit owner EventTypeNormal "ResourceUpdated" ("Updated " +:+ GVKText gvk +:+ ": " +:+ ch_Name desired)
      | _ => mret tt
      end;
  mret (Ok tt).

Definition reconcileHandler (cfg : WorkloadConfig) (cluster : ClusterContext) (owner : KaiwoWorkload) (recs : list ResourceReconciler)
  : WM (outcome unit) :=
  r ← for_range recs tt (λ rec _,
        o ← apply cfg cluster owner rec;
        mret (match o with
              | Ok _ => Continue tt
              | Err e => Return (Err (Wrapf "failed to reconcile resource" e))
              | Panics => Return Panics
              end));
  mret (match r with inl _ => Ok tt | inr o => o end).

Definition ensureStorageResources (cfg : WorkloadConfig) (cluster : ClusterContext) (w : KaiwoWorkload) : WM (outcome unit) :=
  match storageSpec w with
  | None => mret (Ok tt)
  | Some spec =>
      match storageReconcilers mf (kw_key w) spec with
      | Ok recs => reconcileHandler cfg cluster w recs
      | Err e => mret (Err e)
      | Panics => mret Panics
      end
  end.

Definition ensureLocalQueue (cfg : WorkloadConfig) (w : KaiwoWorkload) : WM (outcome unit) :=
  let queue := GetClusterQueueName (wc_DefaultClusterQueueName cfg) (kw_Spec w) in
  _ ←? EnsureLocalQueue queue queue (kw_Namespace w) else "failed to ensure local queue";
  mret (Ok tt).

Definition ensureWorkloadResources (cfg : WorkloadConfig) (cluster : ClusterContext) (w : KaiwoWorkload) : WM (outcome unit) :=
  _ ←? ensureLocalQueue cfg w else "failed to ensure local queue";
  reconcileHandler cfg cluster w [wr_Resource (workloadHandler mf w)].

Definition ensureStorageOnly (w : KaiwoWorkload) (observedStatus : WorkloadStatus) (conditions : list Condition) : bool :=
  match observedStatus with
  | WorkloadStatusNew => HasDownloads (kw_Storage w) && negb (IsStatusConditionTrue conditions DownloadJobSucceededConditionType)
  | WorkloadStatusDownloading => true
  | _ => false
  end.

Definition ensureAllResources (cfg : WorkloadConfig) (cluster : ClusterContext) (w : KaiwoWorkload) (observedStatus : WorkloadStatus)
    (conditions : list Condition) : WM (outcome unit) :=
  _ ←? ensureStorageResources cfg cluster w else "failed to ensure storage resources";
  if ensureStorageOnly w observedStatus conditions then mret (Ok tt)
  else
    _ ←? ensureWorkloadResources cfg cluster w else "failed to ensure workload resources";
    mret (Ok tt).

(** * Reconcile *)

(** Once the status is up to date: what remains to do at the status observed. *)
Definition finishReconcile (w : KaiwoWorkload) (observedStatus : WorkloadStatus) : WM (outcome Result) :=
  match observedStatus with
  | WorkloadStatusPending =>
      _ ←? CleanupExpiredWorkloads else "failed to cleanup expired workloads";
      mret (Ok done_)
  | WorkloadStatusRunning =>
      after ← ShouldRequeueAfter w;
      mret (Ok (match after with Some d => requeueAfter d | None => done_ end))
  | _ => mret (Ok done_)
  end.

Definition observeAndAct (cfg : WorkloadConfig) (w : KaiwoWorkload) : WM (outcome Result) :=
  cluster ←? GetClusterContext w else "failed to fetch cluster context";
  '(observedStatus, conditions) ←? observeOverallStatus cfg cluster w else "failed to compute observed status";
  let '(equal, conditions, recorded) := ConditionsEqual conditions (cs_Conditions (kw_Status w)) in
  let w := on_status (set_Conditions recorded) w in
  if decide (observedStatus ≠ cs_Status (kw_Status w) ∨ equal = false) then
    result ←? handleStatusTransition w observedStatus conditions else "failed to handle status transition";
    mret (Ok result)
  else if isActiveStatus observedStatus then
    _ ←? ensureAllResources cfg cluster w observedStatus conditions else "failed to ensure all resources";
    finishReconcile w observedStatus
  else finishReconcile w observedStatus.

Definition reconcileWorkload (w : KaiwoWorkload) : WM (outcome Result) :=
  cfg ←? getConfig else "failed to fetch kaiwo config";
  if isTerminalStatus (cs_Status (kw_Status w)) then mret (Ok done_)
  else if decide (cs_Status (kw_Status w) = WorkloadStatusTerminating) then
    _ ←? TerminateWorkload w else "failed to terminate workload";
    mret (Ok done_)
  else observeAndAct cfg w.

Definition kindText (k : WorkloadKind) : string := match k with KindKaiwoJob => "KaiwoJob" | KindKaiwoService => "KaiwoService" end.

(** [Reconcile] of the controller of a kind. *)
Definition reconcileRequest (kind : WorkloadKind) (key : Key) : WM (outcome Result) :=
  got ← call (S := WorkSig) (GetWorkload kind key);
  match got with
  | inl e => mret (match IgnoreNotFound e with Some e => Err (Wrapf ("failed to get " +:+ kindText kind) e) | None => Ok done_ end)
  | inr w =>
      result ←? reconcileWorkload w else ("failed to reconcile " +:+ kindText kind);
      mret (Ok result)
  end.

(** The mapping of the watches: a change to a workload of one kind enqueues the
    running workloads of the other that have a duration. *)
Definition enqueueRunning (kind : WorkloadKind) : WM (list Key) :=
  got ← call (S := WorkSig) (ListWorkloads kind);
  mret (match got with
        | inl _ => []
        | inr ws => kw_key <$> filter (λ w, is_Some (ms_Duration (kw_Spec w)) ∧ cs_Status (kw_Status w) = WorkloadStatusRunning) ws
        end).
End lifecycle.
