(* ===== verification/Observation.v ===== *)
(** What the workload controllers conclude from what they read: the statuses the
    handlers report, admission, and the status of the storage. *)

From stdpp Require Import gmap strings list.
From Stdlib Require Import ZArith Lia.
From S2P Require Import Prelude History Float64 Types Kueue Scheduling GpuResources WorkloadTypes WorkloadApi Naming Handlers Lifecycle.

(** * Statuses *)

Section observation.
Context `{WorkloadLib} `{GoOrder} `{Host} (mf : Manifests).

(** The rank the loop compares with is never raised, so the last status is kept. *)
Lemma DetermineOverallStatus_last l s : DetermineOverallStatus (l ++ [s]) = s.
Proof.
  unfold DetermineOverallStatus. rewrite foldl_snoc. cbv zeta. apply decide_True. destruct s; simpl; lia.
Qed.

Lemma ObserveBatchJob_complete cs failed ready active previous :
  ObserveBatchJob cs failed ready active previous = WorkloadStatusComplete →
  ∃ c, c ∈ cs ∧ cond_Type c = "SuccessCriteriaMet" ∧ cond_Status c = ConditionTrue.
Proof.
  unfold ObserveBatchJob. destruct (jobConditions cs) as [s|] eqn:Ecs.
  - intros ->. induction cs as [|c cs IH]; [done|]. cbn in Ecs. unfold jobCondition in Ecs.
    destruct (decide _) as [[Ht Hs]|_] in Ecs; [exists c; split; [by left|done]|].
    destruct IH as (c' & Hc & ?); [by repeat case_decide|]. exists c'. split; [by right|done].
  - repeat case_decide; try done. by subst.
Qed.

(** * Programs that only read *)

Lemma quiet_GetKueueWorkload ns uid : quiet (GetKueueWorkload ns uid).
Proof. unfold GetKueueWorkload. auto with quiet. Qed.
Local Hint Resolve quiet_GetKueueWorkload : quiet.

Lemma quiet_kueueWorkloadsOf kind key failed : quiet (kueueWorkloadsOf kind key failed).
Proof. unfold kueueWorkloadsOf. auto 6 with quiet. Qed.

Lemma quiet_deploymentKueueWorkloads uid : quiet (deploymentKueueWorkloads uid).
Proof. unfold deploymentKueueWorkloads. auto 8 with quiet. Qed.

Lemma quiet_ObserveOverallStatus recs previous :
  Forall (λ rec, ∀ obj s, quiet (rr_ObserveStatus rec obj s)) recs → quiet (ObserveOverallStatus recs previous).
Proof.
  rewrite Forall_forall. intros Hrecs. unfold ObserveOverallStatus. apply quietly_bind; [|auto with quiet].
  apply quiet_for_range. intros rec [statuses conditions] Hrec. auto 7 with quiet.
Qed.

Lemma quiet_observeRayService obj s : quiet (observeRayService obj s).
Proof. unfold observeRayService. auto with quiet. Qed.
Local Hint Resolve quiet_kueueWorkloadsOf quiet_deploymentKueueWorkloads quiet_observeRayService : quiet.

Lemma quiet_workloadHandler w :
  quiet (wr_GetKueueWorkloads (workloadHandler mf w)) ∧
  ∀ obj s, quiet (rr_ObserveStatus (wr_Resource (workloadHandler mf w)) obj s).
Proof.
  unfold workloadHandler, NewKaiwoJobHandler, NewKaiwoServiceHandler.
  destruct (kw_Kind w), (IsRay w); simpl; split; try (intros obj s; apply quietly_ret); auto with quiet.
Qed.

(** The reconcilers of the storage: volumes, and the two of a download. *)
Lemma storageReconcilers_forall key spec recs (P : ResourceReconciler → Prop) :
  (∀ k a r, NewPvcReconciler mf k a spec = Ok r → P r) → P (NewDownloadConfigMapReconciler mf key spec) →
  P (NewDownloadJobReconciler mf key spec) → storageReconcilers mf key spec = Ok recs → Forall P recs.
Proof.
  intros Hpvc Hcm Hjob. unfold storageReconcilers.
  assert (∀ (b : bool) k a l, (if b then match NewPvcReconciler mf k a spec with Ok r => Ok [r] | _ => Panics end else Ok []) = Ok l →
    Forall P l) as Hone.
  { intros [] k a l; [|by intros [= <-]]. destruct (NewPvcReconciler mf k a spec) eqn:E; [|done..]. intros [= <-].
    apply Forall_singleton. by eapply Hpvc. }
  destruct (match ss_Data spec with Some _ => _ | None => _ end) as [d|?|] eqn:Ed; [|done..].
  destruct (match ss_HuggingFace spec with Some _ => _ | None => _ end) as [h|?|] eqn:Eh; [|done..]. intros [= <-].
  assert (Forall P d) by (destruct (ss_Data spec); [by eapply Hone|by simplify_eq]).
  assert (Forall P h) by (destruct (ss_HuggingFace spec); [by eapply Hone|by simplify_eq]).
  rewrite !Forall_app. split; [done|]. split; [done|]. match goal with |- Forall _ (if ?b then _ else _) => destruct b end; repeat constructor; done.
Qed.

Lemma quiet_storageReconcilers key spec recs :
  storageReconcilers mf key spec = Ok recs → Forall (λ rec, ∀ obj s, quiet (rr_ObserveStatus rec obj s)) recs.
Proof.
  apply storageReconcilers_forall; [|intros obj s; apply quietly_ret..].
  unfold NewPvcReconciler. intros k a r. destruct (ParseQuantity a); [|done]. intros [= <-] obj s. apply quietly_ret.
Qed.

Lemma quiet_mergeConditions base new : quiet (mergeConditions base new).
Proof. unfold mergeConditions, currentTime. auto 6 with quiet. Qed.

Lemma quiet_GetPreemptableCondition w : quiet (GetPreemptableCondition w).
Proof. unfold GetPreemptableCondition, GetRemainingTimeBeforeBecomingPreemptable, currentTime. auto 8 with quiet. Qed.

Lemma quiet_demandFrom cfg q v ws : quiet (demandFrom cfg q v ws).
Proof. unfold demandFrom, isPendingForLong, currentTime. auto 8 with quiet. Qed.
Local Hint Resolve quiet_mergeConditions quiet_GetPreemptableCondition quiet_demandFrom : quiet.

Lemma quiet_ShouldPreempt cfg w : quiet (ShouldPreempt cfg w).
Proof. unfold ShouldPreempt, ClusterHasGpuDemand, currentTime. auto 12 with quiet. Qed.
Local Hint Resolve quiet_ShouldPreempt : quiet.

Lemma quiet_observeWorkload cfg w previous : quiet (observeWorkload mf cfg w previous).
Proof.
  destruct (quiet_workloadHandler w) as [Hk Ho]. unfold observeWorkload, IsAdmitted.
  apply quiet_orFail; [auto with quiet|]. intros admitted. apply quiet_orFail; [|intros [status conds]; auto 8 with quiet].
  by apply quiet_ObserveOverallStatus, Forall_singleton.
Qed.

Lemma quiet_storageObserveStatus w spec previous : quiet (storageObserveStatus mf w spec previous).
Proof.
  unfold storageObserveStatus. destruct (storageReconcilers _ _ _) as [recs|?|] eqn:E; [|apply quietly_ret..].
  apply quietly_bind; [|auto with quiet]. by eapply quiet_ObserveOverallStatus, quiet_storageReconcilers.
Qed.
Local Hint Resolve quiet_observeWorkload quiet_storageObserveStatus : quiet.

Lemma quiet_observeOverallStatus cfg cluster w : quiet (observeOverallStatus mf cfg cluster w).
Proof.
  unfold observeOverallStatus. destruct (GetSchedulableCondition _ _ _ _) as [c|]; [|apply quietly_ret].
  case_decide; [apply quietly_ret|]. destruct (storageSpec w) as [spec|]; auto 12 with quiet.
Qed.

(** * The statuses that can be observed *)

(** No handler of a workload object reports that it is being terminated. *)
Lemma workloadHandler_reports w obj previous :
  always anything (rr_ObserveStatus (wr_Resource (workloadHandler mf w)) obj previous)
    (λ _ o, ∀ s cs, o = Ok (Some s, cs) → s ≠ WorkloadStatusTerminating).
Proof.
  assert (∀ cs f r a p, ObserveBatchJob cs f r a p ≠ WorkloadStatusTerminating) as Hjob.
  { intros cs f r a p. unfold ObserveBatchJob. destruct (jobConditions cs) eqn:E; [|repeat case_decide; congruence].
    induction cs as [|c cs IH]; [done|]. cbn in E. unfold jobCondition in E. repeat case_decide; simplify_eq; auto. }
  unfold workloadHandler, NewKaiwoJobHandler, NewKaiwoServiceHandler. destruct (kw_Kind w), (IsRay w); simpl.
  - unfold observeRayJob. simpl. intros s cs. destruct (ch_Status obj); repeat case_decide; congruence.
  - unfold observeBatchJobObject. simpl. intros s cs. destruct (ch_Status obj); try done. intros [= <- <-]. apply Hjob.
  - intros got _ s cs. repeat case_match; congruence.
  - unfold observeDeployment. simpl. intros s cs. destruct (ch_Status obj); repeat case_match; congruence.
Qed.

(** One object: not there, or what its reconciler reports. *)
Lemma ObserveOverallStatus_one rec previous (P : WorkloadStatus → Prop) :
  (∀ obj, always anything (rr_ObserveStatus rec obj previous) (λ _ o, ∀ s cs, o = Ok (Some s, cs) → P s)) →
  always anything (ObserveOverallStatus [rec] previous) (λ _ o, ∀ st cs, o = Ok (st, cs) → ∃ s, st = Some s ∧ (s = WorkloadStatusNew ∨ P s)).
Proof.
  intros Hrec. unfold ObserveOverallStatus. apply always_bind. refine (proj2 (always_bind _ _ _ _) _). on_call got. destruct got as [e|obj].
  { destruct (IsNotFound e); simpl; intros st cs Heq; simplify_eq; eauto. }
  rewrite always_bind. eapply always_mono; [apply Hrec|]. intros tr [[[s|] cs]|e|] Ho; simpl; intros st cs' Heq; simplify_eq; eauto.
  exists s. split; [f_equal; apply (DetermineOverallStatus_last [])|]. right. by eapply Ho.
Qed.

(** The time a workload may run is over, by the clock of the trace. *)
Definition overdue (tr : trace WorkSig) (w : KaiwoWorkload) : Prop :=
  cs_Status (kw_Status w) = WorkloadStatusRunning ∧
  ∃ duration start now, ms_Duration (kw_Spec w) = Some duration ∧ cs_StartTime (kw_Status w) = Some start ∧
    ev (S := WorkSig) CurrentTime now ∈ tr ∧ start + duration < now.

Lemma overdue_sub tr tr' w : tr ⊆ tr' → overdue tr w → overdue tr' w.
Proof. intros Hsub (? & d & start & now & ? & ? & Hin & ?). split; [done|]. exists d, start, now. auto. Qed.

Lemma ShouldPreempt_overdue cfg w :
  always anything (ShouldPreempt cfg w) (λ tr o, o = Ok true → overdue tr w).
Proof.
  unfold ShouldPreempt. destruct (ms_Duration _) as [d|] eqn:Ed; [|done].
  destruct (cs_Status _) eqn:Es; try done. destruct (cs_StartTime _) as [start|] eqn:Et; [|done].
  on_call now. case_decide; [|done]. skip_run. intros tr o _ _.
  split; [done|]. exists d, start, now. repeat split; auto. by left.
Qed.

Lemma observeWorkload_status cfg w previous :
  always anything (observeWorkload mf cfg w previous) (λ tr o, ∀ s cs, o = Ok (s, cs) →
    s ≠ WorkloadStatusNew ∧ (s = WorkloadStatusTerminating → overdue tr w)).
Proof.
  unfold observeWorkload. apply always_orFail. skip_run. intros tr1 [admitted|e|] _; [|done..].
  apply always_orFail. eapply always_mono; [apply (ObserveOverallStatus_one _ _ (λ s, s ≠ WorkloadStatusTerminating)); intros obj; apply workloadHandler_reports|].
  intros tr2 [[st conds]|e|] Hst; [|done..]. destruct (Hst st conds eq_refl) as (s1 & -> & Hs1).
  destruct admitted; [|simpl; intros s cs [= <- <-]; done].
  assert (startedStatus (Some s1) ≠ WorkloadStatusNew ∧ startedStatus (Some s1) ≠ WorkloadStatusTerminating) as [Hn Ht]
    by (destruct s1; naive_solver).
  destruct (ms_Duration (kw_Spec w)) as [d|] eqn:Ed; [|simpl; intros s cs [= <- <-]; done].
  apply always_bind. skip_run. intros tr3 [c|] _; [|simpl; intros s cs [= <- <-]; done].
  apply always_orFail. eapply always_mono; [apply ShouldPreempt_overdue|]. intros tr4 [[]|e|] Ho; simpl; [| |done..].
  - intros s cs [= <- <-]. split; [done|]. intros _. eapply overdue_sub, Ho; [set_solver|done].
  - intros s cs [= <- <-]. done.
Qed.

(** * Downloads *)

(** The download job was read, and it had succeeded. *)
Definition downloaded (tr : trace WorkSig) (key : Key) : Prop :=
  ∃ job cs failed ready active c, ev (S := WorkSig) (GetChild KindJob (downloadKey key)) (inr job) ∈ tr ∧
    ch_Status job = JobStatus cs failed ready active ∧ c ∈ cs ∧ cond_Type c = "SuccessCriteriaMet" ∧ cond_Status c = ConditionTrue.

Lemma downloaded_sub tr tr' key : tr ⊆ tr' → downloaded tr key → downloaded tr' key.
Proof. intros Hsub (job & cs & f & r & a & c & Hin & ?). exists job, cs, f, r, a, c. auto. Qed.

(** A group is in the state of its last object, when that object reports one. *)
Lemma ObserveOverallStatus_last recs rec previous (P : Child → WorkloadStatus → Prop) :
  (∀ obj, always anything (rr_ObserveStatus rec obj previous) (λ _ o, ∀ st cs, o = Ok (st, cs) → ∃ s, st = Some s ∧ P obj s)) →
  always anything (ObserveOverallStatus (recs ++ [rec]) previous) (λ tr o, ∀ st cs, o = Ok (st, cs) →
    st = Some WorkloadStatusNew ∨
    ∃ obj s, st = Some s ∧ P obj s ∧ ev (S := WorkSig) (GetChild (rr_Kind rec) (rr_Key rec)) (inr obj) ∈ tr).
Proof.
  intros Hrec. unfold ObserveOverallStatus. apply always_bind.
  set (good := λ (tr : trace WorkSig) (s : WorkloadStatus), ∃ obj, P obj s ∧
    ev (S := WorkSig) (GetChild (rr_Kind rec) (rr_Key rec)) (inr obj) ∈ tr).
  eapply always_mono.
  - apply (always_for_range anything
      (λ rest tr '(statuses, _), ∃ pre, recs ++ [rec] = pre ++ rest ∧ (rest = [] → ∃ ss s, statuses = ss ++ [s] ∧ good tr s))
      (λ tr '(statuses, _), ∃ ss s, statuses = ss ++ [s] ∧ good tr s)
      (λ _ o, ∀ st cs, o = Ok (st, cs) → st = Some WorkloadStatusNew)) with (tr0 := []).
    + intros tr [statuses conds] (pre & _ & Hdone). auto.
    + intros x l tr [statuses conds] (pre & Epre & _). on_call got. destruct got as [e|obj].
      { destruct (IsNotFound e); simpl; intros st cs Heq; simplify_eq; done. }
      assert (l = [] → x = rec) as Hlast.
      { intros ->. by apply app_inj_tail in Epre as [_ ?]. }
      assert (recs ++ [rec] = (pre ++ [x]) ++ l) as Epre' by (rewrite <- app_assoc; exact Epre).
      destruct l as [|y l].
      * specialize (Hlast eq_refl) as ->. apply always_bind. eapply always_mono; [apply Hrec|].
        intros tr' [[st cs]|e|] Ho; simpl; [|done..]. destruct (Ho st cs eq_refl) as (s & -> & HP).
        exists (pre ++ [rec]). split; [done|]. intros _. exists statuses, s. split; [done|].
        exists obj. split; [done|]. rewrite elem_of_app. right. by left.
      * apply always_bind. skip_run. intros tr' [[st cs]|e|] _; simpl; [|done..].
        exists (pre ++ [x]). split; [done|]. done.
    + exists []. split; [done|]. by destruct recs.
  - intros tr [[statuses conds]|o] Hr; simpl.
    + destruct Hr as (ss & s & -> & obj & HP & Hin). intros st cs. destruct (ss ++ [s]) eqn:E; [by destruct ss|].
      rewrite <- E, DetermineOverallStatus_last. intros [= <- <-]. right. exists obj, s. by rewrite app_nil_r.
    + intros st cs Ho. left. by eapply Hr.
Qed.

Lemma observeDownloadJob_reports obj previous :
  always anything (observeDownloadJob obj previous) (λ _ o, ∀ st cs, o = Ok (st, cs) → ∃ s, st = Some s ∧
    (s = WorkloadStatusComplete → ∃ js failed ready active c, ch_Status obj = JobStatus js failed ready active ∧ c ∈ js ∧
       cond_Type c = "SuccessCriteriaMet" ∧ cond_Status c = ConditionTrue)).
Proof.
  unfold observeDownloadJob. simpl. intros st cs. destruct (ch_Status obj) as [js failed ready active| | | | |]; try done.
  destruct (ObserveBatchJob js failed ready active previous) eqn:E; intros Heq; simplify_eq; eexists; split; try done.
  intros _. destruct (ObserveBatchJob_complete _ _ _ _ _ E) as (c & Hc). by exists js, failed, ready, active, c.
Qed.

(** The download job comes last, so its status is that of the storage. *)
Lemma storageReconcilers_last key spec recs :
  storageReconcilers mf key spec = Ok recs → HasDownloads (Some spec) = true →
  ∃ recs', recs = recs' ++ [NewDownloadJobReconciler mf key spec].
Proof.
  unfold storageReconcilers. intros Hr Hd. rewrite Hd in Hr.
  destruct (match ss_Data spec with Some _ => _ | None => _ end) as [d|?|]; [|done..].
  destruct (match ss_HuggingFace spec with Some _ => _ | None => _ end) as [h|?|]; [|done..]. simplify_eq.
  exists (d ++ h ++ [NewDownloadConfigMapReconciler mf key spec]). by rewrite <- !app_assoc.
Qed.

Lemma storageObserveStatus_complete w spec previous :
  always anything (storageObserveStatus mf w spec previous) (λ tr o, HasDownloads (Some spec) = true →
    ∀ cs, o = Ok (WorkloadStatusComplete, cs) → downloaded tr (kw_key w)).
Proof.
  destruct (HasDownloads (Some spec)) eqn:Hd; [|eapply always_mono; [apply always_true|done]]. unfold storageObserveStatus. destruct (storageReconcilers _ _ _) as [recs|?|] eqn:E; [|done..].
  destruct (storageReconcilers_last _ _ _ E Hd) as [recs' ->]. apply always_bind.
  eapply always_mono; [apply ObserveOverallStatus_last; intros obj; apply observeDownloadJob_reports|].
  intros tr [[[s|] cs]|e|] Ho; simpl; intros _ cs' Heq; simplify_eq.
  destruct (Ho _ _ eq_refl) as [?|(obj & s & [= <-] & Hdone & Hin)]; [done|].
  destruct (Hdone eq_refl) as (js & failed & ready & active & c & ? & ? & ? & ?).
  exists obj, js, failed, ready, active, c. by rewrite app_nil_r.
Qed.

(** What the overall status tells about what was read. *)
Definition tells (w : KaiwoWorkload) (tr : trace WorkSig) (s : WorkloadStatus) : Prop :=
  s ≠ WorkloadStatusNew ∧ (s = WorkloadStatusTerminating → overdue tr w) ∧
  (∀ spec, storageSpec w = Some spec → HasDownloads (Some spec) = true →
     s ∈ [WorkloadStatusPending; WorkloadStatusStarting; WorkloadStatusRunning] → downloaded tr (kw_key w)).

Lemma storageSpec_enabled w spec : storageSpec w = Some spec → kw_Storage w = Some spec.
Proof. unfold storageSpec. destruct (kw_Storage w) as [s|]; [destruct (ss_StorageEnabled s)|]; congruence. Qed.

Lemma tells_stopped w tr s :
  s ∈ [WorkloadStatusDownloading; WorkloadStatusFailed; WorkloadStatusError] → tells w tr s.
Proof.
  rewrite !elem_of_cons, elem_of_nil. intros Hs. split; [naive_solver|]. split; [naive_solver|].
  intros spec _ _. rewrite !elem_of_cons, elem_of_nil. naive_solver.
Qed.

Lemma storageVerdict_spec hasDownloads s :
  match storageVerdict hasDownloads s with
  | Ok (Some v) => v ∈ [WorkloadStatusDownloading; WorkloadStatusFailed; WorkloadStatusError]
  | Ok None => hasDownloads = true → s = WorkloadStatusComplete
  | _ => True
  end.
Proof.
  unfold storageVerdict. destruct hasDownloads; [destruct s; try done; (left + right; left)|].
  case_decide; [subst; right; left|done].
Qed.

Lemma observeOverallStatus_tells cfg cluster w :
  always anything (observeOverallStatus mf cfg cluster w) (λ tr o, ∀ s cs, o = Ok (s, cs) → tells w tr s).
Proof.
  unfold observeOverallStatus. destruct (GetSchedulableCondition _ _ _ _) as [c|]; [|done].
  case_decide.
  { simpl. intros s cs [= <- <-]. apply tells_stopped. by right; right; left. }
  assert (∀ tr0 conds, (∀ spec, storageSpec w = Some spec → HasDownloads (Some spec) = true → downloaded tr0 (kw_key w)) →
    always anything ('(ws, wcs) ←? observeWorkload mf cfg w (cs_Status (kw_Status w)) else "failed to observe workload status";
       conds ← mergeConditions conds wcs; mret (Ok (ws, conds)))
      (λ tr o, ∀ s cs, o = Ok (s, cs) → tells w (tr0 ++ tr) s)) as Hfinish.
  { intros tr0 conds Hdl. apply always_orFail. eapply always_mono; [apply observeWorkload_status|].
    intros tr1 [[s1 cs1]|e|] Hs1; [|done..]. destruct (Hs1 _ _ eq_refl) as [Hn Ht]. apply always_bind.
    skip_run. intros tr2 merged _. simpl. intros s cs [= <- <-].
    rewrite app_nil_r. split; [done|]. split.
    - intros Es. eapply overdue_sub, Ht, Es. set_solver.
    - intros spec Hspec Hd _. eapply downloaded_sub, Hdl; [set_solver|done..]. }
  destruct (storageSpec w) as [spec|] eqn:Espec; [|by apply (Hfinish [])].
  pose proof (storageSpec_enabled _ _ Espec) as Est. rewrite Est. apply always_orFail. eapply always_mono; [apply storageObserveStatus_complete|].
  intros tr [[ss scs]|e|] Hs; [|done..]. apply always_bind. skip_run. intros tr' conds _.
  pose proof (storageVerdict_spec (HasDownloads (Some spec)) ss) as Hv.
  destruct (storageVerdict _ ss) as [[v|]|e|]; simpl; [|..|done|done].
  - intros s cs [= <- <-]. by apply tells_stopped.
  - eapply always_mono; [apply (Hfinish (tr ++ tr') conds)|intros tr'' o; by rewrite app_assoc].
    intros spec' [= <-] Hd. specialize (Hv Hd) as ->. eapply downloaded_sub, Hs; [set_solver|done..].
Qed.

(** * The conditions that can be observed *)

Definition observedTypes : list string :=
  [SchedulableType; PvcReadyConditionType; DownloadJobSucceededConditionType; WorkloadAdmittedType; PreemptableConditionType;
   WorkloadEarlyTerminationConditionType].

Abbreviation known := (Forall (λ c, cond_Type c ∈ observedTypes)).
Abbreviation reports_known p := (always anything p (λ _ o, ∀ st cs, o = Ok (st, cs) → known cs)).

Lemma firstOf_elem t cs i c : firstOf t cs = Some (i, c) → cs !! i = Some c ∧ cond_Type c = t.
Proof. unfold firstOf. intros Hf. by apply list_find_Some in Hf as (? & ? & _). Qed.

Lemma SetStatusCondition_types now cs c (P : string → Prop) :
  Forall (λ c, P (cond_Type c)) cs → P (cond_Type c) → Forall (λ c, P (cond_Type c)) (SetStatusCondition now cs c).
Proof.
  intros Hcs Hc. destruct (firstOf (cond_Type c) cs) as [[i old]|] eqn:E.
  - destruct (SetStatusCondition_old now cs c i old E) as (t & -> & _). by apply Forall_insert.
  - rewrite SetStatusCondition_new by done. apply Forall_app. split; [done|]. by apply Forall_singleton.
Qed.

(** No type of condition is lost. *)
Lemma SetStatusCondition_keeps now cs c t :
  t ∈ cond_Type <$> cs → t ∈ cond_Type <$> SetStatusCondition now cs c.
Proof.
  intros Ht. destruct (firstOf (cond_Type c) cs) as [[i old]|] eqn:E.
  - destruct (SetStatusCondition_old now cs c i old E) as (t' & -> & _). destruct (firstOf_elem _ _ _ _ E) as [Hi Hty].
    rewrite list_fmap_insert. simpl. rewrite list_insert_id; [done|]. rewrite list_lookup_fmap, Hi. simpl. by rewrite Hty.
  - rewrite SetStatusCondition_new by done. rewrite fmap_app. apply elem_of_app. by left.
Qed.

Lemma mergeConditions_types base new (P : string → Prop) :
  Forall (λ c, P (cond_Type c)) base → Forall (λ c, P (cond_Type c)) new →
  always anything (mergeConditions base new) (λ _ cs, Forall (λ c, P (cond_Type c)) cs).
Proof.
  intros Hb Hn. unfold mergeConditions. revert base Hb. induction Hn as [|c new Hc Hn IH]; intros base Hb; [done|].
  refine (proj2 (always_bind _ _ _ _) _). on_call now. apply (IH (SetStatusCondition now base c)). by apply SetStatusCondition_types.
Qed.

Lemma mergeConditions_keeps base new t :
  t ∈ cond_Type <$> base → always anything (mergeConditions base new) (λ _ cs, t ∈ cond_Type <$> cs).
Proof.
  unfold mergeConditions. revert base. induction new as [|c new IH]; intros base Hb; [done|].
  refine (proj2 (always_bind _ _ _ _) _). on_call now. apply (IH (SetStatusCondition now base c)). by apply SetStatusCondition_keeps.
Qed.

Lemma ObserveOverallStatus_conditions recs previous :
  Forall (λ rec, ∀ obj s, reports_known (rr_ObserveStatus rec obj s)) recs → reports_known (ObserveOverallStatus recs previous).
Proof.
  rewrite Forall_forall. intros Hrecs. unfold ObserveOverallStatus. apply always_bind. eapply always_mono.
  - apply (always_for_range_closed anything (λ _, True) (λ '(_, conds), known conds) (λ o, ∀ st cs, o = Ok (st, cs) → known cs)); [done..| |].
    { constructor. }
    intros rec [statuses conds] Hrec Hc. on_call got. destruct got as [e|obj].
    { destruct (IsNotFound e); simpl; split; try done; intros st cs Heq; simplify_eq. constructor. }
    apply always_bind. eapply always_mono; [by apply (Hrecs rec Hrec)|]. intros tr [[st cs]|e|] Ho; simpl; split; try done.
    apply Forall_app. split; [done|]. by eapply Ho.
  - intros tr [[[|s statuses] conds]|o] [_ Hr]; simpl; intros st cs Heq; simplify_eq; [constructor|done|]. by eapply Hr.
Qed.

Lemma storageReconcilers_conditions key spec recs :
  storageReconcilers mf key spec = Ok recs → Forall (λ rec, ∀ obj s, reports_known (rr_ObserveStatus rec obj s)) recs.
Proof.
  apply storageReconcilers_forall.
  - unfold NewPvcReconciler. intros k a r. destruct (ParseQuantity a); [|done]. intros [= <-] obj s. simpl.
    intros st cs. destruct (ch_Status obj) as [| | | |ph|]; try done. destruct ph; intros [= <- <-]; apply Forall_singleton; right; left.
  - simpl. intros obj s st cs [= <- <-]. constructor.
  - simpl. intros obj s st cs. destruct (ch_Status obj); try done.
    destruct (ObserveBatchJob _ _ _ _ _); intros Heq; simplify_eq; apply Forall_singleton; right; right; left.
Qed.

Lemma workloadHandler_conditions w obj s : reports_known (rr_ObserveStatus (wr_Resource (workloadHandler mf w)) obj s).
Proof.
  unfold workloadHandler, NewKaiwoJobHandler, NewKaiwoServiceHandler. destruct (kw_Kind w), (IsRay w); simpl.
  - intros st cs. destruct (ch_Status obj); repeat case_decide; intros Heq; simplify_eq; constructor.
  - intros st cs. destruct (ch_Status obj); intros Heq; simplify_eq; constructor.
  - intros got _ st cs. repeat case_match; intros Heq; simplify_eq; constructor.
  - intros st cs. destruct (ch_Status obj); repeat case_match; intros Heq; simplify_eq; constructor.
Qed.

Lemma GetPreemptableCondition_type w :
  always anything (GetPreemptableCondition w) (λ _ c, ∀ c', c = Some c' → cond_Type c' = PreemptableConditionType).
Proof.
  unfold GetPreemptableCondition. apply always_bind. skip_run.
  intros tr [r|] _ c' Heq; simpl in Heq; [|done]. by case_decide; simplify_eq.
Qed.

Lemma observeWorkload_conditions cfg w previous : reports_known (observeWorkload mf cfg w previous).
Proof.
  unfold observeWorkload. apply always_orFail. skip_run. intros tr1 [admitted|e|] _; [|done..].
  apply always_orFail. eapply always_mono.
  { apply ObserveOverallStatus_conditions, Forall_singleton. apply workloadHandler_conditions. }
  intros tr2 [[st conds]|e|] Hcs; [|done..]. specialize (Hcs _ _ eq_refl).
  assert (known (admittedCondition :: conds)) as Hadm by (constructor; [by right; right; right; left|done]).
  destruct admitted; [|intros s cs [= <- <-]; apply Forall_singleton; right; right; right; left].
  destruct (ms_Duration _); [|intros s cs [= <- <-]; exact Hadm]. apply always_bind.
  eapply always_mono; [apply GetPreemptableCondition_type|].
  intros tr3 [c|] Hc; [|intros s cs [= <- <-]; exact Hadm]. specialize (Hc c eq_refl).
  apply always_orFail. skip_run. intros tr4 [[]|e|] _; [..|done|done]; intros s cs [= <- <-].
  all: apply (Forall_app _ (admittedCondition :: conds)); split; [exact Hadm|]; apply Forall_cons; rewrite Hc.
  - split; [by do 4 right; left|]. apply Forall_singleton. by do 5 right; left.
  - split; [by do 4 right; left|done].
Qed.

Lemma GetSchedulableCondition_type q ctx ns spec c : GetSchedulableCondition q ctx ns spec = Some c → cond_Type c = SchedulableType.
Proof.
  unfold GetSchedulableCondition, getQueueConfigCondition, getGpuSchedulableCondition. case_decide.
  - intros [= <-]. induction (cc_ClusterQueues ctx) as [|cq cqs IH]; [done|]. cbn in *. case_decide; [|auto]. by repeat case_match.
  - destruct (CalculateResourceConfig _ _ _); [|done]. simpl. intros [= <-]. by repeat case_decide.
Qed.

(** What is observed is a nonempty list of conditions of these types. *)
Lemma observeOverallStatus_conditions cfg cluster w :
  always anything (observeOverallStatus mf cfg cluster w) (λ _ o, ∀ s cs, o = Ok (s, cs) → cs ≠ [] ∧ known cs).
Proof.
  unfold observeOverallStatus. destruct (GetSchedulableCondition _ _ _ _) as [c|] eqn:Ec; [|done].
  apply GetSchedulableCondition_type in Ec.
  assert (known [c]) as Hc by (apply Forall_singleton; rewrite Ec; by left).
  case_decide; [intros s cs [= <- <-]; by split|].
  assert (∀ base new, known base → known new → SchedulableType ∈ cond_Type <$> base →
    always anything (mergeConditions base new) (λ _ cs, known cs ∧ SchedulableType ∈ cond_Type <$> cs)) as Hmerge.
  { intros base new Hb Hn Hin. apply always_both; [by apply (mergeConditions_types base new (.∈ observedTypes))|].
    by apply mergeConditions_keeps. }
  assert (∀ conds, known conds → SchedulableType ∈ cond_Type <$> conds →
    always anything ('(ws, wcs) ←? observeWorkload mf cfg w (cs_Status (kw_Status w)) else "failed to observe workload status";
       conds ← mergeConditions conds wcs; mret (Ok (ws, conds)))
      (λ tr o, ∀ s cs, o = Ok (s, cs) → cs ≠ [] ∧ known cs)) as Hfinish.
  { intros conds Hk Hin. apply always_orFail. eapply always_mono; [apply observeWorkload_conditions|].
    intros tr1 [[s1 cs1]|e|] Hs1; [|done..]. apply always_bind. eapply always_mono; [apply (Hmerge _ _ Hk (Hs1 _ _ eq_refl) Hin)|].
    intros tr2 cs2 [Hk2 Hin2] s cs [= <- <-]. split; [|done]. intros ->. by apply elem_of_nil in Hin2. }
  destruct (storageSpec w) as [spec|]; [|apply Hfinish; [done|]; rewrite <- Ec; by left].
  apply always_orFail. eapply always_mono.
  { unfold storageObserveStatus. destruct (storageReconcilers _ _ _) as [recs|?|] eqn:E.
    - apply always_bind. eapply always_mono; [by eapply ObserveOverallStatus_conditions, storageReconcilers_conditions|].
      intros tr o Ho. instantiate (1 := λ _ o, ∀ s cs, o = Ok (s, cs) → known cs).
      destruct o as [[[s|] cs]|e|]; intros s' cs' Heq; simplify_eq; by eapply Ho.
    - by intros s cs.
    - by intros s cs. }
  intros tr1 [[ss scs]|e|] Hs; [|done..]. apply always_bind.
  eapply always_mono; [apply (Hmerge _ _ Hc (Hs _ _ eq_refl)); rewrite <- Ec; by left|]. intros tr2 cs2 [Hk2 Hin2].
  destruct (storageVerdict _ ss) as [[v|]|e|]; [..|done|done].
  - intros s cs [= <- <-]. split; [|done]. intros ->. by apply elem_of_nil in Hin2.
  - by apply Hfinish.
Qed.
End observation.
