(* ===== verification/WorkloadSafety.v ===== *)
(** What the workload controllers write, and why they may. Every status written is
    a step of the life cycle of a workload, resources are ensured only for a
    workload whose recorded status was confirmed, and deleted only for one that is
    recorded as terminated. *)

From stdpp Require Import gmap strings list.
From Stdlib Require Import ZArith Lia.
From S2P Require Import Prelude History Float64 Types Kueue Scheduling GpuResources WorkloadTypes WorkloadApi Handlers Lifecycle Observation.

(** * The life cycle *)

Abbreviation statusOf w := (cs_Status (kw_Status w)).

(** The statuses that are final, and those a workload can leave by observation. *)
Definition over (s : WorkloadStatus) : Prop :=
  s = WorkloadStatusComplete ∨ s = WorkloadStatusFailed ∨ s = WorkloadStatusTerminated.
Definition live (s : WorkloadStatus) : Prop := ¬ over s ∧ s ≠ WorkloadStatusTerminating.

Lemma isTerminalStatus_spec s : isTerminalStatus s = true ↔ over s.
Proof. unfold over. destruct s; simpl; split; try done; naive_solver. Qed.

(** The steps of the life cycle: a live workload moves to what is observed, which
    is never NEW again; it may be flagged; a flagged one is terminated. *)
Inductive lifecycle : WorkloadStatus → WorkloadStatus → Prop :=
| lifecycle_observe s s' : live s → s' ≠ WorkloadStatusNew → s' ≠ WorkloadStatusTerminating → lifecycle s s'
| lifecycle_flag s : live s → lifecycle s WorkloadStatusTerminating
| lifecycle_terminate : lifecycle WorkloadStatusTerminating WorkloadStatusTerminated.

Section safety.
Context `{WorkloadLib} `{GoOrder} `{Host} (mf : Manifests) (kind : WorkloadKind) (key : Key).

Abbreviation history := (trace WorkSig).
Abbreviation happened r x h := (ev (S := WorkSig) r x ∈ h).

(** * What accounts for a write *)

(** The workload that is reconciled, as it was read. *)
Definition fetched (h : history) (w : KaiwoWorkload) : Prop := happened (GetWorkload kind key) (inr w) h.

(** A status write: the next status of the workload itself, flagged only when its
    time is over; or the flag of an expired workload, for one that is pending. *)
Definition nextStatus (h : history) (w' : KaiwoWorkload) : Prop :=
  ∃ w f, fetched h w ∧ w' = on_status f w ∧ lifecycle (statusOf w) (statusOf w') ∧
    (statusOf w' = WorkloadStatusTerminating → overdue h w).

Definition flagsExpired (h : history) (w' : KaiwoWorkload) : Prop :=
  ∃ w kd ws w0 now, fetched h w ∧ statusOf w = WorkloadStatusPending ∧ happened (ListWorkloads kd) (inr ws) h ∧ w0 ∈ ws ∧
    expired w0 = true ∧ w' = on_status (flagTerminating now expiredCondition) w0.

(** A deletion: the workload was to be terminated, is recorded as terminated, and
    is the controller of the object. *)
Definition mayDelete (h : history) (c : Child) : Prop :=
  ∃ w w1 w2 k cs o, fetched h w ∧ statusOf w = WorkloadStatusTerminating ∧
    happened (StatusUpdate w1) (inr w2) h ∧ kw_key w1 = kw_key w ∧ statusOf w1 = WorkloadStatusTerminated ∧
    k ∈ resourceTypes ∧ happened (ListChildren k (kw_Namespace w2)) (inr cs) h ∧ c ∈ cs ∧
    o ∈ ch_OwnerReferences c ∧ or_UID o = kw_UID w2 ∧ or_Controller o = Some true.

(** The workload is active and nothing was written to a status: the recorded
    status is the one that was observed. *)
Definition confirmed (h : history) (w : KaiwoWorkload) : Prop :=
  fetched h w ∧ isActiveStatus (statusOf w) = true ∧ ∀ w1 r, ¬ happened (StatusUpdate w1) r h.

(** What the workload needs before it is started. *)
Definition startable (h : history) (w : KaiwoWorkload) : Prop :=
  confirmed h w ∧ statusOf w ≠ WorkloadStatusDownloading ∧
  ∀ spec, storageSpec w = Some spec → HasDownloads (Some spec) = true → downloaded h (kw_key w).

(** An object that is applied: built by a reconciler of the storage, or the
    workload's own, and controlled by the workload. *)
Definition mayApply (h : history) (d : Child) : Prop :=
  ∃ w f cfg cluster rec d0, confirmed h w ∧ rr_BuildDesired rec cfg cluster = Ok d0 ∧
    SetControllerReferenceOn (on_status f w) d0 = inr d ∧
    ((∃ spec recs, storageSpec w = Some spec ∧ storageReconcilers mf (kw_key w) spec = Ok recs ∧ rec ∈ recs) ∨
     (startable h w ∧ ∃ g, rec = wr_Resource (workloadHandler mf (on_status g w)))).

Definition mayCreateQueue (h : history) (l : KueueLocalQueue) : Prop :=
  ∃ w cfg e qc q, startable h w ∧ lq_ClusterQueue l = GetClusterQueueName (wc_DefaultClusterQueueName cfg) (kw_Spec w) ∧
    om_Name (lq_Meta l) = lq_ClusterQueue l ∧ om_Namespace (lq_Meta l) = kw_Namespace w ∧
    happened (GetLocalQueue (mkKey (kw_Namespace w) (lq_ClusterQueue l))) (inl e) h ∧ IsNotFound e = true ∧
    happened (GetQueueConfigObject KaiwoQueueConfigName) (inr qc) h ∧ q ∈ qs_ClusterQueues (qc_Spec qc) ∧
    cq_Name q = lq_ClusterQueue l ∧ cq_Namespaces q = [].

Definition accounted (h : history) (e : event WorkSig) : Prop :=
  match projT1 e with
  | StatusUpdate w' => nextStatus h w' ∨ flagsExpired h w'
  | DeleteChild c => mayDelete h c
  | CreateOrPatch d _ => mayApply h d
  | CreateLocalQueue l => mayCreateQueue h l
  | _ => True
  end.

Lemma accounted_reads h r x : readOnly r = true → accounted h (ev (S := WorkSig) r x).
Proof. by destruct r. Qed.

(** * The steps of a reconcile *)

Abbreviation traced' := (traced accounted).
Abbreviation anyhow := (λ _ _, True).

(** A step that only reads: its events are appended. *)
Lemma traced_reads {A} h (p : WM A) (T Q : history → A → Prop) :
  quiet p → always anything p T → (∀ tr a, reads tr → T tr a → Q (h ++ tr) a) → traced' h p Q.
Proof.
  intros Hq HT HQ. eapply traced_mono; [by apply (traced_quiet _ h p T accounted_reads)|].
  intros h' a _ (tr & -> & ? & ?). auto.
Qed.

Lemma reads_no_write tr w1 r : reads tr → ¬ happened (StatusUpdate w1) r tr.
Proof. unfold reads. rewrite Forall_forall. intros Htr Hin. by specialize (Htr _ Hin). Qed.

Lemma fetched_sub h h' w : h ⊆ h' → fetched h w → fetched h' w.
Proof. unfold fetched. auto. Qed.

(** More happened, and no status was written. *)
Definition grew (h h' : history) : Prop := ∃ tr, h' = h ++ tr ∧ ∀ w1 r, ¬ happened (StatusUpdate w1) r tr.

#[local] Instance grew_preorder : PreOrder grew.
Proof.
  split.
  - intros h. exists []. rewrite app_nil_r. split; [done|]. intros w1 r. apply not_elem_of_nil.
  - intros h h1 h2 (tr & -> & Htr) (tr' & -> & Htr'). exists (tr ++ tr'). rewrite app_assoc. split; [done|].
    intros w1 r [?|?]%elem_of_app; [by eapply Htr|by eapply Htr'].
Qed.

Lemma grew_sub h h' : grew h h' → h ⊆ h'.
Proof. intros (tr & -> & _). set_solver. Qed.

Lemma grew_reads h tr : reads tr → grew h (h ++ tr).
Proof. intros Htr. exists tr. split; [done|]. intros w1 r. by apply reads_no_write. Qed.

Lemma grew_one h (r : work_req) (x : work_resp r) :
  match r with StatusUpdate _ => False | _ => True end → grew h (h ++ [ev (S := WorkSig) r x]).
Proof.
  intros Hr. eexists. split; [done|]. intros w1 y Hin. apply list_elem_of_singleton, (f_equal (@projT1 _ _)) in Hin.
  simpl in Hin. by subst r.
Qed.

Lemma confirmed_grew h h' w : grew h h' → confirmed h w → confirmed h' w.
Proof.
  intros Hg (Hf & Ha & Hno). split; [by eapply fetched_sub, Hf; apply grew_sub|]. split; [done|].
  destruct Hg as (tr & -> & Htr). intros w1 r [Hin|Hin]%elem_of_app; [by eapply Hno|by eapply Htr].
Qed.

Lemma startable_grew h h' w : grew h h' → startable h w → startable h' w.
Proof.
  intros Hg (Hc & Hd & Hdl). split; [by eapply confirmed_grew|]. split; [done|].
  intros spec Hs Hh. eapply downloaded_sub, Hdl; [by apply grew_sub|done..].
Qed.

(** Deleting: every object of the lists is checked for its controller. *)
Lemma deleteOwned_traced h uid obj d :
  (∀ h' o, h ⊆ h' → o ∈ ch_OwnerReferences obj → or_UID o = uid → or_Controller o = Some true → mayDelete h' obj) →
  traced' h (deleteOwned uid obj d) (λ h' _, h ⊆ h').
Proof.
  intros Hmay. eapply traced_mono.
  - apply (traced_for_range accounted (λ h' _, h ⊆ h') (λ h' _, h ⊆ h')); [|done].
    intros o h' d' Ho Hh. unfold controlledBy. case_bool_decide as Hown; [|by apply traced_ret].
    on_event x; [by eapply Hmay; [| |apply Hown|apply Hown]|]. apply traced_ret. destruct x; set_solver.
  - intros h' [d'|e] _ Hh; exact Hh.
Qed.

Lemma DeleteUnderlyingResources_traced h w w1 w2 :
  fetched h w → statusOf w = WorkloadStatusTerminating → happened (StatusUpdate w1) (inr w2) h → kw_key w1 = kw_key w →
  statusOf w1 = WorkloadStatusTerminated →
  traced' h (DeleteUnderlyingResources (kw_UID w2) (kw_Name w2) (kw_Namespace w2)) anyhow.
Proof.
  intros Hw Hs Hu Hk Hs1. unfold DeleteUnderlyingResources. apply traced_bind. eapply traced_mono.
  - apply (traced_for_range accounted (λ h' _, h ⊆ h') (λ h' _, h ⊆ h')); [|done].
    intros k h1 d Hkind Hh1. on_event got. destruct got as [e|items]; [apply traced_ret; set_solver|].
    apply traced_bind. eapply traced_mono.
    + apply (traced_for_range accounted (λ h' _, h1 ++ [ev (S := WorkSig) (ListChildren k (kw_Namespace w2)) (inr items)] ⊆ h')
        (λ h' _, h ⊆ h')); [|done].
      intros obj h2 d' Hobj Hh2. apply traced_bind. eapply traced_mono.
      * apply deleteOwned_traced. intros h3 o Hh3 Ho Huid Hctl.
        exists w, w1, w2, k, items, o. repeat split; auto; unfold fetched in *; set_solver.
      * intros h3 r _ Hh3. apply traced_ret. destruct r; set_solver.
    + intros h2 r _ Hr. apply traced_ret. destruct r; set_solver.
  - intros h1 r _ _. by apply traced_ret.
Qed.

Lemma TerminateWorkload_traced h w :
  fetched h w → statusOf w = WorkloadStatusTerminating → traced' h (TerminateWorkload w) anyhow.
Proof.
  intros Hw Hs. unfold TerminateWorkload. on_event now. destruct (terminatedConditions now _) as [c cs].
  set (w1 := on_status _ w). apply traced_fetch. intros x. split.
  - left. exists w, (λ s, set_Conditions cs (set_Status WorkloadStatusTerminated s)).
    split; [by eapply fetched_sub, Hw; set_solver|]. split; [done|]. rewrite Hs. split; [exact lifecycle_terminate|done].
  - destruct x as [e|w2]; [done|]. cbn [of_sum]. apply traced_orFail. eapply traced_mono.
    + apply (DeleteUnderlyingResources_traced _ w w1 w2); [by eapply fetched_sub, Hw; set_solver|done|set_solver|done..].
    + intros h' [[]|e|] _ _; [|done..]. on_event y. by apply traced_ret.
Qed.

Lemma CleanupExpiredWorkloads_traced h w :
  fetched h w → statusOf w = WorkloadStatusPending → traced' h CleanupExpiredWorkloads anyhow.
Proof.
  intros Hw Hs. unfold CleanupExpiredWorkloads.
  apply traced_fetch. intros x. split; [done|]. destruct x as [e|jobs]; [done|]. cbn [of_sum].
  apply traced_fetch. intros x. split; [done|]. destruct x as [e|services]; [done|]. cbn [of_sum].
  match goal with |- traced' ?h2 _ _ => set (h' := h2) end. apply traced_bind. eapply traced_mono.
  - apply (traced_for_each accounted (λ h2 _, h' ⊆ h2)); [|done]. intros w0 h1 cleaned Hw0 Hh1.
    destruct (expired w0) eqn:Ee; [|by apply traced_ret]. on_event now. on_event r; [|apply traced_ret; set_solver].
    right. apply elem_of_app in Hw0 as [Hin|Hin].
    + exists w, KindKaiwoJob, jobs, w0, now. unfold fetched in *. repeat split; auto; set_solver.
    + exists w, KindKaiwoService, services, w0, now. unfold fetched in *. repeat split; auto; set_solver.
  - intros h1 b _ _. by apply traced_ret.
Qed.

(** * Ensuring *)

Lemma apply_traced h w f cfg cluster rec :
  (∀ d0 d, rr_BuildDesired rec cfg cluster = Ok d0 → SetControllerReferenceOn (on_status f w) d0 = inr d → mayApply h d) →
  traced' h (apply cfg cluster (on_status f w) rec) (λ h' _, grew h h').
Proof.
  intros Hmay. unfold apply.
  apply traced_orFail, traced_ret. destruct (rr_BuildDesired rec cfg cluster) as [d0|e|] eqn:Eb; [|cbv beta iota; reflexivity..].
  apply traced_orFail, traced_ret. destruct (SetControllerReferenceOn _ d0) as [e|d] eqn:Es; [simpl; reflexivity|]. cbn [of_sum].
  apply traced_fetch. intros x. split; [by eapply Hmay|].
  set (h1 := h ++ _). assert (grew h h1) as Hg by (by apply grew_one).
  destruct x as [e|[result d']]; [done|]. cbn [of_sum]. apply traced_orFail, traced_ret. destruct (stampGVK d') as [gvk|e|]; [|done..].
  assert (∀ t r m, traced' h1 (_ ← emit (on_status f w) t r m; mret (Ok tt)) (λ h' _, grew h h')) as Hemit.
  { intros t r m. on_event y. apply traced_ret. etrans; [exact Hg|]. by apply grew_one. }
  destruct result; try apply Hemit; by apply (traced_ret accounted h1 (Ok tt)).
Qed.

Lemma reconcileHandler_traced h w f cfg cluster recs :
  (∀ h' rec d0 d, rec ∈ recs → rr_BuildDesired rec cfg cluster = Ok d0 → SetControllerReferenceOn (on_status f w) d0 = inr d →
     grew h h' → mayApply h' d) →
  traced' h (reconcileHandler cfg cluster (on_status f w) recs) (λ h' _, grew h h').
Proof.
  intros Hmay. unfold reconcileHandler. apply traced_bind. eapply traced_mono.
  - apply (traced_for_range accounted (λ h' _, grew h h') (λ h' _, grew h h')); [|reflexivity].
    intros rec h1 _ Hrec Hg. apply traced_bind. eapply traced_mono; [apply apply_traced; intros d0 d Hb Hs; by eapply Hmay|].
    intros h2 o _ Hg2. apply traced_ret. assert (grew h h2) by (by etrans). by destruct o.
  - intros h1 r _ Hr. apply traced_ret. by destruct r.
Qed.

Lemma ensureStorageResources_traced h w f cfg cluster :
  confirmed h w → traced' h (ensureStorageResources mf cfg cluster (on_status f w)) (λ h' _, grew h h').
Proof.
  intros Hc. unfold ensureStorageResources. change (storageSpec (on_status f w)) with (storageSpec w).
  change (kw_key (on_status f w)) with (kw_key w). destruct (storageSpec w) as [spec|] eqn:Es; [|apply traced_ret; reflexivity].
  destruct (storageReconcilers mf (kw_key w) spec) as [recs|e|] eqn:Er; [|apply traced_ret; reflexivity..].
  apply reconcileHandler_traced. intros h' rec d0 d Hrec Hb Hd Hg. exists w, f, cfg, cluster, rec, d0.
  split; [by eapply confirmed_grew|]. split; [done|]. split; [done|]. left. eauto.
Qed.

(** The queue, once it is known that there is no local one. *)
Lemma ensureFrom_traced h w cfg e qc queues :
  let q := GetClusterQueueName (wc_DefaultClusterQueueName cfg) (kw_Spec w) in
  startable h w → happened (GetLocalQueue (mkKey (kw_Namespace w) q)) (inl e) h → IsNotFound e = true →
  happened (GetQueueConfigObject KaiwoQueueConfigName) (inr qc) h → queues ⊆ qs_ClusterQueues (qc_Spec qc) →
  traced' h (ensureFrom queues q q (kw_Namespace w)) (λ h' _, grew h h').
Proof.
  intros q Hst Hl He Hqc. induction queues as [|cq queues IH]; intros Hsub; simpl; [apply traced_ret; reflexivity|].
  case_decide as Hq; [|apply IH; set_solver]. destruct (cq_Namespaces cq) as [|ns nss] eqn:En; [|destruct (bool_decide _ || existsb _ nss); apply traced_ret; reflexivity].
  unfold createLocalQueue. apply traced_fetch. intros x. split; [done|]. set (h1 := h ++ _).
  assert (grew h h1) as Hg by (by apply grew_one). destruct x as [e1|kq]; [done|]. cbn [of_sum].
  apply traced_orFail, traced_ret. destruct (SetOwnerReference _ _) as [e2|l] eqn:Eo; [done|]. cbn [of_sum].
  apply SetOwnerReference_keeps in Eo as (El1 & El2 & El3). simpl in *.
  apply traced_fetch. intros x. split.
  - exists w, cfg, e, qc, cq. rewrite El1, El2, El3. pose proof (grew_sub _ _ Hg) as Hs.
    split_and!; auto; [by eapply startable_grew|]. apply Hsub. by left.
  - set (h2 := h1 ++ _). assert (grew h h2) by (etrans; [done|by apply grew_one]). by destruct x; [|apply traced_ret].
Qed.

Lemma ensureWorkloadResources_traced h w f cfg cluster :
  startable h w → traced' h (ensureWorkloadResources mf cfg cluster (on_status f w)) (λ h' _, grew h h').
Proof.
  intros Hst. unfold ensureWorkloadResources, ensureLocalQueue, EnsureLocalQueue. cbv zeta.
  change (kw_Spec (on_status f w)) with (kw_Spec w). change (kw_Namespace (on_status f w)) with (kw_Namespace w).
  set (q := GetClusterQueueName _ _). apply traced_orFail, traced_orFail. eapply (traced_mono _ _ _ (λ h' _, grew h h')).
  - on_event got. set (h1 := h ++ _). assert (grew h h1) as Hg by (by apply grew_one).
    destruct got as [e|l]; [|by apply traced_ret]. destruct (IsNotFound e) eqn:Ee; [|by apply traced_ret].
    apply traced_fetch. intros x. split; [done|]. set (h2 := h1 ++ _). assert (grew h h2) as Hg2 by (etrans; [done|by apply grew_one]).
    destruct x as [e2|qc]; [done|]. cbn [of_sum]. eapply traced_mono.
    + apply (ensureFrom_traced h2 w cfg e qc); [by eapply startable_grew|set_solver|done|set_solver|done].
    + intros h3 o _ Hg3. by etrans.
  - intros h1 [[]|e|] _ Hg; [|done..]. apply traced_ret. eapply traced_mono.
    + apply reconcileHandler_traced. intros h' rec d0 d ->%list_elem_of_singleton Hb Hd Hg'.
      assert (startable h' w) as Hst' by (eapply startable_grew, Hst; by etrans).
      eexists w, f, cfg, cluster, _, d0. split; [apply Hst'|]. split; [done|]. split; [done|]. right. eauto.
    + intros h2 o _ Hg2. by etrans.
Qed.

Lemma ensureAllResources_traced h w f cfg cluster conds :
  confirmed h w → statusOf w ≠ WorkloadStatusNew →
  (statusOf w ≠ WorkloadStatusDownloading → startable h w) →
  traced' h (ensureAllResources mf cfg cluster (on_status f w) (statusOf w) conds) (λ h' _, grew h h').
Proof.
  intros Hc Hn Hst. unfold ensureAllResources. apply traced_orFail.
  eapply traced_mono; [by apply ensureStorageResources_traced|]. intros h1 [[]|e|] _ Hg; [|done..].
  destruct (ensureStorageOnly _ _ _) eqn:Eo; [by apply traced_ret|].
  assert (statusOf w ≠ WorkloadStatusDownloading) as Hd by (intros Es; by rewrite Es in Eo).
  apply traced_orFail. eapply traced_mono; [apply ensureWorkloadResources_traced; eapply startable_grew; [exact Hg|by apply Hst]|].
  intros h2 [[]|e|] _ Hg2; [apply traced_ret| |]; by etrans.
Qed.

(** * Reconcile *)

Lemma handleStatusTransition_traced h w f newStatus conds :
  fetched h w → lifecycle (statusOf w) newStatus → (newStatus = WorkloadStatusTerminating → overdue h w) →
  traced' h (handleStatusTransition (on_status f w) newStatus conds) anyhow.
Proof.
  intros Hw Hl Ht. unfold handleStatusTransition.
  assert (∀ {A} (p : WM A) h1 (Q : history → A → Prop), quiet p → h ⊆ h1 → (∀ h2 a, h ⊆ h2 → Q h2 a) → traced' h1 p Q) as Hstep.
  { intros A p h1 Q Hq Hs HQ. eapply traced_reads; [done|apply always_true|]. intros tr a _ _. apply HQ. set_solver. }
  apply traced_bind, Hstep; [apply quiet_mergeConditions|done|]. intros h1 cs Hs1.
  apply traced_bind, Hstep; [unfold announce, emit, currentTime; auto 8 with quiet|done|]. intros h2 start Hs2.
  apply traced_bind, Hstep; [unfold durationOf, currentTime; auto with quiet|done|]. intros h3 duration Hs3.
  apply traced_bind, Hstep; [unfold emit; auto with quiet|done|]. intros h4 _ Hs4.
  apply traced_fetch. intros x. split; [|by destruct x; [|apply traced_ret]]. left.
  set (g := λ s, set_Duration duration (set_StartTime start (set_Conditions cs (set_Status newStatus s)))).
  exists w, (λ s, g (f s)). split; [by eapply fetched_sub|]. split; [done|]. split; [exact Hl|].
  intros Et. eapply overdue_sub; [exact Hs4|]. exact (Ht Et).
Qed.

Lemma quiet_GetClusterContext w : quiet (GetClusterContext w).
Proof. unfold GetClusterContext. auto 8 with quiet. Qed.

Lemma finishReconcile_traced h w f : fetched h w → traced' h (finishReconcile (on_status f w) (statusOf w)) anyhow.
Proof.
  intros Hw. unfold finishReconcile. destruct (statusOf w) eqn:Es; try by apply traced_ret.
  - apply traced_orFail. eapply traced_mono; [by eapply CleanupExpiredWorkloads_traced|]. intros h' [b|e|] _ _; [by apply traced_ret|done..].
  - eapply traced_reads; [|apply always_true|done].
    unfold ShouldRequeueAfter, GetRemainingTimeBeforeBecomingPreemptable, currentTime. auto 20 with quiet.
Qed.

Lemma tells_startable h w tr :
  confirmed h w → tells w tr (statusOf w) → tr ⊆ h → statusOf w ≠ WorkloadStatusDownloading → startable h w.
Proof.
  intros Hc (Hn & _ & Hdl) Hsub Hd. split; [done|]. split; [done|]. intros spec Hs Hh. eapply downloaded_sub; [exact Hsub|].
  apply (Hdl spec Hs Hh). destruct Hc as (_ & Ha & _). destruct (statusOf w); try done; set_solver.
Qed.

Lemma lifecycle_next s s' : live s → s' ≠ WorkloadStatusNew → lifecycle s s'.
Proof. intros Hs Hn. destruct (decide (s' = WorkloadStatusTerminating)) as [->|]; by constructor. Qed.

Lemma observeAndAct_traced h w cfg :
  fetched h w → live (statusOf w) → (∀ w1 r, ¬ happened (StatusUpdate w1) r h) → traced' h (observeAndAct mf cfg w) anyhow.
Proof.
  intros Hw Hlive Hno. unfold observeAndAct. apply traced_orFail.
  eapply traced_reads; [apply quiet_GetClusterContext|apply always_true|]. intros tr1 [cluster|e|] Hr1 _; [|done..].
  apply traced_orFail. eapply traced_reads; [apply quiet_observeOverallStatus|apply observeOverallStatus_tells|].
  intros tr2 [[s conds]|e|] Hr2 Htells; [|done..]. specialize (Htells _ _ eq_refl).
  set (h2 := (h ++ tr1) ++ tr2). assert (tr2 ⊆ h2) as Hs2 by (subst h2; set_solver).
  assert (grew h h2) as Hg by (etrans; by apply grew_reads). assert (fetched h2 w) by (eapply fetched_sub; [by apply grew_sub|done]).
  destruct (ConditionsEqual conds _) as [[equal conds'] recorded]. set (w' := on_status (set_Conditions recorded) w).
  case_decide as Hdiff.
  - apply traced_orFail. eapply traced_mono.
    + apply handleStatusTransition_traced; [done|apply lifecycle_next; [done|apply Htells]|].
      intros Es. eapply overdue_sub; [exact Hs2|]. by apply Htells.
    + intros h3 [r|e|] _ _; [by apply traced_ret|done..].
  - assert (s = statusOf w) as -> by (destruct (decide (s = statusOf w)); [done|]; exfalso; apply Hdiff; by left).
    destruct (isActiveStatus (statusOf w)) eqn:Ea; [|by apply finishReconcile_traced].
    assert (confirmed h2 w) as Hc by (eapply confirmed_grew; [exact Hg|]; by split).
    apply traced_orFail. eapply traced_mono.
    + apply ensureAllResources_traced; [done|apply Htells|]. by apply (tells_startable h2 w tr2).
    + intros h3 [[]|e|] _ Hg3; [|done..]. apply finishReconcile_traced. eapply fetched_sub; [by apply grew_sub|done].
Qed.

Lemma reconcileRequest_traced : traced' [] (reconcileRequest mf kind key) anyhow.
Proof.
  unfold reconcileRequest. on_event got. destruct got as [e|w]; [by apply traced_ret|].
  set (h := [] ++ _). assert (fetched h w) as Hw by (by left).
  assert (∀ w1 r, ¬ happened (StatusUpdate w1) r h) as Hno.
  { destruct (grew_one [] (GetWorkload kind key) (inr w) I) as (tr & Etr & Htr). subst h. rewrite Etr. exact Htr. }
  apply traced_orFail. eapply (traced_mono _ _ _ anyhow); [|intros h' [r|e|] _ _; [by apply traced_ret|done..]].
  unfold reconcileWorkload. apply traced_orFail. unfold getConfig. apply traced_fetch. intros x. split; [done|].
  destruct x as [e|cfg]; [done|]. cbn [of_sum]. apply traced_ret. set (h1 := h ++ _).
  assert (grew h h1) as Hg by (by apply grew_one). assert (fetched h1 w) by (eapply fetched_sub; [by apply grew_sub|done]).
  destruct (isTerminalStatus (statusOf w)) eqn:Et; [by apply traced_ret|]. case_decide as Es.
  - apply traced_orFail. eapply traced_mono; [by apply TerminateWorkload_traced|]. intros h2 [[]|e|] _ _; [by apply traced_ret|done..].
  - apply observeAndAct_traced; [done| |].
    { split; [|done]. rewrite <- isTerminalStatus_spec. congruence. }
    intros w1 r Hin.
    destruct (grew_one h (GetConfigObject "kaiwo") (inr cfg) I) as (tr & Etr & Htr). subst h1. rewrite Etr in Hin.
    apply elem_of_app in Hin as [Hin|Hin]; [by eapply Hno|by eapply Htr].
Qed.

(** C6: whenever a reconcile writes a status, it is either the next status of the
    workload that is reconciled, a step of the life cycle from the status that was
    read (TERMINATING only when the workload runs and its duration is over), or the
    TERMINATING flag of a running workload that is marked preemptable, written while
    the reconciled workload is pending. *)
Theorem Reconcile_status_writes :
  always anything (reconcileRequest mf kind key) (λ tr _, ∀ h w' x t,
    tr = h ++ ev (S := WorkSig) (StatusUpdate w') x :: t → nextStatus h w' ∨ flagsExpired h w').
Proof.
  eapply always_mono; [apply reconcileRequest_traced|]. intros tr o [Hj _] h w' x t ->. exact (justified_at _ _ _ _ Hj).
Qed.

(** C8: a reconcile deletes an object only when the workload was read as
    TERMINATING, has been recorded as TERMINATED before, and controls the object. *)
Theorem Reconcile_deletes_owned :
  always anything (reconcileRequest mf kind key) (λ tr _, ∀ h c x t,
    tr = h ++ ev (S := WorkSig) (DeleteChild c) x :: t → mayDelete h c).
Proof.
  eapply always_mono; [apply reconcileRequest_traced|]. intros tr o [Hj _] h c x t ->. exact (justified_at _ _ _ _ Hj).
Qed.

(** C7: a reconcile creates or patches an object only when the recorded status of
    the workload is active and was confirmed (no status was written before); the
    object is controlled by the workload and is part of its storage, or is the
    workload's own and the download job, where there is one, was seen to have
    succeeded. A local queue is created under the same condition, for the cluster
    queue of the workload, which the queue configuration lists without namespaces. *)
Theorem Reconcile_applies_confirmed :
  always anything (reconcileRequest mf kind key) (λ tr _,
    (∀ h d m x t, tr = h ++ ev (S := WorkSig) (CreateOrPatch d m) x :: t → mayApply h d) ∧
    (∀ h l x t, tr = h ++ ev (S := WorkSig) (CreateLocalQueue l) x :: t → mayCreateQueue h l)).
Proof.
  eapply always_mono; [apply reconcileRequest_traced|]. intros tr o [Hj _].
  split; [intros h d m x t ->|intros h l x t ->]; exact (justified_at _ _ _ _ Hj).
Qed.
End safety.
