(* ===== verification/Monitoring.v ===== *)
(** The watcher of GPU utilization (pkg/utils/monitoring/metrics.go,
    pkg/workloads/common/utilization.go, termination.go): it reads the metrics of
    the pods, records on each workload whether its GPUs are used, and flags the
    ones that leave them idle for too long. *)

From stdpp Require Import gmap strings list.
From Stdlib Require Import ZArith Lia.
From S2P Require Import Prelude History Float64 Types Kueue Scheduling GpuResources WorkloadTypes Labels WorkloadApi Handlers Lifecycle Observation WorkloadSafety.

(** * Constants *)

Definition monitoringPrefix : string := "RESOURCE_MONITORING_".
Definition EnvMonitoringEnabled : string := monitoringPrefix +:+ "ENABLED".
Definition EnvMonitoringEndpoint : string := monitoringPrefix +:+ "METRICS_ENDPOINT".
Definition EnvMonitoringInterval : string := monitoringPrefix +:+ "POLLING_INTERVAL".

Definition KaiwoResourceUtilizationType : string := "ResourceUnderutilization".
Definition GpuResourceUtilizationNormal : string := "GpuUtilizationNormal".
Definition GpuResourceUtilizationLow : string := "GpuUtilizationLow".

(** * Data *)

(** [AssociatedPod] is nil until the pod was read. *)
Record GpuMetricsEntry := {
  me_Namespace : string;
  me_PodName : string;
  me_ContainerName : string;
  me_GpuID : string;
  me_GpuPartitionID : string;
  me_UtilizationPercentage : float64;
  me_AssociatedPod : option Pod
}.

Definition me_key (e : GpuMetricsEntry) : string := me_Namespace e +:+ "/" +:+ me_PodName e.

Definition IsValid (e : GpuMetricsEntry) : bool :=
  bool_decide (me_Namespace e ≠ "" ∧ me_PodName e ≠ "" ∧ me_GpuID e ≠ "" ∧ me_GpuPartitionID e ≠ "" ∧ me_ContainerName e ≠ "").

Definition set_AssociatedPod (p : Pod) (e : GpuMetricsEntry) : GpuMetricsEntry :=
  {| me_Namespace := me_Namespace e; me_PodName := me_PodName e; me_ContainerName := me_ContainerName e; me_GpuID := me_GpuID e;
     me_GpuPartitionID := me_GpuPartitionID e; me_UtilizationPercentage := me_UtilizationPercentage e; me_AssociatedPod := Some p |}.

Record MetricsWatcher := { mw_metricsEndpoint : string; mw_pollInterval : Z }.

Section monitoring.
Context `{WorkloadLib} `{GoOrder} `{Host} (ErrorText : error → string) (DurationError : string → error).

(** * Construction *)

Definition IsMetricsMonitoringEnabled : bool := bool_decide (Getenv EnvMonitoringEnabled = "true").

(** A duration that cannot be parsed is an error of the time package,
    [DurationError]. *)
Definition ParseIntervalFromEnv (envVar : string) : error + Z :=
  let interval := Getenv envVar in
  if decide (interval = "") then inl (Errorf ("environment variable " +:+ envVar +:+ " not set"))
  else match ParseDuration interval with Some d => inr d | None => inl (DurationError interval) end.

Definition NewMetricsWatcherFromEnv : error + MetricsWatcher :=
  let endpoint := Getenv EnvMonitoringEndpoint in
  if decide (endpoint = "") then inl (Errorf ("environment variable " +:+ EnvMonitoringEndpoint +:+ " not set"))
  else
    match ParseIntervalFromEnv EnvMonitoringInterval with
    | inl e => inl (Errorf ("failed to parse poll interval: " +:+ ErrorText e))
    | inr d => inr {| mw_metricsEndpoint := endpoint; mw_pollInterval := d |}
    end.

(** * Reading the metrics *)

(** A later label of the same name wins; a nil name or value is dereferenced. *)
Fixpoint labelsInto (ls : list (option string * option string)) (acc : gmap string string) : option (gmap string string) :=
  match ls with
  | [] => Some acc
  | (Some name, Some value) :: ls' => labelsInto ls' (<[name := value]> acc)
  | _ :: _ => None
  end.

Definition parseLabels (m : GaugeMetric) : option (gmap string string) := labelsInto (gg_Label m) ∅.

(** The entry of one metric; [None] is a nil dereference. *)
Definition metricEntry (m : GaugeMetric) : option GpuMetricsEntry :=
  match parseLabels m, gg_Gauge m with
  | Some labels, Some (Some value) =>
      let label name := default "" (labels !! name) in
      Some {| me_Namespace := label "namespace"; me_PodName := label "pod"; me_ContainerName := label "container";
              me_GpuID := label "gpu_id"; me_GpuPartitionID := label "gpu_partition_id"; me_UtilizationPercentage := value;
              me_AssociatedPod := None |}
  | _, _ => None
  end.

Definition targeted (cfg : WorkloadConfig) (e : GpuMetricsEntry) : bool :=
  IsValid e && (negb (nonEmpty (wc_TargetNamespaces cfg)) || bool_decide (me_Namespace e ∈ wc_TargetNamespaces cfg)).

Fixpoint filterInto (cfg : WorkloadConfig) (metrics : list GaugeMetric) (pods : gmap string GpuMetricsEntry)
  : option (gmap string GpuMetricsEntry) :=
  match metrics with
  | [] => Some pods
  | m :: metrics' =>
      match metricEntry m with
      | None => None
      | Some e => filterInto cfg metrics' (if targeted cfg e then <[me_key e := e]> pods else pods)
      end
  end.

(** The metric family is a nil pointer when the endpoint has none of the name. *)
Definition filterForKaiwoPods (cfg : WorkloadConfig) (family : option (list GaugeMetric)) : outcome (gmap string GpuMetricsEntry) :=
  match family with
  | None => Panics
  | Some metrics => match filterInto cfg metrics ∅ with Some pods => Ok pods | None => Panics end
  end.

(** The entries of each workload. What is appended to are the entries under the key of
    the pod, not under the workload. *)
Definition addEntry (key id : string) (e : GpuMetricsEntry) (m : gmap string (list GpuMetricsEntry)) : gmap string (list GpuMetricsEntry) :=
  let m := match m !! id with Some _ => m | None => <[id := []]> m end in
  <[id := default [] (m !! key) ++ [e]]> m.

Definition fetchKaiwoWorkloads (kaiwoPods : gmap string GpuMetricsEntry) : WM (outcome (gmap string (list GpuMetricsEntry))) :=
  r ← for_range (rangeMap kaiwoPods) ∅ (λ '(key, entry) m,
        got ← call (S := WorkSig) (GetPod (mkKey (me_Namespace entry) (me_PodName entry)));
        mret (match got with
              | inl e =>
                  if IsNotFound e then Continue m
                  else Return (Errorf ("failed to get pod " +:+ me_Namespace entry +:+ "/" +:+ me_PodName entry +:+ ": " +:+ ErrorText e))
              | inr pod =>
                  match pod_Labels pod !! KaiwoRunIdLabel with
                  | None => Continue m
                  | Some id => Continue (addEntry key id (set_AssociatedPod pod entry) m)
                  end
              end));
  mret (match r with inl m => Ok m | inr e => Err e end).

(** * Recording what was found *)

Definition GetKaiwoWorkload (name namespace workloadType : string) : WM (outcome KaiwoWorkload) :=
  let get kind :=
    w ←? (r ← call (S := WorkSig) (GetWorkload kind (mkKey namespace name)); mret (of_sum r)) else "failed to fetch Kaiwo workload";
    mret (Ok w) in
  if decide (workloadType = "job") then get KindKaiwoJob
  else if decide (workloadType = "service") then get KindKaiwoService
  else mret (Err (Errorf ("workload type " +:+ workloadType +:+ " not recognized"))).

(** False means that the resources are in use. *)
Definition healthyString (healthy : bool) : ConditionStatus := if healthy then ConditionFalse else ConditionTrue.

Definition utilizationCondition (now : Z) (reason msg : string) (healthy : bool) : Condition :=
  with_time now (condition KaiwoResourceUtilizationType (healthyString healthy) reason msg).

(** The update writes the answer of the server back into the workload. *)
Definition syncKaiwoStatus (w : KaiwoWorkload) (reason msg : string) (healthy : bool) : WM (outcome KaiwoWorkload) :=
  now ← currentTime;
  let w := on_status (λ s, set_Conditions (SetStatusCondition now (cs_Conditions s) (utilizationCondition now reason msg healthy)) s) w in
  w ←? (r ← call (S := WorkSig) (StatusUpdate w); mret (of_sum r)) else "status update";
  mret (Ok w).

(** [SetEarlyTerminationIfLowUtilizationThresholdExceeded]; it panics on a duration
    it cannot parse. *)
Definition SetEarlyTerminationIfLow (cfg : WorkloadConfig) (w : KaiwoWorkload) : WM (outcome KaiwoWorkload) :=
  match FindStatusCondition (cs_Conditions (kw_Status w)) KaiwoResourceUtilizationType with
  | None => mret (Ok w)
  | Some i =>
      match cs_Conditions (kw_Status w) !! i with
      | None => mret (Ok w)
      | Some c =>
          if decide (cond_Status c = ConditionFalse) then mret (Ok w)
          else
            match ParseDuration (wc_TerminateUnderutilizedAfter cfg) with
            | None => mret Panics
            | Some terminateAfter =>
                now ← currentTime;
                if decide (terminateAfter < time_sub now (cond_LastTransitionTime c)) then
                  now ← currentTime;
                  mret (Ok (on_status (flagTerminating now
                    (condition WorkloadEarlyTerminationConditionType ConditionFalse (cond_Reason c)
                       "Terminating workload due to underutilized GPU resources")) w))
                else mret (Ok w)
            end
      end
  end.

(** The status is written whether or not it changed. *)
Definition flagIfUnderutilized (cfg : WorkloadConfig) (w : KaiwoWorkload) : WM (outcome unit) :=
  o ← SetEarlyTerminationIfLow cfg w;
  match o with
  | Ok w =>
      _ ←? (r ← call (S := WorkSig) (StatusUpdate w); mret (of_sum r)) else "failed to update status";
      mret (Ok tt)
  | Err e => mret (Err e)
  | Panics => mret Panics
  end.

Definition unmonitored (s : WorkloadStatus) : bool :=
  match s with
  | WorkloadStatusTerminating | WorkloadStatusTerminated | WorkloadStatusFailed | WorkloadStatusComplete => true
  | _ => false
  end.

(** The loop over the entries: an event for each GPU that is hardly used. *)
Definition warnUnderutilized (cfg : WorkloadConfig) (w : KaiwoWorkload) (entries : list GpuMetricsEntry) : WM bool :=
  for_each entries false (λ e anyUnderutilizing,
    if F64.ltb (me_UtilizationPercentage e) (wc_LowUtilizationThreshold cfg) then
      _ ← emit w EventTypeWarning GpuResourceUtilizationLow
            ("Pod '" +:+ me_PodName e +:+ "' is underutilizing GPU " +:+ me_GpuID e +:+ "/" +:+ me_GpuPartitionID e);
      mret true
    else mret anyUnderutilizing).

(** [fmt.Errorf("...: %v", err)] keeps the text only. *)
Definition textError {A} (msg : string) (o : outcome A) : outcome A :=
  match o with Err e => Err (Errorf (msg +:+ ": " +:+ ErrorText e)) | o => o end.

(** One workload that was found, with the entries of its pods. *)
Definition handleWorkload (cfg : WorkloadConfig) (w : KaiwoWorkload) (entries : list GpuMetricsEntry) : WM (outcome unit) :=
  if unmonitored (cs_Status (kw_Status w)) then mret (Ok tt)
  else
    any ← warnUnderutilized cfg w entries;
    o ← (if any : bool
         then syncKaiwoStatus w GpuResourceUtilizationLow "One or more GPUs are underutilizing requested resources" false
         else syncKaiwoStatus w GpuResourceUtilizationNormal "GPU utilization is normal" true);
    match textError "failed to sync Kaiwo workload status" o with
    | Ok w =>
        if wc_TerminateUnderutilized cfg then
          o ← flagIfUnderutilized cfg w; mret (textError "failed to flag underutilized Kaiwo workload status" o)
        else mret (Ok tt)
    | Err e => mret (Err e)
    | Panics => mret Panics
    end.

(** The first entry's pod names the workload. *)
Definition handleEntries (cfg : WorkloadConfig) (entries : list GpuMetricsEntry) : WM (outcome unit) :=
  match entries with
  | {| me_AssociatedPod := Some pod |} :: _ =>
      let label name := default "" (pod_Labels pod !! name) in
      o ← GetKaiwoWorkload (label KaiwoNameLabel) (pod_Namespace pod) (label KaiwoTypeLabel);
      match o with
      | Ok w => handleWorkload cfg w entries
      | Err e => if IsNotFound e then mret (Ok tt)
                 else mret (Err (Errorf ("failed to get Kaiwo workload " +:+ label KaiwoNameLabel +:+ ": " +:+ ErrorText e)))
      | Panics => mret Panics
      end
  | _ => mret Panics
  end.

Definition handleKaiwoWorkloads (cfg : WorkloadConfig) (kaiwoWorkloads : gmap string (list GpuMetricsEntry)) : WM (outcome unit) :=
  r ← for_range (rangeMap kaiwoWorkloads) tt (λ '(_, entries) _,
        o ← handleEntries cfg entries;
        mret (match o with Ok _ => Continue tt | o => Return o end));
  mret (match r with inl _ => Ok tt | inr o => o end).

Definition pollMetrics (m : MetricsWatcher) (cfg : WorkloadConfig) : WM (outcome unit) :=
  scraped ← call (S := WorkSig) (ScrapeMetrics (mw_metricsEndpoint m));
  match scraped with
  | inl e => mret (Err (Errorf ("failed to scrape metrics: " +:+ ErrorText e)))
  | inr metrics =>
      match filterForKaiwoPods cfg (metrics !! "gpu_gfx_activity") with
      | Ok pods =>
          o ← fetchKaiwoWorkloads pods;
          match textError "failed to fetch Kaiwo workloads" o with
          | Ok workloads => o ← handleKaiwoWorkloads cfg workloads; mret (textError "failed to handle Kaiwo workloads" o)
          | Err e => mret (Err e)
          | Panics => mret Panics
          end
      | Err e => mret (Err e)
      | Panics => mret Panics
      end
  end.

(** One tick of [Start]: errors are logged, a panic ends the process. *)
Definition tick (m : MetricsWatcher) : WM (outcome unit) :=
  o ← getConfig;
  match o with
  | Ok cfg => o ← pollMetrics m cfg; mret (match o with Panics => Panics | _ => Ok tt end)
  | Err _ => mret (Ok tt)
  | Panics => mret Panics
  end.
End monitoring.
