(* ===== verification/Interleaving.v ===== *)
(** Controllers running side by side. The controllers of jobs and services and the
    watcher of GPU utilization all write the status of workloads, from copies that
    may be stale; the API server accepts a write only for the version it was based
    on. Whatever the interleaving, the versions of a workload follow its life
    cycle. *)

From stdpp Require Import gmap strings list.
From Stdlib Require Import ZArith Lia.
From S2P Require Import Prelude History Float64 Types Kueue Scheduling GpuResources WorkloadTypes Labels WorkloadApi Handlers Lifecycle Observation WorkloadSafety Monitoring.

(** * What a controller promises *)

Abbreviation history := (trace WorkSig).

(** The event gave the controller a copy of the workload. *)
Definition gives (e : event WorkSig) (w : KaiwoWorkload) : Prop :=
  (∃ kind key, e = ev (S := WorkSig) (GetWorkload kind key) (inr w)) ∨
  (∃ kind ws, e = ev (S := WorkSig) (ListWorkloads kind) (inr ws) ∧ w ∈ ws) ∨
  (∃ w1, e = ev (S := WorkSig) (StatusUpdate w1) (inr w)).

(** From one status to the next: a step of the life cycle, or none. *)
Definition advances (s s' : WorkloadStatus) : Prop := s = s' ∨ lifecycle s s'.

(** A status is written to a copy the controller was given, and advances it: from
    the status of the copy, or from the status the controller itself last wrote
    where the copy is the server's answer to that write. *)
Definition basedOn (h : history) (w' : KaiwoWorkload) : Prop :=
  ∃ e w f, e ∈ h ∧ gives e w ∧ w' = on_status f w ∧
    (advances (statusOf w) (statusOf w') ∨
     ∃ w1, e = ev (S := WorkSig) (StatusUpdate w1) (inr w) ∧ advances (statusOf w1) (statusOf w')).

Definition writesStatus (h : history) (e : event WorkSig) : Prop :=
  match projT1 e with StatusUpdate w' => basedOn h w' | _ => True end.

Class Controller {A} (p : WM A) : Prop :=
  controller_writes : always anything p (λ tr _, justified writesStatus [] tr).

#[export] Instance reconcileRequest_controller `{WorkloadLib} `{GoOrder} `{Host} mf kind key :
  Controller (reconcileRequest mf kind key).
Proof.
  eapply always_mono; [apply reconcileRequest_traced|]. intros tr o [Hj _]. eapply justified_impl; [|exact Hj].
  intros h [r x]. destruct r; try done. intros [(v & f & Hw & Ew & Hl & _)|(v & kd & ws & w0 & now & _ & _ & Hin & Hw0 & He & Ew)].
  - exists (ev (S := WorkSig) (GetWorkload kind key) (inr v)), v, f. split; [done|]. split; [left; eauto|]. split; [done|]. left. by right.
  - exists (ev (S := WorkSig) (ListWorkloads kd) (inr ws)), w0, (flagTerminating now expiredCondition).
    split; [done|]. split; [right; left; eauto|]. split; [done|]. left. right. subst.
    unfold expired in He. apply andb_prop in He as [Hr%bool_decide_eq_true _]. apply lifecycle_flag. rewrite Hr. by split; [intros [|[|]]|].
Qed.

Section watcher.
Context `{WorkloadLib} `{GoOrder} `{Host} (ErrorText : error → string).

Abbreviation traced' := (traced writesStatus).
Abbreviation anyhow := (λ _ _, True).

Lemma writesStatus_reads h r x : readOnly r = true → writesStatus h (ev (S := WorkSig) r x).
Proof. by destruct r. Qed.

Lemma traced_reading {A} h (p : WM A) (Q : history → A → Prop) :
  quiet p → (∀ h' a, h ⊆ h' → Q h' a) → traced' h p Q.
Proof.
  intros Hq HQ. eapply traced_mono; [apply (traced_quiet _ h p (λ _ _, True) writesStatus_reads Hq), always_true|].
  intros h' a Hs _. by apply HQ.
Qed.

Lemma handleWorkload_traced h cfg kind key w entries :
  ev (S := WorkSig) (GetWorkload kind key) (inr w) ∈ h → traced' h (handleWorkload ErrorText cfg w entries) anyhow.
Proof.
  intros Hw. unfold handleWorkload. destruct (unmonitored _) eqn:Eu; [by apply traced_ret|].
  assert (live (statusOf w)) as Hlive by (destruct (statusOf w); try done; by split; [intros [|[|]]|]).
  apply traced_bind, traced_reading; [unfold warnUnderutilized, emit; auto 8 with quiet|]. intros h1 any Hs1.
  apply traced_bind. eapply (traced_mono _ _ _ (λ h2 o, ∀ w2, o = Ok w2 → ∃ w1, ev (S := WorkSig) (StatusUpdate w1) (inr w2) ∈ h2 ∧
    statusOf w1 = statusOf w)).
  - assert (∀ reason msg healthy, traced' h1 (syncKaiwoStatus w reason msg healthy) (λ h2 o, ∀ w2, o = Ok w2 →
      ∃ w1, ev (S := WorkSig) (StatusUpdate w1) (inr w2) ∈ h2 ∧ statusOf w1 = statusOf w)) as Hsync; [|destruct any; apply Hsync].
    intros reason msg healthy. unfold syncKaiwoStatus. on_event now. apply traced_fetch. intros x. split.
    + eexists _, w, _. split; [apply elem_of_app; left; apply Hs1, Hw|]. split; [left; eauto|]. split; [done|]. left. by left.
    + destruct x as [e|w2]; [done|]. cbn [of_sum]. apply traced_ret. intros w3 [= <-]. eexists. split; [apply elem_of_app; right; by left|done].
  - intros h2 [w2|e|] _ Ho; cbn [textError]; [|by apply traced_ret..]. destruct (wc_TerminateUnderutilized cfg); [|by apply traced_ret].
    destruct (Ho w2 eq_refl) as (w1 & Hin & Est). apply traced_bind. eapply (traced_mono _ _ _ anyhow); [|intros; by apply traced_ret].
    unfold flagIfUnderutilized. apply traced_bind.
    eapply (traced_mono _ _ _ (λ h3 o, h2 ⊆ h3 ∧ ∀ w3, o = Ok w3 → w3 = w2 ∨ ∃ now c, w3 = on_status (flagTerminating now c) w2)).
    + assert (∀ o, (∀ w3, o = Ok w3 → w3 = w2) → traced' h2 (mret o) (λ h3 o, h2 ⊆ h3 ∧ ∀ w3, o = Ok w3 → w3 = w2 ∨
        ∃ now c, w3 = on_status (flagTerminating now c) w2)) as Hret by (intros o Heq; apply traced_ret; split; [done|]; auto).
      unfold SetEarlyTerminationIfLow. destruct (FindStatusCondition _ _) as [i|]; [|apply Hret; congruence].
      destruct (_ !! i) as [c|]; [|apply Hret; congruence]. case_decide; [apply Hret; congruence|].
      destruct (ParseDuration _) as [d|]; [|by apply Hret].
      on_event now. case_decide; [on_event now'|]; apply traced_ret; (split; [set_solver|]); intros w3 [= <-]; eauto.
    + intros h3 [w3|e|] _ [Hs3 Hw3]; [|by apply traced_ret..]. apply traced_fetch. intros x.
      split; [|by destruct x; [|apply traced_ret]].
      exists (ev (S := WorkSig) (StatusUpdate w1) (inr w2)), w2.
      destruct (Hw3 w3 eq_refl) as [->|(now & c & ->)].
      * exists id. split; [by apply Hs3|]. split; [right; right; eauto|]. split; [by destruct w2|]. left. by left.
      * exists (flagTerminating now c). split; [by apply Hs3|]. split; [right; right; eauto|]. split; [done|].
        right. exists w1. split; [done|]. right. rewrite Est. by apply lifecycle_flag.
Qed.

#[export] Instance tick_controller m : Controller (tick ErrorText m).
Proof.
  enough (traced' [] (tick ErrorText m) anyhow) as Ht by (eapply always_mono; [exact Ht|]; by intros tr a [Hj _]).
  unfold tick. apply traced_bind, traced_reading; [unfold getConfig; auto 8 with quiet|]. intros h0 [cfg|e|] _; [|by apply traced_ret..].
  apply traced_bind. eapply (traced_mono _ _ _ anyhow); [|intros; by apply traced_ret].
  unfold pollMetrics. on_event scraped. destruct scraped as [e|metrics]; [by apply traced_ret|].
  destruct (filterForKaiwoPods _ _) as [pods|e|]; [|by apply traced_ret..].
  apply traced_bind, traced_reading; [unfold fetchKaiwoWorkloads|].
  { apply quietly_bind; [|auto with quiet]. apply quiet_for_range. intros [key entry] acc _. auto with quiet. }
  intros h1 [workloads|e|] _; cbn [textError]; [|by apply traced_ret..].
  apply traced_bind. eapply (traced_mono _ _ _ anyhow); [|intros; by apply traced_ret].
  unfold handleKaiwoWorkloads. apply traced_bind. eapply traced_mono.
  - apply (traced_for_range writesStatus anyhow anyhow); [|done]. intros [id entries] h2 _ _ _.
    apply traced_bind. eapply (traced_mono _ _ _ anyhow); [|intros h3 [[]|e|] _ _; by apply traced_ret].
    unfold handleEntries. destruct entries as [|[? ? ? ? ? ? [pod|]] entries]; [by apply traced_ret| |by apply traced_ret].
    cbv zeta. unfold GetKaiwoWorkload. apply traced_bind.
    eapply (traced_mono _ _ _ (λ h3 o, ∀ w, o = Ok w → ∃ kind key, ev (S := WorkSig) (GetWorkload kind key) (inr w) ∈ h3)).
    + assert (∀ kind key, traced' h2 (w ←? (r ← call (S := WorkSig) (GetWorkload kind key); mret (of_sum r))
        else "failed to fetch Kaiwo workload"; mret (Ok w)) (λ h3 o, ∀ w, o = Ok w → ∃ kind key,
          ev (S := WorkSig) (GetWorkload kind key) (inr w) ∈ h3)) as Hget.
      { intros kind key. apply traced_fetch. intros x. split; [done|]. destruct x as [e|w]; [done|]. cbn [of_sum]. apply traced_ret.
        intros w' [= <-]. exists kind, key. set_solver. }
      repeat case_decide; [apply Hget..|by apply traced_ret].
    + intros h3 [w|e|] _ Ho; [|case_match; by apply traced_ret|by apply traced_ret].
      destruct (Ho w eq_refl) as (kind & key & Hw). by eapply handleWorkload_traced.
  - intros h2 [?|?] _ _; by apply traced_ret.
Qed.
End watcher.

(** * The server *)

#[export] Instance WorkloadKind_countable : Countable WorkloadKind.
Proof.
  refine (inj_countable' (λ k, match k with KindKaiwoJob => true | KindKaiwoService => false end)
    (λ b : bool, if b then KindKaiwoJob else KindKaiwoService) _).
  by intros [].
Defined.

Definition idOf (w : KaiwoWorkload) : WorkloadKind * Key := (kw_Kind w, kw_key w).

(** The versions of every workload, oldest first. *)
Abbreviation world := (gmap (WorkloadKind * Key) (list KaiwoWorkload)).

Definition versions (W : world) (id : WorkloadKind * Key) : list KaiwoWorkload := default [] (W !! id).

(** What the server may answer. Reads may come from a cache, so they give any
    version there has been; a status is written only when the version it was based
    on is the last one, and becomes the next version, with nothing else changed. *)
Definition answers (W : world) (e : event WorkSig) (W' : world) : Prop :=
  match e with
  | existT (GetWorkload kind key) r =>
      W' = W ∧ match r with inr w => w ∈ versions W (kind, key) | inl _ => True end
  | existT (ListWorkloads kind) r =>
      W' = W ∧ match r with inr ws => ∀ w, w ∈ ws → w ∈ versions W (idOf w) | inl _ => True end
  | existT (StatusUpdate w') r =>
      match r with
      | inl _ => W' = W
      | inr w2 =>
          ∃ cur, last (versions W (idOf w')) = Some cur ∧ kw_ResourceVersion w' = kw_ResourceVersion cur ∧
            kw_Status w2 = kw_Status w' ∧ idOf w2 = idOf w' ∧
            kw_ResourceVersion w2 = Z.of_nat (length (versions W (idOf w'))) ∧
            W' = <[idOf w' := versions W (idOf w') ++ [w2]]> W
      end
  | _ => W' = W
  end.

(** Users create workloads and edit their specifications. *)
Inductive user_step (W : world) : world → Prop :=
| user_creates w : W !! idOf w = None → statusOf w = WorkloadStatusNew → kw_ResourceVersion w = 0 → user_step W (<[idOf w := [w]]> W)
| user_edits w w2 : last (versions W (idOf w)) = Some w → kw_Status w2 = kw_Status w → idOf w2 = idOf w →
    kw_ResourceVersion w2 = Z.of_nat (length (versions W (idOf w))) → user_step W (<[idOf w := versions W (idOf w) ++ [w2]]> W).

(** The events of all controllers, in the order the server saw them, each with the
    run that caused it. *)
Inductive evolves (W0 : world) : list (nat * event WorkSig) → world → Prop :=
| evolves_start : evolves W0 [] W0
| evolves_event g W t e W' : evolves W0 g W → answers W e W' → evolves W0 (g ++ [(t, e)]) W'
| evolves_user g W W' : evolves W0 g W → user_step W W' → evolves W0 g W'.

(** The events of one run. *)
Definition eventsOf (t : nat) (g : list (nat * event WorkSig)) : history := (filter (λ te, te.1 = t) g).*2.

(** Versions are numbered, and each status advances the one before. *)
Definition orderly (ws : list KaiwoWorkload) : Prop :=
  (∀ i w, ws !! i = Some w → kw_ResourceVersion w = Z.of_nat i) ∧
  (∀ i w w', ws !! i = Some w → ws !! S i = Some w' → advances (statusOf w) (statusOf w')).

Definition well_kept (W : world) : Prop := ∀ id ws, W !! id = Some ws → ws ≠ [] ∧ orderly ws ∧ Forall (λ w, idOf w = id) ws.

(** * The theory *)

Lemma orderly_snoc ws w w' :
  orderly ws → last ws = Some w → advances (statusOf w) (statusOf w') → kw_ResourceVersion w' = Z.of_nat (length ws) →
  orderly (ws ++ [w']).
Proof.
  intros [Hv Ha] Hl Hadv Hver. rewrite last_lookup in Hl. split.
  - intros i x [Hi|[Hlen Hi]]%lookup_app_Some; [by apply Hv|]. apply list_lookup_singleton_Some in Hi as [Ei <-].
    rewrite Hver. f_equal. lia.
  - intros i a b Hi Hi'. assert (S i < length (ws ++ [w']))%nat as Hlt by (by eapply lookup_lt_Some).
    rewrite length_app in Hlt. simpl in Hlt. rewrite lookup_app_l in Hi by lia.
    apply lookup_app_Some in Hi' as [Hi'|[Hlen Hi']]; [by eapply Ha|]. apply list_lookup_singleton_Some in Hi' as [Ei <-].
    replace i with (pred (length ws)) in Hi by lia. simplify_eq. done.
Qed.

(** The last version is the only one with its number. *)
Lemma last_version ws w cur :
  orderly ws → w ∈ ws → last ws = Some cur → kw_ResourceVersion w = kw_ResourceVersion cur → w = cur.
Proof.
  intros [Hv _] [i Hi]%list_elem_of_lookup Hl Heq. rewrite last_lookup in Hl.
  rewrite (Hv _ _ Hi), (Hv _ _ Hl) in Heq. apply Nat2Z.inj in Heq. congruence.
Qed.

Lemma versions_insert (W : world) id ws id' : versions (<[id := ws]> W) id' = if decide (id = id') then ws else versions W id'.
Proof. unfold versions. case_decide; [subst; by rewrite lookup_insert_eq|]. by rewrite lookup_insert_ne. Qed.

Lemma versions_kept W id : well_kept W → versions W id ≠ [] → orderly (versions W id) ∧ Forall (λ w, idOf w = id) (versions W id).
Proof. unfold versions. intros HW. destruct (W !! id) as [ws|] eqn:E; [|done]. intros _. by apply HW in E as [_ ?]. Qed.

(** A version is added. *)
Lemma well_kept_push W w w2 :
  well_kept W → last (versions W (idOf w)) = Some w → advances (statusOf w) (statusOf w2) → idOf w2 = idOf w →
  kw_ResourceVersion w2 = Z.of_nat (length (versions W (idOf w))) → well_kept (<[idOf w := versions W (idOf w) ++ [w2]]> W).
Proof.
  intros HW Hl Ha Hid Hv id ws. destruct (decide (idOf w = id)) as [<-|Hne]; [|rewrite lookup_insert_ne by done; apply HW].
  rewrite lookup_insert_eq. intros [= <-]. destruct (versions_kept W (idOf w) HW) as [Ho Hf]; [by intros E; rewrite E in Hl|].
  split; [by intros ?%app_nil; naive_solver|]. split; [by eapply orderly_snoc|]. apply Forall_app. split; [done|]. by apply Forall_singleton.
Qed.

(** Versions are never lost. *)
Lemma answers_keeps W e W' id w : answers W e W' → w ∈ versions W id → w ∈ versions W' id.
Proof.
  destruct e as [r x]. destruct r; simpl; try (intros ->; done); try (intros [-> _]; done).
  destruct x as [err|w2]; [by intros ->|]. intros (cur & _ & _ & _ & _ & _ & ->) Hin. rewrite versions_insert.
  case_decide; [subst; apply elem_of_app; by left|done].
Qed.

Lemma user_keeps W W' id w : user_step W W' → w ∈ versions W id → w ∈ versions W' id.
Proof.
  intros Hu Hin. destruct Hu; rewrite versions_insert; case_decide; subst; try done.
  - unfold versions in Hin. rewrite H in Hin. by apply elem_of_nil in Hin.
  - apply elem_of_app. by left.
Qed.

(** What was given to a controller is one of the versions, and an answer to a
    write has the status written. *)
Definition remembered (g : list (nat * event WorkSig)) (W : world) : Prop :=
  ∀ t e, (t, e) ∈ g → (∀ w, gives e w → w ∈ versions W (idOf w)) ∧
    (∀ w1 w2, e = ev (S := WorkSig) (StatusUpdate w1) (inr w2) → kw_Status w2 = kw_Status w1).

Lemma answers_gives W e W' w : well_kept W → answers W e W' → gives e w → w ∈ versions W' (idOf w).
Proof.
  intros HW Ha [(kind & key & ->)|[(kind & ws & -> & Hw)|(w1 & ->)]]; simpl in Ha.
  - destruct Ha as [-> Hin]. destruct (versions_kept W (kind, key) HW) as [_ Hf]; [by intros E; rewrite E in Hin; apply elem_of_nil in Hin|].
    rewrite Forall_forall in Hf. by rewrite (Hf _ Hin).
  - destruct Ha as [-> Hin]. auto.
  - destruct Ha as (cur & _ & _ & _ & Hid & _ & ->). rewrite versions_insert, Hid, decide_True by done.
    apply elem_of_app. right. by left.
Qed.

Lemma update_status_inj w1 w2 w1' w2' :
  ev (S := WorkSig) (StatusUpdate w1) (inr w2) = ev (S := WorkSig) (StatusUpdate w1') (inr w2') → w1 = w1' ∧ w2 = w2'.
Proof.
  intros Heq. set (f := λ e : event WorkSig, match e with existT (StatusUpdate a) (inr b) => Some (a, b) | _ => None end).
  apply (f_equal f) in Heq. subst f. simpl in Heq. by simplify_eq.
Qed.

Lemma remembered_step g W t e W' : well_kept W → remembered g W → answers W e W' → remembered (g ++ [(t, e)]) W'.
Proof.
  intros HW Hr Ha t' e' [Hin|Hin]%elem_of_app.
  - destruct (Hr _ _ Hin) as [Hg Hu]. split; [|done]. intros w Hw. eapply answers_keeps; [done|]. by apply Hg.
  - apply list_elem_of_singleton in Hin as [= -> ->]. split; [intros w; by eapply answers_gives|].
    intros w1 w2 ->. simpl in Ha. by destruct Ha as (cur & _ & _ & ? & _).
Qed.

(** A write that is based on something remembered keeps the versions in order. *)
Lemma write_kept g W e W' (t : nat) h :
  well_kept W → remembered g W → answers W e W' → (∀ e', e' ∈ h → ∃ t', (t', e') ∈ g) → writesStatus h e → well_kept W'.
Proof.
  intros HW Hr Ha Hh Hwr. destruct e as [r x]. destruct r; simpl in Ha; try (by subst W'); try (by destruct Ha as [-> _]).
  destruct x as [err|w2]; [by subst W'|]. destruct Ha as (cur & Hl & Hver & Hst & Hid & Hver2 & ->).
  destruct Hwr as (e & v & f & He & Hg & -> & Hadv). destruct (Hh e He) as [t' Hin]. destruct (Hr _ _ Hin) as [Hv Hu].
  specialize (Hv v Hg). change (idOf (on_status f v)) with (idOf v) in *. change (kw_ResourceVersion (on_status f v)) with (kw_ResourceVersion v) in *.
  destruct (versions_kept W (idOf v) HW) as [Ho Hf]; [by intros E; rewrite E in Hl|].
  assert (v = cur) as -> by (by eapply last_version). apply well_kept_push; try done. rewrite Hst.
  destruct Hadv as [Hadv|(w1 & Ee & Hadv)]; [done|]. by rewrite (Hu _ _ Ee).
Qed.

Lemma user_kept W W' : well_kept W → user_step W W' → well_kept W'.
Proof.
  intros HW Hu. destruct Hu as [w Hn Hs Hv|w w2 Hl Hs Hid Hv].
  - intros id ws. destruct (decide (idOf w = id)) as [<-|Hne]; [|rewrite lookup_insert_ne by done; apply HW].
    rewrite lookup_insert_eq. intros [= <-]. split; [done|]. split; [|by apply Forall_singleton]. split.
    + intros i x [-> <-]%list_lookup_singleton_Some. done.
    + intros i x y _ Hy. apply list_lookup_singleton_Some in Hy as [? _]. lia.
  - apply well_kept_push; try done. rewrite Hs. by left.
Qed.

Lemma eventsOf_snoc t g t' e : eventsOf t (g ++ [(t', e)]) = eventsOf t g ++ (if decide (t' = t) then [e] else []).
Proof. unfold eventsOf. rewrite filter_app, fmap_app. f_equal. rewrite filter_cons, filter_nil. simpl. by case_decide. Qed.

Lemma eventsOf_in t g e : e ∈ eventsOf t g → ∃ t', (t', e) ∈ g.
Proof.
  unfold eventsOf. intros ([t' e'] & -> & Hin)%list_elem_of_fmap. apply list_elem_of_filter in Hin as [_ Hin]. by exists t'.
Qed.

(** A run of a controller, possibly still under way. *)
Definition underway (h : history) : Prop :=
  ∃ A (p : WM A) tr a, Controller p ∧ exec anything p tr a ∧ h `prefix_of` tr.

Lemma underway_last h e : underway (h ++ [e]) → writesStatus h e.
Proof.
  intros (A & p & tr & a & Hp & Hex & [rest ->]). pose proof (exec_always _ _ _ _ Hex _ Hp) as Hj. cbv beta in Hj.
  rewrite <- app_assoc, justified_app in Hj. by destruct Hj as (_ & ? & _).
Qed.

Lemma underway_prefix h h' : h `prefix_of` h' → underway h' → underway h.
Proof. intros Hpre (A & p & tr & a & Hp & Hex & Hpre'). exists A, p, tr, a. split; [done|]. split; [done|]. by etrans. Qed.

(** Whatever the controllers, their versions stay in order. *)
Lemma controllers_interleave W0 g W :
  well_kept W0 → evolves W0 g W → (∀ t, underway (eventsOf t g)) → well_kept W ∧ remembered g W.
Proof.
  intros HW0 Hev. induction Hev as [|g W t e W' Hev IH Ha|g W W' Hev IH Hu]; intros Hrun.
  - split; [done|]. intros t e Hin. by apply elem_of_nil in Hin.
  - destruct IH as [HW Hr].
    { intros t'. eapply underway_prefix, (Hrun t'). rewrite eventsOf_snoc. by apply prefix_app_r. }
    split; [|by eapply remembered_step]. eapply (write_kept g W e W' t (eventsOf t g)); try done.
    + intros e'. apply eventsOf_in.
    + apply underway_last. specialize (Hrun t). by rewrite eventsOf_snoc, decide_True in Hrun by done.
  - destruct (IH Hrun) as [HW Hr]. split; [by eapply user_kept|]. intros t e Hin. destruct (Hr t e Hin) as [Hg ?].
    split; [|done]. intros w Hw. eapply user_keeps; [done|]. by apply Hg.
Qed.

(** * What the order means *)

Lemma advances_over s s' : over s → advances s s' → s' = s.
Proof. intros Ht [->|Hl]; [done|]. destruct Hl as [s s' [? _]|s [? _]|]; [done..|]. by destruct Ht as [|[|]]. Qed.

Lemma advances_terminating s' :
  advances WorkloadStatusTerminating s' → s' = WorkloadStatusTerminating ∨ s' = WorkloadStatusTerminated.
Proof. intros [<-|Hl]; [by left|]. inversion Hl as [? ? [_ ?]|? [_ ?]|]; by auto. Qed.

(** What an advance keeps, holds of all later versions. *)
Lemma orderly_later ws (P : WorkloadStatus → Prop) i j w w' :
  orderly ws → (∀ s s', P s → advances s s' → P s') → ws !! i = Some w → ws !! j = Some w' → (i ≤ j)%nat →
  P (statusOf w) → P (statusOf w').
Proof.
  intros [_ Ho] HP Hi Hj Hij Hw. remember (j - i)%nat as k eqn:Ek. revert j w' Hj Hij Ek.
  induction k as [|k IH]; intros j w' Hj Hij Ek; [assert (j = i) as -> by lia; by simplify_eq|].
  destruct (lookup_lt_is_Some_2 ws (pred j)) as [v Hv].
  { apply lookup_lt_Some in Hj. lia. }
  apply (HP (statusOf v)); [eapply IH; [exact Hv|lia..]|]. apply (Ho (pred j)); [done|]. by replace (S (pred j)) with j by lia.
Qed.

Section operator.
Context `{WorkloadLib} `{GoOrder} `{Host} (mf : Manifests) (ErrorText : error → string).

(** The runs of the operator: reconciles of jobs and services, and ticks of the
    watcher. *)
Inductive operatorRun : history → Prop :=
| run_reconcile kind key tr o : exec anything (reconcileRequest mf kind key) tr o → operatorRun tr
| run_watch m tr o : exec anything (tick ErrorText m) tr o → operatorRun tr.

(** C2: whatever the interleaving of reconciles of jobs and services, of ticks of
    the utilization watcher and of users, and however stale the copies they read,
    under optimistic locking the recorded statuses of every workload follow the
    life cycle: each version keeps the status of the one before or takes a step of
    it, a workload that is complete, failed or terminated stays so, and one that is
    terminating can only become terminated. *)
Theorem statuses_follow_lifecycle W0 g W :
  well_kept W0 → evolves W0 g W → (∀ t, ∃ tr, operatorRun tr ∧ eventsOf t g `prefix_of` tr) →
  well_kept W ∧
  (∀ id i j w w', versions W id !! i = Some w → versions W id !! j = Some w' → (i ≤ j)%nat →
     (over (statusOf w) → statusOf w' = statusOf w) ∧
     (statusOf w = WorkloadStatusTerminating → statusOf w' = WorkloadStatusTerminating ∨ statusOf w' = WorkloadStatusTerminated)).
Proof.
  intros HW0 Hev Hrun. destruct (controllers_interleave W0 g W HW0 Hev) as [HW _].
  { intros t. destruct (Hrun t) as (tr & [kind key tr' o Hex|m tr' o Hex] & Hpre); eexists _, _, _, _; (split; [|by split]); apply _. }
  split; [done|]. intros id i j w w' Hi Hj Hij.
  destruct (versions_kept W id HW) as [Ho _]; [by intros E; rewrite E in Hi|]. split.
  - intros Ht. eapply (orderly_later (versions W id) (λ s, s = statusOf w) i j w w'); [done| |done..]. intros s s' -> Ha. by apply advances_over.
  - intros Ht. eapply (orderly_later (versions W id) (λ s, s = WorkloadStatusTerminating ∨ s = WorkloadStatusTerminated) i j w w'); [done| |done..|by left].
    intros s s' [->| ->] Ha; [by apply advances_terminating|right; apply (advances_over WorkloadStatusTerminated); [by right; right|done]].
Qed.
End operator.
