(* ===== verification/Tickers.v ===== *)
(** The loops of the operator's runnables: [Start] of the GPU metrics scraper
    (internal/controller/gpuworkload_scraper.go) and of the utilization watcher
    (pkg/utils/monitoring/metrics.go) wait for the next tick or the end of the context
    and poll at every tick. *)

From stdpp Require Import gmap strings list.
From Stdlib Require Import ZArith Lia.
From S2P Require Import Prelude History Types GpuResources GpuApi Scraper WorkloadTypes WorkloadApi Monitoring.

(** * Programs that wait *)

(** What [select] finds ready: the end of the context, or a tick. *)
Inductive wakeup := ContextDone | Tick.

Inductive tick_req (R : Type) := Select | Act (r : R).
Arguments Select {R}.
Arguments Act {R} r.

Definition Ticks (S : sig) : sig := Sig (tick_req (req S)) (λ r, match r with Select => wakeup | Act r => resp S r end).

(** A program that does not wait, among those that do. *)
Fixpoint acting {S A} (p : prog S A) : prog (Ticks S) A :=
  match p with
  | Ret a => Ret a
  | Call r k => Call (S := Ticks S) (Act r) (λ x, acting (k x))
  end.

Definition acted {S} (e : event S) : event (Ticks S) := ev (S := Ticks S) (Act (projT1 e)) (projT2 e).

(** How a loop ends: it returned nil, a panic unwound it, or it goes on after the
    rounds that were allowed. *)
Inductive loop_end := Returned | Crashed | Running.

(** [for { select { ... } }]: what the body does at a tick either comes back or panics. *)
Fixpoint tickLoop {S} (body : prog S (outcome unit)) (rounds : nat) : prog (Ticks S) loop_end :=
  match rounds with
  | O => mret Running
  | Datatypes.S rounds' =>
      w ← call (S := Ticks S) Select;
      match w with
      | ContextDone => mret Returned
      | Tick => o ← acting body; match o with Panics => mret Crashed | _ => tickLoop body rounds' end
      end
  end.

(** [time.NewTicker] panics unless the interval is positive. *)
Definition withTicker {S} (interval : Z) (loop : prog (Ticks S) loop_end) : prog (Ticks S) loop_end :=
  if decide (0 < interval) then loop else mret Crashed.

Section loops.
Context `{Host} `{GoOrder}.

(** A poll that fails is logged. *)
Definition startScraper (s : GpuMetricsScraper) (rounds : nat) : prog (Ticks GpuSig) loop_end :=
  withTicker (pollInterval s) (tickLoop (_ ← poll s; mret (Ok tt)) rounds).

Context `{WorkloadLib} (ErrorText : error → string).

Definition startWatcher (m : MetricsWatcher) (rounds : nat) : prog (Ticks WorkSig) loop_end :=
  withTicker (mw_pollInterval m) (tickLoop (tick ErrorText m) rounds).

End loops.

(** * Polls *)

Lemma always_acting {S A} (p : prog S A) (Q : trace S → A → Prop) :
  always anything p Q → always anything (acting p) (λ tr a, ∃ tr', tr = acted <$> tr' ∧ Q tr' a).
Proof.
  revert Q. induction p as [a|r k IH]; intros Q; simpl; [by exists []|]. intros Hk x _.
  eapply always_mono; [apply IH, Hk; done|]. cbv beta. intros tr a (tr' & -> & HQ). by exists (ev r x :: tr').
Qed.

(** What a loop does: polls that came back, each after its tick, and then one of four
    ends. *)
Section rounds.
Context {S : sig} (body : prog S (outcome unit)).

Definition polled (tr : trace S) (o : outcome unit) : Prop := exec anything body tr o.
Definition atTick (tr : trace S) : trace (Ticks S) := ev (S := Ticks S) Select Tick :: (acted <$> tr).

Inductive polls : nat → trace (Ticks S) → loop_end → Prop :=
| polls_out : polls O [] Running
| polls_done n : polls (Datatypes.S n) [ev (S := Ticks S) Select ContextDone] Returned
| polls_crash n tr : polled tr Panics → polls (Datatypes.S n) (atTick tr) Crashed
| polls_tick n tr o tr' e : polled tr o → o ≠ Panics → polls n tr' e → polls (Datatypes.S n) (atTick tr ++ tr') e.

Lemma tickLoop_polls n : always anything (tickLoop body n) (polls n).
Proof.
  induction n as [|n IH]; [by constructor|]. cbn [tickLoop]. apply always_call. intros [|] _; [by constructor|].
  apply always_bind. eapply always_mono; [apply (always_acting body polled); apply always_exec; by intros|].
  intros tr o (tr' & -> & Ho). destruct o as [a|e|].
  - eapply always_mono; [exact IH|]. intros tr'' en Hen. by apply (polls_tick n tr' (Ok a)).
  - eapply always_mono; [exact IH|]. intros tr'' en Hen. by apply (polls_tick n tr' (Err e)).
  - cbn. rewrite app_nil_r. by apply polls_crash.
Qed.

(** The last thing a loop that returned heard is that the context is done, and it did
    not hear so before. *)
Lemma polls_returned n tr :
  polls n tr Returned → ∃ tr', tr = tr' ++ [ev (S := Ticks S) Select ContextDone] ∧ ev (S := Ticks S) Select ContextDone ∉ tr'.
Proof.
  remember Returned as en eqn:E. induction 1 as [|n|n tr Htr|n tr o tr' en Htr Ho Hp IH]; try done.
  - exists []. split; [done|]. apply not_elem_of_nil.
  - destruct (IH E) as (t & -> & Ht). exists (atTick tr ++ t). rewrite app_assoc. split; [done|].
    intros [Hin|?]%elem_of_app; [|done]. apply elem_of_cons in Hin as [Hin|(e & He & _)%list_elem_of_fmap]; [|done].
    by apply (f_equal (λ e : event (Ticks S), match e with existT Select x => match x with Tick => true | ContextDone => false end | _ => false end)) in Hin.
Qed.
End rounds.

(** * The two loops *)

Section theory.
Context `{Host} `{GoOrder} `{WorkloadLib} (ErrorText : error → string).

Lemma withTicker_started {S} interval (loop : prog (Ticks S) loop_end) : 0 < interval → withTicker interval loop = loop.
Proof. intros. unfold withTicker. by rewrite decide_True. Qed.

Definition pollAndLog (s : GpuMetricsScraper) : prog GpuSig (outcome unit) := _ ← poll s; mret (Ok tt).

Lemma pollAndLog_returns s tr : ¬ polled (pollAndLog s) tr Panics.
Proof.
  intros Hex. assert (always anything (pollAndLog s) (λ _ o, o ≠ Panics)) as Hno.
  { apply always_bind. eapply always_mono; [apply always_true|]. done. }
  by apply (exec_always _ _ _ _ Hex _ Hno).
Qed.

Lemma polls_no_crash {S} (body : prog S (outcome unit)) n tr : (∀ tr, ¬ polled body tr Panics) → ¬ polls body n tr Crashed.
Proof. intros Hno Hp. remember Crashed as e eqn:E. induction Hp; try done; naive_solver. Qed.

(** The scraper polls at every tick whatever became of the polls before, and goes on
    until its context is done. *)
Lemma startScraper_survives s n :
  0 < pollInterval s →
  always anything (startScraper s n) (λ tr e, polls (pollAndLog s) n tr e ∧ e ≠ Crashed).
Proof.
  intros Hi. unfold startScraper. rewrite withTicker_started by done. eapply always_mono; [apply (tickLoop_polls (pollAndLog s))|].
  intros tr e Hp. split; [done|]. intros ->. eapply polls_no_crash; [|exact Hp]. apply pollAndLog_returns.
Qed.

(** The watcher does as well, unless a tick panics. *)
Lemma startWatcher_survives m n :
  0 < mw_pollInterval m →
  always anything (startWatcher ErrorText m n) (polls (tick ErrorText m) n).
Proof. intros Hi. unfold startWatcher. rewrite withTicker_started by done. apply tickLoop_polls. Qed.

(** An interval that is not positive is accepted, and takes the operator down when the
    loops start. *)
Lemma idle_interval_crashes s m n n' :
  pollInterval s ≤ 0 → mw_pollInterval m ≤ 0 →
  startScraper s n = mret Crashed ∧ startWatcher ErrorText m n' = mret Crashed.
Proof. intros. unfold startScraper, startWatcher, withTicker. by rewrite !decide_False by lia. Qed.

End theory.
