(* ===== verification/Startup.v ===== *)
(** The operator's entry point (cmd/operator/main.go): schemes, TLS options, the
    manager with its controllers, webhooks and runnables, and the configuration that
    is ensured before the manager starts (pkg/workloads/common/config.go). *)

From stdpp Require Import gmap strings list pretty.
From Stdlib Require Import ZArith Lia.
From S2P Require Import Prelude History Float64 Types GpuResources Scraper Monitoring.

(** * Settings *)

(** The flags of the command line, as parsed. *)
Record Flags := {
  fl_metricsAddr : string;
  fl_probeAddr : string;
  fl_enableLeaderElection : bool;
  fl_secureMetrics : bool;
  fl_webhookCertPath : string;
  fl_webhookCertName : string;
  fl_webhookCertKey : string;
  fl_metricsCertPath : string;
  fl_metricsCertName : string;
  fl_metricsCertKey : string;
  fl_enableHTTP2 : bool
}.

Definition defaultFlags : Flags := {|
  fl_metricsAddr := "0"; fl_probeAddr := ":8081"; fl_enableLeaderElection := false; fl_secureMetrics := true;
  fl_webhookCertPath := ""; fl_webhookCertName := "tls.crt"; fl_webhookCertKey := "tls.key";
  fl_metricsCertPath := ""; fl_metricsCertName := "tls.crt"; fl_metricsCertKey := "tls.key"; fl_enableHTTP2 := false |}.

(** A certificate and its key, watched on disk. *)
Record CertWatcher := { cwt_Cert : string; cwt_Key : string }.

(** The fields of [tls.Config] the code sets, and the functions that set them. *)
Record TLSConfig := { tls_NextProtos : list string; tls_GetCertificate : option CertWatcher }.

Inductive TLSOpt := disableHTTP2 | getCertificate (w : CertWatcher).

Definition applyTLSOpt (c : TLSConfig) (o : TLSOpt) : TLSConfig :=
  match o with
  | disableHTTP2 => {| tls_NextProtos := ["http/1.1"]; tls_GetCertificate := tls_GetCertificate c |}
  | getCertificate w => {| tls_NextProtos := tls_NextProtos c; tls_GetCertificate := Some w |}
  end.

(** What a server makes of its options, in order. *)
Definition configured (opts : list TLSOpt) (c : TLSConfig) : TLSConfig := foldl applyTLSOpt c opts.

Record MetricsServerOptions := {
  mso_BindAddress : string;
  mso_SecureServing : bool;
  mso_TLSOpts : list TLSOpt;
  mso_Authenticated : bool
}.

Record WebhookServerOptions := { wso_CertDir : string; wso_TLSOpts : list TLSOpt }.

Record ManagerOptions := {
  mo_Metrics : MetricsServerOptions;
  mo_HealthProbeBindAddress : string;
  mo_LeaderElection : bool;
  mo_LeaderElectionID : string;
  mo_WebhookServer : option WebhookServerOptions
}.

(** * Calls *)

Inductive ControllerName :=
| KaiwoJobController | KaiwoServiceController | KaiwoQueueConfigController | GpuWorkloadController (holderID : string).

Inductive WebhookName := JobWebhook | RayJobWebhook | RayServiceWebhook | DeploymentWebhook.

(** What the manager runs besides controllers. *)
Inductive Runnable :=
| defaultQueueConfig
| certWatcher (w : CertWatcher)
| gpuScraper (s : GpuMetricsScraper)
| metricsWatcher (w : MetricsWatcher).

Inductive start_req :=
| AddToScheme (api : string)
| NewCertWatcher (w : CertWatcher)
| GetRestConfig
| NewManager (o : ManagerOptions)
| Complete (c : ControllerName)
| CompleteWebhook (w : WebhookName)
| Add (r : Runnable)
| HostName
| ProcessId
| NewClient
| GetKaiwoConfigObject (name : string)
| CreateKaiwoConfigObject (name : string)
| AddHealthzCheck (name : string)
| AddReadyzCheck (name : string)
| StartManager.

Definition start_resp (r : start_req) : Type :=
  match r with
  | HostName => error + string
  | ProcessId => Z
  | _ => option error
  end.

Definition StartSig : sig := Sig start_req start_resp.
Abbreviation SM := (prog StartSig).

(** * The entry point *)

(** Going on when a step succeeded, and passing its error on as it is. *)
Definition orStop {S A B} (p : prog S (outcome A)) (k : A → prog S (outcome B)) : prog S (outcome B) :=
  o ← p; match o with Ok a => k a | Err e => mret (Err e) | Panics => mret Panics end.
Notation "x ⇐ p ; k" := (orStop p (λ x, k)) (at level 100, p at next level, k at level 200, right associativity) : go_scope.
Section startup.
Context `{Host} (ErrorText : error → string) (DurationError : string → error) (JoinPath : string → string → string).

(** [if err = f(); err != nil { ... }] of a call. *)
Definition attempt (r : start_req) (as_error : start_resp r → option error) : SM (outcome unit) :=
  x ← call (S := StartSig) r; mret (of_err (as_error x)).

(** [init]: every API is added to the scheme; [utilruntime.Must] panics. *)
Definition schemeAPIs : list string := ["client-go"; "kaiwo"; "config"; "kueue/v1beta1"; "kueue/v1alpha1"; "ray"; "appwrapper"].

Definition init : SM (outcome unit) :=
  r ← for_range schemeAPIs tt (λ api _,
        e ← call (S := StartSig) (AddToScheme api);
        mret (match e with Some _ => Return tt | None => Continue tt end));
  mret (match r with inl _ => Ok tt | inr _ => Panics end).

(** A watcher of a certificate, when one is to be used. *)
Definition watchCert (wanted : bool) (path name key msg : string) : SM (outcome (option CertWatcher)) :=
  if wanted then
    let w := {| cwt_Cert := JoinPath path name; cwt_Key := JoinPath path key |} in
    _ ←? attempt (NewCertWatcher w) id else msg;
    mret (Ok (Some w))
  else mret (Ok None).

Definition certOpts (w : option CertWatcher) : list TLSOpt := match w with Some w => [getCertificate w] | None => [] end.

Definition webhooksEnabled : bool := bool_decide (GetEnv "DISABLE_WEBHOOKS" "true" ≠ "true").
Definition certDirectory : string := GetEnv "WEBHOOK_CERT_DIRECTORY" "".
Definition tlsOpts (fl : Flags) : list TLSOpt := if fl_enableHTTP2 fl then [] else [disableHTTP2].

Definition metricsServerOptions (fl : Flags) : MetricsServerOptions :=
  {| mso_BindAddress := fl_metricsAddr fl; mso_SecureServing := fl_secureMetrics fl; mso_TLSOpts := tlsOpts fl;
     mso_Authenticated := fl_secureMetrics fl |}.

(** The options are complete before the metrics certificate is looked at: what is
    appended to [metricsServerOptions.TLSOpts] afterwards stays in the local copy. *)
Definition managerOptions (fl : Flags) (webhookCert : option CertWatcher) : ManagerOptions :=
  {| mo_Metrics := metricsServerOptions fl; mo_HealthProbeBindAddress := fl_probeAddr fl;
     mo_LeaderElection := fl_enableLeaderElection fl; mo_LeaderElectionID := "83fc2279.silogen.ai";
     mo_WebhookServer :=
       if webhooksEnabled then
         Some (if decide (certDirectory ≠ "") then {| wso_CertDir := certDirectory; wso_TLSOpts := [] |}
               else {| wso_CertDir := ""; wso_TLSOpts := tlsOpts fl ++ certOpts webhookCert |})
       else None |}.

(** [SetupWithManager] of the controllers. *)
Definition setupKaiwoJob : SM (outcome unit) := attempt (Complete KaiwoJobController) id.
Definition setupKaiwoService : SM (outcome unit) := attempt (Complete KaiwoServiceController) id.

Definition setupKaiwoQueueConfig : SM (outcome unit) :=
  added ← call (S := StartSig) (Add defaultQueueConfig);
  match added with
  | Some e => mret (Err e)
  | None => attempt (Complete KaiwoQueueConfigController) id
  end.

Definition setupGpuWorkload : SM (outcome unit) :=
  got ← call (S := StartSig) HostName;
  let hostname := match got with inl _ => "unknown" | inr name => name end in
  pid ← call (S := StartSig) ProcessId;
  attempt (Complete (GpuWorkloadController ("gpuworkload-" +:+ hostname +:+ "-" +:+ pretty (pid : Z)))) id.

(** Injecting the decoder into the job webhook cannot fail. *)
Definition setupWebhooks : SM (outcome unit) :=
  _ ←? attempt (CompleteWebhook JobWebhook) id else "Unable to create webhook";
  _ ←? attempt (CompleteWebhook RayJobWebhook) id else "unable to create webhook";
  _ ←? attempt (CompleteWebhook RayServiceWebhook) id else "unable to create webhook";
  _ ←? attempt (CompleteWebhook DeploymentWebhook) id else "unable to create webhook";
  mret (Ok tt).

Definition addWatcher (w : option CertWatcher) (msg : string) : SM (outcome unit) :=
  match w with
  | Some w => _ ←? attempt (Add (certWatcher w)) id else msg; mret (Ok tt)
  | None => mret (Ok tt)
  end.

Definition EnvEnabled : string := EnvGpuPreemptionPrefix +:+ "ENABLED".
Definition IsGpuPreemptionEnabled : bool := bool_decide (Getenv EnvEnabled = "true").

Definition setupGpuPreemption : SM (outcome unit) :=
  if IsGpuPreemptionEnabled then
    _ ←? setupGpuWorkload else "unable to create controller";
    scraper ←? mret (of_sum NewGpuMetricsScraper) else "unable to create GPU metrics scraper";
    _ ←? attempt (Add (gpuScraper scraper)) id else "unable to add GPU metrics scraper to manager";
    mret (Ok tt)
  else mret (Ok tt).

Definition setupMonitoring : SM (outcome unit) :=
  if IsMetricsMonitoringEnabled then
    watcher ←? mret (of_sum (NewMetricsWatcherFromEnv ErrorText DurationError)) else "unable to create metrics watcher";
    _ ←? attempt (Add (metricsWatcher watcher)) id else "unable to add metrics watcher to manager";
    mret (Ok tt)
  else mret (Ok tt).

Definition createDefaultConfig : SM (outcome unit) := attempt (CreateKaiwoConfigObject "kaiwo") id.

(** Any error of the read leads to a creation. *)
Definition EnsureConfig : SM (outcome unit) :=
  got ← call (S := StartSig) (GetKaiwoConfigObject "kaiwo");
  match got with
  | None => mret (Ok tt)
  | Some _ =>
      _ ←? createDefaultConfig else "could not create default Kaiwo Config";
      mret (Ok tt)
  end.

Definition ensureConfigExists : SM (outcome unit) :=
  _ ←? attempt NewClient id else "unable to create client";
  _ ←? EnsureConfig else "unable to ensure config exists";
  mret (Ok tt).

(** [main] up to the start of the manager. An error stands for the message that is
    logged before [os.Exit(1)]. *)
Definition prepare (fl : Flags) : SM (outcome unit) :=
  webhookCert ⇐ watchCert (bool_decide (fl_webhookCertPath fl ≠ "") && webhooksEnabled)
    (fl_webhookCertPath fl) (fl_webhookCertName fl) (fl_webhookCertKey fl) "Failed to initialize webhook certificate watcher";
  metricsCert ⇐ watchCert (bool_decide (fl_metricsCertPath fl ≠ ""))
    (fl_metricsCertPath fl) (fl_metricsCertName fl) (fl_metricsCertKey fl) "to initialize metrics certificate watcher";
  _ ←? attempt GetRestConfig id else "unable to get kubeconfig";
  _ ←? attempt (NewManager (managerOptions fl webhookCert)) id else "unable to start manager";
  _ ←? setupKaiwoJob else "unable to create controller";
  _ ←? setupKaiwoService else "unable to create controller";
  _ ←? setupKaiwoQueueConfig else "unable to create controller";
  _ ⇐ (if webhooksEnabled then setupWebhooks else mret (Ok tt));
  _ ⇐ addWatcher metricsCert "unable to add metrics certificate watcher to manager";
  _ ⇐ addWatcher (if webhooksEnabled then webhookCert else None) "unable to add webhook certificate watcher to manager";
  _ ⇐ setupGpuPreemption;
  _ ⇐ setupMonitoring;
  _ ←? ensureConfigExists else "unable to ensure config exists";
  _ ←? attempt (AddHealthzCheck "healthz") id else "unable to set up health check";
  _ ←? attempt (AddReadyzCheck "readyz") id else "unable to set up ready check";
  mret (Ok tt).

Definition main (fl : Flags) : SM (outcome unit) :=
  _ ⇐ prepare fl;
  _ ←? attempt StartManager id else "problem running manager";
  mret (Ok tt).

(** The process: [init] runs before [main]. *)
Definition process (fl : Flags) : SM (outcome unit) := _ ⇐ init; main fl.

(** * Milestones *)

(** The answer of a call is an error. *)
Definition failed (e : event StartSig) : bool :=
  match e with
  | existT HostName x => match x with inl _ => true | inr _ => false end
  | existT ProcessId _ => false
  | existT (AddToScheme _ as r) x | existT (NewCertWatcher _ as r) x | existT (GetRestConfig as r) x
  | existT (NewManager _ as r) x | existT (Complete _ as r) x | existT (CompleteWebhook _ as r) x | existT (Add _ as r) x
  | existT (NewClient as r) x | existT (GetKaiwoConfigObject _ as r) x | existT (CreateKaiwoConfigObject _ as r) x
  | existT (AddHealthzCheck _ as r) x | existT (AddReadyzCheck _ as r) x | existT (StartManager as r) x => bool_decide (x ≠ None)
  end.

(** Failures the code carries on after. *)
Definition tolerated (e : event StartSig) : bool :=
  match projT1 e with HostName | GetKaiwoConfigObject _ => true | _ => false end.

Definition harmless (h : trace StartSig) : Prop := ∀ e, e ∈ h → failed e = true → tolerated e = true.

Inductive milestone := Made (r : start_req) | ConfigEnsured | PreemptionControlled.

Definition made (h : trace StartSig) (r : start_req) : Prop := ∃ x, ev (S := StartSig) r x ∈ h ∧ failed (ev (S := StartSig) r x) = false.

Definition reached (h : trace StartSig) (m : milestone) : Prop :=
  match m with
  | Made r => made h r
  | ConfigEnsured => made h (GetKaiwoConfigObject "kaiwo") ∨ made h (CreateKaiwoConfigObject "kaiwo")
  | PreemptionControlled => ∃ id, made h (Complete (GpuWorkloadController id))
  end.

(** The certificates that are watched. *)
Definition watched (wanted : bool) (path name key : string) : option CertWatcher :=
  if wanted then Some {| cwt_Cert := JoinPath path name; cwt_Key := JoinPath path key |} else None.
Definition webhookCertOf (fl : Flags) : option CertWatcher :=
  watched (bool_decide (fl_webhookCertPath fl ≠ "") && webhooksEnabled)
    (fl_webhookCertPath fl) (fl_webhookCertName fl) (fl_webhookCertKey fl).
Definition metricsCertOf (fl : Flags) : option CertWatcher :=
  watched (bool_decide (fl_metricsCertPath fl ≠ "")) (fl_metricsCertPath fl) (fl_metricsCertName fl) (fl_metricsCertKey fl).

Definition watching (w : option CertWatcher) (made : CertWatcher → start_req) : list milestone :=
  match w with Some w => [Made (made w)] | None => [] end.

Definition webhookMilestones : list milestone :=
  if webhooksEnabled then (λ w, Made (CompleteWebhook w)) <$> [JobWebhook; RayJobWebhook; RayServiceWebhook; DeploymentWebhook] else [].

Definition preemptionMilestones : list milestone :=
  if IsGpuPreemptionEnabled then PreemptionControlled :: match NewGpuMetricsScraper with inr s => [Made (Add (gpuScraper s))] | inl _ => [] end
  else [].

Definition monitoringMilestones : list milestone :=
  if IsMetricsMonitoringEnabled then
    match NewMetricsWatcherFromEnv ErrorText DurationError with inr w => [Made (Add (metricsWatcher w))] | inl _ => [] end
  else [].

(** Everything the manager needs before it starts. *)
Definition milestones (fl : Flags) : list milestone :=
  watching (webhookCertOf fl) NewCertWatcher ++ watching (metricsCertOf fl) NewCertWatcher ++
  [Made GetRestConfig; Made (NewManager (managerOptions fl (webhookCertOf fl))); Made (Complete KaiwoJobController);
   Made (Complete KaiwoServiceController); Made (Add defaultQueueConfig); Made (Complete KaiwoQueueConfigController)] ++
  webhookMilestones ++ watching (metricsCertOf fl) (λ w, Add (certWatcher w)) ++
  watching (webhookCertOf fl) (λ w, Add (certWatcher w)) ++ preemptionMilestones ++ monitoringMilestones ++
  [Made NewClient; ConfigEnsured; Made (AddHealthzCheck "healthz"); Made (AddReadyzCheck "readyz")].

(** The settings of the enabled parts can be read. *)
Definition settings_ok : Prop :=
  (IsGpuPreemptionEnabled = true → ∃ s, NewGpuMetricsScraper = inr s) ∧
  (IsMetricsMonitoringEnabled = true → ∃ w, NewMetricsWatcherFromEnv ErrorText DurationError = inr w).

Definition ready (fl : Flags) (h : trace StartSig) : Prop :=
  settings_ok ∧ Forall (reached h) (milestones fl).

(** Nothing is called after a failure that stops the process; the manager starts
    when everything is ready; a configuration is created only right after it could not
    be read; and the manager is made with these options. *)
Definition accounted (fl : Flags) (h : trace StartSig) (e : event StartSig) : Prop :=
  harmless h ∧ (projT1 e = StartManager → ready fl h) ∧
  (projT1 e = CreateKaiwoConfigObject "kaiwo" →
     ∃ h' x, h = h' ++ [ev (S := StartSig) (GetKaiwoConfigObject "kaiwo") (Some x)]) ∧
  (∀ o, projT1 e = NewManager o → o = managerOptions fl (webhookCertOf fl)).

(** * What preparing does *)

Lemma made_mono h h' r : h ⊆ h' → made h r → made h' r.
Proof. intros Hsub (x & Hx & Hf). exists x. auto. Qed.

Lemma reached_mono h h' m : h ⊆ h' → reached h m → reached h' m.
Proof. intros Hsub. destruct m; simpl; [by apply made_mono|intros [?|?]; [left|right]|intros [id ?]; exists id]; by eapply made_mono. Qed.

(** What is known after a step: nothing stopped the process, and these milestones are
    reached. *)
Definition known (h : trace StartSig) (L : list milestone) : Prop := harmless h ∧ Forall (reached h) L.

(** From where [L] is known, [p] keeps to the account, and when it succeeds with [a]
    it has reached the milestones [R] and [V a] holds. *)
Definition does {A} (fl : Flags) (p : SM (outcome A)) (V : A → Prop) (R : list milestone) : Prop :=
  ∀ h L, known h L → traced (accounted fl) h p (λ h' o, match o with Ok a => h ⊆ h' ∧ known h' (L ++ R) ∧ V a | _ => True end).

Lemma known_app h L R : known h L → Forall (reached h) R → known h (L ++ R).
Proof. intros [Hh HL] HR. split; [done|]. by apply Forall_app. Qed.

Lemma known_grows h h' L : h ⊆ h' → harmless h' → known h L → known h' L.
Proof. intros Hsub Hh' [_ HL]. split; [done|]. eapply Forall_impl; [exact HL|]. intros m. by apply reached_mono. Qed.

Lemma harmless_snoc h e : harmless h → (failed e = true → tolerated e = true) → harmless (h ++ [e]).
Proof. intros Hh He e' [?|He'%list_elem_of_singleton]%elem_of_app; subst; auto. Qed.

Lemma snoc_sub (h : trace StartSig) e : h ⊆ h ++ [e].
Proof. intros e' He'. apply elem_of_app. by left. Qed.

Lemma does_ret {A} fl (a : A) (V : A → Prop) : V a → does fl (mret (Ok a)) V [].
Proof. intros HV h L HL. apply traced_ret. rewrite app_nil_r. auto. Qed.

Lemma does_fail {A} fl e (V : A → Prop) R : does fl (mret (Err e)) V R.
Proof. intros h L HL. by apply traced_ret. Qed.

Lemma does_weaken {A} fl (p : SM (outcome A)) (V V' : A → Prop) R :
  does fl p V R → (∀ a, V a → V' a) → does fl p V' R.
Proof.
  intros Hp HV h L HL. eapply traced_mono; [by apply Hp|]. intros h' [a|e|] _ Ha; [|done..]. naive_solver.
Qed.

Lemma does_then {A B} fl (p : SM (outcome A)) (k : A → SM (outcome B)) V V' R R' h L (Q : error → error) :
  does fl p V R → (∀ a, V a → does fl (k a) V' R') → known h L →
  traced (accounted fl) h (o ← p; match o with Ok a => k a | Err e => mret (Err (Q e)) | Panics => mret Panics end)
    (λ h' o, match o with Ok b => h ⊆ h' ∧ known h' (L ++ R ++ R') ∧ V' b | _ => True end).
Proof.
  intros Hp Hk HL. apply traced_bind. eapply traced_mono; [by apply Hp|]. intros h' [a|e|] _; [|by intros _; apply traced_ret..].
  intros (Hsub & HL' & HV). eapply traced_mono; [apply Hk; [exact HV|exact HL']|]. intros h'' [b|e|] Hsub' Hb; [|done..].
  rewrite (app_assoc L R R'). destruct Hb as (? & ? & ?). split; [|done]. by etransitivity.
Qed.

Lemma does_orFail {A B} fl msg (p : SM (outcome A)) (k : A → SM (outcome B)) V V' R R' :
  does fl p V R → (∀ a, V a → does fl (k a) V' R') → does fl (orFail msg p k) V' (R ++ R').
Proof. intros Hp Hk h L HL. by apply (does_then fl p k V V' R R' h L (Wrapf msg)). Qed.

Lemma does_orStop {A B} fl (p : SM (outcome A)) (k : A → SM (outcome B)) V V' R R' :
  does fl p V R → (∀ a, V a → does fl (k a) V' R') → does fl (orStop p k) V' (R ++ R').
Proof. intros Hp Hk h L HL. by apply (does_then fl p k V V' R R' h L id). Qed.

(** A call that stops the process when it fails. *)
Definition plain (r : start_req) : Prop :=
  match r with HostName | ProcessId | StartManager | CreateKaiwoConfigObject _ | NewManager _ => False | _ => True end.

Lemma does_attempt fl r as_error :
  plain r ∨ r = NewManager (managerOptions fl (webhookCertOf fl)) → (∀ x, failed (ev (S := StartSig) r x) = bool_decide (as_error x ≠ None)) → does fl (attempt r as_error) (λ _, True) [Made r].
Proof.
  intros Hr Hf h L [Hh HL]. unfold attempt. apply traced_call. intros x. split.
  { split; [done|]. destruct Hr as [Hr| ->]; [by destruct r|naive_solver]. }
  apply traced_ret. destruct (as_error x) as [e|] eqn:E; [done|]. simpl. split; [apply snoc_sub|]. split; [|done].
  specialize (Hf x). rewrite E in Hf. apply known_app.
  - apply (known_grows h); [apply snoc_sub| |done]. apply harmless_snoc; [done|]. rewrite Hf. done.
  - apply Forall_singleton. exists x. split; [|by rewrite Hf]. apply elem_of_app. right. by apply list_elem_of_singleton.
Qed.

Lemma does_value {A} fl (x : error + A) : does fl (mret (of_sum x)) (λ a, x = inr a) [].
Proof. destruct x; [apply does_fail|by apply does_ret]. Qed.

(** Milestones that follow from others. *)
Lemma does_implies {A} fl (p : SM (outcome A)) (V : A → Prop) R R' :
  does fl p V R → (∀ h, Forall (reached h) R → Forall (reached h) R') → does fl p V R'.
Proof.
  intros Hp HR h L HL. eapply traced_mono; [by apply Hp|]. intros h' [a|e|] _; [|done..]. intros (? & [? [? ?]%Forall_app] & ?).
  split_and!; [done|split; [done|]|done]. apply Forall_app. auto.
Qed.

Lemma does_same {A} fl (p : SM (outcome A)) (V : A → Prop) R R' : does fl p V R → R = R' → does fl p V R'.
Proof. by intros ? <-. Qed.

(** A call whose failure is tolerated. *)
Lemma does_tolerated {A} fl r (k : start_resp r → SM (outcome A)) V R :
  plain r ∨ r = HostName ∨ r = ProcessId → (∀ x, failed (ev (S := StartSig) r x) = true → tolerated (ev (S := StartSig) r x) = true) →
  (∀ x, does fl (k x) V R) → does fl (call (S := StartSig) r ≫= k) V R.
Proof.
  intros Hr Ht Hk h L [Hh HL]. apply traced_call. intros x. split.
  { split; [done|]. destruct r; naive_solver. }
  eapply traced_mono; [apply (Hk x _ L), (known_grows h); [apply snoc_sub|by apply harmless_snoc; [|apply Ht]|done]|].
  intros h' [a|e|] _; [|done..]. intros (? & ? & ?). split_and!; [|done..]. by etransitivity; [apply snoc_sub|].
Qed.

Create HintDb startup.

(** Step through a program that fails at its first failure. *)
Ltac do_step :=
  match goal with
  | |- does _ (orFail _ _ _) _ _ => eapply does_orFail; [do_step|intros ? ?; do_step]
  | |- does _ (orStop _ _) _ _ => eapply does_orStop; [do_step|intros ? ?; do_step]
  | |- does _ (attempt _ _) _ _ => apply does_attempt; [first [left; exact I|right; reflexivity]|reflexivity]
  | |- does _ (mret (Ok _)) _ _ => apply (does_ret _ _ (λ _, True)); exact I
  | |- _ => solve [eauto with startup]
  end.

Lemma does_watchCert fl wanted path name key msg :
  does fl (watchCert wanted path name key msg) (λ w, w = watched wanted path name key)
    (watching (watched wanted path name key) NewCertWatcher).
Proof.
  unfold watchCert, watched, watching. destruct wanted; [|by apply does_ret].
  eapply does_same; [eapply does_orFail; [do_step|intros ? _; by apply does_ret]|done].
Qed.

Lemma does_addWatcher fl w msg : does fl (addWatcher w msg) (λ _, True) (watching w (λ w, Add (certWatcher w))).
Proof. destruct w; [eapply does_same; [simpl; do_step|done]|by apply does_ret]. Qed.

Lemma does_setupKaiwoQueueConfig fl :
  does fl setupKaiwoQueueConfig (λ _, True) [Made (Add defaultQueueConfig); Made (Complete KaiwoQueueConfigController)].
Proof.
  assert (setupKaiwoQueueConfig = (_ ⇐ attempt (Add defaultQueueConfig) id; attempt (Complete KaiwoQueueConfigController) id)) as ->.
  { unfold setupKaiwoQueueConfig. cbn. f_equal. apply FunctionalExtensionality.functional_extensionality. by intros [e|]. }
  eapply does_same; [do_step|done].
Qed.

Lemma does_setupWebhooks fl : does fl (if webhooksEnabled then setupWebhooks else mret (Ok tt)) (λ _, True) webhookMilestones.
Proof.
  unfold webhookMilestones. destruct webhooksEnabled; [|by apply does_ret]. eapply does_same; [unfold setupWebhooks; do_step|done].
Qed.

Lemma does_setupGpuWorkload fl : does fl setupGpuWorkload (λ _, True) [PreemptionControlled].
Proof.
  apply does_tolerated; [auto|done|]. intros got. apply does_tolerated; [auto|done|]. intros pid.
  eapply does_implies; [do_step|]. intros h Hh. rewrite Forall_singleton in Hh. apply Forall_singleton. by eexists.
Qed.

#[local] Hint Resolve does_watchCert does_addWatcher does_setupKaiwoQueueConfig does_setupWebhooks does_setupGpuWorkload : startup.

Lemma does_setupGpuPreemption fl :
  does fl setupGpuPreemption (λ _, IsGpuPreemptionEnabled = true → ∃ s, NewGpuMetricsScraper = inr s) preemptionMilestones.
Proof.
  unfold setupGpuPreemption, preemptionMilestones. destruct IsGpuPreemptionEnabled; [|by apply does_ret].
  apply (does_orFail _ _ _ _ (λ _, True) _ [PreemptionControlled]); [do_step|intros _ _].
  apply (does_orFail _ _ _ _ (λ s, NewGpuMetricsScraper = inr s) _ []); [apply does_value|intros s Hs]. rewrite Hs.
  eapply does_same; [eapply does_orFail; [do_step|intros _ _; apply does_ret; eauto]|done].
Qed.

Lemma does_setupMonitoring fl :
  does fl setupMonitoring (λ _, IsMetricsMonitoringEnabled = true → ∃ w, NewMetricsWatcherFromEnv ErrorText DurationError = inr w)
    monitoringMilestones.
Proof.
  unfold setupMonitoring, monitoringMilestones. destruct IsMetricsMonitoringEnabled; [|by apply does_ret].
  apply (does_orFail _ _ _ _ (λ w, NewMetricsWatcherFromEnv ErrorText DurationError = inr w) _ []); [apply does_value|intros w Hw]. rewrite Hw.
  eapply does_same; [eapply does_orFail; [do_step|intros _ _; apply does_ret; eauto]|done].
Qed.

(** The configuration is created right after a read that failed. *)
Lemma does_EnsureConfig fl : does fl EnsureConfig (λ _, True) [ConfigEnsured].
Proof.
  intros h L HL. pose proof HL as [Hh _]. unfold EnsureConfig. apply traced_call. intros got. split; [done|].
  assert (known (h ++ [ev (S := StartSig) (GetKaiwoConfigObject "kaiwo") got]) L) as HL1.
  { apply (known_grows h); [apply snoc_sub|by apply harmless_snoc|done]. }
  destruct got as [e|].
  - unfold orFail, createDefaultConfig, attempt. apply traced_bind, traced_call. intros x. split.
    { split; [apply HL1|]. split; [done|]. split; [|done]. intros _. by exists h, e. }
    destruct x as [e'|]; [by apply traced_ret, traced_ret|]. apply traced_ret, traced_ret. split_and!; [|split|done].
    + rewrite <- app_assoc. intros e' He'. apply elem_of_app. by left.
    + apply harmless_snoc; [apply HL1|done].
    + destruct HL1 as [_ HL1]. apply Forall_app. split.
      { eapply Forall_impl; [exact HL1|]. intros m. apply reached_mono, snoc_sub. }
      apply Forall_singleton. right. exists None. split; [|done]. apply elem_of_app. right. by apply list_elem_of_singleton.
  - apply traced_ret. split_and!; [apply snoc_sub| |done]. apply known_app; [done|]. apply Forall_singleton. left. exists None.
    split; [|done]. apply elem_of_app. right. by apply list_elem_of_singleton.
Qed.

#[local] Hint Resolve does_setupGpuPreemption does_setupMonitoring does_EnsureConfig : startup.

Lemma does_ensureConfigExists fl : does fl ensureConfigExists (λ _, True) [Made NewClient; ConfigEnsured].
Proof. eapply does_same; [unfold ensureConfigExists; do_step|done]. Qed.

#[local] Hint Resolve does_ensureConfigExists : startup.

Lemma does_setupKaiwoJob fl : does fl setupKaiwoJob (λ _, True) [Made (Complete KaiwoJobController)].
Proof. unfold setupKaiwoJob. do_step. Qed.
Lemma does_setupKaiwoService fl : does fl setupKaiwoService (λ _, True) [Made (Complete KaiwoServiceController)].
Proof. unfold setupKaiwoService. do_step. Qed.

#[local] Hint Resolve does_setupKaiwoJob does_setupKaiwoService : startup.

Lemma does_prepare fl : does fl (prepare fl) (λ _, settings_ok) (milestones fl).
Proof.
  unfold prepare, milestones. eapply does_orStop; [apply does_watchCert|intros ? ->].
  eapply does_orStop; [apply does_watchCert|intros ? ->].
  eapply does_same.
  - do 5 (eapply does_orFail; [do_step|intros _ _]). do 3 (eapply does_orStop; [do_step|intros _ _]).
    eapply does_orStop; [do_step|intros ? Hp]. eapply does_orStop; [do_step|intros ? Hm].
    do 3 (eapply does_orFail; [do_step|intros _ _]). by apply does_ret.
  - cbn. rewrite <- ?app_assoc. unfold webhookCertOf, watched. by destruct webhooksEnabled, (bool_decide _).
Qed.

(** * When every call succeeds *)

Definition succeeding : contract StartSig := λ r x, failed (ev (S := StartSig) r x) = false.

Definition fine {A} (p : SM (outcome A)) : Prop := always succeeding p (λ _ o, ∃ a, o = Ok a).

Lemma fine_then {A B} (p : SM (outcome A)) (k : A → SM (outcome B)) (Q : error → error) :
  fine p → (∀ a, fine (k a)) → fine (o ← p; match o with Ok a => k a | Err e => mret (Err (Q e)) | Panics => mret Panics end).
Proof. intros Hp Hk. apply always_bind. eapply always_mono; [exact Hp|]. intros tr o [a ->]. apply Hk. Qed.

Lemma fine_orFail {A B} msg (p : SM (outcome A)) (k : A → SM (outcome B)) : fine p → (∀ a, fine (k a)) → fine (orFail msg p k).
Proof. apply fine_then. Qed.

Lemma fine_orStop {A B} (p : SM (outcome A)) (k : A → SM (outcome B)) : fine p → (∀ a, fine (k a)) → fine (orStop p k).
Proof. intros Hp Hk. exact (fine_then p k id Hp Hk). Qed.

Lemma fine_attempt r as_error :
  (∀ x, failed (ev (S := StartSig) r x) = bool_decide (as_error x ≠ None)) → fine (attempt r as_error).
Proof.
  intros Hf. apply always_call. intros x Hx. unfold succeeding in Hx. rewrite Hf in Hx. apply bool_decide_eq_false in Hx.
  destruct (as_error x); [by destruct Hx|]. by exists tt.
Qed.

Lemma fine_ret {A} (a : A) : fine (mret (Ok a)).
Proof. by exists a. Qed.

#[local] Hint Resolve fine_ret : startup.

Ltac fine_step :=
  match goal with
  | |- fine (orFail _ _ _) => apply fine_orFail; [fine_step|intros ?; fine_step]
  | |- fine (orStop _ _) => apply fine_orStop; [fine_step|intros ?; fine_step]
  | |- fine (attempt _ _) => apply fine_attempt; reflexivity
  | |- fine (if ?b then _ else _) => destruct b; fine_step
  | |- _ => eauto with startup
  end.

Lemma fine_prepare fl : settings_ok → fine (prepare fl).
Proof.
  intros [Hgpu Hmon]. unfold prepare.
  assert (∀ wanted path name key msg, fine (watchCert wanted path name key msg)) by (intros; unfold watchCert; fine_step).
  assert (∀ w msg, fine (addWatcher w msg)) by (intros []; simpl; intros; fine_step).
  assert (fine setupKaiwoQueueConfig).
  { apply always_call. intros [e|] Hx; [done|]. apply always_call. intros [e|] Hx'; [done|]. by exists tt. }
  assert (fine setupWebhooks) by (unfold setupWebhooks; fine_step).
  assert (fine setupGpuPreemption).
  { unfold setupGpuPreemption. destruct IsGpuPreemptionEnabled; [|fine_step]. destruct Hgpu as [s ->]; [done|].
    apply fine_orFail; [|intros _; apply fine_orFail; [apply fine_ret|intros; fine_step]].
    apply always_call. intros got _. apply always_call. intros pid _. apply always_call. intros [e|] Hx; [done|]. by exists tt. }
  assert (fine setupMonitoring).
  { unfold setupMonitoring. destruct IsMetricsMonitoringEnabled; [|fine_step]. destruct Hmon as [w ->]; [done|].
    apply fine_orFail; [apply fine_ret|intros; fine_step]. }
  assert (fine ensureConfigExists).
  { unfold ensureConfigExists. apply fine_orFail; [fine_step|intros _]. apply fine_orFail; [|intros; fine_step].
    apply always_call. intros [e|] Hx; [done|]. by exists tt. }
  unfold setupKaiwoJob, setupKaiwoService. fine_step.
Qed.

Lemma main_traced fl :
  always anything (main fl) (λ tr _, justified (accounted fl) [] tr) .
Proof.
  cut (traced (accounted fl) [] (main fl) (λ _ _, True)).
    { intros Ht. eapply always_mono; [exact Ht|]. by intros tr o [? _]. }
    unfold main, orStop. apply traced_bind. eapply traced_mono; [apply does_prepare; split; [by intros ? ?%elem_of_nil|constructor]|].
    intros h [a|e|] _; [|by intros _; apply traced_ret..]. intros (_ & [Hh HL] & Hok). apply traced_orFail, traced_call. intros x. split.
    { split; [done|]. split; [by intros _; split|by split]. }
    apply traced_ret. destruct (of_err _); [by apply traced_ret|done..].
Qed.

(** C11: the operator starts its manager only when everything is in place: the manager
    was made with the options of the flags, the controllers of jobs, services and queue
    configurations are complete, the four webhooks are when they are enabled, the
    certificates to watch, the preemption controller with its scraper and the utilization
    watcher are when they are enabled and their settings can be read, the configuration
    exists, and the health checks are there. A failure is the last thing that happens,
    but for that of reading the host name or the configuration; a configuration is
    created only right after it could not be read. And when the settings can be read
    and every call succeeds, the manager is started. *)
Theorem main_starts_ready fl :
  always anything (main fl) (λ tr _, justified (accounted fl) [] tr) ∧
  (settings_ok → always succeeding (main fl) (λ tr o, o = Ok tt ∧ made tr StartManager)).
Proof.
  split.
  - apply main_traced.
  - intros Hok. unfold main, orStop. apply always_bind. eapply always_mono; [by apply fine_prepare|]. intros tr o [a ->].
    apply always_orFail, always_call. intros [e|] Hx; [done|]. split; [done|]. exists None. split; [|done].
    apply elem_of_app. right. apply elem_of_app. left. by apply list_elem_of_singleton.
Qed.

(** * TLS *)

Lemma configured_app o o' c : configured (o ++ o') c = configured o' (configured o c).
Proof. apply foldl_app. Qed.

Lemma configured_tlsOpts fl c :
  configured (tlsOpts fl) c = {| tls_NextProtos := if fl_enableHTTP2 fl then tls_NextProtos c else ["http/1.1"];
                                 tls_GetCertificate := tls_GetCertificate c |}.
Proof. unfold tlsOpts. by destruct (fl_enableHTTP2 fl), c. Qed.

(** What TLS comes to in the manager the operator makes. The metrics server never
    gets the certificate of the flags, which is watched for nothing. With a directory of
    certificates in the environment, the webhook server gets no option at all: neither
    the certificate of the flags nor the restriction to HTTP/1.1 that holds by default.
    Otherwise it gets both. *)
Theorem main_TLS fl :
  always anything (main fl) (λ tr _, ∀ o x, ev (S := StartSig) (NewManager o) x ∈ tr → ∀ c,
    configured (mso_TLSOpts (mo_Metrics o)) c =
      {| tls_NextProtos := if fl_enableHTTP2 fl then tls_NextProtos c else ["http/1.1"]; tls_GetCertificate := tls_GetCertificate c |} ∧
    match mo_WebhookServer o with
    | None => webhooksEnabled = false
    | Some s =>
        webhooksEnabled = true ∧ wso_CertDir s = certDirectory ∧
        configured (wso_TLSOpts s) c =
          if decide (certDirectory = "") then
            {| tls_NextProtos := if fl_enableHTTP2 fl then tls_NextProtos c else ["http/1.1"];
               tls_GetCertificate := match webhookCertOf fl with Some w => Some w | None => tls_GetCertificate c end |}
          else c
    end).
Proof.
  eapply always_mono; [exact (main_traced fl)|]. cbv beta. intros tr o' Htr o x (h & t & ->)%list_elem_of_split c.
  apply justified_at in Htr as (_ & _ & _ & Ho). rewrite (Ho o eq_refl). split; [apply configured_tlsOpts|].
  unfold managerOptions. cbn. destruct webhooksEnabled; [|done]. destruct (decide (certDirectory = "")) as [Hd|Hd].
  - rewrite decide_False by tauto. split_and!; [done..|]. cbn [wso_TLSOpts]. rewrite configured_app, configured_tlsOpts. by destruct (webhookCertOf fl).
  - by rewrite decide_True.
Qed.
(** * Schemes *)

Lemma init_registers :
  always anything init (λ tr o, match o with
    | Ok _ => tr = (λ api, ev (S := StartSig) (AddToScheme api) None) <$> schemeAPIs
    | Err _ => False
    | Panics => True
    end).
Proof. unfold init, schemeAPIs. cbn. repeat (intros [e|] _; [done|]; cbn). done. Qed.

(** [main] runs only when every API was added to the scheme. *)
Lemma process_registers fl :
  always anything (process fl) (λ tr o, o ≠ Panics →
    ∃ tr', tr = ((λ api, ev (S := StartSig) (AddToScheme api) None) <$> schemeAPIs) ++ tr' ∧ justified (accounted fl) [] tr').
Proof.
  unfold process, orStop. apply always_bind. eapply always_mono; [apply init_registers|]. intros tr [a|e|] Ho; [|done|by intros ?].
  rewrite Ho. eapply always_mono; [apply main_traced|]. intros tr' o Htr _. by exists tr'.
Qed.

End startup.
