(* ===== verification/Watches.v ===== *)
(** What wakes the controllers (SetupWithManager in internal/controller): the kinds
    each controller watches, the updates it lets pass, and the objects it enqueues;
    and the run that ensures the default queue configuration when the manager starts. *)

From stdpp Require Import gmap strings list.
From Stdlib Require Import ZArith Lia.
From S2P Require Import Prelude Types GpuResources GpuApi Reconcile Kueue QueueApi Scheduling Nodepools QueueConfig WorkloadTypes WorkloadApi Handlers Lifecycle.

(** * Events and sources *)

(** What [predicate.Funcs] is asked about. *)
Inductive watch_event (A : Type) :=
| CreateEvent (object : A)
| UpdateEvent (old new : A)
| DeleteEvent (object : A)
| GenericEvent (object : A).
Arguments CreateEvent {A} object.
Arguments UpdateEvent {A} old new.
Arguments DeleteEvent {A} object.
Arguments GenericEvent {A} object.

(** A batch job as it comes out of the cache. [Ready] is a pointer: the cell it
    points to and the number in it. *)
Record JobObject := {
  jo_Object : Child;
  jo_Conditions : list Condition;
  jo_Failed : Z;
  jo_Ready : option (positive * Z);
  jo_Active : Z
}.

(** The same job as the handlers take it. *)
Definition jobChild (j : JobObject) : Child :=
  let c := jo_Object j in
  {| ch_Kind := ch_Kind c; ch_Name := ch_Name c; ch_Namespace := ch_Namespace c; ch_UID := ch_UID c;
     ch_Generation := ch_Generation c; ch_OwnerReferences := ch_OwnerReferences c; ch_Replicas := ch_Replicas c;
     ch_Content := ch_Content c; ch_Status := JobStatus (jo_Conditions j) (jo_Failed j) (snd <$> jo_Ready j) (jo_Active j) |}.

(** A cluster queue with its generation; a missing object is nil. *)
Record QueueObject := { qo_Generation : Z; qo_Queue : KueueClusterQueue }.

(** The kinds that are watched, and their objects. *)
Inductive WatchKind :=
| WatchWorkload (k : WorkloadKind)
| WatchJob
| WatchOwned (k : ChildKind)
| WatchQueueConfig | WatchClusterQueue | WatchNode | WatchNamespace
| WatchGpuWorkload | WatchPod | WatchKueueWorkload.

Definition object (K : WatchKind) : Type :=
  match K with
  | WatchWorkload _ => KaiwoWorkload
  | WatchJob => JobObject
  | WatchOwned _ => Child
  | WatchQueueConfig => KaiwoQueueConfig
  | WatchClusterQueue => option QueueObject
  | WatchNode => Node
  | WatchNamespace => string
  | WatchGpuWorkload => GpuWorkload
  | WatchPod => Pod
  | WatchKueueWorkload => KueueWorkload
  end.

Definition predicate (A : Type) : Type := watch_event A → bool.
Definition everything {A} : predicate A := λ _, true.

(** [For] enqueues the object, [Owns] its controller, [Watches] what a function makes
    of the object. *)
Inductive handler (S : sig) (A : Type) :=
| EnqueueObject
| EnqueueOwner
| EnqueueMapped (f : A → prog S (list Key)).
Arguments EnqueueObject {S A}.
Arguments EnqueueOwner {S A}.
Arguments EnqueueMapped {S A} f.

Record source (S : sig) := Source {
  src_Kind : WatchKind;
  src_Handler : handler S (object src_Kind);
  src_Predicate : predicate (object src_Kind)
}.
Arguments Source {S} src_Kind src_Handler src_Predicate.
Arguments src_Kind {S} s.
Arguments src_Handler {S} s.
Arguments src_Predicate {S} s.

(** What is handed to the builder: a name, a filter of all events, and the sources. *)
Record controller (S : sig) := {
  ct_Name : string;
  ct_Filter : ∀ K, predicate (object K);
  ct_Sources : list (source S)
}.
Arguments ct_Name {S} c.
Arguments ct_Filter {S} c.
Arguments ct_Sources {S} c.

(** * Workloads *)

#[export] Instance Condition_eq_dec : EqDecision Condition.
Proof. solve_decision. Defined.

(** [oldJ.Status.Ready != newJ.Status.Ready] compares the pointers. *)
Definition readyChanged (old new : JobObject) : bool := bool_decide (fst <$> jo_Ready old ≠ fst <$> jo_Ready new).

Definition JobStatusChangedPredicate : predicate JobObject := λ e,
  match e with
  | UpdateEvent old new =>
      bool_decide (jo_Active old ≠ jo_Active new) || readyChanged old new || bool_decide (jo_Conditions old ≠ jo_Conditions new)
  | CreateEvent _ | DeleteEvent _ | GenericEvent _ => false
  end.

Section workloads.
(** controller-runtime's predicate on resource versions. *)
Context (ResourceVersionChanged : ∀ K, predicate (object K)).

Definition otherKind (k : WorkloadKind) : WorkloadKind :=
  match k with KindKaiwoJob => KindKaiwoService | KindKaiwoService => KindKaiwoJob end.

(** A change to a workload of the other kind enqueues the running ones of this kind. *)
Definition otherWorkloads (k : WorkloadKind) : source WorkSig :=
  Source (WatchWorkload (otherKind k)) (EnqueueMapped (λ _, enqueueRunning k)) everything.

Definition ownedKind (k : ChildKind) : source WorkSig := Source (WatchOwned k) EnqueueOwner everything.

Definition KaiwoJobReconciler : controller WorkSig := {|
  ct_Name := "kaiwojob";
  ct_Filter := ResourceVersionChanged;
  ct_Sources := [Source (WatchWorkload KindKaiwoJob) EnqueueObject everything;
                 Source WatchJob EnqueueOwner JobStatusChangedPredicate;
                 ownedKind KindRayJob;
                 otherWorkloads KindKaiwoJob] |}.

Definition KaiwoServiceReconciler : controller WorkSig := {|
  ct_Name := "kaiwoservice";
  ct_Filter := ResourceVersionChanged;
  ct_Sources := [Source (WatchWorkload KindKaiwoService) EnqueueObject everything;
                 Source WatchJob EnqueueOwner JobStatusChangedPredicate;
                 ownedKind KindDeployment;
                 ownedKind KindRayService;
                 ownedKind KindAppWrapper;
                 otherWorkloads KindKaiwoService] |}.

Definition reconcilerOf (k : WorkloadKind) : controller WorkSig :=
  match k with KindKaiwoJob => KaiwoJobReconciler | KindKaiwoService => KaiwoServiceReconciler end.

(** The kind under which an owned object is watched. *)
Definition watchKind (k : ChildKind) : WatchKind := match k with KindJob => WatchJob | _ => WatchOwned k end.

(** Events of owned objects of a kind enqueue their workload. *)
Definition seen (k : WorkloadKind) (child : ChildKind) : Prop :=
  ∃ s, s ∈ ct_Sources (reconcilerOf k) ∧ src_Kind s = watchKind child ∧ match src_Handler s with EnqueueOwner => True | _ => False end.

End workloads.

(** * What is seen of a workload's objects *)

(** Pointers to one cell lead to one number. *)
Definition same_cells (old new : JobObject) : Prop :=
  ∀ l v v', jo_Ready old = Some (l, v) → jo_Ready new = Some (l, v') → v = v'.

(** The update an informer delivers: both jobs were decoded on their own. *)
Definition decoded_apart (old new : JobObject) : Prop := ∀ l v v', jo_Ready old = Some (l, v) → jo_Ready new ≠ Some (l, v').

(** An update that is filtered out changes nothing that is observed of a job but for
    the number of failed pods. *)
Lemma filtered_job old new :
  same_cells old new → JobStatusChangedPredicate (UpdateEvent old new) = false →
  jo_Active old = jo_Active new ∧ snd <$> jo_Ready old = snd <$> jo_Ready new ∧ jo_Conditions old = jo_Conditions new.
Proof.
  intros Hcells. simpl. unfold readyChanged. rewrite !orb_false_iff, !bool_decide_eq_false.
  intros [[Ha%dec_stable Hr%dec_stable] Hc%dec_stable]. split_and!; try done.
  destruct (jo_Ready old) as [[l v]|] eqn:Ho, (jo_Ready new) as [[l' v']|] eqn:Hn; try done.
  cbn in Hr. simplify_eq. cbn. f_equal. by eapply Hcells.
Qed.

Lemma filtered_job_observed old new previous :
  same_cells old new → JobStatusChangedPredicate (UpdateEvent old new) = false → jo_Failed old = jo_Failed new →
  observeBatchJobObject (jobChild old) previous = observeBatchJobObject (jobChild new) previous ∧
  observeDownloadJob (jobChild old) previous = observeDownloadJob (jobChild new) previous.
Proof.
  intros Hcells Hf Hfailed. destruct (filtered_job old new Hcells Hf) as (Ha & Hr & Hc).
  unfold observeBatchJobObject, observeDownloadJob, jobChild. cbn [ch_Status]. by rewrite Ha, Hr, Hc, Hfailed.
Qed.

(** Once the number of ready pods is set, every update passes, because the pointers of
    two jobs that were decoded differ. *)
Lemma ready_always_passes old new :
  decoded_apart old new → is_Some (jo_Ready old) → JobStatusChangedPredicate (UpdateEvent old new) = true.
Proof.
  intros Hapart [[l v] Ho]. simpl. unfold readyChanged. rewrite Ho. cbn. apply orb_true_iff. left. apply orb_true_iff. right.
  apply bool_decide_eq_true. intros Heq. destruct (jo_Ready new) as [[l' v']|] eqn:Hn; [|done]. cbn in Heq. simplify_eq.
  by apply (Hapart l' v v').
Qed.

(** A failed pod that shows in the count alone goes unseen, though it makes the job a
    failed one. *)
Definition one_failed (j : JobObject) : JobObject :=
  {| jo_Object := jo_Object j; jo_Conditions := jo_Conditions j; jo_Failed := 1; jo_Ready := jo_Ready j; jo_Active := jo_Active j |}.

Lemma failed_count_filtered j previous :
  jobConditions (jo_Conditions j) = None → jo_Failed j = 0 → previous ≠ WorkloadStatusFailed →
  JobStatusChangedPredicate (UpdateEvent j (one_failed j)) = false ∧
  observeBatchJobObject (jobChild (one_failed j)) previous = mret (Ok (Some WorkloadStatusFailed, [])) ∧
  observeBatchJobObject (jobChild j) previous ≠ mret (Ok (Some WorkloadStatusFailed, [])).
Proof.
  intros Hc Hf Hp. split_and!.
  - simpl. unfold readyChanged. rewrite !orb_false_iff, !bool_decide_eq_false. cbn. tauto.
  - unfold observeBatchJobObject, ObserveBatchJob. cbn. by rewrite Hc.
  - unfold observeBatchJobObject, ObserveBatchJob. cbn. rewrite Hc, Hf. cbn. repeat case_decide; try lia; intros [=]; congruence.
Qed.

(** What an event can mean to a job's workload: a deletion passes no predicate. *)
Lemma job_deletion_filtered j : JobStatusChangedPredicate (DeleteEvent j) = false.
Proof. done. Qed.

Section seen.
Context `{WorkloadLib} (mf : Manifests) (ResourceVersionChanged : ∀ K, predicate (object K)).

Lemma seen_intro k child s :
  s ∈ ct_Sources (reconcilerOf ResourceVersionChanged k) → src_Kind s = watchKind child →
  match src_Handler s with EnqueueOwner => True | _ => False end → seen ResourceVersionChanged k child.
Proof. intros. by exists s. Qed.

Lemma seen_spec k child :
  seen ResourceVersionChanged k child ↔
  child ∈ match k with KindKaiwoJob => [KindJob; KindRayJob] | KindKaiwoService => [KindJob; KindDeployment; KindRayService; KindAppWrapper] end.
Proof.
  split.
  - intros (s & Hs & Hk & Hh). destruct k; cbn in Hs; repeat (apply elem_of_cons in Hs as [->|Hs]; [cbn in *; try done|]);
      try (by apply elem_of_nil in Hs); destruct child; cbn in Hk; try done; repeat constructor.
  - intros Hc. destruct k; repeat (apply elem_of_cons in Hc as [->|Hc]); try (by apply elem_of_nil in Hc);
      [exists (Source WatchJob EnqueueOwner JobStatusChangedPredicate)|exists (ownedKind KindRayJob)|
       exists (Source WatchJob EnqueueOwner JobStatusChangedPredicate)|exists (ownedKind KindDeployment)|
       exists (ownedKind KindRayService)|exists (ownedKind KindAppWrapper)];
      (split; [|by split]); cbn; rewrite !elem_of_cons; tauto.
Qed.

Lemma storageReconcilers_kinds key spec recs rec :
  storageReconcilers mf key spec = Ok recs → rec ∈ recs →
  rr_Kind rec ∈ [KindPersistentVolumeClaim; KindConfigMap; KindJob].
Proof.
  intros Hrecs Hin. assert (∀ k amount r, NewPvcReconciler mf k amount spec = Ok r → rr_Kind r = KindPersistentVolumeClaim) as Hpvc.
  { intros k amount r. unfold NewPvcReconciler. destruct (ParseQuantity amount); intros [= <-]; done. }
  unfold storageReconcilers in Hrecs. repeat (case_match; simplify_eq/=); rewrite ?elem_of_app, ?elem_of_cons, ?elem_of_nil in Hin;
    repeat match goal with H : NewPvcReconciler _ _ _ _ = Ok _ |- _ => apply Hpvc in H end; rewrite !elem_of_cons; naive_solver.
Qed.

(** The objects whose state makes up the status of a workload. *)
Definition observes (w : KaiwoWorkload) (rec : ResourceReconciler) : Prop :=
  rec = wr_Resource (workloadHandler mf w) ∨
  ∃ spec recs, storageSpec w = Some spec ∧ storageReconcilers mf (kw_key w) spec = Ok recs ∧ rec ∈ recs.

(** Of the objects a workload is observed through, the controller of its kind
    watches exactly those that are not volume claims or configurations of downloads:
    a claim that is bound or lost wakes no reconcile. *)
Lemma observed_objects_watched w rec :
  observes w rec →
  seen ResourceVersionChanged (kw_Kind w) (rr_Kind rec) ↔ rr_Kind rec ∉ [KindPersistentVolumeClaim; KindConfigMap].
Proof.
  intros Hobs. rewrite seen_spec. assert (rr_Kind rec ∈ [KindPersistentVolumeClaim; KindConfigMap] ∨
    rr_Kind rec ∈ match kw_Kind w with KindKaiwoJob => [KindJob; KindRayJob] | KindKaiwoService => [KindJob; KindDeployment; KindRayService; KindAppWrapper] end) as Hk.
  { destruct Hobs as [->|(spec & recs & _ & Hrecs & Hin)].
    - right. unfold workloadHandler, NewKaiwoJobHandler, NewKaiwoServiceHandler.
      destruct (kw_Kind w), (IsRay w); cbn; rewrite !elem_of_cons; tauto.
    - pose proof (storageReconcilers_kinds _ _ _ _ Hrecs Hin) as Hkind. rewrite !elem_of_cons, elem_of_nil in Hkind.
      destruct Hkind as [->|[->|[->|[]]]]; [left; rewrite !elem_of_cons; tauto|left; rewrite !elem_of_cons; tauto|].
      right. destruct (kw_Kind w); rewrite !elem_of_cons; tauto. }
  split.
  - intros Hc Hn. rewrite !elem_of_cons, elem_of_nil in Hn. destruct Hn as [Hn|[Hn|[]]]; rewrite Hn in Hc;
      destruct (kw_Kind w); rewrite !elem_of_cons, elem_of_nil in Hc; naive_solver.
  - intros Hn. tauto.
Qed.
(** An owned object as its handler takes it. *)
Definition observedAs (k : ChildKind) : object (watchKind k) → Child :=
  match k return object (watchKind k) → Child with KindJob => jobChild | _ => λ c, c end.

(** An event gets through to the workload that owns the object. *)
Definition wakes (k : WorkloadKind) {K} (e : watch_event (object K)) : Prop :=
  ∃ p, Source K EnqueueOwner p ∈ ct_Sources (reconcilerOf ResourceVersionChanged k) ∧ p e = true.

(** What the filter of jobs relies on: pointers to one cell show one number, and a pod
    does not fail without any other sign. *)
Definition other_sign (k : ChildKind) : object (watchKind k) → object (watchKind k) → Prop :=
  match k return object (watchKind k) → object (watchKind k) → Prop with
  | KindJob => λ old new, same_cells old new ∧ jo_Failed old = jo_Failed new
  | _ => λ _ _, True
  end.

(** The predicate under which a source watches batch jobs. *)
Definition jobPredicate (s : source WorkSig) : option (predicate JobObject) :=
  match s with Source WatchJob _ p => Some p | _ => None end.

Lemma job_wakes k (e : watch_event (object WatchJob)) : wakes k e ↔ JobStatusChangedPredicate e = true.
Proof.
  split.
  - intros (p & Hp & He). assert (Some p ∈ jobPredicate <$> ct_Sources (reconcilerOf ResourceVersionChanged k)) as Hin.
    { apply (list_elem_of_fmap_2 jobPredicate) in Hp. exact Hp. }
    destruct k; cbn in Hin; rewrite !elem_of_cons, elem_of_nil in Hin; naive_solver.
  - intros He. exists JobStatusChangedPredicate. split; [|done]. destruct k; cbn; rewrite !elem_of_cons; auto.
Qed.

Lemma owned_wakes k child (e : watch_event (object (WatchOwned child))) :
  ownedKind child ∈ ct_Sources (reconcilerOf ResourceVersionChanged k) → wakes k e.
Proof. intros Hin. by exists everything. Qed.

Lemma observeBatchJob_unseen k old new previous :
  ¬ wakes (K := WatchJob) k (UpdateEvent old new) → other_sign KindJob old new →
  observeBatchJobObject (jobChild old) previous = observeBatchJobObject (jobChild new) previous ∧
  observeDownloadJob (jobChild old) previous = observeDownloadJob (jobChild new) previous.
Proof.
  intros Hw [Hcells Hf]. apply filtered_job_observed; [done| |done]. destruct (JobStatusChangedPredicate _) eqn:E; [|done].
  destruct Hw. by apply job_wakes.
Qed.

(** The reconcilers of the storage: volume claims, the configuration of a download, of
    which nothing is observed, and its job. *)
Lemma storageReconcilers_unseen key spec recs rec k old new previous :
  storageReconcilers mf key spec = Ok recs → rec ∈ recs → rr_Kind rec ≠ KindPersistentVolumeClaim →
  ¬ wakes k (UpdateEvent old new) → other_sign (rr_Kind rec) old new →
  rr_ObserveStatus rec (observedAs (rr_Kind rec) old) previous = rr_ObserveStatus rec (observedAs (rr_Kind rec) new) previous.
Proof.
  intros Hrecs Hin Hpvc Hw Hsign.
  assert (rec = NewDownloadConfigMapReconciler mf key spec ∨ rec = NewDownloadJobReconciler mf key spec) as Hrec.
  { assert (∀ k amount r, NewPvcReconciler mf k amount spec = Ok r → rr_Kind r = KindPersistentVolumeClaim) as Hk.
    { intros k' amount r. unfold NewPvcReconciler. destruct (ParseQuantity amount); intros [= <-]; done. }
    clear Hw Hsign. unfold storageReconcilers in Hrecs.
    repeat (case_match; simplify_eq/=); rewrite ?elem_of_app, ?elem_of_cons, ?elem_of_nil in Hin;
      repeat match goal with H : NewPvcReconciler _ _ _ _ = Ok _ |- _ => apply Hk in H end; naive_solver. }
  destruct Hrec as [->| ->]; [done|]. by apply (observeBatchJob_unseen k).
Qed.

(** C26: an update of an object a workload is observed through that does not get through to
    the workload changes nothing that is observed of the object, so the reconcile that
    does not happen would have found the same status. Volume claims, and a count of failed
    pods that changes alone, are left out: they change unseen. Kueue workloads and the Ray
    service inside an app wrapper are not among the objects compared. *)
Theorem unseen_updates_unobserved w rec old new previous :
  observes w rec → rr_Kind rec ≠ KindPersistentVolumeClaim →
  ¬ wakes (kw_Kind w) (UpdateEvent old new) → other_sign (rr_Kind rec) old new →
  rr_ObserveStatus rec (observedAs (rr_Kind rec) old) previous = rr_ObserveStatus rec (observedAs (rr_Kind rec) new) previous.
Proof.
  intros [->|(spec & recs & _ & Hrecs & Hin)] Hpvc Hw Hsign; [|by eapply storageReconcilers_unseen].
  revert old new Hpvc Hw Hsign. unfold workloadHandler, NewKaiwoJobHandler, NewKaiwoServiceHandler.
  destruct (kw_Kind w) eqn:Hk, (IsRay w); cbn; intros old new _ Hw Hsign; try (by apply (observeBatchJob_unseen KindKaiwoJob));
    destruct Hw; apply owned_wakes; cbn; rewrite !elem_of_cons; tauto.
Qed.
End seen.

(** * GPU workloads and queue configurations *)

Definition GpuWorkloadReconciler `{Host} `{GoOrder} : controller GpuSig := {|
  ct_Name := "gpuworkload" (* the builder's own choice: no other name is given *);
  ct_Filter := λ _, everything;
  ct_Sources := [Source WatchGpuWorkload EnqueueObject everything;
                 Source WatchPod (EnqueueMapped podToGpuWorkload) everything;
                 Source WatchKueueWorkload (EnqueueMapped workloadToGpuWorkload) everything] |}.

Section queues.
Context `{KubeLib} `{GoOrder} `{Quantities} (retries : QueueRetry).

Definition enqueueKaiwoQueueConfig {A} : A → QM (list Key) := λ _, mret [mkKey "" KaiwoQueueConfigName].

Definition nodePred : predicate Node := λ e,
  match e with
  | CreateEvent _ | DeleteEvent _ => true
  | GenericEvent _ => false
  | UpdateEvent old new => nodeResourceChanged old new
  end.

Definition cqPred : predicate (option QueueObject) := λ e,
  match e with
  | CreateEvent _ | DeleteEvent _ => true
  | GenericEvent _ => false
  | UpdateEvent (Some old) (Some new) => bool_decide (qo_Generation old ≠ qo_Generation new)
  | UpdateEvent _ _ => false
  end.

Definition nsPred : predicate string := λ e,
  match e with
  | CreateEvent _ | DeleteEvent _ => true
  | UpdateEvent _ _ | GenericEvent _ => false
  end.

Definition KaiwoQueueConfigReconciler : controller QueueSig := {|
  ct_Name := "kaiwoqueueconfig";
  ct_Filter := λ _, everything;
  ct_Sources := [Source WatchQueueConfig EnqueueObject everything;
                 Source WatchClusterQueue EnqueueOwner cqPred;
                 Source WatchNode (EnqueueMapped enqueueKaiwoQueueConfig) nodePred;
                 Source WatchNamespace (EnqueueMapped enqueueKaiwoQueueConfig) nsPred] |}.

(** The runnable that is added to the manager; the outer [None] is a panic, an error
    stops the manager. A failure to label the nodes is only logged. *)
Definition ensureWith (config : KaiwoConfigSpec) : QM (option (option error)) :=
  _ ← CreateTopology;
  if kc_DynamicallyUpdateDefaultClusterQueue config then
    r ← EnsureKaiwoQueueConfig retries config KaiwoQueueConfigName (kc_DefaultClusterQueueName config)
          (kc_DefaultClusterQueueCohortName config) zero_queueConfig;
    mret (fst <$> r)
  else mret (Some None).

Definition ensureOnStartup : QM (option (option error)) :=
  ctx ← GetContextWithConfig;
  match ctx with
  | inl e => mret (Some (Some (Wrapf "could not get config" e)))
  | inr config => ensureWith config
  end.

(** * Nodes *)

(** What the pools are made of. *)
Definition nodeInfo (n : Node) : NodeResourceInfo := {|
  nr_Name := node_Name n; nr_CPU := QuantityValue (capacityOf "cpu" n);
  nr_Memory := Z.quot (QuantityValue (capacityOf "memory" n)) GiB;
  nr_Labels := node_Labels n; nr_Unschedulable := node_Unschedulable n |}.

Lemma GetNodeResources_infos :
  GetNodeResources = (got ← call (S := QueueSig) ListNodes; mret (match got with inl _ => [] | inr nodes => nodeInfo <$> nodes end)).
Proof. reflexivity. Qed.

(** Capacities are whole numbers of cores and bytes. *)
Definition whole (q : Quantity) : Prop := ∃ v, in_int64 v ∧ q_Nano q = v * 10 ^ 9.
Definition whole_capacity (n : Node) : Prop := whole (capacityOf "cpu" n) ∧ whole (capacityOf "memory" n).

Lemma whole_value q r : whole q → q_Nano q = q_Nano r → QuantityValue q = QuantityValue r.
Proof.
  intros (v & Hv & Hq) Hr. rewrite (QuantityValue_integral q v), (QuantityValue_integral r v); [done|done|congruence|done|done].
Qed.

(** The update of a node that is let pass changes one of the things its pool is made
    of; any other leaves what is known of the node as it was. *)
Lemma nodePred_info old new :
  node_Name old = node_Name new → whole_capacity old → nodePred (UpdateEvent old new) = false → nodeInfo old = nodeInfo new.
Proof.
  intros Hname [Hc Hm] Hpred. simpl in Hpred. unfold nodeResourceChanged in Hpred.
  rewrite !orb_false_iff, !bool_decide_eq_false in Hpred. destruct Hpred as [[[Hu Hcpu] Hmem] Hl].
  apply dec_stable in Hu, Hcpu, Hmem, Hl. apply QuantityCmp_zero in Hcpu, Hmem.
  unfold nodeInfo. f_equal; try done; [by apply whole_value|]. f_equal. by apply whole_value.
Qed.

(** The controller of the queue configuration misses no change of the pools: when
    all nodes of a cluster are updated and the updates are filtered out, the nodes are
    grouped into the same pools, with the same aggregates. *)
Theorem filtered_nodes_same_pools excludeMasters nodes nodes' :
  Forall2 (λ old new, node_Name old = node_Name new ∧ whole_capacity old ∧ nodePred (UpdateEvent old new) = false) nodes nodes' →
  groupNodes excludeMasters (nodeInfo <$> nodes) no_pools = groupNodes excludeMasters (nodeInfo <$> nodes') no_pools.
Proof.
  intros Hn. f_equal. induction Hn as [|old new nodes nodes' (? & ? & ?) Hn IH]; [done|]. cbn. f_equal; [by apply nodePred_info|exact IH].
Qed.

(** A taint that is taken off a node goes unnoticed. *)
Lemma taint_removal_filtered node : nodePred (UpdateEvent node (node_set_Taints [] node)) = false.
Proof.
  simpl. unfold nodeResourceChanged. rewrite !orb_false_iff, !bool_decide_eq_false. cbn.
  split_and!; try (by intros []); intros Hne; apply Hne; by apply QuantityCmp_zero.
Qed.

(** * At the start of the manager *)

(** The calls that touch nodes and the operator's configuration only. *)
Definition topology_call (e : event QueueSig) : Prop :=
  match projT1 e with GetKaiwoConfig _ | ListNodes | UpdateNode _ => True | _ => False end.

Lemma CreateTopology_calls : always anything CreateTopology (λ tr _, Forall topology_call tr).
Proof.
  unfold CreateTopology. on_call [e|nodes]; [by repeat constructor|]. apply always_bind.
  eapply always_mono; [apply (always_for_range_closed anything (Forall topology_call) (λ _, True) (λ _, True))|].
  - constructor.
  - intros. by apply Forall_app.
  - done.
  - intros node s _ _. case_decide; [by split|]. on_call [e|]; repeat constructor.
  - intros tr c [Htr _]. destruct c; simpl; rewrite app_nil_r; by constructor.
Qed.

(** Without dynamic updates the start labels nodes and nothing else, and no failure of
    it stops the manager; when the configuration cannot be read the manager stops. *)
Lemma ensureOnStartup_static :
  always anything ensureOnStartup (λ tr r, ∃ got tr', tr = ev (S := QueueSig) (GetKaiwoConfig configName) got :: tr' ∧
    match got with
    | inl e => tr' = [] ∧ ∃ e', r = Some (Some e')
    | inr config => kc_DynamicallyUpdateDefaultClusterQueue config = false → r = Some None ∧ Forall topology_call tr'
    end).
Proof.
  unfold ensureOnStartup, GetContextWithConfig. apply always_bind, always_call. intros [e|config] _.
  { exists (inl e), []. split; [done|]. split; [done|]. by eexists. }
  eapply (always_mono _ (ensureWith config) (λ tr r, kc_DynamicallyUpdateDefaultClusterQueue config = false → r = Some None ∧ Forall topology_call tr)).
  - unfold ensureWith. apply always_bind. eapply always_mono; [apply CreateTopology_calls|]. cbv beta. intros tr ? Htr.
    destruct (kc_DynamicallyUpdateDefaultClusterQueue config); [eapply always_mono; [apply always_true|done]|]. intros _. by rewrite app_nil_r.
  - intros tr r Hr. exists (inr config), tr. by split.
Qed.

End queues.
