(* ===== verification/WorkloadTheory.v ===== *)
(** The operations of the workload controllers one by one: when a workload is
    preempted, what is deleted, which local queue is made, what counts as admitted;
    and where the controllers get stuck. *)

From stdpp Require Import gmap strings list.
From Stdlib Require Import ZArith Lia.
From S2P Require Import Prelude History Float64 Types Kueue Scheduling GpuResources WorkloadTypes Labels WorkloadApi Handlers Lifecycle Observation WorkloadSafety Monitoring Interleaving.

Section operations.
Context `{WorkloadLib} `{GoOrder} `{Host} (mf : Manifests).

(** * Preemption *)

(** A pending workload that asks for GPUs of the vendor in the queue, for longer
    than the threshold. *)
Definition demands (cfg : WorkloadConfig) (now : Z) (queue vendor : string) (w : KaiwoWorkload) : Prop :=
  statusOf w = WorkloadStatusPending ∧ 0 < ms_Gpus (kw_Spec w) ∧
  GetClusterQueueName (wc_DefaultClusterQueueName cfg) (kw_Spec w) = queue ∧ ms_GpuVendor (kw_Spec w) = vendor ∧
  ∃ threshold, ParseDuration (wc_PendingThresholdForPreemption cfg) = Some threshold ∧ threshold < time_sub now (kw_CreationTimestamp w).

(** The clock stands still and the lists are those of the cluster. *)
Definition frozen (now : Z) (jobs services : list KaiwoWorkload) : contract WorkSig := λ r,
  match r return work_resp r → Prop with
  | CurrentTime => λ x, x = now
  | ListWorkloads kind => λ x, x = inr (match kind with KindKaiwoJob => jobs | KindKaiwoService => services end)
  | _ => λ _, True
  end.

Lemma demandFrom_spec cfg now jobs services queue vendor ws :
  always (frozen now jobs services) (demandFrom cfg queue vendor ws)
    (λ _ r, (r = inr true ∧ Exists (demands cfg now queue vendor) ws) ∨ (r = inl tt ∧ ¬ Exists (demands cfg now queue vendor) ws)).
Proof.
  unfold demandFrom. induction ws as [|w ws IH]; [right; split; [done|]; by intros ?%Exists_nil|].
  assert ((if decide (ms_ClusterQueue (kw_Spec w) = "") then wc_DefaultClusterQueueName cfg else ms_ClusterQueue (kw_Spec w)) =
    GetClusterQueueName (wc_DefaultClusterQueueName cfg) (kw_Spec w)) as Eq.
  { unfold GetClusterQueueName. by repeat case_decide. }
  assert (¬ demands cfg now queue vendor w → always (frozen now jobs services) (demandFrom cfg queue vendor ws)
    (λ _ r, (r = inr true ∧ Exists (demands cfg now queue vendor) (w :: ws)) ∨
            (r = inl tt ∧ ¬ Exists (demands cfg now queue vendor) (w :: ws)))) as Hskip.
  { intros Hno. eapply always_mono; [exact IH|]. intros tr r [[-> ?]|[-> ?]]; [left|right]; (split; [done|]); rewrite Exists_cons; tauto. }
  refine (proj2 (always_bind _ _ _ _) _). cbv zeta. rewrite Eq. clear IH Eq. case_decide as Hc.
  - apply always_bind. refine (proj2 (always_bind _ _ _ _) _). apply always_call. intros t Ht. simpl in Ht. subst t.
    destruct Hc as (Hs & Hg & Hq & Hv). destruct (ParseDuration _) as [d|] eqn:Ed.
    + simpl. case_bool_decide as Hlt.
      * left. split; [done|]. left. split_and!; eauto.
      * apply Hskip. intros (_ & _ & _ & _ & d' & Ed' & ?). rewrite Ed in Ed'. by simplify_eq.
    + simpl. apply Hskip. intros (_ & _ & _ & _ & d' & Ed' & ?). congruence.
  - apply Hskip. intros (? & ? & ? & ? & _). tauto.
Qed.


(** * Deletion *)

Definition controls (uid : string) (c : Child) : Prop := ∃ o, o ∈ ch_OwnerReferences c ∧ or_UID o = uid ∧ or_Controller o = Some true.

Abbreviation deleted c tr := (ev (S := WorkSig) (DeleteChild c) None ∈ tr).

Lemma deleteOwned_spec uid obj d :
  always anything (deleteOwned uid obj d) (λ tr r, ∀ d', r = inl d' → controls uid obj → deleted obj tr).
Proof.
  unfold deleteOwned. eapply always_mono.
  - apply (always_for_range anything (λ rest tr _, (∃ o, o ∈ rest ∧ or_UID o = uid ∧ or_Controller o = Some true) ∨ deleted obj tr ∨
        ¬ controls uid obj) (λ tr _, deleted obj tr ∨ ¬ controls uid obj) (λ _ _, True)) with (tr0 := []).
    + intros tr _ [(o & Ho & _)|?]; [by apply elem_of_nil in Ho|done].
    + intros o rest tr d0 HI. unfold controlledBy. case_bool_decide as Hown.
      * on_call x. destruct x as [e|]; simpl; [done|]. right. left. apply elem_of_app. right. by left.
      * simpl. rewrite app_nil_r. destruct HI as [(o' & Ho' & ?)|?]; [|by right]. apply elem_of_cons in Ho' as [->|Ho']; [done|].
        left. eauto.
    + destruct (decide (Exists (λ o, or_UID o = uid ∧ or_Controller o = Some true) (ch_OwnerReferences obj))) as [He|He].
      * apply Exists_exists in He. by left.
      * right. right. intros Hc. apply He, Exists_exists. exact Hc.
  - intros tr [d'|e] Hr d'' Heq Hc; [|done]. by destruct Hr.
Qed.

(** What a successful deletion has done for one kind of resource. *)
Definition deleted_all (uid namespace : string) (tr : history) (k : ChildKind) : Prop :=
  ∃ cs, ev (S := WorkSig) (ListChildren k namespace) (inr cs) ∈ tr ∧ ∀ c, c ∈ cs → controls uid c → deleted c tr.

Lemma deleted_all_mono uid namespace tr tr' k : tr ⊆ tr' → deleted_all uid namespace tr k → deleted_all uid namespace tr' k.
Proof. intros Hs (cs & Hl & Hc). exists cs. split; [by apply Hs|]. intros c Hin Hctl. by apply Hs, Hc. Qed.

Lemma DeleteUnderlyingResources_all uid name namespace :
  always anything (DeleteUnderlyingResources uid name namespace) (λ tr o, o = Ok tt →
    ∀ k, k ∈ resourceTypes → deleted_all uid namespace tr k).
Proof.
  unfold DeleteUnderlyingResources. apply always_bind. eapply always_mono.
  - apply (always_for_range anything (λ rest tr _, ∀ k, k ∈ resourceTypes → k ∈ rest ∨ deleted_all uid namespace tr k)
      (λ tr _, ∀ k, k ∈ resourceTypes → deleted_all uid namespace tr k) (λ _ _, True)) with (tr0 := []).
    + intros tr _ HI k Hk. destruct (HI k Hk) as [Hin|?]; [by apply elem_of_nil in Hin|done].
    + intros k rest tr d HI. on_call got. destruct got as [e|items]; [done|].
      apply always_bind. eapply always_mono.
      * apply (always_for_range anything (λ rest tr _, ∀ c, c ∈ items → c ∈ rest ∨ (controls uid c → deleted c tr))
          (λ tr _, ∀ c, c ∈ items → controls uid c → deleted c tr) (λ _ _, True)) with (tr0 := []).
        -- intros tr1 _ HI1 c Hc. destruct (HI1 c Hc) as [Hin|?]; [by apply elem_of_nil in Hin|done].
        -- intros c rest1 tr1 d1 HI1. apply always_bind. eapply always_mono; [apply deleteOwned_spec|].
           intros tr2 [d2|e] Hd2; simpl; [|done]. rewrite app_nil_r. intros c' Hc'. destruct (HI1 c' Hc') as [[->|Hin]%elem_of_cons|Hdel].
           ++ right. intros Hctl. apply elem_of_app. right. by eapply Hd2.
           ++ by left.
           ++ right. intros Hctl. apply elem_of_app. left. auto.
        -- intros c Hc. by left.
      * intros tr1 [d1|e] Hr; simpl; [|done]. rewrite app_nil_r. intros k' Hk'.
        destruct (HI k' Hk') as [[->|Hin]%elem_of_cons|Hd]; [|by left|right; eapply deleted_all_mono, Hd; set_solver].
        right. exists items. split; [set_solver|]. intros c Hc Hctl. specialize (Hr c Hc Hctl). set_solver.
    + intros k Hk. by left.
  - intros tr [[]|e] Hr; simpl; intros Heq; try done. rewrite app_nil_r. exact Hr.
Qed.

(** What may happen in a deletion, with whether anything was deleted: only the kinds of
    [resourceTypes] are listed, in the namespace. *)
Definition deletion_step (namespace : string) (e : event WorkSig) : Prop :=
  match projT1 e with
  | ListChildren k ns => k ∈ resourceTypes ∧ ns = namespace
  | DeleteChild _ => True
  | _ => False
  end.

Definition any_deleted (tr : history) : Prop := ∃ c, deleted c tr.

Lemma any_deleted_app tr tr' : any_deleted (tr ++ tr') ↔ any_deleted tr ∨ any_deleted tr'.
Proof. unfold any_deleted. setoid_rewrite elem_of_app. naive_solver. Qed.

Lemma deleteOwned_flag uid obj d tr0 namespace :
  (d = true → any_deleted tr0) →
  always anything (deleteOwned uid obj d) (λ tr r, Forall (deletion_step namespace) tr ∧
    match r with inl d' => d' = true → any_deleted (tr0 ++ tr) | inr _ => True end).
Proof.
  intros Hd. eapply always_mono.
  - apply (always_for_range anything (λ _ tr d, Forall (deletion_step namespace) tr ∧ (d = true → any_deleted (tr0 ++ tr)))
      (λ tr d, Forall (deletion_step namespace) tr ∧ (d = true → any_deleted (tr0 ++ tr)))
      (λ tr _, Forall (deletion_step namespace) tr)) with (tr0 := []); [done| |split; [done|by rewrite app_nil_r]].
    intros o rest tr d1 [Htr Hd1]. destruct (controlledBy uid o); [|cbn; by rewrite app_nil_r].
    on_call x. assert (Forall (deletion_step namespace) (tr ++ [ev (S := WorkSig) (DeleteChild obj) x])) as Htr'
      by (apply Forall_app; by split; [|constructor]).
    destruct x as [e|]; simpl; [done|]. split; [done|]. intros _. rewrite app_assoc. apply any_deleted_app. right. exists obj. by left.
  - intros tr [d'|e]; cbn; [done|by split].
Qed.

(** One kind: its listing, then its items. *)
Lemma DeleteUnderlyingResources_steps uid name namespace :
  always anything (DeleteUnderlyingResources uid name namespace) (λ tr o,
    Forall (deletion_step namespace) tr ∧ (o = Ok tt → any_deleted tr)).
Proof.
  unfold DeleteUnderlyingResources. apply always_bind.
  set (I := λ (tr : history) (d : bool), Forall (deletion_step namespace) tr ∧ (d = true → any_deleted tr)).
  eapply always_mono.
  - apply (always_for_range anything (λ rest tr d, rest ⊆ resourceTypes ∧ I tr d) I (λ tr _, Forall (deletion_step namespace) tr)) with (tr0 := []).
    + by intros tr d [_ ?].
    + intros k rest tr d [Hrest [Htr Hd]]. on_call got.
      assert (Forall (deletion_step namespace) (tr ++ [ev (S := WorkSig) (ListChildren k namespace) got])) as Htr'.
      { apply Forall_app. split; [done|]. constructor; [|done]. split; [apply Hrest; by left|done]. }
      destruct got as [e|items]; [exact Htr'|]. apply always_bind. eapply always_mono.
      * apply (always_for_range anything (λ _ tr1 d1, I (tr ++ ev (S := WorkSig) (ListChildren k namespace) (inr items) :: tr1) d1)
          (λ tr1 d1, I (tr ++ ev (S := WorkSig) (ListChildren k namespace) (inr items) :: tr1) d1)
          (λ tr1 _, Forall (deletion_step namespace) (tr ++ ev (S := WorkSig) (ListChildren k namespace) (inr items) :: tr1))) with (tr0 := []);
          [done| |].
        -- intros c rest1 tr1 d1 [Htr1 Hd1]. apply always_bind.
           eapply always_mono; [exact (deleteOwned_flag uid c d1 _ namespace Hd1)|].
           intros tr2 [d2|e] [Htr2 Hd2]; cbn [always mret prog_ret]; rewrite app_nil_r, app_comm_cons, app_assoc.
           ++ split; [by apply Forall_app|done].
           ++ by apply Forall_app.
        -- split; [exact Htr'|]. intros Ht. apply any_deleted_app. auto.
      * intros tr1 [d1|e] Hr; cbn [always mret prog_ret]; rewrite app_nil_r; [|exact Hr].
        split; [|exact Hr]. etrans; [|exact Hrest]. set_solver.
    + split; [done|]. split; [done|]. done.
  - intros tr [[]|e] Hr; cbn [always mret prog_ret]; rewrite app_nil_r; [|by destruct Hr|by split]. destruct Hr as [? Hr]. split; [done|]. auto.
Qed.

(** C23: when the deletion of what a workload owns succeeds, the deployments, Ray services,
    app wrappers, jobs, Ray jobs and volume claims of its namespace were listed, every
    listed object it controls was deleted, and there was at least one. Config maps,
    such as the one of the downloads, are never listed and so never deleted. *)
Theorem DeleteUnderlyingResources_complete uid name namespace :
  always anything (DeleteUnderlyingResources uid name namespace) (λ tr o,
    (o = Ok tt →
      (∀ k, k ∈ [KindDeployment; KindRayService; KindAppWrapper; KindJob; KindRayJob; KindPersistentVolumeClaim] →
         ∃ cs, ev (S := WorkSig) (ListChildren k namespace) (inr cs) ∈ tr ∧ ∀ c, c ∈ cs → controls uid c → deleted c tr) ∧
      ∃ c, deleted c tr) ∧
    ∀ ns x, ¬ (ev (S := WorkSig) (ListChildren KindConfigMap ns) x ∈ tr)).
Proof.
  eapply always_mono.
  { exact (always_both _ _ _ _ (DeleteUnderlyingResources_all uid name namespace) (DeleteUnderlyingResources_steps uid name namespace)). }
  intros tr o [Hall [Hsteps Hany]]. split; [intros Ho; split; [exact (Hall Ho)|exact (Hany Ho)]|].
  intros ns x Hin. rewrite Forall_forall in Hsteps. destruct (Hsteps _ Hin) as [Hk _]. by apply (bool_decide_eq_true_2 _) in Hk.
Qed.

(** * Admission *)

(** A workload counts as admitted exactly when Kueue has workloads for it and each
    of them has an Admitted condition that is not False; a workload object that does
    not exist yet is not admitted. *)
Theorem IsAdmitted_spec h :
  always anything (IsAdmitted h) (λ tr o, ∃ r, exec anything (wr_GetKueueWorkloads h) tr r ∧
    match r with
    | Ok kws => ∃ b, o = Ok b ∧ (b = true ↔ kws ≠ [] ∧
        Forall (λ k, ∃ i c, firstOf "Admitted" (wl_Conditions k) = Some (i, c) ∧ cond_Status c ≠ ConditionFalse) kws)
    | Err e => o = if IsNotFound e then Ok false else Err (Wrapf "failed to get kueue workloads" e)
    | Panics => o = Panics
    end).
Proof.
  assert (∀ l, allAdmitted l = true ↔
    Forall (λ k, ∃ i c, firstOf "Admitted" (wl_Conditions k) = Some (i, c) ∧ cond_Status c ≠ ConditionFalse) l) as Hall.
  { induction l as [|k l IH]; [done|]. cbn [allAdmitted]. rewrite Forall_cons, FindStatusCondition_first.
    destruct (firstOf "Admitted" (wl_Conditions k)) as [[i c]|] eqn:E; simpl; [|naive_solver].
    rewrite (proj1 (firstOf_elem _ _ _ _ E)). case_decide; [naive_solver|]. rewrite IH. naive_solver. }
  unfold IsAdmitted. apply always_bind. apply always_exec. intros tr r Hex. simpl. exists r. rewrite app_nil_r. split; [done|].
  destruct r as [[|k kws]|e|]; [exists false; split; [done|]; naive_solver| |done..].
  exists (allAdmitted (k :: kws)). split; [done|]. rewrite Hall. naive_solver.
Qed.

(** * Local queues *)

(** The answers of a cluster that has no such local queue, with the configuration
    [qc]. *)
Definition unqueued (qc : KaiwoQueueConfig) : contract WorkSig := λ r,
  match r return work_resp r → Prop with
  | GetLocalQueue _ => λ x, x = inl (StatusError ReasonNotFound)
  | GetQueueConfigObject _ => λ x, x = inr qc
  | GetClusterQueue _ => λ x, ∃ q, x = inr q
  | CreateLocalQueue _ => λ x, x = None
  | _ => λ _, True
  end.

(** What the queue [q] of a name makes of a request from a namespace. *)
Definition queued (queue namespace : string) (q : ClusterQueue) (tr : history) (o : outcome unit) : Prop :=
  match cq_Namespaces q with
  | [] => o = Ok tt → ∃ l, ev (S := WorkSig) (CreateLocalQueue l) None ∈ tr ∧ lq_ClusterQueue l = queue ∧
            om_Name (lq_Meta l) = queue ∧ om_Namespace (lq_Meta l) = namespace
  | namespaces => reads tr ∧ (o = Ok tt ↔ queue ∈ namespaces)
  end.

Lemma ensureFrom_spec qc queues queue namespace i q :
  list_find (λ q, cq_Name q = queue) queues = Some (i, q) →
  always (unqueued qc) (ensureFrom queues queue queue namespace) (queued queue namespace q).
Proof.
  revert i. induction queues as [|q' queues IH]; intros i; [done|]. cbn [list_find ensureFrom].
  destruct (decide (cq_Name q' = queue)) as [Hq|Hq]; [|rewrite decide_False by done; destruct (list_find _ queues) as [[i' q1]|]; [|done]].
  - rewrite decide_True by done. intros [= <- <-]. unfold queued. destruct (cq_Namespaces q') as [|ns nss] eqn:En.
    + apply always_orFail, always_call. intros x [cq Hx]. rewrite Hx. cbn [of_sum].
      apply always_orFail. simpl. destruct (SetOwnerReference _ _) as [e|l] eqn:Eo; [done|]. cbn [of_sum].
      apply SetOwnerReference_keeps in Eo as (El1 & El2 & El3). simpl in *.
      intros y Hy. subst y. simpl. intros _. exists l. split; [by right; left|done].
    + assert (existsb (λ n, bool_decide (n = queue)) (ns :: nss) = true ↔ queue ∈ ns :: nss) as Hex.
      { rewrite existsb_exists. split.
        - intros (n & Hin & Hn%bool_decide_eq_true). subst. by apply list_elem_of_In.
        - intros Hin. exists queue. split; [by apply list_elem_of_In|]. by apply bool_decide_eq_true. }
      destruct (existsb _ _); (split; [constructor|]); naive_solver.
  - simpl. intros [= <- <-]. by eapply IH.
Qed.

(** Where there is no local queue yet, the first configured cluster queue of the
    name decides. Without namespaces the local queue is created in the namespace of
    the workload; with namespaces nothing is created, and the result is no error
    exactly when one of the namespaces is called like the cluster queue, whatever
    the namespace of the workload is. *)
Theorem EnsureLocalQueue_spec qc queue namespace q i :
  list_find (λ q, cq_Name q = queue) (qs_ClusterQueues (qc_Spec qc)) = Some (i, q) →
  always (unqueued qc) (EnsureLocalQueue queue queue namespace) (queued queue namespace q).
Proof.
  intros Hfind. unfold EnsureLocalQueue. apply always_call. intros x Hx. simpl in Hx. subst x.
  change (IsNotFound (StatusError ReasonNotFound)) with true. cbv iota beta.
  apply always_orFail, always_call. intros x Hx. simpl in Hx. subst x. cbn [of_sum].
  refine (always_mono _ (ensureFrom _ _ _ _) _ _ (ensureFrom_spec qc _ queue namespace i q Hfind) _). intros tr o. unfold queued.
  destruct (cq_Namespaces q).
  - intros Hok Ho. destruct (Hok Ho) as (l & Hin & ?). exists l. split; [set_solver|done].
  - intros [Hr Ho]. split; [|done]. by repeat apply Forall_cons_2.
Qed.

(** * Storage *)

(** With downloads, the storage of a workload is seen as failed only when the
    download job failed: a volume that is lost does not count, because the overall
    status is the one of the last object. *)
Theorem storage_failure_is_download w spec previous :
  HasDownloads (Some spec) = true →
  always anything (storageObserveStatus mf w spec previous) (λ tr o, ∀ cs, o = Ok (WorkloadStatusFailed, cs) →
    ∃ job js failed ready active, ev (S := WorkSig) (GetChild KindJob (downloadKey (kw_key w))) (inr job) ∈ tr ∧
      ch_Status job = JobStatus js failed ready active ∧ ObserveBatchJob js failed ready active previous = WorkloadStatusFailed).
Proof.
  intros Hd. unfold storageObserveStatus. destruct (storageReconcilers _ _ _) as [recs|?|] eqn:E; [|done..].
  destruct (storageReconcilers_last _ _ _ _ E Hd) as [recs' ->]. apply always_bind. eapply always_mono.
  - apply (ObserveOverallStatus_last recs' (NewDownloadJobReconciler mf (kw_key w) spec) previous (λ job s, s = WorkloadStatusFailed →
      ∃ js failed ready active, ch_Status job = JobStatus js failed ready active ∧
        ObserveBatchJob js failed ready active previous = WorkloadStatusFailed)).
    intros job. simpl. intros st cs. destruct (ch_Status job) as [js failed ready active| | | | |]; try done.
    destruct (ObserveBatchJob js failed ready active previous) eqn:Eo; intros Heq; simplify_eq; eexists; (split; [done|]); try done.
    intros _. by exists js, failed, ready, active.
  - intros tr [[[s|] cs]|e|] Ho; simpl; intros cs' Heq; simplify_eq.
    destruct (Ho _ _ eq_refl) as [?|(job & s & [= <-] & Hf & Hin)]; [done|]. destruct (Hf eq_refl) as (js & f & r & a & ? & ?).
    exists job, js, f, r, a. by rewrite app_nil_r.
Qed.

(** * Getting stuck *)

(** Termination: the status, then the deletions. *)
Lemma TerminateWorkload_each (E : event WorkSig → Prop) w :
  (∀ r x, readOnly r = true → E (ev (S := WorkSig) r x)) → (∀ c x, E (ev (S := WorkSig) (DeleteChild c) x)) →
  (∀ now x, E (ev (S := WorkSig) (StatusUpdate (on_status (λ s, set_Conditions (terminatedConditions now (cs_Conditions (kw_Status w))).2
     (set_Status WorkloadStatusTerminated s)) w)) x)) → each E (TerminateWorkload w).
Proof.
  intros Hreads Hdel Hupd. unfold TerminateWorkload. assert (∀ r, readOnly r = true → each E (call (S := WorkSig) r)) as Hread by (intros r Hr; apply each_call; auto).
  apply each_bind; [by apply Hread|]. intros now.
  specialize (Hupd now). destruct (terminatedConditions now _) as [c cs]. simpl in Hupd.
  apply each_orFail; [apply each_bind; [by apply each_call|intros r; apply each_ret]|]. intros w2.
  apply each_orFail; [|intros _; apply each_bind; [by apply Hread|intros ?; apply each_ret]].
  apply each_bind; [|intros r; apply each_ret]. apply each_for_range. intros k d.
  apply each_bind; [by apply Hread|]. intros [e|items]; [apply each_ret|].
  apply each_bind; [|intros r; apply each_ret]. apply each_for_range. intros obj d'.
  apply each_bind; [|intros r; apply each_ret]. apply each_for_range. intros o d''.
  destruct (controlledBy _ o); [|apply each_ret]. apply each_bind; [by apply each_call|intros ?; apply each_ret].
Qed.

(** Nothing is created or patched, and every status written keeps a condition of the
    type. *)
Definition idles (t : string) (e : event WorkSig) : Prop :=
  match projT1 e with
  | CreateOrPatch _ _ | CreateLocalQueue _ => False
  | StatusUpdate w' => t ∈ cond_Type <$> cs_Conditions (kw_Status w')
  | _ => True
  end.

Abbreviation idle t := (each (idles t)).

Lemma idles_reads t r x : readOnly r = true → idles t (ev (S := WorkSig) r x).
Proof. by destruct r. Qed.
Local Hint Resolve idles_reads : core.

Lemma handleStatusTransition_idle t w s conds :
  t ∈ cond_Type <$> cs_Conditions (kw_Status w) → idle t (handleStatusTransition w s conds).
Proof.
  intros Ht. unfold handleStatusTransition.
  eapply each_bind_with; [auto|apply quiet_mergeConditions|by apply mergeConditions_keeps|]. intros cs Hcs.
  apply each_bind; [apply each_quiet; [auto|]; unfold announce, emit, currentTime; auto 8 with quiet|]. intros start.
  apply each_bind; [apply each_quiet; [auto|]; unfold durationOf, currentTime; auto with quiet|]. intros duration.
  apply each_bind; [apply each_quiet; [auto|]; unfold emit; auto with quiet|]. intros _.
  apply each_orFail; [|intros _; apply each_ret]. apply each_bind; [by apply each_call|intros r; apply each_ret].
Qed.

Lemma terminatedConditions_keeps t now cs :
  t ∈ cond_Type <$> cs → t ∈ cond_Type <$> snd (terminatedConditions now cs).
Proof.
  intros Ht. unfold terminatedConditions. destruct (FindStatusCondition _ _) as [i|]; [|by apply SetStatusCondition_keeps].
  destruct (cs !! i) as [c|] eqn:Ei; [|done]. apply SetStatusCondition_keeps. rewrite list_fmap_insert, list_insert_id; [done|].
  by rewrite list_lookup_fmap, Ei.
Qed.

Abbreviation known := (Forall (λ c, cond_Type c ∈ observedTypes)).

Lemma same_types a b : Forall2 same_condition a b → cond_Type <$> a = cond_Type <$> b.
Proof. induction 1 as [|c d cs ds (Hty & _) _ IH]; [done|]. by rewrite !fmap_cons, Hty, IH. Qed.

(** A recorded condition that is never observed keeps the lists apart. *)
Lemma ConditionsEqual_foreign t conds recorded :
  conds ≠ [] → known conds → t ∉ observedTypes → t ∈ cond_Type <$> recorded →
  ∃ a b, ConditionsEqual conds recorded = (false, a, b) ∧ t ∈ cond_Type <$> b.
Proof.
  intros Hne Hk Hno Ht. unfold ConditionsEqual.
  assert (t ∈ cond_Type <$> sortSlice typeLess recorded) as Hb by (by rewrite sortSlice_perm).
  eexists _, _. split; [|exact Hb]. f_equal. f_equal. apply not_true_iff_false.
  rewrite ConditionsCmp_spec; [|intros E; apply Hne; apply Permutation_nil_r; rewrite <- E; symmetry; apply sortSlice_perm].
  intros Heq%same_types. apply Hno. rewrite <- Heq in Hb. apply list_elem_of_fmap in Hb as (c & -> & Hc). rewrite sortSlice_perm in Hc.
  rewrite Forall_forall in Hk. by apply Hk.
Qed.

Lemma reconcileWorkload_idle t w :
  t ∉ observedTypes → t ∈ cond_Type <$> cs_Conditions (kw_Status w) → idle t (reconcileWorkload mf w).
Proof.
  intros Hno Ht. unfold reconcileWorkload.
  apply each_orFail; [apply each_quiet; [auto|]; unfold getConfig; auto 8 with quiet|]. intros cfg.
  destruct (isTerminalStatus _); [apply each_ret|]. case_decide.
  { apply each_orFail; [|intros _; apply each_ret]. apply TerminateWorkload_each; [auto|done|]. intros now x. by apply terminatedConditions_keeps. }
  unfold observeAndAct. apply each_orFail; [apply each_quiet; [auto|]; apply quiet_GetClusterContext|]. intros cluster.
  apply each_bind_with with (P := λ o, ∀ s cs, o = Ok (s, cs) → cs ≠ [] ∧ known cs);
    [auto|apply quiet_observeOverallStatus|apply observeOverallStatus_conditions|].
  intros [[s conds]|e|] Hc; [|apply each_ret..]. destruct (Hc _ _ eq_refl) as [Hne Hk].
  destruct (ConditionsEqual_foreign t conds _ Hne Hk Hno Ht) as (a & b & -> & Hb). rewrite decide_True by (by right).
  apply each_orFail; [by apply handleStatusTransition_idle|intros r; apply each_ret].
Qed.

(** The workload as a later reconcile records it. *)
Definition rewritten (w w' : KaiwoWorkload) : Prop :=
  ∃ tr o x, exec anything (reconcileWorkload mf w) tr o ∧ ev (S := WorkSig) (StatusUpdate w') x ∈ tr.

(** C37: once the utilization watcher has recorded on a workload, no reconcile creates or
    patches any of its objects again, neither the next one nor any later one: the
    condition it leaves is never observed and never removed, so the recorded
    conditions always differ from the observed ones. *)
Theorem watched_never_ensured w reason msg healthy :
  always anything (syncKaiwoStatus w reason msg healthy) (λ tr _, ∀ w1 x, ev (S := WorkSig) (StatusUpdate w1) x ∈ tr →
    ∀ w2, rtc rewritten w1 w2 → always anything (reconcileWorkload mf w2) (λ tr' _,
      ∀ d m y l z, ¬ (ev (S := WorkSig) (CreateOrPatch d m) y ∈ tr') ∧ ¬ (ev (S := WorkSig) (CreateLocalQueue l) z ∈ tr'))).
Proof.
  assert (KaiwoResourceUtilizationType ∉ observedTypes) as Hno by (by vm_compute; intros Hin; set_solver).
  assert (∀ w1 w2, KaiwoResourceUtilizationType ∈ cond_Type <$> cs_Conditions (kw_Status w1) → rtc rewritten w1 w2 →
    KaiwoResourceUtilizationType ∈ cond_Type <$> cs_Conditions (kw_Status w2)) as Hkeep.
  { intros w1 w2 Ht Hrtc. induction Hrtc as [|w1 w1' w2 (tr & o & x & Hex & Hin) _ IH]; [done|]. apply IH.
    pose proof (exec_always _ _ _ _ Hex _ (reconcileWorkload_idle _ _ Hno Ht)) as Hidle. cbv beta in Hidle.
    rewrite Forall_forall in Hidle. exact (Hidle _ Hin). }
  unfold syncKaiwoStatus. on_call now. apply always_orFail. on_call r. set (w1 := on_status _ w).
  assert (KaiwoResourceUtilizationType ∈ cond_Type <$> cs_Conditions (kw_Status w1)) as Hw1.
  { simpl. set (c := utilizationCondition now reason msg healthy). destruct (firstOf (cond_Type c) (cs_Conditions (kw_Status w))) as [[i old]|] eqn:E.
    - apply SetStatusCondition_keeps. destruct (firstOf_elem _ _ _ _ E) as [Hi Hty].
      apply list_elem_of_fmap. exists old. split; [done|]. by eapply list_elem_of_lookup_2.
    - rewrite SetStatusCondition_new by done. rewrite fmap_app. apply elem_of_app. right. by left. }
  assert (∀ tr, tr = [ev (S := WorkSig) CurrentTime now; ev (S := WorkSig) (StatusUpdate w1) r] → ∀ w1' x,
    ev (S := WorkSig) (StatusUpdate w1') x ∈ tr → ∀ w2, rtc rewritten w1' w2 → always anything (reconcileWorkload mf w2) (λ tr' _,
      ∀ d m y l z, ¬ (ev (S := WorkSig) (CreateOrPatch d m) y ∈ tr') ∧ ¬ (ev (S := WorkSig) (CreateLocalQueue l) z ∈ tr'))) as Hall.
  { intros tr -> w1' x Hin w2 Hrtc. assert (w1' = w1) as ->.
    { apply elem_of_cons in Hin as [Hin|Hin]; [by apply (f_equal (@projT1 _ _)) in Hin|].
      apply list_elem_of_singleton, (f_equal (@projT1 _ _)) in Hin. simpl in Hin. congruence. }
    eapply always_mono; [apply (reconcileWorkload_idle _ _ Hno (Hkeep _ _ Hw1 Hrtc))|]. cbv beta. intros tr o Hidle d m y l z.
    rewrite Forall_forall in Hidle. split; intros Hin'; exact (Hidle _ Hin'). }
  destruct r as [e|w2]; simpl; apply Hall; done.
Qed.

(** A step of a deletion, and one that failed. *)
Definition deletes (e : event WorkSig) : Prop :=
  match projT1 e with ListChildren _ _ | DeleteChild _ => True | _ => False end.

Definition fails (e : event WorkSig) : Prop :=
  match projT1 e as r return work_resp r → Prop with
  | ListChildren _ _ => λ x, ∃ err, x = inl err
  | DeleteChild _ => λ x, ∃ err, x = Some err
  | _ => λ _, False
  end (projT2 e).

(** A deletion that goes on has had no failure. *)
Lemma deleteOwned_fails uid obj d :
  always anything (deleteOwned uid obj d) (λ tr r, match r with inl _ => Forall (λ e, ¬ fails e) tr | inr _ => True end).
Proof.
  apply (always_for_range anything (λ _ tr _, Forall (λ e, ¬ fails e) tr) (λ tr _, Forall (λ e, ¬ fails e) tr) (λ _ _, True))
    with (tr0 := []); [done| |done].
  intros o rest tr d1 Htr. destruct (controlledBy uid o); [|cbn; by rewrite app_nil_r].
  on_call x. destruct x as [e|]; simpl; [done|]. apply Forall_app. split; [done|]. constructor; [|done].
  by intros [err ?].
Qed.

Lemma DeleteUnderlyingResources_fails uid name namespace :
  always anything (DeleteUnderlyingResources uid name namespace) (λ tr o,
    Forall deletes tr ∧ ((∃ e, e ∈ tr ∧ fails e) → ∃ err, o = Err err)).
Proof.
  eapply always_mono.
  { apply (always_both _ _ _ (λ tr o, (o = Ok tt → Forall (λ e, ¬ fails e) tr) ∧ o ≠ Panics) (DeleteUnderlyingResources_steps uid name namespace)).
    unfold DeleteUnderlyingResources. apply always_bind. eapply always_mono.
    - apply (always_for_range anything (λ _ tr _, Forall (λ e, ¬ fails e) tr) (λ tr _, Forall (λ e, ¬ fails e) tr) (λ _ _, True))
        with (tr0 := []); [done| |done].
      intros k rest tr d Htr. on_call got. destruct got as [e|items]; [done|]. apply always_bind. eapply always_mono.
      + apply (always_for_range anything (λ _ tr _, Forall (λ e, ¬ fails e) tr) (λ tr _, Forall (λ e, ¬ fails e) tr) (λ _ _, True))
          with (tr0 := []); [done| |done].
        intros c rest1 tr1 d1 Htr1. apply always_bind. eapply always_mono; [apply deleteOwned_fails|].
        intros tr2 [d2|e] Htr2; cbn [always mret prog_ret]; rewrite ?app_nil_r; [by apply Forall_app|done].
      + intros tr1 [d1|e] Htr1; cbn [always mret prog_ret]; rewrite ?app_nil_r; [|done]. apply Forall_app. split; [done|].
        constructor; [|done]. by intros [err ?].
    - intros tr [[]|e] Htr; cbn [always mret prog_ret]; rewrite ?app_nil_r; by split. }
  intros tr o [[Hsteps _] [Hok Hnp]]. split.
  - eapply Forall_impl; [exact Hsteps|]. intros [r x]. by destruct r.
  - intros (e & He & Hf). destruct o as [[]|err|]; [|by exists err|done].
    specialize (Hok eq_refl). rewrite Forall_forall in Hok. by destruct (Hok _ He).
Qed.

(** A reconcile of a terminated workload. *)
Lemma terminated_idle w :
  statusOf w = WorkloadStatusTerminated →
  always anything (reconcileWorkload mf w) (λ tr _, ∃ x, tr = [ev (S := WorkSig) (GetConfigObject "kaiwo") x]).
Proof.
  intros Hs. unfold reconcileWorkload, getConfig. apply always_orFail, always_orFail. on_call c.
  destruct c as [e|cfg]; cbn [of_sum mret prog_ret always]; [by eexists|]. rewrite Hs. cbn. by eexists.
Qed.

(** What the end of a termination did, once the status was taken. *)
Definition after_record (tr : history) : Prop :=
  Forall (λ e, match projT1 e with StatusUpdate _ => False | _ => True end) tr.

Lemma DeleteUnderlyingResources_ends w c :
  always anything
    (_ ←? DeleteUnderlyingResources (kw_UID w) (kw_Name w) (kw_Namespace w) else "failed to delete workload resources";
     _ ← emit w EventTypeWarning (cond_Reason c) (cond_Message c);
     mret (Ok tt)) (λ tr o, after_record tr ∧ ((∃ e, e ∈ tr ∧ fails e) → ∃ err, o = Err err)).
Proof.
  apply always_orFail. eapply always_mono; [apply DeleteUnderlyingResources_fails|]. intros tr o [Hdel Hfail].
  assert (after_record tr) as Hrec. { eapply Forall_impl; [exact Hdel|]. intros [r x]. by destruct r. }
  destruct o as [[]|e|]; [|cbn; rewrite ?app_nil_r; split; [done|by eauto]|cbn; rewrite ?app_nil_r; split; [done|]].
  - on_call x. cbn. split; [by apply Forall_app; split; [|constructor]|]. intros (e & He & Hf).
    apply elem_of_app in He as [He|He]; [by destruct (Hfail (ex_intro _ e (conj He Hf)))|].
    by apply list_elem_of_singleton in He as ->.
  - intros Hex. by destruct (Hfail Hex).
Qed.

(** How such a reconcile ends: nothing is deleted before the status is recorded, failures
    are returned, and what was recorded is left alone. *)
Definition forgets (tr : history) (o : outcome Result) : Prop :=
  (∀ before e after, tr = before ++ e :: after → deletes e →
     ∃ w1 w2, ev (S := WorkSig) (StatusUpdate w1) (inr w2) ∈ before ∧ statusOf w1 = WorkloadStatusTerminated) ∧
  ((∃ e, e ∈ tr ∧ fails e) → ∃ err, o = Err err) ∧
  ∀ w1 w2, ev (S := WorkSig) (StatusUpdate w1) (inr w2) ∈ tr → kw_Status w2 = kw_Status w1 →
    always anything (reconcileWorkload mf w2) (λ tr' _, ∃ x, tr' = [ev (S := WorkSig) (GetConfigObject "kaiwo") x]).

(** A status the server took. *)
Definition taken (e : event WorkSig) : Prop :=
  match projT1 e as r return work_resp r → Prop with
  | StatusUpdate _ => λ x, ∃ w2, x = inr w2
  | _ => λ _, False
  end (projT2 e).

(** Nothing was recorded. *)
Lemma forgets_unrecorded tr err : Forall (λ e, ¬ deletes e ∧ ¬ taken e) tr → forgets tr (Err err).
Proof.
  rewrite Forall_forall. intros Htr. split; [|split].
  - intros before e after -> Hd. destruct (Htr e) as [Hno _]; [apply elem_of_app; right; by left|done].
  - intros _. by exists err.
  - intros w1 w2 Hin. destruct (Htr _ Hin) as [_ []]. by exists w2.
Qed.

Ltac recorded_nothing :=
  repeat (apply List.Forall_cons; [split; [exact (λ x, x)|first [exact (λ x, x)|by intros [? ?]]]|]); apply List.Forall_nil.

(** The status was recorded by the third call. *)
Lemma forgets_recorded e1 e2 w1 w2 tr o :
  (∀ e, e ∈ [e1; e2] → readOnly (projT1 e) = true ∧ ¬ deletes e ∧ ¬ fails e) →
  statusOf w1 = WorkloadStatusTerminated → after_record tr → ((∃ e, e ∈ tr ∧ fails e) → ∃ err, o = Err err) →
  forgets (e1 :: e2 :: ev (S := WorkSig) (StatusUpdate w1) (inr w2) :: tr) o.
Proof.
  intros Hquiet Hst Hrec Hfail. assert (e1 ∈ [e1; e2] ∧ e2 ∈ [e1; e2]) as [He1 He2] by set_solver.
  destruct (Hquiet _ He1) as (Hr1 & Hd1 & Hf1), (Hquiet _ He2) as (Hr2 & Hd2 & Hf2). split; [|split].
  - intros before e after E Hd. exists w1, w2. split; [|done].
    destruct before as [|? before]; [by injection E as <- _|]. injection E as <- E.
    destruct before as [|? before]; [by injection E as <- _|]. injection E as <- E.
    destruct before as [|? before]; [by injection E as <- _|]. injection E as <- E. right. right. by left.
  - intros (e & He & Hf). apply Hfail. rewrite !elem_of_cons in He. destruct He as [->|[->|[->|He]]]; [done..|by exists e].
  - intros w1' w2' Hin Hkw. rewrite !elem_of_cons in Hin. unfold after_record in Hrec. rewrite Forall_forall in Hrec.
    destruct Hin as [<-|[<-|[E|Hin]]]; [done..| |by destruct (Hrec _ Hin)].
    apply terminated_idle. apply (f_equal (@projT1 _ _)) in E. injection E as <-. by rewrite Hkw.
Qed.

(** C38: a deletion that fails is not tried again. In a reconcile of a workload that is
    being terminated, nothing is listed or deleted before the status TERMINATED was
    written and taken by the server. When a listing or a deletion then fails, the
    reconcile returns an error; but on the status it has written, the next reconcile
    reads the configuration and does nothing else. *)
Theorem failed_deletion_forgotten w :
  statusOf w = WorkloadStatusTerminating →
  always anything (reconcileWorkload mf w) (λ tr o,
    (∀ before e after, tr = before ++ e :: after → deletes e →
       ∃ w1 w2, ev (S := WorkSig) (StatusUpdate w1) (inr w2) ∈ before ∧ statusOf w1 = WorkloadStatusTerminated) ∧
    ((∃ e, e ∈ tr ∧ fails e) → ∃ err, o = Err err) ∧
    ∀ w1 w2, ev (S := WorkSig) (StatusUpdate w1) (inr w2) ∈ tr → kw_Status w2 = kw_Status w1 →
      always anything (reconcileWorkload mf w2) (λ tr' _, ∃ x, tr' = [ev (S := WorkSig) (GetConfigObject "kaiwo") x])).
Proof.
  intros Hs. apply always_mono with (Q := forgets); [|done].
  unfold reconcileWorkload, getConfig. apply always_orFail, always_orFail. on_call c.
  destruct c as [e|cfg]; cbn [of_sum mret prog_ret always app]; [apply forgets_unrecorded; recorded_nothing|].
  rewrite Hs. cbn [isTerminalStatus]. rewrite decide_True by done. apply always_orFail. unfold TerminateWorkload. on_call now.
  destruct (terminatedConditions now _) as [c cs]. set (w1 := on_status _ w). apply always_orFail. on_call u.
  destruct u as [e|w2]; cbn [of_sum mret prog_ret always app].
  { apply forgets_unrecorded; recorded_nothing. }
  eapply always_mono; [apply DeleteUnderlyingResources_ends|]. cbv beta. intros tr o [Hrec Hfail].
  assert (∀ o', ((∃ e, e ∈ tr ∧ fails e) → ∃ err, o' = Err err) → forgets (ev (S := WorkSig) (GetConfigObject "kaiwo") (inr cfg)
    :: ev (S := WorkSig) CurrentTime now :: ev (S := WorkSig) (StatusUpdate w1) (inr w2) :: tr) o') as Hrecorded.
  { intros o' Ho'. apply forgets_recorded; [|done..]. intros e. rewrite elem_of_cons, list_elem_of_singleton.
    by intros [->| ->]; (split; [done|split; exact (λ x, x)]). }
  destruct o as [[]|e|]; rewrite ?app_nil_r; apply Hrecorded.
  - intros Hex. by destruct (Hfail Hex).
  - intros _. by eexists.
  - intros Hex. by destruct (Hfail Hex).
Qed.
End operations.

(** * The utilization watcher *)

Section watcher.
Context `{WorkloadLib} `{GoOrder} `{Host} (ErrorText : error → string).

(** Pods are found, and no workload is identified by the key of a pod. *)
Definition labelled (pods : gmap string GpuMetricsEntry) : contract WorkSig := λ r,
  match r return work_resp r → Prop with
  | GetPod _ => λ x, ∀ pod id, x = inr pod → pod_Labels pod !! KaiwoRunIdLabel = Some id → pods !! id = None
  | _ => λ _, True
  end.

(** The watcher judges a workload by one metric of one of its pods: the entries of
    the other pods are overwritten, because the entries appended to are looked up
    under the key of the pod instead of the workload. *)
Theorem fetchKaiwoWorkloads_one pods :
  always (labelled pods) (fetchKaiwoWorkloads ErrorText pods) (λ _ o, ∀ m id es, o = Ok m → m !! id = Some es → ∃ e, es = [e]).
Proof.
  unfold fetchKaiwoWorkloads. apply always_bind. eapply always_mono.
  - apply (always_for_range_closed (labelled pods) (λ _, True)
      (λ m : gmap string (list GpuMetricsEntry), ∀ id es, m !! id = Some es → pods !! id = None ∧ ∃ e, es = [e]) (λ _, True)); [done..| |].
    { intros id es Hl. by rewrite lookup_empty in Hl. }
    intros [key entry] m Hkey Hm. rewrite rangeMap_perm in Hkey. apply elem_of_map_to_list in Hkey.
    apply always_call. intros [e|pod] Hpod; simpl; [destruct (IsNotFound e); by split|]. simpl in Hpod.
    destruct (pod_Labels pod !! KaiwoRunIdLabel) as [id|] eqn:El; [|by split]. specialize (Hpod pod id eq_refl El).
    split; [done|]. unfold addEntry. set (m1 := match m !! id with Some _ => _ | None => _ end).
    assert (m1 !! key = None) as Hnone.
    { assert (m !! key = None) as Hk by (destruct (m !! key) as [es|] eqn:Ek; [|done]; destruct (Hm _ _ Ek); congruence).
      subst m1. destruct (m !! id); [done|]. rewrite lookup_insert_ne by congruence. done. }
    rewrite Hnone. simpl. intros id' es'. destruct (decide (id = id')) as [<-|Hne].
    + rewrite lookup_insert_eq. intros [= <-]. split; [done|]. by eexists.
    + rewrite lookup_insert_ne by done. subst m1. destruct (m !! id); [apply Hm|]. rewrite lookup_insert_ne by done. apply Hm.
  - intros tr [m|e] [_ Hr]; simpl; intros m' id es Heq Hl; simplify_eq. by destruct (Hr _ _ Hl).
Qed.

(** The answers of a server with the configuration and of an endpoint with the
    metrics. *)
Definition exposes (cfg : WorkloadConfig) (metrics : gmap string (list GaugeMetric)) : contract WorkSig := λ r,
  match r return work_resp r → Prop with
  | GetConfigObject _ => λ x, x = inr cfg
  | ScrapeMetrics _ => λ x, x = inr metrics
  | _ => λ _, True
  end.

(** A scrape without the metric makes the watcher panic. *)
Theorem tick_without_metric_panics m cfg metrics :
  metrics !! "gpu_gfx_activity" = None →
  always (exposes cfg metrics) (tick ErrorText m) (λ _ o, o = Panics).
Proof.
  intros Hm. unfold tick, getConfig. apply always_bind, always_orFail, always_call. intros x Hx. simpl in Hx. subst x. simpl.
  intros x Hx. subst x. rewrite Hm. done.
Qed.
End watcher.
