(* ===== verification/Endpoint.v ===== *)
(** How the two pollers read a metrics endpoint: [scrape] of the GPU scraper
    (internal/controller/gpuworkload_scraper.go) and [scrapeMetrics] of the utilization
    watcher (pkg/utils/monitoring/metrics.go), and what becomes of their loops when the
    endpoint answers with an error page. *)

From stdpp Require Import gmap strings list pretty.
From Stdlib Require Import ZArith Lia.
From S2P Require Import Prelude History Types GpuResources GpuApi Scraper Scheduling WorkloadTypes WorkloadApi Monitoring WorkloadTheory Tickers.

(** * Reading over HTTP *)

(** What came back: the status, the bytes of the body that can be read, and whether the
    body can be closed. *)
Record HttpResponse := { hr_StatusCode : Z; hr_Body : string; hr_CloseError : option error }.

Inductive http_req := HttpGet (url : string) (timeout : Z).
Definition HttpSig : sig := Sig http_req (λ _, (error + HttpResponse)%type).

(** The parser of the text format, for families whose metrics are of type [A]. A text
    without a line has no families. *)
Class TextFormat (A : Type) := {
  TextToMetricFamilies : string → error + gmap string (list A);
  TextToMetricFamilies_empty : TextToMetricFamilies "" = inr ∅
}.

Definition scraperHTTPTimeout : Z := 5 * Second.

(** An error of closing the body is dropped. *)
Definition scrape `{TextFormat Metric} (s : GpuMetricsScraper) : prog HttpSig (error + gmap string (list Metric)) :=
  got ← call (S := HttpSig) (HttpGet (metricsEndpoint s) scraperHTTPTimeout);
  mret (match got with
        | inl err => inl err
        | inr resp =>
            if decide (hr_StatusCode resp < 200 ∨ 300 ≤ hr_StatusCode resp) then
              inl (Errorf ("metrics endpoint returned HTTP " +:+ pretty (hr_StatusCode resp) +:+ ": " +:+ hr_Body resp))
            else TextToMetricFamilies (hr_Body resp)
        end).

(** The status is not looked at, and an error of closing the body is a panic. *)
Definition scrapeMetrics `{TextFormat GaugeMetric} (url : string) : prog HttpSig (outcome (gmap string (list GaugeMetric))) :=
  got ← call (S := HttpSig) (HttpGet url (5 * Second));
  mret (match got with
        | inl err => Err err
        | inr resp =>
            match hr_CloseError resp with
            | Some _ => Panics
            | None => of_sum (TextToMetricFamilies (hr_Body resp))
            end
        end).

(** * Error pages *)

(** The endpoint answers with this status and nothing else. *)
Definition error_page (status : Z) : contract HttpSig := λ _ got,
  got = inr {| hr_StatusCode := status; hr_Body := ""; hr_CloseError := None |}.

(** The same calls, and what wakes the loop is not restricted. *)
Definition lifted {S : sig} (ok : contract S) : contract (Ticks S) := λ r,
  match r return resp (Ticks S) r → Prop with Select => λ _, True | Act r => ok r end.

Lemma always_acting_ok {S A} ok (p : prog S A) (Q : A → Prop) :
  always ok p (λ _ a, Q a) → always (lifted ok) (acting p) (λ _ a, Q a).
Proof. induction p as [a|r k IH]; simpl; [done|]. intros Hk x Hx. apply IH, Hk, Hx. Qed.

(** A body that always panics is run once at most. *)
Lemma tickLoop_panics {S} ok (body : prog S (outcome unit)) n :
  always ok body (λ _ o, o = Panics) →
  always (lifted ok) (tickLoop body (Datatypes.S n)) (λ tr e,
    (e = Returned ∧ tr = [ev (S := Ticks S) Select ContextDone]) ∨ (e = Crashed ∧ ∃ tr', tr = ev (S := Ticks S) Select Tick :: tr')).
Proof.
  intros Hbody. cbn [tickLoop]. apply always_call. intros [|] _; [by left|]. apply always_bind.
  eapply always_mono; [by apply (always_acting_ok ok body (λ o, o = Panics))|]. intros tr o ->. right. split; [done|]. by eexists.
Qed.

Section error_pages.
Context `{WorkloadLib} `{GoOrder} `{Host} (ErrorText : error → string).
Context `{TextFormat Metric} `{TextFormat GaugeMetric}.

(** C39: an endpoint that answers with an empty error page, as a proxy does while the
    exporter behind it is down. The scraper takes it for an error, and its loop survives
    whatever is answered. The watcher reads it as metrics that are all missing, and its
    first tick panics and takes the operator down. *)
Theorem error_page_crashes_watcher status (s : GpuMetricsScraper) (m : MetricsWatcher) cfg n :
  status < 200 ∨ 300 ≤ status → 0 < pollInterval s → 0 < mw_pollInterval m →
  (always (error_page status) (scrape s) (λ _ r, ∃ e, r = inl e) ∧
   always anything (startScraper s n) (λ _ e, e ≠ Crashed)) ∧
  (always (error_page status) (scrapeMetrics (mw_metricsEndpoint m)) (λ _ o, o = Ok ∅) ∧
   always (lifted (exposes cfg ∅)) (startWatcher ErrorText m (Datatypes.S n)) (λ tr e,
     (e = Returned ∧ tr = [ev (S := Ticks WorkSig) Select ContextDone]) ∨
     (e = Crashed ∧ ∃ tr', tr = ev (S := Ticks WorkSig) Select Tick :: tr'))).
Proof.
  intros Hstatus Hs Hm. split_and!.
  - apply always_call. intros got ->. cbn. rewrite decide_True by done. by eexists.
  - eapply always_mono; [by apply startScraper_survives|]. cbv beta. by intros tr e [_ ?].
  - apply always_call. intros got ->. cbn. by rewrite TextToMetricFamilies_empty.
  - unfold startWatcher. rewrite withTicker_started by done. by apply tickLoop_panics, tick_without_metric_panics.
Qed.
End error_pages.
