(* ===== verification/WorkloadInstances.v ===== *)
(** An instance of the library functions the workload controllers are proved
    against, as their documentation describes them, and the manifests of a cluster
    where every object is a bare one. *)

From stdpp Require Import gmap strings list.
From Stdlib Require Import ZArith Lia.
From S2P Require Import Prelude Types Kueue Scheduling WorkloadTypes WorkloadApi Handlers.

#[export] Instance same_condition_dec c d : Decision (same_condition c d).
Proof. unfold same_condition. apply _. Defined.

Definition setStatusCondition (now : Z) (cs : list Condition) (c : Condition) : list Condition :=
  let fresh := if decide (cond_LastTransitionTime c = 0) then now else cond_LastTransitionTime c in
  match firstOf (cond_Type c) cs with
  | Some (i, old) => <[i := with_time (if decide (cond_Status old = cond_Status c) then cond_LastTransitionTime old else fresh) c]> cs
  | None => cs ++ [with_time fresh c]
  end.

Definition controllerReference (w : KaiwoWorkload) : OwnerReference :=
  {| or_APIVersion := "kaiwo.silogen.ai/v1alpha1";
     or_Kind := match kw_Kind w with KindKaiwoJob => "KaiwoJob" | KindKaiwoService => "KaiwoService" end;
     or_Name := kw_Name w; or_UID := kw_UID w; or_Controller := Some true |}.

#[refine, export] Instance plainWorkloadLib : WorkloadLib := {
  FindStatusCondition cs t := fst <$> firstOf t cs;
  IsStatusConditionTrue cs t := match firstOf t cs with Some (_, c) => bool_decide (cond_Status c = ConditionTrue) | None => false end;
  SetStatusCondition := setStatusCondition;
  ConditionsCmp a b := bool_decide (Forall2 same_condition a b);
  SetControllerReferenceOn w c := inr (set_OwnerReferences (ch_OwnerReferences c ++ [controllerReference w]) c);
  SetOwnerReference q l := inr l;
  ObjectKinds c := inr [mkGVK "" "v1" "Object"];
  GVKText g := gvk_group g +:+ "/" +:+ gvk_version g +:+ ", Kind=" +:+ gvk_kind g;
  ParseQuantity s := match Str.Atoi s with Some n => Some {| q_Nano := n * 10 ^ 9; q_Format := BinarySI |} | None => None end
}.
Proof.
  - done.
  - intros cs t. destruct (firstOf t cs) as [[i c]|]; [|naive_solver]. rewrite bool_decide_eq_true. naive_solver.
  - intros now cs c Hf. unfold setStatusCondition. by rewrite Hf.
  - intros now cs c i old Hf. unfold setStatusCondition. rewrite Hf. eexists. split; [done|]. intros Hs. by rewrite decide_True.
  - intros a b _. apply bool_decide_eq_true.
  - intros w c c' [= <-]. by eexists.
  - by intros q l l' [= <-].
Defined.

Definition bare (kind : ChildKind) (key : Key) : Child :=
  {| ch_Kind := kind; ch_Name := key_name key; ch_Namespace := key_namespace key; ch_UID := ""; ch_Generation := 0;
     ch_OwnerReferences := []; ch_Replicas := None; ch_Content := JNull; ch_Status := NoStatus |}.

Definition bareManifests : Manifests :=
  {| mf_BatchJob w _ _ := Ok (bare KindJob (kw_key w)); mf_RayJob w _ _ := Ok (bare KindRayJob (kw_key w));
     mf_Deployment w _ _ := Ok (bare KindDeployment (kw_key w)); mf_AppWrapper w _ _ := Ok (bare KindAppWrapper (kw_key w));
     mf_Pvc k _ _ := bare KindPersistentVolumeClaim k; mf_DownloadConfigMap k _ := Ok (bare KindConfigMap (downloadKey k));
     mf_DownloadJob k _ := Ok (bare KindJob (downloadKey k)) |}.
