(* ===== verification/ManifestInstances.v ===== *)
(** The manifests as the parameter of the controllers: [kaiwoManifests] is what the
    handlers of Handlers.v are given. *)

From stdpp Require Import gmap strings list.
From Stdlib Require Import ZArith Lia.
From S2P Require Import Prelude Types Kueue Scheduling Nodepools WorkloadTypes WorkloadApi Handlers PodSpecs Downloads Manifests ManifestTheory Observation.

(** * The manifests of the controllers *)

(** How the objects print: the content the controllers pass on. *)
Class ManifestCodec := {
  EncodeJob : BatchJob → Json;
  EncodeRayJob : RayJob → Json;
  EncodeDeployment : Deployment → Json;
  EncodeAppWrapper : AppWrapper → Json;
  EncodePvc : PersistentVolumeClaim → Json;
  EncodeConfigMap : ConfigMap → Json
}.

Definition desired (kind : ChildKind) (namespace name : string) (replicas : option Z) (content : Json) : Child :=
  {| ch_Kind := kind; ch_Name := name; ch_Namespace := namespace; ch_UID := ""; ch_Generation := 0; ch_OwnerReferences := [];
     ch_Replicas := replicas; ch_Content := content; ch_Status := NoStatus |}.

Section instance.
Context `{GoOrder} `{Quantities} `{WorkloadLib} `{JsonLib} `{YamlLib} `{ManifestCodec}.

(** The configuration, the rest of the spec of a workload and its environment, by what the
    controllers know of them. *)
Context (configOf : WorkloadConfig → ManifestConfig) (inputOf : KaiwoWorkload → ManifestInput) (envOf : Key → list EnvVar).

Definition kaiwoManifests : Manifests :=
  {| mf_BatchJob w c ctx :=
       outcome_map (λ j, desired KindJob (jb_Namespace j) (jb_Name j) None (EncodeJob j)) (buildBatchJob (configOf c) (cc_GpuStats ctx) (inputOf w));
     mf_RayJob w c ctx :=
       outcome_map (λ j, desired KindRayJob (ryj_Namespace j) (ryj_Name j) None (EncodeRayJob j)) (buildRayJob (configOf c) (cc_GpuStats ctx) (inputOf w));
     mf_Deployment w c ctx :=
       outcome_map (λ d, desired KindDeployment (dep_Namespace d) (dep_Name d) (dp_Replicas (dep_Spec d)) (EncodeDeployment d))
         (buildDeployment (configOf c) (cc_GpuStats ctx) (inputOf w));
     mf_AppWrapper w c ctx :=
       outcome_map (λ a, desired KindAppWrapper (aw_Namespace a) (aw_Name a) None (EncodeAppWrapper a))
         (buildAppWrapper (configOf c) (cc_GpuStats ctx) (inputOf w));
     mf_Pvc key q spec :=
       let pvc := buildPvc key q spec in desired KindPersistentVolumeClaim (pvc_Namespace pvc) (pvc_Name pvc) None (EncodePvc pvc);
     mf_DownloadConfigMap key spec :=
       outcome_map (λ m, desired KindConfigMap (cm_Namespace m) (cm_Name m) None (EncodeConfigMap m)) (buildDownloadConfigMap key spec);
     mf_DownloadJob key spec :=
       outcome_map (λ j, desired KindJob (jb_Namespace j) (jb_Name j) None (EncodeJob j)) (buildDownloadJob key spec (envOf key)) |}.

(** A reconciler's desired object is of the kind and under the key it looks up. *)
Definition keyed (rec : ResourceReconciler) : Prop :=
  ∀ c ctx obj, rr_BuildDesired rec c ctx = Ok obj → ch_Kind obj = rr_Kind rec ∧ ch_key obj = rr_Key rec.

Lemma buildBatchJob_key cfg stats m j : buildBatchJob cfg stats m = Ok j → mkKey (jb_Namespace j) (jb_Name j) = kw_key (mi_Workload m).
Proof. unfold buildBatchJob. destruct (AddEntrypoint _ _); [|done..]. destruct (CalculateResourceConfig _ _ _); [|done]. by intros [= <-]. Qed.

Lemma buildRayJob_key cfg stats m j : buildRayJob cfg stats m = Ok j → mkKey (ryj_Namespace j) (ryj_Name j) = kw_key (mi_Workload m).
Proof.
  unfold buildRayJob. destruct (if decide _ then _ else _); [|done..]. destruct (rj_RayClusterSpec _); [|done].
  destruct (UpdateRayClusterSpec _ _ _ _); [|done..]. by intros [= <-].
Qed.

Lemma buildDeployment_key cfg stats m d : buildDeployment cfg stats m = Ok d → mkKey (dep_Namespace d) (dep_Name d) = kw_key (mi_Workload m).
Proof.
  unfold buildDeployment. destruct (dp_Selector _) as [[[ml|] exprs]|]; [|done..]. destruct (CalculateResourceConfig _ _ _); [|done].
  destruct (AddEntrypoint _ _); [|done..]. by intros [= <-].
Qed.

Lemma buildAppWrapper_key cfg stats m a : buildAppWrapper cfg stats m = Ok a → mkKey (aw_Namespace a) (aw_Name a) = kw_key (mi_Workload m).
Proof.
  unfold buildAppWrapper. destruct (buildRayService _ _ _); [|done..]. destruct (CalculateResourceConfig _ _ _); [|done].
  destruct (MarshalRayServiceSpec _); [done|]. destruct (MarshalLabels _); [done|]. by intros [= <-].
Qed.

Lemma buildDownloadConfigMap_key key spec m : buildDownloadConfigMap key spec = Ok m → mkKey (cm_Namespace m) (cm_Name m) = downloadKey key.
Proof. unfold buildDownloadConfigMap. destruct (Marshal _); [done|]. by intros [= <-]. Qed.

Lemma buildDownloadJob_key key spec env j : buildDownloadJob key spec env = Ok j → mkKey (jb_Namespace j) (jb_Name j) = downloadKey key.
Proof. unfold buildDownloadJob. destruct (addEnvVars _ _); [|done..]. by intros [= <-]. Qed.

(** The controllers' parameter is met by these manifests: every object they make of a
    workload, its own and those of its storage, is the one they look up. *)
Theorem kaiwoManifests_keyed w spec recs :
  mi_Workload (inputOf w) = w → storageReconcilers kaiwoManifests (kw_key w) spec = Ok recs →
  keyed (wr_Resource (workloadHandler kaiwoManifests w)) ∧ Forall keyed recs.
Proof.
  intros Hw Hrecs. split.
  - unfold workloadHandler, NewKaiwoJobHandler, NewKaiwoServiceHandler, keyed.
    destruct (kw_Kind w), (IsRay w); cbn [negb wr_Resource rr_BuildDesired BatchJobHandler RayJobHandler DeploymentHandler RayServiceHandler rr_Kind rr_Key
      kaiwoManifests mf_BatchJob mf_RayJob mf_Deployment mf_AppWrapper]; intros c ctx obj (x & Hx & <-)%outcome_map_ok; (split; [done|]);
      unfold ch_key; cbn [desired ch_Namespace ch_Name]; (transitivity (kw_key (mi_Workload (inputOf w))); [|by rewrite Hw]).
    + by eapply buildRayJob_key.
    + by eapply buildBatchJob_key.
    + by eapply buildAppWrapper_key.
    + by eapply buildDeployment_key.
  - revert Hrecs. apply (storageReconcilers_forall kaiwoManifests); unfold keyed.
    + unfold NewPvcReconciler. intros [n k] a r. destruct (ParseQuantity a); [|done]. by intros [= <-] c ctx obj [= <-].
    + intros c ctx obj (x & Hx & <-)%outcome_map_ok. split; [done|]. exact (buildDownloadConfigMap_key _ _ _ Hx).
    + intros c ctx obj (x & Hx & <-)%outcome_map_ok. split; [done|]. exact (buildDownloadJob_key _ _ _ _ Hx).
Qed.
End instance.
