(* ===== verification/Clients.v ===== *)
(** How the client and its tools start: the path of the kubeconfig, the clients made from
    it and the two values that are made once for the whole process (pkg/k8s/client.go),
    and the log level the flags ask for (pkg/cli/main.go). *)

From stdpp Require Import gmap strings list.
From Stdlib Require Import ZArith Lia.
From S2P Require Import Prelude History Float64 Types GpuResources.

(** * Calls *)

(** Configurations and clients are opaque; a number tells them apart. *)
Inductive setup_req :=
| HomeDir
| Stat (path : string)
| BuildConfigFromFlags (path : string)
| GetControllerConfig
| RegisterAPI (api : string)
| NewDynamicForConfig (config : nat)
| NewClientsetForConfig (config : nat)
| NewControllerClient (config : nat) (scheme : list string).

Definition setup_resp (r : setup_req) : Type :=
  match r with
  | HomeDir => string
  | Stat _ | RegisterAPI _ => option error
  | BuildConfigFromFlags _ | GetControllerConfig | NewDynamicForConfig _ | NewClientsetForConfig _ | NewControllerClient _ _ => error + nat
  end.

Definition SetupSig : sig := Sig setup_req setup_resp.
Abbreviation CM := (prog SetupSig).

(** * The package variables *)

(** A value guarded by a [sync.Once]: whether it ran, the value and the error. *)
Record Once (A : Type) := { on_Ran : bool; on_Value : A; on_Error : option error }.
Arguments on_Ran {A} o.
Arguments on_Value {A} o.
Arguments on_Error {A} o.

(** [once.Do] around an initializer that logs a failure with [Fatalf], which ends the
    process ([None]); the assignment of the error that follows is never reached. *)
Definition doOnce {A} (init : CM (outcome A)) (o : Once A) : CM (option (Once A)) :=
  if on_Ran o then mret (Some o)
  else
    r ← init;
    mret (match r with
          | Ok a => Some {| on_Ran := true; on_Value := a; on_Error := on_Error o |}
          | Err _ | Panics => None
          end).

(** What the getters return. *)
Definition once_result {A} (o : Once A) : A * option error := (on_Value o, on_Error o).

(** The dynamic client, nil until it is made, and the scheme, empty until it is built. *)
Definition dynamicUnset : Once (option nat) := {| on_Ran := false; on_Value := None; on_Error := None |}.
Definition schemeUnset : Once (list string) := {| on_Ran := false; on_Value := []; on_Error := None |}.

Section clients.
Context `{Host} (ErrorText : error → string) (IsNotExist : error → bool) (JoinPath : string → list string → string).

(** [fmt.Errorf("...: %v", err)] keeps the text of the cause only. *)
Definition restateError {A} (msg : string) (o : outcome A) : outcome A :=
  match o with Err e => Err (Errorf (msg +:+ ": " +:+ ErrorText e)) | o => o end.

(** Only a path that does not exist is an error. *)
Definition GetKubeConfig : CM (outcome string) :=
  let kubeConfigPath := Getenv "KUBECONFIG" in
  if decide (kubeConfigPath ≠ "") then mret (Ok kubeConfigPath)
  else
    home ← call (S := SetupSig) HomeDir;
    let kubeConfigPath := JoinPath home [".kube"; "config"] in
    e ← call (S := SetupSig) (Stat kubeConfigPath);
    mret (match e with
          | Some err => if IsNotExist err then Err (Errorf ("kubeconfig file not found: " +:+ kubeConfigPath)) else Ok kubeConfigPath
          | None => Ok kubeConfigPath
          end).

Definition handing {A} (r : setup_req) (as_sum : setup_resp r → error + A) (msg : string) : CM (outcome A) :=
  x ← call (S := SetupSig) r; mret (restateError msg (of_sum (as_sum x))).

(** [if err != nil { return nil, err }]. *)
Definition andThen {A B} (p : CM (outcome A)) (k : A → CM (outcome B)) : CM (outcome B) :=
  o ← p; match o with Ok a => k a | Err e => mret (Err e) | Panics => mret Panics end.

Definition buildKubeConfig : CM (outcome nat) :=
  andThen GetKubeConfig (λ path, handing (BuildConfigFromFlags path) id "failed to build kubeconfig").

Definition InitializeDynamicClient : CM (outcome (option nat)) :=
  andThen buildKubeConfig (λ config,
    andThen (handing (NewDynamicForConfig config) id "failed to create dynamic Kubernetes client") (λ c, mret (Ok (Some c)))).

Definition GetDynamicClient : Once (option nat) → CM (option (Once (option nat))) := doOnce InitializeDynamicClient.

(** The scheme is the list of the APIs that were added. *)
Definition buildScheme : CM (outcome (list string)) :=
  r ← for_range [("core Kubernetes", "core"); ("batch Kubernetes", "batch"); ("kueue Kubernetes", "kueue"); ("RayService", "ray"); ("Kaiwo", "kaiwo")] []
        (λ '(what, api) scheme,
          e ← call (S := SetupSig) (RegisterAPI api);
          mret (match e with
                | Some err => Return (Errorf ("failed to add " +:+ what +:+ " types to scheme: " +:+ ErrorText err))
                | None => Continue (scheme ++ [api])
                end));
  mret (match r with inl scheme => Ok scheme | inr e => Err e end).

Definition GetScheme : Once (list string) → CM (option (Once (list string))) := doOnce buildScheme.

(** Functions of the process's scheme give it back; the outer [None] is its end. *)
Definition withScheme {A} (s : Once (list string)) (k : Once (list string) → CM (outcome A)) : CM (option (Once (list string) * outcome A)) :=
  o ← GetScheme s;
  match o with
  | None => mret None
  | Some s' => r ← k s'; mret (Some (s', r))
  end.

(** The configuration is read before the scheme is asked for. *)
Definition GetClient (s : Once (list string)) : CM (option (Once (list string) * outcome nat)) :=
  got ← handing GetControllerConfig id "failed to get Kubernetes config";
  match got with
  | Ok cfg =>
      withScheme s (λ s', match on_Error s' with
        | Some e => mret (Err (Errorf ("failed to get Kubernetes scheme: " +:+ ErrorText e)))
        | None => handing (NewControllerClient cfg (on_Value s')) id "failed to create Kubernetes client"
        end)
  | Err e => mret (Some (s, Err e))
  | Panics => mret (Some (s, Panics))
  end.

(** The error of [GetKubeConfig] is dropped, and the path is empty then. *)
Definition GetClientset : CM (outcome nat) :=
  path ← GetKubeConfig;
  andThen (handing (BuildConfigFromFlags (match path with Ok p => p | _ => "" end)) id "failed to get Kubernetes config") (λ config,
    handing (NewClientsetForConfig config) id "failed to create Kubernetes client").

Record KubernetesClients := { kcl_Client : nat; kcl_Clientset : nat; kcl_Kubeconfig : nat }.

Definition GetKubernetesClients (s : Once (list string)) : CM (option (Once (list string) * outcome KubernetesClients)) :=
  got ← GetClient s;
  match got with
  | None => mret None
  | Some (s', client) =>
      r ← andThen (mret (restateError "failed to get Kubernetes client" client)) (λ k8sClient,
            clientset ← GetClientset;
            andThen (mret (restateError "failed to get Kubernetes clientset" clientset)) (λ clientset,
              kubeconfig ← buildKubeConfig;
              andThen (mret (restateError "failed to get Kubernetes config" kubeconfig)) (λ kubeconfig,
                mret (Ok {| kcl_Client := k8sClient; kcl_Clientset := clientset; kcl_Kubeconfig := kubeconfig |}))));
      mret (Some (s', r))
  end.

(** * Once *)

(** Asking [n] times, in one process. *)
Fixpoint askOften {A} (init : CM (outcome A)) (n : nat) (o : Once A) : CM (option (list (A * option error))) :=
  match n with
  | O => mret (Some [])
  | Datatypes.S n' =>
      r ← doOnce init o;
      match r with
      | None => mret None
      | Some o' => rest ← askOften init n' o'; mret (cons (once_result o') <$> rest)
      end
  end.

Lemma askOften_ran {A} (init : CM (outcome A)) n o :
  on_Ran o = true → askOften init n o = mret (Some (replicate n (once_result o))).
Proof. intros Hran. induction n as [|n IH]; [done|]. cbn [askOften]. unfold doOnce. rewrite Hran. cbn. by rewrite IH. Qed.

(** Whoever asks, and however often, the value is made once: the calls of the process
    are those of one run of the initializer, everyone gets what it made and no error, and
    a failure ends the process. *)
Theorem askOften_once {A} (init : CM (outcome A)) n unset :
  on_Ran unset = false → on_Error unset = None →
  always anything (askOften init (Datatypes.S n) unset) (λ tr r, ∃ o, exec anything init tr o ∧
    r = match o with Ok a => Some (replicate (Datatypes.S n) (a, None)) | _ => None end).
Proof.
  intros Hran Herr. cbn [askOften]. unfold doOnce. rewrite Hran. apply always_bind, always_bind.
  eapply always_mono; [apply always_exec; intros tr o Hex; exact Hex|]. intros tr o Hex. destruct o as [a|e|]; cbn.
  - rewrite askOften_ran by done. exists (Ok a). cbn. rewrite !app_nil_r. unfold once_result. cbn. by rewrite Herr.
  - exists (Err e). by rewrite !app_nil_r.
  - exists Panics. by rewrite !app_nil_r.
Qed.

(** * Without a kubeconfig *)

(** No file is where a kubeconfig is looked for. *)
Definition no_kubeconfig : contract SetupSig := λ r,
  match r return setup_resp r → Prop with Stat _ => λ x, ∃ e, x = Some e ∧ IsNotExist e = true | _ => λ _, True end.

Lemma GetKubeConfig_missing :
  Getenv "KUBECONFIG" = "" → always no_kubeconfig GetKubeConfig (λ _ o, ∃ e, o = Err e).
Proof.
  intros Henv. unfold GetKubeConfig. rewrite Henv, decide_False by tauto. apply always_call. intros home _.
  apply always_call. intros x (e & -> & He). cbn. rewrite He. by eexists.
Qed.

Lemma buildKubeConfig_missing :
  Getenv "KUBECONFIG" = "" → always no_kubeconfig buildKubeConfig (λ _ o, ∃ e, o = Err e).
Proof.
  intros Henv. unfold buildKubeConfig, andThen. apply always_bind. eapply always_mono; [by apply GetKubeConfig_missing|].
  intros tr o [e ->]. by eexists.
Qed.

Lemma never_bind {A B} (p : CM A) (k : A → CM (outcome B)) :
  (∀ a, always no_kubeconfig (k a) (λ _ o, ∀ b, o ≠ Ok b)) → always no_kubeconfig (p ≫= k) (λ _ o, ∀ b, o ≠ Ok b).
Proof. intros Hk. apply always_bind. eapply always_mono; [apply always_true|]. cbv beta. intros tr a ?. apply Hk. Qed.

Lemma never_andThen {A B} (p : CM (outcome A)) (k : A → CM (outcome B)) :
  (∀ a, always no_kubeconfig (k a) (λ _ o, ∀ b, o ≠ Ok b)) → always no_kubeconfig (andThen p k) (λ _ o, ∀ b, o ≠ Ok b).
Proof. intros Hk. apply never_bind. intros [a|e|]; [apply Hk|done..]. Qed.

(** Where no kubeconfig is, as inside a cluster, a clientset is made from what client-go
    finds for an empty path; but the three clients together are refused, and asking for
    the dynamic client ends the process. *)
Theorem no_kubeconfig_no_clients s :
  Getenv "KUBECONFIG" = "" →
  always no_kubeconfig GetClientset (λ tr _, ∃ tr' x tr'', tr = tr' ++ ev (S := SetupSig) (BuildConfigFromFlags "") x :: tr'') ∧
  always no_kubeconfig (GetKubernetesClients s) (λ _ r, ∀ s' o c, r = Some (s', o) → o ≠ Ok c) ∧
  always no_kubeconfig (GetDynamicClient dynamicUnset) (λ _ r, r = None).
Proof.
  intros Henv. split_and!.
  - unfold GetClientset. apply always_bind. eapply always_mono; [by apply GetKubeConfig_missing|]. intros tr o [e ->].
    unfold andThen at 1, handing at 1. apply always_bind, always_bind, always_call. intros x _. cbn.
    eapply always_mono; [apply always_true|]. intros tr' a _. exists tr, x. by eexists.
  - unfold GetKubernetesClients. apply always_bind. eapply always_mono; [apply always_true|]. intros tr [[s' client]|] _; [|done].
    apply always_bind. eapply (always_mono _ _ (λ _ o, ∀ c, o ≠ Ok c)); [|by intros tr' o Ho s'' o' c [= <- <-]].
    apply never_andThen. intros c. apply never_bind. intros clientset. apply never_andThen. intros cs.
    apply always_bind. eapply always_mono; [by apply buildKubeConfig_missing|]. by intros tr' o [e ->].
  - unfold GetDynamicClient, doOnce. cbn. apply always_bind. unfold InitializeDynamicClient, andThen. apply always_bind.
    eapply always_mono; [by apply buildKubeConfig_missing|]. intros tr o [e ->]. done.
Qed.

End clients.

(** * The log level *)

Inductive CliLogLevel := FatalLevel | ErrorLevel | WarnLevel | InfoLevel | DebugLevel | TraceLevel.

(** The persistent pre-run of the root command: the level it leaves, from the one before
    and the counts of the flags. *)
Definition setLogLevel (level : CliLogLevel) (verbosity quiet : Z) : error + CliLogLevel :=
  if decide (verbosity ≠ 0 ∧ quiet ≠ 0) then inl (Errorf "cannot set both verbose and quiet at the same time")
  else
    let level := if decide (verbosity = 0) then level else if decide (verbosity = 1) then DebugLevel else TraceLevel in
    inr (if decide (quiet = 0) then level
         else if decide (quiet = 1) then WarnLevel
         else if decide (quiet = 2) then ErrorLevel
         else FatalLevel).

(** More of a flag never asks for less of it. *)
Definition loudness (l : CliLogLevel) : Z :=
  match l with FatalLevel => 0 | ErrorLevel => 1 | WarnLevel => 2 | InfoLevel => 3 | DebugLevel => 4 | TraceLevel => 5 end.

Lemma setLogLevel_monotone v v' q q' l l' :
  0 ≤ v ≤ v' → 0 ≤ q' ≤ q → setLogLevel InfoLevel v q = inr l → setLogLevel InfoLevel v' q' = inr l' → loudness l ≤ loudness l'.
Proof.
  intros Hv Hq. unfold setLogLevel. repeat case_decide; intros [= <-] [= <-]; cbn; lia.
Qed.
