(* ===== verification/Replicas.v ===== *)
(** Replicas and the GPUs of each (pkg/k8s/kueue.go), with the lookups of flavors and
    queues next to it. Log lines are left out; the one that ends the process is a
    result of its own. *)

From stdpp Require Import gmap strings list.
From Stdlib Require Import ZArith Znumtheory Lia.
From S2P Require Import Prelude Types Kueue QueueApi.

(** * Balancing GPUs over replicas *)

(** The two counts, or the exit of [logrus.Fatalf]. *)
Inductive balanced := Balanced (numReplicas nodeGpuRequest : Z) | Fatal.

(** The parallelism the environment of the container asks for, zero when it says
    nothing readable; later variables win. *)
Record Parallelism := parallel { pipelineParallelism : Z; tensorParallelism : Z }.

Definition readParallelism (p : Parallelism) (env : string * string) : Parallelism :=
  let '(name, value) := env in
  if decide (name = "PIPELINE_PARALLELISM") then
    parallel (default (pipelineParallelism p) (Str.Atoi value)) (tensorParallelism p)
  else if decide (name = "TENSOR_PARALLELISM") then
    parallel (pipelineParallelism p) (default (tensorParallelism p) (Str.Atoi value))
  else p.

Definition parallelismOf (envVars : list (string * string)) : Parallelism := foldl readParallelism (parallel 0 0) envVars.

(** The search for a divisor from [n] down; it leaves the loop at zero. *)
Fixpoint divideEvenly (requestedGpus : Z) (n : nat) : balanced :=
  match n with
  | O => Balanced 0 0
  | S n' =>
      if decide (Z.rem requestedGpus (Z.of_nat n) = 0) then Balanced (Z.quot requestedGpus (Z.of_nat n)) (Z.of_nat n)
      else divideEvenly requestedGpus n'
  end.

Definition overNodes (requestedGpus gpusPerNode : Z) : balanced :=
  if decide (gpusPerNode <= 0) then Balanced 0 gpusPerNode else divideEvenly requestedGpus (Z.to_nat gpusPerNode).

Definition balance (requestedGpus gpusPerNode : Z) : balanced :=
  if decide (requestedGpus < 0) then Balanced 0 0
  else if decide (requestedGpus = 0) then Balanced 1 0
  else if decide (requestedGpus <= gpusPerNode) then Balanced 1 requestedGpus
  else overNodes requestedGpus gpusPerNode.

Definition CalculateNumberOfReplicas (requestedGpus gpusPerNode : Z) (envVars : list (string * string)) : balanced :=
  let '(parallel pp tp) := parallelismOf envVars in
  if decide (1 < pp ∧ 0 < tp) then
    if decide (int64_wrap (pp * tp) ≠ requestedGpus ∨ gpusPerNode < tp) then Fatal else Balanced pp tp
  else balance requestedGpus gpusPerNode.

(** * Flavors and queues *)

Section lookups.
Context `{KubeLib} (AtoiError : string → string).

(** Looking up a label; the map may be nil. *)
Definition nodeLabel (f : KueueResourceFlavor) (labelKey : string) : option string :=
  default ∅ (kfs_NodeLabels (kf_Spec f)) !! labelKey.

Definition ListResourceFlavorsWithNodeLabel (labelKey : string) : QM (outcome (list KueueResourceFlavor)) :=
  items ←? (r ← call (S := QueueSig) ListFlavors; mret (of_sum r)) else "failed to list resource flavors";
  mret (Ok (filter (λ f, is_Some (nodeLabel f labelKey)) items)).

Definition GetResourceFlavorGpuCount (f : KueueResourceFlavor) (labelKey : string) : outcome Z :=
  match nodeLabel f labelKey with
  | None => Err (Errorf ("GPU label " +:+ labelKey +:+ " not found in ResourceFlavor"))
  | Some gpuLabel =>
      match Str.Atoi gpuLabel with
      | None => Err (Errorf ("failed to parse GPU count: " +:+ AtoiError gpuLabel))
      | Some gpuCount => Ok gpuCount
      end
  end.

Definition GetDefaultResourceFlavorGpuCount (labelKey : string) : QM (outcome Z) :=
  r ← ListResourceFlavorsWithNodeLabel labelKey;
  mret (match r with
        | Ok [f] => GetResourceFlavorGpuCount f labelKey
        | Ok _ => Err (Errorf "zero or more than one resource flavor found, expected just one")
        | Err e => Err (Errorf ("failed to list resource flavors: " +:+ ErrorText e))
        | Panics => Panics
        end).

Definition GetClusterQueue (clusterQueueName : string) : QM (outcome KueueClusterQueue) :=
  r ← call (S := QueueSig) (GetQueue clusterQueueName);
  mret (match r with
        | inl e => Err (Errorf ("failed to get cluster queue " +:+ clusterQueueName +:+ ": " +:+ ErrorText e))
        | inr q => Ok q
        end).

(** The queue is made, not created. *)
Definition PrepareLocalClusterQueue (queueName namespace : string) : QM (outcome KueueLocalQueue) :=
  _ ←? GetClusterQueue queueName else "failed to get default cluster queue";
  mret (Ok {| lq_Meta := {| om_Name := queueName; om_Namespace := namespace; om_ResourceVersion := 0; om_Finalizers := [];
                            om_DeletionTimestamp := None; om_OwnerReferences := [] |};
              lq_ClusterQueue := queueName |}).

End lookups.

(** * Properties *)

(** The search finds the largest divisor. *)
Lemma divideEvenly_spec r n : 0 < r → (0 < n)%nat →
  ∃ k d, divideEvenly r n = Balanced k d ∧ k * d = r ∧ 0 < d <= Z.of_nat n ∧ ∀ d', 0 < d' <= Z.of_nat n → (d' | r) → d' <= d.
Proof.
  intros Hr. induction n as [|n IH]; intros Hn; [lia|]. cbn [divideEvenly]. case_decide as Hrem.
  - exists (Z.quot r (Z.of_nat (S n))), (Z.of_nat (S n)). pose proof (Z.quot_rem r (Z.of_nat (S n)) ltac:(lia)).
    repeat split; try lia.
  - destruct (decide (n = 0%nat)) as [->|Hn0]; [by rewrite Z.rem_1_r in Hrem|].
    destruct (IH ltac:(lia)) as (k & d & -> & Hkd & Hd & Hmax). exists k, d. repeat split; [done|lia|lia|].
    intros d' Hd' Hdiv. destruct (decide (d' = Z.of_nat (S n))) as [->|]; [|apply Hmax; [lia|done]].
    destruct Hrem. apply Z.rem_divide; [lia|done].
Qed.

(** No other split into equal parts that fit on a node has fewer replicas. *)
Definition fewest (requestedGpus gpusPerNode numReplicas nodeGpuRequest : Z) : Prop :=
  numReplicas * nodeGpuRequest = requestedGpus ∧ 0 < nodeGpuRequest <= gpusPerNode ∧
  ∀ n g, n * g = requestedGpus → 0 < g <= gpusPerNode → numReplicas <= n.

Lemma balance_fewest r per : 0 < r → 0 < per → ∃ n g, balance r per = Balanced n g ∧ fewest r per n g.
Proof.
  intros Hr Hper. unfold balance. rewrite !decide_False by lia. case_decide.
  - exists 1, r. split; [done|]. split; [lia|]. split; [lia|]. intros n g Hng Hg. nia.
  - unfold overNodes. rewrite decide_False by lia.
    destruct (divideEvenly_spec r (Z.to_nat per) Hr ltac:(lia)) as (k & d & -> & Hkd & Hd & Hmax).
    exists k, d. split; [done|]. split; [done|]. split; [lia|]. intros n g Hng Hg. assert (g <= d) by (apply Hmax; [lia|by exists n]).
    apply Z.nlt_ge. intros Hlt. assert (0 < n) by nia. assert (n * g <= n * d) by nia. nia.
Qed.

(** How many replicas of how many GPUs. A pipeline and a tensor parallelism in the
    environment are taken as they are when their product, in machine arithmetic, is what was
    requested and a replica fits on a node, and end the process otherwise. Without them a
    positive request on nodes that have GPUs is split evenly into the fewest replicas that fit
    on a node; no GPUs are one replica without any, and a negative number is no replica. On
    nodes without GPUs there are no replicas, of the number of GPUs per node. *)
Theorem CalculateNumberOfReplicas_spec requestedGpus gpusPerNode envVars :
  let '(parallel pp tp) := parallelismOf envVars in
  let result := CalculateNumberOfReplicas requestedGpus gpusPerNode envVars in
  (1 < pp ∧ 0 < tp →
     result = Balanced pp tp ∧ int64_wrap (pp * tp) = requestedGpus ∧ tp <= gpusPerNode ∨
     result = Fatal ∧ (int64_wrap (pp * tp) ≠ requestedGpus ∨ gpusPerNode < tp)) ∧
  (pp <= 1 ∨ tp <= 0 →
     (requestedGpus < 0 → result = Balanced 0 0) ∧
     (requestedGpus = 0 → result = Balanced 1 0) ∧
     (0 < requestedGpus → gpusPerNode <= 0 → result = Balanced 0 gpusPerNode) ∧
     (0 < requestedGpus → 0 < gpusPerNode →
        ∃ n g, result = Balanced n g ∧ fewest requestedGpus gpusPerNode n g)).
Proof.
  unfold CalculateNumberOfReplicas. destruct (parallelismOf envVars) as [pp tp]. cbv zeta beta iota. split; intros Hp.
  - rewrite decide_True by done. destruct (decide _) as [Hbad|Hgood]; [by right|left].
    apply Decidable.not_or in Hgood as [Hprod Hfit]. split; [done|]. split; [by apply dec_stable|lia].
  - rewrite decide_False by lia. repeat split; intros; [..|by apply balance_fewest].
    + unfold balance. by rewrite decide_True.
    + unfold balance. rewrite decide_False by lia. by rewrite decide_True.
    + unfold balance, overNodes. rewrite !decide_False by lia. by rewrite decide_True.
Qed.

Example eighteen_gpus : CalculateNumberOfReplicas 18 8 [] = Balanced 3 6.
Proof. vm_compute. reflexivity. Qed.

Example two_stages : CalculateNumberOfReplicas 16 8 [("TENSOR_PARALLELISM", "8"); ("PIPELINE_PARALLELISM", "2")] = Balanced 2 8.
Proof. vm_compute. reflexivity. Qed.
