(* ===== verification/QueueStats.v ===== *)
(** The status commands of the client (pkg/cli/stats.go): the workloads of each queue
    and the use of each node. Both fetch lists, compute a table and print it; the
    table is the model's last call. Writing to a missing inner map panics. *)

From stdpp Require Import gmap strings list pretty.
From Stdlib Require Import ZArith Lia.
From S2P Require Import Prelude History Text Float64 Types Kueue Nodepools PoolTheory.

(** * Calls *)

(** The fields of Kueue's [Workload] the command reads. *)
Record StatWorkload := {
  sw_Namespace : string;
  sw_QueueName : string;
  sw_PodSets : list PodSpec;
  sw_Conditions : list Condition;
  sw_Admitted : bool
}.

(** Those of a node and of a pod on it; the requests are quantities. *)
Record StatNode := { sn_Name : string; sn_Labels : gmap string string; sn_Allocatable : gmap string Quantity }.
Record StatPod := { sp_NodeName : string; sp_Requests : list (gmap string Quantity) }.

Record Table := { tb_Header : list string; tb_Caption : string; tb_Rows : list (list string) }.

(** What the spinner of the library makes of the action it is given: it may fail,
    having run the action or not. *)
Inductive SpinAnswer := Spun | SpinFailed (ran : bool).

Inductive stats_req :=
| GetKubernetesClients
| SpinList (title : string)
| ListStatQueues
| ListStatLocals
| ListStatWorkloads
| ListStatNodes
| ListStatPods
| Render (t : Table).

Definition stats_resp (r : stats_req) : Type :=
  match r with
  | GetKubernetesClients => option error
  | SpinList _ => SpinAnswer
  | ListStatQueues => error + list KueueClusterQueue
  | ListStatLocals => error + list KueueLocalQueue
  | ListStatWorkloads => error + list StatWorkload
  | ListStatNodes => error + list StatNode
  | ListStatPods => error + list StatPod
  | Render _ => unit
  end.

Definition StatsSig : sig := Sig stats_req stats_resp.
Abbreviation SM := (prog StatsSig).

(** * Fetching *)

(** The resource is named after the list type; a failing spinner panics. *)
Definition fetchWithSpinner {A} (resourceName : string) (list : SM (error + A)) : SM (outcome A) :=
  s ← call (S := StatsSig) (SpinList ("Fetching " +:+ resourceName));
  match s with
  | SpinFailed false => mret Panics
  | SpinFailed true => _ ← list; mret Panics
  | Spun =>
      r ← list;
      mret (match r with inl e => Err (Wrapf ("failed to list " +:+ resourceName) e) | inr a => Ok a end)
  end.

(** * Queues *)

(** Folding with steps that can panic. *)
Fixpoint fold_panic {A B} (f : A → B → option B) (l : list A) (b : B) : option B :=
  match l with [] => Some b | x :: l' => b' ← f x b; fold_panic f l' b' end.

Record QueueCounts := {
  localQueuesByCluster : gmap string (list KueueLocalQueue);
  clusterAdmittedGPU : gmap string Z;
  clusterPendingGPU : gmap string Z;
  localAdmittedGPU : gmap string (gmap string Z);
  localPendingGPU : gmap string (gmap string Z);
  localQueueToCluster : gmap string (gmap string string)
}.

Definition noCounts : QueueCounts :=
  {| localQueuesByCluster := ∅; clusterAdmittedGPU := ∅; clusterPendingGPU := ∅; localAdmittedGPU := ∅; localPendingGPU := ∅;
     localQueueToCluster := ∅ |}.

Definition lq_Name (q : KueueLocalQueue) : string := om_Name (lq_Meta q).
Definition lq_Namespace (q : KueueLocalQueue) : string := om_Namespace (lq_Meta q).
Definition kq_Name (q : KueueClusterQueue) : string := om_Name (kq_Meta q).

(** [m[k1][k2] = f(m[k1][k2])], which panics when there is no inner map. *)
Definition write (k1 k2 : string) (f : Z → Z) (m : gmap string (gmap string Z)) : option (gmap string (gmap string Z)) :=
  inner ← m !! k1; Some (<[k1 := <[k2 := f (default 0 (inner !! k2))]> inner]> m).

Definition increment (z : Z) : Z := int64_wrap (z + 1).

Definition initCluster (c : QueueCounts) (q : KueueClusterQueue) : QueueCounts :=
  let n := kq_Name q in
  {| localQueuesByCluster := <[n := []]> (localQueuesByCluster c);
     clusterAdmittedGPU := <[n := 0]> (clusterAdmittedGPU c);
     clusterPendingGPU := <[n := 0]> (clusterPendingGPU c);
     localAdmittedGPU := <[n := ∅]> (localAdmittedGPU c);
     localPendingGPU := <[n := ∅]> (localPendingGPU c);
     localQueueToCluster := localQueueToCluster c |}.

Definition addLocal (q : KueueLocalQueue) (c : QueueCounts) : option QueueCounts :=
  let inner := default ∅ (localQueueToCluster c !! lq_Namespace q) in
  let clusterName := lq_ClusterQueue q in
  admitted ← write clusterName (lq_Name q) (λ _, 0) (localAdmittedGPU c);
  pending ← write clusterName (lq_Name q) (λ _, 0) (localPendingGPU c);
  Some {| localQueuesByCluster :=
            <[clusterName := default [] (localQueuesByCluster c !! clusterName) ++ [q]]> (localQueuesByCluster c);
          clusterAdmittedGPU := clusterAdmittedGPU c; clusterPendingGPU := clusterPendingGPU c;
          localAdmittedGPU := admitted; localPendingGPU := pending;
          localQueueToCluster := <[lq_Namespace q := <[lq_Name q := clusterName]> inner]> (localQueueToCluster c) |}.

Definition isFinished (w : StatWorkload) : bool := existsb (λ c, bool_decide (cond_Type c = "Finished")) (sw_Conditions w).

Definition containerRequests (gpuResourceName : string) (c : Container) : bool :=
  match c_Requests c !! gpuResourceName with Some qty => bool_decide (0 < qty) | None => false end.

Definition requestsGpu (gpuResourceName : string) (w : StatWorkload) : bool :=
  existsb (λ p, existsb (containerRequests gpuResourceName) (ps_Containers p) ||
                existsb (containerRequests gpuResourceName) (ps_InitContainers p)) (sw_PodSets w).

Definition gpuWorkloads (gpuResourceName : string) (l : list StatWorkload) : list StatWorkload :=
  filter (λ w, isFinished w = false ∧ requestsGpu gpuResourceName w = true) l.

Definition unknownQueue : string := "<unknown>".

Definition clusterQueueOf (toCluster : gmap string (gmap string string)) (w : StatWorkload) : string :=
  match toCluster !! sw_Namespace w with
  | Some m => default unknownQueue (m !! sw_QueueName w)
  | None => unknownQueue
  end.

Definition bump (k : string) (m : gmap string Z) : gmap string Z := <[k := increment (default 0 (m !! k))]> m.

Definition countWorkload (w : StatWorkload) (c : QueueCounts) : option QueueCounts :=
  let clusterQueueName := clusterQueueOf (localQueueToCluster c) w in
  if sw_Admitted w then
    admitted ← write clusterQueueName (sw_QueueName w) increment (localAdmittedGPU c);
    Some {| localQueuesByCluster := localQueuesByCluster c;
            clusterAdmittedGPU := bump clusterQueueName (clusterAdmittedGPU c); clusterPendingGPU := clusterPendingGPU c;
            localAdmittedGPU := admitted; localPendingGPU := localPendingGPU c; localQueueToCluster := localQueueToCluster c |}
  else
    pending ← write clusterQueueName (sw_QueueName w) increment (localPendingGPU c);
    Some {| localQueuesByCluster := localQueuesByCluster c;
            clusterAdmittedGPU := clusterAdmittedGPU c; clusterPendingGPU := bump clusterQueueName (clusterPendingGPU c);
            localAdmittedGPU := localAdmittedGPU c; localPendingGPU := pending; localQueueToCluster := localQueueToCluster c |}.

(** [m[k1][k2]], zero where something is missing. *)
Definition readCount (m : gmap string (gmap string Z)) (k1 k2 : string) : Z := default 0 (default ∅ (m !! k1) !! k2).

Definition queueRows (c : QueueCounts) (q : KueueClusterQueue) : list (list string) :=
  let n := kq_Name q in
  [n; "[TOTAL]"; pretty (default 0 (clusterAdmittedGPU c !! n)); pretty (default 0 (clusterPendingGPU c !! n))] ::
  map (λ l, [n; lq_Name l; pretty (readCount (localAdmittedGPU c) n (lq_Name l)); pretty (readCount (localPendingGPU c) n (lq_Name l))])
    (default [] (localQueuesByCluster c !! n)).

(** The rows of the table, or a panic. *)
Definition queueStats (gpuResourceName : string) (queues : list KueueClusterQueue) (locals : list KueueLocalQueue)
  (workloads : list StatWorkload) : option (list (list string)) :=
  let c := foldl initCluster noCounts queues in
  c ← fold_panic addLocal locals c;
  c ← fold_panic countWorkload (gpuWorkloads gpuResourceName workloads) c;
  Some (queues ≫= queueRows c).

Definition queueTable (gpuResourceName : string) (rows : list (list string)) : Table :=
  {| tb_Header := ["Cluster queue"; "Local queue"; "Admitted"; "Pending"];
     tb_Caption := "Only workloads that include requests to '" +:+ gpuResourceName +:+ "' are included"; tb_Rows := rows |}.

Definition runQueueStatsCmd (gpuResourceName : string) : SM (outcome unit) :=
  _ ←? (r ← call (S := StatsSig) GetKubernetesClients; mret (of_err r)) else "failed to get k8s clients";
  queues ←? fetchWithSpinner "clusterqueues" (call (S := StatsSig) ListStatQueues) else "failed to fetch cluster queues";
  locals ←? fetchWithSpinner "localqueues" (call (S := StatsSig) ListStatLocals) else "failed to fetch local queues";
  workloads ←? fetchWithSpinner "workloads" (call (S := StatsSig) ListStatWorkloads) else "failed to fetch workloads";
  match queueStats gpuResourceName queues locals workloads with
  | None => mret Panics
  | Some rows => _ ← call (S := StatsSig) (Render (queueTable gpuResourceName rows)); mret (Ok ())
  end.

(** ** What the table shows *)

Lemma fold_panic_spec {A B} (f : A → B → option B) (bad : A → Prop) (I : list A → B → Prop) l b :
  (∀ x pre b, I pre b → match f x b with None => bad x | Some b' => ¬ bad x ∧ I (pre ++ [x]) b' end) →
  I [] b → match fold_panic f l b with None => ∃ x, x ∈ l ∧ bad x | Some b' => (∀ x, x ∈ l → ¬ bad x) ∧ I l b' end.
Proof.
  intros Hf. assert (∀ pre b, I pre b → match fold_panic f l b with None => ∃ x, x ∈ l ∧ bad x
    | Some b' => (∀ x, x ∈ l → ¬ bad x) ∧ I (pre ++ l) b' end) as Hgen; [|apply (Hgen [])].
  clear b. induction l as [|x l IH]; intros pre b HI; cbn [fold_panic].
  - rewrite app_nil_r. split; [|done]. intros x Hx. by apply elem_of_nil in Hx.
  - specialize (Hf x pre b HI). destruct (f x b) as [b'|]; cbn [mbind option_bind]; [|exists x; split; [by left|done]].
    destruct Hf as [Hx HI']. specialize (IH (pre ++ [x]) b' HI'). destruct (fold_panic f l b') as [b''|].
    + destruct IH as [Hl HI'']. rewrite <- app_assoc in HI''. split; [|done]. intros y [->|Hy]%elem_of_cons; [done|by apply Hl].
    + destruct IH as (y & Hy & Hbad). exists y. split; [by right|done].
Qed.

Lemma write_spec k1 k2 f m :
  match write k1 k2 f m with
  | None => m !! k1 = None
  | Some m' => is_Some (m !! k1) ∧ (∀ n, is_Some (m' !! n) ↔ is_Some (m !! n)) ∧
      ∀ a b, readCount m' a b = if decide (a = k1 ∧ b = k2) then f (readCount m a b) else readCount m a b
  end.
Proof.
  unfold write. destruct (m !! k1) as [inner|] eqn:E; cbn [mbind option_bind]; [|done]. split; [done|]. split.
  - intros n. destruct (decide (n = k1)) as [->|Hn]; [rewrite lookup_insert_eq, E; split; intros; eauto|by rewrite lookup_insert_ne].
  - intros a b. unfold readCount. destruct (decide (a = k1)) as [->|Ha].
    + rewrite lookup_insert_eq, E. cbn [from_option id]. destruct (decide (b = k2)) as [->|Hb].
      * rewrite lookup_insert_eq, decide_True by done. done.
      * rewrite lookup_insert_ne, decide_False by naive_solver. done.
    + rewrite lookup_insert_ne, decide_False by naive_solver. done.
Qed.

Lemma bump_spec k m n : default 0 (bump k m !! n) = if decide (n = k) then increment (default 0 (m !! n)) else default 0 (m !! n).
Proof.
  unfold bump. destruct (decide (n = k)) as [->|]; [by rewrite lookup_insert_eq|by rewrite lookup_insert_ne].
Qed.

(** The cluster queue of a workload: that of the last local queue of the list that has its
    namespace and the name it gives. *)
Definition resolve (locals : list KueueLocalQueue) (w : StatWorkload) : string :=
  foldl (λ name q, if decide (lq_Namespace q = sw_Namespace w ∧ lq_Name q = sw_QueueName w) then lq_ClusterQueue q else name)
    unknownQueue locals.

(** As many as an [int] can count. *)
Definition count (P : StatWorkload → bool) (l : list StatWorkload) : Z := int64_wrap (Z.of_nat (length (filter P l))).

Lemma count_snoc P l w : count P (l ++ [w]) = if P w then increment (count P l) else count P l.
Proof.
  unfold count, increment. rewrite filter_app, length_app, filter_cons, filter_nil.
  destruct (P w); cbn [Is_true]; [rewrite decide_True by done|rewrite decide_False by auto]; cbn [length];
    [rewrite int64_wrap_add_l; f_equal; lia|f_equal; lia].
Qed.

Definition inCluster (locals : list KueueLocalQueue) (admitted : bool) (n : string) (w : StatWorkload) : bool :=
  bool_decide (sw_Admitted w = admitted ∧ resolve locals w = n).

Definition inLocal (locals : list KueueLocalQueue) (admitted : bool) (n l : string) (w : StatWorkload) : bool :=
  bool_decide (sw_Admitted w = admitted ∧ resolve locals w = n ∧ sw_QueueName w = l).

(** The counters after the local queues [L] and the workloads [W]. *)
Record tallied (names : list string) (L : list KueueLocalQueue) (W : list StatWorkload) (c : QueueCounts) : Prop := {
  tl_admitted n : is_Some (localAdmittedGPU c !! n) ↔ n ∈ names;
  tl_pending n : is_Some (localPendingGPU c !! n) ↔ n ∈ names;
  tl_locals n : default [] (localQueuesByCluster c !! n) = filter (λ l, lq_ClusterQueue l = n) L;
  tl_cluster w : clusterQueueOf (localQueueToCluster c) w = resolve L w;
  tl_clusterAdmitted n : default 0 (clusterAdmittedGPU c !! n) = count (inCluster L true n) W;
  tl_clusterPending n : default 0 (clusterPendingGPU c !! n) = count (inCluster L false n) W;
  tl_localAdmitted n l : readCount (localAdmittedGPU c) n l = count (inLocal L true n l) W;
  tl_localPending n l : readCount (localPendingGPU c) n l = count (inLocal L false n l) W
}.

Lemma count_nil P : count P [] = 0.
Proof. reflexivity. Qed.

Lemma insert_empty_dom (n : string) (names : list string) (m : gmap string (gmap string Z)) :
  (∀ k, is_Some (m !! k) ↔ k ∈ names) → ∀ k, is_Some (<[n := ∅]> m !! k) ↔ k ∈ names ++ [n].
Proof.
  intros Hm k. rewrite elem_of_app, list_elem_of_singleton, <- Hm. destruct (decide (k = n)) as [->|Hk].
  - rewrite lookup_insert_eq. split; [by right|by eexists].
  - rewrite lookup_insert_ne by done. tauto.
Qed.

Lemma insert_empty_read n m k l : (∀ k l, readCount m k l = 0) → readCount (<[n := ∅]> m) k l = 0.
Proof.
  intros Hm. specialize (Hm k l). unfold readCount in *. destruct (decide (k = n)) as [->|]; [by rewrite lookup_insert_eq|by rewrite lookup_insert_ne].
Qed.

Lemma default_insert {A} (d : A) (n k : string) (m : gmap string A) : (∀ k, default d (m !! k) = d) → default d (<[n := d]> m !! k) = d.
Proof. intros Hm. destruct (decide (k = n)) as [->|]; [by rewrite lookup_insert_eq|by rewrite lookup_insert_ne]. Qed.

Lemma init_tallied queues : tallied (kq_Name <$> queues) [] [] (foldl initCluster noCounts queues).
Proof.
  induction queues as [|q queues IH] using rev_ind.
  - split; intros; try reflexivity; cbn; split; [by intros [? ?]|by intros ?%elem_of_nil|by intros [? ?]|by intros ?%elem_of_nil].
  - rewrite foldl_app, fmap_app. destruct IH as [Ha Hp Hl Ht Hca Hcp Hla Hlp].
    split; cbn [foldl initCluster localQueuesByCluster clusterAdmittedGPU clusterPendingGPU localAdmittedGPU localPendingGPU
      localQueueToCluster fmap list_fmap]; intros; rewrite ?count_nil.
    + by apply insert_empty_dom.
    + by apply insert_empty_dom.
    + apply default_insert. intros k. by rewrite Hl.
    + apply Ht.
    + apply default_insert. intros k. by rewrite Hca.
    + apply default_insert. intros k. by rewrite Hcp.
    + apply insert_empty_read. intros k l'. by rewrite Hla.
    + apply insert_empty_read. intros k l'. by rewrite Hlp.
Qed.

Lemma resolve_snoc L q w :
  resolve (L ++ [q]) w = if decide (lq_Namespace q = sw_Namespace w ∧ lq_Name q = sw_QueueName w) then lq_ClusterQueue q else resolve L w.
Proof. unfold resolve. by rewrite foldl_app. Qed.

Lemma clusterQueueOf_insert (T : gmap string (gmap string string)) ns name c w :
  clusterQueueOf (<[ns := <[name := c]> (default ∅ (T !! ns))]> T) w =
  if decide (ns = sw_Namespace w ∧ name = sw_QueueName w) then c else clusterQueueOf T w.
Proof.
  unfold clusterQueueOf. destruct (decide (ns = sw_Namespace w)) as [->|Hns].
  - rewrite lookup_insert_eq. destruct (decide (name = sw_QueueName w)) as [->|Hname].
    + rewrite lookup_insert_eq, decide_True by done. done.
    + rewrite lookup_insert_ne, decide_False by naive_solver. by destruct (T !! sw_Namespace w).
  - rewrite lookup_insert_ne, decide_False by naive_solver. done.
Qed.

Lemma addLocal_tallied names q L c : tallied names L [] c →
  match addLocal q c with
  | None => lq_ClusterQueue q ∉ names
  | Some c' => ¬ (lq_ClusterQueue q ∉ names) ∧ tallied names (L ++ [q]) [] c'
  end.
Proof.
  intros [Ha Hp Hl Ht Hca Hcp Hla Hlp]. unfold addLocal.
  pose proof (write_spec (lq_ClusterQueue q) (lq_Name q) (λ _, 0) (localAdmittedGPU c)) as Hw1.
  destruct (write _ _ _ (localAdmittedGPU c)) as [a|]; cbn [mbind option_bind];
    [destruct Hw1 as (Hin & Hda & Hra)|rewrite <- Ha, Hw1; by intros [? ?]].
  pose proof (write_spec (lq_ClusterQueue q) (lq_Name q) (λ _, 0) (localPendingGPU c)) as Hw2.
  destruct (write _ _ _ (localPendingGPU c)) as [p|]; cbn [mbind option_bind];
    [destruct Hw2 as (_ & Hdp & Hrp)|rewrite <- Hp, Hw2; by intros [? ?]].
  split; [rewrite <- Ha; tauto|].
  split; cbn [localQueuesByCluster clusterAdmittedGPU clusterPendingGPU localAdmittedGPU localPendingGPU localQueueToCluster]; intros;
    rewrite ?count_nil.
  - by rewrite Hda.
  - by rewrite Hdp.
  - rewrite filter_app, filter_cons, filter_nil. destruct (decide (lq_ClusterQueue q = n)) as [<-|Hn].
    + rewrite lookup_insert_eq. cbn [from_option id]. by rewrite Hl.
    + rewrite lookup_insert_ne, app_nil_r by done. apply Hl.
  - rewrite clusterQueueOf_insert, resolve_snoc. case_decide; [done|apply Ht].
  - by rewrite Hca.
  - by rewrite Hcp.
  - rewrite Hra, Hla. by case_decide.
  - rewrite Hrp, Hlp. by case_decide.
Qed.

Lemma inCluster_here L w n b : inCluster L b n w = bool_decide (sw_Admitted w = b) && bool_decide (n = resolve L w).
Proof. unfold inCluster. rewrite <- bool_decide_and. apply bool_decide_ext. naive_solver. Qed.

Lemma inLocal_here L w n l b :
  inLocal L b n l w = bool_decide (sw_Admitted w = b) && bool_decide (n = resolve L w ∧ l = sw_QueueName w).
Proof. unfold inLocal. rewrite <- bool_decide_and. apply bool_decide_ext. naive_solver. Qed.

Ltac closed_bools :=
  change (bool_decide (true = true)) with true; change (bool_decide (true = false)) with false;
  change (bool_decide (false = true)) with false; change (bool_decide (false = false)) with true; cbn [andb].

Lemma countWorkload_tallied names L w W c : tallied names L W c →
  match countWorkload w c with
  | None => resolve L w ∉ names
  | Some c' => ¬ (resolve L w ∉ names) ∧ tallied names L (W ++ [w]) c'
  end.
Proof.
  intros [Ha Hp Hl Ht Hca Hcp Hla Hlp]. unfold countWorkload. rewrite Ht. destruct (sw_Admitted w) eqn:Hadm.
  - pose proof (write_spec (resolve L w) (sw_QueueName w) increment (localAdmittedGPU c)) as Hw.
    destruct (write _ _ _ (localAdmittedGPU c)) as [a|]; cbn [mbind option_bind];
      [destruct Hw as (Hin & Hda & Hra)|rewrite <- Ha, Hw; by intros [? ?]].
    split; [rewrite <- Ha; tauto|].
    split; cbn [localQueuesByCluster clusterAdmittedGPU clusterPendingGPU localAdmittedGPU localPendingGPU localQueueToCluster]; intros;
      rewrite ?count_snoc, ?inCluster_here, ?inLocal_here, ?Hadm; closed_bools; auto.
    + by rewrite Hda.
    + rewrite bump_spec, Hca. by case_bool_decide; rewrite ?decide_True, ?decide_False by done.
    + rewrite Hra, Hla. by case_bool_decide; rewrite ?decide_True, ?decide_False by done.
  - pose proof (write_spec (resolve L w) (sw_QueueName w) increment (localPendingGPU c)) as Hw.
    destruct (write _ _ _ (localPendingGPU c)) as [p|]; cbn [mbind option_bind];
      [destruct Hw as (Hin & Hdp & Hrp)|rewrite <- Hp, Hw; by intros [? ?]].
    split; [rewrite <- Hp; tauto|].
    split; cbn [localQueuesByCluster clusterAdmittedGPU clusterPendingGPU localAdmittedGPU localPendingGPU localQueueToCluster]; intros;
      rewrite ?count_snoc, ?inCluster_here, ?inLocal_here, ?Hadm; closed_bools; auto.
    + by rewrite Hdp.
    + rewrite bump_spec, Hcp. by case_bool_decide; rewrite ?decide_True, ?decide_False by done.
    + rewrite Hrp, Hlp. by case_bool_decide; rewrite ?decide_True, ?decide_False by done.
Qed.

(** The rows as they are meant: of a cluster queue and of each of its local queues. *)
Definition specRows (locals : list KueueLocalQueue) (workloads : list StatWorkload) (q : KueueClusterQueue) : list (list string) :=
  let n := kq_Name q in
  [n; "[TOTAL]"; pretty (count (inCluster locals true n) workloads); pretty (count (inCluster locals false n) workloads)] ::
  map (λ l, [n; lq_Name l; pretty (count (inLocal locals true n (lq_Name l)) workloads);
             pretty (count (inLocal locals false n (lq_Name l)) workloads)])
    (filter (λ l, lq_ClusterQueue l = n) locals).

(** C21: The counters of the queue table come to what the rows are meant to say. The row of a
    cluster queue counts the unfinished workloads that ask for GPUs and whose local queue, by
    namespace and name, belongs to it, admitted and pending; the row of a local queue those
    among them that give its name. The counting panics exactly when a local queue belongs to a
    cluster queue that is not listed, or such a workload resolves to none that is: one that
    names a local queue that does not exist is enough. *)
Theorem queueStats_spec gpuResourceName queues locals workloads :
  let names := kq_Name <$> queues in
  let gpu := gpuWorkloads gpuResourceName workloads in
  match queueStats gpuResourceName queues locals workloads with
  | Some rows =>
      rows = queues ≫= specRows locals gpu ∧
      (∀ q, q ∈ locals → lq_ClusterQueue q ∈ names) ∧ (∀ w, w ∈ gpu → resolve locals w ∈ names)
  | None => (∃ q, q ∈ locals ∧ lq_ClusterQueue q ∉ names) ∨ (∃ w, w ∈ gpu ∧ resolve locals w ∉ names)
  end.
Proof.
  cbv zeta. unfold queueStats. set (names := kq_Name <$> queues).
  pose proof (fold_panic_spec addLocal (λ q, lq_ClusterQueue q ∉ names) (λ L c, tallied names L [] c) locals
    (foldl initCluster noCounts queues) (λ q L c, addLocal_tallied names q L c) (init_tallied queues)) as Hlocals.
  destruct (fold_panic addLocal _ _) as [c|]; cbn [mbind option_bind]; [destruct Hlocals as [Hlocals Hc]|by left].
  pose proof (fold_panic_spec countWorkload (λ w, resolve locals w ∉ names) (λ W c, tallied names locals W c)
    (gpuWorkloads gpuResourceName workloads) c (λ w W c, countWorkload_tallied names locals w W c) Hc) as Hcount.
  destruct (fold_panic countWorkload _ _) as [c'|]; cbn [mbind option_bind]; [destruct Hcount as [Hcount Hc']|by right].
  split; [|split; intros x Hx; by apply dec_stable; auto].
  apply list_bind_ext; [|done]. intros q. unfold queueRows, specRows.
  rewrite (tl_clusterAdmitted _ _ _ _ Hc'), (tl_clusterPending _ _ _ _ Hc'), (tl_locals _ _ _ _ Hc'). f_equal.
  apply map_ext. intros l. by rewrite (tl_localAdmitted _ _ _ _ Hc'), (tl_localPending _ _ _ _ Hc').
Qed.
