(* ===== verification/NodeStats.v ===== *)
(** The use of the nodes (pkg/cli/stats.go: runNodesStatsCmd): what the pods on a node
    request, against what the node can allocate. [%.1f] and [MilliValue] are parameters. *)

From stdpp Require Import gmap strings list pretty.
From Stdlib Require Import ZArith Lia.
From S2P Require Import Prelude History Text Float64 Types Kueue QueueApi Scheduling Nodepools PoolTheory QueueStats.

Definition extractGPUModel (poolLabel : string) : string :=
  if Str.HasPrefix poolLabel CPUOnly then CPUOnly
  else match Str.Split poolLabel dash with _ :: model :: _ => model | _ => "unknown" end.

Section nodestats.
Context `{Quantities} `{GoOrder} (MilliValue : Quantity → Z) (Float1 : float64 → string).

(** * What the pods request *)

Record NodeUse := { nu_requested : gmap string (gmap string Quantity); nu_podCount : gmap string Z }.

Definition addAmount (m : gmap string Quantity) (request : string * Quantity) : gmap string Quantity :=
  let '(resourceType, resourceAmount) := request in
  <[resourceType := QuantityAdd (default zero_quantity (m !! resourceType)) resourceAmount]> m.

Definition addRequests (m requests : gmap string Quantity) : gmap string Quantity := foldl addAmount m (rangeMap requests).

Definition addPod (u : NodeUse) (p : StatPod) : NodeUse :=
  let nodeName := sp_NodeName p in
  if decide (nodeName = "") then u
  else {| nu_requested := <[nodeName := foldl addRequests (default ∅ (nu_requested u !! nodeName)) (sp_Requests p)]> (nu_requested u);
          nu_podCount := <[nodeName := increment (default 0 (nu_podCount u !! nodeName))]> (nu_podCount u) |}.

Definition nodeUse (pods : list StatPod) : NodeUse := foldl addPod {| nu_requested := ∅; nu_podCount := ∅ |} pods.

(** * The rows *)

Definition amountOf (m : gmap string (gmap string Quantity)) (name r : string) : Quantity :=
  default zero_quantity (default ∅ (m !! name) !! r).

Definition percent (used alloc : float64) : float64 := F64.mul (F64.div used alloc) (F64.of_Z 100).

Definition cell (used alloc : string) (pct : float64) : string := used +:+ "/" +:+ alloc +:+ " (" +:+ Float1 pct +:+ "%)".

Definition bytesInGi : Z := 1024 * 1024 * 1024.

Definition nodeRow (gpuResourceName : string) (allocatable : gmap string (gmap string Quantity)) (u : NodeUse) (n : StatNode) : list string :=
  let name := sn_Name n in
  let alloc r := amountOf allocatable name r in
  let used r := amountOf (nu_requested u) name r in
  let usedGPU := QuantityValue (used gpuResourceName) in
  let allocGPU := QuantityValue (alloc gpuResourceName) in
  let gpuPct := percent (F64.of_Z usedGPU) (F64.of_Z allocGPU) in
  let gpuPct := if F64.is_nan gpuPct then F64.of_Z 0 else gpuPct in
  let usedCores := F64.of_Z (Z.quot (MilliValue (used "cpu")) 1000) in
  let allocCores := F64.of_Z (Z.quot (MilliValue (alloc "cpu")) 1000) in
  let usedGi := F64.div (F64.of_Z (QuantityValue (used "memory"))) (F64.of_Z bytesInGi) in
  let allocGi := F64.div (F64.of_Z (QuantityValue (alloc "memory"))) (F64.of_Z bytesInGi) in
  let allocPods := QuantityValue (alloc "pods") in
  let usedPods := default 0 (nu_podCount u !! name) in
  [name; extractGPUModel (default "" (sn_Labels n !! DefaultNodePoolLabel));
   cell (pretty usedGPU) (pretty allocGPU) gpuPct;
   cell (Float1 usedCores) (Float1 allocCores) (percent usedCores allocCores);
   cell (Float1 usedGi +:+ "Gi") (Float1 allocGi +:+ "Gi") (percent usedGi allocGi);
   cell (pretty usedPods) (pretty allocPods) (percent (F64.of_Z usedPods) (F64.of_Z allocPods))].

Definition nodeTable (gpuResourceName : string) (nodes : list StatNode) (pods : list StatPod) : Table :=
  let allocatable := foldl (λ m n, <[sn_Name n := sn_Allocatable n]> m) ∅ nodes in
  {| tb_Header := ["NODE"; "GPU MODEL"; "GPU (used/alloc %)"; "CPU (used/alloc %)"; "MEM (used/alloc %)"; "PODS (used/alloc %)"];
     tb_Caption := "GPU requests are looked up by the resource name '" +:+ gpuResourceName +:+ "'";
     tb_Rows := map (nodeRow gpuResourceName allocatable (nodeUse pods)) nodes |}.

Definition runNodesStatsCmd (gpuResourceName : string) : SM (outcome unit) :=
  _ ←? (r ← call (S := StatsSig) GetKubernetesClients; mret (of_err r)) else "failed to get k8s clients";
  nodes ←? fetchWithSpinner "nodes" (call (S := StatsSig) ListStatNodes) else "failed to fetch nodes";
  pods ←? fetchWithSpinner "pods" (call (S := StatsSig) ListStatPods) else "failed to fetch pods";
  _ ← call (S := StatsSig) (Render (nodeTable gpuResourceName nodes pods));
  mret (Ok ()).

(** * Properties *)

(** What a container requests of a resource. *)
Definition nanoOf (r : string) (requests : gmap string Quantity) : Z := q_Nano (default zero_quantity (requests !! r)).

Definition share (r : string) (request : string * Quantity) : Z := if decide (request.1 = r) then q_Nano request.2 else 0.

Lemma sumZ_perm l l' : l ≡ₚ l' → sumZ l = sumZ l'.
Proof. induction 1; rewrite ?sumZ_cons; [done|..]; lia. Qed.

Lemma addAmount_nano l m r : nanoOf r (foldl addAmount m l) = nanoOf r m + sumZ (map (share r) l).
Proof.
  revert m. induction l as [|[k q] l IH]; intros m; cbn [foldl map]; [cbn; lia|]. rewrite IH, sumZ_cons.
  unfold share, nanoOf. cbn [addAmount fst snd]. case_decide as Hk.
  - subst. rewrite lookup_insert_eq. cbn [from_option id]. rewrite QuantityAdd_nano. lia.
  - rewrite lookup_insert_ne by done. lia.
Qed.

Lemma share_map requests r : sumZ (map (share r) (map_to_list requests)) = nanoOf r requests.
Proof.
  induction requests as [|k q m Hk IH] using map_ind; [by rewrite map_to_list_empty|].
  rewrite (sumZ_perm _ (map (share r) ((k, q) :: map_to_list m))) by (apply Permutation_map, map_to_list_insert, Hk).
  cbn [map]. rewrite sumZ_cons, IH. unfold share, nanoOf. cbn [fst snd]. case_decide as E.
  - subst. rewrite lookup_insert_eq, Hk. cbn. lia.
  - by rewrite lookup_insert_ne.
Qed.

Lemma addRequests_nano requests m r : nanoOf r (addRequests m requests) = nanoOf r m + nanoOf r requests.
Proof.
  unfold addRequests. rewrite addAmount_nano, <- (share_map requests). f_equal. apply sumZ_perm, Permutation_map, rangeMap_perm.
Qed.

Lemma foldl_addRequests_nano l m r : nanoOf r (foldl addRequests m l) = nanoOf r m + sumZ (map (nanoOf r) l).
Proof.
  revert m. induction l as [|q l IH]; intros m; cbn [foldl map]; [cbn; lia|]. rewrite IH, addRequests_nano, sumZ_cons. lia.
Qed.

(** What the pods on a node request of a resource, over all their containers. *)
Definition podsOn (name : string) (pods : list StatPod) : list StatPod := filter (λ p, sp_NodeName p = name) pods.

Definition requestedOn (name r : string) (pods : list StatPod) : Z :=
  sumZ (map (λ p, sumZ (map (nanoOf r) (sp_Requests p))) (podsOn name pods)).

(** What the status shows as used on a node is what its pods request: for every resource
    the sum over the containers of all pods that are on the node, and the number of these
    pods, whatever the order in which the requests are visited. Pods that are not scheduled
    count nowhere. *)
Theorem nodeUse_spec pods name r :
  name ≠ "" →
  q_Nano (amountOf (nu_requested (nodeUse pods)) name r) = requestedOn name r pods ∧
  default 0 (nu_podCount (nodeUse pods) !! name) = int64_wrap (Z.of_nat (length (podsOn name pods))).
Proof.
  intros Hname. unfold nodeUse. induction pods as [|p pods IH] using rev_ind; [done|]. rewrite foldl_app. cbn [foldl].
  destruct IH as [IHq IHn]. unfold requestedOn, podsOn in *. rewrite filter_app, filter_cons, filter_nil.
  set (u := foldl addPod _ pods) in *. unfold addPod. destruct (decide (sp_NodeName p = name)) as [Hp|Hp].
  - rewrite decide_False by congruence. cbn [nu_requested nu_podCount]. unfold amountOf. rewrite Hp, !lookup_insert_eq.
    cbn [from_option id]. change (q_Nano _) with (nanoOf r (foldl addRequests (default ∅ (nu_requested u !! name)) (sp_Requests p))).
    rewrite foldl_addRequests_nano, map_app, sumZ_app, <- IHq, IHn, length_app. cbn [map length]. rewrite sumZ_cons. split.
    + unfold amountOf, nanoOf. cbn. lia.
    + unfold increment. rewrite int64_wrap_add_l. f_equal. lia.
  - rewrite app_nil_r. case_decide; [done|]. cbn [nu_requested nu_podCount]. unfold amountOf. by rewrite !lookup_insert_ne.
Qed.

(** The status shows the model the label of the pool was made from, unless it has a dash. *)
Lemma extractGPUModel_flavorName n :
  valid_node n → (gpuIdentity (nr_Labels n)).1.2 ≠ "cpu" → dash ∉ Text.chars (gpuIdentity (nr_Labels n)).2 →
  extractGPUModel (flavorName n) = (gpuIdentity (nr_Labels n)).2.
Proof.
  intros [Hc Hcpu Hmem] Hv Ht. unfold extractGPUModel. pose proof (vendor_cases (nr_Labels n)) as Hcases.
  pose proof (vendor_no_dash n) as Hdash. unfold flavorName in *.
  destruct (gpuIdentity (nr_Labels n)) as [[c v] t]. cbn [fst snd] in *.
  assert (Str.HasPrefix (flavorNameOf v t c (QuantityValue (nominalCPU n)) (Z.quot (QuantityValue (nominalMemory n)) GiB)) CPUOnly = false)
    as -> by (destruct Hcases as [->|[->| ->]]; done).
  pose proof (parts_flavorNameOf v t c (QuantityValue (nominalCPU n)) (Z.quot (QuantityValue (nominalMemory n)) GiB) Hdash Hc Hcpu Hmem) as Hparts.
  unfold parts in Hparts. change (Ascii.ascii_of_nat 45) with dash in Hparts. rewrite Hparts, Text.Split_whole by done. done.
Qed.

End nodestats.
