(* ===== verification/Users.v ===== *)
(** Who uses the client (pkg/utils/user.go, pkg/cli/submit.go): e-mail addresses and the
    name of the current user. The pattern is a constant that compiles, so matching it
    does not fail. *)

From stdpp Require Import gmap strings list.
From Stdlib Require Import ZArith Lia.
From S2P Require Import Prelude Text Runes Naming Float64 Types GpuResources WorkloadTypes Labels.

(** * E-mail addresses *)

Definition atChar : Ascii.ascii := Ascii.ascii_of_nat 64.

Definition isLetter (c : Ascii.ascii) : bool :=
  let n := Ascii.nat_of_ascii c in bool_decide ((65 <= n ∧ n <= 90) ∨ (97 <= n ∧ n <= 122))%nat.

Definition isNumeral (c : Ascii.ascii) : bool := let n := Ascii.nat_of_ascii c in bool_decide (48 <= n ∧ n <= 57)%nat.

(** [[a-zA-Z0-9.-]] and [[a-zA-Z0-9._%+-]]. *)
Definition domainClass (c : Ascii.ascii) : bool := isLetter c || isNumeral c || bool_decide (c = dotChar ∨ c = dashChar).
Definition localClass (c : Ascii.ascii) : bool := domainClass c || bool_decide (Ascii.nat_of_ascii c ∈ [95; 37; 43])%nat.

(** What is before and after the first, and the last, byte [c]. *)
Fixpoint cutFirst (c : Ascii.ascii) (s : list Ascii.ascii) : option (list Ascii.ascii * list Ascii.ascii) :=
  match s with
  | [] => None
  | d :: s' => if decide (d = c) then Some ([], s') else '(a, b) ← cutFirst c s'; Some (d :: a, b)
  end.

Fixpoint cutLast (c : Ascii.ascii) (s : list Ascii.ascii) : option (list Ascii.ascii * list Ascii.ascii) :=
  match s with
  | [] => None
  | d :: s' =>
      match cutLast c s' with
      | Some (a, b) => Some (d :: a, b)
      | None => if decide (d = c) then Some ([], s') else None
      end
  end.

(** [^[a-zA-Z0-9._%+-]+@[a-zA-Z0-9.-]+\.[a-zA-Z]{2,}$]. *)
Definition matchesEmail (s : list Ascii.ascii) : bool :=
  match cutFirst atChar s with
  | None => false
  | Some (l, r) =>
      match cutLast dotChar r with
      | None => false
      | Some (a, t) =>
          bool_decide (l ≠ []) && forallb localClass l && bool_decide (a ≠ []) && forallb domainClass a &&
          bool_decide (2 <= length t)%nat && forallb isLetter t
      end
  end.

Definition emailRegexMatches (s : string) : bool := matchesEmail (String.list_ascii_of_string s).

(** * The current user *)

Definition dotsToDashes (s : string) : string :=
  String.string_of_list_ascii ((λ c, if decide (c = dotChar) then dashChar else c) <$> String.list_ascii_of_string s).

Section users.
Context `{Host} {S : sig} (currentUser hostname : prog S (error + string)).

Definition GetCurrentUser : prog S (outcome string) :=
  let userEmail := Getenv "KAIWO_USER_EMAIL" in
  if decide (userEmail ≠ "") then
    if emailRegexMatches userEmail then
      match Str.Split userEmail atChar with
      | p0 :: p1 :: _ =>
          match Str.Split p0 dashChar with
          | username :: _ => mret (Ok (MakeRFC1123Compliant (username +:+ "-" +:+ dotsToDashes p1)))
          | [] => mret Panics
          end
      | _ => mret Panics
      end
    else mret (Err (Errorf ("invalid email format: " +:+ userEmail)))
  else
    username ←? (r ← currentUser; mret (of_sum r)) else "failed to retrieve current user";
    host ←? (r ← hostname; mret (of_sum r)) else "failed to retrieve hostname";
    mret (Ok (MakeRFC1123Compliant (username +:+ "-" +:+ dotsToDashes host))).
End users.

(** * Properties *)

Lemma cutFirst_app c a b : c ∉ a → cutFirst c (a ++ c :: b) = Some (a, b).
Proof.
  induction a as [|d a IH]; cbn [cutFirst app]; [by rewrite decide_True|]. rewrite not_elem_of_cons. intros [Hd Ha].
  rewrite decide_False by congruence. by rewrite IH.
Qed.

Lemma cutFirst_Some c s a b : cutFirst c s = Some (a, b) → s = a ++ c :: b.
Proof.
  revert a b. induction s as [|d s IH]; intros a b; cbn [cutFirst]; [done|]. case_decide as Hd; [by intros [= <- <-]; subst|].
  destruct (cutFirst c s) as [[x y]|]; cbn [mbind option_bind]; [|done]. intros [= <- <-]. by rewrite (IH x y).
Qed.

Lemma cutLast_none c s : c ∉ s → cutLast c s = None.
Proof.
  induction s as [|d s IH]; [done|]. rewrite not_elem_of_cons. intros [Hd Hs]. cbn [cutLast]. rewrite IH by done.
  by rewrite decide_False by congruence.
Qed.

Lemma cutLast_app c a b : c ∉ b → cutLast c (a ++ c :: b) = Some (a, b).
Proof.
  intros Hb. induction a as [|d a IH]; cbn [cutLast app]; [by rewrite cutLast_none, decide_True|]. by rewrite IH.
Qed.

Lemma cutLast_Some c s a b : cutLast c s = Some (a, b) → s = a ++ c :: b.
Proof.
  revert a b. induction s as [|d s IH]; intros a b; cbn [cutLast]; [done|]. destruct (cutLast c s) as [[x y]|].
  - intros [= <- <-]. by rewrite (IH x y).
  - case_decide as Hd; [|done]. by intros [= <- <-]; subst.
Qed.

Lemma class_without (p : Ascii.ascii → bool) c l : p c = false → forallb p l = true → c ∉ l.
Proof. intros Hc Hl Hin. apply forallb_forall with (x := c) in Hl; [congruence|by apply list_elem_of_In]. Qed.

Lemma Split_nonempty s sep : Str.Split s sep ≠ [].
Proof. destruct s as [|c s]; cbn [Str.Split]; [done|]. case_decide; [done|]. by destruct (Str.Split s sep). Qed.

(** The language of the regular expression. *)
Definition email (s : list Ascii.ascii) : Prop :=
  ∃ l a t, s = l ++ atChar :: a ++ dotChar :: t ∧ (l ≠ [] ∧ forallb localClass l = true) ∧ (a ≠ [] ∧ forallb domainClass a = true) ∧
    (2 <= length t)%nat ∧ forallb isLetter t = true.

Lemma matchesEmail_spec s : matchesEmail s = true ↔ email s.
Proof.
  split.
  - unfold matchesEmail. destruct (cutFirst atChar s) as [[l r]|] eqn:E1; [|done]. apply cutFirst_Some in E1 as ->.
    destruct (cutLast dotChar r) as [[a t]|] eqn:E2; [|done]. apply cutLast_Some in E2 as ->.
    rewrite !andb_true_iff, !bool_decide_eq_true. intros (((((? & ?) & ?) & ?) & ?) & ?). by exists l, a, t.
  - intros (l & a & t & -> & (Hl & Hlc) & (Ha & Hac) & Ht & Htc). unfold matchesEmail.
    rewrite cutFirst_app by (by apply (class_without localClass)). rewrite cutLast_app by (by apply (class_without isLetter)).
    rewrite Hlc, Hac, Htc, !bool_decide_true by done. done.
Qed.

(** An address that is accepted splits into the parts that are used, so there is no panic,
    and the name made of it is a label value of at most 63 bytes. *)
Lemma GetCurrentUser_address `{Host} {S : sig} (currentUser hostname : prog S (error + string)) :
  Getenv "KAIWO_USER_EMAIL" ≠ "" →
  always anything (GetCurrentUser currentUser hostname) (λ tr r, tr = [] ∧
    match r with
    | Ok name => email (String.list_ascii_of_string (Getenv "KAIWO_USER_EMAIL")) ∧ ∃ s, name = MakeRFC1123Compliant s
    | Err _ => ¬ email (String.list_ascii_of_string (Getenv "KAIWO_USER_EMAIL"))
    | Panics => False
    end).
Proof.
  intros He. unfold GetCurrentUser. rewrite decide_True by done. unfold emailRegexMatches.
  destruct (matchesEmail _) eqn:Hm.
  - apply matchesEmail_spec in Hm.
    assert (∃ p0 p1 ps, Str.Split (Getenv "KAIWO_USER_EMAIL") atChar = p0 :: p1 :: ps) as (p0 & p1 & ps & ->).
    { destruct Hm as (l & a & t & E & _). rewrite <- (String.string_of_list_ascii_of_string (Getenv _)), E.
      assert (∀ x y, String.string_of_list_ascii (x ++ atChar :: y) = String.string_of_list_ascii x +:+ String atChar (String.string_of_list_ascii y)) as ->.
      { intros x y. induction x as [|c x IH]; [done|]. cbn. by rewrite IH. }
      rewrite Text.Split_app. destruct (Str.Split (String.string_of_list_ascii l) atChar) as [|p0 [|p1 ps]] eqn:E0.
      - by apply Split_nonempty in E0.
      - destruct (Str.Split (String.string_of_list_ascii (a ++ dotChar :: t)) atChar) as [|p1 ps] eqn:E1; [by apply Split_nonempty in E1|].
        by exists p0, p1, ps.
      - by eexists p0, p1, _. }
    destruct (Str.Split p0 dashChar) as [|username us] eqn:E2; [by apply Split_nonempty in E2|]. split; [done|]. split; [done|]. by eexists.
  - split; [done|]. intros Hs. apply matchesEmail_spec in Hs. congruence.
Qed.

(** The name of the client's user is not the label the operator puts on the objects of the
    same user: one replaces the dots of the domain, the other keeps them. *)
Example user_label_differs `{Host} {S : sig} (currentUser hostname : prog S (error + string)) lc labels :
  Getenv "KAIWO_USER_EMAIL" = "ada@example.com" → lc_User lc = "ada@example.com" →
  GetCurrentUser currentUser hostname = mret (Ok "ada-example-com") ∧
  SetKaiwoSystemLabels lc labels !! KaiwoUserLabel = Some "ada-example.com".
Proof.
  intros He Hl. split; [unfold GetCurrentUser; rewrite He; vm_compute; reflexivity|].
  unfold SetKaiwoSystemLabels. rewrite Hl. set (u := MakeRFC1123Compliant _). vm_compute in u.
  case_decide; rewrite ?(lookup_insert_ne _ _ KaiwoUserLabel) by done; apply lookup_insert_eq.
Qed.
