(* ===== verification/Interactive.v ===== *)
(** Programs that ask a user until they are satisfied. A loop around a form has no bound
    of its own, so it is run for a number of rounds: an unfinished session says that the
    user is still being asked, and a finished one does not depend on the number. *)

From stdpp Require Import list.
From Stdlib Require Import ZArith Lia.
From S2P Require Import Prelude History.

Inductive session (A : Type) := Done (o : outcome A) | Asking.
Arguments Done {A} o.
Arguments Asking {A}.

(** [p], whose error is passed on as [wrap] says; then [k]. *)
Definition orAsk {S A B} (wrap : error → error) (p : prog S (session A)) (k : A → prog S (session B)) : prog S (session B) :=
  r ← p;
  match r with
  | Done (Ok a) => k a
  | Done (Err e) => mret (Done (Err (wrap e)))
  | Done Panics => mret (Done Panics)
  | Asking => mret Asking
  end.

Notation "x ←! p 'as' w ; k" := (orAsk w p (λ x, k))
  (at level 100, p at next level, w at level 0, k at level 200, right associativity) : go_scope.
Notation "' x ←! p 'as' w ; k" := (orAsk w p (λ x, k))
  (at level 20, x pattern, p at level 100, w at level 0, k at level 200) : go_scope.

(** A program without questions. *)
Definition at_once {S A} (p : prog S (outcome A)) : prog S (session A) := o ← p; mret (Done o).

Definition finish {S A} (a : A) : prog S (session A) := mret (Done (Ok a)).
Definition failing {S A} (e : error) : prog S (session A) := mret (Done (Err e)).
Definition crashing {S A} : prog S (session A) := mret (Done Panics).

(** [for { body }]: the body goes on with new loop variables ([inl]) or leaves the loop
    ([inr]). *)
Fixpoint rounds {S A St} (n : nat) (body : St → prog S (session (St + A))) (s : St) : prog S (session A) :=
  match n with
  | O => mret Asking
  | Datatypes.S n' => r ←! body s as id; match r with inl s' => rounds n' body s' | inr a => finish a end
  end.

Section theory.
Context {S : sig}.

(** The number of events of a kind. *)
Definition tally (kind : event S → bool) (tr : trace S) : nat := length (List.filter kind tr).

Lemma exec_bind {A B} ok (p : prog S A) (f : A → prog S B) tr b :
  exec ok (p ≫= f) tr b ↔ ∃ tr1 tr2 a, tr = tr1 ++ tr2 ∧ exec ok p tr1 a ∧ exec ok (f a) tr2 b.
Proof.
  split.
  - intros Hex. apply (exec_always _ _ _ _ Hex (λ tr b, ∃ tr1 tr2 a, tr = tr1 ++ tr2 ∧ exec ok p tr1 a ∧ exec ok (f a) tr2 b)).
    apply always_bind, always_exec. intros tr1 a H1. apply always_exec. intros tr2 b' H2. by exists tr1, tr2, a.
  - intros (tr1 & tr2 & a & -> & H1 & H2). induction H1 as [a|r k x tr1 a Hx H1 IH]; [done|].
    change (exec ok (Call r (λ x, k x ≫= f)) (ev r x :: tr1 ++ tr2) b). constructor; [done|]. by apply IH.
Qed.

(** [q] finishes whenever [p] does, in the same way. *)
Definition extends {A} (p q : prog S (session A)) : Prop :=
  ∀ tr o, exec anything p tr (Done o) → exec anything q tr (Done o).

Lemma extends_refl {A} (p : prog S (session A)) : extends p p.
Proof. by intros tr o. Qed.

Lemma extends_orAsk {A B} wrap (p q : prog S (session A)) (k l : A → prog S (session B)) :
  extends p q → (∀ a, extends (k a) (l a)) → extends (orAsk wrap p k) (orAsk wrap q l).
Proof.
  intros Hp Hk tr o Hex. apply exec_bind in Hex as (tr1 & tr2 & r & -> & H1 & H2). apply exec_bind.
  destruct r as [o'|]; [|by inversion H2]. exists tr1, tr2, (Done o'). repeat split; [by apply Hp|].
  destruct o' as [a|e|]; [by apply Hk|done..].
Qed.

(** A finished session stays what it is with more rounds. *)
Lemma extends_rounds {A St} n m (body body' : St → prog S (session (St + A))) s :
  (n <= m)%nat → (∀ s, extends (body s) (body' s)) → extends (rounds n body s) (rounds m body' s).
Proof.
  revert m s. induction n as [|n IH]; intros m s Hm Hbody; [intros tr o Hex; by inversion Hex|]. destruct m as [|m]; [lia|].
  cbn [rounds]. apply extends_orAsk; [apply Hbody|]. intros [s'|a]; [apply IH; [lia|done]|apply extends_refl].
Qed.

(** What every round asks at least once, an unfinished session of [n] rounds has asked
    [n] times. *)
Lemma rounds_asking {A St} (body : St → prog S (session (St + A))) (asks : event S → bool) n s :
  (∀ s, always anything (body s) (λ tr r, (1 <= tally asks tr)%nat ∧ r ≠ Asking)) →
  always anything (rounds n body s) (λ tr r, r = Asking → (n <= tally asks tr)%nat).
Proof.
  intros Hbody. revert s. induction n as [|n IH]; intros s; cbn [rounds]; [cbn; lia|]. apply always_bind.
  eapply always_mono; [apply Hbody|]. intros tr [[[s'|a]|e|]|] [Ht Hr]; [|by intros ?|by intros ?|by intros ?|done].
  eapply always_mono; [apply IH|]. intros tr' r Hn Hask. unfold tally in *. rewrite List.filter_app, length_app.
  specialize (Hn Hask). lia.
Qed.

Context (J : trace S → event S → Prop).

Lemma traced_orAsk {A B} h wrap (p : prog S (session A)) (k : A → prog S (session B)) (Q : trace S → session B → Prop) :
  traced J h p (λ h' r, match r with
    | Done (Ok a) => traced J h' (k a) Q
    | Done (Err e) => Q h' (Done (Err (wrap e)))
    | Done Panics => Q h' (Done Panics)
    | Asking => Q h' Asking
    end) → traced J h (orAsk wrap p k) Q.
Proof.
  intros Hp. apply traced_bind. eapply traced_mono; [exact Hp|]. intros h' [[a|e|]|] _ Ha; [done|..]; by apply traced_ret.
Qed.

Lemma traced_rounds {A St} (I : trace S → St → Prop) (body : St → prog S (session (St + A))) (Q : trace S → outcome A → Prop) n :
  (∀ h s, I h s → traced J h (body s) (λ h' r, match r with
     | Done (Ok (inl s')) => I h' s'
     | Done (Ok (inr a)) => Q h' (Ok a)
     | Done (Err e) => Q h' (Err e)
     | Done Panics => Q h' Panics
     | Asking => True
     end)) →
  ∀ h s, I h s → traced J h (rounds n body s) (λ h' r, match r with Done o => Q h' o | Asking => True end).
Proof.
  intros Hbody. induction n as [|n IH]; intros h s HI; cbn [rounds]; [by apply traced_ret|].
  apply traced_orAsk. eapply traced_mono; [apply Hbody, HI|]. intros h' [[[s'|a]|e|]|] _ Hr; [by apply IH|by apply traced_ret|done..].
Qed.
End theory.
