(* ===== verification/Submit.v ===== *)
(** Submitting a manifest (pkg/cli/submit.go, pkg/cli/utils/config.go): where the user and
    the queue come from, how the manifest is completed, and what is sent to the server.
    The manifest is unstructured; the parsers of YAML and the functions on nested fields
    are of libraries. *)

From stdpp Require Import gmap strings list.
From Stdlib Require Import ZArith Lia.
From S2P Require Import Prelude History Float64 Types GpuResources Users Interactive Downloads.

(** * Libraries *)

(** Two paths of which neither leads through the other. *)
Definition apart (p q : list string) : Prop := ¬ (p `prefix_of` q) ∧ ¬ (q `prefix_of` p).

(** [unstructured.NestedFieldCopy] and [SetNestedField]: a nested field, [None] when it is
    missing, and an error when something on the way is not a map. *)
Class UnstructuredLib := {
  NestedFieldCopy : Json → list string → error + option Json;
  SetNestedField : Json → Json → list string → error + Json;
  SetNestedField_get obj value fields obj' :
    fields ≠ [] → SetNestedField obj value fields = inr obj' → NestedFieldCopy obj' fields = inr (Some value);
  SetNestedField_other obj value fields obj' other :
    apart fields other → SetNestedField obj value fields = inr obj' → NestedFieldCopy obj' other = NestedFieldCopy obj other
}.

Record KaiwoCliConfig := { cli_User : string; cli_ClusterQueue : string }.

Class YamlReader := {
  UnmarshalConfig : string → error + KaiwoCliConfig;
  UnmarshalManifest : string → error + Json;
  CliErrorText : error → string
}.

(** * Calls *)

Inductive Source := FromStdin | FromFile (path : string).
Inductive StatAnswer := Exists | NotExist | StatFails (e : error).

Inductive submit_req :=
| OpenFile (path : string)
| ReadFile (path : string)
| ReadStdin
| Decode (s : Source)
| CloseFile
| UserHomeDir
| Stat (path : string)
| ConfirmConfig (path : string)
| AskConfig (user queue : string)
| MkdirAll (dir : string)
| CreateFile (path : string)
| Encode (c : KaiwoCliConfig)
| GetClients
| GetManifest (k : Key)
| UpdateManifest (obj : Json)
| CreateManifest (obj : Json).

Definition submit_resp (r : submit_req) : Type :=
  match r with
  | OpenFile _ | CloseFile | MkdirAll _ | CreateFile _ | Encode _ | GetClients | UpdateManifest _ | CreateManifest _ => option error
  | ReadFile _ | ReadStdin | UserHomeDir => error + string
  | Decode _ | GetManifest _ => error + Json
  | Stat _ => StatAnswer
  | ConfirmConfig _ => error + bool
  | AskConfig _ _ => error + (string * string)
  end.

Definition SubmitSig : sig := Sig submit_req submit_resp.
Abbreviation UM := (prog SubmitSig).

Section submit.
Context `{Host} `{UnstructuredLib} `{YamlReader}.

(** [fmt.Errorf(msg + ": %v", err)]. *)
Definition restate (msg : string) (e : error) : error := Errorf (msg +:+ ": " +:+ CliErrorText e).

(** * The configuration of the client *)

Definition KaiwoCliConfigPathEnv : string := "KAIWOCONFIG".

Definition GetDefaultKaiwoCliConfigPath : UM (outcome string) :=
  r ← call (S := SubmitSig) UserHomeDir;
  mret (match r with inl e => Err e | inr home => Ok (JoinPath [home; ".config/kaiwo/kaiwoconfig.yaml"]) end).

Definition DefaultKaiwoCliConfigFileExists : UM (outcome bool) :=
  r ← GetDefaultKaiwoCliConfigPath;
  match r with
  | Ok configPath =>
      s ← call (S := SubmitSig) (Stat configPath);
      mret (match s with
            | Exists => Ok true
            | NotExist => Ok false
            | StatFails e => Err (Wrapf "unable to stat kaiwo cli config file" e)
            end)
  | Err e => mret (Err e)
  | Panics => mret Panics
  end.

Definition GetKaiwoCliConfigPath (cliFlagsPath : string) : UM (outcome string) :=
  if decide (cliFlagsPath ≠ "") then mret (Ok cliFlagsPath)
  else if decide (Getenv KaiwoCliConfigPathEnv ≠ "") then mret (Ok (Getenv KaiwoCliConfigPathEnv))
  else
    r ← DefaultKaiwoCliConfigFileExists;
    match r with
    | Ok true => GetDefaultKaiwoCliConfigPath
    | Ok false => mret (Ok "")
    | Err e => mret (Err (Wrapf "failed to determine default Kaiwo cli config file path" e))
    | Panics => mret Panics
    end.

Definition readKaiwoCliConfig (path : string) : UM (outcome KaiwoCliConfig) :=
  yamlFile ←? (r ← call (S := SubmitSig) (ReadFile path); mret (of_sum r)) else ("failed to read file " +:+ path);
  mret (match UnmarshalConfig yamlFile with
        | inl e => Err (Wrapf ("failed to unmarshal file " +:+ path) e)
        | inr c => Ok c
        end).

(** [filepath.Dir]. *)
Definition Dir (path : string) : string :=
  match cutLast slashChar (String.list_ascii_of_string path) with
  | Some (dir, _) => Clean (String.string_of_list_ascii dir +:+ "/")
  | None => "."
  end.

(** One form: an address that does not match is asked for again. *)
Definition askConfig (entered : string * string) : UM (session (string * string + string * string)) :=
  r ← call (S := SubmitSig) (AskConfig entered.1 entered.2);
  mret (match r with
        | inl e => Done (Err e)
        | inr (userEmail, queueValue) =>
            Done (Ok (if emailRegexMatches userEmail then inr (userEmail, queueValue) else inl (userEmail, queueValue)))
        end).

(** The deferred [Close] panics when it fails. *)
Definition closing {A} (o : outcome A) : UM (outcome A) :=
  r ← call (S := SubmitSig) CloseFile; mret (match r with Some _ => Panics | None => o end).

Definition writeConfig (configPath : string) (c : KaiwoCliConfig) : UM (outcome bool) :=
  _ ←? (r ← call (S := SubmitSig) (MkdirAll (Dir configPath)); mret (of_err r)) else ("failed to create directory " +:+ Dir configPath);
  _ ←? (r ← call (S := SubmitSig) (CreateFile configPath); mret (of_err r)) else "failed to create Kaiwo config file";
  r ← call (S := SubmitSig) (Encode c);
  closing (match r with Some e => Err (Wrapf "failed to encode Kaiwo config file" e) | None => Ok true end).

Definition promptUserForConfig (n : nat) : UM (session bool) :=
  configPath ←! at_once GetDefaultKaiwoCliConfigPath as (Wrapf "failed to get default Kaiwo config path");
  create ←! at_once (r ← call (S := SubmitSig) (ConfirmConfig configPath); mret (of_sum r)) as id;
  if create : bool then
    '(userEmail, queueValue) ←! rounds n askConfig ("", DefaultClusterQueueName) as id;
    at_once (writeConfig configPath {| cli_User := userEmail; cli_ClusterQueue := queueValue |})
  else finish false.

(** * The manifest *)

(** The decoder reads from what was opened; when it fails the bytes read before are tried.
    Standard input has been read to its end by then. *)
Definition decode (s : Source) (yamlBytes : string) : UM (outcome Json) :=
  r ← call (S := SubmitSig) (Decode s);
  mret (match r with
        | inr obj => Ok obj
        | inl _ => match UnmarshalManifest yamlBytes with
                   | inl e => Err (Wrapf "failed to decode manifest" e)
                   | inr obj => Ok obj
                   end
        end).

Definition readManifest (path : string) : UM (outcome Json) :=
  if decide (path = "-" ∨ path = "--") then
    yamlBytes ←? (r ← call (S := SubmitSig) ReadStdin; mret (of_sum r)) else "failed to read from stdin";
    decode FromStdin yamlBytes
  else
    _ ←? (r ← call (S := SubmitSig) (OpenFile path); mret (of_err r)) else "failed to open file";
    r ← call (S := SubmitSig) (ReadFile path);
    o ← match r with
        | inl e => mret (Err (Wrapf "failed to read file" e))
        | inr yamlBytes => decode (FromFile path) yamlBytes
        end;
    closing o.

Definition ensureObjectNestedStringField (obj : Json) (value : string) (fields : list string) : outcome Json :=
  match NestedFieldCopy obj fields with
  | inl e => Err (Wrapf "failed to get nested fields" e)
  | inr (Some _) => Ok obj
  | inr None =>
      match SetNestedField obj (JStr value) fields with
      | inl e => Err (Wrapf "failed to set nested field" e)
      | inr obj' => Ok obj'
      end
  end.

Definition userPath : list string := ["spec"; "user"].
Definition queuePath : list string := ["spec"; "clusterQueue"].
Definition namespacePath : list string := ["metadata"; "namespace"].

(** [obj.GetNamespace()] and [obj.GetName()]: the empty string for what is not a string. *)
Definition stringAt (obj : Json) (fields : list string) : string :=
  match NestedFieldCopy obj fields with inr (Some (JStr s)) => s | _ => "" end.

(** The object that is read is read into the manifest. *)
Definition Apply (namespace : string) (manifest : Json) : UM (outcome unit) :=
  let namespace := if decide (namespace = "") then "default" else namespace in
  obj ←? mret (ensureObjectNestedStringField manifest namespace namespacePath) else "failed to ensure object namespace";
  if decide (stringAt obj namespacePath ≠ namespace ∧ namespace ≠ "default") then
    mret (Err (Errorf ("expected namespace to be " +:+ namespace +:+ ", got " +:+ stringAt obj namespacePath)))
  else
    r ← call (S := SubmitSig) (GetManifest (mkKey (stringAt obj namespacePath) (stringAt obj ["metadata"; "name"])));
    match r with
    | inl e =>
        if IsNotFound e then
          _ ←? (r ← call (S := SubmitSig) (CreateManifest obj); mret (of_err r)) else "failed to create resource";
          mret (Ok ())
        else mret (Err (Wrapf "failed to get object" e))
    | inr obj =>
        _ ←? (r ← call (S := SubmitSig) (UpdateManifest obj); mret (of_err r)) else "failed to update object";
        mret (Ok ())
    end.

(** * The command *)

Record SubmitFlags := { fl_user : string; fl_queue : string; fl_namespace : string; fl_file : string; fl_config : string }.

Definition override (f : SubmitFlags) (c : KaiwoCliConfig) : KaiwoCliConfig :=
  {| cli_User := if decide (fl_user f ≠ "") then fl_user f else cli_User c;
     cli_ClusterQueue := if decide (fl_queue f ≠ "") then fl_queue f else cli_ClusterQueue c |}.

Definition noConfig : KaiwoCliConfig := {| cli_User := ""; cli_ClusterQueue := "" |}.

Definition resolveConfig (n : nat) (f : SubmitFlags) : UM (session KaiwoCliConfig) :=
  existing ←! at_once (GetKaiwoCliConfigPath (fl_config f)) as (restate "failed to get Kaiwo config path");
  configPath ←! at_once GetDefaultKaiwoCliConfigPath as (Wrapf "failed to get default Kaiwo config path");
  existing ←!
    (if decide (existing = "" ∧ fl_user f = "") then
       created ←! promptUserForConfig n as (restate "failed to prompt user");
       finish (if created : bool then configPath else existing)
     else finish existing) as id;
  if decide (existing ≠ "") then
    c ←! at_once (readKaiwoCliConfig existing) as (restate "failed to read Kaiwo config file");
    finish (override f c)
  else if decide (fl_user f = "") then
    failing (Errorf ("kaiwo cli config file was not given, ensure you pass it as a CLI flag, via the env var " +:+
      KaiwoCliConfigPathEnv +:+ " or place it in " +:+ configPath +:+ ", or provide the user / queue via CLI flags"))
  else finish (override f noConfig).

Definition runSubmitCmd (n : nat) (f : SubmitFlags) : UM (session unit) :=
  if decide (fl_file f = "") then failing (Errorf "--file is required")
  else
    obj ←! at_once (readManifest (fl_file f)) as (restate "failed to read manifest");
    kaiwoConfig ←! resolveConfig n f as id;
    _ ←! at_once (r ← call (S := SubmitSig) GetClients; mret (of_err r)) as (restate "failed to get Kubernetes clients");
    obj ←! at_once (mret (ensureObjectNestedStringField obj (cli_User kaiwoConfig) userPath)) as (restate "failed to ensure user field");
    obj ←! at_once (mret (ensureObjectNestedStringField obj (cli_ClusterQueue kaiwoConfig) queuePath)) as (restate "failed to ensure queue field");
    at_once (Apply (fl_namespace f) obj).

(** * What is sent *)

Definition is_write (e : event SubmitSig) : Prop :=
  match projT1 e with CreateManifest _ | UpdateManifest _ => True | _ => False end.

Definition unwritten (h : trace SubmitSig) : Prop := Forall (λ e, ¬ is_write e) h.

(** Where the manifest of a flag comes from, and that it was read from there: by the
    decoder, or when that failed from all the text. *)
Definition manifestSource (f : SubmitFlags) : Source :=
  if decide (fl_file f = "-" ∨ fl_file f = "--") then FromStdin else FromFile (fl_file f).

Definition text_read (h : trace SubmitSig) (s : Source) (text : string) : Prop :=
  match s with
  | FromStdin => ev (S := SubmitSig) ReadStdin (inr text) ∈ h
  | FromFile path => ev (S := SubmitSig) (ReadFile path) (inr text) ∈ h
  end.

Definition manifest_in (f : SubmitFlags) (h : trace SubmitSig) (m : Json) : Prop :=
  ev (S := SubmitSig) (Decode (manifestSource f)) (inr m) ∈ h ∨
  (∃ e text, ev (S := SubmitSig) (Decode (manifestSource f)) (inl e) ∈ h ∧ text_read h (manifestSource f) text ∧
     UnmarshalManifest text = inr m).

Definition defaultPath (home : string) : string := JoinPath [home; ".config/kaiwo/kaiwoconfig.yaml"].

(** The path of the configuration: that of the flag, else that of the environment, else the
    one in the home directory, when there is a file there or one was just written. *)
Definition config_path (f : SubmitFlags) (h : trace SubmitSig) (path : string) : Prop :=
  if decide (fl_config f ≠ "") then path = fl_config f
  else if decide (Getenv "KAIWOCONFIG" ≠ "") then path = Getenv "KAIWOCONFIG"
  else ∃ home, ev (S := SubmitSig) UserHomeDir (inr home) ∈ h ∧ path = defaultPath home ∧
    ((∃ home', ev (S := SubmitSig) (Stat (defaultPath home')) Exists ∈ h) ∨
     (fl_user f = "" ∧ ∃ c, ev (S := SubmitSig) (Encode c) None ∈ h)).

(** No path is given, and there is no file in the home directory. *)
Definition no_config (f : SubmitFlags) (h : trace SubmitSig) : Prop :=
  fl_config f = "" ∧ Getenv "KAIWOCONFIG" = "" ∧
  ∃ home, ev (S := SubmitSig) UserHomeDir (inr home) ∈ h ∧ ev (S := SubmitSig) (Stat (defaultPath home)) NotExist ∈ h.

(** The configuration read from the file at that path; with none, and a user given by the
    flag, its fields are empty. *)
Definition config_in (f : SubmitFlags) (h : trace SubmitSig) (c : KaiwoCliConfig) : Prop :=
  (∃ path text, config_path f h path ∧ ev (S := SubmitSig) (ReadFile path) (inr text) ∈ h ∧ UnmarshalConfig text = inr c) ∨
  (no_config f h ∧ fl_user f ≠ "" ∧ cli_User c = "" ∧ cli_ClusterQueue c = "").

(** [o] has at [fields] what [m] has there, or [value] when [m] has nothing. *)
Definition filled (m : Json) (value : string) (fields : list string) (o : Json) : Prop :=
  ∃ v, NestedFieldCopy m fields = inr v ∧ NestedFieldCopy o fields = inr (Some (default (JStr value) v)).

Definition defaultNamespace (namespace : string) : string := if decide (namespace = "") then "default" else namespace.

(** The manifest [m] completed. *)
Record completed (f : SubmitFlags) (c : KaiwoCliConfig) (m o : Json) : Prop := {
  cp_user : filled m (if decide (fl_user f = "") then cli_User c else fl_user f) ["spec"; "user"] o;
  cp_queue : filled m (if decide (fl_queue f = "") then cli_ClusterQueue c else fl_queue f) ["spec"; "clusterQueue"] o;
  cp_namespace : filled m (defaultNamespace (fl_namespace f)) ["metadata"; "namespace"] o;
  cp_agrees : defaultNamespace (fl_namespace f) ≠ "default" →
    stringAt o ["metadata"; "namespace"] = defaultNamespace (fl_namespace f);
  cp_rest q : apart ["spec"; "user"] q → apart ["spec"; "clusterQueue"] q → apart ["metadata"; "namespace"] q →
    NestedFieldCopy o q = NestedFieldCopy m q
}.

(** [o] is the manifest that was read, completed from the configuration that was read, and
    the server was just asked for the object of its namespace and name. *)
Definition asked_for (f : SubmitFlags) (h : trace SubmitSig) (o : Json) (answer : error + Json) : Prop :=
  (∃ m c, manifest_in f h m ∧ config_in f h c ∧ completed f c m o) ∧
  last h = Some (ev (S := SubmitSig)
    (GetManifest (mkKey (stringAt o ["metadata"; "namespace"]) (stringAt o ["metadata"; "name"]))) answer).

Definition submit_account (f : SubmitFlags) (h : trace SubmitSig) (e : event SubmitSig) : Prop :=
  match projT1 e with
  | CreateManifest o => unwritten h ∧ ∃ err, asked_for f h o (inl err) ∧ IsNotFound err = true
  | UpdateManifest live => unwritten h ∧ ∃ o, asked_for f h o (inr live)
  | _ => True
  end.

Lemma unwritten_snoc h e : unwritten h → ¬ is_write e → unwritten (h ++ [e]).
Proof. intros Hh He. apply Forall_app. split; [done|]. by constructor. Qed.

(** ** Completing *)

Lemma ensure_filled obj value fields obj' :
  fields ≠ [] → ensureObjectNestedStringField obj value fields = Ok obj' →
  filled obj value fields obj' ∧ ∀ q, apart fields q → NestedFieldCopy obj' q = NestedFieldCopy obj q.
Proof.
  intros Hne. unfold ensureObjectNestedStringField. destruct (NestedFieldCopy obj fields) as [e|[v|]] eqn:E; [done|..].
  - intros [= <-]. split; [|done]. by exists (Some v).
  - destruct (SetNestedField obj (JStr value) fields) as [e|o] eqn:Eset; [done|]. intros [= <-]. split.
    + exists None. split; [done|]. by eapply SetNestedField_get.
    + intros q Hq. by eapply SetNestedField_other.
Qed.

Lemma filled_kept m value fields o o' : filled m value fields o → NestedFieldCopy o' fields = NestedFieldCopy o fields → filled m value fields o'.
Proof. intros (v & Hm & Ho) E. exists v. split; [done|]. by rewrite E. Qed.

Lemma filled_from m m' value fields o : filled m' value fields o → NestedFieldCopy m' fields = NestedFieldCopy m fields → filled m value fields o.
Proof. intros (v & Hm & Ho) E. exists v. split; [by rewrite <- E|done]. Qed.

Lemma complete f c m o1 o2 o3 :
  ensureObjectNestedStringField m (cli_User (override f c)) userPath = Ok o1 →
  ensureObjectNestedStringField o1 (cli_ClusterQueue (override f c)) queuePath = Ok o2 →
  ensureObjectNestedStringField o2 (defaultNamespace (fl_namespace f)) namespacePath = Ok o3 →
  ¬ (stringAt o3 namespacePath ≠ defaultNamespace (fl_namespace f) ∧ defaultNamespace (fl_namespace f) ≠ "default") →
  completed f c m o3.
Proof.
  assert (∀ a b : string, (if decide (a = "") then b else a) = (if decide (a ≠ "") then a else b)) as Hflag.
  { intros x y. destruct (decide (x = "")); [rewrite decide_False by tauto|rewrite decide_True by done]; done. }
  intros [Hf1 K1]%ensure_filled [Hf2 K2]%ensure_filled [Hf3 K3]%ensure_filled Hag; [|done..].
  assert (∀ p q : list string, length p = length q → p ≠ q → apart p q) as Hapart.
  { intros p q Hlen Hpq. split; intros [k E]; destruct k; [by rewrite app_nil_r in E; congruence| |by rewrite app_nil_r in E|];
      apply (f_equal length) in E; rewrite length_app in E; cbn in E; lia. }
  split; rewrite ?Hflag.
  - eapply filled_kept; [exact Hf1|]. rewrite K3, K2 by (by apply Hapart). done.
  - eapply filled_kept; [|by apply K3, Hapart]. eapply filled_from; [exact Hf2|]. by apply K1, Hapart.
  - eapply filled_from; [exact Hf3|]. rewrite K2, K1 by (by apply Hapart). done.
  - intros Hns. destruct (decide (stringAt o3 namespacePath = defaultNamespace (fl_namespace f))); [done|tauto].
  - intros q Hu Hq Hn. by rewrite K3, K2, K1.
Qed.

(** ** Reading *)

Ltac silent := repeat (apply List.Forall_cons; [exact (λ x, x)|]); apply List.Forall_nil.

Lemma unwritten_app h h' : unwritten h → unwritten h' → unwritten (h ++ h').
Proof. intros. by apply Forall_app. Qed.

(** Composing programs that write nothing. *)
Lemma silent_bind {A B} (p : UM A) (k : A → UM B) :
  always anything p (λ tr _, unwritten tr) → (∀ a, always anything (k a) (λ tr _, unwritten tr)) →
  always anything (p ≫= k) (λ tr _, unwritten tr).
Proof. apply always_bind_closed. exact unwritten_app. Qed.

Lemma silent_orAsk {A B} wrap (p : UM (session A)) (k : A → UM (session B)) :
  always anything p (λ tr _, unwritten tr) → (∀ a, always anything (k a) (λ tr _, unwritten tr)) →
  always anything (orAsk wrap p k) (λ tr _, unwritten tr).
Proof. intros Hp Hk. apply silent_bind; [done|]. intros [[a|e|]|]; [apply Hk|..]; by constructor. Qed.

Lemma silent_orFail {A B} msg (p : UM (outcome A)) (k : A → UM (outcome B)) :
  always anything p (λ tr _, unwritten tr) → (∀ a, always anything (k a) (λ tr _, unwritten tr)) →
  always anything (orFail msg p k) (λ tr _, unwritten tr).
Proof. apply always_orFail_closed. exact unwritten_app. Qed.

Lemma silent_at_once {A} (p : UM (outcome A)) : always anything p (λ tr _, unwritten tr) → always anything (at_once p) (λ tr _, unwritten tr).
Proof. intros Hp. apply silent_bind; [done|]. intros o. constructor. Qed.

Lemma silent_rounds {A St} n (body : St → UM (session (St + A))) s :
  (∀ s, always anything (body s) (λ tr _, unwritten tr)) → always anything (rounds n body s) (λ tr _, unwritten tr).
Proof.
  intros Hbody. revert s. induction n as [|n IH]; intros s; cbn [rounds]; [constructor|]. apply silent_orAsk; [done|].
  intros [s'|a]; [apply IH|constructor].
Qed.

Lemma silent_home : always anything GetDefaultKaiwoCliConfigPath (λ tr _, unwritten tr).
Proof. on_call r. silent. Qed.

Lemma Clean_not_empty path : Clean path ≠ "".
Proof. unfold Clean. case_match; [done|]. by case_decide. Qed.

Lemma defaultPath_not_empty home : defaultPath home ≠ "".
Proof.
  unfold defaultPath. cbn [JoinPath]. case_decide; [|apply Clean_not_empty]. rewrite decide_False by done. apply Clean_not_empty.
Qed.

#[local] Arguments JoinPath : simpl never.
#[local] Arguments defaultPath : simpl never.

Lemma home_reads : always anything GetDefaultKaiwoCliConfigPath (λ tr r, unwritten tr ∧
  ∀ p, r = Ok p → ∃ home, ev (S := SubmitSig) UserHomeDir (inr home) ∈ tr ∧ p = defaultPath home).
Proof. on_call r. cbn. split; [silent|]. destruct r as [e|home]; [done|]. intros p [= <-]. exists home. split; [by left|done]. Qed.

(** The path found, or that there is none. *)
Lemma configPath_chooses f : always anything (GetKaiwoCliConfigPath (fl_config f)) (λ tr r, unwritten tr ∧
  ∀ p, r = Ok p → (p ≠ "" ∧ config_path f tr p) ∨ (p = "" ∧ no_config f tr)).
Proof.
  unfold GetKaiwoCliConfigPath, config_path, no_config, KaiwoCliConfigPathEnv.
  case_decide as Hflag; [cbn; split; [silent|]; intros p [= <-]; by left|].
  case_decide as Henv; [cbn; split; [silent|]; intros p [= <-]; by left|].
  assert (fl_config f = "" ∧ Getenv "KAIWOCONFIG" = "") as [Ef Ee].
  { destruct (decide (fl_config f = "")), (decide (Getenv "KAIWOCONFIG" = "")); tauto. }
  apply always_bind, always_bind. eapply always_mono; [apply home_reads|]. intros tr [p|e|] [Htr Hp];
    [|cbn; rewrite !app_nil_r; by split..]. destruct (Hp p eq_refl) as (home & Hhome & ->). on_call s.
  assert (unwritten (tr ++ [ev (S := SubmitSig) (Stat (defaultPath home)) s])) as Hq by (apply unwritten_app; [done|silent]).
  destruct s; cbn [mret prog_ret prog_bind always]; [|rewrite ?app_nil_r; split; [done|]..]; [| |done].
  - eapply always_mono; [apply home_reads|]. intros tr' o [Htr' Ho]. split; [by apply unwritten_app|]. intros p ->. left.
    destruct (Ho p eq_refl) as (home' & Hhome' & ->). split; [apply defaultPath_not_empty|]. exists home'.
    split; [apply elem_of_app; by right|]. split; [done|]. left. exists home. rewrite !elem_of_app. left. right. by left.
  - intros p [= <-]. right. split; [done|]. repeat (split; [done|]). exists home. rewrite !elem_of_app.
    split; [by left|]. right. by left.
Qed.

Lemma silent_closing {A} (o : outcome A) : always anything (closing o) (λ tr r, unwritten tr ∧ (r = o ∨ r = Panics)).
Proof. on_call r. cbn. split; [silent|]. destruct r; auto. Qed.

(** A configuration is written only when it could be encoded. *)
Definition written (tr : trace SubmitSig) : Prop := ∃ c, ev (S := SubmitSig) (Encode c) None ∈ tr.

Lemma written_app tr tr' : written tr' → written (tr ++ tr').
Proof. intros [c Hc]. exists c. apply elem_of_app. by right. Qed.

Lemma writeConfig_writes path c : always anything (writeConfig path c) (λ tr r, unwritten tr ∧ (r = Ok true → written tr)).
Proof.
  unfold writeConfig. apply always_orFail. on_call r. destruct r; [cbn; split; [silent|done]|]. apply always_orFail.
  on_call r. destruct r; [cbn; split; [silent|done]|]. on_call r. eapply always_mono; [apply silent_closing|].
  intros tr a [Htr Ha]. split; [do 3 (constructor; [exact (λ x, x)|]); done|]. intros ->.
  destruct r as [e|]; [by destruct Ha|]. exists c. right. right. by left.
Qed.

Lemma prompt_writes n : always anything (promptUserForConfig n) (λ tr r, unwritten tr ∧ (r = Done (Ok true) → written tr)).
Proof.
  unfold promptUserForConfig. apply always_bind, always_bind. eapply always_mono; [apply home_reads|].
  intros tr [path|e|] [Htr _]; cbn [mret prog_ret always]; [|split; [by rewrite !app_nil_r|done]..].
  apply always_bind, always_bind. on_call r. cbn [mret prog_ret always].
  destruct r as [e|[|]]; cbn [of_sum mret prog_ret always]; rewrite ?app_nil_r;
    [split; [apply unwritten_app; [done|silent]|done]| |split; [apply unwritten_app; [done|silent]|done]].
  apply always_bind. eapply always_mono; [apply (silent_rounds n askConfig); intros s; on_call r; silent|].
  intros tr1 [[[u q]|e|]|] Htr1; cbn [mret prog_ret always];
    [|rewrite ?app_nil_r; split; [apply unwritten_app; [done|]; apply unwritten_app; [silent|done]|done]..].
  apply always_bind. eapply always_mono; [apply writeConfig_writes|]. intros tr2 o [Htr2 Ho]. cbn [mret prog_ret always].
  rewrite !app_nil_r. split.
  - apply unwritten_app; [done|]. apply unwritten_app; [silent|]. by apply unwritten_app.
  - intros [= ->]. by apply written_app, written_app, written_app, Ho.
Qed.

(** What a quiet program leaves in a history. *)
Lemma traced_silent {A} f h (p : UM A) (T : trace SubmitSig → A → Prop) :
  unwritten h → always anything p (λ tr a, unwritten tr ∧ T tr a) →
  traced (submit_account f) h p (λ h' a, unwritten h' ∧ ∃ tr, h' = h ++ tr ∧ T tr a).
Proof.
  intros Hh Hp. eapply traced_mono.
  - apply traced_free with (T := λ tr a, unwritten tr ∧ T tr a). eapply always_mono; [exact Hp|]. intros tr a [Htr HT]. split; [|done].
    eapply Forall_impl; [exact Htr|]. intros [r x] He h'. destruct r; try exact I; by destruct He.
  - intros h' a _ (tr & -> & Htr & HT). split; [by apply unwritten_app|]. by exists tr.
Qed.

Lemma decode_reads s text : always anything (decode s text) (λ tr r, unwritten tr ∧
  ∀ m, r = Ok m → ev (S := SubmitSig) (Decode s) (inr m) ∈ tr ∨
    ∃ e, ev (S := SubmitSig) (Decode s) (inl e) ∈ tr ∧ UnmarshalManifest text = inr m).
Proof.
  on_call r. cbn. split; [silent|]. intros m. destruct r as [e|obj]; [|intros [= ->]; left; by left].
  destruct (UnmarshalManifest text); [done|]. intros [= ->]. right. exists e. split; [by left|done].
Qed.

Lemma text_later h h' s text : h ⊆ h' → text_read h s text → text_read h' s text.
Proof. intros Hs. destruct s; apply Hs. Qed.

Lemma manifest_later f h h' m : h ⊆ h' → manifest_in f h m → manifest_in f h' m.
Proof.
  intros Hs [Hd|(e & text & Hd & Ht & Hu)]; [left; by apply Hs|right]. exists e, text.
  split; [by apply Hs|]. split; [by eapply text_later|done].
Qed.

(** The text and then the decoder: the manifest is of what was read. *)
Lemma manifest_decoded f h tr text m :
  text_read h (manifestSource f) text →
  (ev (S := SubmitSig) (Decode (manifestSource f)) (inr m) ∈ tr ∨
    ∃ e, ev (S := SubmitSig) (Decode (manifestSource f)) (inl e) ∈ tr ∧ UnmarshalManifest text = inr m) →
  manifest_in f (h ++ tr) m.
Proof.
  intros Ht [Hd|(e & Hd & Hu)]; [left|right; exists e, text].
  - apply elem_of_app. by right.
  - split; [apply elem_of_app; by right|]. split; [|done]. eapply text_later; [|exact Ht]. set_solver.
Qed.

Lemma readManifest_reads f :
  always anything (readManifest (fl_file f)) (λ tr r, unwritten tr ∧ ∀ m, r = Ok m → manifest_in f tr m).
Proof.
  assert (∀ h text, text_read h (manifestSource f) text → unwritten h → always anything (decode (manifestSource f) text) (λ tr r,
    unwritten (h ++ tr) ∧ ∀ m, r = Ok m → manifest_in f (h ++ tr) m)) as Hdec.
  { intros h text Ht Hh. eapply always_mono; [apply decode_reads|]. intros tr o [Htr Ho]. split; [by apply unwritten_app|].
    intros m Hm. by eapply manifest_decoded, Ho. }
  unfold readManifest. unfold manifestSource in Hdec. case_decide.
  - apply always_orFail. on_call r. destruct r as [e|text]; cbn [of_sum mret prog_ret always]; [split; [silent|done]|].
    apply (Hdec [ev (S := SubmitSig) ReadStdin (inr text)]); [by left|silent].
  - apply always_orFail. on_call r. destruct r as [e|]; cbn [of_err mret prog_ret always]; [split; [silent|done]|].
    on_call r. destruct r as [e|text].
    { on_call x. cbn. split; [silent|]. by destruct x. }
    apply always_bind. eapply always_mono.
    { apply (Hdec [ev (S := SubmitSig) (OpenFile (fl_file f)) None; ev (S := SubmitSig) (ReadFile (fl_file f)) (inr text)]);
        [right; by left|silent]. }
    intros tr o [Htr Ho]. on_call x. cbn. split.
    + apply (unwritten_app (_ :: _ :: tr)); [done|silent].
    + intros m Hm. destruct x; [done|]. subst o. eapply manifest_later; [|by apply Ho]. set_solver.
Qed.

Definition config_found (f : SubmitFlags) (tr : trace SubmitSig) (r : session KaiwoCliConfig) : Prop :=
  ∀ k, r = Done (Ok k) → ∃ c, config_in f tr c ∧ k = override f c.

Lemma config_path_later f h h' path : h ⊆ h' → config_path f h path → config_path f h' path.
Proof.
  intros Hs. unfold config_path. do 2 (case_decide; [done|]). intros (home & Hh & -> & Hw). exists home.
  split; [by apply Hs|]. split; [done|]. destruct Hw as [[home' ?]|[? [c ?]]]; [left; exists home'; by apply Hs|right].
  split; [done|]. exists c. by apply Hs.
Qed.

Lemma no_config_later f h h' : h ⊆ h' → no_config f h → no_config f h'.
Proof. intros Hs (? & ? & home & ? & ?). split; [done|]. split; [done|]. exists home. auto. Qed.

Lemma config_later f h h' c : h ⊆ h' → config_in f h c → config_in f h' c.
Proof.
  intros Hs [(path & text & Hp & Hr & Hu)|[Hn ?]]; [left|right; split; [by eapply no_config_later|done]].
  exists path, text. split; [by eapply config_path_later|]. auto.
Qed.

(** What a program finds after what was read before. *)
Definition finds (f : SubmitFlags) (h : trace SubmitSig) (p : UM (session KaiwoCliConfig)) : Prop :=
  always anything p (λ tr r, unwritten tr ∧ config_found f (h ++ tr) r).

Lemma finds_after {A} f h wrap (p : UM (session A)) (k : A → UM (session KaiwoCliConfig)) (T : trace SubmitSig → A → Prop) :
  always anything p (λ tr r, unwritten tr ∧ ∀ a, r = Done (Ok a) → T tr a) →
  (∀ a tr, T tr a → finds f (h ++ tr) (k a)) → finds f h (orAsk wrap p k).
Proof.
  intros Hp Hk. apply always_bind. eapply always_mono; [exact Hp|]. intros tr [[a|e|]|] [Htr HT];
    [|(split; [by rewrite app_nil_r|intros ? [=]])..].
  eapply always_mono; [by apply (Hk a tr), HT|]. intros tr' r [Htr' Hr]. split; [by apply unwritten_app|]. by rewrite app_assoc.
Qed.

Lemma at_once_reads {A} (p : UM (outcome A)) (T : trace SubmitSig → A → Prop) :
  always anything p (λ tr r, unwritten tr ∧ ∀ a, r = Ok a → T tr a) →
  always anything (at_once p) (λ tr r, unwritten tr ∧ ∀ a, r = Done (Ok a) → T tr a).
Proof.
  intros Hp. apply always_bind. eapply always_mono; [exact Hp|]. intros tr r [Htr HT]. cbn. rewrite app_nil_r. split; [done|].
  intros a [= ->]. by apply HT.
Qed.

Lemma resolveConfig_finds n f : finds f [] (resolveConfig n f).
Proof.
  unfold resolveConfig. eapply finds_after; [apply at_once_reads, configPath_chooses|]. intros existing tr1 Hex.
  eapply finds_after; [apply at_once_reads, home_reads|]. intros configPath tr2 (home & Hhome & ->). cbn [app].
  eapply finds_after with (T := λ tr p, (p ≠ "" → config_path f ((tr1 ++ tr2) ++ tr) p) ∧
    (p = "" → fl_user f = "" ∨ no_config f ((tr1 ++ tr2) ++ tr))).
  { case_decide as Hasks.
    - destruct Hasks as [-> Hu]. destruct Hex as [[? _]|[_ Hno]]; [done|]. apply always_bind. eapply always_mono; [apply prompt_writes|].
      intros tr [[b|e|]|] [Htr Hw]; cbn; rewrite app_nil_r; (split; [done|]); intros a [= <-]. split; [|by left].
      destruct b; [|done]. intros _. destruct Hno as (Ef & Ee & _). unfold config_path.
      rewrite !decide_False by tauto. exists home. split; [rewrite !elem_of_app; auto|]. split; [done|]. right. split; [done|].
      destruct (Hw eq_refl) as [c Hc]. exists c. rewrite !elem_of_app. auto.
    - cbn. split; [silent|]. intros a [= <-]. rewrite app_nil_r. destruct Hex as [[Hne Hp]|[-> Hno]].
      + split; [|done]. intros _. eapply config_path_later; [|exact Hp]. set_solver.
      + split; [done|]. intros _. right. eapply no_config_later; [|exact Hno]. set_solver. }
  intros path tr3 [Hp Hno]. case_decide as Hpath.
  - specialize (Hp Hpath). apply always_bind, always_bind, always_bind. unfold readKaiwoCliConfig. on_call r. cbn.
    destruct r as [e|text]; cbn; [split; [silent|done]|]. destruct (UnmarshalConfig text) as [e|c] eqn:E; cbn; (split; [silent|]); [done|].
    intros k [= <-]. exists c. split; [|done]. left. exists path, text. split; [eapply config_path_later; [|exact Hp]; set_solver|].
    split; [apply elem_of_app; right; by left|done].
  - case_decide as Hu; (split; [silent|]); [done|]. intros k [= <-]. exists noConfig. split; [|done]. right. rewrite app_nil_r.
    destruct (Hno ltac:(destruct (decide (path = "")); [done|tauto])) as [?|?]; [done|]. done.
Qed.

Lemma Apply_sends f m c o1 o2 h :
  unwritten h → manifest_in f h m → config_in f h c →
  ensureObjectNestedStringField m (cli_User (override f c)) userPath = Ok o1 →
  ensureObjectNestedStringField o1 (cli_ClusterQueue (override f c)) queuePath = Ok o2 →
  traced (submit_account f) h (Apply (fl_namespace f) o2) (λ _ _, True).
Proof.
  intros Hh Hm Hc E1 E2. unfold Apply. change (if decide (fl_namespace f = "") then _ else _) with (defaultNamespace (fl_namespace f)).
  apply traced_orFail, traced_ret. destruct (ensureObjectNestedStringField o2 _ namespacePath) as [o3|e|] eqn:E3; [|done..].
  case_decide as Hag; [by apply traced_ret|]. apply traced_call. intros answer; (split; [exact I|]).
  set (get := ev (S := SubmitSig) (GetManifest _) answer).
  assert (asked_for f (h ++ [get]) o3 answer) as Hask.
  { split; [|by rewrite last_snoc]. exists m, c. split; [eapply manifest_later; [|exact Hm]; set_solver|].
    split; [eapply config_later; [|exact Hc]; set_solver|]. by eapply complete. }
  assert (unwritten (h ++ [get])) as Hget by (apply unwritten_snoc; [done|exact (λ x, x)]).
  destruct answer as [e|live].
  - destruct (IsNotFound e) eqn:He; [|by apply traced_ret]. apply traced_orFail, traced_call. intros r. split.
    + split; [done|]. by exists e.
    + apply traced_ret. destruct r; [done|]. by apply traced_ret.
  - apply traced_orFail, traced_call. intros r. split.
    + split; [done|]. by exists o3.
    + apply traced_ret. destruct r; [done|]. by apply traced_ret.
Qed.

End submit.
