(* ===== verification/ConsoleApi.v ===== *)
(** The calls of the client's terminal interface (pkg/tui, pkg/cli/utils): the terminal, the
    forms, the API server, and the streams into containers. *)

From stdpp Require Import gmap strings list.
From Stdlib Require Import ZArith Lia.
From S2P Require Import Prelude Types WorkloadTypes.

(** * Pods, as far as the client looks at them *)

(** The state of a container: the fields that are set. *)
Record ContainerState := { cst_Running : option Z; cst_Waiting : option string; cst_Terminated : option string }.
Record ContainerStatus := { ctr_Name : string; ctr_State : ContainerState }.
Record ContainerPort := { cp_Name : string; cp_ContainerPort : Z; cp_Protocol : string }.

(** [cc_Limits] are the names of the resources in the limits. *)
Record ClientContainer := { cc_Name : string; cc_Ports : list ContainerPort; cc_Limits : list string }.

Record ClientPod := {
  cpod_Name : string;
  cpod_Phase : string;
  cpod_Containers : list ClientContainer;
  cpod_ContainerStatuses : list ContainerStatus;
  cpod_InitContainerStatuses : list ContainerStatus
}.

(** A target port is a number or a name. *)
Record ServicePort := { svp_Name : string; svp_TargetPort : Z + string; svp_Protocol : string }.
Record ClientService := { csvc_Name : string; csvc_Selector : gmap string string; csvc_Ports : list ServicePort }.

Record PortForwardInfo := { pf_PodName : string; pf_ContainerName : string; pf_Port : Z }.

(** * The table *)

Inductive Msg := KeyMsg (key : string) | OtherMsg.
Inductive StepResult := StepResultOk | StepResultErr | StepResultPrevious | StepResultQuit | NoResult.

Definition resultText (r : StepResult) : string :=
  match r with
  | StepResultOk => "ok" | StepResultErr => "err" | StepResultPrevious => "previous" | StepResultQuit => "quit" | NoResult => ""
  end.

(** [model]; the table of the library is its rows and its cursor. *)
Record TableModel := {
  tm_columns : list (string * Z);
  tm_rows : list (list string);
  tm_cursor : Z;
  tm_selectedRow : option (list string);
  tm_title : string;
  tm_selectedIndex : Z;
  tm_result : StepResult
}.

(** "Update is the Bubble Tea update loop" of the table: keys move the cursor among the
    rows. *)
Class TableLib := {
  table_update : nat → Msg → Z → Z;
  table_update_range n msg c : 0 <= c < Z.of_nat n → 0 <= table_update n msg c < Z.of_nat n
}.

(** * Calls *)

(** How forwarding ends, once it was asked for. *)
Inductive ForwardAnswer :=
| NoTransport (e : error) | NoForwarder (e : error) | NotReady (e : error) | ForwardSpinner (e : error) | Interrupted | Broken (e : error).

(** How a command in a container ends. *)
Inductive ExecAnswer := NoExecutor (e : error) | Cancelled | Streamed (err : option error).

(** The spinner: the action ran and the spinner is gone, or it failed, with the action run
    or not. *)
Inductive spinner := SpinOk | SpinErr (ran : bool) (e : error).

Inductive client_req :=
| NewClients
| RunProgram (m : TableModel)
| StartSpinner (title : string)
| AskLogs (lines : string) (follow : bool)
| AskCommand (command placeholder : string) (interactive tty : bool)
| AskDelete (description : string)
| AskPort (port : string) (confirm : bool)
| AskLocalPort (info : PortForwardInfo) (port host : string)
| ListKaiwo (kind : WorkloadKind) (labels : gmap string string)
| GetKaiwo (kind : WorkloadKind) (namespace name : string)
| ListPodsIn (namespace : string) (labels : gmap string string)
| ListPodsSelected (namespace : string) (selector : gmap string string)
| DeleteKaiwo (w : KaiwoWorkload)
| LookPath (command : string)
| Listen (host : string) (port : Z)
| StreamLogs (pod container : string) (tail : option Z) (follow : bool) (namespace : string)
| ExecStream (pod container namespace : string) (command : list string) (interactive tty : bool)
| Forward (namespace pod host : string) (localPort port : Z)
| CurrentUser
| Hostname.

(** The messages of a program are those the terminal sends before it quits or is told
    to. *)
Definition client_resp (r : client_req) : Type :=
  match r with
  | NewClients | DeleteKaiwo _ | LookPath _ | Listen _ _ | StreamLogs _ _ _ _ _ => option error
  | RunProgram _ => error + list Msg
  | StartSpinner _ => spinner
  | AskLogs _ _ => error + (string * bool)
  | AskCommand _ _ _ _ => error + (string * bool * bool)
  | AskDelete _ => error + bool
  | AskPort _ _ => error + (string * bool)
  | AskLocalPort _ _ _ => error + (string * string * bool)
  | ListKaiwo _ _ => error + list KaiwoWorkload
  | GetKaiwo _ _ _ => error + KaiwoWorkload
  | ListPodsIn _ _ | ListPodsSelected _ _ => error + list ClientPod
  | ExecStream _ _ _ _ _ _ => ExecAnswer
  | Forward _ _ _ _ _ => ForwardAnswer
  | CurrentUser | Hostname => error + string
  end.

Definition ClientSig : sig := Sig client_req client_resp.
Abbreviation CM := (prog ClientSig).

(** Where the user is asked something. *)
Definition asks_user (e : event ClientSig) : bool :=
  match projT1 e with
  | RunProgram _ | AskLogs _ _ | AskCommand _ _ _ _ | AskDelete _ | AskPort _ _ | AskLocalPort _ _ _ => true
  | _ => false
  end.
