(* ===== verification/Console.v ===== *)
(** The client's terminal interface (pkg/tui, pkg/cli: list.go, logs.go, exec.go,
    pkg/cli/utils): tables to pick from, and the steps through types, workloads, pods and
    actions, as a stack machine over the state of the run. *)

From stdpp Require Import gmap strings list pretty.
From Stdlib Require Import ZArith Lia.
From S2P Require Import Prelude History Text Float64 Types GpuResources WorkloadTypes Labels Users Interactive ConsoleApi.

Section console.
Context `{Host} `{TableLib} (ErrorText : error → string) (FormatRFC3339 : Z → string) (ParseIP : string → bool).

Definition restating (msg : string) (e : error) : error := Errorf (msg +:+ ": " +:+ ErrorText e).

(** * Tables *)

Definition set_result (r : StepResult) (m : TableModel) : TableModel :=
  {| tm_columns := tm_columns m; tm_rows := tm_rows m; tm_cursor := tm_cursor m; tm_selectedRow := tm_selectedRow m;
     tm_title := tm_title m; tm_selectedIndex := tm_selectedIndex m; tm_result := r |}.

Definition set_selected (row : option (list string)) (i : Z) (m : TableModel) : TableModel :=
  {| tm_columns := tm_columns m; tm_rows := tm_rows m; tm_cursor := tm_cursor m; tm_selectedRow := row;
     tm_title := tm_title m; tm_selectedIndex := i; tm_result := tm_result m |}.

Definition set_cursor (c : Z) (m : TableModel) : TableModel :=
  {| tm_columns := tm_columns m; tm_rows := tm_rows m; tm_cursor := c; tm_selectedRow := tm_selectedRow m;
     tm_title := tm_title m; tm_selectedIndex := tm_selectedIndex m; tm_result := tm_result m |}.

(** The model after a message, and whether the program quits. *)
Definition Update (msg : Msg) (m : TableModel) : TableModel * bool :=
  let moved := (set_cursor (table_update (length (tm_rows m)) msg (tm_cursor m)) m, false) in
  match msg with
  | OtherMsg => moved
  | KeyMsg k =>
      if decide (k = "esc" ∨ k = "backspace") then (set_result StepResultPrevious m, true)
      else if decide (k = "q" ∨ k = "ctrl+c") then (set_result StepResultQuit (set_selected None (tm_selectedIndex m) m), true)
      else if decide (k = "enter") then
        (set_result StepResultOk (set_selected (Some (default [] (tm_rows m !! Z.to_nat (tm_cursor m)))) (tm_cursor m) m), true)
      else moved
  end.

(** The program handles messages until it quits; it may be ended from outside before. *)
Fixpoint handleMessages (msgs : list Msg) (m : TableModel) : TableModel :=
  match msgs with
  | [] => m
  | msg :: msgs' => let '(m', quit) := Update msg m in if quit : bool then m' else handleMessages msgs' m'
  end.

Definition columnWidth (data : list (list string)) (j : nat) (title : string) : Z :=
  foldl (λ w row, Z.max w (Z.of_nat (String.length (default "" (row !! j))))) (Z.of_nat (String.length title)) data.

(** The selected index and the result. *)
Definition RunSelectTable (data : list (list string)) (columns : list string) (title : string) : CM (session (Z * StepResult)) :=
  match data with
  | [] => failing (Errorf "no data to show")
  | first :: _ =>
      let numColumns := length first in
      if existsb (λ row, negb (length row =? numColumns)%nat) data then failing (Errorf "column count mismatch")
      else if decide (length columns < numColumns)%nat then crashing
      else
        let m := {| tm_columns := imap (λ j c, (c, columnWidth data j c)) (take numColumns columns); tm_rows := data; tm_cursor := 0;
                    tm_selectedRow := None; tm_title := title; tm_selectedIndex := 0; tm_result := NoResult |} in
        r ← call (S := ClientSig) (RunProgram m);
        match r with
        | inl e => failing (restating "error running tea" e)
        | inr msgs => let om := handleMessages msgs m in finish (tm_selectedIndex om, tm_result om)
        end
  end.

(** [data[i][j]]. *)
Definition cellAt (data : list (list string)) (i : Z) (j : nat) : option string :=
  if decide (i < 0) then None else row ← data !! Z.to_nat i; row !! j.

Definition orPanic {A} (x : option A) : CM (session A) := match x with Some a => finish a | None => crashing end.

Definition spinning (title : string) (action : CM (outcome unit)) : CM (session unit) :=
  s ← call (S := ClientSig) (StartSpinner title);
  match s with
  | SpinOk => at_once action
  | SpinErr true e => _ ← action; failing e
  | SpinErr false e => failing e
  end.

(** * The state of a run *)

Record RunState := {
  rs_Workload : option KaiwoWorkload;
  rs_WorkloadType : string;
  rs_User : string;
  rs_Namespace : string;
  rs_PodName : string;
  rs_ContainerName : string;
  rs_Predicates : list (ClientPod → bool)
}.

Definition set_Workload (w : option KaiwoWorkload) (s : RunState) : RunState :=
  {| rs_Workload := w; rs_WorkloadType := rs_WorkloadType s; rs_User := rs_User s; rs_Namespace := rs_Namespace s;
     rs_PodName := rs_PodName s; rs_ContainerName := rs_ContainerName s; rs_Predicates := rs_Predicates s |}.

Definition set_WorkloadType (t : string) (s : RunState) : RunState :=
  {| rs_Workload := rs_Workload s; rs_WorkloadType := t; rs_User := rs_User s; rs_Namespace := rs_Namespace s;
     rs_PodName := rs_PodName s; rs_ContainerName := rs_ContainerName s; rs_Predicates := rs_Predicates s |}.

Definition set_Container (pod container : string) (s : RunState) : RunState :=
  {| rs_Workload := rs_Workload s; rs_WorkloadType := rs_WorkloadType s; rs_User := rs_User s; rs_Namespace := rs_Namespace s;
     rs_PodName := pod; rs_ContainerName := container; rs_Predicates := rs_Predicates s |}.

(** The functions of type [RunStep]. *)
Inductive Step :=
| SelectWorkloadType | SelectWorkload | SelectWorkloadAction
| SelectPodAndContainer | SelectAndDoAction | ViewLogsAction | MonitorAction | CommandAction
| PortForward | DeleteWorkload.

Definition StepM : Type := CM (session (StepResult * option Step * RunState)).

(** * Selecting a workload *)

Definition RunSelectWorkloadType (s : RunState) : StepM :=
  let data := [["job"]; ["service"]] in
  '(selectedRow, result) ←! RunSelectTable data ["Workload type"] "Select the resource type" as (Wrapf "failed to select the resource");
  t ←! match result with StepResultOk => orPanic (cellAt data selectedRow 0) | _ => finish "" end as id;
  finish (result, Some SelectWorkload, set_WorkloadType t s).

Definition KaiwoUsernameLabel : string := "kaiwo-cli/username".

Definition userSelector (s : RunState) : gmap string string := if decide (rs_User s ≠ "") then {[ KaiwoUsernameLabel := rs_User s ]} else ∅.

(** [loadReferences]. *)
Definition listWorkloads (s : RunState) : CM (outcome (list KaiwoWorkload)) :=
  let listed kind what :=
    r ← call (S := ClientSig) (ListKaiwo kind (userSelector s));
    mret (match r with inl e => Err (restating ("failed to list Kaiwo " +:+ what) e) | inr l => Ok l end) in
  if decide (rs_WorkloadType s = "job") then listed KindKaiwoJob "jobs"
  else if decide (rs_WorkloadType s = "service") then listed KindKaiwoService "services"
  else mret (Ok []).

(** The error of the spinner comes before that of the list. *)
Definition fetchWorkloads (s : RunState) : CM (session (list KaiwoWorkload)) :=
  sp ← call (S := ClientSig) (StartSpinner "Listing workloads");
  match sp with
  | SpinErr ran e => if ran : bool then _ ← listWorkloads s; failing e else failing e
  | SpinOk => l ←! at_once (listWorkloads s) as (Wrapf "failed to fetch workloads"); finish l
  end.

Definition workloadRow (w : KaiwoWorkload) : list string := [kw_Name w; statusText (cs_Status (kw_Status w)); kw_User w].

Definition runSelectWorkload (s : RunState) : StepM :=
  l ←! fetchWorkloads s as id;
  if decide (l = []) then finish (StepResultPrevious, None, s)
  else
    '(selectedRow, result) ←! RunSelectTable (map workloadRow l) ["Name"; "WorkloadStatus"; "Kaiwo user"]
      ("Select the " +:+ rs_WorkloadType s +:+ " workload") as (Wrapf "failed to select the workload");
    w ←! match result with
         | StepResultOk => w ←! orPanic (if decide (selectedRow < 0) then None else l !! Z.to_nat selectedRow) as id; finish (Some w)
         | _ => finish None
         end as id;
    finish (result, Some SelectWorkloadAction, set_Workload w s).

Definition workloadActions : list (string * Step) :=
  [("View pods", SelectPodAndContainer); ("Port-forward", PortForward); ("Delete workload", DeleteWorkload)].

Definition podActions : list (string * Step) :=
  [("View logs", ViewLogsAction); ("Monitor GPUs", MonitorAction); ("Run command", CommandAction)].

(** [actionMap[action]]: nil for an unknown action. *)
Definition actionOf (actions : list (string * Step)) (name : string) : option Step :=
  snd <$> List.find (λ a, bool_decide (a.1 = name)) actions.

(** Both action menus: one column, and the step its row names. *)
Definition selectAction (actions : list (string * Step)) (title failure : string) (s : RunState) : StepM :=
  let data := map (λ a, [a.1]) actions in
  '(selectedRow, result) ←! RunSelectTable data ["Action"] title as (Wrapf failure);
  match result with
  | StepResultOk => name ←! orPanic (cellAt data selectedRow 0) as id; finish (result, actionOf actions name, s)
  | _ => finish (result, None, s)
  end.

Definition runSelectWorkloadAction (s : RunState) : StepM :=
  selectAction workloadActions "Select the action you wish to take on the workload" "failed to select the action" s.

(** * Selecting a pod *)

Definition GetWorkloadPods (w : KaiwoWorkload) : CM (outcome (list ClientPod)) :=
  items ←? (r ← call (S := ClientSig) (ListPodsIn (kw_Namespace w) {[ KaiwoRunIdLabel := kw_UID w ]}); mret (of_sum r)) else "failed to list pods";
  mret (Ok items).

Definition applyPredicates (predicates : list (ClientPod → bool)) (p : ClientPod) : bool := forallb (λ predicate, predicate p) predicates.

Definition containerStatusText (s : ContainerState) : string :=
  match cst_Running s, cst_Waiting s, cst_Terminated s with
  | Some startedAt, _, _ => "Running since " +:+ FormatRFC3339 startedAt
  | None, Some reason, _ => "Waiting (" +:+ reason +:+ ")"
  | None, None, Some reason => "Terminated (" +:+ reason +:+ ")"
  | None, None, None => "N/A"
  end.

Definition formatContainerRow (p : ClientPod) (c : ContainerStatus) : list string :=
  [cpod_Name p; cpod_Phase p; ctr_Name c; containerStatusText (ctr_State c)].

Definition getContainerData (p : ClientPod) : list (list string) :=
  map (formatContainerRow p) (cpod_ContainerStatuses p ++ cpod_InitContainerStatuses p).

Definition gatherPodData (pods : list ClientPod) (predicates : list (ClientPod → bool)) : list (list string) :=
  filter (λ p, applyPredicates predicates p = true) pods ≫= getContainerData.

Definition containerSelectColumns : list string := ["Pod name"; "Pod phase"; "Container name"; "Container status"].

Definition deref (s : RunState) : CM (session KaiwoWorkload) := orPanic (rs_Workload s).

Definition RunSelectPodAndContainer (s : RunState) : StepM :=
  w ←! deref s as id;
  allPods ←! at_once (GetWorkloadPods w) as (Wrapf "failed to list pods");
  if decide (length allPods = 0%nat) then finish (StepResultPrevious, None, s)
  else
    let data := gatherPodData allPods (rs_Predicates s) in
    '(selectedRow, result) ←! RunSelectTable data containerSelectColumns "Select pod and container" as (Wrapf "failed to select the pod");
    '(pod, container) ←!
      match result with
      | StepResultOk =>
          pod ←! orPanic (cellAt data selectedRow 1) as id;
          container ←! orPanic (cellAt data selectedRow 3) as id;
          finish (pod, container)
      | _ => finish ("", "")
      end as id;
    finish (result, Some SelectAndDoAction, set_Container pod container s).

Definition runSelectAndDoAction (s : RunState) : StepM :=
  w ←! deref s as id;
  selectAction podActions
    ("Select action to perform on " +:+ rs_WorkloadType s +:+ "/" +:+ kw_Name w +:+ ", pod: " +:+ rs_PodName s +:+ ", container " +:+ rs_ContainerName s)
    "failed to select the pod" s.

(** * Actions on a pod *)

(** [OutputLogs], up to the stream: reading it only prints. *)
Definition OutputLogs (pod container : string) (tailLines : Z) (namespace : string) (follow : bool) : CM (outcome unit) :=
  r ← call (S := ClientSig) (StreamLogs pod container (if decide (0 < tailLines) then Some tailLines else None) follow namespace);
  mret (match r with
        | Some e => Err (Wrapf ("error streaming logs for pod " +:+ pod +:+ " container " +:+ container) e)
        | None => Ok ()
        end).

Definition ParseCommand (command : string) : list string := ["/bin/sh"; "-c"; command].
Definition DefaultMonitorCommand : string := "watch -n 1 rocm-smi".

Definition ValidateCommand (command : string) : CM (outcome unit) :=
  r ← call (S := ClientSig) (LookPath command);
  mret (match r with Some _ => Err (Errorf ("error: " +:+ command +:+ " not found in the container")) | None => Ok () end).

Definition ExecInContainer (pod container namespace : string) (command : list string) (interactive tty : bool) : CM (outcome unit) :=
  r ← call (S := ClientSig) (ExecStream pod container namespace command interactive tty);
  mret (match r with
        | NoExecutor e => Err (Wrapf "failed to create SPDY executor" e)
        | Cancelled | Streamed None => Ok ()
        | Streamed (Some e) => Err (Wrapf "stream execution error" e)
        end).

Definition askLines (entered : string * bool) : CM (session (string * bool + Z * bool)) :=
  r ← call (S := ClientSig) (AskLogs entered.1 entered.2);
  mret (match r with
        | inl e => Done (Err (Wrapf "failed to fetch input" e))
        | inr (lines, follow) =>
            let lines := if decide (lines = "") then "-1" else lines in
            match Str.Atoi lines with
            | Some numLines => if decide (numLines = 0) then Done (Ok (inl (lines, follow))) else Done (Ok (inr (numLines, follow)))
            | None => Done (Ok (inl (lines, follow)))
            end
        end).

Definition runViewLogsAction (n : nat) (s : RunState) : StepM :=
  '(numLines, follow) ←! rounds n askLines ("", true) as id;
  w ←! deref s as id;
  _ ←! at_once (OutputLogs (rs_PodName s) (rs_ContainerName s) numLines (kw_Namespace w) follow) as (Wrapf "failed to output the logs");
  finish (StepResultOk, None, s).

Definition runMonitorAction (s : RunState) : StepM :=
  let command := ParseCommand DefaultMonitorCommand in
  _ ←! at_once (ValidateCommand "/bin/sh") as (Wrapf "failed to validate command");
  w ←! deref s as id;
  _ ←! at_once (ExecInContainer (rs_PodName s) (rs_ContainerName s) (kw_Namespace w) command true true) as (Wrapf "failed to run monitor command");
  finish (StepResultOk, None, s).

Definition askCommand (entered : string * string * bool * bool) : CM (session (string * string * bool * bool + list string * bool * bool)) :=
  let '(execCommand, placeholder, interactive, tty) := entered in
  r ← call (S := ClientSig) (AskCommand execCommand placeholder interactive tty);
  match r with
  | inl e => failing (Wrapf "failed to fetch input" e)
  | inr (execCommand, interactive, tty) =>
      if decide (execCommand = "") then finish (inl (execCommand, "Please enter command to run", interactive, tty))
      else
        _ ←! at_once (ValidateCommand "/bin/sh") as (Wrapf "failed to validate command");
        finish (inr (ParseCommand execCommand, interactive, tty))
  end.

Definition runCommandAction (n : nat) (s : RunState) : StepM :=
  '(command, interactive, tty) ←! rounds n askCommand ("", "Command to run", true, true) as id;
  w ←! deref s as id;
  _ ←! at_once (ExecInContainer (rs_PodName s) (rs_ContainerName s) (kw_Namespace w) command interactive tty) as (Wrapf "failed to run command");
  finish (StepResultOk, None, s).
End console.
