(* ===== verification/ConsoleSteps.v ===== *)
(** Deleting and forwarding from the terminal interface, the loop over its steps, and the
    commands [manage], [logs], [exec] and [monitor] (pkg/tui/list, pkg/tui/components,
    pkg/cli). *)

From stdpp Require Import gmap strings list pretty.
From Stdlib Require Import ZArith Lia.
From S2P Require Import Prelude History Text Float64 Types GpuResources WorkloadTypes Labels Users Interactive ConsoleApi Console.

Section steps.
Context `{Host} `{TableLib} (ErrorText : error → string) (FormatRFC3339 : Z → string) (ParseIP : string → bool).

(** * Deleting *)

Definition deleteDescription (s : RunState) (w : KaiwoWorkload) : string :=
  "Confirm that you want to delete the " +:+ rs_WorkloadType s +:+ " workload '" +:+ kw_Name w +:+ "' in namespace " +:+
  rs_Namespace s +:+
  ". This will also remove any linked resources, such as automatically created PVCs and ConfigMaps".

(** The error of the spinner comes before that of the call. *)
Definition runDeleteWorkload (s : RunState) : StepM :=
  w ←! deref s as id;
  confirmDelete ←! at_once (r ← call (S := ClientSig) (AskDelete (deleteDescription s w)); mret (of_sum r)) as (Wrapf "failed to fetch input");
  if negb confirmDelete then finish (StepResultPrevious, None, s)
  else
    _ ←! spinning "Deleting workload"
           (_ ←? (r ← call (S := ClientSig) (DeleteKaiwo w); mret (of_err r)) else "failed to delete workload"; mret (Ok ())) as id;
    finish (StepResultQuit, None, s).

(** * Forwarding *)

Inductive PortForwardTarget :=
| ServicePortForwardTarget (service : ClientService) (servicePort : ServicePort)
| ContainerPortForwardTarget (containerName podName : string) (port : Z) (portName protocol : string)
| ContainerAnyPortForwardTarget (containerName podName : string).

(** [GetTableRow], in the order of the columns. *)
Definition targetRow (t : PortForwardTarget) : list string :=
  match t with
  | ServicePortForwardTarget svc p =>
      ["Service"; csvc_Name svc; svp_Name p; match svp_TargetPort p with inl n => pretty n | inr name => name end; svp_Protocol p]
  | ContainerPortForwardTarget c pod port portName protocol =>
      ["Container port"; c +:+ " / " +:+ portName +:+ " (in pod: " +:+ pod +:+ ")"; portName; pretty port; protocol]
  | ContainerAnyPortForwardTarget c pod => ["Container"; c +:+ " (pod: " +:+ pod +:+ ")"; ""; "Any"; ""]
  end.

(** [IntValue] of a target port: zero for a name. *)
Definition intValue (p : Z + string) : Z := match p with inl n => n | inr name => Text.AtoiValue name end.

Definition portsOf (p : ClientPod) : list (ClientContainer * ContainerPort) := cpod_Containers p ≫= λ c, (λ port, (c, port)) <$> cc_Ports c.

Definition askPort (entered : string * bool) : CM (session (string * bool + option Z)) :=
  r ← call (S := ClientSig) (AskPort entered.1 entered.2);
  mret (match r with
        | inl e => Done (Err (Wrapf "failed to fetch input" e))
        | inr (port, confirm) =>
            if negb confirm then Done (Ok (inr None))
            else match Str.Atoi port with
                 | Some intPort => if decide (intPort < 1 ∨ 65535 < intPort) then Done (Ok (inl (port, confirm))) else Done (Ok (inr (Some intPort)))
                 | None => Done (Ok (inl (port, confirm)))
                 end
        end).

(** [GetInfo]; [None] when the user gave up. *)
Definition GetInfo (n : nat) (namespace : string) (t : PortForwardTarget) : CM (session (option PortForwardInfo)) :=
  match t with
  | ServicePortForwardTarget svc p =>
      r ← call (S := ClientSig) (ListPodsSelected namespace (csvc_Selector svc));
      match r with
      | inl e => failing (Errorf ("failed to list pods for service " +:+ ErrorText e))
      | inr [] => failing (Errorf ("no pods found for service " +:+ csvc_Name svc))
      | inr (pod :: _) =>
          match List.find (λ cp, bool_decide (cp_ContainerPort cp.2 = intValue (svp_TargetPort p))) (portsOf pod) with
          | Some (c, port) =>
              finish (Some {| pf_PodName := cpod_Name pod; pf_ContainerName := cc_Name c; pf_Port := cp_ContainerPort port |})
          | None =>
              failing (Errorf ("no pods with matching container ports found for service " +:+ csvc_Name svc +:+ " and port " +:+ svp_Name p))
          end
      end
  | ContainerPortForwardTarget c pod port _ _ =>
      finish (Some {| pf_PodName := pod; pf_ContainerName := c; pf_Port := port |})
  | ContainerAnyPortForwardTarget c pod =>
      port ←! rounds n askPort ("", true) as id;
      finish (match port with Some p => Some {| pf_PodName := pod; pf_ContainerName := c; pf_Port := p |} | None => None end)
  end.

(** [^([a-zA-Z0-9]([-a-zA-Z0-9]*[a-zA-Z0-9])?\.)*[a-zA-Z]([-a-zA-Z0-9]*[a-zA-Z0-9])?$]: labels
    between dots, the last one starting with a letter. *)
Definition isWord (c : Ascii.ascii) : bool := isLetter c || isNumeral c.

Definition hostLabel (l : list Ascii.ascii) : bool :=
  match l, last l with
  | c :: _, Some d => isWord c && isWord d && forallb (λ c, isWord c || bool_decide (c = Naming.dashChar)) l
  | _, _ => false
  end.

Definition hostnameMatches (host : string) : bool :=
  let labels := map Text.chars (Str.Split host Naming.dotChar) in
  forallb hostLabel labels && match last labels with Some (c :: _) => isLetter c | _ => false end.

Definition isValidHost (host : string) : bool := ParseIP host || bool_decide (String.length host <= 255)%nat && hostnameMatches host.

Definition isPortFree (host : string) (port : Z) : CM bool := r ← call (S := ClientSig) (Listen host port); mret (match r with Some _ => false | None => true end).

(** One form: the local port and the host, or the user's no. *)
Definition askLocalPort (info : PortForwardInfo) (entered : string * string) : CM (session (string * string + Z * string * bool)) :=
  r ← call (S := ClientSig) (AskLocalPort info entered.1 entered.2);
  match r with
  | inl e => failing (Wrapf "failed to fetch input" e)
  | inr (port, host, confirm) =>
      let intPort := Text.AtoiValue port in
      let again := if confirm : bool then finish (inl (port, host)) else finish (inr (intPort, host, false)) in
      match Str.Atoi port with
      | None => again
      | Some _ =>
          if decide (intPort < 1 ∨ 65535 < intPort) then again
          else if negb (isValidHost host) then again
          else
            free ← isPortFree host intPort;
            if negb free then again else finish (inr (intPort, host, confirm))
      end
  end.

Definition promptForLocalPort (n : nat) (info : PortForwardInfo) : CM (session (Z * string * bool)) :=
  rounds n (askLocalPort info) (pretty (pf_Port info), "localhost").

(** What [doPortForward] returns: whether the user gave up, or the error. *)
Definition doPortForward (n : nat) (s : RunState) (t : PortForwardTarget) : CM (session bool) :=
  info ←! GetInfo n (rs_Namespace s) t as (Wrapf "failed to get pod info after retries");
  match info with
  | None => finish true
  | Some info =>
      '(localPort, host, confirm) ←! promptForLocalPort n info as (Wrapf "failed to get local port");
      if negb confirm then finish true
      else
        r ← call (S := ClientSig) (Forward (rs_Namespace s) (pf_PodName info) host localPort (pf_Port info));
        match r with
        | NoTransport e => failing (Wrapf "failed to create SPDY transport" e)
        | NoForwarder e => failing (Wrapf "failed to create port forwarder" e)
        | NotReady e | ForwardSpinner e => failing e
        | Interrupted => finish false
        | Broken e => failing (Wrapf "port forwarding error" e)
        end
  end.

(** It returns the items of an empty list. *)
Definition GetWorkloadServices (w : KaiwoWorkload) : outcome (list ClientService) := Ok [].

Definition serviceTargets (services : list ClientService) : list PortForwardTarget :=
  services ≫= λ svc, ServicePortForwardTarget svc <$> csvc_Ports svc.

Definition portTargets (pods : list ClientPod) : list PortForwardTarget :=
  pods ≫= λ pod, (λ cp, ContainerPortForwardTarget (cc_Name cp.1) (cpod_Name pod) (cp_ContainerPort cp.2) (cp_Name cp.2) (cp_Protocol cp.2))
                   <$> portsOf pod.

Definition anyTargets (pods : list ClientPod) : list PortForwardTarget :=
  pods ≫= λ pod, (λ c, ContainerAnyPortForwardTarget (cc_Name c) (cpod_Name pod)) <$> cpod_Containers pod.

Definition portForwardColumns : list string := ["Type"; "Name"; "Port name"; "Port"; "Protocol"].

Definition discoverServices (w : KaiwoWorkload) : CM (session (list ClientService)) :=
  sp ← call (S := ClientSig) (StartSpinner "Discovering services");
  match sp with
  | SpinErr _ e => failing e
  | SpinOk => services ←! at_once (mret (GetWorkloadServices w)) as (restating ErrorText "failed to get services for workload"); finish services
  end.

(** An error of the forwarding is dropped. *)
Definition runPortForward (n : nat) (s : RunState) : StepM :=
  w ←! deref s as id;
  services ←! discoverServices w as id;
  workloadPods ←! at_once (GetWorkloadPods w) as (restating ErrorText "failed to get pods for workload");
  let targets := serviceTargets services ++ portTargets workloadPods ++ anyTargets workloadPods in
  '(index, result) ←! RunSelectTable ErrorText (map targetRow targets) portForwardColumns "Select the target" as id;
  match result with
  | StepResultOk =>
      t ←! orPanic (if decide (index < 0) then None else targets !! Z.to_nat index) as id;
      r ← doPortForward n s t;
      match r with
      | Done (Ok true) => finish (StepResultPrevious, None, s)
      | Done (Ok false) | Done (Err _) => finish (StepResultOk, None, s)
      | Done Panics => crashing
      | Asking => mret Asking
      end
  | _ => finish (result, None, s)
  end.

(** * The steps *)

Definition runStep (n : nat) (step : Step) (s : RunState) : StepM :=
  match step with
  | SelectWorkloadType => RunSelectWorkloadType ErrorText s
  | SelectWorkload => runSelectWorkload ErrorText s
  | SelectWorkloadAction => runSelectWorkloadAction ErrorText s
  | SelectPodAndContainer => RunSelectPodAndContainer ErrorText FormatRFC3339 s
  | SelectAndDoAction => runSelectAndDoAction ErrorText s
  | ViewLogsAction => runViewLogsAction n s
  | MonitorAction => runMonitorAction s
  | CommandAction => runCommandAction n s
  | PortForward => runPortForward n s
  | DeleteWorkload => runDeleteWorkload s
  end.

(** One turn of the loop; the top of the stack comes first. *)
Definition turn (n : nat) (c : list Step * RunState) : CM (session (list Step * RunState + unit)) :=
  let '(stack, s) := c in
  match stack with
  | [] => finish (inr ())
  | currentStep :: below =>
      '(result, nextStep, s) ←! runStep n currentStep s as (Wrapf "step execution failed");
      match result with
      | StepResultOk => finish (match nextStep with Some next => inl (next :: stack, s) | None => inr () end)
      | StepResultPrevious => finish (inl (below, s))
      | StepResultQuit => finish (inr ())
      | _ => failing (Errorf ("unexpected result from step (no error reported): " +:+ resultText result))
      end
  end.

Definition RunSteps (n : nat) (s : RunState) (entrypoint : Step) : CM (session unit) := rounds n (turn n) ([entrypoint], s).

Definition startState (workloadType user namespace : string) : RunState :=
  {| rs_Workload := None; rs_WorkloadType := workloadType; rs_User := user; rs_Namespace := namespace; rs_PodName := "";
     rs_ContainerName := ""; rs_Predicates := [] |}.

Definition getClients : CM (session unit) := at_once (r ← call (S := ClientSig) NewClients; mret (of_err r)).

Definition RunList (n : nat) (workloadType workloadName namespace user : string) : CM (session unit) :=
  if decide (workloadType = "" ∧ workloadName ≠ "") then failing (Errorf "cannot determine workload from name without a type")
  else
    _ ←! getClients as (Wrapf "failed to get k8s clients");
    _ ←! RunSteps n (startState workloadType user namespace) SelectWorkloadType as (Wrapf "failed to run steps");
    finish ().

(** The command [manage]. Its own flags bind [listUser], [namespaceList] and [allUsers]; what it
    passes on as the user is the variable the flag of [submit] binds. *)
Record ListFlags := { lf_listUser : string; lf_namespaceList : string; lf_allUsers : bool }.

Definition runListCmd (n : nat) (f : ListFlags) (user : string) (args : list string) : CM (session unit) :=
  let workloadType := default "" (args !! 0%nat) in
  let workloadName := default "" (args !! 1%nat) in
  _ ←! (if decide (lf_listUser f = "" ∧ lf_allUsers f = false) then
          u ←! at_once (GetCurrentUser (call (S := ClientSig) CurrentUser) (call (S := ClientSig) Hostname)) as (restating ErrorText "could not get current user");
          finish u
        else finish (lf_listUser f)) as id;
  RunList n workloadType workloadName (lf_namespaceList f) user.

(** * The commands on one workload *)

Definition IsGPUPod (p : ClientPod) : bool :=
  existsb (λ c, existsb (λ r, bool_decide (r = "nvidia.com/gpu" ∨ r = "amd.com/gpu")) (cc_Limits c)) (cpod_Containers p).

Definition GetWorkload (selector namespace : string) : CM (session KaiwoWorkload) :=
  match Str.Split selector (Ascii.ascii_of_nat 47) with
  | [type_; name] =>
      let get kind :=
        r ← call (S := ClientSig) (GetKaiwo kind namespace name);
        match r with
        | inl e => failing (restating ErrorText ("error getting Kaiwo " +:+ type_ +:+ " " +:+ namespace +:+ "/" +:+ name) e)
        | inr w => finish w
        end in
      if decide (type_ = "job") then get KindKaiwoJob
      else if decide (type_ = "service") then get KindKaiwoService
      else failing (Errorf ("invalid workload type: " +:+ type_ +:+ ", must be either 'job' or 'service'"))
  | _ => failing (Errorf ("invalid workload selector, must be type/name: " +:+ selector))
  end.

(** The pod, the container, and whether the user gave up. *)
Definition ChoosePodAndContainer (w : KaiwoWorkload) (predicates : list (ClientPod → bool)) : CM (session (string * string * bool)) :=
  let s := {| rs_Workload := Some w; rs_WorkloadType := ""; rs_User := ""; rs_Namespace := ""; rs_PodName := "";
              rs_ContainerName := ""; rs_Predicates := predicates |} in
  '(result, _, s) ←! RunSelectPodAndContainer ErrorText FormatRFC3339 s as id;
  finish (rs_PodName s, rs_ContainerName s, match result with StepResultQuit | StepResultPrevious => true | _ => false end).

(** What [logs] and [exec] share: the workload, its pods, and the choice among them. *)
Definition chooseOf (selector namespace : string) (predicates : list (ClientPod → bool)) : CM (session (string * string * bool)) :=
  _ ←! getClients as (Wrapf "failed to get k8s clients");
  w ←! GetWorkload selector namespace as (Wrapf "failed to get workload and object key");
  allPods ←! at_once (GetWorkloadPods w) as (Wrapf "failed to get pods");
  if decide (length allPods = 0%nat) then failing (Errorf ("no pods found for workload " +:+ selector))
  else
    chosen ←! ChoosePodAndContainer w predicates as (Wrapf "failed to choose pod and container");
    finish chosen.

Definition executeContainerCommand (arg : string) (command : list string) (gpuPodsOnly : bool) (execNamespace : string)
  (execInteractive execTTY : bool) : CM (session unit) :=
  '(pod, container, cancelled) ←! chooseOf arg execNamespace (if gpuPodsOnly then [IsGPUPod] else []) as id;
  if cancelled : bool then finish ()
  else at_once (ExecInContainer pod container execNamespace command execInteractive execTTY).

(** [monitor] and [exec]. *)
Definition runMonitorCmd (command execNamespace arg : string) (execInteractive execTTY : bool) : CM (session unit) :=
  _ ←! at_once (ValidateCommand "/bin/sh") as id;
  executeContainerCommand arg (ParseCommand command) true execNamespace execInteractive execTTY.

Definition runExecCmd (execCommand execNamespace arg : string) (execInteractive execTTY : bool) : CM (session unit) :=
  if decide (execCommand = "") then failing (Errorf "--command flag is required")
  else
    _ ←! at_once (ValidateCommand "/bin/sh") as id;
    executeContainerCommand arg (ParseCommand execCommand) false execNamespace execInteractive execTTY.

Definition executeLogsCommand (arg namespaceLogs : string) (tailLines : Z) (follow : bool) : CM (session unit) :=
  '(pod, container, cancelled) ←! chooseOf arg namespaceLogs [] as id;
  if cancelled : bool then finish () else at_once (OutputLogs pod container tailLines namespaceLogs follow).
End steps.
