(* ===== verification/ConsoleTheory.v ===== *)
(** What the terminal interface does, whatever is typed and whatever the server answers:
    the stack of its steps, what it deletes, forwards and streams, and that it comes back
    to the user. *)

From stdpp Require Import gmap strings list pretty.
From Stdlib Require Import ZArith Lia.
From S2P Require Import Prelude History Text Float64 Types GpuResources WorkloadTypes Labels Users Interactive ConsoleApi Console ConsoleSteps.

Section theory.
Context `{Host} `{TableLib} (ErrorText : error → string) (FormatRFC3339 : Z → string) (ParseIP : string → bool).

(** * Tables *)

Lemma handleMessages_range msgs m :
  (0 < length (tm_rows m))%nat → 0 <= tm_cursor m < Z.of_nat (length (tm_rows m)) → tm_result m = NoResult →
  let m' := handleMessages msgs m in
  tm_result m' = StepResultOk → 0 <= tm_selectedIndex m' < Z.of_nat (length (tm_rows m)).
Proof.
  cbv zeta. revert m. induction msgs as [|msg msgs IH]; intros m Hrows Hc Hr; cbn [handleMessages]; [congruence|].
  assert (tm_result (handleMessages msgs (set_cursor (table_update (length (tm_rows m)) msg (tm_cursor m)) m)) = StepResultOk →
    0 <= tm_selectedIndex (handleMessages msgs (set_cursor (table_update (length (tm_rows m)) msg (tm_cursor m)) m)) < Z.of_nat (length (tm_rows m))) as Hmove.
  { apply (IH (set_cursor _ m)); [done| |done]. by apply table_update_range. }
  unfold Update. destruct msg as [k|]; [|exact Hmove].
  case_decide; [done|]. case_decide; [done|]. case_decide; [intros _; exact Hc|exact Hmove].
Qed.

(** The last call of [h] after [h0] showed a table, and the user chose [row] of it. *)
Definition chosen (h0 : trace ClientSig) (row : list string) (h : trace ClientSig) : Prop :=
  ∃ m msgs, h = h0 ++ [ev (S := ClientSig) (RunProgram m) (inr msgs)] ∧
    tm_result (handleMessages msgs m) = StepResultOk ∧
    tm_rows m !! Z.to_nat (tm_selectedIndex (handleMessages msgs m)) = Some row.

(** A table with rows of the right width never panics and gives the index of the row
    chosen. *)
Lemma RunSelectTable_chosen (J : trace ClientSig → event ClientSig → Prop) h data columns title :
  (∀ h m x, J h (ev (S := ClientSig) (RunProgram m) x)) → Forall (λ row, length row = length columns) data →
  traced J h (RunSelectTable ErrorText data columns title) (λ h' r,
    match r with
    | Done (Ok (i, res)) => res = StepResultOk → 0 <= i < Z.of_nat (length data) ∧
        ∀ row, data !! Z.to_nat i = Some row → chosen h row h'
    | Done (Err _) => True
    | _ => False
    end).
Proof.
  intros HJ Hdata. unfold RunSelectTable. destruct data as [|first data]; [by apply traced_ret|].
  inversion Hdata as [|? ? Hfirst Hrest]; subst. destruct (existsb _ _); [by apply traced_ret|].
  rewrite decide_False by lia. apply traced_call. intros x. split; [apply HJ|]. destruct x as [e|msgs]; apply traced_ret; [done|].
  set (m := Build_TableModel _ _ _ _ _ _ _). intros Hok. split; [apply (handleMessages_range msgs m); cbn; try done; lia|].
  intros row Hrow. by exists m, msgs.
Qed.

Lemma RunSelectTable_index (J : trace ClientSig → event ClientSig → Prop) h data columns title :
  (∀ h m x, J h (ev (S := ClientSig) (RunProgram m) x)) → Forall (λ row, length row = length columns) data →
  traced J h (RunSelectTable ErrorText data columns title) (λ h' r,
    match r with
    | Done (Ok (i, res)) => res = StepResultOk → 0 <= i < Z.of_nat (length data)
    | Done (Err _) => True
    | _ => False
    end).
Proof.
  intros HJ Hdata. eapply traced_mono; [by apply RunSelectTable_chosen|]. intros h' [[[i res]|e|]|] _ Hr; [|done..].
  intros Hok. by apply Hr.
Qed.

Lemma cellAt_row data i j width :
  Forall (λ row, length row = width) data → 0 <= i < Z.of_nat (length data) → (j < width)%nat →
  ∃ row cell, data !! Z.to_nat i = Some row ∧ row !! j = Some cell ∧ cellAt data i j = Some cell.
Proof.
  intros Hdata Hi Hj. destruct (lookup_lt_is_Some_2 data (Z.to_nat i)) as [row Hrow]; [lia|].
  assert (length row = width) as Hlen by (by apply (Forall_lookup_1 _ _ _ _ Hdata Hrow)). destruct (lookup_lt_is_Some_2 row j) as [cell Hcell]; [lia|].
  exists row, cell. repeat split; [done|done|]. unfold cellAt. rewrite decide_False by lia. by rewrite Hrow.
Qed.

Lemma gather_row pods predicates i row :
  gatherPodData FormatRFC3339 pods predicates !! i = Some row →
  ∃ p c, p ∈ pods ∧ c ∈ cpod_ContainerStatuses p ++ cpod_InitContainerStatuses p ∧ row = formatContainerRow FormatRFC3339 p c.
Proof.
  intros Hi%list_elem_of_lookup_2. unfold gatherPodData in Hi. apply list_elem_of_bind in Hi as (p & Hrow & Hp).
  apply list_elem_of_filter in Hp as [_ Hp]. unfold getContainerData in Hrow. apply list_elem_of_In, in_map_iff in Hrow as (c & <- & Hc%list_elem_of_In). by exists p, c.
Qed.

Lemma gather_width pods predicates : Forall (λ row, length row = length containerSelectColumns) (gatherPodData FormatRFC3339 pods predicates).
Proof. apply Forall_lookup. intros i row (p & c & _ & _ & ->)%gather_row. done. Qed.

(** * What is accounted for *)

(** [w] was in an answer of the server. *)
Definition listed (h : trace ClientSig) (w : KaiwoWorkload) : Prop :=
  ∃ kind sel l, ev (S := ClientSig) (ListKaiwo kind sel) (inr l) ∈ h ∧ w ∈ l.

Definition seen_pods (h : trace ClientSig) (pods : list ClientPod) : Prop :=
  ∃ ns sel, ev (S := ClientSig) (ListPodsIn ns sel) (inr pods) ∈ h.

(** [pod] and [container] are what the table shows in the columns of the phase and of the
    status of a container. *)
Definition phase_and_status (h : trace ClientSig) (pod container : string) : Prop :=
  ∃ pods p c, seen_pods h pods ∧ p ∈ pods ∧ c ∈ cpod_ContainerStatuses p ++ cpod_InitContainerStatuses p ∧
    pod = cpod_Phase p ∧ container = containerStatusText FormatRFC3339 (ctr_State c).

(** The user's last answers, just before. *)
Definition confirmed (h : trace ClientSig) (w : KaiwoWorkload) : Prop :=
  ∃ h0 s title sp, h = h0 ++ [ev (S := ClientSig) (AskDelete (deleteDescription s w)) (inr true); ev (S := ClientSig) (StartSpinner title) sp].

(** What was asked after [h0], no other table among it. *)
Definition since (h0 h asked : trace ClientSig) : Prop :=
  h = h0 ++ asked ∧ Forall (λ e, match projT1 e with RunProgram _ => False | _ => True end) asked.

(** The rows of the two kinds of target a workload's pods give: a port a container lists,
    and any port of a container. *)
Definition portRow (p : ClientPod) (c : ClientContainer) (cp : ContainerPort) : list string :=
  ["Container port"; cc_Name c +:+ " / " +:+ cp_Name cp +:+ " (in pod: " +:+ cpod_Name p +:+ ")"; cp_Name cp;
   pretty (cp_ContainerPort cp); cp_Protocol cp].

Definition anyRow (p : ClientPod) (c : ClientContainer) : list string :=
  ["Container"; cc_Name c +:+ " (pod: " +:+ cpod_Name p +:+ ")"; ""; "Any"; ""].

(** The user typed [port], and agreed to it. *)
Definition typed (asked : trace ClientSig) (port : Z) : Prop :=
  1 <= port <= 65535 ∧
  ∃ shown on text, ev (S := ClientSig) (AskPort shown on) (inr (text, true)) ∈ asked ∧ Str.Atoi text = Some port.

(** The row the user last chose is that of a listed port of a container, and [port] is that
    port; or it is that of any port of a container, and [port] is what the user then typed. *)
Definition port_chosen (h : trace ClientSig) (pod : string) (port : Z) : Prop :=
  ∃ h0 h1 row asked pods p c, chosen h0 row h1 ∧ since h1 h asked ∧
    seen_pods h0 pods ∧ p ∈ pods ∧ c ∈ cpod_Containers p ∧ pod = cpod_Name p ∧
    ((∃ cp, cp ∈ cc_Ports c ∧ row = portRow p c cp ∧ port = cp_ContainerPort cp) ∨ (row = anyRow p c ∧ typed asked port)).

Definition manage_account (user namespace : string) (h : trace ClientSig) (e : event ClientSig) : Prop :=
  match projT1 e with
  | ListKaiwo _ sel => sel = if decide (user ≠ "") then {[ KaiwoUsernameLabel := user ]} else ∅
  | DeleteKaiwo w => listed h w ∧ confirmed h w
  | StreamLogs pod container _ _ _ => phase_and_status h pod container
  | ExecStream pod container _ _ _ _ => phase_and_status h pod container
  | Forward ns pod host localPort port =>
      ns = namespace ∧ 1 <= localPort <= 65535 ∧ isValidHost ParseIP host = true ∧
      port_chosen h pod port ∧
      ∃ h0 info asked hst text, Str.Atoi text = Some localPort ∧ pf_PodName info = pod ∧ pf_Port info = port ∧
        h = h0 ++ [ev (S := ClientSig) (AskLocalPort info asked hst) (inr (text, host, true)); ev (S := ClientSig) (Listen host localPort) None]
  | _ => True
  end.

(** * The stack *)

Definition level (x : Step) : nat :=
  match x with
  | SelectWorkloadType => 0
  | SelectWorkload => 1
  | SelectWorkloadAction => 2
  | SelectPodAndContainer | PortForward | DeleteWorkload => 3
  | SelectAndDoAction => 4
  | ViewLogsAction | MonitorAction | CommandAction => 5
  end.

(** Each step stands on one of the level below. *)
Fixpoint stacked (stack : list Step) : Prop :=
  match stack with [] => True | x :: below => level x = length below ∧ stacked below end.

(** What a step of a level finds in the state. *)
Definition ready (k : nat) (h : trace ClientSig) (s : RunState) : Prop :=
  ((2 <= k)%nat → ∃ w, rs_Workload s = Some w ∧ listed h w) ∧
  ((4 <= k)%nat → phase_and_status h (rs_PodName s) (rs_ContainerName s)).

Lemma listed_mono h h' w : h ⊆ h' → listed h w → listed h' w.
Proof. intros Hs (kind & sel & l & He & Hw). exists kind, sel, l. auto. Qed.

Lemma seen_pods_mono h h' pods : h ⊆ h' → seen_pods h pods → seen_pods h' pods.
Proof. intros Hs (ns & sel & He). exists ns, sel. auto. Qed.

Lemma phase_and_status_mono h h' pod container : h ⊆ h' → phase_and_status h pod container → phase_and_status h' pod container.
Proof. intros Hs (pods & p & c & Hp & ?). exists pods, p, c. split; [by eapply seen_pods_mono|done]. Qed.

Lemma ready_mono k h h' s : h ⊆ h' → ready k h s → ready k h' s.
Proof.
  intros Hs [Hw Hp]. split; [intros Hk; destruct (Hw Hk) as (w & ? & ?); exists w; split; [done|by eapply listed_mono]|].
  intros Hk. by eapply phase_and_status_mono; [|apply Hp].
Qed.

Lemma ready_below k k' h s : (k' <= k)%nat → ready k h s → ready k' h s.
Proof. intros Hk [Hw Hp]. split; intros; [apply Hw|apply Hp]; lia. Qed.

Section account.
Context (user namespace : string).
Abbreviation J := (manage_account user namespace).

Definition keeps (s : RunState) : Prop := rs_User s = user ∧ rs_Namespace s = namespace.

(** Where a step leaves the run. *)
Definition lands (x : Step) (h : trace ClientSig) (r : session (StepResult * option Step * RunState)) : Prop :=
  match r with
  | Done (Ok (res, next, s)) => keeps s ∧
      (∀ nx, res = StepResultOk → next = Some nx → level nx = S (level x) ∧ ready (level nx) h s) ∧
      (res = StepResultPrevious → ready (level x - 1) h s)
  | Done Panics => False
  | _ => True
  end.

Lemma traced_at_once {A} h (p : CM (outcome A)) (Q : trace ClientSig → session A → Prop) :
  traced J h p (λ h' o, Q h' (Done o)) → traced J h (at_once p) Q.
Proof. intros Hp. apply traced_bind. eapply traced_mono; [exact Hp|]. intros h' o _ Ho. by apply traced_ret. Qed.

Ltac asks x := apply traced_call; intros x; split; [exact I|].

(** A table and what is made of its answer. *)
Lemma traced_table {B} h wrap data columns title (k : Z * StepResult → CM (session B)) (Q : trace ClientSig → session B → Prop) :
  Forall (λ row, length row = length columns) data →
  (∀ h' i res, h ⊆ h' → (res = StepResultOk → 0 <= i < Z.of_nat (length data)) → traced J h' (k (i, res)) Q) →
  (∀ h' e, Q h' (Done (Err e))) →
  traced J h (orAsk wrap (RunSelectTable ErrorText data columns title) k) Q.
Proof.
  intros Hdata Hk He. apply traced_orAsk. eapply traced_mono; [by apply RunSelectTable_index|].
  intros h' [[[i res]|e|]|] Hs Hr; [by apply Hk|apply He|done..].
Qed.

Lemma selectAction_lands h actions title failure s x :
  ready (level x) h s → keeps s → Forall (λ a, level a.2 = S (level x)) actions →
  (∀ h s, ready (level x) h s → ready (S (level x)) h s) →
  traced J h (selectAction ErrorText actions title failure s) (lands x).
Proof.
  intros Hready Hkeeps Hlevels Hnext. unfold selectAction. apply traced_table; [by apply Forall_map, Forall_true| |done].
  intros h' i res Hs Hi. assert (ready (level x) h' s) as Hready' by (by eapply ready_mono).
  assert (lands x h' (Done (Ok (res, None, s)))) as Hnone.
  { split; [done|]. split; [done|]. intros _. by eapply ready_below; [|exact Hready']; lia. }
  destruct res; try (by apply traced_ret). apply traced_orAsk.
  destruct (cellAt_row (map (λ a, [a.1]) actions) i 0 1) as (row & cell & _ & _ & ->); [by apply Forall_map, Forall_true|auto|lia|].
  apply traced_ret, traced_ret. split; [done|]. split; [|done]. intros nx _ Hnx. unfold actionOf in Hnx.
  destruct (List.find _ actions) as [a|] eqn:Hfind; [|done]. injection Hnx as <-. apply find_some in Hfind as [Ha%list_elem_of_In _].
  rewrite Forall_forall in Hlevels. rewrite (Hlevels a Ha). split; [done|by apply Hnext].
Qed.

Lemma deref_ready {B} h s k (f : KaiwoWorkload → CM (session B)) (Q : trace ClientSig → session B → Prop) :
  (2 <= k)%nat → ready k h s → (∀ w, rs_Workload s = Some w → listed h w → traced J h (f w) Q) →
  traced J h (w ←! deref s as id; f w) Q.
Proof. intros Hk [Hw _] Hf. destruct (Hw Hk) as (w & E & Hl). unfold deref. rewrite E. apply traced_orAsk, traced_ret. by apply Hf. Qed.

Lemma SelectWorkloadType_lands h s : keeps s → traced J h (RunSelectWorkloadType ErrorText s) (lands SelectWorkloadType).
Proof.
  intros Hk. apply traced_table; [by repeat constructor| |done]. intros h' i res Hs Hi. apply traced_orAsk.
  assert (∀ t, lands SelectWorkloadType h' (Done (Ok (res, Some SelectWorkload, set_WorkloadType t s)))) as Hl.
  { intros t. split; [exact Hk|]. split; [intros nx _ [= <-]; split; [done|]|intros _]; split; cbn; lia. }
  destruct res; try (apply traced_ret, traced_ret, Hl).
  destruct (cellAt_row [["job"]; ["service"]] i 0 1) as (row & cell & _ & _ & ->); [by repeat constructor|auto|lia|].
  apply traced_ret, traced_ret, Hl.
Qed.

Lemma fetchWorkloads_listed h s : keeps s →
  traced J h (fetchWorkloads ErrorText s) (λ h' r, match r with
    | Done (Ok l) => ∀ w, w ∈ l → listed h' w | Done Panics => False | _ => True end).
Proof.
  intros [Hu _].
  assert (∀ h, traced J h (listWorkloads ErrorText s) (λ h' o, match o with
    | Ok l => ∀ w, w ∈ l → listed h' w | Panics => False | _ => True end)) as Hlist.
  { intros h0. unfold listWorkloads. assert (∀ kind what, traced J h0 (r ← call (S := ClientSig) (ListKaiwo kind (userSelector s));
      mret (match r with inl e => Err (restating ErrorText ("failed to list Kaiwo " +:+ what) e) | inr l => Ok l end))
      (λ h' o, match o with Ok l => ∀ w, w ∈ l → listed h' w | Panics => False | _ => True end)) as Hone.
    { intros kind what. apply traced_call. intros r. split; [cbn; unfold userSelector; by rewrite Hu|]. apply traced_ret. destruct r as [e|l]; [done|].
      intros w Hw. exists kind, (userSelector s), l. split; [|done]. apply elem_of_app. right. by left. }
    case_decide; [apply (Hone KindKaiwoJob "jobs")|]. case_decide; [apply (Hone KindKaiwoService "services")|].
    apply traced_ret. intros w Hw. by apply elem_of_nil in Hw. }
  unfold fetchWorkloads. asks sp. destruct sp as [|[|] e].
  - apply traced_orAsk, traced_at_once. eapply traced_mono; [apply Hlist|]. intros h' [l|e|] _ Hl; [by apply traced_ret|done..].
  - apply traced_bind. eapply traced_mono; [apply Hlist|]. intros h' o _ _. by apply traced_ret.
  - by apply traced_ret.
Qed.

Lemma SelectWorkload_lands h s : keeps s → traced J h (runSelectWorkload ErrorText s) (lands SelectWorkload).
Proof.
  intros Hk. apply traced_orAsk. eapply traced_mono; [by apply fetchWorkloads_listed|]. intros h1 [[l|e|]|] _ Hl; [|done..].
  case_decide; [apply traced_ret; split; [done|]; split; [done|intros _; split; cbn; lia]|].
  apply traced_table; [by apply Forall_map, Forall_true| |done]. rewrite length_map. intros h2 i res Hs Hi. apply traced_orAsk.
  assert (∀ w, (res = StepResultOk → ∃ v, w = Some v ∧ listed h2 v) →
    lands SelectWorkload h2 (Done (Ok (res, Some SelectWorkloadAction, set_Workload w s)))) as Hland.
  { intros w Hw. split; [exact Hk|]. split; [intros nx -> [= <-]; split; [done|]|intros _]; split; cbn; try lia. intros _. by apply Hw. }
  destruct res; try (apply traced_ret, traced_ret, Hland; done). specialize (Hi eq_refl). rewrite decide_False by lia.
  destruct (lookup_lt_is_Some_2 l (Z.to_nat i)) as [w Hw]; [lia|]. rewrite Hw. apply traced_orAsk, traced_ret, traced_ret, traced_ret, Hland.
  intros _. exists w. split; [done|]. eapply listed_mono; [exact Hs|]. by eapply Hl, list_elem_of_lookup_2.
Qed.

Lemma GetWorkloadPods_seen h w (Q : trace ClientSig → outcome (list ClientPod) → Prop) :
  (∀ h' o, h ⊆ h' → match o with Ok pods => seen_pods h' pods | Panics => False | _ => True end → Q h' o) →
  traced J h (GetWorkloadPods w) Q.
Proof.
  intros HQ. apply traced_orFail. asks r. apply traced_ret. destruct r as [e|pods].
  - apply HQ; [set_solver|done].
  - apply traced_ret, HQ; [set_solver|]. eexists _, _. apply elem_of_app. right. by left.
Qed.

Lemma SelectPodAndContainer_lands h s : ready 3 h s → keeps s →
  traced J h (RunSelectPodAndContainer ErrorText FormatRFC3339 s) (lands SelectPodAndContainer).
Proof.
  intros Hready Hk. apply (deref_ready h s 3); [lia|done|]. intros w Ew Hw. apply traced_orAsk, traced_at_once, GetWorkloadPods_seen.
  intros h1 [pods|e|] Hs1 Hpods; [|done..]. assert (ready 3 h1 s) as Hready1 by (by eapply ready_mono).
  case_decide; [apply traced_ret; split; [done|]; split; [done|intros _; by eapply ready_below; [|exact Hready1]; cbn; lia]|].
  apply traced_table; [apply gather_width| |done]. intros h2 i res Hs2 Hi. apply traced_orAsk.
  assert (∀ p c, (res = StepResultOk → phase_and_status h2 p c) →
    lands SelectPodAndContainer h2 (Done (Ok (res, Some SelectAndDoAction, set_Container p c s)))) as Hland.
  { intros p c Hpc. destruct Hready1 as [Hwl _]. assert (∃ w, rs_Workload s = Some w ∧ listed h2 w) as Hwl2.
    { destruct (Hwl ltac:(lia)) as (v & ? & ?). exists v. split; [done|by eapply listed_mono]. }
    split; [exact Hk|]. split; [intros nx -> [= <-]; split; [done|]|intros _]; (split; [done|cbn; auto; lia]). }
  destruct res; try (apply traced_ret, traced_ret, Hland; done). specialize (Hi eq_refl).
  pose proof (gather_width pods (rs_Predicates s)) as Hwidth.
  destruct (cellAt_row _ i 1 4 Hwidth Hi ltac:(lia)) as (row & cell & Hrow & Hcell & ->).
  destruct (cellAt_row _ i 3 4 Hwidth Hi ltac:(lia)) as (row' & cell' & Hrow' & Hcell' & ->).
  apply traced_orAsk, traced_ret, traced_orAsk, traced_ret, traced_ret, traced_ret, Hland. intros _.
  rewrite Hrow in Hrow'. injection Hrow' as <-. apply gather_row in Hrow as (p & c & Hp & Hc & ->).
  injection Hcell as <-. injection Hcell' as <-. exists pods, p, c. split; [by eapply seen_pods_mono|done].
Qed.

(** A form that is asked again and again. *)
Lemma traced_form {A St B} h n (body : St → CM (session (St + A))) (st : St) wrap (k : A → CM (session B))
  (P : A → Prop) (Q : trace ClientSig → session B → Prop) :
  (∀ h s, traced J h (body s) (λ _ r, match r with Done (Ok (inr a)) => P a | Done Panics => False | _ => True end)) →
  (∀ h' a, h ⊆ h' → P a → traced J h' (k a) Q) → (∀ h' e, Q h' (Done (Err e))) → (∀ h', Q h' Asking) →
  traced J h (orAsk wrap (rounds n body st) k) Q.
Proof.
  intros Hbody Hk He Hask. apply traced_orAsk. eapply traced_mono.
  - apply traced_rounds with (I := λ _ _, True) (Q := λ _ o, match o with Ok a => P a | Err _ => True | Panics => False end); [|done].
    intros h' s' _. eapply traced_mono; [apply Hbody|]. by intros h2 [[[s2|a]|e|]|] _ Hr.
  - intros h' [[a|e|]|] Hs Ha; [by apply Hk|apply He|done|apply Hask].
Qed.

Lemma OutputLogs_traced h s numLines ns follow (Q : trace ClientSig → outcome unit → Prop) :
  ready 5 h s → (∀ h' o, h ⊆ h' → o ≠ Panics → Q h' o) →
  traced J h (OutputLogs (rs_PodName s) (rs_ContainerName s) numLines ns follow) Q.
Proof.
  intros [_ Hp] HQ. apply traced_call. intros r. split; [apply Hp; lia|]. apply traced_ret, HQ; [set_solver|by destruct r].
Qed.

Lemma ExecInContainer_traced h s ns command interactive tty (Q : trace ClientSig → outcome unit → Prop) :
  ready 5 h s → (∀ h' o, h ⊆ h' → o ≠ Panics → Q h' o) →
  traced J h (ExecInContainer (rs_PodName s) (rs_ContainerName s) ns command interactive tty) Q.
Proof.
  intros [_ Hp] HQ. apply traced_call. intros r. split; [apply Hp; lia|]. apply traced_ret, HQ; [set_solver|by destruct r as [| |[]]].
Qed.

(** The actions on a pod end the run. *)
Lemma last_lands x h s : keeps s → lands x h (Done (Ok (StepResultOk, None, s))).
Proof. intros Hk. split; [done|]. split; [done|]. intros [=]. Qed.

Lemma ends_lands {A} x h wrap (p : CM (outcome A)) s :
  keeps s → traced J h p (λ _ o, o ≠ Panics) →
  traced J h (_ ←! at_once p as wrap; finish (StepResultOk, None, s)) (lands x).
Proof.
  intros Hk Hp. apply traced_orAsk, traced_at_once. eapply traced_mono; [exact Hp|].
  intros h' [a|e|] _ Ho; [by apply traced_ret, last_lands|done..].
Qed.

Lemma ViewLogs_lands n h s : ready 5 h s → keeps s → traced J h (runViewLogsAction n s) (lands ViewLogsAction).
Proof.
  intros Hready Hk. apply traced_form with (P := λ _, True); [| |done..].
  - intros h' [lines follow]. asks r. apply traced_ret. destruct r as [e|[l f]]; cbn; [done|]. by repeat case_match.
  - intros h' [numLines follow] Hs _. assert (ready 5 h' s) as Hr by (by eapply ready_mono).
    apply (deref_ready h' s 5); [lia|done|]. intros w _ _. apply ends_lands; [done|]. by apply OutputLogs_traced.
Qed.

Lemma ValidateCommand_traced h command (Q : trace ClientSig → outcome unit → Prop) :
  (∀ h' o, h ⊆ h' → o ≠ Panics → Q h' o) → traced J h (ValidateCommand command) Q.
Proof. intros HQ. asks r. apply traced_ret, HQ; [set_solver|by destruct r]. Qed.

Lemma Monitor_lands h s : ready 5 h s → keeps s → traced J h (runMonitorAction s) (lands MonitorAction).
Proof.
  intros Hready Hk. apply traced_orAsk, traced_at_once, ValidateCommand_traced. intros h' [[]|e|] Hs Ho; [|done..].
  assert (ready 5 h' s) as Hr by (by eapply ready_mono).
  apply (deref_ready h' s 5); [lia|done|]. intros w _ _. apply ends_lands; [done|]. by apply ExecInContainer_traced.
Qed.

Lemma Command_lands n h s : ready 5 h s → keeps s → traced J h (runCommandAction n s) (lands CommandAction).
Proof.
  intros Hready Hk. apply traced_form with (P := λ _, True); [| |done..].
  - intros h' [[[c ph] i] t]. asks r. destruct r as [e|[[c' i'] t']]; [by apply traced_ret|]. case_decide; [by apply traced_ret|].
    apply traced_orAsk, traced_at_once, ValidateCommand_traced. intros h2 [[]|e|] Hs Ho; [by apply traced_ret|done..].
  - intros h' [[command i] t] Hs _. assert (ready 5 h' s) as Hr by (by eapply ready_mono).
    apply (deref_ready h' s 5); [lia|done|]. intros w _ _. apply ends_lands; [done|]. by apply ExecInContainer_traced.
Qed.

Lemma Delete_lands h s : ready 3 h s → keeps s → traced J h (runDeleteWorkload s) (lands DeleteWorkload).
Proof.
  intros Hready Hk. apply (deref_ready h s 3); [lia|done|]. intros w _ Hw.
  apply traced_orAsk, traced_at_once, traced_call. intros [e|[|]]; (split; [exact I|]); apply traced_ret; [done| |].
  2:{ apply traced_ret. split; [done|]. split; [done|]. intros _.
      eapply ready_below; [|eapply ready_mono; [|exact Hready]; set_solver]. cbn. lia. }
  cbn [negb of_sum]. apply traced_orAsk, traced_call. intros sp. split; [exact I|].
  assert (∀ B (k : outcome unit → CM B) (Q : trace ClientSig → B → Prop),
    (∀ h' o, o ≠ Panics → traced J h' (k o) Q) →
    traced J ((h ++ [ev (S := ClientSig) (AskDelete (deleteDescription s w)) (inr true)]) ++ [ev (S := ClientSig) (StartSpinner "Deleting workload") sp])
      (o ← (_ ←? (r ← call (S := ClientSig) (DeleteKaiwo w); mret (of_err r)) else "failed to delete workload"; mret (Ok ())); k o) Q) as Hdel.
  { intros B k Q HQ. apply traced_bind, traced_orFail, traced_call. intros r. split.
    - split; [eapply listed_mono; [|exact Hw]; set_solver|]. exists h, s, "Deleting workload", sp. by rewrite <- app_assoc.
    - apply traced_ret. destruct r; [by apply HQ|]. apply traced_ret. by apply HQ. }
  destruct sp as [|[|] e]; [| |by apply traced_ret].
  - apply (Hdel (session unit) (λ o, mret (Done o))). intros h' [[]|e|] Ho; apply traced_ret; [|done..].
    apply traced_ret. split; [done|]. split; [done|]. intros [=].
  - apply (Hdel (session unit) (λ _, failing e)). intros h' o _. by apply traced_ret.
Qed.

(** ** Forwarding *)

Lemma Atoi_value s z : Str.Atoi s = Some z → Text.AtoiValue s = z.
Proof.
  unfold Str.Atoi, Text.AtoiValue. destruct (match s with EmptyString => _ | _ => _ end) as [neg body].
  destruct body as [|c body]; [done|]. destruct (Str.digits _ 0) as [d|]; [|done]. case_decide as Hin; [|done]. intros [= <-].
  unfold in_int64 in Hin. lia.
Qed.

(** A target of the pods, by its row: one of the ports of a container, or any. *)
Definition target_of (pods : list ClientPod) (t : PortForwardTarget) : Prop :=
  ∃ p c, p ∈ pods ∧ c ∈ cpod_Containers p ∧
    match t with
    | ServicePortForwardTarget _ _ => False
    | ContainerPortForwardTarget _ pod port _ _ =>
        pod = cpod_Name p ∧ ∃ cp, cp ∈ cc_Ports c ∧ targetRow t = portRow p c cp ∧ port = cp_ContainerPort cp
    | ContainerAnyPortForwardTarget _ pod => pod = cpod_Name p ∧ targetRow t = anyRow p c
    end.

Lemma targets_of pods w services t :
  GetWorkloadServices w = Ok services → t ∈ serviceTargets services ++ portTargets pods ++ anyTargets pods → target_of pods t.
Proof.
  intros [= <-]. cbn [serviceTargets mbind list_bind app]. rewrite elem_of_app. intros [Ht|Ht].
  - apply list_elem_of_bind in Ht as (p & Ht & Hp). apply list_elem_of_fmap in Ht as ([c cp] & -> & Hcp).
    apply list_elem_of_bind in Hcp as (c' & Hcp & Hc). apply list_elem_of_fmap in Hcp as (cp' & [= -> ->] & Hcp).
    exists p, c'. repeat split; try done. by exists cp'.
  - apply list_elem_of_bind in Ht as (p & Ht & Hp). apply list_elem_of_fmap in Ht as (c & -> & Hc). by exists p, c.
Qed.

Lemma since_refl h : since h h [].
Proof. split; [by rewrite app_nil_r|constructor]. Qed.

Lemma since_snoc h0 h asked e :
  match projT1 e with RunProgram _ => False | _ => True end → since h0 h asked → since h0 (h ++ [e]) (asked ++ [e]).
Proof. intros He [-> Hall]. split; [by rewrite app_assoc|]. by apply Forall_app; split; [|constructor]. Qed.

(** What there is to forward to, by the target and what was typed since. *)
Definition info_of (pods : list ClientPod) (t : PortForwardTarget) (asked : trace ClientSig) (info : PortForwardInfo) : Prop :=
  ∃ p c, p ∈ pods ∧ c ∈ cpod_Containers p ∧ pf_PodName info = cpod_Name p ∧
    ((∃ cp, cp ∈ cc_Ports c ∧ targetRow t = portRow p c cp ∧ pf_Port info = cp_ContainerPort cp) ∨
     (targetRow t = anyRow p c ∧ typed asked (pf_Port info))).

Lemma askPort_traced h0 h asked entered : since h0 h asked → traced J h (askPort entered) (λ h' r,
  ∃ asked', since h0 h' asked' ∧ match r with Done (Ok (inr (Some x))) => typed asked' x | Done Panics => False | _ => True end).
Proof.
  intros Hs. asks r. apply traced_ret. exists (asked ++ [ev (S := ClientSig) (AskPort entered.1 entered.2) r]).
  split; [by apply since_snoc|]. destruct r as [e|[port [|]]]; cbn; [done| |done]. destruct (Str.Atoi port) as [x|] eqn:Hx; [|done].
  case_decide; [done|]. split; [lia|]. exists entered.1, entered.2, port. split; [apply elem_of_app; right; by left|done].
Qed.

Lemma GetInfo_traced n h ns t pods :
  target_of pods t → traced J h (GetInfo ErrorText n ns t) (λ h' r, match r with
    | Done (Ok (Some info)) => ∃ asked, since h h' asked ∧ info_of pods t asked info
    | Done Panics => False
    | _ => True
    end).
Proof.
  intros (p & c' & Hp & Hc & Ht). destruct t as [svc sp|c pod port pn pr|c pod]; [done|..]; cbn [GetInfo].
  - destruct Ht as [-> (cp & ? & ? & ?)]. apply traced_ret. exists []. split; [apply since_refl|]. exists p, c'. repeat split; try done. eauto.
  - destruct Ht as [-> Hrow]. apply traced_orAsk. eapply traced_mono.
    { apply traced_rounds with (I := λ h' _, ∃ asked, since h h' asked)
        (Q := λ h' o, match o with Ok (Some x) => ∃ asked, since h h' asked ∧ typed asked x | Panics => False | _ => True end);
        [|exists []; apply since_refl].
      intros h' st [asked Hs]. eapply traced_mono; [by apply (askPort_traced h h' asked)|].
      intros h2 [[[st'|[x|]]|e|]|] _ (asked' & Hs' & Hr); by eauto. }
    intros h' [[[x|]|e|]|] _ Hr; try apply traced_ret; try done. destruct Hr as (asked & Hs & Htyped).
    exists asked. split; [done|]. exists p, c'. repeat split; try done. by right.
Qed.

(** What the user agreed to, and that the port is free, just before. *)
Definition agreed (info : PortForwardInfo) (h : trace ClientSig) (r : Z * string * bool) : Prop :=
  let '(localPort, host, confirm) := r in
  confirm = true → 1 <= localPort <= 65535 ∧ isValidHost ParseIP host = true ∧
    ∃ h0 asked hst text, Str.Atoi text = Some localPort ∧
      h = h0 ++ [ev (S := ClientSig) (AskLocalPort info asked hst) (inr (text, host, true)); ev (S := ClientSig) (Listen host localPort) None].

Lemma askLocalPort_traced h0 h asked info entered : since h0 h asked → traced J h (askLocalPort ParseIP info entered) (λ h' r,
  (∃ asked', since h0 h' (asked ++ asked')) ∧
  match r with Done (Ok (inr a)) => agreed info h' a | Done Panics | Asking => False | _ => True end).
Proof.
  intros Hs. asks r. pose proof (since_snoc _ _ _ (ev (S := ClientSig) (AskLocalPort info entered.1 entered.2) r) I Hs) as Hs1.
  destruct r as [e|[[port host] confirm]]; [apply traced_ret; by eauto|]. cbv zeta.
  assert (∀ h', (∃ asked', since h0 h' (asked ++ asked')) →
    traced J h' (if confirm : bool then finish (inl (port, host)) else finish (inr (Text.AtoiValue port, host, false))) (λ h' r,
    (∃ asked', since h0 h' (asked ++ asked')) ∧
    match r with Done (Ok (inr a)) => agreed info h' a | Done Panics | Asking => False | _ => True end)) as Hagain.
  { intros h' Hs'. destruct confirm; apply traced_ret; (split; [done|]); done. }
  destruct (Str.Atoi port) as [z|] eqn:Hz; [|by apply Hagain; eauto]. case_decide; [by apply Hagain; eauto|].
  destruct (isValidHost ParseIP host) eqn:Hhost; cbn [negb]; [|by apply Hagain; eauto]. apply traced_bind. asks free. apply traced_ret.
  pose proof (since_snoc _ _ _ (ev (S := ClientSig) (Listen host (Text.AtoiValue port)) free) I Hs1) as Hs2.
  rewrite <- (app_assoc asked) in Hs2.
  destruct free as [e|]; cbn [negb]; [by apply Hagain; eauto|]. apply traced_ret. split; [by eauto|].
  intros ->. rewrite (Atoi_value port z Hz) in *.
  split; [lia|]. split; [done|]. exists h, entered.1, entered.2, port. split; [done|]. by rewrite <- app_assoc.
Qed.

Lemma typed_app asked asked' port : typed asked port → typed (asked ++ asked') port.
Proof. intros (Hp & s & o & text & He & Ht). split; [done|]. exists s, o, text. split; [apply elem_of_app; by left|done]. Qed.

Lemma doPortForward_traced n h0 h s t pods :
  keeps s → seen_pods h0 pods → target_of pods t → chosen h0 (targetRow t) h →
  traced J h (doPortForward ErrorText ParseIP n s t) (λ _ r, r ≠ Done Panics).
Proof.
  intros [_ Hns] Hpods Ht Hch. apply traced_orAsk. eapply traced_mono; [by apply (GetInfo_traced n h _ t pods)|].
  intros h1 [[[info|]|e|]|] _ Hinfo; [|by apply traced_ret|done..]. destruct Hinfo as (asked & Hs & Hinfo).
  apply traced_orAsk. eapply traced_mono.
  { apply traced_rounds with (I := λ h' _, ∃ asked', since h h' (asked ++ asked'))
      (Q := λ h' o, match o with Ok r => (∃ asked', since h h' (asked ++ asked')) ∧ agreed info h' r | Panics => False | _ => True end);
      [|exists []; by rewrite app_nil_r].
    intros h2 st [asked2 Hs2]. eapply traced_mono; [by apply (askLocalPort_traced h h2 (asked ++ asked2))|].
    intros h3 [[[st'|a]|e|]|] _ [[asked3 Hs3] Hr]; try done; rewrite <- app_assoc in Hs3; by eauto. }
  intros h2 [[[[lp host] [|]]|e|]|] _ Hr; [|by try apply traced_ret..]. destruct Hr as [(asked' & Hs') Hr].
  destruct (Hr eq_refl) as (Hlp & Hhost & Hlast).
  cbn [negb]. apply traced_call. intros r. split; [|destruct r; by apply traced_ret].
  split; [done|]. split; [done|]. split; [done|]. destruct Hinfo as (p & c & Hp & Hc & Hpod & Hport). split.
  - exists h0, h, (targetRow t), (asked ++ asked'), pods, p, c. repeat (split; [done|]).
    destruct Hport as [?|[? ?]]; [by left|right]. split; [done|by apply typed_app].
  - destruct Hlast as (h3 & shown & hst & text & Htext & ->). exists h3, info, shown, hst, text. done.
Qed.

Lemma PortForward_lands n h s : ready 3 h s → keeps s → traced J h (runPortForward ErrorText ParseIP n s) (lands PortForward).
Proof.
  intros Hready Hk. apply (deref_ready h s 3); [lia|done|]. intros w Ew Hw. apply traced_orAsk. asks sp.
  destruct sp as [|ran e]; [|by apply traced_ret]. apply traced_orAsk, traced_at_once, traced_ret, traced_ret.
  apply traced_orAsk, traced_at_once, GetWorkloadPods_seen. intros h1 [pods|e|] Hs1 Hpods; [|done..].
  assert (ready 3 h1 s) as Hready1 by (eapply ready_mono; [|exact Hready]; set_solver).
  apply traced_orAsk. eapply traced_mono; [apply RunSelectTable_chosen; [done|apply Forall_map, Forall_true; by intros []]|].
  rewrite length_map. intros h2 [[[i res]|e|]|] Hs2 Hi; [|done..].
  assert (∀ h' res, h2 ⊆ h' → lands PortForward h' (Done (Ok (res, None, s)))) as Hland.
  { intros h' res' Hs. split; [done|]. split; [done|]. intros _. eapply ready_below; [|eapply ready_mono; [|exact Hready1]; set_solver].
    cbn. lia. }
  destruct res; try (by apply traced_ret, Hland). destruct (Hi eq_refl) as [Hi' Hrow]. rewrite decide_False by lia.
  set (targets := serviceTargets [] ++ portTargets pods ++ anyTargets pods) in *.
  destruct (lookup_lt_is_Some_2 targets (Z.to_nat i)) as [t Ht]; [lia|]. rewrite Ht. apply traced_orAsk, traced_ret.
  apply traced_bind. eapply traced_mono.
  { apply (doPortForward_traced n h1 h2 s t pods); [done..| |].
    - eapply (targets_of pods w); [done|]. by eapply list_elem_of_lookup_2.
    - apply Hrow. change (map targetRow targets) with (targetRow <$> targets). by rewrite list_lookup_fmap, Ht. }
  intros h3 [[[|]|e|]|] Hs3 Hr; try (by apply traced_ret, Hland); [done|by apply traced_ret].
Qed.

(** ** All of them *)

Lemma runStep_lands n x h s :
  ready (level x) h s → keeps s → traced J h (runStep ErrorText FormatRFC3339 ParseIP n x s) (lands x).
Proof.
  intros Hready Hk. assert (∀ k h s, (k = 2%nat ∨ k = 4%nat) → ready k h s → ready (S k) h s) as Hup.
  { intros k h' s' Hk' [Hw Hp]. split; intros; [apply Hw|apply Hp]; lia. }
  destruct x; cbn [runStep level] in *.
  - by apply SelectWorkloadType_lands.
  - by apply SelectWorkload_lands.
  - apply (selectAction_lands h workloadActions _ _ s SelectWorkloadAction); [done|done|by repeat constructor|]. intros; by apply Hup; [left|].
  - by apply SelectPodAndContainer_lands.
  - apply (deref_ready h s 4); [lia|done|]. intros w _ _.
    apply (selectAction_lands h podActions _ _ s SelectAndDoAction); [done|done|by repeat constructor|]. intros; by apply Hup; [right|].
  - by apply ViewLogs_lands.
  - by apply Monitor_lands.
  - by apply Command_lands.
  - by apply PortForward_lands.
  - by apply Delete_lands.
Qed.

(** The loop: what it keeps of the stack and of the state. *)
Definition running (h : trace ClientSig) (c : list Step * RunState) : Prop :=
  stacked c.1 ∧ keeps c.2 ∧ match c.1 with [] => True | x :: _ => ready (level x) h c.2 end.

Lemma turn_running n h c : running h c →
  traced J h (turn ErrorText FormatRFC3339 ParseIP n c) (λ h' r, match r with
    | Done (Ok (inl c')) => running h' c' | Done Panics => False | _ => True end).
Proof.
  destruct c as [[|x below] s]; intros (Hst & Hk & Hr); cbn [fst snd turn] in *; [by apply traced_ret|].
  apply traced_orAsk. eapply traced_mono; [by apply runStep_lands|]. intros h' [[[[res next] s']|e|]|] _ Hl; [|done..].
  destruct Hl as (Hk' & Hok & Hprev). destruct res; apply traced_ret; [|done| |done|done].
  - destruct next as [nx|]; [|done]. destruct (Hok nx eq_refl eq_refl) as [Hlev Hnx]. split; [|done].
    cbn [fst stacked] in *. destruct Hst as [Hx Hbelow]. repeat split; [by rewrite Hlev, Hx|done|done].
  - cbn [stacked] in Hst. destruct Hst as [Hx Hbelow]. split; [done|]. split; [done|]. cbn [fst]. destruct below as [|y below]; [done|].
    destruct Hbelow as [Hy _]. rewrite Hy. eapply ready_below; [|by apply Hprev]. rewrite Hx. cbn [length]. lia.
Qed.

Lemma RunList_accounted h n workloadType workloadName :
  traced J h (RunList ErrorText FormatRFC3339 ParseIP n workloadType workloadName namespace user) (λ _ r, r ≠ Done Panics).
Proof.
  unfold RunList. case_decide; [by apply traced_ret|]. apply traced_orAsk, traced_at_once. asks r. apply traced_ret. destruct r; [done|].
  apply traced_orAsk. eapply traced_mono.
  { apply traced_rounds with (I := running) (Q := λ _ o, o ≠ Panics).
    - intros h1 c Hc. eapply traced_mono; [by apply turn_running|]. by intros h2 [[[c'|[]]|e|]|] _ Hr.
    - split; [done|]. split; [done|]. split; cbn; lia. }
  intros h' [[[]|e|]|] _ Hr; [by apply traced_ret|done..].
Qed.
End account.

(** C9: Managing workloads, whatever the user types and the server answers. It never panics:
    the steps on the stack build on one another, so that the workload and the row they look at
    are there. A workload is deleted only when it is one the server listed and the user's last
    answer, just before, was yes to a question that names it. A port is forwarded only to the
    pod of the row the user last chose in a table: a port that a container of a listed pod
    lists, when the row is of that port, or, when it is of any port of a listed container, the
    port between 1 and 65535 the user then typed. It is forwarded in the namespace of the flag,
    from a local port between 1 and 65535 and a valid host the user just agreed to and that
    were just found free. *)
Theorem RunList_sanctioned n workloadType workloadName namespace user :
  always anything (RunList ErrorText FormatRFC3339 ParseIP n workloadType workloadName namespace user)
    (λ tr r, r ≠ Done Panics ∧ justified (manage_account user namespace) [] tr).
Proof.
  eapply always_mono; [apply (RunList_accounted user namespace [])|]. by intros tr r [Hj Hr].
Qed.

(** * The names of pods *)

(** A stream is asked for with the phase of a pod and the status of a container in place of
    their names, or with no names at all. *)
Definition stream_account (h : trace ClientSig) (e : event ClientSig) : Prop :=
  match projT1 e with
  | StreamLogs pod container _ _ _ | ExecStream pod container _ _ _ _ => phase_and_status h pod container ∨ pod = "" ∧ container = ""
  | _ => True
  end.

Definition shown (h : trace ClientSig) (pod container : string) : Prop := phase_and_status h pod container ∨ pod = "" ∧ container = "".

Definition chosen_shown (h : trace ClientSig) (r : session (string * string * bool)) : Prop :=
  match r with Done (Ok (pod, container, _)) => shown h pod container | _ => True end.

Lemma SelectPod_named h s w :
  rs_Workload s = Some w → rs_PodName s = "" → rs_ContainerName s = "" →
  traced stream_account h (RunSelectPodAndContainer ErrorText FormatRFC3339 s)
    (λ h' r, match r with Done (Ok (_, _, s')) => shown h' (rs_PodName s') (rs_ContainerName s') | _ => True end).
Proof.
  intros Hw Hp Hc. unfold RunSelectPodAndContainer, deref. rewrite Hw. apply traced_orAsk, traced_ret.
  apply traced_orAsk, traced_bind, traced_orFail, traced_call. intros r. split; [exact I|]. apply traced_ret.
  destruct r as [e|pods]; [by apply traced_ret|]. apply traced_ret, traced_ret. case_decide; [apply traced_ret; by right|].
  apply traced_orAsk. eapply traced_mono; [apply RunSelectTable_index; [done|apply gather_width]|].
  intros h1 [[[i res]|e|]|] Hs Hi; [|done..]. apply traced_orAsk.
  destruct res; try (apply traced_ret, traced_ret; by right). specialize (Hi eq_refl).
  pose proof (gather_width pods (rs_Predicates s)) as Hwidth.
  destruct (cellAt_row _ i 1 4 Hwidth Hi ltac:(lia)) as (row & cell & Hrow & Hcell & ->).
  destruct (cellAt_row _ i 3 4 Hwidth Hi ltac:(lia)) as (row' & cell' & Hrow' & Hcell' & ->).
  apply traced_orAsk, traced_ret, traced_orAsk, traced_ret, traced_ret, traced_ret. left.
  rewrite Hrow in Hrow'. injection Hrow' as <-. apply gather_row in Hrow as (p & c & Hpp & Hcc & ->).
  injection Hcell as <-. injection Hcell' as <-. exists pods, p, c. split; [|done]. eexists _, _. apply Hs, elem_of_app. right. by left.
Qed.

Lemma GetWorkload_traced h selector namespace : traced stream_account h (GetWorkload ErrorText selector namespace) (λ _ _, True).
Proof.
  unfold GetWorkload. destruct (Str.Split _ _) as [|t [|nm [|]]]; try by apply traced_ret.
  case_decide; [|case_decide; [|by apply traced_ret]]; (apply traced_call; intros r; split; [exact I|]; destruct r; by apply traced_ret).
Qed.

Lemma chooseOf_named h selector namespace predicates :
  traced stream_account h (chooseOf ErrorText FormatRFC3339 selector namespace predicates) chosen_shown.
Proof.
  unfold chooseOf. apply traced_orAsk, traced_bind, traced_call. intros r. split; [exact I|].
  apply traced_ret, traced_ret. destruct r; [done|]. apply traced_orAsk.
  eapply traced_mono; [apply GetWorkload_traced|]. intros h1 [[w|e|]|] _ _; [|done..].
  apply traced_orAsk, traced_bind, traced_orFail, traced_call.
  intros r. split; [exact I|]. apply traced_ret. destruct r as [e|pods]; [by apply traced_ret|]. apply traced_ret, traced_ret.
  case_decide; [by apply traced_ret|]. apply traced_orAsk. unfold ChoosePodAndContainer. apply traced_orAsk.
  eapply traced_mono; [by apply (SelectPod_named _ _ w)|]. intros h2 [[[[res nx] s]|e|]|] _ Hn; [|done..]. by apply traced_ret, traced_ret.
Qed.

Lemma executeContainerCommand_named h arg command gpuOnly ns i t :
  traced stream_account h (executeContainerCommand ErrorText FormatRFC3339 arg command gpuOnly ns i t) (λ _ _, True).
Proof.
  apply traced_orAsk. eapply traced_mono; [apply chooseOf_named|]. intros h' [[[[pod c] [|]]|e|]|] _ Hn; [by apply traced_ret| |done..].
  apply traced_bind, traced_call. intros r. split; [exact Hn|]. apply traced_ret. by apply traced_ret.
Qed.

Lemma always_traced {A} (J : trace ClientSig → event ClientSig → Prop) (p : CM A) (Q : trace ClientSig → A → Prop) :
  traced J [] p Q → always anything p (λ tr _, justified J [] tr).
Proof. intros Ht. eapply always_mono; [exact Ht|]. by intros tr a [??]. Qed.

(** Whichever command asks for the logs of a container or runs a command in one, [manage],
    [logs], [exec] or [monitor], it passes on the columns next to those it means: the phase of a
    pod as the name of the pod and the status of a container as the name of the container, or
    two empty names. No pod is called [Running], so none of them reaches the container that was
    picked. *)
Theorem streams_misnamed n workloadType workloadName namespace user arg command tail follow interactive tty :
  let misnamed p := always anything p (λ tr (_ : session unit), justified stream_account [] tr) in
  misnamed (RunList ErrorText FormatRFC3339 ParseIP n workloadType workloadName namespace user) ∧
  misnamed (executeLogsCommand ErrorText FormatRFC3339 arg namespace tail follow) ∧
  misnamed (runExecCmd ErrorText FormatRFC3339 command namespace arg interactive tty) ∧
  misnamed (runMonitorCmd ErrorText FormatRFC3339 command namespace arg interactive tty).
Proof.
  cbv zeta. split; [|split; [|split]].
  - eapply always_mono; [apply (RunList_accounted user namespace [])|]. intros tr r [Hj _].
    eapply justified_impl; [|exact Hj]. intros h [q x] He. destruct q; try exact I; left; exact He.
  - apply always_traced with (Q := λ _ _, True). apply traced_orAsk. eapply traced_mono; [apply chooseOf_named|].
    intros h' [[[[pod c] [|]]|e|]|] _ Hn; [by apply traced_ret| |done..].
    apply traced_bind, traced_call. intros r. split; [exact Hn|]. apply traced_ret. by apply traced_ret.
  - apply always_traced with (Q := λ _ _, True). unfold runExecCmd. case_decide; [by apply traced_ret|]. apply traced_orAsk, traced_bind, traced_call.
    intros r. split; [exact I|]. apply traced_ret, traced_ret. destruct r; [done|]. apply executeContainerCommand_named.
  - apply always_traced with (Q := λ _ _, True). apply traced_orAsk, traced_bind, traced_call.
    intros r. split; [exact I|]. apply traced_ret, traced_ret. destruct r; [done|]. apply executeContainerCommand_named.
Qed.

(** * Whose workloads are listed *)

Lemma current_user_lists_nothing (user namespace : string) (h : trace ClientSig) :
  traced (manage_account user namespace) h (GetCurrentUser (call (S := ClientSig) CurrentUser) (call (S := ClientSig) Hostname)) (λ _ _, True).
Proof.
  unfold GetCurrentUser. repeat case_match; try by apply traced_ret.
  apply traced_orFail, traced_call. intros r. split; [exact I|]. apply traced_ret. destruct r; [done|].
  apply traced_orFail, traced_call. intros r. split; [exact I|]. apply traced_ret. destruct r; [done|]. by apply traced_ret.
Qed.

(** The command [manage] lists the workloads of every user in every namespace, whatever its
    flags say: they bind other variables than the one it passes on, which is empty, and the
    namespace is not used for the list. *)
Theorem manage_lists_all n f args :
  always anything (runListCmd ErrorText FormatRFC3339 ParseIP n f "" args)
    (λ tr _, ∀ kind sel x, ev (S := ClientSig) (ListKaiwo kind sel) x ∈ tr → sel = ∅).
Proof.
  eapply always_mono; [apply (always_traced (manage_account "" (lf_namespaceList f))) with (Q := λ _ _, True)|].
  - apply traced_orAsk. eapply traced_mono; [|intros h' r _ _].
    + instantiate (1 := λ _ _, True). case_decide; [|by apply traced_ret].
      apply traced_orAsk, traced_bind. eapply traced_mono; [apply current_user_lists_nothing|].
      intros h' o _ _. apply traced_ret. destruct o; [by apply traced_ret|done..].
    + destruct r as [[u|e|]|]; [|done..]. eapply always_mono; [apply (RunList_accounted "" (lf_namespaceList f))|].
      intros tr r [Hj _]. by split.
  - intros tr r Hj kind sel x Hin. apply list_elem_of_split in Hin as (h & t & ->). by apply justified_at in Hj.
Qed.
End theory.
