(* ===== verification/ConsoleProgress.v ===== *)
(** The terminal interface comes back to its user: an unfinished run has asked as many
    questions as its rounds allow for, and a finished one does not depend on them. *)

From stdpp Require Import gmap strings list.
From Stdlib Require Import ZArith Lia.
From S2P Require Import Prelude History Text Float64 Types GpuResources WorkloadTypes Users Interactive ConsoleApi Console ConsoleSteps.

Section progress.
Context `{Host} `{TableLib} (ErrorText : error → string) (FormatRFC3339 : Z → string) (ParseIP : string → bool).

Abbreviation asked := (tally asks_user).

Lemma asked_app (tr tr' : trace ClientSig) : asked (tr ++ tr') = (asked tr + asked tr')%nat.
Proof. unfold tally. by rewrite List.filter_app, length_app. Qed.

(** * Programs that ask *)

(** [p] asks [n] times before it runs out of rounds. *)
Definition asking {A} (n : nat) (p : CM (session A)) : Prop := always anything p (λ tr r, r = Asking → (n <= asked tr)%nat).

Lemma asking_bind {A B} n (p : CM A) (k : A → CM (session B)) : (∀ a, asking n (k a)) → asking n (p ≫= k).
Proof.
  intros Hk. apply always_bind, always_exec. intros tr a _. eapply always_mono; [apply Hk|]. intros tr' r Hr E.
  rewrite asked_app. specialize (Hr E). lia.
Qed.

Lemma asking_orAsk {A B} n wrap (p : CM (session A)) (k : A → CM (session B)) :
  asking n p → (∀ a, asking n (k a)) → asking n (orAsk wrap p k).
Proof.
  intros Hp Hk. apply always_bind. eapply always_mono; [exact Hp|]. intros tr [[a|e|]|] Hr; [|by intros ?..|].
  - eapply always_mono; [apply Hk|]. intros tr' r Hr' E. rewrite asked_app. specialize (Hr' E). lia.
  - cbn. intros _. rewrite app_nil_r. by apply Hr.
Qed.

Lemma asking_done {A} n (o : outcome A) : asking n (mret (Done o)).
Proof. by intros ?. Qed.

Lemma asking_once {A} n (p : CM (outcome A)) : asking n (at_once p).
Proof. apply asking_bind. intros o. apply asking_done. Qed.

Lemma asking_orPanic {A} n (x : option A) : asking n (orPanic x).
Proof. destruct x; apply asking_done. Qed.

Lemma asking_table n data columns title : asking n (RunSelectTable ErrorText data columns title).
Proof.
  unfold RunSelectTable. destruct data as [|first data]; [apply asking_done|]. destruct (existsb _ _); [apply asking_done|].
  case_decide; [apply asking_done|]. apply asking_bind. intros [e|msgs]; apply asking_done.
Qed.

Create HintDb asking.
#[local] Hint Resolve asking_done asking_once asking_orPanic asking_table : asking.

Ltac asking_step :=
  match goal with
  | |- asking _ (orAsk _ _ _) => apply asking_orAsk; [|intros]
  | |- asking _ (mret (Done _)) => apply asking_done
  | |- asking _ (finish _) => apply asking_done
  | |- asking _ (failing _) => apply asking_done
  | |- asking _ crashing => apply asking_done
  | |- asking _ (_ ≫= _) => apply asking_bind; intros
  | |- asking _ (match ?x with _ => _ end) => destruct x
  end.
Ltac asks_enough := repeat first [progress eauto with asking | asking_step].

(** One that asks in every round. *)
Lemma asking_form {A St} n (body : St → CM (session (St + A))) s :
  (∀ s, always anything (body s) (λ tr r, (1 <= asked tr)%nat ∧ r ≠ Asking)) → asking n (rounds n body s).
Proof. apply rounds_asking. Qed.

Lemma askLines_asks s : always anything (askLines s) (λ tr r, (1 <= asked tr)%nat ∧ r ≠ Asking).
Proof. on_call r. cbn. split; [lia|]. destruct r as [e|[l f]]; [done|]. by repeat case_match. Qed.

Lemma askCommand_asks s : always anything (askCommand s) (λ tr r, (1 <= asked tr)%nat ∧ r ≠ Asking).
Proof.
  destruct s as [[[c ph] i] t]. on_call r. destruct r as [e|[[c' i'] t']]; [cbn; split; [lia|done]|].
  case_decide; [cbn; split; [lia|done]|]. apply always_bind, always_bind. on_call r. cbn. destruct r; cbn; (split; [lia|done]).
Qed.

Lemma askPort_asks s : always anything (askPort s) (λ tr r, (1 <= asked tr)%nat ∧ r ≠ Asking).
Proof. on_call r. cbn. split; [lia|]. destruct r as [e|[p c]]; [done|]. by repeat case_match. Qed.

Lemma askLocalPort_asks info s : always anything (askLocalPort ParseIP info s) (λ tr r, (1 <= asked tr)%nat ∧ r ≠ Asking).
Proof.
  on_call r. destruct r as [e|[[port host] confirm]]; [cbn; split; [lia|done]|]. cbv zeta.
  assert (always anything (if confirm : bool then finish (inl (port, host)) else finish (inr (Text.AtoiValue port, host, false)))
    (λ tr (r : session (string * string + Z * string * bool)), ∀ tr0, (1 <= asked tr0)%nat → (1 <= asked (tr0 ++ tr))%nat ∧ r ≠ Asking)) as Hagain.
  { destruct confirm; cbn; intros tr0 Ht; rewrite app_nil_r; done. }
  assert (∀ (p : CM (session (string * string + Z * string * bool))) e, asks_user e = true →
    always anything p (λ tr r, ∀ tr0, (1 <= asked tr0)%nat → (1 <= asked (tr0 ++ tr))%nat ∧ r ≠ Asking) →
    always anything p (λ tr r, (1 <= asked (e :: tr))%nat ∧ r ≠ Asking)) as Hfirst.
  { intros p e He Hp. eapply always_mono; [exact Hp|]. intros tr r Hr. apply (Hr [e]). unfold tally. cbn. rewrite He. cbn. lia. }
  apply Hfirst; [done|]. destruct (Str.Atoi port); [|exact Hagain]. case_decide; [exact Hagain|].
  destruct (isValidHost ParseIP host); cbn [negb]; [|exact Hagain]. apply always_bind. on_call free. cbn.
  destruct free; cbn [negb]; [|cbn; intros tr0 Ht; rewrite asked_app; cbn; split; [lia|done]].
  destruct confirm; cbn; intros tr0 Ht; rewrite asked_app; cbn; (split; [lia|done]).
Qed.

Lemma GetInfo_asking n ns t : asking n (GetInfo ErrorText n ns t).
Proof.
  destruct t as [svc p|c pod port pn pr|c pod]; cbn [GetInfo].
  - asks_enough.
  - apply asking_done.
  - apply asking_orAsk; [apply asking_form, askPort_asks|]. intros. apply asking_done.
Qed.

Lemma doPortForward_asking n s t : asking n (doPortForward ErrorText ParseIP n s t).
Proof.
  apply asking_orAsk; [apply GetInfo_asking|]. intros [info|]; [|apply asking_done].
  apply asking_orAsk; [apply asking_form, askLocalPort_asks|]. intros [[lp host] confirm]. asks_enough.
Qed.

Lemma PortForward_asking n s : asking n (runPortForward ErrorText ParseIP n s).
Proof.
  apply asking_orAsk; [apply asking_orPanic|]. intros w. apply asking_orAsk; [unfold discoverServices; asks_enough|]. intros services.
  apply asking_orAsk; [apply asking_once|]. intros pods. apply asking_orAsk; [apply asking_table|]. intros [i res].
  destruct res; try apply asking_done. apply asking_orAsk; [apply asking_orPanic|]. intros t.
  apply always_bind. eapply always_mono; [apply doPortForward_asking|]. intros tr [[[|]|e|]|] Hr; cbn; intros E; try done.
  rewrite app_nil_r. by apply Hr.
Qed.

Lemma runStep_asking n x s : asking n (runStep ErrorText FormatRFC3339 ParseIP n x s).
Proof.
  destruct x; cbn [runStep].
  - unfold RunSelectWorkloadType. asks_enough.
  - unfold runSelectWorkload, fetchWorkloads. asks_enough.
  - unfold runSelectWorkloadAction, selectAction. asks_enough.
  - unfold RunSelectPodAndContainer, deref. asks_enough.
  - unfold runSelectAndDoAction, selectAction, deref. asks_enough.
  - apply asking_orAsk; [apply asking_form, askLines_asks|intros a]. unfold deref. asks_enough.
  - unfold runMonitorAction, deref. asks_enough.
  - apply asking_orAsk; [apply asking_form, askCommand_asks|intros a]. unfold deref. asks_enough.
  - apply PortForward_asking.
  - unfold runDeleteWorkload, deref, spinning. asks_enough.
Qed.

(** * Steps that push *)

(** [p] does not lead to a further step without having asked. *)
Definition pushing (p : StepM) : Prop :=
  always anything p (λ tr r, ∀ next s, r = Done (Ok (StepResultOk, Some next, s)) → (1 <= asked tr)%nat).

Lemma pushing_bind {A} (p : CM A) (k : A → StepM) : (∀ a, pushing (k a)) → pushing (p ≫= k).
Proof.
  intros Hk. apply always_bind, always_exec. intros tr a _. eapply always_mono; [apply Hk|]. intros tr' r Hr next s E.
  rewrite asked_app. specialize (Hr next s E). lia.
Qed.

Lemma pushing_orAsk {A} wrap (p : CM (session A)) (k : A → StepM) : (∀ a, pushing (k a)) → pushing (orAsk wrap p k).
Proof. intros Hk. apply pushing_bind. intros [[a|e|]|]; [apply Hk|by intros ? ?..]. Qed.

(** What comes after a table comes after a question. *)
Lemma pushing_table wrap data columns title (k : Z * StepResult → StepM) :
  pushing (orAsk wrap (RunSelectTable ErrorText data columns title) k).
Proof.
  apply always_bind. unfold RunSelectTable. destruct data as [|first data]; [by intros ? ?|]. destruct (existsb _ _); [by intros ? ?|].
  case_decide; [by intros ? ?|]. on_call r. destruct r as [e|msgs]; [by intros ? ?|]. cbn [finish mret prog_ret always].
  apply always_exec. intros tr r _ next s _. cbn. lia.
Qed.

Lemma pushing_none res s : pushing (finish (res, None, s)).
Proof. by intros next s'. Qed.

Lemma pushing_failing (o : outcome (StepResult * option Step * RunState)) : (∀ a, o ≠ Ok a) → pushing (mret (Done o)).
Proof. intros Ho next s E. injection E as ->. by destruct (Ho _ eq_refl). Qed.

Lemma runStep_pushing n x s : pushing (runStep ErrorText FormatRFC3339 ParseIP n x s).
Proof.
  destruct x; cbn [runStep].
  - apply pushing_table.
  - apply pushing_orAsk. intros l. case_decide; [apply pushing_none|apply pushing_table].
  - apply pushing_table.
  - apply pushing_orAsk. intros w. apply pushing_orAsk. intros pods. case_decide; [apply pushing_none|apply pushing_table].
  - apply pushing_orAsk. intros w. apply pushing_table.
  - apply pushing_orAsk. intros [m f]. do 2 (apply pushing_orAsk; intros). apply pushing_none.
  - do 3 (apply pushing_orAsk; intros). apply pushing_none.
  - apply pushing_orAsk. intros [[c i] t]. do 2 (apply pushing_orAsk; intros). apply pushing_none.
  - do 3 (apply pushing_orAsk; intros). apply pushing_table.
  - do 2 (apply pushing_orAsk; intros). destruct (negb _); [apply pushing_none|]. apply pushing_orAsk. intros. apply pushing_none.
Qed.

(** A turn: what is left of the stack, and the questions. *)
Lemma turn_asks n c : always anything (turn ErrorText FormatRFC3339 ParseIP n c) (λ tr r,
  match r with
  | Done (Ok (inl c')) => (length c'.1 + 1 <= length c.1 + 2 * asked tr)%nat
  | Asking => (n <= asked tr)%nat
  | _ => True
  end).
Proof.
  destruct c as [[|x below] s]; cbn [turn]; [done|]. apply always_bind.
  eapply always_mono; [apply always_both; [apply (runStep_asking n x s)|apply (runStep_pushing n x s)]|].
  intros tr [[[[res next] s']|e|]|] [Ha Hp]; cbn; [|done|done|rewrite app_nil_r; by apply Ha].
  destruct res; cbn; try done; rewrite app_nil_r; [|lia]. destruct next as [nx|]; [|done]. cbn. specialize (Hp nx s' eq_refl). lia.
Qed.

Lemma turns_ask n k c : (k <= n)%nat →
  always anything (rounds k (turn ErrorText FormatRFC3339 ParseIP n) c) (λ tr r, r = Asking → (k <= 2 * asked tr + length c.1)%nat).
Proof.
  revert c. induction k as [|k IH]; intros c Hk; cbn [rounds]; [intros _; lia|]. apply always_bind.
  eapply always_mono; [apply turn_asks|]. intros tr [[[c'|[]]|e|]|] Hr; [|by intros ?..|].
  - eapply always_mono; [apply IH; lia|]. intros tr' r Hk' E. rewrite asked_app. specialize (Hk' E). lia.
  - cbn. intros _. rewrite app_nil_r. lia.
Qed.

(** * Rounds do not matter *)

Lemma extends_step n m x s : (n <= m)%nat →
  extends (runStep ErrorText FormatRFC3339 ParseIP n x s) (runStep ErrorText FormatRFC3339 ParseIP m x s).
Proof.
  intros Hm. destruct x; cbn [runStep]; try apply extends_refl.
  - apply extends_orAsk; [apply extends_rounds; [done|intros; apply extends_refl]|]. intros. apply extends_refl.
  - apply extends_orAsk; [apply extends_rounds; [done|intros; apply extends_refl]|]. intros. apply extends_refl.
  - apply extends_orAsk; [apply extends_refl|]. intros w. apply extends_orAsk; [apply extends_refl|]. intros services.
    apply extends_orAsk; [apply extends_refl|]. intros pods. apply extends_orAsk; [apply extends_refl|]. intros [i res].
    destruct res; try apply extends_refl. apply extends_orAsk; [apply extends_refl|]. intros t tr o Hex.
    apply exec_bind in Hex as (tr1 & tr2 & r & -> & H1 & H2). apply exec_bind. exists tr1, tr2, r. split; [done|]. split; [|done].
    destruct r as [o'|]; [|by inversion H2]. revert H1. apply extends_orAsk.
    + destruct t as [svc p|c pod port pn pr|c pod]; try apply extends_refl.
      apply extends_orAsk; [apply extends_rounds; [done|intros; apply extends_refl]|]. intros. apply extends_refl.
    + intros [info|]; [|apply extends_refl]. apply extends_orAsk; [apply extends_rounds; [done|intros; apply extends_refl]|].
      intros. apply extends_refl.
Qed.

Lemma extends_turn n m c : (n <= m)%nat →
  extends (turn ErrorText FormatRFC3339 ParseIP n c) (turn ErrorText FormatRFC3339 ParseIP m c).
Proof.
  intros Hm. destruct c as [[|x below] s]; cbn [turn]; [apply extends_refl|].
  apply extends_orAsk; [by apply extends_step|]. intros. apply extends_refl.
Qed.

(** C29: The loop over the steps comes back to the user and does not hang on its own: a run that
    is not over after [n] rounds has asked the user at least about n/2 times, and a run that
    is over is the same with any larger number of rounds. *)
Theorem RunSteps_comes_back n s entrypoint :
  always anything (RunSteps ErrorText FormatRFC3339 ParseIP n s entrypoint) (λ tr r, r = Asking → (n <= 2 * asked tr + 1)%nat) ∧
  ∀ m, (n <= m)%nat →
    extends (RunSteps ErrorText FormatRFC3339 ParseIP n s entrypoint) (RunSteps ErrorText FormatRFC3339 ParseIP m s entrypoint).
Proof.
  split.
  - apply (turns_ask n n ([entrypoint], s)). done.
  - intros m Hm. apply extends_rounds; [done|]. intros c. by apply extends_turn.
Qed.
End progress.
