(* ===== verification/LogLines.v ===== *)
(** The lines and events of the log dump (pkg/cli/dev/main.go): the calls of the tool, the
    levels of log entries, and how a line of a log or an event of the cluster becomes an
    entry. *)

From stdpp Require Import gmap strings list pretty.
From Stdlib Require Import ZArith Lia.
From S2P Require Import Prelude Text Runes Types Naming Scripts Users.

(** * Values *)

(** A decoded JSON value, numbers as their text ([UseNumber]), and the integers the tool
    puts among them. *)
#[warnings="-register-all"]
Inductive LogValue :=
| LvNull
| LvBool (b : bool)
| LvNumber (text : string)
| LvInt (z : Z)
| LvString (s : string)
| LvList (l : list LogValue)
| LvMap (m : list (string * LogValue)).

(** A [time.Time] is in nanoseconds since 1970; the zero time is the first of January of
    year 1. *)
Definition zeroTime : Z := - 62135596800 * 10 ^ 9.
Definition isZeroTime (t : Z) : bool := bool_decide (t = zeroTime).

(** [Extras] is a map that may be nil. *)
Record logEntry := {
  le_Time : Z;
  le_Level : string;
  le_Source : string;
  le_Namespace : string;
  le_Message : string;
  le_Extras : option (gmap string LogValue)
}.

Definition srcEvent : string := "Event".
Definition srcKueue : string := "Kueue".
Definition srcRay : string := "Ray".
Definition srcKaiwo : string := "Kaiwo".
Definition srcNamespacePod : string := "NamespacePod".

Definition levelTrace : string := "trace".
Definition levelDebug : string := "debug".
Definition levelInfo : string := "info".
Definition levelWarn : string := "warn".
Definition levelError : string := "error".
Definition levelFatal : string := "fatal".

(** [time.Parse] with the layouts [RFC3339Nano] and [RFC3339], the JSON decoder, the format
    of the time of an entry in UTC, [%.3f] of the seconds of a duration, and [%q]. *)
Class LogLib := {
  ParseRFC3339Nano : string → option Z;
  ParseRFC3339 : string → option Z;
  DecodeObject : string → option (gmap string LogValue);
  FormatTime : Z → string;
  FormatSeconds : Z → string;
  Quote : string → string
}.

(** * Calls *)

Record DumpPod := { dp_Namespace : string; dp_Name : string; dp_Containers : list string }.

(** [dd_MatchLabels] is missing when the deployment has no selector. *)
Record DumpDeployment := { dd_Namespace : string; dd_Name : string; dd_MatchLabels : option (gmap string string) }.

(** An event of events.k8s.io/v1; the series has its last time and its count. *)
Record EventV1 := {
  ev_EventTime : Z;
  ev_Series : option (Z * Z);
  ev_DeprecatedLastTimestamp : Z;
  ev_DeprecatedFirstTimestamp : Z;
  ev_CreationTimestamp : Z;
  ev_Type : string;
  ev_Reason : string;
  ev_Note : string;
  ev_DeprecatedCount : Z;
  ev_RegardingKind : string;
  ev_RegardingName : string;
  ev_ReportingController : string
}.

(** An event of the core group. *)
Record EventCore := {
  ec_EventTime : Z;
  ec_LastTimestamp : Z;
  ec_FirstTimestamp : Z;
  ec_Type : string;
  ec_Reason : string;
  ec_Message : string;
  ec_Count : Z;
  ec_InvolvedKind : string;
  ec_InvolvedName : string;
  ec_ReportingController : string
}.

(** Besides the clock, the server, files and the terminal there are calls for what the Go
    scheduler decides: the order in which the entries of goroutines arrive, the error an
    [errgroup] reports, and whether a goroutine nobody waits for sends after the channel
    is closed. *)
Inductive dump_req :=
| TimeNow
| BuildKubeClient
| ListNamespacePods (namespace : string)
| ListSelectedPods (namespace : string) (labels : gmap string string)
| ListEventsV1 (namespace : string)
| ListEventsCore (namespace : string)
| GetDumpDeployment (namespace name : string)
| OpenStream (namespace pod container : string) (tail : option Z)
| ReadStream (namespace pod container : string)
| CloseStream (namespace pod container : string)
| OpenLocal (path : string)
| ReadLocal (path : string)
| CloseLocal (path : string)
| Schedule (sizes : list nat)
| FirstError (errs : list error)
| SentLate
| Println (text : string)
| PrintError (text : string).

(** Reading gives the lines that were read and the error of the scanner. *)
Definition dump_resp (r : dump_req) : Type :=
  match r with
  | TimeNow => Z
  | BuildKubeClient | OpenStream _ _ _ _ | CloseStream _ _ _ | OpenLocal _ | CloseLocal _ => option error
  | ListNamespacePods _ | ListSelectedPods _ _ => error + list DumpPod
  | ListEventsV1 _ => error + list EventV1
  | ListEventsCore _ => error + list EventCore
  | GetDumpDeployment _ _ => error + DumpDeployment
  | ReadStream _ _ _ | ReadLocal _ => list string * option error
  | Schedule _ => list nat
  | FirstError _ => nat
  | SentLate => bool
  | Println _ | PrintError _ => unit
  end.

Definition DumpSig : sig := Sig dump_req dump_resp.
Abbreviation DM := (prog DumpSig).

(** * Texts *)

Definition textOf (s : list Ascii.ascii) : string := String.string_of_list_ascii s.

(** [strings.TrimSpace], Unicode spaces included. *)
Definition trimmed (s : string) : string := textOf (trimSpace (Text.chars s)).

Definition lowerString (s : string) : string := Str.ToLower (trimmed s).

(** [strings.ToLower] for a comparison with ASCII texts. *)
Definition lowerKey (s : string) : string := textOf (lowered (Text.chars s)).

(** [strings.EqualFold] with an ASCII text: besides the letters of ASCII, the Kelvin sign
    folds to k and the long s to s. *)
Definition foldRune (r : Z) : Z :=
  if decide (65 <= r <= 90) then r + 32 else if decide (r = 8490) then 107 else if decide (r = 383) then 115 else r.

Definition EqualFold (s target : string) : bool :=
  bool_decide (foldRune <$> decodeRunes (Text.chars s) = foldRune <$> decodeRunes (Text.chars target)).

(** * Levels *)

(** The levels of zap. *)
Definition zapLevel (i : Z) : string :=
  if decide (i <= -2) then levelTrace
  else if decide (i = -1) then levelDebug
  else if decide (i = 0) then levelInfo
  else if decide (i = 1) then levelWarn
  else if decide (5 <= i) then levelFatal
  else levelError.

(** [^level\((-?\d+)\)$] on a text in lower case: what is between the parentheses. *)
Definition levelParen (s : string) : option string :=
  if negb (Str.HasPrefix s "level(" && Str.HasSuffix s ")") then None
  else
    let inner := take (length (Text.chars s) - 7) (drop 6 (Text.chars s)) in
    let digits := match inner with c :: l => if decide (c = Ascii.ascii_of_nat 45) then l else inner | [] => [] end in
    if bool_decide (digits ≠ []) && forallb isNumeral digits then Some (textOf inner) else None.

Definition normalizeLevel (raw : string) : string :=
  let s := trimmed (Str.ToLower raw) in
  if decide (s = "") then levelInfo
  else
    match Str.Atoi s with
    | Some i => zapLevel i
    | None =>
        match m ← levelParen s; Str.Atoi m with
        | Some i => zapLevel i
        | None => if decide (s = "warning") then levelWarn else s
        end
    end.

Definition levelRank (level : string) : option Z :=
  snd <$> List.find (λ r, bool_decide (r.1 = level))
    [(levelTrace, 0); (levelDebug, 1); (levelInfo, 2); (levelWarn, 3); ("warning", 3); (levelError, 4); (levelFatal, 5)].

(** An unknown level counts as [info]. *)
Definition severityRank (s : string) : Z := default 2 (levelRank (lowerString s)).

Definition atLeast (level min : string) : bool := bool_decide (severityRank min <= severityRank level).

(** * Lines *)

Section lines.
Context `{GoOrder} `{LogLib}.

(** [fmt.Sprint]; maps are printed in the order of their keys. *)
Fixpoint Sprint (v : LogValue) : string :=
  match v with
  | LvNull => "<nil>"
  | LvBool b => if b then "true" else "false"
  | LvNumber text => text
  | LvInt z => pretty z
  | LvString s => s
  | LvList l => "[" +:+ Str.Join (map Sprint l) " " +:+ "]"
  | LvMap m =>
      let entries := map (λ '(k, v), (k, Sprint v)) m in
      "map[" +:+ Str.Join (map (λ e, e.1 +:+ ":" +:+ e.2) (sortSlice (λ a b, Str.lt a.1 b.1) entries)) " " +:+ "]"
  end.

Definition valueText (v : LogValue) : string := match v with LvString s => s | _ => Sprint v end.

(** For each key the entry of that name, or the first one found whose name differs from it
    in case only. *)
Fixpoint getStringAny (m : gmap string LogValue) (keys : list string) : string :=
  match keys with
  | [] => ""
  | k :: keys' =>
      match m !! k with
      | Some v => valueText v
      | None =>
          match List.find (λ e, EqualFold e.1 k) (rangeMap m) with
          | Some e => valueText e.2
          | None => getStringAny m keys'
          end
      end
  end.

(** Seconds, or milliseconds when the number is large. *)
Definition unixTime (i : Z) : Z := if decide (10 ^ 12 < i) then i * 10 ^ 6 else i * 10 ^ 9.

(** Numbers are never floats here, for the decoder keeps their text. *)
Definition timeOf (v : LogValue) : option Z :=
  match v with
  | LvString s => match ParseRFC3339Nano s with Some t => Some t | None => ParseRFC3339 s end
  | LvNumber text => unixTime <$> Str.Atoi text
  | _ => None
  end.

Definition extractTimeFromMap (m : gmap string LogValue) : Z :=
  default zeroTime (head (omap (λ k, m !! k ≫= timeOf) ["ts"; "time"; "timestamp"; "t"])).

Definition entryKeys : list string :=
  ["ts"; "time"; "timestamp"; "t"; "level"; "lvl"; "severity"; "msg"; "message"; "log"; "namespace"; "ns"; "kubernetes.namespace_name"].

Definition extrasOf (payload : gmap string LogValue) : gmap string LogValue := filter (λ e, lowerKey e.1 ∉ entryKeys) payload.

Definition jsonEntry (time : Z) (payload : gmap string LogValue) : logEntry :=
  {| le_Time := time;
     le_Level := normalizeLevel (lowerString (getStringAny payload ["level"; "lvl"; "severity"]));
     le_Source := "";
     le_Namespace := getStringAny payload ["namespace"; "ns"; "kubernetes.namespace_name"];
     le_Message := getStringAny payload ["msg"; "message"; "log"];
     le_Extras := Some (extrasOf payload) |}.

Definition looksJSON (s : string) : bool := Str.HasPrefix s "{" && Str.HasSuffix s "}".

Definition decodeLine (line : string) : option (gmap string LogValue) :=
  if looksJSON (trimmed line) then DecodeObject (trimmed line) else None.

Definition parseJSONLine (ts : Z) (line : string) : DM (option logEntry) :=
  match decodeLine line with
  | None => mret None
  | Some payload =>
      time ← (if negb (isZeroTime ts) then mret ts
              else if negb (isZeroTime (extractTimeFromMap payload)) then mret (extractTimeFromMap payload)
              else call (S := DumpSig) TimeNow);
      mret (Some (jsonEntry time payload))
  end.

Definition textEntry (time : Z) (text : string) : logEntry :=
  {| le_Time := time; le_Level := levelInfo; le_Source := ""; le_Namespace := ""; le_Message := text; le_Extras := Some ∅ |}.

Definition parseGenericLine (ts : Z) (line : string) : DM logEntry :=
  ts ← (if isZeroTime ts then call (S := DumpSig) TimeNow else mret ts);
  let trim := trimmed line in
  e ← (if looksJSON trim then parseJSONLine ts trim else mret None);
  mret (match e with Some e => e | None => textEntry ts trim end).

(** [^\d{4}-\d{2}-\d{2}T[^ ]+]. *)
Definition startsWithTimestamp (s : list Ascii.ascii) : bool :=
  let digit i := match s !! i with Some c => isNumeral c | None => false end in
  let dash i := bool_decide (s !! i = Some Naming.dashChar) in
  forallb digit [0; 1; 2; 3; 5; 6; 8; 9]%nat && dash 4%nat && dash 7%nat && bool_decide (s !! 10%nat = Some (Ascii.ascii_of_nat 84)) &&
  match s !! 11%nat with Some c => bool_decide (c ≠ Ascii.ascii_of_nat 32) | None => false end.

Definition splitLeadingTimestamp (line : string) : option (Z * string) :=
  if negb (startsWithTimestamp (Text.chars line)) then None
  else
    '(raw, rest) ← cutFirst (Ascii.ascii_of_nat 32) (Text.chars line);
    t ← match ParseRFC3339Nano (textOf raw) with Some t => Some t | None => ParseRFC3339 (textOf raw) end;
    Some (t, textOf (trimSpace rest)).

Definition withSource (source defaultNamespace : string) (e : logEntry) : logEntry :=
  {| le_Time := le_Time e; le_Level := le_Level e; le_Source := source;
     le_Namespace := if decide (le_Namespace e = "") then defaultNamespace else le_Namespace e;
     le_Message := le_Message e; le_Extras := le_Extras e |}.

(** What the callbacks of [streamPodLogs] send; only that of the pods of the namespace has a
    namespace to fall back on. *)
Definition lineEntry (source defaultNamespace : string) (ts : Z) (line : string) : DM logEntry :=
  e ← parseJSONLine ts line;
  e ← match e with Some e => mret e | None => parseGenericLine ts line end;
  mret (withSource source defaultNamespace e).

(** * Events *)

Definition eventLevel (type : string) : string := if EqualFold type "Warning" then levelWarn else levelInfo.

Definition eventMessage (reason note : string) : string := if decide (reason ≠ "") then "[" +:+ reason +:+ "] " +:+ note else note.

Definition eventExtras (reason : string) (count : Z) (kind name reporting type : string) : gmap string LogValue :=
  list_to_map [("reason", LvString reason); ("count", LvInt count); ("involved", LvString (kind +:+ "/" +:+ name));
               ("reporting", LvString reporting); ("event_type", LvString type)].

Definition firstTime (times : list Z) (now : DM Z) : DM Z :=
  match List.find (λ t, negb (isZeroTime t)) times with Some t => mret t | None => now end.

Definition timesV1 (e : EventV1) : list Z :=
  [ev_EventTime e; from_option fst zeroTime (ev_Series e); ev_DeprecatedLastTimestamp e; ev_DeprecatedFirstTimestamp e; ev_CreationTimestamp e].

Definition countV1 (e : EventV1) : Z :=
  let series := from_option snd 0 (ev_Series e) in
  if decide (0 < series) then series else if decide (0 < ev_DeprecatedCount e) then ev_DeprecatedCount e else 0.

Definition entryV1 (namespace : string) (time : Z) (e : EventV1) : logEntry :=
  {| le_Time := time; le_Level := eventLevel (ev_Type e); le_Source := srcEvent; le_Namespace := namespace;
     le_Message := eventMessage (ev_Reason e) (ev_Note e);
     le_Extras := Some (eventExtras (ev_Reason e) (countV1 e) (ev_RegardingKind e) (ev_RegardingName e) (ev_ReportingController e) (ev_Type e)) |}.

Definition timesCore (e : EventCore) : list Z := [ec_EventTime e; ec_LastTimestamp e; ec_FirstTimestamp e].

Definition entryCore (namespace : string) (time : Z) (e : EventCore) : logEntry :=
  {| le_Time := time; le_Level := eventLevel (ec_Type e); le_Source := srcEvent; le_Namespace := namespace;
     le_Message := eventMessage (ec_Reason e) (ec_Message e);
     le_Extras := Some (eventExtras (ec_Reason e) (ec_Count e) (ec_InvolvedKind e) (ec_InvolvedName e) (ec_ReportingController e) (ec_Type e)) |}.
End lines.
