(* ===== verification/LogDump.v ===== *)
(** The log dump (pkg/cli/dev/main.go): its goroutines collect the entries of pods,
    controllers, local files and events, and the command sorts, filters and prints them.
    Goroutines are run one after the other here, since nothing is assumed about the
    answers each of them gets; what depends on their interleaving, the order in which
    their entries arrive and the error that is reported, is asked of the scheduler. *)

From stdpp Require Import gmap strings list pretty.
From Stdlib Require Import ZArith Lia.
From S2P Require Import Prelude Text Runes Types Naming Scripts Downloads LogLines.

(** * Goroutines *)

(** The lists of entries goroutines send, arriving in one channel: the schedule says whose
    turn it is, and what it leaves comes at the end. *)
Fixpoint arriving {A} (schedule : list nat) (sent : list (list A)) : list A :=
  match schedule with
  | [] => mjoin sent
  | i :: schedule' =>
      match sent !! i with
      | Some (x :: rest) => x :: arriving schedule' (<[i := rest]> sent)
      | _ => arriving schedule' sent
      end
  end.

(** What a goroutine has sent, and how it ended. *)
Definition sends : Type := list logEntry * outcome unit.

Fixpoint runAll {A} (ps : list (DM A)) : DM (list A) :=
  match ps with [] => mret [] | p :: ps' => a ← p; l ← runAll ps'; mret (a :: l) end.

Definition panicked (r : sends) : bool := match r.2 with Panics => true | _ => false end.
Definition errorOf (r : sends) : option error := match r.2 with Err e => Some e | _ => None end.

(** [group.Go] and [group.Wait]: a panic ends the program, and of several errors the first
    one is returned. *)
Definition waitGroup (ps : list (DM sends)) : DM sends :=
  rs ← runAll ps;
  schedule ← call (S := DumpSig) (Schedule (map (λ r, length r.1) rs));
  let sent := arriving schedule (map fst rs) in
  if existsb panicked rs then mret (sent, Panics)
  else
    match omap errorOf rs with
    | [] => mret (sent, Ok ())
    | err :: errs => i ← call (S := DumpSig) (FirstError (err :: errs)); mret (sent, Err (nth i (err :: errs) err))
    end.

Section dump.
Context `{GoOrder} `{LogLib} (ErrorText : error → string).

(** * Collecting *)

(** The backoff tries up to three more times. *)
Fixpoint openAgain (steps : nat) (namespace pod container : string) (tail : option Z) : DM bool :=
  match steps with
  | O => mret false
  | S steps' =>
      r ← call (S := DumpSig) (OpenStream namespace pod container tail);
      match r with None => mret true | Some _ => openAgain steps' namespace pod container tail end
  end.

Definition streamLine (onLine : Z → string → DM logEntry) (line : string) : DM logEntry :=
  match splitLeadingTimestamp line with
  | Some (ts, rest) => onLine ts rest
  | None => now ← call (S := DumpSig) TimeNow; onLine now line
  end.

(** What a deferred [Close] makes of the end of a function. *)
Definition closed (r : option error) (err : option error) : outcome unit :=
  match r with Some _ => Panics | None => of_err err end.

Definition streamPodLogs (namespace podName containerName : string) (limit : Z) (onLine : Z → string → DM logEntry) : DM sends :=
  let tail := if decide (0 < limit) then Some limit else None in
  r ← call (S := DumpSig) (OpenStream namespace podName containerName tail);
  opened ← match r with None => mret true | Some _ => openAgain 3 namespace podName containerName tail end;
  if negb opened then
    mret ([], Err (Errorf ("unable to stream logs for " +:+ namespace +:+ "/" +:+ podName +:+ "[" +:+ containerName +:+ "]")))
  else
    '(lines, err) ← call (S := DumpSig) (ReadStream namespace podName containerName);
    entries ← runAll (map (streamLine onLine) lines);
    r ← call (S := DumpSig) (CloseStream namespace podName containerName);
    mret (entries, closed r err).

(** One goroutine for each container. *)
Definition streamAll (limit : Z) (onLine : Z → string → DM logEntry) (pods : list DumpPod) : DM sends :=
  waitGroup (pods ≫= λ pod, (λ container, streamPodLogs (dp_Namespace pod) (dp_Name pod) container limit onLine) <$> dp_Containers pod).

Definition failed (e : error) : DM sends := mret ([], Err e).

Definition collectNamespacePodLogs (namespace : string) (limit : Z) : DM sends :=
  r ← call (S := DumpSig) (ListNamespacePods namespace);
  match r with
  | inl e => failed e
  | inr pods => streamAll limit (lineEntry srcNamespacePod namespace) pods
  end.

Definition eventEntryV1 (namespace : string) (e : EventV1) : DM logEntry :=
  t ← firstTime (timesV1 e) (call (S := DumpSig) TimeNow); mret (entryV1 namespace t e).

Definition collectEventsV1 (namespace : string) : DM sends :=
  r ← call (S := DumpSig) (ListEventsV1 namespace);
  match r with
  | inl e => failed e
  | inr events => entries ← runAll (map (eventEntryV1 namespace) events); mret (entries, Ok ())
  end.

Definition eventEntryCore (namespace : string) (now : Z) (e : EventCore) : DM logEntry :=
  t ← firstTime (timesCore e) (mret now); mret (entryCore namespace t e).

Definition collectEventsCoreV1 (namespace : string) : DM sends :=
  r ← call (S := DumpSig) (ListEventsCore namespace);
  match r with
  | inl e => failed e
  | inr events =>
      now ← call (S := DumpSig) TimeNow;
      entries ← runAll (map (eventEntryCore namespace now) events);
      mret (entries, Ok ())
  end.

(** The first list fails before it sends anything. *)
Definition collectEvents (namespace : string) : DM sends :=
  '(sent, o) ← collectEventsV1 namespace;
  match o with
  | Err e =>
      _ ← call (S := DumpSig) (Println ("collectEventsV1: " +:+ ErrorText e));
      '(sent', o) ← collectEventsCoreV1 namespace;
      mret (sent ++ sent', o)
  | Ok _ => _ ← call (S := DumpSig) (Println "Ok!"); mret (sent, o)
  | Panics => mret (sent, o)
  end.

Definition splitNamespaceName (s : string) : error + (string * string) :=
  match Str.Split s slashChar with
  | [namespace; name] =>
      if decide (namespace = "" ∨ name = "") then inl (Errorf ("expected namespace/name, got " +:+ Quote s)) else inr (namespace, name)
  | _ => inl (Errorf ("expected namespace/name, got " +:+ Quote s))
  end.

(** A deployment without a selector is dereferenced. *)
Definition collectDeploymentLogs (namespace name source : string) (limit : Z) : DM sends :=
  r ← call (S := DumpSig) (GetDumpDeployment namespace name);
  match r with
  | inl e => failed e
  | inr deployment =>
      match dd_MatchLabels deployment with
      | None => mret ([], Panics)
      | Some labels =>
          r ← call (S := DumpSig) (ListSelectedPods namespace labels);
          match r with
          | inl e => failed e
          | inr [] => failed (Errorf ("no pods for deployment " +:+ namespace +:+ "/" +:+ name))
          | inr pods => streamAll limit (lineEntry source "") pods
          end
      end
  end.

Definition sourceOf (name : string) : string := if Str.Contains (lowerKey name) "ray" then srcRay else srcKueue.

(** The goroutines that are started before the first deployment that cannot be split, and
    the error of that one. *)
Fixpoint startControllers (deployments : list string) (limit : Z) : list (DM sends) * option error :=
  match deployments with
  | [] => ([], None)
  | d :: rest =>
      match splitNamespaceName d with
      | inl e => ([], Some e)
      | inr (namespace, name) =>
          let '(started, err) := startControllers rest limit in
          (collectDeploymentLogs namespace name (sourceOf name) limit :: started, err)
      end
  end.

(** Nobody waits for the goroutines that were started before such an error: one that sends
    after the channel is closed panics. *)
Definition collectControllerLogs (deployments : list string) (limit : Z) : DM sends :=
  let '(started, err) := startControllers deployments limit in
  match err with
  | None => waitGroup started
  | Some e =>
      '(sent, o) ← waitGroup started;
      late ← call (S := DumpSig) SentLate;
      mret (sent, match o with Panics => Panics | _ => if late && negb (bool_decide (sent = [])) then Panics else Err e end)
  end.

(** Whether the deployment was found. *)
Definition collectKaiwoLogs (deployment : string) (limit : Z) : DM (bool * sends) :=
  match splitNamespaceName deployment with
  | inl e => mret (false, ([], Err e))
  | inr (namespace, name) =>
      r ← call (S := DumpSig) (GetDumpDeployment namespace name);
      match r with
      | inl _ => mret (false, ([], Ok ()))
      | inr dep => s ← collectDeploymentLogs (dd_Namespace dep) (dd_Name dep) srcKaiwo limit; mret (true, s)
      end
  end.

Definition localLine (line : string) : DM logEntry :=
  match splitLeadingTimestamp line with
  | Some (ts, rest) => lineEntry srcKaiwo "" ts rest
  | None =>
      e ← parseJSONLine zeroTime line;
      match e with
      | Some e => mret (withSource srcKaiwo "" e)
      | None => now ← call (S := DumpSig) TimeNow; mret (withSource srcKaiwo "" (textEntry now (trimmed line)))
      end
  end.

Definition collectLocalKaiwo (path : string) : DM sends :=
  r ← call (S := DumpSig) (OpenLocal (Clean path));
  match r with
  | Some e => failed e
  | None =>
      '(lines, err) ← call (S := DumpSig) (ReadLocal (Clean path));
      entries ← runAll (map localLine lines);
      r ← call (S := DumpSig) (CloseLocal (Clean path));
      mret (entries, closed r err)
  end.

(** * Filtering *)

Record options := {
  controllerDeployments : list string;
  kaiwoDeployment : string;
  localLogsPath : string;
  limitLines : Z;
  namespacedLevel : string;
  clusterLevel : string
}.

Definition isNamespaced (testNamespace : string) (e : logEntry) : bool := bool_decide (le_Namespace e = testNamespace).

(** The times of the first and the last entry of the namespace, zero without one. *)
Definition windowStart (testNamespace : string) (entries : list logEntry) : Z :=
  from_option le_Time zeroTime (List.find (isNamespaced testNamespace) entries).
Definition windowEnd (testNamespace : string) (entries : list logEntry) : Z := windowStart testNamespace (reverse entries).

Definition keepEntry (testNamespace : string) (opts : options) (start stop : Z) (e : logEntry) : bool :=
  if isNamespaced testNamespace e then atLeast (le_Level e) (namespacedLevel opts)
  else
    negb (isZeroTime start) && negb (isZeroTime stop) &&
    bool_decide (start <= le_Time e <= stop) && atLeast (le_Level e) (clusterLevel opts).

Definition filterEntries (entries : list logEntry) (testNamespace : string) (opts : options) : list logEntry :=
  filter (λ e, keepEntry testNamespace opts (windowStart testNamespace entries) (windowEnd testNamespace entries) e = true) entries.

(** * Resources *)

Fixpoint getStringFromExtras (extras : gmap string LogValue) (keys : list string) : string :=
  match keys with
  | [] => ""
  | k :: keys' => match extras !! k with Some v => valueText v | None => getStringFromExtras extras keys' end
  end.

(** A nested object with a name. *)
Definition nestedResource (e : string * LogValue) : option string :=
  match e.2 with
  | LvMap fields =>
      let m := list_to_map fields in
      let objName := getStringFromExtras m ["name"] in
      let objNamespace := getStringFromExtras m ["namespace"] in
      if decide (objName ≠ "" ∧ objNamespace ≠ "") then Some (e.1 +:+ "/" +:+ objNamespace +:+ "/" +:+ objName)
      else if decide (objName ≠ "") then Some (e.1 +:+ "/" +:+ objName)
      else None
  | _ => None
  end.

Definition extractResourceInfo (e : logEntry) : string :=
  let fallback := if decide (le_Namespace e ≠ "") then "ns/" +:+ le_Namespace e else "" in
  match le_Extras e with
  | None => fallback
  | Some extras =>
      let get keys := getStringFromExtras extras keys in
      let kind := get ["controllerKind"; "kind"] in
      let name := get ["name"] in
      let namespace := get ["namespace"] in
      if decide (kind ≠ "" ∧ name ≠ "" ∧ namespace ≠ "") then kind +:+ "/" +:+ namespace +:+ "/" +:+ name
      else if decide (kind ≠ "" ∧ name ≠ "") then kind +:+ "/" +:+ name
      else
        match head (omap nestedResource (rangeMap extras)) with
        | Some r => r
        | None =>
            if decide (name ≠ "" ∧ namespace ≠ "") then namespace +:+ "/" +:+ name
            else if decide (name ≠ "") then name
            else if decide (get ["workload"] ≠ "") then
              if decide (get ["queue"] ≠ "") then "queue/" +:+ get ["queue"] +:+ "/workload/" +:+ get ["workload"]
              else "workload/" +:+ get ["workload"]
            else if decide (get ["clusterQueue"; "cluster-queue"] ≠ "") then "clusterQueue/" +:+ get ["clusterQueue"; "cluster-queue"]
            else if decide (get ["resourceQuota"] ≠ "") then
              if decide (namespace ≠ "") then "resourceQuota/" +:+ namespace +:+ "/" +:+ get ["resourceQuota"]
              else "resourceQuota/" +:+ get ["resourceQuota"]
            else if decide (get ["involved"] ≠ "") then
              if decide (namespace ≠ "") then namespace +:+ "/" +:+ get ["involved"] else get ["involved"]
            else if decide (get ["pod"] ≠ "") then
              if decide (namespace ≠ "") then "pod/" +:+ namespace +:+ "/" +:+ get ["pod"] else "pod/" +:+ get ["pod"]
            else if decide (get ["controller"] ≠ "") then "controller/" +:+ get ["controller"]
            else fallback
        end
  end.

(** * Printing *)

Definition color (code : string) : string := String (Ascii.ascii_of_nat 27) ("[" +:+ code +:+ "m").
Definition colorReset : string := color "0".
Definition colorGray : string := color "90".
Definition colorWhite : string := color "97".
Definition colorOrange : string := color "38;5;214".

Definition colorIn (colors : list (string * string)) (key : string) : string :=
  default colorGray (snd <$> List.find (λ c, bool_decide (c.1 = key)) colors).

Definition sourceColors : list (string * string) :=
  [(srcEvent, color "35"); (srcKueue, color "36"); (srcRay, color "33"); (srcKaiwo, color "32"); (srcNamespacePod, color "34")].

Definition levelColors : list (string * string) :=
  [(levelTrace, colorGray); (levelDebug, colorGray); (levelInfo, color "32"); (levelWarn, color "33"); (levelError, color "31"); (levelFatal, color "91")].

(** [%-ns]: blanks up to a width in runes. *)
Definition padRight (n : nat) (s : string) : string :=
  s +:+ textOf (replicate (n - length (decodeRunes (Text.chars s))) (Ascii.ascii_of_nat 32)).

Definition levelOrDefault (l : string) : string := if decide (l = "") then "INFO" else l.

Definition extrasText (extras : gmap string LogValue) : string :=
  if decide (extras = ∅) then ""
  else
    " " +:+ colorGray +:+
    Str.Join (map (λ k, k +:+ "=" +:+ from_option Sprint "" (extras !! k)) (sortSlice Str.lt (rangeMap extras).*1)) " " +:+ colorReset.

Definition printEntry (baseTime : Z) (e : logEntry) : string :=
  let age := FormatSeconds (time_sub (le_Time e) baseTime) in
  let level := if decide (lowerString (le_Level e) = "") then levelInfo else lowerString (le_Level e) in
  let namespaceStr := if decide (le_Namespace e ≠ "") then " " +:+ colorGray +:+ "ns=" +:+ le_Namespace e +:+ colorReset else "" in
  let resource := extractResourceInfo e in
  let resourceStr := if decide (resource ≠ "") then " " +:+ colorOrange +:+ padRight 20 resource +:+ colorReset else " " +:+ padRight 20 "" in
  FormatTime (le_Time e) +:+ " (" +:+ age +:+ "s)  " +:+
  colorIn levelColors level +:+ padRight 9 (Str.ToUpper (levelOrDefault level)) +:+ colorReset +:+ "  " +:+
  colorIn sourceColors (le_Source e) +:+ le_Source e +:+ colorReset +:+ resourceStr +:+ "  " +:+
  colorWhite +:+ le_Message e +:+ colorReset +:+ namespaceStr +:+ from_option extrasText "" (le_Extras e).

(** * The command *)

Definition kaiwoLogs (opts : options) : DM sends :=
  '(found, s) ← collectKaiwoLogs (kaiwoDeployment opts) (limitLines opts);
  match s.2 with
  | Ok _ =>
      if found : bool then mret s
      else if decide (localLogsPath opts = "") then
        _ ← call (S := DumpSig) (PrintError "Kaiwo deployment not found and --local-logs not provided; skipping Kaiwo logs");
        mret s
      else '(sent, o) ← collectLocalKaiwo (localLogsPath opts); mret (s.1 ++ sent, o)
  | _ => mret s
  end.

Definition timeBefore (a b : logEntry) : bool := bool_decide (le_Time a < le_Time b).

(** What is printed of what was sent. *)
Definition shownEntries (testNamespace : string) (opts : options) (sent : list logEntry) : list logEntry :=
  filterEntries (sortSlice timeBefore (filter (λ e, isZeroTime (le_Time e) = false) sent)) testNamespace opts.

Definition printedLines (entries : list logEntry) : list string :=
  match entries with [] => [] | first :: _ => map (printEntry (le_Time first)) entries end.

Definition printLine (line : string) : DM unit := call (S := DumpSig) (Println line).

Definition kaiwoDump (opts : options) (testNamespace : string) : DM (outcome unit) :=
  r ← call (S := DumpSig) BuildKubeClient;
  match r with
  | Some e => mret (Err e)
  | None =>
      '(sent, o) ← waitGroup
        [collectNamespacePodLogs testNamespace (limitLines opts); collectEvents testNamespace;
         collectControllerLogs (controllerDeployments opts) (limitLines opts); kaiwoLogs opts];
      match o with
      | Ok _ =>
          _ ← runAll (map printLine (printedLines (shownEntries testNamespace opts sent)));
          mret (Ok ())
      | _ => mret o
      end
  end.

Definition defaultControllers : list string := ["kueue-system/kueue-controller-manager"; "default/kuberay-operator"].

Definition defaultOptions : options :=
  {| controllerDeployments := defaultControllers; kaiwoDeployment := "kaiwo-system/kaiwo-controller-manager"; localLogsPath := "";
     limitLines := 0; namespacedLevel := levelDebug; clusterLevel := levelInfo |}.
End dump.
