(* ===== verification/LogTheory.v ===== *)
(** What the log dump shows (LogDump.v): every line and event that was read becomes one
    entry, whatever the goroutines do, and what is printed of them is sorted and chosen by
    namespace, time and level. *)

From stdpp Require Import gmap strings list sorting.
From Stdlib Require Import ZArith Lia.
From S2P Require Import Prelude History Text Runes Types Naming DerivedNames Scripts Users Downloads LogLines LogDump.

(** * Trimming *)

Lemma codeAt_none codes s : codeAt codes s = None ↔ Forall (λ w, ¬ (w `prefix_of` s)) codes.
Proof. unfold codeAt. rewrite fmap_None, list_find_None. done. Qed.

Lemma dropCodes_suffix codes k s : dropCodes codes k s `suffix_of` s.
Proof.
  revert k. induction s as [|c s IH]; intros k; cbn [dropCodes]; [done|].
  destruct k as [|k]; [destruct (codeAt codes (c :: s))|]; [|done|]; by apply suffix_cons_r.
Qed.

Lemma dropCodes_done codes k s : Forall (λ w, w ≠ []) codes → codeAt codes (dropCodes codes k s) = None.
Proof.
  intros Hw. revert k. induction s as [|c s IH]; intros k; cbn [dropCodes].
  - apply codeAt_none. eapply Forall_impl; [exact Hw|]. by intros w Hne ->%prefix_nil_inv.
  - destruct k as [|k]; [destruct (codeAt codes (c :: s)) eqn:E|]; [apply IH|exact E|apply IH].
Qed.

Lemma dropCodes_id codes s : codeAt codes s = None → dropCodes codes 0 s = s.
Proof. destruct s as [|c s]; cbn [dropCodes]; [done|]. by intros ->. Qed.

Lemma trimSpace_idempotent s : trimSpace (trimSpace s) = trimSpace s.
Proof.
  unfold trimSpace. set (l := dropCodes spaceCodes 0 s). set (r := dropCodes (reverse <$> spaceCodes) 0 (reverse l)).
  assert (codeAt spaceCodes l = None) as Hl by (apply dropCodes_done; repeat constructor; done).
  assert (codeAt (reverse <$> spaceCodes) r = None) as Hr by (apply dropCodes_done; repeat constructor; done).
  assert (reverse r `prefix_of` l) as Hp.
  { destruct (dropCodes_suffix (reverse <$> spaceCodes) 0 (reverse l)) as [k Hk]. fold r in Hk. exists (reverse k).
    rewrite <- reverse_app, <- Hk. by rewrite reverse_involutive. }
  rewrite (dropCodes_id spaceCodes (reverse r)).
  - by rewrite reverse_involutive, dropCodes_id.
  - apply codeAt_none in Hl. apply codeAt_none. eapply Forall_impl; [exact Hl|]. intros w Hw Hwr. apply Hw. by etrans.
Qed.

Lemma chars_textOf s : Text.chars (textOf s) = s.
Proof. induction s as [|c s IH]; cbn; [done|]. by f_equal. Qed.

Lemma trimmed_idempotent s : trimmed (trimmed s) = trimmed s.
Proof. unfold trimmed. by rewrite chars_textOf, trimSpace_idempotent. Qed.

(** * Goroutines *)

Lemma arriving_perm {A} schedule (sent : list (list A)) : arriving schedule sent ≡ₚ mjoin sent.
Proof.
  revert sent. induction schedule as [|i schedule IH]; intros sent; cbn [arriving]; [done|].
  destruct (sent !! i) as [[|x rest]|] eqn:E; [done| |done]. rewrite IH.
  assert (i < length sent)%nat as Hi by (by eapply lookup_lt_Some).
  rewrite <- (take_drop_middle sent i (x :: rest)) at 2 by done. rewrite insert_take_drop by done.
  rewrite !join_app. cbn [mjoin list_join app]. by rewrite <- Permutation_middle.
Qed.

Section theory.
Context `{GoOrder} `{LogLib} (ErrorText : error → string) (testNamespace : string).

(** * What the answers report *)

(** The entry a line becomes. A time that was in front of the line is the time of the
    entry. *)
Definition parsed (source dflt line : string) (e : logEntry) : Prop :=
  let '(stamp, text) := match splitLeadingTimestamp line with Some (ts, rest) => (Some ts, rest) | None => (None, line) end in
  (∀ ts, stamp = Some ts → isZeroTime ts = false → le_Time e = ts) ∧
  e = withSource source dflt (match decodeLine text with
                              | Some payload => jsonEntry (le_Time e) payload
                              | None => textEntry (le_Time e) (trimmed text)
                              end).

(** The entry an event becomes has the first of its times that is set. *)
Definition stamped (times : list Z) (t : Z) : Prop := ∀ t', List.find (λ t, negb (isZeroTime t)) times = Some t' → t = t'.

(** The entries that come of an answer: those of the lines that were read and those of the
    events that were listed, and none of anything else. *)
Definition reports (x : event DumpSig) (es : list logEntry) : Prop :=
  match x with
  | existT (ReadStream _ _ _) r =>
      ∃ source dflt, Forall2 (parsed source dflt) r.1 es ∧
        (source = srcNamespacePod ∧ dflt = testNamespace ∨ source ∈ [srcRay; srcKueue; srcKaiwo] ∧ dflt = "")
  | existT (ReadLocal _) r => Forall2 (parsed srcKaiwo "") r.1 es
  | existT (ListEventsV1 ns) (inr events) =>
      Forall2 (λ v e, e = entryV1 testNamespace (le_Time e) v ∧ stamped (timesV1 v) (le_Time e)) events es
  | existT (ListEventsCore ns) (inr events) =>
      Forall2 (λ v e, e = entryCore testNamespace (le_Time e) v ∧ stamped (timesCore v) (le_Time e)) events es
  | _ => es = []
  end.

(** [sent] is what the answers report, in any order. *)
Definition accounts (tr : trace DumpSig) (sent : list logEntry) : Prop := ∃ ess, Forall2 reports tr ess ∧ sent ≡ₚ mjoin ess.

(** While entries are collected the terminal shows how the list of events went and nothing else. *)
Definition diagnostic (x : event DumpSig) : Prop :=
  match projT1 x with Println t => t = "Ok!" ∨ ∃ e, t = "collectEventsV1: " +:+ ErrorText e | _ => True end.

Definition collected (tr : trace DumpSig) (sent : list logEntry) : Prop := accounts tr sent ∧ Forall diagnostic tr.

(** Events that report nothing and print nothing. *)
Definition silent (x : event DumpSig) : Prop := reports x [] ∧ diagnostic x.

(** Nothing of what was asked for is missing. A stream that does not open can be tried again,
    and there are two ways to list events. *)
Definition complete (x : event DumpSig) : Prop :=
  match x with
  | existT (ReadStream _ _ _) r | existT (ReadLocal _) r => r.2 = None
  | existT (ListNamespacePods _) r | existT (ListSelectedPods _ _) r => ∃ pods, r = inr pods
  | existT (ListEventsCore _) r => ∃ events, r = inr events
  | _ => True
  end.

Lemma collected_nil : collected [] [].
Proof. split; [|constructor]. by exists []. Qed.

Lemma collected_app tr tr' sent sent' : collected tr sent → collected tr' sent' → collected (tr ++ tr') (sent ++ sent').
Proof.
  intros [(ess & Hr & Hs) Hd] [(ess' & Hr' & Hs') Hd']. split; [|by apply Forall_app]. exists (ess ++ ess').
  split; [by apply Forall2_app|]. by rewrite join_app, Hs, Hs'.
Qed.

Lemma collected_perm tr sent sent' : collected tr sent → sent' ≡ₚ sent → collected tr sent'.
Proof. intros [(ess & Hr & Hs) Hd] Hp. split; [|done]. exists ess. split; [done|]. by rewrite Hp. Qed.

Lemma collected_one x es : reports x es → diagnostic x → collected [x] es.
Proof.
  intros Hr Hd. split; [|by constructor]. exists [es]. split; [by constructor|]. cbn. by rewrite app_nil_r.
Qed.

Lemma collected_silent tr : Forall silent tr → collected tr [].
Proof.
  induction 1 as [|x tr [Hr Hd] _ IH]; [apply collected_nil|]. apply (collected_app [x] tr [] []); [by apply collected_one|done].
Qed.

Lemma collected_cons x tr es : silent x → collected tr es → collected (x :: tr) es.
Proof. intros [Hr Hd] Ht. by apply (collected_app [x] tr [] es); [apply collected_one|]. Qed.

Lemma collected_snoc tr x es : collected tr es → silent x → collected (tr ++ [x]) es.
Proof. intros Ht [Hr Hd]. rewrite <- (app_nil_r es). by apply collected_app; [|apply collected_one]. Qed.

(** * Lines and events *)

(** Programs whose calls say nothing about entries and cannot fail. *)
Definition quiet (x : event DumpSig) : Prop := silent x ∧ complete x.

Definition quietly {A} (p : DM A) (Q : A → Prop) : Prop := always anything p (λ tr a, Forall quiet tr ∧ Q a).

Lemma ret_quietly {A} (a : A) (Q : A → Prop) : Q a → quietly (mret a) Q.
Proof. intros Ha. split; [constructor|done]. Qed.

Lemma quietly_now (Q : Z → Prop) : (∀ t, Q t) → quietly (call (S := DumpSig) TimeNow) Q.
Proof. intros HQ t _. split; [|apply HQ]. by repeat constructor. Qed.

Lemma bind_quietly {A B} (p : DM A) (k : A → DM B) (Q : A → Prop) (R : B → Prop) :
  quietly p Q → (∀ a, Q a → quietly (k a) R) → quietly (p ≫= k) R.
Proof.
  intros Hp Hk. apply always_bind. eapply always_mono; [exact Hp|]. intros tr a [Htr Ha].
  eapply always_mono; [by apply Hk|]. intros tr' b [Htr' Hb]. split; [|done]. by apply Forall_app.
Qed.

Lemma runAll_quietly {A B} (f : A → DM B) (R : A → B → Prop) l :
  (∀ x, quietly (f x) (R x)) → quietly (runAll (map f l)) (Forall2 R l).
Proof.
  intros Hf. induction l as [|x l IH]; cbn [runAll map]; [by apply ret_quietly|].
  eapply bind_quietly; [apply Hf|]. intros y Hy. eapply bind_quietly; [exact IH|]. intros ys Hys.
  apply ret_quietly. by constructor.
Qed.

Definition json_of (ts : Z) (line : string) (r : option logEntry) : Prop :=
  match decodeLine line with
  | None => r = None
  | Some payload => ∃ t, r = Some (jsonEntry t payload) ∧ (isZeroTime ts = false → t = ts)
  end.

Lemma parseJSONLine_quietly ts line : quietly (parseJSONLine ts line) (json_of ts line).
Proof.
  unfold parseJSONLine, json_of. destruct (decodeLine line) as [payload|]; [|by apply ret_quietly].
  eapply bind_quietly with (Q := λ t, isZeroTime ts = false → t = ts); [|intros t Ht; apply ret_quietly; by exists t].
  destruct (isZeroTime ts); cbn [negb]; [|by apply ret_quietly].
  destruct (negb _); [by apply ret_quietly|by apply quietly_now].
Qed.

Lemma decodeLine_trimmed line : decodeLine (trimmed line) = decodeLine line.
Proof. unfold decodeLine. by rewrite trimmed_idempotent. Qed.

(** The entry of the text of a line, up to its time. *)
Definition textParsed (ts : Z) (line : string) (e : logEntry) : Prop :=
  (isZeroTime ts = false → le_Time e = ts) ∧
  e = match decodeLine line with Some payload => jsonEntry (le_Time e) payload | None => textEntry (le_Time e) (trimmed line) end.

Lemma parseGenericLine_quietly ts line : decodeLine line = None → quietly (parseGenericLine ts line) (textParsed ts line).
Proof.
  intros Hd. unfold parseGenericLine. eapply bind_quietly with (Q := λ t, isZeroTime ts = false → t = ts).
  { destruct (isZeroTime ts); [by apply quietly_now|by apply ret_quietly]. }
  intros t Ht. cbv zeta. eapply bind_quietly with (Q := λ r, r = None).
  { destruct (looksJSON _); [|by apply ret_quietly]. eapply always_mono; [apply parseJSONLine_quietly|]. intros tr r [Htr Hr].
    split; [done|]. unfold json_of in Hr. by rewrite decodeLine_trimmed, Hd in Hr. }
  intros r ->. apply ret_quietly. split; [exact Ht|]. by rewrite Hd.
Qed.

Lemma lineEntry_quietly source dflt ts line :
  quietly (lineEntry source dflt ts line) (λ e, ∃ e', e = withSource source dflt e' ∧ textParsed ts line e').
Proof.
  unfold lineEntry. eapply bind_quietly; [apply parseJSONLine_quietly|]. intros r Hr.
  eapply bind_quietly with (Q := textParsed ts line); [|intros e He; apply ret_quietly; by exists e].
  unfold json_of in Hr. destruct (decodeLine line) as [payload|] eqn:Hd.
  - destruct Hr as (t & -> & Ht). apply ret_quietly. split; [exact Ht|]. by rewrite Hd.
  - subst r. by apply parseGenericLine_quietly.
Qed.

Lemma parsed_intro source dflt line ts text e :
  match splitLeadingTimestamp line with Some p => p = (ts, text) | None => text = line end →
  textParsed ts text e → parsed source dflt line (withSource source dflt e).
Proof.
  unfold parsed. intros Hs [Ht He]. destruct (splitLeadingTimestamp line) as [[ts' rest]|]; simplify_eq/=.
  - split; [by intros ? [= <-]|]. by rewrite He at 1.
  - split; [done|]. by rewrite He at 1.
Qed.

Lemma streamLine_quietly source dflt line : quietly (streamLine (lineEntry source dflt) line) (parsed source dflt line).
Proof.
  unfold streamLine. destruct (splitLeadingTimestamp line) as [[ts rest]|] eqn:E.
  - eapply always_mono; [apply lineEntry_quietly|]. intros tr e [Htr (e' & -> & He)]. split; [done|].
    apply (parsed_intro _ _ _ ts rest); [by rewrite E|done].
  - eapply bind_quietly with (Q := λ _, True); [by apply quietly_now|]. intros now _.
    eapply always_mono; [apply lineEntry_quietly|]. intros tr e [Htr (e' & -> & He)]. split; [done|].
    apply (parsed_intro _ _ _ now line); [by rewrite E|done].
Qed.

Lemma localLine_quietly line : quietly (localLine line) (parsed srcKaiwo "" line).
Proof.
  unfold localLine. destruct (splitLeadingTimestamp line) as [[ts rest]|] eqn:E.
  - eapply always_mono; [apply lineEntry_quietly|]. intros tr e [Htr (e' & -> & He)]. split; [done|].
    apply (parsed_intro _ _ _ ts rest); [by rewrite E|done].
  - eapply bind_quietly; [apply parseJSONLine_quietly|]. intros r Hr. unfold json_of in Hr.
    destruct (decodeLine line) as [payload|] eqn:Hd.
    + destruct Hr as (t & -> & _). apply ret_quietly. apply (parsed_intro _ _ _ zeroTime line); [by rewrite E|].
      split; [done|]. by rewrite Hd.
    + subst r. eapply bind_quietly with (Q := λ _, True); [by apply quietly_now|]. intros now _. apply ret_quietly.
      apply (parsed_intro _ _ _ zeroTime line); [by rewrite E|]. split; [done|]. by rewrite Hd.
Qed.

Lemma firstTime_quietly times now : quietly now (λ _, True) → quietly (firstTime times now) (stamped times).
Proof.
  intros Hnow. unfold firstTime, stamped. destruct (List.find _ times) as [t|]; [apply ret_quietly; congruence|].
  eapply always_mono; [exact Hnow|]. intros tr t [Htr _]. by split.
Qed.

(** * Collectors *)

Lemma collected_quiet tr : Forall quiet tr → collected tr [].
Proof. intros Htr. apply collected_silent. eapply Forall_impl; [exact Htr|]. by intros x [??]. Qed.

Definition collects (p : DM sends) : Prop := always anything p (λ tr r, collected tr r.1).

Lemma collects_ret (r : sends) : r.1 = [] → collects (mret r).
Proof. intros Hr. unfold collects. cbn. rewrite Hr. apply collected_nil. Qed.

Lemma collects_call (r : dump_req) (k : dump_resp r → DM sends) :
  (∀ x, silent (ev (S := DumpSig) r x)) → (∀ x, collects (k x)) → collects (call (S := DumpSig) r ≫= k).
Proof.
  intros Hs Hk. apply always_call. intros x _. eapply always_mono; [apply Hk|]. intros tr s Hc. by apply collected_cons.
Qed.

Lemma collects_quietly {A} (p : DM A) (Q : A → Prop) (k : A → DM sends) :
  quietly p Q → (∀ a, Q a → collects (k a)) → collects (p ≫= k).
Proof.
  intros Hp Hk. apply always_bind. eapply always_mono; [exact Hp|]. intros tr a [Htr Ha].
  eapply always_mono; [by apply Hk|]. intros tr' s Hs. apply (collected_app tr tr' [] s.1); [by apply collected_quiet|done].
Qed.

(** What follows an answer turns what it reports into entries. *)
Lemma collected_after {A} (r : dump_req) (x : dump_resp r) (p : DM A) (out : A → list logEntry) :
  diagnostic (ev (S := DumpSig) r x) → quietly p (λ a, reports (ev (S := DumpSig) r x) (out a)) →
  always anything p (λ tr a, collected (ev (S := DumpSig) r x :: tr) (out a)).
Proof.
  intros Hd Hp. eapply always_mono; [exact Hp|]. intros tr a [Htr Ha]. rewrite <- (app_nil_r (out a)).
  apply (collected_app [_]); [by apply collected_one|by apply collected_quiet].
Qed.

Lemma runAll_collects (ps : list (DM sends)) :
  (∀ p, p ∈ ps → collects p) → always anything (runAll ps) (λ tr rs, collected tr (mjoin (map fst rs))).
Proof.
  induction ps as [|p ps IH]; intros Hps; cbn [runAll]; [apply collected_nil|].
  apply always_bind. eapply always_mono; [apply Hps; by left|]. intros tr r Hr.
  apply always_bind. eapply always_mono; [apply IH; intros q Hq; apply Hps; by right|]. intros tr' rs Hrs.
  cbn. rewrite app_nil_r. by apply collected_app.
Qed.

Lemma waitGroup_collects (ps : list (DM sends)) : (∀ p, p ∈ ps → collects p) → collects (waitGroup ps).
Proof.
  intros Hps. apply always_bind. eapply always_mono; [by apply runAll_collects|]. intros tr rs Hrs.
  apply always_call. intros schedule _. cbv zeta.
  assert (collected (tr ++ [ev (S := DumpSig) (Schedule (map (λ r, length r.1) rs)) schedule]) (arriving schedule (map fst rs))) as Hsent.
  { eapply collected_perm; [|apply arriving_perm]. by apply collected_snoc. }
  case_match; [exact Hsent|]. destruct (omap errorOf rs) as [|err errs]; [exact Hsent|]. apply always_call. intros i _.
  pose proof (collected_snoc _ (ev (S := DumpSig) (FirstError (err :: errs)) i) _ Hsent) as Hc.
  rewrite <- app_assoc in Hc. by apply Hc.
Qed.

Lemma openAgain_quietly steps namespace pod container tail : quietly (openAgain steps namespace pod container tail) (λ _, True).
Proof.
  induction steps as [|steps IH]; cbn [openAgain]; [by apply ret_quietly|].
  eapply bind_quietly with (Q := λ _, True); [intros x _; split; [by repeat constructor|done]|].
  intros [e|] _; [exact IH|by apply ret_quietly].
Qed.

(** Reading all lines, and closing. *)
Lemma reading_collected (r c : dump_req) (x : dump_resp r) (p : DM (list logEntry)) (k : dump_resp c → list logEntry → sends) :
  diagnostic (ev (S := DumpSig) r x) → quietly p (reports (ev (S := DumpSig) r x)) →
  (∀ y, silent (ev (S := DumpSig) c y)) → (∀ y es, (k y es).1 = es) →
  always anything (entries ← p; y ← call (S := DumpSig) c; mret (k y entries)) (λ tr s, collected (ev (S := DumpSig) r x :: tr) s.1).
Proof.
  intros Hd Hp Hc Hk. apply always_bind. eapply always_mono; [exact Hp|]. intros tr es [Htr Hes] y _. cbn. rewrite Hk.
  apply (collected_snoc (_ :: tr)); [|apply Hc]. rewrite <- (app_nil_r es).
  apply (collected_app [_]); [by apply collected_one|by apply collected_quiet].
Qed.

Definition origin (source dflt : string) : Prop :=
  source = srcNamespacePod ∧ dflt = testNamespace ∨ source ∈ [srcRay; srcKueue; srcKaiwo] ∧ dflt = "".

Lemma streamPodLogs_collects namespace pod container limit source dflt :
  origin source dflt → collects (streamPodLogs namespace pod container limit (lineEntry source dflt)).
Proof.
  intros Ho. unfold streamPodLogs. apply collects_call; [by split|]. intros r.
  eapply collects_quietly with (Q := λ _, True).
  { destruct r; [apply openAgain_quietly|by apply ret_quietly]. }
  intros opened _. destruct opened; cbn [negb]; [|by apply collects_ret].
  apply always_call. intros [lines err] _.
  apply (reading_collected _ (CloseStream namespace pod container) _ _ (λ r entries, (entries, closed r err))); [exact I| |by split|done].
  eapply always_mono; [apply runAll_quietly, streamLine_quietly|]. intros tr es [Htr Hes].
  split; [done|]. exists source, dflt. by split.
Qed.

Lemma streamAll_collects limit source dflt pods : origin source dflt → collects (streamAll limit (lineEntry source dflt) pods).
Proof.
  intros Ho. apply waitGroup_collects. intros p (pod & Hp & _)%list_elem_of_bind.
  apply list_elem_of_fmap in Hp as (container & -> & _). by apply streamPodLogs_collects.
Qed.

Lemma collectNamespacePodLogs_collects limit : collects (collectNamespacePodLogs testNamespace limit).
Proof.
  apply collects_call; [by split|]. intros [e|pods]; [by apply collects_ret|]. apply streamAll_collects. by left.
Qed.

Lemma collectDeploymentLogs_collects namespace name source limit :
  source ∈ [srcRay; srcKueue; srcKaiwo] → collects (collectDeploymentLogs namespace name source limit).
Proof.
  intros Hs. apply collects_call; [by split|]. intros [e|d]; [by apply collects_ret|].
  destruct (dd_MatchLabels d) as [labels|]; [|by apply collects_ret].
  apply collects_call; [by split|]. intros [e|[|pod pods]]; [by apply collects_ret..|]. apply streamAll_collects. by right.
Qed.

(** What follows adds to what was sent. *)
Lemma collects_then {A} (p : DM sends) (k : sends → DM A) (out : A → list logEntry) :
  collects p → (∀ r, always anything (k r) (λ tr a, ∃ more, out a = r.1 ++ more ∧ collected tr more)) →
  always anything (p ≫= k) (λ tr a, collected tr (out a)).
Proof.
  intros Hp Hk. apply always_bind. eapply always_mono; [exact Hp|]. intros tr r Hr.
  eapply always_mono; [apply Hk|]. intros tr' a (more & -> & Hm). by apply collected_app.
Qed.

Lemma collectEventsV1_collects : collects (collectEventsV1 testNamespace).
Proof.
  apply always_call. intros [e|events] _; [by apply collected_one|]. apply collected_after; [exact I|].
  eapply bind_quietly; [apply runAll_quietly with (R := λ v e, e = entryV1 testNamespace (le_Time e) v ∧ stamped (timesV1 v) (le_Time e))|].
  - intros v. eapply bind_quietly; [by apply firstTime_quietly, quietly_now|]. intros t Ht. by apply ret_quietly.
  - intros es Hes. by apply ret_quietly.
Qed.

Lemma collectEventsCoreV1_collects : collects (collectEventsCoreV1 testNamespace).
Proof.
  apply always_call. intros [e|events] _; [by apply collected_one|]. apply collected_after; [exact I|].
  eapply bind_quietly with (Q := λ _, True); [by apply quietly_now|]. intros now _.
  eapply bind_quietly; [apply runAll_quietly with (R := λ v e, e = entryCore testNamespace (le_Time e) v ∧ stamped (timesCore v) (le_Time e))|].
  - intros v. eapply bind_quietly; [by apply firstTime_quietly, ret_quietly|]. intros t Ht. by apply ret_quietly.
  - intros es Hes. by apply ret_quietly.
Qed.

Lemma collectEvents_collects : collects (collectEvents ErrorText testNamespace).
Proof.
  eapply collects_then with (out := fst); [apply collectEventsV1_collects|]. intros [sent [[]|e|]].
  - intros x _. exists []. split; [by rewrite app_nil_r|]. apply collected_one; [done|by left].
  - apply always_call. intros x _. apply always_bind. eapply always_mono; [apply collectEventsCoreV1_collects|].
    intros tr [sent' o] Hs. exists sent'. split; [done|]. rewrite app_nil_r. apply collected_cons; [|done].
    split; [done|]. right. by exists e.
  - exists []. split; [by rewrite app_nil_r|apply collected_nil].
Qed.

Lemma startControllers_collect deployments limit p : p ∈ (startControllers deployments limit).1 → collects p.
Proof.
  induction deployments as [|d rest IH]; cbn [startControllers]; [by intros ?%elem_of_nil|].
  destruct (splitNamespaceName d) as [e|[namespace name]]; [by intros ?%elem_of_nil|].
  destruct (startControllers rest limit) as [started err]. intros [->|Hp]%elem_of_cons; [|by apply IH].
  apply collectDeploymentLogs_collects. unfold sourceOf. case_match; set_solver.
Qed.

Lemma collectControllerLogs_collects deployments limit : collects (collectControllerLogs deployments limit).
Proof.
  unfold collectControllerLogs. pose proof (startControllers_collect deployments limit) as Hs.
  destruct (startControllers deployments limit) as [started [e|]]; [|by apply waitGroup_collects].
  eapply collects_then with (out := fst); [by apply waitGroup_collects|]. intros [sent o]. apply always_call. intros late _.
  exists []. split; [by rewrite app_nil_r|]. by apply collected_one.
Qed.

Lemma collectKaiwoLogs_collects deployment limit :
  always anything (collectKaiwoLogs deployment limit) (λ tr r, collected tr r.2.1).
Proof.
  unfold collectKaiwoLogs. destruct (splitNamespaceName deployment) as [e|[namespace name]]; [apply collected_nil|].
  apply always_call. intros [e|dep] _; [by apply collected_one|].
  apply always_bind. eapply always_mono; [apply collectDeploymentLogs_collects; set_solver|].
  intros tr s Hs. cbn. rewrite app_nil_r. by apply collected_cons.
Qed.

Lemma collectLocalKaiwo_collects path : collects (collectLocalKaiwo path).
Proof.
  apply collects_call; [by split|]. intros [e|]; [by apply collects_ret|].
  apply always_call. intros [lines err] _.
  apply (reading_collected _ (CloseLocal (Clean path)) _ _ (λ r entries, (entries, closed r err))); [exact I| |by split|done].
  apply runAll_quietly, localLine_quietly.
Qed.

Lemma kaiwoLogs_collects opts : collects (kaiwoLogs opts).
Proof.
  apply always_bind. eapply always_mono; [apply collectKaiwoLogs_collects|]. intros tr [found [sent o]] Hs. cbn [fst snd] in *.
  assert (always anything (mret (sent, o) : DM sends) (λ tr' s, collected (tr ++ tr') s.1)) as Hdone by (cbn; by rewrite app_nil_r).
  destruct o as [[]|e|]; [|exact Hdone..]. destruct found; [exact Hdone|]. case_decide.
  - intros x _. cbn. by apply collected_snoc.
  - apply always_bind. eapply always_mono; [apply collectLocalKaiwo_collects|]. intros tr' [sent' o] Hs'.
    cbn. rewrite app_nil_r. by apply collected_app.
Qed.

(** * What is shown *)

(** The entries that make up the window: those of the namespace that have a time. *)
Definition inWindow (e : logEntry) : bool := negb (isZeroTime (le_Time e)) && isNamespaced testNamespace e.

(** An entry of the namespace is shown from its level on; any other one from its own, when it
    is not before all and not after all entries of the namespace. *)
Definition wanted (opts : options) (sent : list logEntry) (e : logEntry) : bool :=
  negb (isZeroTime (le_Time e)) &&
  if isNamespaced testNamespace e then atLeast (le_Level e) (namespacedLevel opts)
  else
    existsb (λ a, inWindow a && bool_decide (le_Time a <= le_Time e)) sent &&
    existsb (λ b, inWindow b && bool_decide (le_Time e <= le_Time b)) sent && atLeast (le_Level e) (clusterLevel opts).

Lemma StronglySorted_reverse {A} (R : A → A → Prop) l : StronglySorted R l → StronglySorted (flip R) (reverse l).
Proof.
  induction 1 as [|x l _ IH Hx]; [constructor|]. rewrite reverse_cons, StronglySorted_app. split; [|split; [done|by repeat constructor]].
  intros y z Hy Hz%list_elem_of_singleton. subst z. rewrite elem_of_reverse in Hy. rewrite Forall_forall in Hx. by apply Hx.
Qed.

Lemma find_first {A} (R : A → A → Prop) (P : A → bool) l a b :
  StronglySorted R l → List.find P l = Some a → b ∈ l → P b = true → b = a ∨ R a b.
Proof.
  induction 1 as [|x l _ IH Hx]; cbn [List.find]; [done|]. intros Hf [->|Hb]%elem_of_cons HP.
  - rewrite HP in Hf. left. congruence.
  - destruct (P x); [|by apply IH]. injection Hf as ->. right. rewrite Forall_forall in Hx. by apply Hx.
Qed.

(** The end of a window bounds what lies in it exactly as the entries of the namespace do. *)
Lemma window_bound (le : Z → Z → Prop) {dec : ∀ x y, Decision (le x y)} l t :
  PreOrder le → StronglySorted (λ x y, le (le_Time x) (le_Time y)) l → Forall (λ e, isZeroTime (le_Time e) = false) l →
  negb (isZeroTime (windowStart testNamespace l)) && bool_decide (le (windowStart testNamespace l) t) =
  existsb (λ a, inWindow a && bool_decide (le (le_Time a) t)) l.
Proof.
  intros Hle Hl Hz. apply eq_true_iff_eq. rewrite existsb_exists. unfold windowStart, inWindow.
  destruct (List.find (isNamespaced testNamespace) l) as [a|] eqn:Ef; cbn [from_option].
  - destruct (find_some _ _ Ef) as [Ha%list_elem_of_In Hn]. pose proof (proj1 (Forall_forall _ _) Hz a Ha) as Hza. split.
    + intros [_ Ht]%andb_true_iff. exists a. rewrite <- list_elem_of_In, Hza, Hn, Ht. done.
    + intros (b & Hb%list_elem_of_In & [[_ Hbn]%andb_true_iff Ht%bool_decide_eq_true]%andb_true_iff). rewrite Hza. cbn [negb andb].
      apply bool_decide_eq_true. destruct (find_first _ _ _ _ _ Hl Ef Hb Hbn) as [->|Hab]; [done|by etrans].
  - unfold isZeroTime at 1. rewrite bool_decide_true by done. cbn. split; [done|].
    intros (b & Hb & [[_ Hbn]%andb_true_iff _]%andb_true_iff). by rewrite (find_none _ _ Ef b Hb) in Hbn.
Qed.

Lemma keepEntry_wanted opts l e :
  StronglySorted (λ x y, le_Time x <= le_Time y) l → Forall (λ e, isZeroTime (le_Time e) = false) l → e ∈ l →
  keepEntry testNamespace opts (windowStart testNamespace l) (windowEnd testNamespace l) e = wanted opts l e.
Proof.
  intros Hl Hz He. unfold keepEntry, wanted. rewrite (proj1 (Forall_forall _ _) Hz e He). cbn [negb andb].
  destruct (isNamespaced testNamespace e); [done|].
  rewrite <- (window_bound Z.le l (le_Time e) _ Hl Hz).
  assert (existsb (λ b, inWindow b && bool_decide (le_Time e <= le_Time b)) l =
    negb (isZeroTime (windowEnd testNamespace l)) && bool_decide (le_Time e <= windowEnd testNamespace l)) as ->.
  { assert (PreOrder (λ x y : Z, y <= x)) as Hge by (split; [intros x; lia|intros x y z; lia]).
    assert (StronglySorted (λ x y, le_Time y <= le_Time x) (reverse l)) as Hr by (by apply StronglySorted_reverse).
    assert (Forall (λ e, isZeroTime (le_Time e) = false) (reverse l)) as Hzr by (by apply Forall_reverse).
    etrans; [|symmetry; exact (window_bound (λ x y, y <= x) (dec := λ x y, decide (y <= x)) (reverse l) (le_Time e) Hge Hr Hzr)].
    apply eq_true_iff_eq. rewrite !existsb_exists. setoid_rewrite <- list_elem_of_In. by setoid_rewrite elem_of_reverse. }
  set (a := windowStart _ l). set (b := windowEnd _ l). rewrite bool_decide_and.
  destruct (negb (isZeroTime a)), (negb (isZeroTime b)), (bool_decide (a <= _)), (bool_decide (_ <= b)); done.
Qed.

(** * All or nothing *)

(** A collector that succeeds has read all it asked for. *)
Definition thorough (p : DM sends) : Prop := always anything p (λ tr r, r.2 = Ok () → Forall complete tr).

Lemma thorough_ret r : thorough (mret r).
Proof. by intros _. Qed.

Lemma thorough_call (r : dump_req) (k : dump_resp r → DM sends) :
  (∀ x, thorough (k x) ∧ (complete (ev (S := DumpSig) r x) ∨ always anything (k x) (λ _ s, s.2 ≠ Ok ()))) →
  thorough (call (S := DumpSig) r ≫= k).
Proof.
  intros Hk. apply always_call. intros x _. destruct (Hk x) as [Ht [Hx|Hx]].
  - eapply always_mono; [exact Ht|]. intros tr s Hs Ho. constructor; [done|by apply Hs].
  - eapply always_mono; [exact Hx|]. by intros tr s Hs Ho.
Qed.

Lemma thorough_quietly {A} (p : DM A) (Q : A → Prop) (k : A → DM sends) :
  quietly p Q → (∀ a, Q a → thorough (k a)) → thorough (p ≫= k).
Proof.
  intros Hp Hk. apply always_bind. eapply always_mono; [exact Hp|]. intros tr a [Htr Ha].
  eapply always_mono; [by apply Hk|]. intros tr' s Hs Ho. apply Forall_app. split; [|by apply Hs].
  eapply Forall_impl; [exact Htr|]. by intros x [??].
Qed.

Lemma runAll_thorough (ps : list (DM sends)) :
  (∀ p, p ∈ ps → thorough p) → always anything (runAll ps) (λ tr rs, Forall (λ r, r.2 = Ok ()) rs → Forall complete tr).
Proof.
  induction ps as [|p ps IH]; intros Hps; cbn [runAll]; [by intros _|].
  apply always_bind. eapply always_mono; [apply Hps; by left|]. intros tr r Hr.
  apply always_bind. eapply always_mono; [apply IH; intros q Hq; apply Hps; by right|]. intros tr' rs Hrs.
  cbn. rewrite app_nil_r. intros [? ?]%Forall_cons. apply Forall_app. auto.
Qed.

Lemma all_ok (rs : list sends) : existsb panicked rs = false → omap errorOf rs = [] → Forall (λ r, r.2 = Ok ()) rs.
Proof.
  induction rs as [|[sent [[]|e|]] rs IH]; cbn; intros Hp He; constructor; try done. by apply IH.
Qed.

Lemma waitGroup_thorough (ps : list (DM sends)) : (∀ p, p ∈ ps → thorough p) → thorough (waitGroup ps).
Proof.
  intros Hps. apply always_bind. eapply always_mono; [by apply runAll_thorough|]. intros tr rs Hrs.
  apply always_call. intros schedule _. cbv zeta. destruct (existsb panicked rs) eqn:Ep; [done|].
  destruct (omap errorOf rs) eqn:Ee; [|by intros i _]. intros _. apply Forall_app. split; [by apply Hrs, all_ok|by repeat constructor].
Qed.

Lemma reading_thorough (r c : dump_req) (x : dump_resp r) (p : DM (list logEntry)) Q (k : dump_resp c → list logEntry → sends) :
  quietly p Q → (∀ y, complete (ev (S := DumpSig) c y)) → (∀ y es, (k y es).2 = Ok () → complete (ev (S := DumpSig) r x)) →
  always anything (entries ← p; y ← call (S := DumpSig) c; mret (k y entries)) (λ tr s, s.2 = Ok () → Forall complete (ev (S := DumpSig) r x :: tr)).
Proof.
  intros Hp Hc Hk. apply always_bind. eapply always_mono; [exact Hp|]. intros tr es [Htr _] y _ Ho.
  constructor; [by apply (Hk y es)|]. apply Forall_app. split; [eapply Forall_impl; [exact Htr|]; by intros ? [??]|].
  constructor; [apply Hc|constructor].
Qed.

Lemma closed_ok r err : closed r err = Ok () → err = None.
Proof. by destruct r, err. Qed.

Lemma streamPodLogs_thorough namespace pod container limit source dflt :
  thorough (streamPodLogs namespace pod container limit (lineEntry source dflt)).
Proof.
  apply thorough_call. intros r. split; [|by left]. eapply thorough_quietly with (Q := λ _, True).
  { destruct r; [apply openAgain_quietly|by apply ret_quietly]. }
  intros opened _. destruct opened; cbn [negb]; [|apply thorough_ret]. apply always_call. intros [lines err] _.
  apply (reading_thorough _ (CloseStream namespace pod container) _ _ _ (λ r entries, (entries, closed r err)) (runAll_quietly _ _ _ (streamLine_quietly _ _))).
  - done.
  - intros y es. apply closed_ok.
Qed.

Lemma streamAll_thorough limit source dflt pods : thorough (streamAll limit (lineEntry source dflt) pods).
Proof.
  apply waitGroup_thorough. intros p (pod & Hp & _)%list_elem_of_bind.
  apply list_elem_of_fmap in Hp as (container & -> & _). apply streamPodLogs_thorough.
Qed.

Lemma failed_not_ok e : always anything (failed e) (λ _ s, s.2 ≠ Ok ()).
Proof. done. Qed.

Lemma collectNamespacePodLogs_thorough limit : thorough (collectNamespacePodLogs testNamespace limit).
Proof. apply thorough_call. intros [e|pods]; split; [apply thorough_ret|by right|apply streamAll_thorough|left; by exists pods]. Qed.

Lemma collectDeploymentLogs_thorough namespace name source limit : thorough (collectDeploymentLogs namespace name source limit).
Proof.
  apply thorough_call. intros [e|d]; split; [apply thorough_ret|by left| |by left].
  destruct (dd_MatchLabels d) as [labels|]; [|apply thorough_ret].
  apply thorough_call. intros [e|[|pod pods]]; split;
    [apply thorough_ret|by right|apply thorough_ret|by right|apply streamAll_thorough|left; by exists (pod :: pods)].
Qed.

Lemma quietly_complete {A} (p : DM A) Q : quietly p Q → always anything p (λ tr _, Forall complete tr).
Proof. intros Hp. eapply always_mono; [exact Hp|]. intros tr a [Htr _]. eapply Forall_impl; [exact Htr|]. by intros ? [??]. Qed.

Lemma complete_quietly {A B} (p : DM A) Q (k : A → B) : quietly p Q → always anything (a ← p; mret (k a)) (λ tr _, Forall complete tr).
Proof.
  intros Hp. apply always_bind. eapply always_mono; [by eapply quietly_complete|]. intros tr a Htr. cbn. by rewrite app_nil_r.
Qed.

Lemma eventEntryV1_quietly v : quietly (eventEntryV1 testNamespace v) (λ _, True).
Proof. eapply bind_quietly; [by apply firstTime_quietly, quietly_now|]. intros t _. by apply ret_quietly. Qed.

Lemma eventEntryCore_quietly now v : quietly (eventEntryCore testNamespace now v) (λ _, True).
Proof. eapply bind_quietly; [by apply firstTime_quietly, ret_quietly|]. intros t _. by apply ret_quietly. Qed.

Lemma collectEvents_thorough : thorough (collectEvents ErrorText testNamespace).
Proof.
  apply always_bind. apply always_mono with (Q := λ tr _, Forall complete tr).
  { apply always_call. intros [e|events] _; [by repeat constructor|].
    eapply always_mono; [eapply complete_quietly, runAll_quietly, eventEntryV1_quietly|]. intros tr s Htr. by constructor. }
  intros tr [sent [[]|e|]] Htr; [intros x _ _; apply Forall_app; split; [done|by repeat constructor]| |done].
  apply always_call. intros x _. apply always_bind, always_call. intros [e'|events] _; [done|].
  apply always_call. intros now _. apply always_bind.
  eapply always_mono; [eapply quietly_complete, runAll_quietly, eventEntryCore_quietly|]. intros tr' es Htr' _. rewrite !app_nil_r.
  apply Forall_app. split; [done|]. constructor; [done|]. constructor; [by exists events|]. by constructor.
Qed.

Lemma startControllers_thorough deployments limit p : p ∈ (startControllers deployments limit).1 → thorough p.
Proof.
  induction deployments as [|d rest IH]; cbn [startControllers]; [by intros ?%elem_of_nil|].
  destruct (splitNamespaceName d) as [e|[namespace name]]; [by intros ?%elem_of_nil|].
  destruct (startControllers rest limit) as [started err]. intros [->|Hp]%elem_of_cons; [|by apply IH].
  apply collectDeploymentLogs_thorough.
Qed.

Lemma collectControllerLogs_thorough deployments limit : thorough (collectControllerLogs deployments limit).
Proof.
  unfold collectControllerLogs. pose proof (startControllers_thorough deployments limit) as Hs.
  destruct (startControllers deployments limit) as [started [e|]]; [|by apply waitGroup_thorough].
  apply always_bind. eapply always_mono; [by apply always_true|]. intros tr [sent o] _. intros late _ Ho. cbn in Ho.
  exfalso. by destruct o as [[]|e'|], (late && negb (bool_decide (sent = []))).
Qed.

Lemma collectKaiwoLogs_thorough deployment limit :
  always anything (collectKaiwoLogs deployment limit) (λ tr r, r.2.2 = Ok () → Forall complete tr).
Proof.
  unfold collectKaiwoLogs. destruct (splitNamespaceName deployment) as [e|[namespace name]]; [by intros _|].
  apply always_call. intros [e|dep] _; [intros _; by repeat constructor|].
  apply always_bind. eapply always_mono; [apply collectDeploymentLogs_thorough|].
  intros tr s Hs Ho. cbn. rewrite app_nil_r. constructor; [done|by apply Hs].
Qed.

Lemma collectLocalKaiwo_thorough path : thorough (collectLocalKaiwo path).
Proof.
  apply thorough_call. intros [e|]; split; [apply thorough_ret|by left| |by left]. apply always_call. intros [lines err] _.
  apply (reading_thorough _ (CloseLocal (Clean path)) _ _ _ (λ r entries, (entries, closed r err)) (runAll_quietly _ _ _ localLine_quietly)).
  - done.
  - intros y es. apply closed_ok.
Qed.

Lemma kaiwoLogs_thorough opts : thorough (kaiwoLogs opts).
Proof.
  apply always_bind. eapply always_mono; [apply collectKaiwoLogs_thorough|]. intros tr [found [sent o]] Hs. cbn [fst snd] in *.
  destruct o as [[]|e|]; [|done..]. specialize (Hs eq_refl). destruct found; [intros _; by rewrite app_nil_r|]. case_decide.
  - intros x _ _. apply Forall_app. split; [done|by repeat constructor].
  - apply always_bind. eapply always_mono; [apply collectLocalKaiwo_thorough|]. intros tr' [sent' o] Hs' Ho.
    rewrite app_nil_r. apply Forall_app. split; [done|by apply Hs'].
Qed.

(** * The command *)

Lemma StronglySorted_filter {A} (R : A → A → Prop) (P : A → Prop) `{∀ x, Decision (P x)} l :
  StronglySorted R l → StronglySorted R (filter P l).
Proof.
  induction 1 as [|x l _ IH Hx]; [constructor|]. rewrite filter_cons. case_decide; [|done]. constructor; [done|].
  rewrite Forall_forall in *. intros y [_ Hy]%list_elem_of_filter. by apply Hx.
Qed.

Lemma filter_ext_in {A} (P Q : A → Prop) `{∀ x, Decision (P x), ∀ x, Decision (Q x)} (l : list A) :
  (∀ x, x ∈ l → P x ↔ Q x) → filter P l = filter Q l.
Proof.
  induction l as [|x l IH]; intros Hl; [done|]. rewrite !filter_cons, IH by (intros y Hy; apply Hl; by right).
  assert (P x ↔ Q x) as Hx by (apply Hl; by left). repeat case_decide; naive_solver.
Qed.

Lemma wanted_sent opts sent l e :
  l ≡ₚ filter (λ e, isZeroTime (le_Time e) = false) sent → wanted opts l e = wanted opts sent e.
Proof.
  intros Hl. assert (∀ P : logEntry → bool, existsb (λ a, inWindow a && P a) l = existsb (λ a, inWindow a && P a) sent) as Hex.
  { intros P. apply eq_true_iff_eq. rewrite !existsb_exists. setoid_rewrite <- list_elem_of_In. split; intros (a & Ha & Hin); exists a; split; try done.
    - rewrite Hl, list_elem_of_filter in Ha. tauto.
    - rewrite Hl, list_elem_of_filter. split; [|done]. unfold inWindow in Hin. by destruct (isZeroTime (le_Time a)). }
  unfold wanted. by rewrite !Hex.
Qed.

Lemma shownEntries_spec opts sent :
  shownEntries testNamespace opts sent ≡ₚ filter (λ e, wanted opts sent e = true) sent ∧
  StronglySorted (λ x y, le_Time x <= le_Time y) (shownEntries testNamespace opts sent).
Proof.
  unfold shownEntries, filterEntries, timeBefore. set (timed := filter _ sent).
  pose proof (sort_by_key le_Time timed) as Hs. pose proof (sortSlice_perm (λ a b, bool_decide (le_Time a < le_Time b)) timed) as Hp.
  set (l := sortSlice _ timed) in *. split; [|by apply StronglySorted_filter].
  assert (Forall (λ e, isZeroTime (le_Time e) = false) l) as Hz.
  { apply Forall_forall. intros e He. rewrite Hp in He. by apply list_elem_of_filter in He as [? _]. }
  rewrite (filter_ext_in _ (λ e, wanted opts sent e = true) l).
  2: { intros e He. rewrite keepEntry_wanted by done. by rewrite (wanted_sent opts sent). }
  rewrite Hp. unfold timed. rewrite list_filter_filter_l; [done|]. intros e. unfold wanted. by destruct (isZeroTime (le_Time e)).
Qed.

Lemma collecting opts ps :
  ps = [collectNamespacePodLogs testNamespace (limitLines opts); collectEvents ErrorText testNamespace;
        collectControllerLogs (controllerDeployments opts) (limitLines opts); kaiwoLogs opts] →
  always anything (waitGroup ps) (λ tr r, collected tr r.1 ∧ (r.2 = Ok () → Forall complete tr)).
Proof.
  intros ->. apply always_both.
  - apply waitGroup_collects. intros p. rewrite !elem_of_cons, elem_of_nil. intros [->|[->|[->|[->|[]]]]].
    + apply collectNamespacePodLogs_collects.
    + apply collectEvents_collects.
    + apply collectControllerLogs_collects.
    + apply kaiwoLogs_collects.
  - apply waitGroup_thorough. intros p. rewrite !elem_of_cons, elem_of_nil. intros [->|[->|[->|[->|[]]]]].
    + apply collectNamespacePodLogs_thorough.
    + apply collectEvents_thorough.
    + apply collectControllerLogs_thorough.
    + apply kaiwoLogs_thorough.
Qed.

Definition linePrinted (line : string) : event DumpSig := ev (S := DumpSig) (Println line) ().

Lemma print_lines lines : always anything (runAll (map printLine lines)) (λ tr _, tr = map linePrinted lines).
Proof.
  induction lines as [|line lines IH]; [done|]. cbn [runAll map]. intros [] _. apply always_bind.
  eapply always_mono; [exact IH|]. intros tr l ->. cbn. by rewrite app_nil_r.
Qed.

(** The key that holds the namespace of a line is left out of its extras, and events have none:
    [extractResourceInfo] never finds a namespace there, so the forms that would show one are
    never printed. *)
Lemma extrasOf_without_namespace payload : extrasOf payload !! "namespace" = None.
Proof. apply map_lookup_filter_None. right. intros v _ Hn. apply Hn. vm_compute. set_solver. Qed.

Lemma reports_without_namespace x es e : reports x es → e ∈ es → ∃ m, le_Extras e = Some m ∧ m !! "namespace" = None.
Proof.
  assert (∀ source dflt lines es e, Forall2 (parsed source dflt) lines es → e ∈ es → ∃ m, le_Extras e = Some m ∧ m !! "namespace" = None) as Hlines.
  { intros source dflt lines es' e' Hp He. apply list_elem_of_lookup in He as [i He].
    destruct (Forall2_lookup_r _ _ _ _ _ Hp He) as (line & _ & Hline). unfold parsed in Hline.
    destruct (splitLeadingTimestamp line) as [[ts rest]|]; destruct Hline as [_ ->]; case_match;
      eexists; (split; [reflexivity|]); [apply extrasOf_without_namespace|done|apply extrasOf_without_namespace|done]. }
  destruct x as [[] r]; cbn [reports]; try (by intros -> ?%elem_of_nil).
  - destruct r as [err|events]; [by intros -> ?%elem_of_nil|]. intros Hp He. apply list_elem_of_lookup in He as [i He].
    destruct (Forall2_lookup_r _ _ _ _ _ Hp He) as (v & _ & -> & _). eexists. split; [reflexivity|done].
  - destruct r as [err|events]; [by intros -> ?%elem_of_nil|]. intros Hp He. apply list_elem_of_lookup in He as [i He].
    destruct (Forall2_lookup_r _ _ _ _ _ Hp He) as (v & _ & -> & _). eexists. split; [reflexivity|done].
  - intros (source & dflt & Hp & _) He. by eapply Hlines.
  - intros Hp He. by eapply Hlines.
Qed.

Lemma collected_without_namespace tr sent e : collected tr sent → e ∈ sent → ∃ m, le_Extras e = Some m ∧ getStringFromExtras m ["namespace"] = "".
Proof.
  intros [(ess & Hr & Hs) _] He. rewrite Hs in He. apply list_elem_of_join in He as (es & He & Hes).
  apply list_elem_of_lookup in Hes as [i Hes]. destruct (Forall2_lookup_r _ _ _ _ _ Hr Hes) as (x & _ & Hx).
  destruct (reports_without_namespace x es e Hx He) as (m & Hm & Hn). exists m. split; [done|]. cbn. by rewrite Hn.
Qed.

(** C30: What the dump prints. However the goroutines take turns and whatever they are answered,
    each line that was read and each event that was listed becomes exactly one entry, with the
    time in front of the line, and nothing else does. If all they asked for was read, and none
    of them failed, the entries of the test namespace from its level on are printed, and those
    of others from the level of the cluster on that are not older than all and not newer than
    all entries of the namespace; each once, and in the order of their times. Otherwise no
    entry is printed at all. *)
Theorem kaiwoDump_shows opts :
  always anything (kaiwoDump ErrorText opts testNamespace) (λ tr r,
    ∃ read sent shown,
      tr = read ++ map linePrinted (match r with Ok _ => printedLines shown | _ => [] end) ∧
      collected read sent ∧ (r = Ok () → Forall complete read) ∧
      shown ≡ₚ filter (λ e, wanted opts sent e = true) sent ∧ StronglySorted (λ x y, le_Time x <= le_Time y) shown).
Proof.
  apply always_call. intros [e|] _.
  { exists [ev (S := DumpSig) BuildKubeClient (Some e)], [], []. split; [done|]. split; [by apply collected_one|]. by repeat constructor. }
  apply always_bind. eapply always_mono; [by apply (collecting opts)|]. intros tr [sent o] [Hc Ho]. cbn [fst snd] in *.
  destruct (shownEntries_spec opts sent) as [Hp Hs].
  assert (∀ lines r, (r = Ok () → o = Ok ()) → lines = map linePrinted (match r with Ok _ => printedLines (shownEntries testNamespace opts sent) | _ => [] end) →
    ∃ read sent' shown, ev (S := DumpSig) BuildKubeClient None :: tr ++ lines =
        read ++ map linePrinted (match r : outcome unit with Ok _ => printedLines shown | _ => [] end) ∧
      collected read sent' ∧ (r = Ok () → Forall complete read) ∧
      shown ≡ₚ filter (λ e, wanted opts sent' e = true) sent' ∧ StronglySorted (λ x y, le_Time x <= le_Time y) shown) as Hdone.
  { intros lines r Hr ->. exists (ev (S := DumpSig) BuildKubeClient None :: tr), sent, (shownEntries testNamespace opts sent).
    split; [done|]. split; [by apply collected_cons|]. split; [|done]. intros ->. constructor; [done|]. by apply Ho, Hr. }
  destruct o as [[]|e|]; [|by apply (Hdone [] (Err e))|by apply (Hdone [] Panics)]. apply always_bind. eapply always_mono; [apply print_lines|].
  intros tr' l ->. cbn. rewrite app_nil_r. by apply (Hdone _ (Ok ())).
Qed.
End theory.

(** * Examples *)

Example normalizeLevel_examples :
  map normalizeLevel ["Level(-2)"; "-1"; " INFO "; "warning"; "3"; "5"; ""; "level()"] =
  ["trace"; "debug"; "info"; "warn"; "error"; "fatal"; "info"; "level()"].
Proof. vm_compute. reflexivity. Qed.

(** The levels of zap above [error] that are not [fatal] count as [info]. *)
Example panic_counts_as_info : atLeast (normalizeLevel "panic") levelWarn = false ∧ atLeast (normalizeLevel "dpanic") levelWarn = false.
Proof. vm_compute. done. Qed.

Example arriving_example : arriving [1; 0; 1; 7; 1]%nat [[1; 2]; [3; 4]] = [3; 1; 4; 2].
Proof. reflexivity. Qed.
