(* ===== verification/Webhooks.v ===== *)
(** The admission webhooks (internal/webhook/v1): batch jobs that ask for GPUs are put
    under the management of Kaiwo when they are created, and let go when they are
    deleted. The webhooks of deployments, Ray jobs and Ray services accept
    everything unchanged. *)

From stdpp Require Import gmap strings list.
From Stdlib Require Import ZArith Lia.
From S2P Require Import Prelude History Types Kueue Scheduling GpuResources Naming WorkloadTypes Labels WorkloadApi.

(** * Data *)

(** A batch job as the webhooks see it. A nil map of labels reads as an empty one. *)
Record BatchJob := {
  bj_Name : string;
  bj_Namespace : string;
  bj_Labels : gmap string string;
  bj_Finalizers : list string;
  bj_DeletionTimestamp : option Z;
  bj_Containers : list Container;
  bj_TerminationGracePeriodSeconds : option Z;
  bj_Rest : Json
}.

Definition set_bj_Labels (l : gmap string string) (j : BatchJob) : BatchJob :=
  {| bj_Name := bj_Name j; bj_Namespace := bj_Namespace j; bj_Labels := l; bj_Finalizers := bj_Finalizers j;
     bj_DeletionTimestamp := bj_DeletionTimestamp j; bj_Containers := bj_Containers j;
     bj_TerminationGracePeriodSeconds := bj_TerminationGracePeriodSeconds j; bj_Rest := bj_Rest j |}.
Definition set_bj_Finalizers (l : list string) (j : BatchJob) : BatchJob :=
  {| bj_Name := bj_Name j; bj_Namespace := bj_Namespace j; bj_Labels := bj_Labels j; bj_Finalizers := l;
     bj_DeletionTimestamp := bj_DeletionTimestamp j; bj_Containers := bj_Containers j;
     bj_TerminationGracePeriodSeconds := bj_TerminationGracePeriodSeconds j; bj_Rest := bj_Rest j |}.
Definition set_bj_Grace (s : option Z) (j : BatchJob) : BatchJob :=
  {| bj_Name := bj_Name j; bj_Namespace := bj_Namespace j; bj_Labels := bj_Labels j; bj_Finalizers := bj_Finalizers j;
     bj_DeletionTimestamp := bj_DeletionTimestamp j; bj_Containers := bj_Containers j;
     bj_TerminationGracePeriodSeconds := s; bj_Rest := bj_Rest j |}.

Definition bj_key (j : BatchJob) : Key := mkKey (bj_Namespace j) (bj_Name j).

(** The KaiwoJob that is made for a job. *)
Record ManagedJob := {
  mj_Name : string;
  mj_Namespace : string;
  mj_UID : string;
  mj_Labels : gmap string string;
  mj_Finalizers : list string;
  mj_Job : option BatchJob;
  mj_User : string
}.

Definition set_mj_Labels (l : gmap string string) (j : ManagedJob) : ManagedJob :=
  {| mj_Name := mj_Name j; mj_Namespace := mj_Namespace j; mj_UID := mj_UID j; mj_Labels := l; mj_Finalizers := mj_Finalizers j;
     mj_Job := mj_Job j; mj_User := mj_User j |}.
Definition set_mj_Job (b : BatchJob) (j : ManagedJob) : ManagedJob :=
  {| mj_Name := mj_Name j; mj_Namespace := mj_Namespace j; mj_UID := mj_UID j; mj_Labels := mj_Labels j; mj_Finalizers := mj_Finalizers j;
     mj_Job := Some b; mj_User := mj_User j |}.
Definition set_mj_Finalizers (l : list string) (j : ManagedJob) : ManagedJob :=
  {| mj_Name := mj_Name j; mj_Namespace := mj_Namespace j; mj_UID := mj_UID j; mj_Labels := mj_Labels j; mj_Finalizers := l;
     mj_Job := mj_Job j; mj_User := mj_User j |}.

(** * Calls *)

Inductive hook_req :=
| HookConfig
| RequestUser
| GetManagedJob (k : Key)
| CreateManagedJob (j : ManagedJob)
| UpdateManagedJob (j : ManagedJob)
| DeleteManagedJob (j : ManagedJob)
| GetHookQueue (k : Key)
| CreateHookQueue (l : KueueLocalQueue)
| GetBatchJob (k : Key)
| UpdateBatchJob (j : BatchJob).

Definition hook_resp (r : hook_req) : Type :=
  match r with
  | HookConfig => error + unit
  | RequestUser => option string
  | GetManagedJob _ | UpdateManagedJob _ => error + ManagedJob
  | CreateManagedJob _ | DeleteManagedJob _ | CreateHookQueue _ => option error
  | GetHookQueue _ => error + KueueLocalQueue
  | GetBatchJob _ | UpdateBatchJob _ => error + BatchJob
  end.

Definition HookSig : sig := Sig hook_req hook_resp.
Abbreviation HM := (prog HookSig).

(** * Helpers *)

Definition Finalizer : string := "kaiwo.silogen.ai/finalizer".
Definition gpuKeys : list string := ["amd.com/gpu"; "nvidia.com/gpu"].

Definition ContainsString (slice : list string) (str : string) : bool := existsb (λ v, bool_decide (v = str)) slice.

Fixpoint RemoveString (slice : list string) (str : string) : list string :=
  match slice with
  | [] => []
  | v :: slice' => if decide (v ≠ str) then v :: RemoveString slice' str else RemoveString slice' str
  end.

Definition CheckGPUReservation (c : Container) : bool :=
  existsb (λ k, bool_decide (is_Some (c_Limits c !! k)) || bool_decide (is_Some (c_Requests c !! k))) gpuKeys.

Section webhooks.
Context `{Host}.

(** [enforceKaiwoOnWorkloads], and the test of it. *)
Definition enforced : bool := bool_decide (Str.ToLower (GetEnv "ENFORCE_KAIWO_ON_GPU_WORKLOADS" "false") = "true").

Definition kaiwoManages (j : BatchJob) : bool := bool_decide (default "" (bj_Labels j !! KaiwoManagedLabel) = "true").

Definition getAuthenticatedUser : HM string :=
  u ← call (S := HookSig) RequestUser; mret (default "unknown-user" u).

(** [controllerutils.CreateLocalQueue]: any error of the read counts as missing. *)
Definition CreateHookLocalQueue (name namespace : string) : HM (outcome unit) :=
  got ← call (S := HookSig) (GetHookQueue (mkKey namespace name));
  match got with
  | inr _ => mret (Ok tt)
  | inl _ =>
      let localQueue :=
        {| lq_Meta := {| om_Name := name; om_Namespace := namespace; om_ResourceVersion := 0; om_Finalizers := [];
                         om_DeletionTimestamp := None; om_OwnerReferences := [] |};
           lq_ClusterQueue := name |} in
      _ ←? (e ← call (S := HookSig) (CreateHookQueue localQueue); mret (of_err e))
        else ("failed to create LocalQueue " +:+ name +:+ " in namespace " +:+ namespace);
      mret (Ok tt)
  end.

(** The KaiwoJob holds a pointer to the job, so it is created with the labels the job
    has by then. *)
Definition ensureKaiwoJob (job : BatchJob) (authenticatedUser : string) : HM (outcome BatchJob) :=
  got ← call (S := HookSig) (GetManagedJob (bj_key job));
  match got with
  | inr _ => mret (Ok job)
  | inl e =>
      if negb (IsNotFound e) then mret (Err (Wrapf "unexpected error retrieving KaiwoJob" e))
      else
        let kaiwoJobLabels := match bj_Labels job !! QueueLabel with
          | Some _ => bj_Labels job
          | None => <[QueueLabel := DefaultClusterQueueName]> (bj_Labels job)
          end in
        let labelContext := GetKaiwoLabelContext KindKaiwoJob (bj_Name job) "" authenticatedUser kaiwoJobLabels in
        let kaiwoJobLabels := SetKaiwoSystemLabels labelContext kaiwoJobLabels in
        let job := set_bj_Labels (SetKaiwoSystemLabels labelContext (bj_Labels job)) job in
        let kaiwoJob := {| mj_Name := bj_Name job; mj_Namespace := bj_Namespace job; mj_UID := ""; mj_Labels := kaiwoJobLabels;
                           mj_Finalizers := []; mj_Job := Some job; mj_User := authenticatedUser |} in
        _ ←? CreateHookLocalQueue (default "" (kaiwoJobLabels !! QueueLabel)) (bj_Namespace job) else "failed to create local queue";
        _ ←? (e ← call (S := HookSig) (CreateManagedJob kaiwoJob); mret (of_err e)) else "failed to create KaiwoJob";
        mret (Ok job)
  end.

(** The label that puts a job with GPUs under management. *)
Definition enforce (job : BatchJob) : BatchJob :=
  if enforced && existsb CheckGPUReservation (bj_Containers job)
  then set_bj_Labels (<[KaiwoManagedLabel := "true"]> (bj_Labels job)) job else job.

Definition defaultQueue (job : BatchJob) : BatchJob :=
  if decide (default "" (bj_Labels job !! QueueLabel) = "")
  then set_bj_Labels (<[QueueLabel := DefaultClusterQueueName]> (bj_Labels job)) job else job.

Definition defaultGrace (job : BatchJob) : BatchJob :=
  match bj_TerminationGracePeriodSeconds job with None => set_bj_Grace (Some 0) job | Some _ => job end.

(** The mutating webhook: the job as it is admitted. *)
Definition Default (job : BatchJob) : HM (outcome BatchJob) :=
  _ ←? (r ← call (S := HookSig) HookConfig; mret (of_sum r)) else "could not get kaiwo config";
  match bj_DeletionTimestamp job with
  | Some _ => mret (Ok job)
  | None =>
      authenticatedUser ← getAuthenticatedUser;
      let job := enforce job in
      if kaiwoManages job then
        let job := defaultGrace (defaultQueue job) in
        job ←? ensureKaiwoJob job authenticatedUser else "failed to create KaiwoJob";
        mret (Ok (if ContainsString (bj_Finalizers job) Finalizer then job else set_bj_Finalizers (bj_Finalizers job ++ [Finalizer]) job))
      else mret (Ok job)
  end.

(** The validating webhook, on creation. *)
Definition ValidateCreate (job : BatchJob) : option error :=
  if enforced && existsb CheckGPUReservation (bj_Containers job) && bool_decide (bj_Labels job !! KaiwoManagedLabel = None)
  then Some (Errorf "all jobs must have 'kaiwo.silogen.ai/managed' label") else None.

(** Up to [attempts] attempts to remove the finalizer; after as many conflicts the loop
    just ends. *)
Fixpoint removeFinalizer (attempts : nat) (key : Key) : HM (outcome unit) :=
  match attempts with
  | O => mret (Ok tt)
  | S attempts' =>
      job ←? (r ← call (S := HookSig) (GetBatchJob key); mret (of_sum r)) else "failed to refresh Job before removing finalizer";
      r ← call (S := HookSig) (UpdateBatchJob (set_bj_Finalizers (RemoveString (bj_Finalizers job) Finalizer) job));
      match r with
      | inr _ => mret (Ok tt)
      | inl e => if IsConflict e then removeFinalizer attempts' key else mret (Err (Wrapf "failed to remove finalizer" e))
      end
  end.

Definition retryAttempts : nat := 3.

Definition deleteManaged (key : Key) : HM (outcome unit) :=
  got ← call (S := HookSig) (GetManagedJob key);
  match got with
  | inl e => mret (if IsNotFound e then Ok tt else Err (Wrapf "failed to get KaiwoJob" e))
  | inr kaiwoJob =>
      kaiwoJob ←? (if ContainsString (mj_Finalizers kaiwoJob) Finalizer then
           r ← call (S := HookSig) (UpdateManagedJob (set_mj_Finalizers (RemoveString (mj_Finalizers kaiwoJob) Finalizer) kaiwoJob));
           mret (of_sum r)
         else mret (Ok kaiwoJob)) else "failed to remove finalizer from KaiwoJob";
      _ ←? (e ← call (S := HookSig) (DeleteManagedJob kaiwoJob); mret (of_err e)) else "failed to delete KaiwoJob";
      mret (Ok tt)
  end.

(** On deletion. *)
Definition ValidateDelete (job : BatchJob) : HM (outcome unit) :=
  if negb (ContainsString (bj_Finalizers job) Finalizer) then mret (Ok tt)
  else
    o ← removeFinalizer retryAttempts (bj_key job);
    match o with
    | Ok _ => deleteManaged (bj_key job)
    | Err e => mret (Err e)
    | Panics => mret Panics
    end.

(** * Properties *)

Lemma RemoveString_spec l s : RemoveString l s = filter (λ v, v ≠ s) l.
Proof. induction l as [|v l IH]; [done|]. rewrite filter_cons. cbn [RemoveString]. rewrite IH. by repeat case_decide. Qed.

Lemma ContainsString_spec l s : ContainsString l s = true ↔ s ∈ l.
Proof.
  unfold ContainsString. rewrite existsb_exists. split.
  - intros (v & Hv & Hs%bool_decide_eq_true). subst. by apply list_elem_of_In.
  - intros Hs. exists s. split; [by apply list_elem_of_In|]. by apply bool_decide_eq_true.
Qed.

(** What no step of the default takes away. *)
Definition same_job (j j' : BatchJob) : Prop :=
  bj_key j' = bj_key j ∧ bj_Containers j' = bj_Containers j ∧ bj_Rest j' = bj_Rest j ∧
  (is_Some (bj_Labels j !! KaiwoManagedLabel) → is_Some (bj_Labels j' !! KaiwoManagedLabel)).

Lemma SetKaiwoSystemLabels_managed lc labels :
  is_Some (labels !! KaiwoManagedLabel) → is_Some (SetKaiwoSystemLabels lc labels !! KaiwoManagedLabel).
Proof.
  intros Hm. unfold SetKaiwoSystemLabels. case_decide; [rewrite lookup_insert_eq; eauto|]. by rewrite !lookup_insert_ne.
Qed.

Lemma ensureKaiwoJob_same job user :
  always anything (ensureKaiwoJob job user) (λ tr o, ∀ job', o = Ok job' → same_job job job' ∧ bj_Finalizers job' = bj_Finalizers job ∧
    ((∃ j, ev (S := HookSig) (GetManagedJob (bj_key job)) (inr j) ∈ tr) ∨
     ∃ j, ev (S := HookSig) (CreateManagedJob j) None ∈ tr ∧ mj_Name j = bj_Name job ∧ mj_Namespace j = bj_Namespace job ∧
       mj_Job j = Some job' ∧ bj_Labels job' !! KaiwoRunIdLabel = Some "")).
Proof.
  unfold ensureKaiwoJob. on_call got. destruct got as [e|j].
  2: { intros job' [= <-]. split; [by repeat split|]. split; [done|]. left. exists j. by left. }
  destruct (negb (IsNotFound e)); [done|]. cbv zeta.
  set (labels := match bj_Labels job !! QueueLabel with Some _ => _ | None => _ end).
  set (lc := GetKaiwoLabelContext _ _ _ _ _). apply always_orFail. skip_run. intros tr1 [[]|e1|] _; [|done..].
  apply always_orFail. on_call x. destruct x as [e2|]; [done|]. simpl. intros job' [= <-].
  split; [|split; [done|]].
  - repeat split. simpl. apply SetKaiwoSystemLabels_managed.
  - right. eexists. split; [right; apply elem_of_app; right; by left|]. repeat split. simpl. unfold SetKaiwoSystemLabels. simpl.
    case_decide; by simplify_map_eq.
Qed.


(** The run of a KaiwoJob is its UID, which it has only once it is created: the labels
    set before that name no run. *)
Theorem Default_no_run job user :
  always anything (ensureKaiwoJob job user) (λ tr o, ∀ job' j, o = Ok job' → ev (S := HookSig) (CreateManagedJob j) None ∈ tr →
    (∀ j, ¬ (ev (S := HookSig) (GetManagedJob (bj_key job)) (inr j) ∈ tr)) → bj_Labels job' !! KaiwoRunIdLabel = Some "").
Proof.
  eapply always_mono; [apply ensureKaiwoJob_same|]. intros tr o Ho job' j Hok _ Hno.
  destruct (Ho job' Hok) as (_ & _ & [[j' Hj']|(j' & _ & _ & _ & _ & ?)]); [by destruct (Hno j')|done].
Qed.

(** Three conflicts in a row. *)
Definition conflicting : contract HookSig := λ r,
  match r return hook_resp r → Prop with
  | GetBatchJob _ => λ x, ∃ j, x = inr j
  | UpdateBatchJob _ => λ x, x = inl (StatusError ReasonConflict)
  | GetManagedJob _ => λ x, x = inl (StatusError ReasonNotFound)
  | _ => λ _, True
  end.

(** When each of the attempts to remove the finalizer of a job meets a conflict, its
    deletion is accepted all the same, and nothing has been removed. *)
Theorem ValidateDelete_conflicts job :
  always conflicting (ValidateDelete job) (λ tr o, o = Ok tt ∧ ∀ j j', ¬ (ev (S := HookSig) (UpdateBatchJob j) (inr j') ∈ tr)).
Proof.
  set (Q := λ (tr : trace HookSig) (o : outcome unit), o = Ok tt ∧ ∀ j j', ¬ (ev (S := HookSig) (UpdateBatchJob j) (inr j') ∈ tr)).
  assert (∀ (r : hook_req) (x : hook_resp r) tr o, (∀ j, match r as r return hook_resp r → Prop with UpdateBatchJob _ => λ x, x ≠ inr j | _ => λ _, True end x) →
    Q tr o → Q (ev (S := HookSig) r x :: tr) o) as Hcons.
  { intros r x tr o Hr [-> Hno]. split; [done|]. intros j j' [Heq|Hin]%elem_of_cons; [|by eapply Hno].
    specialize (Hr j'). set (f := λ e : event HookSig, match e with existT (UpdateBatchJob _) (inr j) => Some j | _ => None end).
    apply (f_equal f) in Heq. subst f. simpl in Heq. destruct r; try discriminate. destruct x; [discriminate|]. simplify_eq. }
  assert (Q [] (Ok tt)) as Hnil by (split; [done|]; intros j j' Hin; by apply elem_of_nil in Hin).
  unfold ValidateDelete. destruct (negb _); [exact Hnil|]. apply always_bind.
  eapply (always_mono _ _ Q).
  - generalize retryAttempts (bj_key job). intros n key. induction n as [|n IH]; [exact Hnil|]. cbn [removeFinalizer].
    apply always_orFail, always_call. intros x [j ->]. simpl. intros y ->.
    change (IsConflict (StatusError ReasonConflict)) with true. cbv iota. eapply always_mono; [exact IH|].
    intros tr o HQ. by repeat (apply Hcons; [done|]).
  - intros tr o [-> Hno]. unfold deleteManaged. apply always_call. intros x ->. simpl. split; [done|]. intros j j' [Hin|Hin]%elem_of_app; [by eapply Hno|]. apply list_elem_of_singleton, (f_equal (@projT1 _ _)) in Hin. done.
Qed.
End webhooks.
