(* ===== verification/Witnesses.v ===== *)
(** Instances of the theorems that have hypotheses, at concrete inputs: a pod, a
    pool, a lease, a finished workload, a set of samples. *)

From stdpp Require Import gmap strings list sorting relations.
From Stdlib Require Import ZArith Lia.
From S2P Require Import Prelude Float64 Types GpuResources Instances GpuApi Resolver Phase Preemption Lease Reconcile Scraper.
From S2P Require Import Text Kueue QueueApi QueueSync QueueConverge LocalQueues QueueQuiet Scheduling Resources Nodepools QueueInstances PoolTheory QueueConfig.

(** * Concrete data *)

Definition gpu : string := "amd.com/gpu".

Definition container4 : Container := {| c_Name := "main"; c_Requests := {[ gpu := 4 ]}; c_Limits := {[ gpu := 4 ]} |}.
Definition container8 : Container := {| c_Name := "init"; c_Requests := {[ gpu := 8 ]}; c_Limits := {[ gpu := 8 ]} |}.
Definition podSpecA : PodSpec := {| ps_Containers := [container4; container4]; ps_InitContainers := [container8] |}.

Definition podA : Pod :=
  {| pod_Name := "pod-a"; pod_Namespace := "team"; pod_UID := "uid-pod-a"; pod_Labels := ∅; pod_OwnerReferences := [];
     pod_Spec := podSpecA; pod_Phase := PodRunning; pod_Conditions := [] |}.

Definition specFor (uid : string) (n : Z) : GpuWorkloadSpec :=
  {| spec_WorkloadRef := {| ref_APIVersion := "batch/v1"; ref_Kind := "Job"; ref_Name := "train"; ref_UID := uid |};
     spec_GpuResources := {[ gpu := n ]}; spec_UtilizationThreshold := None; spec_GracePeriod := None;
     spec_PreemptionPolicy := None; spec_AggregationPolicy := None; spec_TTLAfterFinished := Some Hour |}.

Definition workload (name uid : string) (n : Z) (st : GpuWorkloadStatus) : GpuWorkload :=
  {| gw_Name := name; gw_Namespace := "team"; gw_CreationTimestamp := 0; gw_ResourceVersion := 1;
     gw_Spec := specFor uid n; gw_Status := st |}.

Definition idleSinceStatus (t : Z) : GpuWorkloadStatus := set_IdleSince (Some t) (set_Phase PhaseIdle zero_status).

Definition idleA : GpuWorkload := workload "a" "uid-a" 4 (idleSinceStatus 100).
Definition idleB : GpuWorkload := workload "b" "uid-b" 4 (idleSinceStatus 200).
Definition pendingC : GpuWorkload := workload "c" "uid-c" 6 (set_Phase PhasePendingGpu zero_status).

Definition poolAB : list workloadEntry := [idleEntry idleA; idleEntry idleB].
Definition stateAB : preemptionState :=
  {| pendingByResource := {[ gpu := [pendingEntry pendingC] ]}; idleByResource := {[ gpu := poolAB ]}; inFlight := ∅ |}.

(** * Witnesses *)

Lemma extractGpuResources_effective_witness :
  default 0 (extractGpuResources podSpecA !! gpu) =
    Z.max (sum_requests gpu [container4; container4]) (max_requests gpu [container8]).
Proof.
  apply (extractGpuResources_effective podSpecA gpu).
  - reflexivity.
  - repeat constructor; vm_compute; try done; discriminate.
  - repeat constructor. vm_compute. discriminate.
  - vm_compute. discriminate.
Defined.

Lemma gpuResourcesEqual_spec_witness :
  gpuResourcesEqual {[ gpu := 4 ]} {[ gpu := 4 ]} = true ↔ ({[ gpu := 4 ]} : gmap string Z) = {[ gpu := 4 ]}.
Proof. apply gpuResourcesEqual_spec. intros k v [_ <-]%lookup_singleton_Some. done. Defined.

Definition nsAnnotations : gmap string string := {[ AnnotationGracePeriod := "5m" ]}.
Definition annotated : GpuWorkload :=
  {| gw_Name := "d"; gw_Namespace := "team"; gw_CreationTimestamp := 0; gw_ResourceVersion := 1;
     gw_Spec := parseAnnotationsIntoSpec (mergePreemptionAnnotations nsAnnotations ∅)
       {| spec_WorkloadRef := spec_WorkloadRef (specFor "uid-d" 1); spec_GpuResources := ∅; spec_UtilizationThreshold := None;
          spec_GracePeriod := None; spec_PreemptionPolicy := None; spec_AggregationPolicy := None;
          spec_TTLAfterFinished := None |};
     gw_Status := zero_status |}.

Lemma settings_resolution_witness : getGracePeriod annotated zero_gpu_config = 5 * Minute.
Proof.
  pose proof (settings_resolution nsAnnotations ∅ (spec_WorkloadRef (specFor "uid-d" 1)) ∅ annotated zero_gpu_config) as Hs.
  rewrite (proj1 (Hs eq_refl)).
  vm_compute. reflexivity.
Defined.

Lemma computePhase_idle_witness :
  (computePhase idleA [podA] ∅ ∅ zero_gpu_config).2 = PhaseActive ∨
  (computePhase idleA [podA] ∅ ∅ zero_gpu_config).2 = PhaseIdle.
Proof.
  pose proof (computePhase_idle idleA [podA] ∅ ∅ zero_gpu_config ltac:(by constructor) eq_refl) as Hp.
  destruct (computePhase idleA [podA] ∅ ∅ zero_gpu_config) as [gw' phase]. exact (proj1 (proj2 Hp)).
Defined.

Lemma matchPending_all_or_nothing_witness :
  fits gpu ∅ poolAB ∧
  always anything (matchPending (boundedRetry 4) stateAB gpu poolAB (pendingEntry pendingC) ∅) (λ tr c,
    ∃ vs, minimal_victims gpu ∅ 6 poolAB vs ∧
      match c with
      | Continue claimed' => claimed' = ∅ ∪ list_to_set (uidOf <$> vs) ∧
          ∃ trs, tr = concat trs ∧ Forall2 (handled (gw_Name pendingC)) vs trs
      | Break _ => False
      | Return err => ∃ before v after trs tr', vs = before ++ v :: after ∧ tr = concat trs ++ tr' ∧
          Forall2 (handled (gw_Name pendingC)) before trs ∧ mark_attempts (gw_Name pendingC) (gw_key (we_gw v)) tr' (Some err)
      end).
Proof.
  assert (fits gpu ∅ poolAB) as Hfit by (vm_compute; discriminate). split; [exact Hfit|].
  exact (matchPending_all_or_nothing (boundedRetry 4) stateAB gpu poolAB (pendingEntry pendingC) ∅ Hfit ltac:(done)).
Defined.

Lemma stateAB_pools res pool : idleByResource stateAB !! res = Some pool → pool = poolAB.
Proof. intros Hp. simpl in Hp. apply lookup_singleton_Some in Hp. symmetry. apply Hp. Qed.

Lemma stateAB_well_pooled : well_pooled stateAB.
Proof.
  split.
  - intros res pool ->%stateAB_pools. apply (bool_decide_unpack _). vm_compute. exact I.
  - intros e e' (r & p & Hp & He) (r' & p' & Hp' & He'). apply stateAB_pools in Hp as ->. apply stateAB_pools in Hp' as ->.
    unfold poolAB in *. rewrite !elem_of_cons, elem_of_nil in *.
    destruct He as [->|[->|[]]], He' as [->|[->|[]]]; intros E; [done|discriminate E|discriminate E|done].
Qed.

Lemma matchAndMarkVictims_no_double_witness :
  well_pooled stateAB ∧ always anything (matchAndMarkVictims (boundedRetry 4) stateAB) (λ tr _, NoDup (started tr)).
Proof.
  split; [exact stateAB_well_pooled|]. exact (matchAndMarkVictims_no_double (boundedRetry 4) stateAB stateAB_well_pooled).
Defined.

Definition leaseA : Lease :=
  {| lease_Key := leaseKey; lease_ResourceVersion := 3; lease_HolderIdentity := Some "replica-a";
     lease_LeaseDurationSeconds := Some 30; lease_AcquireTime := Some 0; lease_RenewTime := Some 0 |}.

Lemma released_lease_blocks_witness :
  always (lease_answers (clearHolder leaseA) (λ now, time_sub now 0 < leaseDuration leaseA))
    (tryAcquireLease "replica-a") (λ tr acquired, acquired = false ∧ Forall (λ e, ¬ lease_write e) tr).
Proof. apply (released_lease_blocks "replica-a" leaseA 0); [discriminate|reflexivity]. Defined.

(** Replica B starts an evaluation while A's lease is running. *)
Definition worldA : world := {| w_lease := Some leaseA; w_revision := 3; w_clock := 10 * Second |}.
Definition resting : string → replica := λ _, {| rep_prog := mret None; rep_past := [] |}.
Definition sys0 : system := {| s_world := worldA; s_replicas := resting |}.
Definition sys1 : system :=
  {| s_world := worldA; s_replicas := set_replica "replica-b"
       {| rep_prog := tryRunPreemptionEvaluation (boundedRetry 4) "replica-b" zero_gpu_config; rep_past := [] |} resting |}.

Lemma lease_exclusive_witness :
  ∃ l', w_lease (s_world sys1) = Some l' ∧
    (lease_HolderIdentity l' = Some "replica-a" ∨
     lease_HolderIdentity l' = Some "" ∧
       ∃ lw k, rep_prog (s_replicas sys0 "replica-a") = Call (S := GpuSig) (UpdateLease lw) k).
Proof.
  apply (lease_exclusive (boundedRetry 4) zero_gpu_config sys0 sys0 sys1 leaseA "replica-a" 0).
  - split; [intros i; split; [reflexivity|by exists None]|]. by intros l [= <-].
  - apply rtc_refl.
  - by apply (step_start (boundedRetry 4) zero_gpu_config worldA resting "replica-b" None).
  - reflexivity.
  - reflexivity.
  - discriminate.
  - reflexivity.
  - vm_compute. reflexivity.
Defined.

Definition finished : GpuWorkload := workload "e" "uid-e" 1 (markPreempted 0 zero_status).

Lemma handleTerminal_expires_witness :
  always (clock_at (2 * Hour)) (handleTerminal finished zero_gpu_config)
    (λ tr _, ∃ ans, tr = [ev (S := GpuSig) Now (2 * Hour); ev (S := GpuSig) (DeleteGW finished) ans]).
Proof.
  eapply always_mono; [apply (handleTerminal_expires finished zero_gpu_config 0 (2 * Hour))|].
  - reflexivity.
  - vm_compute. reflexivity.
  - vm_compute. split; discriminate.
  - vm_compute. discriminate.
  - vm_compute. split; discriminate.
  - intros tr r Htr. cbv beta in Htr. rewrite decide_True in Htr by (vm_compute; discriminate). exact Htr.
Defined.

Definition samplesA : list gpuSample :=
  [{| sm_namespace := "team"; sm_podName := "pod-a"; sm_gpuID := "0"; sm_utilization := F64.of_Z 3 |};
   {| sm_namespace := "team"; sm_podName := "pod-a"; sm_gpuID := "1"; sm_utilization := F64.of_Z 90 |}].

Definition tracking : GpuWorkload :=
  workload "f" "uid-f" 2 (set_TrackedPods [{| tp_PodName := "pod-a"; tp_GpuMetrics := [] |}] (set_Phase PhaseActive zero_status)).

Lemma samplesA_distinct : NoDup (sm_gpuID <$> samplesA).
Proof. apply (bool_decide_unpack _). vm_compute. exact I. Qed.

Lemma applyUtilizationSamples_records_witness :
  metrics_only tracking (applyUtilizationSamples tracking "pod-a" samplesA 5).1.
Proof.
  pose proof (applyUtilizationSamples_records tracking "pod-a" samplesA 5 samplesA_distinct ltac:(by eexists)) as Hr.
  destruct (applyUtilizationSamples tracking "pod-a" samplesA 5) as [gw' ch]. exact (proj1 Hr).
Defined.

Lemma applyUtilizationSamples_idempotent_witness :
  (applyUtilizationSamples (applyUtilizationSamples tracking "pod-a" samplesA 5).1 "pod-a" samplesA 9).2 = false.
Proof. rewrite (applyUtilizationSamples_idempotent tracking "pod-a" samplesA 5 9 samplesA_distinct). reflexivity. Defined.

(** * Sizing and container resources *)

Definition sized : CommonMetaSpec :=
  {| ms_Gpus := 12; ms_GpuVendor := "amd"; ms_Replicas := None; ms_GpusPerReplica := 0; ms_Duration := None;
     ms_Resources := None; ms_ClusterQueue := "" |}.
Definition nodes8 : GPUStats :=
  {| TotalClusterGPUs := 32; TotalAllocatableGPUs := 32; MinAllocatableGPUsPerNode := 8; MinGPUsPerNode := 8; NodeGPUMap := ∅ |}.

Lemma sized_sane : sane sized.
Proof. repeat split; try (vm_compute; done); vm_compute; discriminate. Qed.


Definition queueSpec0 : ClusterQueueSpec :=
  {| cqs_ResourceGroups := None; cqs_Cohort := ""; cqs_QueueingStrategy := ""; cqs_NamespaceSelector := None;
     cqs_FlavorFungibility := None; cqs_Preemption := None; cqs_AdmissionChecks := None; cqs_AdmissionChecksStrategy := None;
     cqs_StopPolicy := None; cqs_FairSharing := None |}.
Definition queueK : ClusterQueue := {| cq_Name := "kaiwo"; cq_Spec := queueSpec0; cq_Namespaces := ["team"] |}.
Definition context8 : ClusterContext :=
  {| cc_Nodes := []; cc_GpuStats := nodes8; cc_QueueConfigName := "kaiwo"; cc_ClusterQueues := [queueK] |}.

Lemma GetSchedulableCondition_spec_witness :
  ∃ cond, GetSchedulableCondition "kaiwo" context8 "team" sized = Some cond ∧ cond_Status cond = ConditionTrue.
Proof.
  eexists. split; [vm_compute; reflexivity|].
  eapply (GetSchedulableCondition_spec "kaiwo" context8 "team" sized).
  - exact sized_sane.
  - vm_compute. split; [reflexivity|discriminate].
  - vm_compute. discriminate.
  - vm_compute. reflexivity.
  - split; [right; by left|vm_compute; discriminate].
Defined.

Definition plainContainer (n : string) : Container := {| c_Name := n; c_Requests := ∅; c_Limits := ∅ |}.
Definition sharing : ResourceConfig :=
  {| rc_TotalGpus := 8; rc_Replicas := 2; rc_GpusPerReplica := 4; rc_GpuVendor := "amd";
     rc_DefaultResources := Some {| rq_Requests := Some ∅; rq_Limits := Some ∅ |} |}.
Definition notSharing : ResourceConfig :=
  {| rc_TotalGpus := 8; rc_Replicas := 2; rc_GpusPerReplica := 4; rc_GpuVendor := "amd"; rc_DefaultResources := None |}.
Definition requestsOnly : ResourceConfig :=
  {| rc_TotalGpus := 8; rc_Replicas := 2; rc_GpusPerReplica := 4; rc_GpuVendor := "amd";
     rc_DefaultResources := Some {| rq_Requests := Some ∅; rq_Limits := None |} |}.

Lemma gpu_named : gpuName gpu.
Proof. by split. Qed.

Lemma UpdateRayClusterSpec_head_gets_gpus_witness :
  ∃ ws hd, UpdateRayClusterSpec gpu 0 sharing [[plainContainer "worker"]] [plainContainer "head"] = Some (ws, [hd]) ∧
    c_Requests hd !! gpu = Some 4.
Proof.
  apply (UpdateRayClusterSpec_head_gets_gpus gpu sharing ∅ ∅ (plainContainer "worker") (plainContainer "head") gpu).
  - reflexivity.
  - vm_compute. reflexivity.
  - vm_compute. reflexivity.
  - exact gpu_named.
  - reflexivity.
Defined.

Lemma UpdateRayClusterSpec_head_without_gpus_witness :
  ∃ ws head, UpdateRayClusterSpec gpu (16 * Gi) notSharing [[plainContainer "worker"]] [plainContainer "head"] = Some (ws, head) ∧
    Forall2 (λ c c', c_Requests c' !! gpu = c_Requests c !! gpu ∧ c_Limits c' !! gpu = c_Limits c !! gpu) [plainContainer "head"] head.
Proof.
  apply (UpdateRayClusterSpec_head_without_gpus gpu (16 * Gi) notSharing [[plainContainer "worker"]] [plainContainer "head"] gpu).
  - reflexivity.
  - exact gpu_named.
Defined.

Lemma UpdateRayClusterSpec_panics_witness :
  UpdateRayClusterSpec gpu (16 * Gi) requestsOnly [[plainContainer "worker"]] [plainContainer "head"] = None.
Proof.
  apply (UpdateRayClusterSpec_panics gpu (16 * Gi) requestsOnly ∅).
  - reflexivity.
  - vm_compute. reflexivity.
Defined.

(** * Queue configuration *)

Definition flavorA : ResourceFlavorSpec :=
  {| rf_Name := "pool-a"; rf_NodeLabels := ∅; rf_Taints := []; rf_Tolerations := []; rf_TopologyName := "" |}.
Definition specK : KaiwoQueueConfigSpec :=
  {| qs_ClusterQueues := [queueK]; qs_ResourceFlavors := [flavorA]; qs_WorkloadPriorityClasses := []; qs_Topologies := [] |}.
Definition configK : KaiwoQueueConfig := {| qc_Meta := named "kaiwo"; qc_Spec := specK; qc_Status := "" |}.

(** A flavor the configuration does not name. *)
Definition strayFlavor : KueueResourceFlavor := ConvertKaiwoToKueueResourceFlavor
  {| rf_Name := "stray"; rf_NodeLabels := ∅; rf_Taints := []; rf_Tolerations := []; rf_TopologyName := "" |}.
Definition clusterStray : cluster := {[ (KFlavor, "", "stray") := OFlavor strayFlavor ]}.

Lemma well_formed_singleton k o :
  objKey o = k → (objKind o ≠ KLocal → om_Namespace (objMeta o) = "") → om_DeletionTimestamp (objMeta o) = None →
  well_formed {[ k := o ]}.
Proof.
  intros Hk Hs Hd. split.
  - intros k' o' [<- <-]%lookup_singleton_Some. done.
  - intros k' o' [_ <-]%lookup_singleton_Some. done.
  - intros k' o' [_ <-]%lookup_singleton_Some Ht. unfold terminating in Ht. by rewrite Hd in Ht.
Qed.

Lemma specK_named : well_named specK.
Proof. split; try (apply (bool_decide_unpack _); vm_compute; exact I). by intros p Hp%elem_of_nil. Qed.

Lemma SyncKueueResources_converges_witness :
  ∃ tr err st', exec anything (SyncKueueResources (boundedRetry 4) configK) tr err ∧ served (S := QueueSig) answer clusterStray tr st' ∧
    err = None ∧ in_line specK clusterStray st'.
Proof.
  destruct (SyncKueueResources_converges (boundedRetry 4) configK clusterStray) as [(tr & err & st' & Hex & Hs) Hall].
  - intros owner m. eexists. reflexivity.
  - by apply well_formed_singleton.
  - exact specK_named.
  - exists tr, err, st'. split; [exact Hex|]. split; [exact Hs|]. exact (Hall tr err st' Hex Hs).
Defined.

Definition localK : KueueLocalQueue :=
  {| lq_Meta := {| om_Name := "kaiwo"; om_Namespace := "team"; om_ResourceVersion := 1; om_Finalizers := [];
                   om_DeletionTimestamp := None; om_OwnerReferences := [] |};
     lq_ClusterQueue := "kaiwo" |}.

Lemma syncLocalQueues_unreadable_deletes_witness :
  "team" ∈ cq_Namespaces queueK ∧
  always (unreadable "kaiwo") (syncLocalQueues configK [localK]) (λ tr _, calls (deletes (OLocal localK)) tr).
Proof.
  split; [by left|]. apply (syncLocalQueues_unreadable_deletes configK [localK] queueK localK).
  - apply (bool_decide_unpack _). vm_compute. exact I.
  - by left.
  - discriminate.
  - apply (bool_decide_unpack _). vm_compute. exact I.
  - by left.
  - reflexivity.
Defined.

Definition info (name : string) (labels : gmap string string) : NodeResourceInfo :=
  {| nr_Name := name; nr_CPU := 128; nr_Memory := 1007; nr_Labels := labels; nr_Unschedulable := false |}.
Definition amdLabels : gmap string string :=
  {[ "amd.com/gpu.product-name" := "AMD_Instinct_MI300X_OAM"; "beta.amd.com/gpu.family.AI" := "8" ]}.

Lemma info_valid name labels : labels = ∅ ∨ labels = amdLabels → valid_node (info name labels).
Proof. intros [->| ->]; split; vm_compute; discriminate. Qed.

Lemma groupNodes_spec_witness :
  ∃ p, groupNodes true [info "a" amdLabels; info "b" ∅; info "c" amdLabels] no_pools = Some p ∧
    np_Nodes p !! "amd-mi300x-8gpu-115core-906gi" = Some ["a"; "c"].
Proof.
  destruct (groupNodes_spec true [info "a" amdLabels; info "b" ∅; info "c" amdLabels]) as (p & Hp & Hpools).
  - rewrite !Forall_cons. repeat split_and; [apply info_valid; auto..|apply Forall_nil_2].
  - exists p. split; [exact Hp|]. rewrite (proj1 (Hpools _)). vm_compute. reflexivity.
Defined.

Definition nodeA : Node :=
  {| node_Name := "a"; node_Labels := {[ DefaultNodePoolLabel := "amd-mi300x-8gpu-115core-906gi" ]}; node_Unschedulable := false;
     node_Taints := []; node_Capacity := ∅; node_Allocatable := ∅ |}.

Lemma nodepool_label_roundtrip_witness : labelGpus "amd" nodeA = Some 8.
Proof.
  apply (nodepool_label_roundtrip (info "a" amdLabels) nodeA).
  - apply info_valid. by right.
  - right. apply (bool_decide_unpack _). vm_compute. exact I.
  - vm_compute. reflexivity.
Defined.

Definition flavorB : ResourceFlavorSpec := poolFlavor "default-topology" "pool-b".
Definition topologyD : Topology := {| tp_Meta := named "default-topology"; tp_Levels := Some ["rack"] |}.

Lemma mergeConfig_spec_witness :
  flavorA ∈ qs_ResourceFlavors (qc_Spec (mergeConfig [flavorB] queueK (sanitizeTopologies [topologyD]) configK)).
Proof.
  apply (mergeConfig_spec [flavorB] queueK [topologyD] configK).
  - apply (bool_decide_unpack _). vm_compute. exact I.
  - apply (bool_decide_unpack _). vm_compute. exact I.
  - apply (bool_decide_unpack _). vm_compute. exact I.
  - apply (bool_decide_unpack _). vm_compute. exact I.
  - apply (bool_decide_unpack _). vm_compute. exact I.
  - right. split; [by left|]. apply (bool_decide_unpack _). vm_compute. exact I.
Defined.

Lemma Reconcile_creation_deletes_witness :
  always (fresh_install [strayFlavor]) (QueueConfig.Reconcile (boundedRetry 4) "kaiwo") (λ tr _,
    created tr → calls (deletes (OFlavor strayFlavor)) tr).
Proof. apply (Reconcile_creation_deletes (boundedRetry 4) [strayFlavor] strayFlavor). by left. Defined.

(** The cluster as [configK] with its queue alone describes it. *)
Definition configQ : KaiwoQueueConfig :=
  {| qc_Meta := named "kaiwo"; qc_Status := "READY";
     qc_Spec := {| qs_ClusterQueues := []; qs_ResourceFlavors := [flavorA]; qs_WorkloadPriorityClasses := []; qs_Topologies := [] |} |}.
Definition clusterA : cluster := {[ (KFlavor, "", "pool-a") := OFlavor (ConvertKaiwoToKueueResourceFlavor flavorA) ]}.

Lemma clusterA_exact : exact (qc_Spec configQ) clusterA.
Proof.
  unfold clusterA. split.
  - split.
    + intros f ->%list_elem_of_singleton. eexists. split; [vm_compute; reflexivity|]. by eexists.
    + intros n [o [E _]%lookup_singleton_Some]. injection E as <-. by left.
  - split; [by intros t ?%elem_of_nil|]. intros n [o [E _]%lookup_singleton_Some]. discriminate E.
  - split; [by intros t ?%elem_of_nil|]. intros n [o [E _]%lookup_singleton_Some]. discriminate E.
  - split; [by intros t ?%elem_of_nil|]. intros n [o [E _]%lookup_singleton_Some]. discriminate E.
  - by intros q ns ?%elem_of_nil.
  - by intros q ns ?%elem_of_nil.
Qed.

Lemma SyncKueueResources_quiet_witness :
  always (reading clusterA) (SyncKueueResources (boundedRetry 4) configQ) (λ tr err, quiet tr ∧ err = None).
Proof.
  apply (SyncKueueResources_quiet (boundedRetry 4) configQ clusterA).
  - by apply well_formed_singleton.
  - exact clusterA_exact.
Defined.
