(* ===== verification/WorkloadWitnesses.v ===== *)
(** Instances of the theorems on workloads that have hypotheses, at concrete
    inputs. *)

From stdpp Require Import gmap strings list.
From Stdlib Require Import ZArith Lia.
From S2P Require Import Prelude Float64 Types Kueue Scheduling GpuResources Instances Naming WorkloadTypes Labels WorkloadApi Handlers Lifecycle Observation WorkloadSafety Monitoring Interleaving WorkloadTheory WorkloadInstances.

(** * Names *)

(** A label, checked on its characters. *)
Ltac solve_label :=
  split; [repeat constructor|vm_compute; repeat split; try done|intros c [= <-]; reflexivity|intros c Hc; vm_compute in Hc; injection Hc as <-; reflexivity
         |vm_compute; lia].

Lemma FormatNameWithPostfix_spec_witness :
  FormatNameWithPostfix "llm-train" ["download"] = "llm-train-download".
Proof. apply (FormatNameWithPostfix_spec "llm-train" ["download"]); [solve_label|done|solve_label]. Defined.

(** * A job that is to be terminated *)

Definition specT : CommonMetaSpec :=
  {| ms_Gpus := 4; ms_GpuVendor := "amd"; ms_Replicas := None; ms_GpusPerReplica := 0; ms_Duration := Some Hour; ms_Resources := None;
     ms_ClusterQueue := "" |}.

Definition jobIn (s : WorkloadStatus) (version : Z) (cs : list Condition) : KaiwoWorkload :=
  {| kw_Kind := KindKaiwoJob; kw_Name := "train"; kw_Namespace := "team"; kw_UID := "uid-train"; kw_ResourceVersion := version;
     kw_Generation := 1; kw_CreationTimestamp := 0; kw_Labels := ∅; kw_Spec := specT; kw_User := ""; kw_Storage := None; kw_Ray := false;
     kw_HasRaySpec := false;
     kw_Status := {| cs_StartTime := Some 0; cs_Conditions := cs; cs_Status := s; cs_Duration := 0; cs_ObservedGeneration := 0 |} |}.

Definition flagged : KaiwoWorkload := jobIn WorkloadStatusTerminating 0 [].

Lemma failed_deletion_forgotten_witness :
  always anything (reconcileWorkload bareManifests flagged) (λ tr o,
    (∀ before e after, tr = before ++ e :: after → deletes e →
       ∃ w1 w2, ev (S := WorkSig) (StatusUpdate w1) (inr w2) ∈ before ∧ statusOf w1 = WorkloadStatusTerminated) ∧
    ((∃ e, e ∈ tr ∧ fails e) → ∃ err, o = Err err) ∧
    ∀ w1 w2, ev (S := WorkSig) (StatusUpdate w1) (inr w2) ∈ tr → kw_Status w2 = kw_Status w1 →
      always anything (reconcileWorkload bareManifests w2) (λ tr' _, ∃ x, tr' = [ev (S := WorkSig) (GetConfigObject "kaiwo") x])).
Proof. apply (failed_deletion_forgotten bareManifests flagged). reflexivity. Defined.

(** ** Its reconcile, of which the server has seen the first four events *)

Definition terminated (version : Z) : KaiwoWorkload := jobIn WorkloadStatusTerminated version [with_time 5 earlyTermination].
Definition cfgT : WorkloadConfig :=
  {| wc_DefaultClusterQueueName := "kaiwo"; wc_PendingThresholdForPreemption := "5m"; wc_LowUtilizationThreshold := F64.of_Z 1;
     wc_TargetNamespaces := []; wc_TerminateUnderutilized := false; wc_TerminateUnderutilizedAfter := "24h" |}.

Definition seen : list (event WorkSig) :=
  [ev (S := WorkSig) (GetWorkload KindKaiwoJob (mkKey "team" "train")) (inr flagged); ev (S := WorkSig) (GetConfigObject "kaiwo") (inr cfgT);
   ev (S := WorkSig) CurrentTime 5; ev (S := WorkSig) (StatusUpdate (terminated 0)) (inr (terminated 1))].
Definition ahead : list (event WorkSig) := [ev (S := WorkSig) (ListChildren KindDeployment "team") (inl (StatusError ReasonForbidden))].

Definition world0 : gmap (WorkloadKind * Key) (list KaiwoWorkload) := {[ idOf flagged := [flagged] ]}.
Definition world1 : gmap (WorkloadKind * Key) (list KaiwoWorkload) := <[idOf flagged := [flagged; terminated 1]]> world0.

Lemma seen_runs : ∃ o, exec anything (reconcileRequest bareManifests KindKaiwoJob (mkKey "team" "train")) (seen ++ ahead) o.
Proof. eexists. do 5 (refine (exec_call _ _ _ _ _ _ I _)). refine (exec_ret _ _). Qed.

Lemma world0_kept : well_kept world0.
Proof.
  unfold well_kept, world0. intros id ws [<- <-]%lookup_singleton_Some. split; [done|]. split; [|by apply Forall_singleton]. split.
  - intros [|i] w Hi; [by simplify_eq/=|done].
  - intros [|i] w w' _ Hi'; done.
Qed.

Lemma world0_evolves : evolves world0 (pair 0%nat <$> seen) world1.
Proof.
  assert (∀ g W t e W', evolves world0 g W → answers W e W' → ∀ g', g' = g ++ [(t, e)] → evolves world0 g' W') as Hstep.
  { intros g W t e W' Hg Ha g' ->. by eapply evolves_event. }
  eapply Hstep; [eapply Hstep; [eapply Hstep; [eapply Hstep; [apply evolves_start| |reflexivity]| |reflexivity]| |reflexivity]| |reflexivity].
  - split; [reflexivity|]. vm_compute. left.
  - reflexivity.
  - reflexivity.
  - exists flagged. repeat split; vm_compute; reflexivity.
Qed.

Lemma statuses_follow_lifecycle_witness :
  well_kept world1 ∧
  (∀ id i j w w', versions world1 id !! i = Some w → versions world1 id !! j = Some w' → (i ≤ j)%nat →
     (over (statusOf w) → statusOf w' = statusOf w) ∧
     (statusOf w = WorkloadStatusTerminating → statusOf w' = WorkloadStatusTerminating ∨ statusOf w' = WorkloadStatusTerminated)).
Proof.
  apply (statuses_follow_lifecycle bareManifests (λ _, "error") world0 (pair 0%nat <$> seen) world1).
  - exact world0_kept.
  - exact world0_evolves.
  - intros t. destruct seen_runs as [o Hex]. exists (seen ++ ahead). split; [eapply run_reconcile; exact Hex|].
    destruct t as [|t]; [exists ahead; reflexivity|]. apply prefix_nil.
Defined.

(** * A queue that is restricted to a namespace *)

Definition queueT : ClusterQueue :=
  {| cq_Name := "kaiwo"; cq_Namespaces := ["team"];
     cq_Spec := {| cqs_ResourceGroups := None; cqs_Cohort := ""; cqs_QueueingStrategy := ""; cqs_NamespaceSelector := None;
                   cqs_FlavorFungibility := None; cqs_Preemption := None; cqs_AdmissionChecks := None;
                   cqs_AdmissionChecksStrategy := None; cqs_StopPolicy := None; cqs_FairSharing := None |} |}.
Definition configT : KaiwoQueueConfig :=
  {| qc_Meta := named "kaiwo"; qc_Status := "";
     qc_Spec := {| qs_ClusterQueues := [queueT]; qs_ResourceFlavors := []; qs_WorkloadPriorityClasses := []; qs_Topologies := [] |} |}.

Lemma EnsureLocalQueue_spec_witness :
  always (unqueued configT) (EnsureLocalQueue "kaiwo" "kaiwo" "team") (queued "kaiwo" "team" queueT).
Proof. apply (EnsureLocalQueue_spec configT "kaiwo" "team" queueT 0). reflexivity. Defined.

(** * Storage with a download *)

Definition hfT : HfStorageSpec := {| hs_MountPath := "/hf"; hs_StorageSize := "10"; hs_PreCacheRepos := [{| hf_RepoID := "org/model"; hf_Files := [] |}] |}.
Definition storageT : StorageSpec :=
  {| ss_StorageEnabled := true; ss_StorageClassName := "standard"; ss_AccessMode := "ReadWriteMany"; ss_Data := None; ss_HuggingFace := Some hfT |}.

Lemma storage_failure_is_download_witness :
  always anything (storageObserveStatus bareManifests flagged storageT WorkloadStatusNew) (λ tr o, ∀ cs, o = Ok (WorkloadStatusFailed, cs) →
    ∃ job js failed ready active, ev (S := WorkSig) (GetChild KindJob (downloadKey (kw_key flagged))) (inr job) ∈ tr ∧
      ch_Status job = JobStatus js failed ready active ∧ ObserveBatchJob js failed ready active WorkloadStatusNew = WorkloadStatusFailed).
Proof. apply (storage_failure_is_download bareManifests flagged storageT WorkloadStatusNew). reflexivity. Defined.
