(* ===== verification/UtilityWitnesses.v ===== *)
(** The theorems about derived names, image references and the generic reconciler, at
    concrete inputs; the interfaces they are stated against can be met. *)

From stdpp Require Import strings list.
From Stdlib Require Import ZArith Lia.
From S2P Require Import Prelude History Types Ordering Runes Naming DerivedNames ImageNames Framework Instances.

(** * Derived names *)

(** An encoder that tells values apart by their kind only. *)
#[refine, local] Instance kindEncoding : Encoding := {|
  Marshal v := Some "x";
  Sprint v := "y";
  Sum256 s := (λ i, (i + Z.of_nat (String.length s)) mod 256) <$> seqZ 0 32
|}.
Proof.
  - done.
  - intros s. by rewrite length_fmap, length_seqZ.
  - intros s. apply Forall_fmap, Forall_forall. intros i _. apply Z.mod_pos_bound. lia.
Defined.

Lemma GenerateDerivedName_spec_witness :
  ["My Service"; "temp"] ≠ [] ∧
  ∃ name, GenerateDerivedNameWithHashLength controllerCompliant ["My Service"; "temp"] 8 [VNil] = Ok (stringOf name) ∧ tidyPart name.
Proof.
  split; [done|].
  destruct (proj2 (proj2 (GenerateDerivedName_spec controllerCompliant ["My Service"; "temp"] 8 [VNil]) ltac:(done)) ltac:(lia))
    as (cut & hashSuffix & He & _ & Ht & _).
  by exists (withSuffix hashSuffix (joinDash cut)).
Defined.

Example GenerateDerivedName_example :
  controllerDerivedName ["My Service"; "temp"] [VNil] = Ok "my-service-temp-04050607".
Proof. by vm_compute. Qed.

(** The same map, ranged over in two orders. *)
Lemma GenerateDerivedName_deterministic_witness :
  GenerateDerivedName controllerCompliant ["a"] [VStrings [("x", "1"); ("y", "2")]] =
  GenerateDerivedName controllerCompliant ["a"] [VStrings [("y", "2"); ("x", "1")]].
Proof.
  apply (GenerateDerivedName_deterministic controllerCompliant ["a"]). constructor; [|constructor].
  apply same_strings; [|apply perm_swap]. apply (bool_decide_unpack _). by vm_compute.
Defined.

Lemma map_hashes_like_slice_witness :
  GenerateDerivedName controllerCompliant ["a"] [VStrings [("x", "1")]] =
  GenerateDerivedName controllerCompliant ["a"] [VSlice [VString "x"; VString "1"]].
Proof. by apply (map_hashes_like_slice controllerCompliant ["a"] "x" "1" "x"). Defined.

(** * Image references *)

Definition llama : ImageRef := {|
  ref_registry := Some (bytesOf "ghcr.io");
  ref_path := [bytesOf "silogen"];
  ref_name := bytesOf "llama-3-8b";
  ref_version := Tagged (bytesOf "v1.2.0")
|}.

Lemma ExtractImageParts_roundtrip_witness :
  ExtractImageParts "ghcr.io/silogen/llama-3-8b:v1.2.0" =
  inr {| Registry := "ghcr-io"; Repository := "silogen/llama-3-8b"; ip_Name := "llama-3-8b"; Tag := "v1-2-0" |}.
Proof.
  assert (well_formed llama) as Hwf.
  { split; cbn; try done.
    - intros h [= <-]. split; [left|]; apply (bool_decide_unpack _); by vm_compute.
    - repeat constructor; apply (bool_decide_unpack _); by vm_compute.
    - split_and!; [done|apply (bool_decide_unpack _); by vm_compute..].
    - split_and!; [done|apply (bool_decide_unpack _); by vm_compute..]. }
  pose proof (ExtractImageParts_roundtrip llama Hwf) as He. vm_compute in He. vm_compute. exact He.
Defined.

Lemma ExtractImageParts_tag_and_digest_witness :
  ExtractImageParts "nginx:v1@sha256:abcdef0123" =
  inr {| Registry := "docker-io"; Repository := "nginx:v1"; ip_Name := "nginx-v1"; Tag := "abcdef" |}.
Proof.
  pose proof (ExtractImageParts_tag_and_digest (bytesOf "nginx") (bytesOf "v1") (bytesOf "sha256") (bytesOf "abcdef0123")
    ltac:(done) ltac:(apply (bool_decide_unpack _); by vm_compute) ltac:(apply (bool_decide_unpack _); by vm_compute)
    ltac:(apply (bool_decide_unpack _); by vm_compute) ltac:(done)) as He.
  vm_compute in He. vm_compute. exact He.
Defined.

(** * The generic reconciler *)

(** A resource with a number for a status, and objects that are their names. *)
Record Thing := mkThing {
  th_finalizers : list string;
  th_deleted : option Z;
  th_status : Z * Z
}.

#[refine, local] Instance thingObject : ObjectWithStatus Thing (Z * Z) := {|
  objectKey _ := mkKey "ns" "thing";
  DeletionTimestamp := th_deleted;
  Generation _ := 1;
  GetStatus := th_status;
  SetStatus s o := mkThing (th_finalizers o) (th_deleted o) s;
  SetObservedGeneration g s := (g, s.2);
  DeepCopy := Some id;
  JSONCopy := id;
  ContainsFinalizer o f := bool_decide (f ∈ th_finalizers o);
  AddFinalizer f o := mkThing (f :: th_finalizers o) (th_deleted o) (th_status o);
  RemoveFinalizer f o := mkThing (filter (λ g, g ≠ f) (th_finalizers o)) (th_deleted o) (th_status o)
|}.
Proof.
  - done.
  - done.
  - intros o f. cbn. by apply bool_decide_eq_true, elem_of_cons; left.
  - intros o f. cbn. apply bool_decide_eq_false. rewrite list_elem_of_filter. by intros [? _].
Defined.

#[refine, local] Instance namedObject : ClientObject (GroupVersionKind * string) := {|
  GetNamespace _ := "ns";
  GetName := snd;
  ObjectKind := fst;
  SetGroupVersionKind g o := (g, o.2);
  ObjectKinds _ := inr [mkGVK "apps" "v1" "Deployment"];
  GVKString := gvk_kind
|}.
Proof. all: done. Defined.

Definition plannedA : list (GroupVersionKind * string) := [(mkGVK "" "" "", "b"); (mkGVK "" "" "", "a")].
Definition thingSpec : ReconcileSpec (T := Thing) :=
  {| Object_ := mkThing ["f"] None (0, 0); FinalizerName := "f"; FieldOwner := "kaiwo"; hasFinalizeFn := true |}.

Definition configA : ApplyConfig := {| ac_FieldOwner := "kaiwo"; EnablePruning := false; InventoryLabels := [] |}.

Lemma ApplyDesiredState_deterministic_witness :
  ApplyDesiredState (T := Thing) (Obs := unit) plannedA configA = ApplyDesiredState (reverse plannedA) configA.
Proof.
  apply (ApplyDesiredState_deterministic plannedA (reverse plannedA)
    [(mkGVK "apps" "v1" "Deployment", "b"); (mkGVK "apps" "v1" "Deployment", "a")]).
  - symmetry. apply reverse_Permutation.
  - done.
  - apply (bool_decide_unpack _). by vm_compute.
Defined.

Lemma Reconcile_complete_witness :
  always anything (Reconcile (O := GroupVersionKind * string) (Obs := unit) (boundedRetry 3) thingSpec) (λ tr r,
    ∃ obs observeErr tr1, tr = ev (S := FrameSig) (ObserveFn (mkThing ["f"] None (0, 0))) (obs, observeErr) :: tr1 ∧
      (r.2 = None → observeErr = None)).
Proof.
  eapply always_mono; [apply (Reconcile_complete (boundedRetry 3) thingSpec); [done|done]|].
  intros tr r (obs & observeErr & tr1 & -> & Hr). exists obs, observeErr, tr1. split; [done|].
  intros Hnone. destruct observeErr as [err|]; [|done]. destruct Hr as [-> _]. done.
Defined.
