(* ===== verification/ManifestWitnesses.v ===== *)
(** Instances of the theorems on manifests that have hypotheses, at concrete
    inputs. *)

From stdpp Require Import gmap strings list.
From Stdlib Require Import ZArith Lia.
From S2P Require Import Prelude Types Kueue QueueApi Scheduling Instances QueueInstances Resources Naming DerivedNames ImageNames Scripts WorkloadTypes Labels WorkloadApi Handlers WorkloadInstances PodSpecs Downloads Manifests ManifestTheory.

#[export] Instance textJson : JsonLib := {| MarshalLabels _ := inr "{}"; MarshalRayServiceSpec _ := inr "{}" |}.

(** * Entry points *)

Definition trainScript : string := "#!/bin/bash
torchrun train.py \
--lr 1 \ 
--epochs 3
echo done
".

Definition trainCommands : list (list bytes) :=
  [[bytesOf "#!/bin/bash"]; [bytesOf "torchrun train.py "; bytesOf "--lr 1 "; bytesOf "--epochs 3"]; [bytesOf "echo done"]].

(** A command ends in a character that is neither a backslash nor white space. *)
Lemma not_dangling l c : isRegexSpace c = false → c ≠ backslash → ¬ dangling (l ++ [c]).
Proof.
  intros Hc Hb (pre & ws & Heq & Hws). destruct ws as [|d ws] using rev_ind.
  - apply app_inj_tail in Heq as [_ ->]. done.
  - change (pre ++ backslash :: ws ++ [d]) with (pre ++ (backslash :: ws) ++ [d]) in Heq. rewrite app_assoc in Heq.
    apply app_inj_tail in Heq as [_ ->]. unfold blank in Hws. rewrite Forall_app, Forall_singleton in Hws. destruct Hws. congruence.
Qed.

Lemma trainCommands_written : Forall written trainCommands.
Proof.
  assert (∀ l, bool_decide (newline ∉ l) = true → oneLine l) as Hline by (intros l; apply bool_decide_eq_true).
  repeat constructor; try (apply Hline; vm_compute; reflexivity).
  - exists (bytesOf "#!/bin/bash"). split; [done|]. split; [by apply (not_dangling (bytesOf "#!/bin/bas"))|by left].
  - exists (bytesOf "--epochs 3"). split; [done|]. split; [by apply (not_dangling (bytesOf "--epochs "))|]. right.
    intros Hb. by inversion Hb.
  - exists (bytesOf "echo done"). split; [done|]. split; [by apply (not_dangling (bytesOf "echo don"))|by left].
Qed.

(** The text of each command; there is a blank after the second backslash. *)
Definition trainTexts : list bytes :=
  [bytesOf "#!/bin/bash"; bytesOf "torchrun train.py \
--lr 1 \ 
--epochs 3"; bytesOf "echo done"].

Lemma trainTexts_lines : Forall2 continuedLines trainCommands trainTexts.
Proof.
  assert (∀ l, bool_decide (newline ∉ l) = true → oneLine l) as Hline by (intros l; apply bool_decide_eq_true).
  repeat constructor.
  apply (continued_line (bytesOf "torchrun train.py ") []); [constructor|by apply Hline|].
  apply (continued_line (bytesOf "--lr 1 ") [spaceChar]); [by repeat constructor|by apply Hline|constructor].
Qed.

Lemma ConvertMultilineEntrypoint_commands_witness :
  ConvertMultilineEntrypoint trainScript false =
    inr [stringOf (trimSpace (bytesOf "/bin/bash")); "-c";
         stringOf (joinWith newline (joinWith spaceChar <$> [[bytesOf "torchrun train.py "; bytesOf "--lr 1 "; bytesOf "--epochs 3"]; [bytesOf "echo done"]]))].
Proof.
  apply (proj2 (ConvertMultilineEntrypoint_commands trainScript)) with (first := [bytesOf "#!/bin/bash"]) (texts := trainTexts)
    (commands := [[bytesOf "torchrun train.py "; bytesOf "--lr 1 "; bytesOf "--epochs 3"]; [bytesOf "echo done"]]).
  - vm_compute. reflexivity.
  - exact trainTexts_lines.
  - exact trainCommands_written.
  - reflexivity.
Defined.

(** * Downloads *)

Definition refM : ValueReference := {| vr_File := ""; vr_SecretName := "gcs"; vr_SecretKey := "credentials.json" |}.
Definition dataM : DataStorageSpec :=
  {| da_MountPath := "/workload"; da_StorageSize := "100"; da_Download :=
       {| ds_S3 := []; ds_GCS := [{| gcs_ApplicationCredentials := refM; gcs_Buckets := [] |}]; ds_AzureBlob := []; ds_Git := [] |} |}.
Definition hfM : HfStorageSpec := {| hs_MountPath := "/hf_cache"; hs_StorageSize := "50"; hs_PreCacheRepos := [] |}.
Definition storageM : StorageSpec :=
  {| ss_StorageEnabled := true; ss_StorageClassName := "nfs"; ss_AccessMode := "ReadWriteMany"; ss_Data := Some dataM; ss_HuggingFace := Some hfM |}.

Definition noJob : BatchJob :=
  {| jb_Name := ""; jb_Namespace := ""; jb_Labels := ∅;
     jb_Spec := {| js_Suspend := None; js_BackoffLimit := None; js_TTLSecondsAfterFinished := None; js_Rest := JNull;
       js_Template := {| pt_Labels := ∅; pt_Annotations := ∅; pt_ImagePullSecrets := []; pt_Volumes := []; pt_Containers := [];
         pt_InitContainers := []; pt_Tolerations := []; pt_Affinity := None; pt_RestartPolicy := ""; pt_SchedulerName := "";
         pt_SecurityContext := None; pt_Rest := JNull |} |} |}.
Definition jobOf (o : outcome BatchJob) : BatchJob := match o with Ok j => j | _ => noJob end.

Definition keyM : Key := mkKey "team" "train".
Definition downloadM : BatchJob := jobOf (buildDownloadJob keyM storageM []).

Lemma refM_plain : plain "gcs" ∧ plain "credentials.json".
Proof. split; split; by apply (bool_decide_eq_true_1 _); vm_compute. Qed.

(** A marshaller that writes the root alone. *)
#[local] Instance rootYaml : YamlLib := { Marshal c := inr ("downloadRoot: " +:+ dt_DownloadRoot c) }.

Definition configMapM : ConfigMap :=
  match buildDownloadConfigMap keyM storageM with Ok cm => cm | _ => {| cm_Name := ""; cm_Namespace := ""; cm_Data := ∅ |} end.

Lemma download_secrets_provided_witness :
  let t := js_Template (jb_Spec downloadM) in
  NoDup (v_Name <$> pt_Volumes t) ∧ jb_Namespace downloadM = cm_Namespace configMapM ∧
  ∃ config text r' c vc mc v m items item,
    Marshal config = inr text ∧ cm_Data configMapM = {[ "config.yaml" := text ]} ∧
    reference_at (configDownloads config) (GCSCredentials 0) = Some r' ∧ vr_SecretName r' = "gcs" ∧ vr_SecretKey r' = "credentials.json" ∧
    pt_Containers t = [c] ∧
    mc ∈ pc_VolumeMounts c ∧ vc ∈ pt_Volumes t ∧ vm_Name mc = v_Name vc ∧ v_Source vc = ConfigMapSource (cm_Name configMapM) ∧
    last (pc_Command c) = Some (vm_MountPath mc +:+ "/config.yaml") ∧
    m ∈ pc_VolumeMounts c ∧ v ∈ pt_Volumes t ∧ vm_Name m = v_Name v ∧
    v_Source v = SecretSource "gcs" items ∧ item ∈ items ∧ kp_Key item = "credentials.json" ∧
    vr_File r' = vm_MountPath m +:+ "/" +:+ kp_Path item.
Proof.
  apply (download_secrets_provided keyM storageM [] dataM configMapM downloadM (GCSCredentials 0) refM).
  - reflexivity.
  - discriminate.
  - vm_compute. reflexivity.
  - vm_compute. reflexivity.
  - reflexivity.
  - reflexivity.
  - apply refM_plain.
  - apply refM_plain.
Defined.

(** * Manifests *)

Definition cfgM : ManifestConfig :=
  {| mc_DefaultGpuTaintKey := "kaiwo.silogen.ai/gpu"; mc_AddTaintsToGpuNodes := true; mc_DefaultGpuResourceKey := "amd.com/gpu";
     mc_KubeSchedulerName := "kaiwo-scheduler"; mc_HeadPodMemory := "17179869184"; mc_DefaultRayImage := "ray:latest";
     mc_DefaultClusterQueueName := "kaiwo" |}.

Definition statsM : GPUStats :=
  {| TotalClusterGPUs := 16; TotalAllocatableGPUs := 16; MinAllocatableGPUsPerNode := 8; MinGPUsPerNode := 8; NodeGPUMap := ∅ |}.

Definition workloadM (kind : WorkloadKind) (ray : bool) : KaiwoWorkload :=
  {| kw_Kind := kind; kw_Name := "train"; kw_Namespace := "team"; kw_UID := "uid-train"; kw_ResourceVersion := 1; kw_Generation := 1;
     kw_CreationTimestamp := 0; kw_Labels := ∅;
     kw_Spec := {| ms_Gpus := 16; ms_GpuVendor := "amd"; ms_Replicas := None; ms_GpusPerReplica := 0; ms_Duration := None;
       ms_Resources := Some {| rq_Requests := Some ∅; rq_Limits := Some ∅ |}; ms_ClusterQueue := "" |};
     kw_User := "me"; kw_Storage := Some storageM; kw_Ray := ray; kw_HasRaySpec := false;
     kw_Status := {| cs_StartTime := None; cs_Conditions := []; cs_Status := WorkloadStatusNew; cs_Duration := 0; cs_ObservedGeneration := 0 |} |}.

Definition optionsM : PodOptions :=
  {| po_PodTemplateSpecLabels := ∅; po_Annotations := ∅; po_GpuModels := ["mi300x"]; po_PreferredTopologyLabel := "";
     po_RequiredTopologyLabel := ""; po_Image := "image:1"; po_ImagePullSecrets := []; po_Env := []; po_SecretVolumes := [];
     po_WorkloadPriorityClass := "" |}.

Definition inputM (kind : WorkloadKind) (ray : bool) : ManifestInput :=
  {| mi_Pod := {| pi_Workload := workloadM kind ray; pi_Options := optionsM |}; mi_Dangerous := false; mi_EntryPoint := "train";
     mi_ServeConfigV2 := ""; mi_Job := None; mi_RayJob := None; mi_RayService := None; mi_Deployment := None |}.

Definition builtM (kind : WorkloadKind) (ray : bool) : built :=
  match BuildDesired cfgM statsM (inputM kind ray) with Ok b => b | _ => BuiltJob noJob end.
Definition templateM (kind : WorkloadKind) : PodTemplateSpec :=
  match templatesOf (builtM kind false) with (_, t) :: _ => t | [] => js_Template (jb_Spec noJob) end.

Lemma BuildDesired_pods_witness :
  labelsOf (builtM KindKaiwoJob false) !! QueueLabel = Some (queueOf cfgM (workloadM KindKaiwoJob false)) ∧
  pt_Labels (templateM KindKaiwoJob) !! KaiwoRunIdLabel = Some "uid-train" ∧
  pt_Labels (templateM KindKaiwoJob) !! KaiwoNameLabel = Some "train" ∧ well_mounted (templateM KindKaiwoJob).
Proof.
  apply (BuildDesired_pods cfgM statsM (inputM KindKaiwoJob false) (builtM KindKaiwoJob false) false (templateM KindKaiwoJob)).
  - vm_compute. reflexivity.
  - apply Forall_nil_2.
  - vm_compute. left.
Defined.

Definition rcM : ResourceConfig :=
  {| rc_TotalGpus := 16; rc_Replicas := 2; rc_GpusPerReplica := 8; rc_GpuVendor := "amd";
     rc_DefaultResources := Some {| rq_Requests := Some ∅; rq_Limits := Some ∅ |} |}.

Definition kaiwoCfg : KaiwoConfigSpec :=
  {| kc_DefaultClusterQueueName := "kaiwo"; kc_DefaultClusterQueueCohortName := ""; kc_DynamicallyUpdateDefaultClusterQueue := false;
     kc_DefaultTopologyName := ""; kc_DefaultGpuTaintKey := "kaiwo.silogen.ai/gpu"; kc_ExcludeMasterNodesFromNodePools := false;
     kc_AddTaintsToGpuNodes := true |}.

Lemma gpu_pods_tolerate_witness :
  Exists (λ tol, tolerates tol (Nodepools.gpuTaint kaiwoCfg)) (pt_Tolerations (templateM KindKaiwoService)).
Proof.
  apply (gpu_pods_tolerate cfgM statsM (inputM KindKaiwoService false) (builtM KindKaiwoService false) rcM kaiwoCfg).
  - vm_compute. reflexivity.
  - vm_compute. reflexivity.
  - reflexivity.
  - right. reflexivity.
  - reflexivity.
  - reflexivity.
  - vm_compute. left.
  - vm_compute. discriminate.
Defined.

Definition recsM : list ResourceReconciler :=
  match storageReconcilers bareManifests keyM storageM with Ok recs => recs | _ => [] end.

Lemma claims_ensured_witness :
  (∃ rec, rec ∈ recsM ∧ rr_Kind rec = KindPersistentVolumeClaim ∧ rr_Key rec = mkKey "team" "train-data") ↔
    (data_sized storageM ∧ "train-data" = FormatNameWithPostfix "train" [DataStoragePostfix]) ∨
    (hf_downloaded storageM ∧ "train-data" = FormatNameWithPostfix "train" [HfStoragePostfix]).
Proof.
  apply (claims_ensured cfgM statsM (inputM KindKaiwoJob false) (builtM KindKaiwoJob false) false (templateM KindKaiwoJob)
    storageM recsM bareManifests).
  - vm_compute. reflexivity.
  - vm_compute. left.
  - reflexivity.
  - reflexivity.
Defined.

Lemma hf_claim_missing_witness :
  storageVolume (workloadM KindKaiwoJob false) HfStoragePostfix ∈ pt_Volumes (templateM KindKaiwoJob) ∧
  ¬ ∃ rec, rec ∈ recsM ∧ rr_Kind rec = KindPersistentVolumeClaim ∧ rr_Key rec = claimKey keyM HfStoragePostfix.
Proof.
  apply (hf_claim_missing cfgM statsM (inputM KindKaiwoJob false) (builtM KindKaiwoJob false) false (templateM KindKaiwoJob)
    storageM hfM recsM bareManifests).
  - vm_compute. reflexivity.
  - vm_compute. left.
  - reflexivity.
  - reflexivity.
  - discriminate.
  - reflexivity.
  - reflexivity.
  - intros p. rewrite !elem_of_cons, elem_of_nil. intros [->|[->|[]]]; vm_compute; reflexivity.
Defined.

Definition deploymentM : Deployment :=
  match buildDeployment cfgM statsM (inputM KindKaiwoService false) with Ok d => d
  | _ => {| dep_Name := ""; dep_Namespace := ""; dep_Labels := ∅; dep_Spec := GetDefaultDeploymentSpec cfgM false |} end.

Lemma deployment_selects_pods_witness :
  ∃ sel' ml', dp_Selector (dep_Spec deploymentM) = Some sel' ∧ ls_MatchLabels sel' = Some ml' ∧
    ml' !! "app" = Some "train" ∧ ml' ⊆ pt_Labels (dp_Template (dep_Spec deploymentM)) ∧
    dep_Labels deploymentM = pt_Labels (dp_Template (dep_Spec deploymentM)).
Proof.
  apply (deployment_selects_pods cfgM statsM (inputM KindKaiwoService false) deploymentM {| ls_MatchLabels := Some ∅; ls_MatchExpressions := JNull |} ∅).
  - vm_compute. reflexivity.
  - reflexivity.
  - reflexivity.
  - intros k v Hk. by rewrite lookup_empty in Hk.
Defined.

Definition wrapperM : AppWrapper :=
  match builtM KindKaiwoService true with BuiltAppWrapper a _ => a
  | _ => {| aw_Name := ""; aw_Namespace := ""; aw_Labels := ∅; aw_DeclaredPodSets := []; aw_Template := "" |} end.
Definition serviceM : RayService :=
  match builtM KindKaiwoService true with BuiltAppWrapper _ s => s
  | _ => {| rys_Name := ""; rys_Namespace := ""; rys_Labels := ∅; rys_Spec := GetDefaultRayServiceSpec cfgM false |} end.

Lemma wrapped_pods_witness :
  declaredPods wrapperM = 3 ∧ servicePods serviceM = 3 ∧ (declaredPods wrapperM = servicePods serviceM ↔ 1%nat = 1%nat ∨ 2 = 0).
Proof.
  apply (wrapped_pods cfgM statsM (inputM KindKaiwoService true) wrapperM serviceM rcM).
  - vm_compute. reflexivity.
  - vm_compute. reflexivity.
Defined.

Definition clusterM : RayClusterSpec :=
  match UpdateRayClusterSpec cfgM statsM (mi_Pod (inputM KindKaiwoService true)) (GetRayClusterTemplate cfgM false) with
  | Ok s => s | _ => GetRayClusterTemplate cfgM false end.

Lemma ray_head_gets_gpus_witness :
  Forall2 (λ c c', c_Requests c !! "amd.com/gpu" = None → c_Requests c' !! "amd.com/gpu" = Some 8)
    (resourcesOf (rcs_HeadTemplate (GetRayClusterTemplate cfgM false))) (resourcesOf (rcs_HeadTemplate clusterM)).
Proof.
  apply (ray_head_gets_gpus cfgM statsM (mi_Pod (inputM KindKaiwoService true)) (GetRayClusterTemplate cfgM false) clusterM rcM ∅ ∅ "amd.com/gpu").
  - vm_compute. reflexivity.
  - vm_compute. reflexivity.
  - reflexivity.
  - reflexivity.
  - reflexivity.
  - split; discriminate.
  - left. discriminate.
Defined.
