(* ===== verification/ClientWitnesses.v ===== *)
(** The theorems on the command line client at concrete inputs: instances of its libraries,
    and runs that show what the theorems say. *)

From stdpp Require Import gmap strings list pretty.
From Stdlib Require Import ZArith Lia.
From S2P Require Import Prelude History Text Float64 Types GpuResources Instances Kueue QueueApi Nodepools QueueInstances Scheduling WorkloadTypes Replicas QueueStats NodeStats Users Interactive Downloads Submit ConsoleApi Console ConsoleSteps ConsoleTheory LogLines LogDump LogTheory.

(** * Unstructured objects *)

Definition fieldOf (k : string) (fields : list (string * Json)) : option Json := snd <$> List.find (λ f, bool_decide (f.1 = k)) fields.

Fixpoint setField (k : string) (v : Json) (fields : list (string * Json)) : list (string * Json) :=
  match fields with
  | [] => [(k, v)]
  | (k', v') :: fields' => if decide (k' = k) then (k, v) :: fields' else (k', v') :: setField k v fields'
  end.

Fixpoint getPath (j : Json) (path : list string) : error + option Json :=
  match path with
  | [] => inr (Some j)
  | k :: ks =>
      match j with
      | JObj fields => match fieldOf k fields with Some v => getPath v ks | None => inr None end
      | _ => inl (Errorf "accessor error")
      end
  end.

Fixpoint setPath (j v : Json) (path : list string) : error + Json :=
  match path with
  | [] => inr v
  | k :: ks =>
      match j with
      | JObj fields =>
          match setPath (default (JObj []) (fieldOf k fields)) v ks with
          | inl e => inl e
          | inr v' => inr (JObj (setField k v' fields))
          end
      | _ => inl (Errorf "value cannot be set")
      end
  end.

Lemma fieldOf_setField k v fields k' : fieldOf k' (setField k v fields) = if decide (k' = k) then Some v else fieldOf k' fields.
Proof.
  unfold fieldOf. induction fields as [|[k1 v1] fields IH]; cbn.
  - repeat case_bool_decide; repeat case_decide; by subst.
  - destruct (decide (k1 = k)) as [->|Hk]; cbn.
    + repeat case_bool_decide; repeat case_decide; by subst.
    + case_bool_decide; [by subst; rewrite decide_False|]. done.
Qed.

Lemma getPath_empty q : q ≠ [] → getPath (JObj []) q = inr None.
Proof. by destruct q. Qed.

Lemma setPath_get j v p j' : setPath j v p = inr j' → getPath j' p = inr (Some v).
Proof.
  revert j j'. induction p as [|k p IH]; intros j j'; cbn; [by intros [= ->]|]. destruct j as [| | | | |fields]; try done.
  destruct (setPath _ v p) as [e|v'] eqn:E; [done|]. intros [= <-]. cbn. rewrite fieldOf_setField, decide_True by done. by eapply IH.
Qed.

Lemma setPath_other j v p j' q : apart p q → setPath j v p = inr j' → getPath j' q = getPath j q.
Proof.
  revert j j' q. induction p as [|k p IH]; intros j j' q [Hpq Hqp]; [destruct Hpq; by exists q|].
  destruct q as [|k' q]; [destruct Hqp; by exists (k :: p)|]. cbn. destruct j as [| | | | |fields]; try done.
  destruct (setPath _ v p) as [e|v'] eqn:E; [done|]. intros [= <-]. cbn. rewrite fieldOf_setField. case_decide as Hk; [|done]. subst.
  assert (apart p q) as Hap by (split; intros [r ->]; [apply Hpq|apply Hqp]; by exists r).
  rewrite (IH _ _ _ Hap E). destruct (fieldOf k fields) as [w|]; [done|]. cbn. apply getPath_empty. intros ->.
  destruct Hap as [_ Hap]. apply Hap. by exists p.
Qed.

#[refine, export] Instance plainUnstructured : UnstructuredLib := { NestedFieldCopy := getPath; SetNestedField := setPath }.
Proof.
  - intros obj value fields obj' _. apply setPath_get.
  - intros obj value fields obj' other. apply setPath_other.
Defined.

#[export] Instance plainYaml : YamlReader := {|
  UnmarshalConfig text := inr {| cli_User := text; cli_ClusterQueue := "team-a" |};
  UnmarshalManifest text := inl (Errorf "not yaml");
  CliErrorText e := "error"
|}.

#[refine, export] Instance clampedTable : TableLib := {
  table_update n msg c :=
    match msg with
    | KeyMsg k => if decide (k = "down") then Z.max 0 (Z.min (c + 1) (Z.of_nat n - 1)) else if decide (k = "up") then Z.max 0 (c - 1) else c
    | OtherMsg => c
    end
}.
Proof. intros n msg c Hc. destruct msg; [|done]. repeat case_decide; lia. Defined.

(** * Submitting *)

Definition liveJob : Json := JObj [("metadata", JObj [("name", JStr "train"); ("namespace", JStr "default")]); ("spec", JObj [("user", JStr "eve")])].
Definition newJob : Json := JObj [("metadata", JObj [("name", JStr "train")]); ("spec", JObj [("gpus", JNum 4)])].

Definition submitFlags : SubmitFlags :=
  {| fl_user := "ada@example.com"; fl_queue := ""; fl_namespace := ""; fl_file := "job.yaml"; fl_config := "config.yaml" |}.

(** A server that has an object, or none, and a user with a configuration. *)
Definition submitWorld (live : error + Json) (r : submit_req) (w : list Json) : submit_resp r * list Json :=
  match r return submit_resp r * list Json with
  | OpenFile _ | CloseFile | MkdirAll _ | CreateFile _ | Encode _ | GetClients => (None, w)
  | UpdateManifest o | CreateManifest o => (None, w ++ [o])
  | ReadFile _ => (inr "bob@example.com", w)
  | ReadStdin => (inr "", w)
  | UserHomeDir => (inr "/home/ada", w)
  | Decode _ => (inr newJob, w)
  | GetManifest _ => (live, w)
  | Stat _ => (NotExist, w)
  | ConfirmConfig _ => (inr false, w)
  | AskConfig _ _ => (inr ("", ""), w)
  end.

Definition submitted (live : error + Json) : session unit * list Json :=
  let '(_, r, w) := run (S := SubmitSig) (submitWorld live) (runSubmitCmd 1 submitFlags) [] in (r, w).

Example submit_new : submitted (inl (StatusError ReasonNotFound)) =
  (Done (Ok ()), [JObj [("metadata", JObj [("name", JStr "train"); ("namespace", JStr "default")]);
                        ("spec", JObj [("gpus", JNum 4); ("user", JStr "ada@example.com"); ("clusterQueue", JStr "team-a")])]]).
Proof. vm_compute. reflexivity. Qed.

(** The GPUs of the manifest never reach the object that exists. *)
Example submit_existing : submitted (inr liveJob) = (Done (Ok ()), [liveJob]).
Proof. vm_compute. reflexivity. Qed.

(** * Status *)

Definition queueNamed (name : string) : KueueClusterQueue :=
  {| kq_Meta := named name; kq_Spec := {| ks_ResourceGroups := None; ks_Cohort := ""; ks_QueueingStrategy := ""; ks_NamespaceSelector := None;
       ks_FlavorFungibility := None; ks_Preemption := None; ks_AdmissionChecks := None; ks_AdmissionChecksStrategy := None;
       ks_StopPolicy := None; ks_FairSharing := None |} |}.

Definition localIn (namespace name cluster : string) : KueueLocalQueue :=
  {| lq_Meta := {| om_Name := name; om_Namespace := namespace; om_ResourceVersion := 1; om_Finalizers := []; om_DeletionTimestamp := None; om_OwnerReferences := [] |};
     lq_ClusterQueue := cluster |}.

Definition gpuJob (namespace queue : string) (admitted : bool) : StatWorkload :=
  {| sw_Namespace := namespace; sw_QueueName := queue;
     sw_PodSets := [{| ps_Containers := [{| c_Name := "main"; c_Requests := {[ "amd.com/gpu" := 4 ]}; c_Limits := ∅ |}]; ps_InitContainers := [] |}];
     sw_Conditions := []; sw_Admitted := admitted |}.

(** Local queues of one name in two namespaces share their counters. *)
Example namesakes_share :
  queueStats "amd.com/gpu" [queueNamed "kaiwo"] [localIn "a" "kaiwo" "kaiwo"; localIn "b" "kaiwo" "kaiwo"] [gpuJob "a" "kaiwo" true] =
  Some [["kaiwo"; "[TOTAL]"; "1"; "0"]; ["kaiwo"; "kaiwo"; "1"; "0"]; ["kaiwo"; "kaiwo"; "1"; "0"]].
Proof. vm_compute. reflexivity. Qed.

(** One workload with a mistyped queue name brings the command down. *)
Example mistyped_queue_panics :
  queueStats "amd.com/gpu" [queueNamed "kaiwo"] [localIn "a" "kaiwo" "kaiwo"] [gpuJob "a" "kaiow" false] = None.
Proof. vm_compute. reflexivity. Qed.

Definition podOn (node : string) (gpus : Z) : StatPod := {| sp_NodeName := node; sp_Requests := [{[ "amd.com/gpu" := NewQuantity gpus DecimalSI ]}] |}.

Lemma nodeUse_spec_witness :
  "node1" ≠ "" ∧ q_Nano (amountOf (nu_requested (nodeUse [podOn "node1" 2; podOn "" 5; podOn "node1" 3])) "node1" "amd.com/gpu") = 5 * 10 ^ 9.
Proof.
  split; [done|]. pose proof (proj1 (nodeUse_spec [podOn "node1" 2; podOn "" 5; podOn "node1" 3] "node1" "amd.com/gpu" ltac:(done))) as ->.
  vm_compute. reflexivity.
Defined.

(** * Dumping logs *)

(** Times of one minute of one day, and one line that decodes. *)
#[export] Instance tinyLogs : LogLib := {|
  ParseRFC3339Nano s := (λ n, n * 10 ^ 9) <$> Str.Atoi (String.substring 17 2 s);
  ParseRFC3339 _ := None;
  DecodeObject s :=
    if decide (s = "{warn}") then
      Some (list_to_map [("severity", LvString "WARNING"); ("msg", LvString "slow"); ("Namespace", LvString "tests"); ("pod", LvNumber "7")])
    else None;
  FormatTime t := pretty (t / 10 ^ 9);
  FormatSeconds t := pretty (t / 10 ^ 9);
  Quote s := s
|}.

Definition dumpEvent : EventCore :=
  {| ec_EventTime := zeroTime; ec_LastTimestamp := 30 * 10 ^ 9; ec_FirstTimestamp := 20 * 10 ^ 9; ec_Type := "warning"; ec_Reason := "BackOff";
     ec_Message := "again"; ec_Count := 3; ec_InvolvedKind := "Pod"; ec_InvolvedName := "p"; ec_ReportingController := "kubelet" |}.

(** One pod in every namespace, whose lines are out of order; the scheduler takes the last
    goroutine first. The world keeps what is printed. *)
Definition dumpWorld (readable : bool) (r : dump_req) (w : list string) : dump_resp r * list string :=
  match r return dump_resp r * list string with
  | TimeNow => (0, w)
  | BuildKubeClient | OpenStream _ _ _ _ | CloseStream _ _ _ | OpenLocal _ | CloseLocal _ => (None, w)
  | ListNamespacePods ns | ListSelectedPods ns _ => (inr [{| dp_Namespace := ns; dp_Name := "p"; dp_Containers := ["c"] |}], w)
  | ListEventsV1 _ => (inl (Errorf "gone"), w)
  | ListEventsCore _ => (inr [dumpEvent], w)
  | GetDumpDeployment ns name => (if decide (name = "kuberay-operator") then inl (StatusError ReasonNotFound)
                                  else inr {| dd_Namespace := ns; dd_Name := name; dd_MatchLabels := Some ∅ |}, w)
  | ReadStream ns _ _ =>
      ((if decide (ns = "tests") then ["2025-01-01T00:00:20Z {warn}"; "2025-01-01T00:00:10Z  hello "]
       else ["2025-01-01T00:00:05Z early"; "2025-01-01T00:00:15Z between"; "2025-01-01T00:00:40Z late"],
        if readable : bool then None else Some (Errorf "cut off")), w)
  | ReadLocal _ => (([], None), w)
  | Schedule sizes => ([length sizes - 1]%nat, w)
  | FirstError _ => (0%nat, w)
  | SentLate => (false, w)
  | Println t => ((), w ++ [t])
  | PrintError _ => ((), w)
  end.

Definition dumpOptions : options :=
  {| controllerDeployments := ["kueue-system/kueue-controller-manager"]; kaiwoDeployment := "kaiwo-system/kaiwo-controller-manager";
     localLogsPath := ""; limitLines := 0; namespacedLevel := levelInfo; clusterLevel := levelInfo |}.

Definition dumped (readable : bool) : list string :=
  let '(_, _, w) := run (S := DumpSig) (dumpWorld readable) (kaiwoDump (λ _, "gone") dumpOptions "tests") [] in w.

(** Two controllers and the pod have said [between] and more; what is outside of the seconds
    from 10 to 30 is left out, and the rest is in order. *)
Example dump_shown :
  map (λ l, List.filter (Str.Contains l) ["early"; "hello"; "between"; "slow"; "[BackOff] again"; "late"]) (dumped true) =
  [[]; ["hello"]; ["between"]; ["between"]; ["slow"]; ["[BackOff] again"]].
Proof. vm_compute. reflexivity. Qed.

Example dump_line : nth 1 (dumped true) "" =
  "10 (0s)  " +:+ color "32" +:+ "INFO     " +:+ colorReset +:+ "  " +:+ color "34" +:+ "NamespacePod" +:+ colorReset +:+
  " " +:+ colorOrange +:+ "ns/tests            " +:+ colorReset +:+ "  " +:+ colorWhite +:+ "hello" +:+ colorReset +:+
  " " +:+ colorGray +:+ "ns=tests" +:+ colorReset.
Proof. vm_compute. reflexivity. Qed.

(** When a stream breaks off, nothing of what was read is shown. *)
Example dump_cut_off : dumped false = ["collectEventsV1: gone"].
Proof. vm_compute. reflexivity. Qed.
