(* ===== verification/OperatorWitnesses.v ===== *)
(** The theorems on the operator's start, its watches and its loops at concrete inputs. *)

From stdpp Require Import gmap strings list.
From Stdlib Require Import ZArith Lia.
From S2P Require Import Prelude History Float64 Types GpuResources GpuApi Instances Scraper Kueue QueueApi Scheduling Nodepools QueueInstances WorkloadTypes WorkloadApi Handlers WorkloadInstances Monitoring WorkloadWitnesses WorkloadTheory Watches Tickers Endpoint Startup.

(** * A host with preemption and webhooks enabled *)

(** The polling interval of the scraper is a setting of the host. *)
Definition operatorHost (polling : string) : Host := {|
  Getenv v :=
    if decide (v = EnvEnabled) then "true"
    else if decide (v = EnvMetricsEndpoint) then "http://metrics"
    else if decide (v = EnvPollingInterval) then polling
    else if decide (v = "DISABLE_WEBHOOKS") then "false"
    else "";
  ParseFloat s := None;
  ParseDuration s := if decide (s = "15s") then Some (15 * Second) else if decide (s = "0s") then Some 0 else None;
  URLScheme s := if Str.HasPrefix s "http://" then Some "http" else None;
  FormatDuration d := "duration";
  FormatFloat1 x := "float";
  ParseGroupVersion s := Some ("", s);
  NestedMap := nestedField;
  FromUnstructured j := None
|}.

Definition errorWord (e : error) : string := "error".
Definition unparsable (s : string) : error := Errorf s.
Definition joined (dir file : string) : string := dir +:+ "/" +:+ file.

(** Certificates for both servers are given. *)
Definition flagsT : Flags := {|
  fl_metricsAddr := ":8443"; fl_probeAddr := ":8081"; fl_enableLeaderElection := true; fl_secureMetrics := true;
  fl_webhookCertPath := "/webhook"; fl_webhookCertName := "tls.crt"; fl_webhookCertKey := "tls.key";
  fl_metricsCertPath := "/metrics"; fl_metricsCertName := "tls.crt"; fl_metricsCertKey := "tls.key"; fl_enableHTTP2 := false |}.

Lemma settings_readable : @settings_ok (operatorHost "15s") errorWord unparsable.
Proof. split; [intros _; by eexists|done]. Qed.

Lemma main_starts_ready_witness :
  @settings_ok (operatorHost "15s") errorWord unparsable ∧
  always succeeding (@main (operatorHost "15s") errorWord unparsable joined flagsT) (λ tr o, o = Ok tt ∧ made tr StartManager).
Proof.
  split; [exact settings_readable|]. apply (@main_starts_ready (operatorHost "15s") errorWord unparsable joined flagsT).
  exact settings_readable.
Defined.

(** A world in which everything succeeds but the read of the configuration. *)
Definition fresh_cluster (r : start_req) (w : unit) : start_resp r * unit :=
  (match r return start_resp r with
   | HostName => inr "kaiwo-0"
   | ProcessId => 7
   | GetKaiwoConfigObject _ => Some (StatusError ReasonNotFound)
   | _ => None
   end, w).

(** What the operator calls there, the options of the manager left out. *)
Definition called (e : event StartSig) : option start_req := match projT1 e with NewManager _ => None | r => Some r end.

Example fresh_start :
  let '(tr, o, _) := run (S := StartSig) fresh_cluster (@main (operatorHost "15s") errorWord unparsable joined flagsT) tt in
  o = Ok tt ∧
  omap called tr =
    [NewCertWatcher {| cwt_Cert := "/webhook/tls.crt"; cwt_Key := "/webhook/tls.key" |};
     NewCertWatcher {| cwt_Cert := "/metrics/tls.crt"; cwt_Key := "/metrics/tls.key" |};
     GetRestConfig; Complete KaiwoJobController; Complete KaiwoServiceController; Add defaultQueueConfig;
     Complete KaiwoQueueConfigController; CompleteWebhook JobWebhook; CompleteWebhook RayJobWebhook;
     CompleteWebhook RayServiceWebhook; CompleteWebhook DeploymentWebhook;
     Add (certWatcher {| cwt_Cert := "/metrics/tls.crt"; cwt_Key := "/metrics/tls.key" |});
     Add (certWatcher {| cwt_Cert := "/webhook/tls.crt"; cwt_Key := "/webhook/tls.key" |});
     HostName; ProcessId; Complete (GpuWorkloadController "gpuworkload-kaiwo-0-7");
     Add (gpuScraper {| metricsEndpoint := "http://metrics"; pollInterval := 15 * Second |});
     NewClient; GetKaiwoConfigObject "kaiwo"; CreateKaiwoConfigObject "kaiwo"; AddHealthzCheck "healthz";
     AddReadyzCheck "readyz"; StartManager].
Proof. vm_compute. done. Qed.

(** * Intervals *)

(** An interval of zero passes the checks of the constructor and takes the loop down. *)
Example zero_interval n :
  @NewGpuMetricsScraper (operatorHost "0s") = inr {| metricsEndpoint := "http://metrics"; pollInterval := 0 |} ∧
  startScraper {| metricsEndpoint := "http://metrics"; pollInterval := 0 |} n = mret Crashed.
Proof. split; reflexivity. Qed.

(** A parser that knows the empty text only. *)
#[export] Instance blankFormat A : TextFormat A := {| TextToMetricFamilies_empty := eq_refl;
  TextToMetricFamilies s := if decide (s = "") then inr ∅ else inl (Errorf "text format parsing error") |}.

Definition scraperT : GpuMetricsScraper := {| metricsEndpoint := "http://metrics"; pollInterval := 15 * Second |}.
Definition watcherT : MetricsWatcher := {| mw_metricsEndpoint := "http://metrics"; mw_pollInterval := 30 * Second |}.

Lemma error_page_crashes_watcher_witness :
  always (error_page 503) (scrape scraperT) (λ _ r, ∃ e, r = inl e) ∧
  always (lifted (exposes cfgT ∅)) (startWatcher errorWord watcherT 1) (λ tr e,
    (e = Returned ∧ tr = [ev (S := Ticks WorkSig) Select ContextDone]) ∨
    (e = Crashed ∧ ∃ tr', tr = ev (S := Ticks WorkSig) Select Tick :: tr')).
Proof.
  destruct (error_page_crashes_watcher errorWord 503 scraperT watcherT cfgT 0) as [[H1 _] [_ H2]]; [lia|done|done|]. by split.
Defined.

(** * Watches *)

(** A filter that lets everything pass. *)
Definition passing (K : WatchKind) : predicate (object K) := everything.

Example job_is_watched :
  Watches.seen passing KindKaiwoJob KindJob ↔ KindJob ∉ [KindPersistentVolumeClaim; KindConfigMap].
Proof. apply (observed_objects_watched bareManifests passing flagged (wr_Resource (workloadHandler bareManifests flagged))). by left. Qed.

(** A job whose only change is its first failed pod. *)
Definition jobT : JobObject :=
  {| jo_Object := {| ch_Kind := KindJob; ch_Name := "train"; ch_Namespace := "team"; ch_UID := "uid"; ch_Generation := 1;
                     ch_OwnerReferences := []; ch_Replicas := None; ch_Content := JNull; ch_Status := NoStatus |};
     jo_Conditions := []; jo_Failed := 0; jo_Ready := None; jo_Active := 1 |}.

Example failed_pod_filtered :
  JobStatusChangedPredicate (UpdateEvent jobT (one_failed jobT)) = false ∧
  observeBatchJobObject (jobChild jobT) WorkloadStatusStarting = mret (Ok (Some WorkloadStatusStarting, [])) ∧
  observeBatchJobObject (jobChild (one_failed jobT)) WorkloadStatusStarting = mret (Ok (Some WorkloadStatusFailed, [])).
Proof. done. Qed.

(** An update of its specification. *)
Definition jobT' : JobObject :=
  {| jo_Object := {| ch_Kind := KindJob; ch_Name := "train"; ch_Namespace := "team"; ch_UID := "uid"; ch_Generation := 2;
                     ch_OwnerReferences := []; ch_Replicas := None; ch_Content := JNull; ch_Status := NoStatus |};
     jo_Conditions := []; jo_Failed := 0; jo_Ready := None; jo_Active := 1 |}.

Lemma unseen_updates_unobserved_witness :
  observeBatchJobObject (jobChild jobT) WorkloadStatusRunning = observeBatchJobObject (jobChild jobT') WorkloadStatusRunning.
Proof.
  apply (unseen_updates_unobserved bareManifests passing flagged (wr_Resource (workloadHandler bareManifests flagged)) jobT jobT').
  - by left.
  - done.
  - intros Hw. by apply (job_wakes passing KindKaiwoJob (UpdateEvent jobT jobT')) in Hw.
  - by split.
Defined.
